(* ===== verification/_CoqProject ===== *)
-Q . S2P
Prelude.v
Errors.v
Sha256.v
ByteIO.v
Transaction.v
Block.v
Utxo.v
TxValidation.v
BlockValidation.v
Samples.v
CoreTheorems.v
Mempool.v
PoolTheorems.v
Chain.v
BlockBuilder.v
ChainStore.v
ChainTheorems.v
P2pMessage.v
Effects.v
Text.v
SocketIO.v
Handles.v
Peers.v
Config.v
ConfigJson.v
Args.v
P2pPayloads.v
NetTheorems.v
Fuzz.v
PeerState.v
PeerInv.v
Network.v
RelaySync.v
Liveness.v
RelayCases.v
NodeStart.v
Serving.v
Scenario.v
Simulator.v
Twins.v
NodeSamples.v
Shipped.v
NodeTheorems.v
SessionTheorems.v
ServerTheorems.v
Cli.v
CliTheorems.v
