(* ===== verification/Prelude.v ===== *)
(** * Verification of the blockchain node

    A library of definitions and theorems about the C++ node under [src/]: a chain of
    blocks over unspent outputs, a memory pool, block production, an on-disk ledger, a
    peer-to-peer protocol over TCP, a relay node, a simulator and the program that runs
    them from a command line or a configuration file.  Every function of the modelled
    files is a Rocq function of the same name (prefixed where two classes share a name);
    pure code is translated as it stands, a method that changes its object takes the
    object and returns it next to its [Result], and code that calls the operating system
    takes the answers of the system as arguments.

    ** Conventions

    Unsigned integers are [Z] with explicit wrap-around ([wrap32], [wrap64]); a
    [std::size_t] that counts the elements of a container does not wrap.  Byte strings and
    digests are [list byte]; [std::map] and [std::set] are [gmap] and [gset], with
    [in_order] for iteration; [std::sort] is [std_sort], and the order theorems show that
    no other correct sort could differ.  [Result<T>] is the sum [Result] with its bind.
    The ranges of the C++ types are predicates ([is_u64], [tx_typed], [block_typed], ...)
    that the theorems assume of their inputs and that every operation preserves.

    ** Files

    - [Prelude]: integers, bytes, sorting, ordered maps, sums over maps, tactics.
    - [Errors] ([error.hpp]): error codes and results, tactics for result chains.
    - [Sha256] ([crypto/]): the streaming SHA-256, hexadecimal.
    - [ByteIO] ([serialization/]): writer and reader; the class [CodecOk] is the contract
      every format is proved against: values read back, and only encodings are accepted.
    - [Transaction], [Block] ([protocol/]): formats, identifiers, Merkle root.
    - [Utxo] ([state/]), [TxValidation], [BlockValidation] ([validation/]): coins and
      consensus rules; [block_applies] is the transition without the order of the checks.
    - [Mempool] ([mempool/]): policy, admission, eviction, orderings, restoring.
    - [Chain] ([consensus/]): tip and coins; [chain_of] are the executions.
    - [BlockBuilder] ([production/]): the producer.
    - [ChainStore] ([storage/]): ledger format, replay, file operations; [wstep] is the
      system-call state machine of the atomic write.
    - [P2pMessage], [P2pPayloads] ([net/]): wire formats; the class [PayloadOk] is what the
      rest of the node relies on.
    - [Effects]: methods that change an object ([SR]) and methods that talk to a peer
      ([CR], over conversations [Conn]); what they keep, and systems whose steps commute.
    - [Text]: the characters and numbers of the standard library the sources use.
    - [SocketIO] ([net/socket_io]): sockets as trees of system calls ([Sock]), their
      executions on bytes ([exec]) and conversations on messages ([talks]).
    - [Handles] ([net/socket_io]): which object owns which socket handle.
    - [Peers]: two programs and the messages between them, as a step relation.
    - [Config], [ConfigJson], [Args] ([node/config], [node/config_json]): settings, the
      language of configuration files ([parses_as]), the command line.
    - [PeerState], [PeerInv] ([node/peer_state], [node/genesis]): the relay node with its
      message handlers, and its invariant [peer_ok].
    - [Network], [RelaySync] ([node/network]): sessions of both sides, and what they do
      to each other.
    - [Liveness]: how many messages a session sends and receives against every peer, and why
      two sessions never wait for each other.
    - [RelayCases]: relay sessions between nodes whose chains differ, and with transactions
      to announce.
    - [NodeStart]: starting from nothing and from a ledger, after a save and after a crash.
    - [Serving] ([run_relay_server]): peers that behave as a program ([is_program]), the
      accept loop over them, clients that follow a server, and peers that are refused.
    - [Scenario] ([scripts/local_network.sh]): a seed and a client from their configurations
      to one chain and to the client's ledger.
    - [Simulator] ([node/simulator]), [Cli] ([cli/main]): scripted runs and the program.
    - [Twins]: the simulator's code for mining and admission against the node's.
    - [Shipped] ([configs/]): the example configurations and what the parser makes of them.
    - [Fuzz] ([fuzz/]): the fuzz targets, with what holds of them on every input.
    - [Samples], [NodeSamples]: concrete blocks, chains and nodes on which the theorems are
      instantiated.
    - [CoreTheorems], [PoolTheorems], [ChainTheorems], [NetTheorems], [NodeTheorems],
      [SessionTheorems], [ServerTheorems], [CliTheorems]: the properties.

    ** How the parts fit together

    [submit_block] uses validation and prunes the pool; the node adds a catalog of blocks by
    height and saves both through the ledger.  Handlers are conversations, so one definition
    is run three ways: against all answers of a peer ([every], for invariants, and [within],
    for bounds), against another program in every interleaving ([net_step], for what two
    nodes reach together), and against a socket that splits bytes at will ([over_socket]).
    [conversation_over_tcp] is what allows the first two to speak of messages.  A server that
    talks to one peer after another is run against answers ([play]); [play_program] turns a
    result about two programs into one about the peer that is such a program.

    ** What the theorems show

    [CoreTheorems]: hashing equals the FIPS reference; formats round-trip and are
    canonical; the Merkle root binds the transactions; validation accepts exactly the
    specified transactions and blocks, conserves value and respects maturity.
    [PoolTheorems]: the pool invariant, which transactions are admitted and what is evicted
    for them, termination of the eviction loop, exact fee-rate arithmetic, unique orderings, snapshots.  [ChainTheorems]: all-or-nothing
    submission, bounded supply, commitment of the tip to the history, production of blocks
    the chain accepts, ledger round trips, replay, restart, crash safety.  [NetTheorems]:
    wire round trips and their limits.  [NodeTheorems]: the invariant of a running node, what
    a synchronisation reaches and where its limit is, the ping exchange, transparency of the
    transport, ownership of sockets, starting, restarting after a save or a crash, and
    cutting a scripted run in two.  [SessionTheorems]: sessions end, within bounds for every
    peer and without deadlock against each other; the one announced height for which the
    client does not; nodes whose chains differ keep them; an announced transaction is mined
    and comes back in a block; two nodes started from configurations agree, and the ledger
    the client saves starts a node on the same chain; the simulator and the node are one
    program.  [ServerTheorems]: a server serves as many clients as it is told and can start
    again from what it has saved, a transaction of one of its peers reaches the peers after it,
    and one refused transaction ends it.  [CliTheorems]: the language of configuration files,
    the command line and its ranges, the program end to end, its exit codes, and what the
    example of the simulator really runs.
    Theorems whose name states a defect record behaviour that contradicts a comment or an
    intention of the sources.

    ** Fuel

    [merkle_loop] runs on the number of leaves, which halves each round
    ([merkle_loop_depth]); [evict_loop] on one more than the number of entries, each round
    removing one ([evict_loop_run], [evict_loop_more]; [accept] never answers that the fuel
    has run out); [send_loop] and [recv_loop] on the number of bytes left
    ([exec_send_loop], [exec_recv_loop]); [parse_members] on the number of characters left
    ([parse_members_fuel]); [sync_loop] on the heights left, which is enough for all targets
    but the greatest ([sync_loop_done]), where the source does not end
    ([greatest_height_never_ends]).  [relay_loop] counts the 64 messages of the source.  All
    other recursions are structural.

    ** Not modelled

    The Windows branches of the socket code; where an exception of the standard library
    (such as memory exhaustion) is thrown, which [main] takes as an argument; texts that
    come from [errno]; time-outs, of which the sources have none; tests, benchmarks and
    scripts.  A send to a peer that has ended succeeds in [Peers], as it does while the
    system buffers it.  Hash collisions are explicit hypotheses ([collision_free]) where a
    theorem needs their absence. *)

From stdpp Require Export base tactics list gmap sets fin_maps fin_map_dom strings sorting pretty.
From Stdlib Require Export ZArith Lia.
From Stdlib Require Import Strings.Byte.

#[global] Open Scope Z_scope.
#[global] Arguments Z.of_nat : simpl never.
#[global] Arguments Z.to_nat : simpl never.

(** ** Machine integers

    Unsigned C++ integers are [Z] values kept in range by these wrap functions;
    [std::size_t] is 64 bits wide on the supported platforms. *)

Definition wrap16 (z : Z) : Z := z mod 2 ^ 16.
Definition wrap32 (z : Z) : Z := z mod 2 ^ 32.
Definition wrap64 (z : Z) : Z := z mod 2 ^ 64.

Definition UINT16_MAX : Z := 0xFFFF.
Definition UINT32_MAX : Z := 0xFFFFFFFF.
Definition UINT64_MAX : Z := 0xFFFFFFFFFFFFFFFF.

Definition is_u8 (z : Z) : Prop := 0 ≤ z < 2 ^ 8.
Definition is_u16 (z : Z) : Prop := 0 ≤ z < 2 ^ 16.
Definition is_u32 (z : Z) : Prop := 0 ≤ z < 2 ^ 32.
Definition is_u64 (z : Z) : Prop := 0 ≤ z < 2 ^ 64.

(** [u_simpl] opens the range predicates and evaluates their bounds, [solve_u]
    closes the linear goals that remain. *)
Ltac u_simpl :=
  unfold is_u8, is_u16, is_u32, is_u64, wrap16, wrap32, wrap64,
    UINT16_MAX, UINT32_MAX, UINT64_MAX in *;
  change (2 ^ 8) with 256 in *;
  change (2 ^ 16) with 65536 in *;
  change (2 ^ 32) with 4294967296 in *;
  change (2 ^ 64) with 18446744073709551616 in *.
Ltac solve_u := u_simpl; lia.
(** The same with divisions and remainders by constants. *)
Ltac solve_u_div := u_simpl; Z.to_euclidean_division_equations; lia.

#[global] Instance is_u8_dec z : Decision (is_u8 z).
Proof. unfold is_u8. apply _. Defined.
#[global] Instance is_u16_dec z : Decision (is_u16 z).
Proof. unfold is_u16. apply _. Defined.
#[global] Instance is_u32_dec z : Decision (is_u32 z).
Proof. unfold is_u32. apply _. Defined.
#[global] Instance is_u64_dec z : Decision (is_u64 z).
Proof. unfold is_u64. apply _. Defined.

Lemma wrap32_small z : is_u32 z → wrap32 z = z.
Proof. apply Z.mod_small. Qed.
Lemma wrap64_small z : is_u64 z → wrap64 z = z.
Proof. apply Z.mod_small. Qed.
Lemma wrap32_range z : is_u32 (wrap32 z).
Proof. by apply Z.mod_pos_bound. Qed.
Lemma wrap64_range z : is_u64 (wrap64 z).
Proof. by apply Z.mod_pos_bound. Qed.

(** Proves a decidable proposition about closed terms by evaluation. *)
Ltac vm_decide := apply (bool_decide_unpack _); vm_compute; exact I.

(** Proves an equation between closed terms by evaluation of both sides. *)
Ltac vm_eq := lazymatch goal with |- ?a = ?b => vm_cast_no_check (@eq_refl _ b) end.

(** Size of a container, as the [std::size_t] that [size()] returns. *)
Abbreviation size_z l := (Z.of_nat (length l)).

(** ** Bytes *)

Abbreviation byte := Byte.byte.

#[global] Instance byte_eq_dec : EqDecision byte := Byte.byte_eq_dec.
#[global] Instance byte_countable : Countable byte.
Proof. refine (inj_countable Byte.to_N Byte.of_N _). apply Byte.of_to_N. Defined.
#[global] Instance byte_inhabited : Inhabited byte := populate x00.

(** [std::to_integer<unsigned>(b)] *)
Definition byte_val (b : byte) : Z := Z.of_N (Byte.to_N b).

(** [static_cast<std::byte>(z)]: the low eight bits. *)
Definition byte_of (z : Z) : byte :=
  default x00 (Byte.of_N (Z.to_N (z mod 256))).

Lemma byte_val_range b : 0 ≤ byte_val b < 256.
Proof. unfold byte_val. pose proof (Byte.to_N_bounded b). lia. Qed.

Lemma byte_val_of z : byte_val (byte_of z) = z mod 256.
Proof.
  unfold byte_val, byte_of.
  pose proof (Z.mod_pos_bound z 256 ltac:(lia)) as Hz.
  destruct (Byte.of_N (Z.to_N (z mod 256))) as [b|] eqn:E.
  - simpl. rewrite (Byte.to_of_N _ E). lia.
  - apply Byte.of_N_None_iff in E. lia.
Qed.

Lemma byte_val_inj b1 b2 : byte_val b1 = byte_val b2 → b1 = b2.
Proof.
  unfold byte_val. intros H%N2Z.inj.
  pose proof (Byte.of_to_N b1). pose proof (Byte.of_to_N b2). congruence.
Qed.

(** ** Sorting and ordered containers

    [std::sort] with comparator [comp] and the in-order traversal of a [std::map]
    whose comparator is [less].  Both are modelled by a stable merge sort; the
    lemmas below show that, for the comparators of this code base, every correct
    sort yields the same list. *)

Section Sorting.
Context {A : Type} (comp : A → A → bool).

Definition not_after (a b : A) : Prop := comp b a = false.

#[global] Instance not_after_dec a b : Decision (not_after a b).
Proof. unfold not_after. apply _. Defined.

Definition std_sort (l : list A) : list A := merge_sort not_after l.

Lemma std_sort_perm l : std_sort l ≡ₚ l.
Proof. apply merge_sort_Permutation. Qed.

Lemma elem_of_std_sort l x : x ∈ std_sort l ↔ x ∈ l.
Proof. by rewrite std_sort_perm. Qed.

Lemma Sorted_StronglySorted_local (R : relation A) l :
  (∀ x y z, x ∈ l → y ∈ l → z ∈ l → R x y → R y z → R x z) →
  Sorted R l → StronglySorted R l.
Proof.
  intros Htr Hs. induction Hs as [|x l Hs IH Hhd]; [constructor|].
  assert (StronglySorted R l) as Hss.
  { apply IH. intros a b c ???. apply Htr; by right. }
  constructor; [done|]. destruct Hhd as [|y l Hxy]; [constructor|].
  constructor; [done|]. apply StronglySorted_cons in Hss as [Hy _].
  rewrite Forall_forall in Hy |- *. intros z Hz.
  apply (Htr x y z); [left|right; left|right; right; done|done|by apply Hy].
Qed.

Lemma std_sort_sorted l :
  (∀ a b, comp a b = true → comp b a = false) →
  (∀ a b c, a ∈ l → b ∈ l → c ∈ l →
     not_after a b → not_after b c → not_after a c) →
  StronglySorted not_after (std_sort l).
Proof.
  intros Hasym Htr. apply Sorted_StronglySorted_local.
  - intros x y z. rewrite !elem_of_std_sort. apply Htr.
  - apply Sorted_merge_sort. intros a b. unfold not_after.
    destruct (comp a b) eqn:E; [left; by apply Hasym | by right].
Qed.

Definition before (a b : A) : Prop := comp a b = true.

(** The elements of [l] are totally ordered by [comp]. *)
Record ordered_on (l : list A) : Prop := {
  oo_asym a b : comp a b = true → comp b a = false;
  oo_total a b : a ∈ l → b ∈ l → a ≠ b → comp a b = false → comp b a = true;
  oo_trans a b c : a ∈ l → b ∈ l → c ∈ l → comp a b = true → comp b c = true → comp a c = true;
}.

Lemma std_sort_strict l : ordered_on l → NoDup l → StronglySorted before (std_sort l).
Proof.
  intros [Has Htot Htr] Hnd.
  assert (Hirr : ∀ a, comp a a = false) 
    by (intros a; destruct (comp a a) eqn:E; [pose proof (Has _ _ E); congruence|done]).
  assert (StronglySorted not_after (std_sort l)) as Hs.
  { apply std_sort_sorted; [done|]. intros a b c Ha Hb Hc. unfold not_after. intros Hab Hbc.
    destruct (comp c a) eqn:E; [exfalso|done].
    assert (a ≠ b) by (intros ->; congruence). assert (b ≠ c) by (intros ->; congruence).
    assert (a ≠ c) by (intros ->; by rewrite Hirr in E).
    apply Htot in Hab; [|done..]. apply Htot in Hbc; [|done..].
    assert (comp a c = true) as Hac by (apply (Htr a b c); done). apply Has in Hac. congruence. }
  rewrite <- (std_sort_perm l) in Hnd.
  assert (∀ x, x ∈ std_sort l → x ∈ l) as Hel by (intros x; by rewrite elem_of_std_sort).
  induction Hs as [|x k Hs IH Hall]; [constructor|]. apply NoDup_cons in Hnd as [Hx Hnd].
  constructor; [apply IH; [done|]; intros; apply Hel; by right|].
  rewrite Forall_forall in Hall |- *. intros y Hy. specialize (Hall y Hy).
  apply Htot; [apply Hel; by right|apply Hel; left|by intros ->|done].
Qed.

Lemma before_unique l1 l2 :
  (∀ a b, comp a b = true → comp b a = false) →
  StronglySorted before l1 → StronglySorted before l2 → l1 ≡ₚ l2 → l1 = l2.
Proof.
  intros Has H1 H2 Hp. apply (StronglySorted_unique_strong before); [|done..].
  unfold before. intros a b _ _ Hab Hba. apply Has in Hab. congruence.
Qed.
End Sorting.

(** Laws of the comparator of an ordered container. *)
Class StrictTotal {K} (less : K → K → bool) : Prop := {
  less_irrefl k : less k k = false;
  less_trans a b c : less a b = true → less b c = true → less a c = true;
  less_total a b : less a b = false → less b a = false → a = b;
}.

Section OrderedMap.
Context `{Countable K} {V : Type} (less : K → K → bool).

Definition key_less (p q : K * V) : bool := less p.1 q.1.

(** The pairs of the map in the order [begin()] .. [end()]. *)
Definition in_order (m : gmap K V) : list (K * V) :=
  std_sort key_less (map_to_list m).

Lemma elem_of_in_order m k v : (k, v) ∈ in_order m ↔ m !! k = Some v.
Proof. unfold in_order. rewrite elem_of_std_sort. apply elem_of_map_to_list. Qed.

Lemma in_order_perm m : in_order m ≡ₚ map_to_list m.
Proof. apply std_sort_perm. Qed.

Lemma length_in_order m : length (in_order m) = size m.
Proof. rewrite (Permutation_length (in_order_perm m)). apply length_map_to_list. Qed.

Context `{!StrictTotal less}.

Lemma less_asym a b : less a b = true → less b a = false.
Proof.
  intros E. destruct (less b a) eqn:E'; [|done].
  pose proof (less_irrefl a). pose proof (less_trans _ _ _ E E'). congruence.
Qed.

Lemma less_neg_trans a b c :
  less b a = false → less c b = false → less c a = false.
Proof.
  intros Hba Hcb. destruct (less c a) eqn:E; [|done]. exfalso.
  destruct (less a b) eqn:Hab.
  - pose proof (less_trans _ _ _ E Hab). congruence.
  - assert (a = b) as -> by (by apply less_total). congruence.
Qed.

Lemma in_order_sorted m : StronglySorted (λ p q, less p.1 q.1 = true) (in_order m).
Proof.
  assert (StronglySorted (not_after key_less) (in_order m)) as Hs.
  { apply std_sort_sorted.
    - intros [a ?] [b ?]. apply less_asym.
    - intros [a ?] [b ?] [c ?] _ _ _. unfold not_after, key_less; simpl. apply less_neg_trans. }
  assert (NoDup (in_order m).*1) as Hnd.
  { rewrite in_order_perm. apply NoDup_fst_map_to_list. }
  induction Hs as [|[k v] l Hs IH Hall]; [constructor|].
  apply NoDup_cons in Hnd as [Hk Hnd]. constructor; [by apply IH|].
  rewrite Forall_forall in Hall |- *. intros [k' v'] Hin. simpl.
  pose proof (Hall _ Hin) as Hle. unfold not_after, key_less in Hle; simpl in Hle.
  destruct (less k k') eqn:E; [done|]. exfalso. apply Hk.
  assert (k = k') as -> by (by apply less_total).
  apply list_elem_of_fmap. by exists (k', v').
Qed.
End OrderedMap.

#[global] Instance Zltb_strict_total : StrictTotal Z.ltb.
Proof. split; intros; lia. Qed.

(** ** Lists *)

Lemma list_ind2 {A} (P : list A → Prop) :
  P [] → (∀ a, P [a]) → (∀ a b l, P l → P (a :: b :: l)) → ∀ l, P l.
Proof.
  intros H0 H1 H2. fix IH 1. intros [|a [|b l]]; [exact H0|exact (H1 a)|exact (H2 a b l (IH l))].
Qed.

Fixpoint sum_z (l : list Z) : Z := match l with [] => 0 | z :: l => z + sum_z l end.

Lemma sum_z_app l l' : sum_z (l ++ l') = sum_z l + sum_z l'.
Proof. induction l; simpl; lia. Qed.

Lemma sum_z_nonneg l : Forall (λ z, 0 ≤ z) l → 0 ≤ sum_z l.
Proof. induction 1; simpl; lia. Qed.

#[global] Instance sum_z_perm : Proper ((≡ₚ) ==> (=)) sum_z.
Proof. intros l l' Hp. induction Hp; simpl; lia. Qed.

(** ** Sums over the values of a map *)

Section MapSum.
Context `{Countable K} {V : Type} (f : V → Z).

Definition map_sum (m : gmap K V) : Z := map_fold (λ _ v acc, f v + acc) 0 m.

Lemma map_sum_empty : map_sum ∅ = 0.
Proof. apply map_fold_empty. Qed.

Lemma map_sum_insert (m : gmap K V) k v :
  m !! k = None → map_sum (<[k := v]> m) = f v + map_sum m.
Proof.
  intros Hn. unfold map_sum.
  apply (map_fold_insert_L (λ _ v acc, f v + acc)); [intros; lia|done].
Qed.

Lemma map_sum_delete (m : gmap K V) k v :
  m !! k = Some v → map_sum m = f v + map_sum (delete k m).
Proof.
  intros Hs. unfold map_sum.
  apply (map_fold_delete_L (λ _ v acc, f v + acc)); [intros; lia|done].
Qed.

Lemma map_sum_union (m1 m2 : gmap K V) :
  m1 ##ₘ m2 → map_sum (m1 ∪ m2) = map_sum m1 + map_sum m2.
Proof.
  induction m1 as [|k v m Hn IH] using map_ind; intros Hd.
  { by rewrite map_sum_empty, (left_id_L ∅ (∪)). }
  apply map_disjoint_insert_l in Hd as [Hk Hd].
  rewrite <- insert_union_l, !map_sum_insert, IH; [lia|done..|].
  by rewrite lookup_union_None.
Qed.

Lemma map_sum_nonneg (m : gmap K V) :
  map_Forall (λ _ v, 0 ≤ f v) m → 0 ≤ map_sum m.
Proof.
  induction m as [|k v m Hn IH] using map_ind; intros Hf.
  { by rewrite map_sum_empty. }
  rewrite map_sum_insert by done.
  apply map_Forall_insert in Hf as [Hv Hf]; [|done]. apply IH in Hf. lia.
Qed.

Lemma map_sum_subseteq (m1 m2 : gmap K V) :
  map_Forall (λ _ v, 0 ≤ f v) m2 → m1 ⊆ m2 → map_sum m1 ≤ map_sum m2.
Proof.
  intros Hf Hsub. rewrite <- (map_difference_union _ _ Hsub), map_sum_union
    by (by apply map_disjoint_difference_r1).
  assert (0 ≤ map_sum (m2 ∖ m1)); [|lia].
  apply map_sum_nonneg. intros k v [Hv _]%lookup_difference_Some. by eapply Hf.
Qed.

Lemma map_sum_lookup_le (m : gmap K V) k v :
  map_Forall (λ _ v, 0 ≤ f v) m → m !! k = Some v → f v ≤ map_sum m.
Proof.
  intros Hf Hs. rewrite (map_sum_delete _ _ _ Hs).
  pose proof (map_sum_nonneg (delete k m)) as Hn.
  assert (map_Forall (λ _ v, 0 ≤ f v) (delete k m)) as Hd by (by apply map_Forall_delete).
  apply Hn in Hd. lia.
Qed.
End MapSum.

(** ** Maps indexed by consecutive numbers *)

(** The map holds the elements of [l] under the keys 0, 1, 2, ... *)
Definition indexes {A} (l : list A) (m : gmap Z A) : Prop :=
  ∀ k a, m !! k = Some a ↔ 0 ≤ k ∧ l !! Z.to_nat k = Some a.

Lemma indexes_empty {A} : indexes (A := A) [] ∅.
Proof. intros k a. rewrite lookup_empty, lookup_nil. naive_solver. Qed.

Lemma indexes_snoc {A} (l : list A) m a : indexes l m → indexes (l ++ [a]) (<[size_z l := a]> m).
Proof.
  intros Hm k b. destruct (decide (k = size_z l)) as [->|Hk].
  - rewrite lookup_insert_eq, Nat2Z.id, list_lookup_middle by done. split; [|by intros [_ ?]].
    intros ?. split; [lia|done].
  - rewrite lookup_insert_ne by done. rewrite (Hm k b). split; intros [H0 H]; (split; [done|]).
    + by apply lookup_app_l_Some.
    + apply lookup_app_Some in H as [?|[Hle H]]; [done|].
      apply list_lookup_singleton_Some in H as [H _]. lia.
Qed.

(** Iterating over such a map gives back the list. *)
Lemma indexes_in_order {A} (l : list A) m : indexes l m → (in_order Z.ltb m).*2 = l.
Proof.
  intros Hm. assert (in_order Z.ltb m = imap (λ i a, (Z.of_nat i, a)) l) as ->.
  - apply (StronglySorted_unique_strong (λ p q : Z * A, Z.ltb p.1 q.1 = true)).
    + intros [] [] _ _. cbn. lia.
    + apply (in_order_sorted _).
    + assert (∀ l k, StronglySorted (λ p q : Z * A, Z.ltb p.1 q.1 = true)
        (imap (λ i a, (Z.of_nat (k + i), a)) l)) as H; [|apply (H l 0%nat)].
      clear. intros l. induction l as [|a l IH]; intros k; cbn; constructor.
      * erewrite imap_ext; [apply (IH (S k))|]. intros i b _. cbn. do 2 f_equal. lia.
      * apply Forall_forall. intros [j b] (i & c & E & _)%elem_of_lookup_imap. injection E as -> _. apply Z.ltb_lt. cbn. lia.
    + apply NoDup_Permutation.
      * eapply NoDup_fmap_1. rewrite in_order_perm. apply NoDup_fst_map_to_list.
      * eapply (NoDup_fmap_1 fst). rewrite <- (list_fmap_id l), imap_fmap. apply NoDup_alt.
        intros i j k. rewrite !list_lookup_fmap, !list_lookup_imap.
        destruct (l !! i), (l !! j); cbn; try done. intros [= <-] [= E]. lia.
      * intros [k a]. rewrite elem_of_in_order, (Hm k a), elem_of_lookup_imap. split.
        -- intros [H0 H]. exists (Z.to_nat k), a. split; [|done]. by rewrite Z2Nat.id.
        -- intros (i & b & [= -> ->] & H). rewrite Nat2Z.id. split; [lia|done].
  - rewrite fmap_imap. rewrite <- (list_fmap_id l) at 2. rewrite <- imap_const. by apply imap_ext.
Qed.
