(* ===== verification/Errors.v ===== *)
(** * Error codes, errors and results ([include/blockchain/error.hpp])

    [Result<T>] is [std::expected<T, Error>]: a sum whose left side is the value
    and whose right side carries an inspectable code and a message.  The chains of
    [if (!x) return std::unexpected(x.error());] of the sources are the [mbind] of
    this monad. *)

From S2P Require Import Prelude.

Inductive ErrorCode :=
  | kParseError
  | kInvalidMessage
  | kInvalidTransaction
  | kInvalidBlock
  | kInvalidStateTransition
  | kStorageCorruption
  | kUnsupportedVersion
  | kResourceLimitExceeded
  | kPolicyRejected
  | kPeerMisbehavior
  | kInvalidConfig.

#[global] Instance ErrorCode_eq_dec : EqDecision ErrorCode.
Proof. solve_decision. Defined.

Definition to_string (code : ErrorCode) : string :=
  match code with
  | kParseError => "ParseError"
  | kInvalidMessage => "InvalidMessage"
  | kInvalidTransaction => "InvalidTransaction"
  | kInvalidBlock => "InvalidBlock"
  | kInvalidStateTransition => "InvalidStateTransition"
  | kStorageCorruption => "StorageCorruption"
  | kUnsupportedVersion => "UnsupportedVersion"
  | kResourceLimitExceeded => "ResourceLimitExceeded"
  | kPolicyRejected => "PolicyRejected"
  | kPeerMisbehavior => "PeerMisbehavior"
  | kInvalidConfig => "InvalidConfig"
  end.

Record Error := mkError { code : ErrorCode; message : string }.

Inductive Result (A : Type) : Type :=
  | Ok (a : A)
  | Err (e : Error).
Arguments Ok {_} _.
Arguments Err {_} _.

(** [make_error(code, detail)] *)
Definition make_error {A} (c : ErrorCode) (detail : string) : Result A :=
  Err (mkError c detail).

(** [std::to_string] on an unsigned integer. *)
Definition std_to_string (z : Z) : string := pretty z.

#[global] Instance Result_ret : MRet Result := λ A a, Ok a.
#[global] Instance Result_bind : MBind Result := λ A B f m,
  match m with Ok a => f a | Err e => Err e end.

Definition is_ok {A} (r : Result A) : bool :=
  match r with Ok _ => true | Err _ => false end.

(** The result fails with code [c] (the message is for humans only). *)
Definition fails_with {A} (c : ErrorCode) (r : Result A) : Prop :=
  ∃ m, r = Err (mkError c m).

(** ** Reasoning about results *)

Lemma bind_Ok {A B} (m : Result A) (f : A → Result B) b :
  m ≫= f = Ok b ↔ ∃ a, m = Ok a ∧ f a = Ok b.
Proof. destruct m; simpl; naive_solver. Qed.

Lemma Ok_inj {A} (a b : A) : Ok a = Ok b → a = b.
Proof. by intros [= ->]. Qed.

Lemma is_ok_true {A} (r : Result A) : is_ok r = true ↔ ∃ a, r = Ok a.
Proof. destruct r; naive_solver. Qed.

Lemma fails_with_make_error {A} c m : fails_with c (make_error (A:=A) c m).
Proof. by exists m. Qed.

Lemma fails_with_bind {A B} c (m : Result A) (f : A → Result B) :
  fails_with c m → fails_with c (m ≫= f).
Proof. intros [s ->]. by exists s. Qed.

Create HintDb result.
#[export] Hint Resolve fails_with_make_error fails_with_bind : result.

(** Runs one bind or return of the monad, and nothing else. *)
Ltac rsimpl := cbn [mbind mret Result_bind Result_ret].

(** [inv_ok H] decomposes a successful computation [H : c = Ok r] into the
    successful steps it is made of, discarding the branches that fail. *)
Ltac inv_ok_step :=
  match goal with
  | H : _ ≫= _ = Ok _ |- _ => apply bind_Ok in H as (? & ? & ?)
  | H : Err _ = Ok _ |- _ => discriminate H
  | H : make_error _ _ = Ok _ |- _ => discriminate H
  | H : Ok _ = Ok _ |- _ => injection H as H
  | H : mret _ = Ok _ |- _ => injection H as H
  | H : (if ?b then _ else _) = Ok _ |- _ => destruct b eqn:?
  | H : (match ?p with (_, _) => _ end) = Ok _ |- _ => destruct p eqn:?
  | H : (match ?o with Some _ => _ | None => _ end) = Ok _ |- _ => destruct o eqn:?
  end.
Ltac inv_ok := repeat (inv_ok_step; simplify_eq; simpl in * |-).
