(* ===== verification/Sha256.v ===== *)
(** * SHA-256 and hexadecimal digests ([include/blockchain/crypto/hash.hpp],
    [src/crypto/sha256.cpp])

    [Sha256] is the hashing context of the sources: eight 32-bit words of state, a
    64-byte buffer filled one byte at a time, and a 64-bit byte counter.  [update],
    [finalize] and [process_block] are the member functions, [sha256] and
    [sha256d] the entry points.  The reference definition [fips_sha256] pads the
    whole message first and folds the compression function over its 64-byte
    blocks. *)

From S2P Require Import Prelude Errors.
From Stdlib Require Import Strings.Byte.

(** A 256-bit digest, [std::array<std::byte, 32>]. *)
Abbreviation Hash256 := (list byte).

Definition hash_wf (h : Hash256) : Prop := length h = 32%nat.

#[global] Instance hash_wf_dec h : Decision (hash_wf h).
Proof. unfold hash_wf. apply _. Defined.

(** All-zero digest. *)
Definition zero_hash : Hash256 := replicate 32 x00.

(** ** The hashing context *)

Definition kRoundConstants : list Z :=
  [0x428a2f98; 0x71374491; 0xb5c0fbcf; 0xe9b5dba5; 0x3956c25b; 0x59f111f1; 0x923f82a4] ++
  [0xab1c5ed5; 0xd807aa98; 0x12835b01; 0x243185be; 0x550c7dc3; 0x72be5d74; 0x80deb1fe] ++
  [0x9bdc06a7; 0xc19bf174; 0xe49b69c1; 0xefbe4786; 0x0fc19dc6; 0x240ca1cc; 0x2de92c6f] ++
  [0x4a7484aa; 0x5cb0a9dc; 0x76f988da; 0x983e5152; 0xa831c66d; 0xb00327c8; 0xbf597fc7] ++
  [0xc6e00bf3; 0xd5a79147; 0x06ca6351; 0x14292967; 0x27b70a85; 0x2e1b2138; 0x4d2c6dfc] ++
  [0x53380d13; 0x650a7354; 0x766a0abb; 0x81c2c92e; 0x92722c85; 0xa2bfe8a1; 0xa81a664b] ++
  [0xc24b8b70; 0xc76c51a3; 0xd192e819; 0xd6990624; 0xf40e3585; 0x106aa070; 0x19a4c116] ++
  [0x1e376c08; 0x2748774c; 0x34b0bcb5; 0x391c0cb3; 0x4ed8aa4a; 0x5b9cca4f; 0x682e6ff3] ++
  [0x748f82ee; 0x78a5636f; 0x84c87814; 0x8cc70208; 0x90befffa; 0xa4506ceb; 0xbef9a3f7] ++
  [0xc67178f2].

Definition rotr (value bits : Z) : Z :=
  Z.lor (Z.shiftr value bits) (wrap32 (Z.shiftl value (32 - bits))).

(** [~x] on a 32-bit word. *)
Definition not32 (x : Z) : Z := Z.lxor x 0xFFFFFFFF.

Record Sha256 := mkSha256 {
  state_ : list Z;
  buffer_ : list byte;
  buffer_len_ : nat;
  total_bytes_ : Z;
}.

Definition kBlockSize : nat := 64.

Definition initial_state : list Z := [
  0x6a09e667; 0xbb67ae85; 0x3c6ef372; 0xa54ff53a;
  0x510e527f; 0x9b05688c; 0x1f83d9ab; 0x5be0cd19 ].

Definition sha256_init : Sha256 := mkSha256 initial_state (replicate kBlockSize x00) 0 0.

(** [w[i]] and [kRoundConstants[i]] *)
Abbreviation word l i := (nth i l 0).

(** The sixteen big-endian words of the block, then the 48 expanded ones. *)
Definition load_word (block : list byte) (i : nat) : Z :=
  let b k := byte_val (nth (i * 4 + k)%nat block x00) in
  Z.lor (Z.lor (Z.lor (Z.shiftl (b 0%nat) 24) (Z.shiftl (b 1%nat) 16)) (Z.shiftl (b 2%nat) 8))
    (b 3%nat).

Definition expand_word (w : list Z) (i : nat) : list Z :=
  let s0 := Z.lxor (Z.lxor (rotr (word w (i - 15)) 7) (rotr (word w (i - 15)) 18))
              (Z.shiftr (word w (i - 15)) 3) in
  let s1 := Z.lxor (Z.lxor (rotr (word w (i - 2)) 17) (rotr (word w (i - 2)) 19))
              (Z.shiftr (word w (i - 2)) 10) in
  <[i := wrap32 (word w (i - 16) + s0 + word w (i - 7) + s1)]> w.

Definition message_schedule (block : list byte) : list Z :=
  let w := foldl (λ w i, <[i := load_word block i]> w) (replicate 64 0) (seq 0 16) in
  foldl expand_word w (seq 16 48).

(** The eight working variables a .. h. *)
Record Vars := mkVars { va : Z; vb : Z; vc : Z; vd : Z; ve : Z; vf : Z; vg : Z; vh : Z }.

Definition round_step (w : list Z) (v : Vars) (i : nat) : Vars :=
  let '(mkVars a b c d e f g h) := v in
  let s1 := Z.lxor (Z.lxor (rotr e 6) (rotr e 11)) (rotr e 25) in
  let ch := Z.lxor (Z.land e f) (Z.land (not32 e) g) in
  let temp1 := wrap32 (h + s1 + ch + word kRoundConstants i + word w i) in
  let s0 := Z.lxor (Z.lxor (rotr a 2) (rotr a 13)) (rotr a 22) in
  let maj := Z.lxor (Z.lxor (Z.land a b) (Z.land a c)) (Z.land b c) in
  let temp2 := wrap32 (s0 + maj) in
  mkVars (wrap32 (temp1 + temp2)) a b c (wrap32 (d + temp1)) e f g.

(** [process_block], on the state words. *)
Definition process_block (st : list Z) (block : list byte) : list Z :=
  let w := message_schedule block in
  let v0 := mkVars (word st 0) (word st 1) (word st 2) (word st 3)
                   (word st 4) (word st 5) (word st 6) (word st 7) in
  let v := foldl (round_step w) v0 (seq 0 64) in
  [ wrap32 (word st 0 + va v); wrap32 (word st 1 + vb v);
    wrap32 (word st 2 + vc v); wrap32 (word st 3 + vd v);
    wrap32 (word st 4 + ve v); wrap32 (word st 5 + vf v);
    wrap32 (word st 6 + vg v); wrap32 (word st 7 + vh v) ].

(** [buffer_[buffer_len_++] = b] *)
Definition push_byte (c : Sha256) (b : byte) : Sha256 :=
  mkSha256 (state_ c) (<[buffer_len_ c := b]> (buffer_ c)) (S (buffer_len_ c)) (total_bytes_ c).

(** [process_block(buffer_.data()); buffer_len_ = 0;] *)
Definition flush_block (c : Sha256) : Sha256 :=
  mkSha256 (process_block (state_ c) (buffer_ c)) (buffer_ c) 0 (total_bytes_ c).

Definition update_byte (c : Sha256) (b : byte) : Sha256 :=
  let c := push_byte c b in
  let c := if decide (buffer_len_ c = kBlockSize) then flush_block c else c in
  mkSha256 (state_ c) (buffer_ c) (buffer_len_ c) (wrap64 (total_bytes_ c + 1)).

Definition update (c : Sha256) (data : list byte) : Sha256 := foldl update_byte c data.

(** [while (buffer_len_ < n) buffer_[buffer_len_++] = 0U;] *)
Definition zero_fill (n : nat) (c : Sha256) : Sha256 :=
  foldl push_byte c (replicate (n - buffer_len_ c) x00).

Definition store_word (x : Z) : list byte :=
  [ byte_of (Z.land (Z.shiftr x 24) 0xff); byte_of (Z.land (Z.shiftr x 16) 0xff);
    byte_of (Z.land (Z.shiftr x 8) 0xff); byte_of (Z.land x 0xff) ].

(** The eight length bytes, most significant first. *)
Definition length_bytes (bit_length : Z) : list byte :=
  (λ i, byte_of (Z.land (Z.shiftr bit_length (i * 8)) 0xff)) <$> [7; 6; 5; 4; 3; 2; 1; 0].

Definition finalize (c : Sha256) : Hash256 :=
  let bit_length := wrap64 (total_bytes_ c * 8) in
  let c := push_byte c x80 in
  let c := if decide (kBlockSize - 8 < buffer_len_ c)%nat
           then flush_block (zero_fill kBlockSize c) else c in
  let c := zero_fill (kBlockSize - 8) c in
  let c := foldl push_byte c (length_bytes bit_length) in
  let c := mkSha256 (process_block (state_ c) (buffer_ c)) (buffer_ c) (buffer_len_ c)
             (total_bytes_ c) in
  mjoin (store_word <$> state_ c).

(** The message is a value before it is hashed: [strict] is the identity (see
    [strict_id]) and inspects every byte, so that the hash of a message with
    unknown bytes does not unfold. *)
Fixpoint strict_rev (l acc : list byte) : list byte :=
  match l with
  | [] => acc
  | b :: l => if Byte.eqb b x00 then strict_rev l (x00 :: acc) else strict_rev l (b :: acc)
  end.
Definition strict (l : list byte) : list byte := rev_append (strict_rev l []) [].

Definition sha256 (data : list byte) : Hash256 := finalize (update sha256_init (strict data)).

Definition sha256d (data : list byte) : Hash256 := sha256 (sha256 data).

(** ** Hexadecimal *)

(** A [char] as its code. *)
Definition hex_digit (c : Ascii.ascii) : option Z :=
  let n := Z.of_N (Ascii.N_of_ascii c) in
  if (48 <=? n) && (n <=? 57) then Some (n - 48)
  else if (97 <=? n) && (n <=? 102) then Some (n - 97 + 10)
  else if (65 <=? n) && (n <=? 70) then Some (n - 65 + 10)
  else None.

Fixpoint hex_pairs (cs : list Ascii.ascii) : Result (list byte) :=
  match cs with
  | hi :: lo :: rest =>
      match hex_digit hi, hex_digit lo with
      | Some h, Some l =>
          bs ← hex_pairs rest;
          mret (byte_of (Z.lor (Z.shiftl h 4) l) :: bs)
      | _, _ => make_error kParseError "hash hex contains invalid characters"
      end
  | _ => mret []
  end.

Definition hash_from_hex (hex : string) : Result Hash256 :=
  if negb (Z.of_nat (String.length hex) =? 64)
  then make_error kParseError "hash hex must be exactly 64 characters"
  else hex_pairs (String.list_ascii_of_string hex).

Definition kDigits : list Ascii.ascii :=
  String.list_ascii_of_string "0123456789abcdef".

(** The two characters pushed for one byte. *)
Definition hex_of_byte (b : byte) : list Ascii.ascii :=
  let value := byte_val b in
  [ nth (Z.to_nat (Z.shiftr value 4)) kDigits Ascii.Space;
    nth (Z.to_nat (Z.land value 0x0f)) kDigits Ascii.Space ].

Definition to_hex (hash : Hash256) : string :=
  String.string_of_list_ascii (mjoin (hex_of_byte <$> hash)).

(** ** Reference definition

    FIPS 180-4: append the byte 0x80, then zero bytes until the length is 56
    modulo 64, then the bit length as a 64-bit big-endian number; fold the
    compression function over the 64-byte blocks of the result. *)

Definition fips_pad (msg : list byte) : list byte :=
  msg ++ [x80] ++ replicate (Z.to_nat ((55 - size_z msg) mod 64)) x00
      ++ length_bytes (wrap64 (size_z msg * 8)).

Fixpoint process_blocks (n : nat) (st : list Z) (l : list byte) : list Z :=
  match n with
  | O => st
  | S n => process_blocks n (process_block st (take 64 l)) (drop 64 l)
  end.

Definition fips_sha256 (msg : list byte) : Hash256 :=
  let m := fips_pad msg in
  mjoin (store_word <$> process_blocks (length m / 64)%nat initial_state m).

Arguments process_block : simpl never.
Arguments length_bytes : simpl never.

(** ** The streaming context computes the reference *)

(** [absorbed c st rest]: the context has compressed its input down to [st] and
    keeps the last [rest] bytes of it in the buffer. *)
Record absorbed (c : Sha256) (st : list Z) (rest : list byte) : Prop := {
  ab_state : state_ c = st;
  ab_buffer : length (buffer_ c) = 64%nat;
  ab_len : buffer_len_ c = length rest;
  ab_rest : take (length rest) (buffer_ c) = rest;
}.

Lemma absorbed_init : absorbed sha256_init initial_state [].
Proof. by split. Qed.

Lemma absorbed_push c st rest b :
  absorbed c st rest → (length rest < 64)%nat →
  absorbed (push_byte c b) st (rest ++ [b]).
Proof.
  intros [Hst Hbuf Hlen Hrest] Hlt. split; simpl; [done| | |].
  - by rewrite length_insert.
  - rewrite length_app; simpl; lia.
  - rewrite length_app, Hlen; simpl.
    rewrite Nat.add_1_r, (take_S_r _ _ b).
    + by rewrite take_insert_ge, Hrest.
    + apply list_lookup_insert_eq. lia.
Qed.

Lemma absorbed_push_all c st rest l :
  absorbed c st rest → (length (rest ++ l) ≤ 64)%nat →
  absorbed (foldl push_byte c l) st (rest ++ l).
Proof.
  revert c rest. induction l as [|b l IH]; intros c rest Hab Hle; simpl.
  { by rewrite app_nil_r. }
  rewrite length_app in Hle; simpl in Hle.
  rewrite cons_middle, (assoc_L (++)). apply IH.
  - apply absorbed_push; [done|lia].
  - rewrite !length_app; simpl; lia.
Qed.

Lemma absorbed_flush c st rest :
  absorbed c st rest → length rest = 64%nat →
  absorbed (flush_block c) (process_block st rest) [].
Proof.
  intros [Hst Hbuf Hlen Hrest] Hl. split; simpl; [|done|done|done].
  rewrite take_ge in Hrest by lia. by rewrite Hst, Hrest.
Qed.

Lemma process_blocks_app n m st l l' :
  length l = (64 * n)%nat →
  process_blocks (n + m) st (l ++ l') = process_blocks m (process_blocks n st l) l'.
Proof.
  revert st l. induction n as [|n IH]; intros st l Hl.
  - assert (l = []) as -> by (apply nil_length_inv; lia). done.
  - simpl. rewrite take_app_le, drop_app_le by lia. apply IH. rewrite length_drop. lia.
Qed.

(** The input of an [update] splits into whole blocks, which are compressed, and
    a remainder, which stays in the buffer. *)
Lemma absorbed_update c st rest data :
  absorbed c st rest → (length rest < 64)%nat →
  ∃ n blocks tail, rest ++ data = blocks ++ tail ∧ length blocks = (64 * n)%nat ∧
    (length tail < 64)%nat ∧ absorbed (update c data) (process_blocks n st blocks) tail.
Proof.
  revert c st rest. induction data as [|b data IH]; intros c st rest Hab Hlt; simpl.
  { exists 0%nat, [], rest. by rewrite app_nil_r. }
  pose proof (absorbed_push c st rest b Hab Hlt) as Hpush.
  unfold update_byte. case_decide as Hd.
  - rewrite (ab_len _ _ _ Hpush) in Hd.
    destruct (absorbed_flush _ _ _ Hpush Hd) as [].
    destruct (IH (mkSha256 (state_ (flush_block (push_byte c b))) (buffer_ (flush_block (push_byte c b)))
                    0 (wrap64 (total_bytes_ c + 1))) (process_block st (rest ++ [b])) [])
      as (n & blocks & tail & Heq & Hb & Ht & Hab'); [by split|simpl; lia|].
    exists (S n), ((rest ++ [b]) ++ blocks), tail. simpl in Heq. subst data.
    split; [by rewrite <-!(assoc_L (++))|].
    split; [rewrite length_app; unfold kBlockSize in Hd; lia|]. split; [done|].
    rewrite (process_blocks_app 1 n) by (unfold kBlockSize in Hd; lia). simpl.
    by rewrite take_ge by (unfold kBlockSize in Hd; lia).
  - rewrite (ab_len _ _ _ Hpush) in Hd. destruct Hpush.
    destruct (IH (mkSha256 (state_ (push_byte c b)) (buffer_ (push_byte c b))
                    (buffer_len_ (push_byte c b)) (wrap64 (total_bytes_ c + 1))) st (rest ++ [b]))
      as (n & blocks & tail & Heq & Hb & Ht & Hab'); [by split| |].
    { rewrite length_app in *; unfold kBlockSize in Hd; simpl in *; lia. }
    exists n, blocks, tail. by rewrite <-(assoc_L (++)) in Heq.
Qed.

Lemma total_bytes_update c data :
  total_bytes_ (update c data) = if decide (data = []) then total_bytes_ c
                                 else wrap64 (total_bytes_ c + size_z data).
Proof.
  revert c. induction data as [|b data IH]; intros c; [done|]. simpl.
  rewrite IH. clear IH. unfold update_byte. set (t := total_bytes_ _). simpl.
  assert (t = wrap64 (total_bytes_ c + 1)) as ->.
  { unfold t. simpl. by destruct (decide _). }
  case_decide as Hd; subst; simpl; [done|].
  unfold wrap64. rewrite Zplus_mod_idemp_l. f_equal. lia.
Qed.

Lemma absorbed_zero_fill n c st rest :
  absorbed c st rest → (length rest ≤ n ≤ 64)%nat →
  absorbed (zero_fill n c) st (rest ++ replicate (n - length rest) x00).
Proof.
  intros Hab Hn. unfold zero_fill. rewrite (ab_len _ _ _ Hab).
  apply absorbed_push_all; [done|]. rewrite length_app, length_replicate. lia.
Qed.

(** The last block: zero bytes up to position 56, then the length. *)
Lemma absorbed_last_block c st rest lb :
  absorbed c st rest → (length rest ≤ 56)%nat → length lb = 8%nat →
  let c' := foldl push_byte (zero_fill 56 c) lb in
  process_block (state_ c') (buffer_ c')
  = process_blocks 1 st (rest ++ replicate (56 - length rest) x00 ++ lb).
Proof.
  intros Hab Hle Hlb c'.
  assert (absorbed c' st ((rest ++ replicate (56 - length rest) x00) ++ lb)) as [E1 E2 _ E4].
  { apply absorbed_push_all; [apply absorbed_zero_fill; [done|lia]|].
    rewrite !length_app, length_replicate. lia. }
  set (block := (rest ++ _) ++ lb) in *.
  assert (length block = 64%nat) as Hb.
  { unfold block. rewrite !length_app, length_replicate. lia. }
  rewrite take_ge in E4 by lia.
  rewrite (assoc_L (++)). fold block. simpl. by rewrite take_ge, E1, E4 by lia.
Qed.

(** [finalize] absorbs the padding. *)
Lemma absorbed_finalize c st rest :
  absorbed c st rest → (length rest < 64)%nat →
  finalize c =
  let pad := rest ++ [x80] ++ replicate (Z.to_nat ((55 - size_z rest) mod 64)) x00
                  ++ length_bytes (wrap64 (total_bytes_ c * 8)) in
  mjoin (store_word <$> process_blocks (length pad / 64)%nat st pad).
Proof.
  intros Hab Hlt. unfold finalize. cbv zeta. cbn [state_].
  set (lb := length_bytes _). assert (length lb = 8%nat) as Hlb by done.
  pose proof (absorbed_push c st rest x80 Hab Hlt) as H1. unfold kBlockSize.
  assert (length (rest ++ [x80]) = S (length rest)) as Hl1 by (rewrite length_app; simpl; lia).
  f_equal. f_equal. rewrite (assoc_L (++)).
  case_decide as Hd; rewrite (ab_len _ _ _ H1) in Hd.
  - pose proof (absorbed_zero_fill 64 _ _ _ H1 ltac:(lia)) as H2.
    set (b1 := (rest ++ [x80]) ++ _) in H2.
    assert (length b1 = 64%nat) as Hb1 by (unfold b1; rewrite length_app, length_replicate; lia).
    pose proof (absorbed_flush _ _ _ H2 Hb1) as H3.
    change (64 - 8)%nat with 56%nat.
    rewrite (absorbed_last_block _ _ _ lb H3) by (simpl; lia).
    replace (Z.to_nat ((55 - size_z rest) mod 64))
      with (64 - length (rest ++ [x80]) + 56)%nat.
    2: { replace ((55 - size_z rest) mod 64) with (119 - size_z rest); [lia|].
         apply (Z.mod_unique_pos _ _ (-1)); lia. }
    replace ((rest ++ [x80]) ++ _ ++ lb) with (b1 ++ replicate 56 x00 ++ lb).
    2: { unfold b1. by rewrite replicate_add, <-!(assoc_L (++)). }
    replace (length _ / 64)%nat with (1 + 1)%nat.
    2: { rewrite !length_app, length_replicate, Hb1, Hlb. done. }
    rewrite (process_blocks_app 1 1) by lia. simpl. by rewrite (take_ge b1) by lia.
  - change (64 - 8)%nat with 56%nat.
    rewrite (absorbed_last_block _ _ _ lb H1) by lia.
    replace (Z.to_nat ((55 - size_z rest) mod 64)) with (56 - length (rest ++ [x80]))%nat.
    2: { rewrite Z.mod_small by lia. lia. }
    replace (length _ / 64)%nat with 1%nat; [done|].
    rewrite (length_app (rest ++ [x80])), Hl1, (length_app (replicate _ _)), length_replicate, Hlb.
    replace (_ + _)%nat with 64%nat by lia. done.
Qed.

Lemma fips_pad_split blocks tail n :
  length blocks = (64 * n)%nat →
  fips_pad (blocks ++ tail) =
  blocks ++ tail ++ [x80] ++ replicate (Z.to_nat ((55 - size_z tail) mod 64)) x00
         ++ length_bytes (wrap64 (size_z (blocks ++ tail) * 8)).
Proof.
  intros Hn. unfold fips_pad. rewrite <-(assoc_L (++)). f_equal. f_equal. f_equal. f_equal.
  f_equal. f_equal. rewrite length_app.
  replace (55 - size_z tail) with (55 - Z.of_nat (length blocks + length tail) + Z.of_nat n * 64)
    by lia.
  by rewrite Z_mod_plus_full.
Qed.

Lemma length_fold_process n st l :
  length st = 8%nat → length (process_blocks n st l) = 8%nat.
Proof. revert st l. induction n; intros; simpl; auto. Qed.

Lemma strict_id l : strict l = l.
Proof.
  assert (∀ acc, strict_rev l acc = rev l ++ acc) as H.
  { induction l as [|b l IH]; intros acc; [done|]. simpl. rewrite <-(assoc_L (++)). simpl.
    destruct (Byte.eqb b x00) eqn:E; [|apply IH]. apply Byte.byte_dec_bl in E as ->. apply IH. }
  unfold strict. rewrite H, app_nil_r, <-rev_alt. apply rev_involutive.
Qed.

Lemma sha256_fips data : sha256 data = fips_sha256 data.
Proof.
  destruct (absorbed_update _ _ _ data absorbed_init) as (n & blocks & tail & Heq & Hb & Ht & Hab);
    [simpl; lia|]. simpl in Heq. subst data.
  unfold sha256. rewrite strict_id, (absorbed_finalize _ _ _ Hab Ht). unfold fips_sha256. cbv zeta.
  rewrite (fips_pad_split _ _ n Hb), total_bytes_update.
  replace (wrap64 ((if decide _ then _ else _) * 8)) with (wrap64 (size_z (blocks ++ tail) * 8)).
  2: { case_decide as Hd; [by rewrite Hd|]. simpl. unfold wrap64. by rewrite Zmult_mod_idemp_l. }
  set (pad := tail ++ _).
  replace (length (blocks ++ pad) / 64)%nat with (n + length pad / 64)%nat.
  2: { rewrite length_app, Hb, Nat.mul_comm, Nat.div_add_l; lia. }
  by rewrite process_blocks_app.
Qed.

Lemma sha256_wf data : hash_wf (sha256 data).
Proof.
  rewrite sha256_fips. unfold hash_wf, fips_sha256.
  set (st := process_blocks _ _ _). assert (length st = 8%nat) as Hst.
  { by apply length_fold_process. }
  destruct st as [|? [|? [|? [|? [|? [|? [|? [|? [|]]]]]]]]]; done.
Qed.

Lemma sha256d_unfold data : sha256d data = sha256 (sha256 data).
Proof. done. Qed.

Lemma sha256d_wf data : hash_wf (sha256d data).
Proof. apply sha256_wf. Qed.

(** ** Hexadecimal round trip *)

Lemma hex_of_byte_digits b rest :
  hex_pairs (hex_of_byte b ++ rest) = (bs ← hex_pairs rest; mret (b :: bs)).
Proof. destruct b; reflexivity. Qed.

Lemma hex_pairs_all h : hex_pairs (mjoin (hex_of_byte <$> h)) = Ok h.
Proof.
  induction h as [|b h IH]; [done|].
  change (mjoin _) with (hex_of_byte b ++ mjoin (hex_of_byte <$> h)).
  by rewrite hex_of_byte_digits, IH.
Qed.

Lemma hex_pairs_length cs bs : hex_pairs cs = Ok bs → length bs = (length cs / 2)%nat.
Proof.
  revert cs bs. fix IH 1. intros [|hi [|lo rest]] bs H; simpl in H.
  - by inv_ok.
  - by inv_ok.
  - inv_ok.
    match goal with H : hex_pairs rest = Ok _ |- _ => apply IH in H end.
    assert (length (hi :: lo :: rest) = 1 * 2 + length rest)%nat as -> by (simpl; lia).
    rewrite Nat.div_add_l by lia. simpl. lia.
Qed.

Lemma length_string_of_list_ascii cs :
  String.length (String.string_of_list_ascii cs) = length cs.
Proof. by induction cs; simpl; f_equal. Qed.

Lemma length_list_ascii_of_string s :
  length (String.list_ascii_of_string s) = String.length s.
Proof. by induction s; simpl; f_equal. Qed.

Lemma length_to_hex h : String.length (to_hex h) = (2 * length h)%nat.
Proof.
  unfold to_hex. rewrite length_string_of_list_ascii.
  induction h as [|b h IH]; [done|].
  change (mjoin _) with (hex_of_byte b ++ mjoin (hex_of_byte <$> h)).
  rewrite length_app, IH. simpl. lia.
Qed.

Lemma hash_from_to_hex h : hash_wf h → hash_from_hex (to_hex h) = Ok h.
Proof.
  intros Hwf. unfold hash_from_hex. rewrite length_to_hex, Hwf. simpl.
  unfold to_hex. rewrite String.list_ascii_of_string_of_list_ascii. apply hex_pairs_all.
Qed.

Lemma hash_from_hex_wf s h : hash_from_hex s = Ok h → hash_wf h.
Proof.
  unfold hash_from_hex. intros H. inv_ok.
  apply hex_pairs_length in H. unfold hash_wf.
  rewrite H, length_list_ascii_of_string.
  replace (String.length s) with 64%nat by lia. done.
Qed.

(** ** Properties *)

(** SHA-256 known answers of the test suite. *)
Example sha256_abc :
  to_hex (sha256 (String.list_byte_of_string "abc"))
  = "ba7816bf8f01cfea414140de5dae2223b00361a396177a9cb410ff61f20015ad"%string.
Proof. vm_compute. reflexivity. Qed.

Example sha256_empty :
  to_hex (sha256 [])
  = "e3b0c44298fc1c149afbf4c8996fb92427ae41e4649b934ca495991b7852b855"%string.
Proof. vm_compute. reflexivity. Qed.

(** Clients reason about digests through [sha256_fips] and [sha256_wf]. *)
#[global] Opaque sha256 sha256d.
