(* ===== verification/ByteIO.v ===== *)
(** * Canonical byte encoding ([include/blockchain/serialization/byte_io.hpp],
    [src/serialization/byte_io.cpp])

    [ByteWriter] appends to a buffer; [ByteReader] advances a position over its
    input, checking the bounds first.  A read either fails (the caller then drops
    the reader) or returns the value and the advanced reader.

    [CodecOk] is the contract every serialisable type of the node is proved to
    meet: a value reads back from its own encoding, and every encoding that is
    accepted is the encoding of the value read (there is one valid encoding per
    value). *)

From S2P Require Import Prelude Errors Sha256.
From Stdlib Require Import Strings.Byte.

(** ** Writer *)

Record ByteWriter := mkWriter { wbuffer_ : list byte }.

Definition empty_writer : ByteWriter := mkWriter [].

Definition push_back (w : ByteWriter) (b : byte) : ByteWriter :=
  mkWriter (wbuffer_ w ++ [b]).

(** [for (shift = 0; shift < 8 * n; shift += 8) buffer_.push_back((value >> shift) & 0xff)] *)
Definition put_le (n : nat) (value : Z) (w : ByteWriter) : ByteWriter :=
  foldl (λ w i, push_back w (byte_of (Z.land (Z.shiftr value (8 * Z.of_nat i)) 0xff)))
    w (seq 0 n).

Definition put_u8 (value : Z) (w : ByteWriter) : ByteWriter := push_back w (byte_of value).
Definition put_u16 (value : Z) (w : ByteWriter) : ByteWriter := put_le 2 value w.
Definition put_u32 (value : Z) (w : ByteWriter) : ByteWriter := put_le 4 value w.
Definition put_u64 (value : Z) (w : ByteWriter) : ByteWriter := put_le 8 value w.

Definition put_hash (hash : Hash256) (w : ByteWriter) : ByteWriter :=
  mkWriter (wbuffer_ w ++ hash).

Definition put_bytes (bytes : list byte) (w : ByteWriter) : ByteWriter :=
  mkWriter (wbuffer_ w ++ bytes).

Definition put_var_bytes (bytes : list byte) (w : ByteWriter) : ByteWriter :=
  put_bytes bytes (put_u32 (wrap32 (size_z bytes)) w).

(** ** Reader *)

Record ByteReader := mkReader { data_ : list byte; pos_ : nat }.

Definition new_reader (data : list byte) : ByteReader := mkReader data 0.

Definition remaining (r : ByteReader) : Z := size_z (data_ r) - Z.of_nat (pos_ r).
Definition at_end (r : ByteReader) : bool := Z.of_nat (pos_ r) =? size_z (data_ r).

Definition ensure (count : Z) (r : ByteReader) : Result unit :=
  if remaining r <? count
  then make_error kParseError
         ("unexpected end of input: need " +:+ std_to_string count +:+ " byte(s), have "
          +:+ std_to_string (remaining r))
  else mret tt.

(** [data_[i]] *)
Definition data_at (r : ByteReader) (i : nat) : byte := nth i (data_ r) x00.

Definition advance (n : nat) (r : ByteReader) : ByteReader := mkReader (data_ r) (pos_ r + n).

(** [for (i = 0; i < n; ++i) value |= data_[pos_ + i] << (i * 8); pos_ += n;] *)
Definition get_le (n : nat) (r : ByteReader) : Result (Z * ByteReader) :=
  _ ← ensure (Z.of_nat n) r;
  mret (foldl (λ value i, Z.lor value (Z.shiftl (byte_val (data_at r (pos_ r + i)))
                                         (Z.of_nat i * 8)))
          0 (seq 0 n), advance n r).

Definition get_u8 (r : ByteReader) : Result (Z * ByteReader) :=
  _ ← ensure 1 r;
  mret (byte_val (data_at r (pos_ r)), advance 1 r).
Definition get_u16 (r : ByteReader) : Result (Z * ByteReader) := get_le 2 r.
Definition get_u32 (r : ByteReader) : Result (Z * ByteReader) := get_le 4 r.
Definition get_u64 (r : ByteReader) : Result (Z * ByteReader) := get_le 8 r.

Definition get_hash (r : ByteReader) : Result (Hash256 * ByteReader) :=
  _ ← ensure 32 r;
  mret ((λ i, data_at r (pos_ r + i)) <$> seq 0 32, advance 32 r).

Definition get_bytes (count : Z) (r : ByteReader) : Result (list byte * ByteReader) :=
  _ ← ensure count r;
  mret (take (Z.to_nat count) (drop (pos_ r) (data_ r)), advance (Z.to_nat count) r).

Definition get_length (max_count : Z) (r : ByteReader) : Result (Z * ByteReader) :=
  '(length, r) ← get_u32 r;
  if max_count <? length
  then make_error kResourceLimitExceeded
         ("length prefix " +:+ std_to_string length +:+ " exceeds maximum "
          +:+ std_to_string max_count)
  else mret (length, r).

Definition get_var_bytes (max_len : Z) (r : ByteReader) : Result (list byte * ByteReader) :=
  '(length, r) ← get_length max_len r;
  get_bytes length r.

Definition expect_end (r : ByteReader) : Result unit :=
  if negb (at_end r)
  then make_error kParseError
         ("trailing bytes after value: " +:+ std_to_string (remaining r) +:+ " left")
  else mret tt.

(** The loops [for (i = 0; i < n; ++i) { auto x = get(reader); ...; v.push_back(x); }] *)
Fixpoint get_list {A} (get : ByteReader → Result (A * ByteReader)) (n : nat) (r : ByteReader)
    : Result (list A * ByteReader) :=
  match n with
  | O => mret ([], r)
  | S n =>
      '(x, r) ← get r;
      '(xs, r) ← get_list get n r;
      mret (x :: xs, r)
  end.

(** The loops [for (const auto& x : v) put(writer, x);] *)
Definition put_list {A} (put : A → ByteWriter → ByteWriter) (l : list A) (w : ByteWriter)
    : ByteWriter := foldl (λ w x, put x w) w l.

(** ** Little-endian numbers *)

Fixpoint le_bytes (n : nat) (v : Z) : list byte :=
  match n with O => [] | S n => byte_of v :: le_bytes n (v / 256) end.

Fixpoint le_val (bs : list byte) : Z :=
  match bs with [] => 0 | b :: bs => byte_val b + 256 * le_val bs end.

Lemma length_le_bytes n v : length (le_bytes n v) = n.
Proof. revert v. induction n; intros; simpl; auto. Qed.

Lemma le_val_range bs : 0 ≤ le_val bs < 256 ^ size_z bs.
Proof.
  induction bs as [|b bs IH]; simpl; [lia|].
  pose proof (byte_val_range b). rewrite Nat2Z.inj_succ, Z.pow_succ_r by lia. lia.
Qed.

Lemma le_val_bytes n v : le_val (le_bytes n v) = v mod 256 ^ Z.of_nat n.
Proof.
  revert v. induction n as [|n IH]; intros v.
  { simpl. by rewrite Z.mod_1_r. }
  change (le_val (le_bytes (S n) v)) with (byte_val (byte_of v) + 256 * le_val (le_bytes n (v / 256))).
  rewrite IH, byte_val_of, Nat2Z.inj_succ, Z.pow_succ_r by lia.
  rewrite Z.rem_mul_r by lia. lia.
Qed.

Lemma le_bytes_val bs : le_bytes (length bs) (le_val bs) = bs.
Proof.
  induction bs as [|b bs IH]; [done|]. simpl.
  pose proof (byte_val_range b) as Hb. f_equal.
  - apply byte_val_inj. rewrite byte_val_of.
    rewrite Z.mul_comm, Z_mod_plus_full. by apply Z.mod_small.
  - etransitivity; [|exact IH]. f_equal.
    rewrite Z.mul_comm, Z_div_plus_full, Z.div_small by lia. lia.
Qed.

Lemma le_val_app bs bs' : le_val (bs ++ bs') = le_val bs + 256 ^ size_z bs * le_val bs'.
Proof.
  induction bs as [|b bs IH]; simpl.
  { rewrite Z.mul_1_l. lia. }
  rewrite IH, Nat2Z.inj_succ, Z.pow_succ_r by lia. lia.
Qed.

Lemma le_bytes_S_r n v :
  le_bytes (S n) v = le_bytes n v ++ [byte_of (Z.shiftr v (8 * Z.of_nat n))].
Proof.
  revert v. induction n as [|n IH]; intros v.
  { simpl. by rewrite Z.shiftr_0_r. }
  change (le_bytes (S (S n)) v) with (byte_of v :: le_bytes (S n) (v / 256)).
  rewrite IH. simpl. f_equal. f_equal. f_equal. f_equal.
  change (v / 256) with (v / 2 ^ 8). rewrite <-Z.shiftr_div_pow2, Z.shiftr_shiftr by lia.
  f_equal. lia.
Qed.

Lemma byte_of_land z : byte_of (Z.land z 0xff) = byte_of z.
Proof.
  apply byte_val_inj. rewrite !byte_val_of.
  change 0xff with (Z.ones 8). rewrite Z.land_ones by lia. by rewrite Zmod_mod.
Qed.

Lemma lor_shiftl_add a b k :
  0 ≤ k → 0 ≤ a < 2 ^ k → Z.lor a (Z.shiftl b k) = a + b * 2 ^ k.
Proof.
  intros Hk Ha. rewrite <-Z.add_nocarry_lor.
  - by rewrite Z.shiftl_mul_pow2.
  - apply Z.bits_inj'. intros n Hn. rewrite Z.land_spec, Z.bits_0.
    destruct (decide (n < k)).
    + by rewrite Z.shiftl_spec_low, andb_false_r.
    + rewrite <-(Z.mod_small a (2 ^ k)) by done.
      by rewrite Z.mod_pow2_bits_high by lia.
Qed.

(** ** Encodings of the writer operations *)

Lemma put_le_spec n v w : put_le n v w = mkWriter (wbuffer_ w ++ le_bytes n v).
Proof.
  unfold put_le. induction n as [|n IH].
  { simpl. rewrite app_nil_r. by destruct w. }
  rewrite seq_S, foldl_app, IH, le_bytes_S_r. simpl. unfold push_back. simpl.
  by rewrite byte_of_land, <-(assoc_L (++)).
Qed.

Lemma put_u8_spec v w : put_u8 v w = mkWriter (wbuffer_ w ++ [byte_of v]).
Proof. done. Qed.
Lemma put_u16_spec v w : put_u16 v w = mkWriter (wbuffer_ w ++ le_bytes 2 v).
Proof. apply put_le_spec. Qed.
Lemma put_u32_spec v w : put_u32 v w = mkWriter (wbuffer_ w ++ le_bytes 4 v).
Proof. apply put_le_spec. Qed.
Lemma put_u64_spec v w : put_u64 v w = mkWriter (wbuffer_ w ++ le_bytes 8 v).
Proof. apply put_le_spec. Qed.
Lemma put_hash_spec h w : put_hash h w = mkWriter (wbuffer_ w ++ h).
Proof. done. Qed.
Lemma put_bytes_spec bs w : put_bytes bs w = mkWriter (wbuffer_ w ++ bs).
Proof. done. Qed.

Definition enc_var_bytes (bs : list byte) : list byte :=
  le_bytes 4 (wrap32 (size_z bs)) ++ bs.

Lemma put_var_bytes_spec bs w : put_var_bytes bs w = mkWriter (wbuffer_ w ++ enc_var_bytes bs).
Proof.
  unfold put_var_bytes. rewrite put_bytes_spec, put_u32_spec. simpl.
  by rewrite <-(assoc_L (++)).
Qed.

Lemma put_list_spec {A} (put : A → ByteWriter → ByteWriter) (enc : A → list byte) l w :
  (∀ a w, put a w = mkWriter (wbuffer_ w ++ enc a)) →
  put_list put l w = mkWriter (wbuffer_ w ++ mjoin (enc <$> l)).
Proof.
  intros Hput. unfold put_list. revert w. induction l as [|a l IH]; intros w; simpl.
  { rewrite app_nil_r. by destruct w. }
  rewrite Hput, IH. simpl. by rewrite <-(assoc_L (++)).
Qed.

Create Rewrite HintDb writer.
#[export] Hint Rewrite put_u8_spec put_u16_spec put_u32_spec put_u64_spec put_hash_spec
  put_bytes_spec put_var_bytes_spec : writer.

(** [solve_writer] proves that a sequence of puts appends the expected bytes. *)
Ltac solve_writer :=
  autorewrite with writer; cbn [wbuffer_]; rewrite <-?(assoc_L (++)); reflexivity.

Arguments le_bytes : simpl never.

(** ** Readers positioned in their input *)

(** The reader that has consumed [pre] and has [suf] left. *)
Definition reader_at (pre suf : list byte) : ByteReader := mkReader (pre ++ suf) (length pre).

Lemma new_reader_at bs : new_reader bs = reader_at [] bs.
Proof. done. Qed.

Lemma remaining_at pre suf : remaining (reader_at pre suf) = size_z suf.
Proof. unfold remaining, reader_at; simpl. rewrite length_app. lia. Qed.

Lemma at_end_at pre suf : at_end (reader_at pre suf) = bool_decide (suf = []).
Proof.
  unfold at_end, reader_at; simpl. rewrite length_app.
  destruct suf as [|b suf]; case_bool_decide; try done; simpl;
    [apply Z.eqb_eq|apply Z.eqb_neq]; lia.
Qed.

Lemma expect_end_at pre suf : expect_end (reader_at pre suf) = Ok tt ↔ suf = [].
Proof. unfold expect_end. rewrite at_end_at. by case_bool_decide. Qed.

Lemma ensure_Ok n r : ensure n r = Ok tt ↔ n ≤ remaining r.
Proof. unfold ensure. destruct (remaining r <? n) eqn:E; simpl; split; intros; done || lia. Qed.

Lemma ensure_Err n r e : ensure n r = Err e → code e = kParseError ∧ remaining r < n.
Proof.
  unfold ensure, make_error. destruct (remaining r <? n) eqn:E; simpl; intros H; simplify_eq.
  split; [done|lia].
Qed.

Lemma data_at_app pre suf i :
  data_at (reader_at pre suf) (length pre + i) = nth i suf x00.
Proof. unfold data_at, reader_at; simpl. rewrite app_nth2_plus. done. Qed.

Lemma advance_at pre s1 s2 :
  advance (length s1) (reader_at pre (s1 ++ s2)) = reader_at (pre ++ s1) s2.
Proof. unfold advance, reader_at; simpl. by rewrite length_app, <-(assoc_L (++)). Qed.

(** Reading [n] bytes exposes them as a prefix of what is left. *)
Lemma split_suf (n : nat) (suf : list byte) :
  Z.of_nat n ≤ size_z suf → ∃ s1 s2, suf = s1 ++ s2 ∧ length s1 = n.
Proof.
  intros Hn. exists (take n suf), (drop n suf).
  rewrite take_drop, length_take. split; [done|lia].
Qed.

Lemma get_loop_val (f : nat → byte) (s1 : list byte) :
  (∀ i, (i < length s1)%nat → f i = nth i s1 x00) →
  foldl (λ value i, Z.lor value (Z.shiftl (byte_val (f i)) (Z.of_nat i * 8))) 0 (seq 0 (length s1))
  = le_val s1.
Proof.
  induction s1 as [|b s1 IH] using rev_ind; intros Hf; [done|].
  rewrite length_app, Nat.add_1_r, seq_S, foldl_app; simpl.
  rewrite IH; clear IH.
  2: { intros i Hi. rewrite Hf by (rewrite length_app; lia). by rewrite app_nth1. }
  rewrite Hf by (rewrite length_app; simpl; lia).
  rewrite nth_middle, le_val_app, lor_shiftl_add; simpl; [|lia|].
  - rewrite (Z.mul_comm (Z.of_nat _)), Z.pow_mul_r by lia. change (2 ^ 8) with 256. lia.
  - rewrite (Z.mul_comm (Z.of_nat _)), Z.pow_mul_r by lia. apply le_val_range.
Qed.

Lemma get_le_at n pre s1 s2 :
  length s1 = n →
  get_le n (reader_at pre (s1 ++ s2)) = Ok (le_val s1, reader_at (pre ++ s1) s2).
Proof.
  intros <-. unfold get_le.
  destruct (ensure _ _) as [[]|] eqn:E.
  2: { apply ensure_Err in E as [_ E]. rewrite remaining_at, length_app in E. lia. }
  simpl. unfold mret, Result_ret. rewrite advance_at. do 2 f_equal.
  apply (get_loop_val (λ i, data_at (reader_at pre (s1 ++ s2)) (length pre + i))).
  intros i Hi. rewrite data_at_app. by rewrite app_nth1.
Qed.

Lemma get_le_short n pre suf :
  size_z suf < Z.of_nat n → fails_with kParseError (get_le n (reader_at pre suf)).
Proof.
  intros Hlt. unfold get_le, ensure. rewrite remaining_at.
  destruct (_ <? _) eqn:E; [|lia]. apply fails_with_bind, fails_with_make_error.
Qed.

(** ** The codec contract *)

Class CodecOk {A} (wf : A → Prop) (enc : A → list byte)
    (get : ByteReader → Result (A * ByteReader)) : Prop := {
  (** a well-formed value reads back from its encoding *)
  codec_get a pre suf :
    wf a → get (reader_at pre (enc a ++ suf)) = Ok (a, reader_at (pre ++ enc a) suf);
  (** what is accepted is the encoding of the value read, which is well formed *)
  codec_inv pre suf a r :
    get (reader_at pre suf) = Ok (a, r) →
    ∃ suf', suf = enc a ++ suf' ∧ r = reader_at (pre ++ enc a) suf' ∧ wf a;
}.

Lemma codec_get_le n (wf : Z → Prop) :
  (∀ v, wf v ↔ 0 ≤ v < 256 ^ Z.of_nat n) → CodecOk wf (le_bytes n) (get_le n).
Proof.
  intros Hwf. split.
  - intros v pre suf Hv%Hwf. rewrite get_le_at by apply length_le_bytes.
    by rewrite le_val_bytes, Z.mod_small.
  - intros pre suf v r Hget.
    destruct (decide (size_z suf < Z.of_nat n)) as [Hs|Hs].
    { destruct (get_le_short n pre suf Hs) as [m Hm]. congruence. }
    destruct (split_suf n suf) as (s1 & s2 & -> & Hl); [lia|].
    rewrite get_le_at in Hget by done. simplify_eq. exists s2.
    rewrite le_bytes_val, Hwf. split_and!; [done|done|apply le_val_range..].
Qed.

#[global] Instance codec_u16 : CodecOk is_u16 (le_bytes 2) get_u16.
Proof. apply (codec_get_le 2). done. Qed.
#[global] Instance codec_u32 : CodecOk is_u32 (le_bytes 4) get_u32.
Proof. apply (codec_get_le 4). done. Qed.
#[global] Instance codec_u64 : CodecOk is_u64 (le_bytes 8) get_u64.
Proof. apply (codec_get_le 8). done. Qed.

Lemma fmap_nth_seq (l : list byte) : (λ i, nth i l x00) <$> seq 0 (length l) = l.
Proof.
  apply list_eq. intros i. rewrite list_lookup_fmap.
  destruct (decide (i < length l)%nat) as [Hi|Hi].
  - rewrite lookup_seq_lt by done. simpl.
    destruct (lookup_lt_is_Some_2 l i Hi) as [b Hb].
    by rewrite Hb, (nth_lookup_Some _ _ x00 _ Hb).
  - rewrite lookup_seq_ge by lia. rewrite lookup_ge_None_2 by lia. done.
Qed.

#[global] Instance codec_hash : CodecOk hash_wf (λ h, h) get_hash.
Proof.
  assert (∀ pre s1 s2, hash_wf s1 →
    get_hash (reader_at pre (s1 ++ s2)) = Ok (s1, reader_at (pre ++ s1) s2)) as Hget.
  { intros pre s1 s2 Hs1. unfold get_hash.
    destruct (ensure _ _) as [[]|] eqn:E.
    2: { apply ensure_Err in E as [_ E]. rewrite remaining_at, length_app, Hs1 in E. lia. }
    rsimpl. rewrite <-Hs1, advance_at. do 2 f_equal.
    etransitivity; [|apply fmap_nth_seq]. apply list_fmap_ext. intros i j Hj.
    apply lookup_seq in Hj as [-> Hj]. simpl. rewrite data_at_app. by rewrite app_nth1. }
  split; [intros; by apply Hget|].
  intros pre suf h r H. assert (32 ≤ size_z suf) as Hs.
  { unfold get_hash in H. inv_ok. destruct x. apply ensure_Ok in H. by rewrite remaining_at in H. }
  destruct (split_suf 32 suf Hs) as (s1 & s2 & -> & Hl).
  rewrite Hget in H by done. simplify_eq. by exists s2.
Qed.

Lemma get_hash_at h pre suf :
  hash_wf h → get_hash (reader_at pre (h ++ suf)) = Ok (h, reader_at (pre ++ h) suf).
Proof. apply (@codec_get _ _ _ _ codec_hash). Qed.

Lemma get_hash_inv pre suf h r :
  get_hash (reader_at pre suf) = Ok (h, r) →
  ∃ suf', suf = h ++ suf' ∧ r = reader_at (pre ++ h) suf' ∧ hash_wf h.
Proof. apply (@codec_inv _ _ _ _ codec_hash). Qed.

Lemma get_bytes_at n pre s1 s2 :
  size_z s1 = n →
  get_bytes n (reader_at pre (s1 ++ s2)) = Ok (s1, reader_at (pre ++ s1) s2).
Proof.
  intros <-. unfold get_bytes.
  destruct (ensure _ _) as [[]|] eqn:E.
  2: { apply ensure_Err in E as [_ E]. rewrite remaining_at, length_app in E. lia. }
  simpl. rewrite Nat2Z.id, advance_at, drop_app_length. by rewrite take_app_length.
Qed.

Lemma get_bytes_inv n pre suf bs r :
  0 ≤ n → get_bytes n (reader_at pre suf) = Ok (bs, r) →
  ∃ suf', suf = bs ++ suf' ∧ r = reader_at (pre ++ bs) suf' ∧ size_z bs = n.
Proof.
  intros Hn H. assert (n ≤ size_z suf) as Hs.
  { unfold get_bytes in H. inv_ok. destruct x. apply ensure_Ok in H. by rewrite remaining_at in H. }
  destruct (split_suf (Z.to_nat n) suf) as (s1 & s2 & -> & Hl); [lia|].
  rewrite get_bytes_at in H by lia. simplify_eq. exists s2. split_and!; [done|done|lia].
Qed.

Lemma get_length_at max n pre suf :
  is_u32 n → n ≤ max →
  get_length max (reader_at pre (le_bytes 4 n ++ suf)) = Ok (n, reader_at (pre ++ le_bytes 4 n) suf).
Proof.
  intros Hn Hmax. unfold get_length. rewrite codec_get by done. simpl.
  destruct (max <? n) eqn:E; [lia|done].
Qed.

Lemma get_length_inv max pre suf n r :
  get_length max (reader_at pre suf) = Ok (n, r) →
  ∃ suf', suf = le_bytes 4 n ++ suf' ∧ r = reader_at (pre ++ le_bytes 4 n) suf' ∧
    is_u32 n ∧ n ≤ max.
Proof.
  unfold get_length. intros H. apply bind_Ok in H as ([m r'] & H1 & H2).
  apply codec_inv in H1 as (suf' & -> & -> & Hwf).
  destruct (max <? m) eqn:E; inv_ok. exists suf'. split_and!; [done..|lia].
Qed.

Definition var_bytes_wf (max_len : Z) (bs : list byte) : Prop := size_z bs ≤ max_len.

#[global] Instance codec_var_bytes max_len :
  TCEq (max_len <? 2 ^ 32) true →
  CodecOk (var_bytes_wf max_len) enc_var_bytes (get_var_bytes max_len).
Proof.
  intros Hmax%TCEq_eq. split.
  - intros bs pre suf Hwf. unfold var_bytes_wf in Hwf. unfold get_var_bytes, enc_var_bytes.
    rewrite wrap32_small by (unfold is_u32; lia). rewrite <-(assoc_L (++)).
    rewrite get_length_at by (unfold is_u32; lia). rsimpl.
    rewrite get_bytes_at by done. by rewrite (assoc_L (++)).
  - intros pre suf bs r H. unfold get_var_bytes in H.
    apply bind_Ok in H as ([n r'] & H1 & H2).
    apply get_length_inv in H1 as (suf' & -> & -> & Hu & Hle).
    apply get_bytes_inv in H2 as (suf'' & -> & -> & Hsz); [|by destruct Hu].
    exists suf''. unfold enc_var_bytes, var_bytes_wf.
    rewrite wrap32_small by (by rewrite Hsz). rewrite Hsz, !(assoc_L (++)). done.
Qed.

(** A counted list of encodings, once its length is known. *)
Section ListCodec.
Context {A : Type} {wf : A → Prop} {enc : A → list byte}.
Context {get : ByteReader → Result (A * ByteReader)} `{!CodecOk wf enc get}.

Lemma get_list_at l pre suf :
  Forall wf l →
  get_list get (length l) (reader_at pre (mjoin (enc <$> l) ++ suf))
  = Ok (l, reader_at (pre ++ mjoin (enc <$> l)) suf).
Proof.
  intros Hwf. revert pre. induction Hwf as [|a l Ha Hl IH]; intros pre; simpl.
  { by rewrite app_nil_r. }
  rewrite <-(assoc_L (++)), codec_get by done. simpl. rewrite IH. simpl.
  by rewrite <-(assoc_L (++)).
Qed.

Lemma get_list_inv n pre suf l r :
  get_list get n (reader_at pre suf) = Ok (l, r) →
  ∃ suf', suf = mjoin (enc <$> l) ++ suf' ∧ r = reader_at (pre ++ mjoin (enc <$> l)) suf' ∧
    Forall wf l ∧ length l = n.
Proof.
  revert pre suf l r. induction n as [|n IH]; intros pre suf l r H; simpl in H.
  { inv_ok. exists suf. simpl. by rewrite app_nil_r. }
  apply bind_Ok in H as ([a r1] & H1 & H). apply bind_Ok in H as ([l' r2] & H2 & H). inv_ok.
  apply codec_inv in H1 as (s1 & -> & -> & Hwf).
  apply IH in H2 as (s2 & -> & -> & Hl & Hlen).
  exists s2. simpl. rewrite <-!(assoc_L (++)). split_and!; [done|done|by constructor|by f_equal].
Qed.
End ListCodec.

(** ** Consequences of the contract *)

Section Codec.
Context {A : Type} {wf : A → Prop} {enc : A → list byte}.
Context {get : ByteReader → Result (A * ByteReader)} `{!CodecOk wf enc get}.

(** [T::deserialize(reader)] followed by [reader.expect_end()]. *)
Definition parse_all (g : ByteReader → Result (A * ByteReader)) (bs : list byte) : Result A :=
  '(a, r) ← g (new_reader bs);
  _ ← expect_end r;
  mret a.

Lemma parse_all_enc a : wf a → parse_all get (enc a) = Ok a.
Proof.
  intros Hwf. unfold parse_all. rewrite new_reader_at.
  rewrite <-(app_nil_r (enc a)), codec_get by done. simpl.
  destruct (expect_end _) as [[]|] eqn:E; [done|].
  pose proof (proj2 (expect_end_at ([] ++ enc a) []) eq_refl). simpl in *. congruence.
Qed.

Lemma parse_all_inv bs a : parse_all get bs = Ok a → bs = enc a ∧ wf a.
Proof.
  unfold parse_all. rewrite new_reader_at. intros H.
  apply bind_Ok in H as ([a' r] & H1 & H). apply bind_Ok in H as ([] & H2 & H). inv_ok.
  apply codec_inv in H1 as (suf & -> & -> & Hwf).
  apply expect_end_at in H2 as ->. by rewrite app_nil_r.
Qed.

Lemma enc_inj a b : wf a → wf b → enc a = enc b → a = b.
Proof.
  intros Ha Hb E. pose proof (parse_all_enc a Ha) as H1. pose proof (parse_all_enc b Hb) as H2.
  rewrite E in H1. congruence.
Qed.

(** No proper prefix of an encoding is accepted. *)
Lemma prefix_rejected a pre bs ext :
  wf a → enc a = bs ++ ext → ext ≠ [] → is_ok (get (reader_at pre bs)) = false.
Proof.
  intros Hwf Henc Hext. destruct (get (reader_at pre bs)) as [[b r]|] eqn:E; [|done].
  exfalso. apply codec_inv in E as (suf' & -> & -> & Hb).
  pose proof (codec_get a pre [] Hwf) as H1.
  rewrite app_nil_r, Henc, <-(assoc_L (++)), codec_get in H1 by done.
  injection H1 as -> H2 _.
  apply (f_equal length) in H2. rewrite !length_app in H2.
  apply (f_equal length) in Henc. rewrite !length_app in Henc.
  apply Hext, nil_length_inv. lia.
Qed.
End Codec.

(** ** Values nested in a byte string

    A length-prefixed byte string that must hold exactly one value. *)

Definition get_boxed {A} (max_len : Z) (get : ByteReader → Result (A * ByteReader)) (r : ByteReader)
    : Result (A * ByteReader) :=
  '(raw, r) ← get_var_bytes max_len r;
  a ← parse_all get raw;
  mret (a, r).

Definition boxed_wf {A} (max_len : Z) (wf : A → Prop) (enc : A → list byte) (a : A) : Prop :=
  wf a ∧ size_z (enc a) ≤ max_len.
Definition enc_boxed {A} (enc : A → list byte) (a : A) : list byte := enc_var_bytes (enc a).

#[global] Instance codec_boxed {A} (max_len : Z) (wf : A → Prop) enc get :
  TCEq (max_len <? 2 ^ 32) true → CodecOk wf enc get →
  CodecOk (boxed_wf max_len wf enc) (enc_boxed enc) (get_boxed max_len get).
Proof.
  intros Hmax Hc. split.
  - intros a pre suf [Hwf Hsz]. unfold get_boxed, enc_boxed.
    rewrite (codec_get (get := get_var_bytes max_len)) by done. rsimpl.
    rewrite parse_all_enc by done. done.
  - intros pre suf a r H. unfold get_boxed in H. apply bind_Ok in H as ([raw r'] & H1 & H).
    apply codec_inv in H1 as (suf' & -> & -> & Hsz). apply bind_Ok in H as (a' & H2 & H). inv_ok.
    apply parse_all_inv in H2 as [-> Hwf]. exists suf'. by split_and!.
Qed.

(** [read_ok] runs a read whose value is at the head of the input; [read_inv H]
    learns from a successful read what it consumed. *)
Ltac read_ok :=
  rewrite <-?(assoc_L (++));
  first
    [ rewrite get_hash_at by done
    | rewrite get_length_at by (done || solve_u)
    | match goal with
      | |- context [get_list ?g _ _] =>
          let lem := constr:(get_list_at (get := g)) in rewrite lem by done
      | |- context [?g (reader_at _ _)] =>
          let lem := constr:(codec_get (get := g)) in rewrite lem by done
      end ];
  rsimpl.
Ltac read_inv H :=
  let v := fresh "v" in let r := fresh "r" in let H1 := fresh "Hread" in
  let s := fresh "suf" in let W := fresh "Hwf" in
  apply bind_Ok in H as ([v r] & H1 & H);
  first [ apply get_hash_inv in H1 as (s & -> & -> & W)
        | apply get_length_inv in H1 as (s & -> & -> & W & ?)
        | apply get_list_inv in H1 as (s & -> & -> & W & ?)
        | apply codec_inv in H1 as (s & -> & -> & W) ].
(** The rest of the input after the reads that were inverted. *)
Ltac exists_rest :=
  match goal with |- ∃ _, _ ∧ reader_at _ ?s = _ ∧ _ => exists s end.

(** ** Checksums

    The first four bytes of a digest as a little-endian number. *)

(** [for (i < sizeof(value)) value |= bytes[i] << (8 * i)] on four bytes *)
Definition load_u32 (bytes : list byte) : Z :=
  foldl (λ value i, Z.lor value (Z.shiftl (byte_val (nth i bytes x00)) (Z.of_nat i * 8))) 0 (seq 0 4).

Lemma load_u32_take bytes : (4 ≤ length bytes)%nat → load_u32 bytes = le_val (take 4 bytes).
Proof.
  intros Hl. unfold load_u32.
  assert (length (take 4 bytes) = 4%nat) as Hl4 by (rewrite length_take; lia).
  rewrite <- (get_loop_val (λ i, nth i bytes x00) (take 4 bytes)); [by rewrite Hl4|].
  intros i Hi. rewrite <- (take_drop 4 bytes) at 1. by rewrite app_nth1.
Qed.

Lemma load_u32_le v : is_u32 v → load_u32 (le_bytes 4 v) = v.
Proof.
  intros Hv. rewrite load_u32_take by (by rewrite length_le_bytes).
  rewrite take_ge by (by rewrite length_le_bytes). rewrite le_val_bytes. by apply Z.mod_small.
Qed.

Lemma load_u32_inv bytes : length bytes = 4%nat → bytes = le_bytes 4 (load_u32 bytes).
Proof.
  intros Hl. rewrite load_u32_take, take_ge by lia. by rewrite <- Hl, le_bytes_val.
Qed.

Lemma load_u32_digest h : hash_wf h → is_u32 (load_u32 h).
Proof.
  intros Hw. unfold hash_wf in Hw. rewrite load_u32_take by (rewrite Hw; lia).
  pose proof (le_val_range (take 4 h)) as Hr. rewrite length_take, Hw in Hr. done.
Qed.
