(* ===== verification/Transaction.v ===== *)
(** * Protocol constants and transactions
    ([include/blockchain/protocol/constants.hpp],
    [include/blockchain/protocol/transaction.hpp], [src/protocol/transaction.cpp]) *)

From S2P Require Import Prelude Errors Sha256 ByteIO.
From Stdlib Require Import Strings.Byte.

(** ** Constants *)

Definition kProtocolVersion : Z := 1.
Definition kTransactionVersion : Z := 1.
Definition kBlockVersion : Z := 1.
Definition kMaxBlockSizeBytes : Z := 1048576.
Definition kMaxTransactionSizeBytes : Z := 65536.
Definition kMaxInputsPerTransaction : Z := 4096.
Definition kMaxOutputsPerTransaction : Z := 4096.
Definition kMaxTransactionsPerBlock : Z := 65536.
Definition kMaxMoney : Z := 21000000 * 100000000.
Definition kCoinUnit : Z := 100000000.
Definition kNullPrevoutIndex : Z := 0xFFFFFFFF.
Definition kDefaultBlockSubsidy : Z := 50 * kCoinUnit.
Definition kDefaultCoinbaseMaturity : Z := 100.

(** ** Data *)

Record OutPoint := mkOutPoint { op_txid : Hash256; op_index : Z }.

Record TxInput := mkTxInput { prevout : OutPoint }.

Record TxOutput := mkTxOutput { value : Z; recipient : Hash256 }.

Record Transaction := mkTransaction {
  version : Z;
  inputs : list TxInput;
  outputs : list TxOutput;
  lock_time : Z;
}.

#[global] Instance OutPoint_eq_dec : EqDecision OutPoint.
Proof. solve_decision. Defined.
#[global] Instance OutPoint_countable : Countable OutPoint.
Proof.
  refine (inj_countable' (λ o, (op_txid o, op_index o)) (λ p, mkOutPoint p.1 p.2) _).
  by intros [].
Defined.
#[global] Instance TxInput_eq_dec : EqDecision TxInput.
Proof. solve_decision. Defined.
#[global] Instance TxOutput_eq_dec : EqDecision TxOutput.
Proof. solve_decision. Defined.
#[global] Instance Transaction_eq_dec : EqDecision Transaction.
Proof. solve_decision. Defined.

(** ** Encoding *)

Definition put_input (input : TxInput) (w : ByteWriter) : ByteWriter :=
  put_u32 (op_index (prevout input)) (put_hash (op_txid (prevout input)) w).

Definition put_output (output : TxOutput) (w : ByteWriter) : ByteWriter :=
  put_hash (recipient output) (put_u64 (value output) w).

(** [Transaction::serialize] *)
Definition tx_serialize (tx : Transaction) (w : ByteWriter) : ByteWriter :=
  let w := put_u32 (version tx) w in
  let w := put_u32 (wrap32 (size_z (inputs tx))) w in
  let w := put_list put_input (inputs tx) w in
  let w := put_u32 (wrap32 (size_z (outputs tx))) w in
  let w := put_list put_output (outputs tx) w in
  put_u32 (lock_time tx) w.

Definition get_input (r : ByteReader) : Result (TxInput * ByteReader) :=
  '(txid, r) ← get_hash r;
  '(index, r) ← get_u32 r;
  mret (mkTxInput (mkOutPoint txid index), r).

Definition get_output (r : ByteReader) : Result (TxOutput * ByteReader) :=
  '(value, r) ← get_u64 r;
  '(recipient, r) ← get_hash r;
  mret (mkTxOutput value recipient, r).

(** [Transaction::deserialize] *)
Definition tx_deserialize (r : ByteReader) : Result (Transaction * ByteReader) :=
  '(version, r) ← get_u32 r;
  '(input_count, r) ← get_length kMaxInputsPerTransaction r;
  '(inputs, r) ← get_list get_input (Z.to_nat input_count) r;
  '(output_count, r) ← get_length kMaxOutputsPerTransaction r;
  '(outputs, r) ← get_list get_output (Z.to_nat output_count) r;
  '(lock_time, r) ← get_u32 r;
  mret (mkTransaction version inputs outputs lock_time, r).

(** [Transaction::to_bytes] *)
Definition tx_to_bytes (tx : Transaction) : list byte :=
  wbuffer_ (tx_serialize tx empty_writer).

(** [Transaction::txid] *)
Definition txid (tx : Transaction) : Hash256 := sha256d (tx_to_bytes tx).

Definition is_coinbase (tx : Transaction) : bool :=
  match inputs tx with
  | [input] => op_index (prevout input) =? kNullPrevoutIndex
  | _ => false
  end.

(** [for (i = 0; i < 4; ++i) txid[i] = (height >> (8 * i)) & 0xFF] on a zero digest *)
Definition height_txid (height : Z) : Hash256 :=
  foldl (λ h i, <[i := byte_of (Z.land (Z.shiftr height (8 * Z.of_nat i)) 0xFF)]> h)
    (replicate 32 x00) (seq 0 4).

Definition make_coinbase (height value : Z) (recipient : Hash256) : Transaction :=
  mkTransaction kTransactionVersion
    [mkTxInput (mkOutPoint (height_txid height) kNullPrevoutIndex)]
    [mkTxOutput value recipient] 0.

(** ** Well-formedness: the ranges of the C++ types and the counts a reader accepts *)

Definition outpoint_wf (o : OutPoint) : Prop := hash_wf (op_txid o) ∧ is_u32 (op_index o).
Definition input_wf (i : TxInput) : Prop := outpoint_wf (prevout i).
Definition output_wf (o : TxOutput) : Prop := is_u64 (value o) ∧ hash_wf (recipient o).

(** The values of the C++ type [Transaction]. *)
Definition tx_typed (tx : Transaction) : Prop :=
  is_u32 (version tx) ∧ Forall input_wf (inputs tx) ∧ Forall output_wf (outputs tx) ∧
  is_u32 (lock_time tx).

(** The ones with acceptable counts. *)
Definition tx_wf (tx : Transaction) : Prop :=
  tx_typed tx ∧ size_z (inputs tx) ≤ kMaxInputsPerTransaction ∧
  size_z (outputs tx) ≤ kMaxOutputsPerTransaction.

#[global] Instance output_wf_dec o : Decision (output_wf o).
Proof. unfold output_wf. apply _. Defined.
#[global] Instance input_wf_dec i : Decision (input_wf i).
Proof. unfold input_wf, outpoint_wf. apply _. Defined.
#[global] Instance tx_typed_dec tx : Decision (tx_typed tx).
Proof. unfold tx_typed. apply _. Defined.
#[global] Instance tx_wf_dec tx : Decision (tx_wf tx).
Proof. unfold tx_wf. apply _. Defined.

(** ** Codecs *)

Definition enc_input (i : TxInput) : list byte :=
  op_txid (prevout i) ++ le_bytes 4 (op_index (prevout i)).
Definition enc_output (o : TxOutput) : list byte := le_bytes 8 (value o) ++ recipient o.
Definition enc_tx (tx : Transaction) : list byte :=
  le_bytes 4 (version tx) ++
  le_bytes 4 (wrap32 (size_z (inputs tx))) ++ mjoin (enc_input <$> inputs tx) ++
  le_bytes 4 (wrap32 (size_z (outputs tx))) ++ mjoin (enc_output <$> outputs tx) ++
  le_bytes 4 (lock_time tx).

Lemma put_input_spec i w : put_input i w = mkWriter (wbuffer_ w ++ enc_input i).
Proof. unfold put_input, enc_input. solve_writer. Qed.
Lemma put_output_spec o w : put_output o w = mkWriter (wbuffer_ w ++ enc_output o).
Proof. unfold put_output, enc_output. solve_writer. Qed.

Lemma tx_serialize_spec tx w : tx_serialize tx w = mkWriter (wbuffer_ w ++ enc_tx tx).
Proof.
  unfold tx_serialize. cbv zeta.
  rewrite (put_list_spec put_input enc_input) by apply put_input_spec.
  rewrite (put_list_spec put_output enc_output) by apply put_output_spec.
  autorewrite with writer. cbn [wbuffer_]. unfold enc_tx. by rewrite <-!(assoc_L (++)).
Qed.
#[export] Hint Rewrite tx_serialize_spec : writer.

Lemma tx_to_bytes_enc tx : tx_to_bytes tx = enc_tx tx.
Proof. unfold tx_to_bytes. by rewrite tx_serialize_spec. Qed.

#[global] Instance codec_input : CodecOk input_wf enc_input get_input.
Proof.
  split.
  - intros [[h i]] pre suf [Hh Hi]. unfold get_input, enc_input; cbn [prevout op_txid op_index] in *.
    read_ok. read_ok. by rewrite <-(assoc_L (++)).
  - intros pre suf i r H. unfold get_input in H. read_inv H. read_inv H. inv_ok.
    exists_rest. unfold enc_input; cbn [prevout op_txid op_index].
    rewrite <-!(assoc_L (++)). by split_and!.
Qed.

#[global] Instance codec_output : CodecOk output_wf enc_output get_output.
Proof.
  split.
  - intros [v h] pre suf [Hv Hh]. unfold get_output, enc_output; cbn [value recipient] in *.
    read_ok. read_ok. by rewrite <-(assoc_L (++)).
  - intros pre suf o r H. unfold get_output in H. read_inv H. read_inv H. inv_ok.
    exists_rest. unfold enc_output; cbn [value recipient].
    rewrite <-!(assoc_L (++)). by split_and!.
Qed.

Lemma count_u32 {A} (l : list A) max :
  size_z l ≤ max → max < 2 ^ 32 → is_u32 (size_z l) ∧ wrap32 (size_z l) = size_z l.
Proof. intros. assert (is_u32 (size_z l)) by solve_u. split; [done|by apply wrap32_small]. Qed.

#[global] Instance codec_tx : CodecOk tx_wf enc_tx tx_deserialize.
Proof.
  split.
  - intros [v ins outs lt] pre suf [(Hv & Hi & Ho & Hl) [Hni Hno]].
    cbn [version inputs outputs lock_time] in *. unfold enc_tx, tx_deserialize.
    cbn [version inputs outputs lock_time].
    destruct (count_u32 ins _ Hni) as [? ->]; [done|].
    destruct (count_u32 outs _ Hno) as [? ->]; [done|].
    do 2 read_ok. rewrite Nat2Z.id. do 2 read_ok. rewrite Nat2Z.id. do 2 read_ok.
    by rewrite <-!(assoc_L (++)).
  - intros pre suf tx r H. unfold tx_deserialize in H.
    do 6 read_inv H. inv_ok. exists_rest. unfold enc_tx, tx_wf, tx_typed.
    cbn [version inputs outputs lock_time].
    assert (size_z v1 = v0) as -> by solve_u. assert (size_z v3 = v2) as -> by solve_u.
    rewrite !wrap32_small by done. rewrite <-!(assoc_L (++)). by split_and!.
Qed.

(** ** Sizes *)

Lemma length_mjoin_const {A} (f : A → list byte) n l :
  Forall (λ x, length (f x) = n) l → length (mjoin (f <$> l)) = (n * length l)%nat.
Proof.
  induction 1 as [|x l Hx Hl IH]; [simpl; lia|].
  change (mjoin (f <$> x :: l)) with (f x ++ mjoin (f <$> l)).
  rewrite length_app, Hx, IH. simpl. lia.
Qed.

Lemma length_enc_input i : input_wf i → length (enc_input i) = 36%nat.
Proof.
  intros [Hh _]. unfold enc_input. rewrite length_app, length_le_bytes, Hh. done.
Qed.
Lemma length_enc_output o : output_wf o → length (enc_output o) = 40%nat.
Proof.
  intros [_ Hh]. unfold enc_output. rewrite length_app, length_le_bytes, Hh. done.
Qed.

Lemma length_enc_tx tx :
  tx_typed tx →
  length (enc_tx tx) = (16 + 36 * length (inputs tx) + 40 * length (outputs tx))%nat.
Proof.
  intros (_ & Hi & Ho & _). unfold enc_tx. rewrite !length_app, !length_le_bytes.
  rewrite (length_mjoin_const enc_input 36), (length_mjoin_const enc_output 40).
  - lia.
  - eapply Forall_impl; [exact Ho|apply length_enc_output].
  - eapply Forall_impl; [exact Hi|apply length_enc_input].
Qed.

(** ** Coinbases *)

Lemma height_txid_wf h : hash_wf (height_txid h).
Proof. done. Qed.

Lemma height_txid_prefix h : take 4 (height_txid h) = le_bytes 4 h.
Proof.
  unfold height_txid, le_bytes. simpl. rewrite !byte_of_land, Z.shiftr_0_r.
  rewrite !Z.shiftr_div_pow2 by lia. rewrite !Z.div_div by lia. done.
Qed.

Lemma height_txid_inj h1 h2 :
  is_u32 h1 → is_u32 h2 → height_txid h1 = height_txid h2 → h1 = h2.
Proof.
  intros H1 H2 E. apply (f_equal (take 4)) in E. rewrite !height_txid_prefix in E.
  apply (f_equal le_val) in E. rewrite !le_val_bytes in E.
  by rewrite !Z.mod_small in E.
Qed.

Lemma make_coinbase_wf h v r : is_u64 v → hash_wf r → tx_wf (make_coinbase h v r).
Proof.
  intros Hv Hr. unfold tx_wf, tx_typed, make_coinbase; simpl. split_and!; try done.
  - apply Forall_singleton. split; [apply height_txid_wf|done].
  - by apply Forall_singleton.
Qed.

Lemma make_coinbase_bytes_inj h1 h2 v1 v2 r1 r2 :
  is_u32 h1 → is_u32 h2 → is_u64 v1 → is_u64 v2 → hash_wf r1 → hash_wf r2 →
  tx_to_bytes (make_coinbase h1 v1 r1) = tx_to_bytes (make_coinbase h2 v2 r2) → h1 = h2.
Proof.
  intros Hh1 Hh2 Hv1 Hv2 Hr1 Hr2. rewrite !tx_to_bytes_enc. intros E.
  apply (enc_inj (get := tx_deserialize)) in E; [|by apply make_coinbase_wf..].
  apply (f_equal (λ t, option_map (λ i, op_txid (prevout i)) (head (inputs t)))) in E.
  cbn [make_coinbase inputs head option_map prevout op_txid] in E.
  apply (inj Some) in E. by apply height_txid_inj.
Qed.
