(* ===== verification/Block.v ===== *)
(** * Blocks and Merkle roots ([include/blockchain/protocol/block.hpp],
    [src/protocol/block.cpp]) *)

From S2P Require Import Prelude Errors Sha256 ByteIO Transaction.

(** ** Data and encoding *)

Record BlockHeader := mkBlockHeader {
  hversion : Z;
  prev_block : Hash256;
  merkle_root : Hash256;
  timestamp : Z;
  height : Z;
}.

Record Block := mkBlock { header : BlockHeader; transactions : list Transaction }.

#[global] Instance BlockHeader_eq_dec : EqDecision BlockHeader.
Proof. solve_decision. Defined.
#[global] Instance Block_eq_dec : EqDecision Block.
Proof. solve_decision. Defined.

(** [BlockHeader::serialize] *)
Definition header_serialize (h : BlockHeader) (w : ByteWriter) : ByteWriter :=
  let w := put_u32 (hversion h) w in
  let w := put_hash (prev_block h) w in
  let w := put_hash (merkle_root h) w in
  let w := put_u64 (timestamp h) w in
  put_u32 (height h) w.

(** [BlockHeader::deserialize] *)
Definition header_deserialize (r : ByteReader) : Result (BlockHeader * ByteReader) :=
  '(version, r) ← get_u32 r;
  '(prev_block, r) ← get_hash r;
  '(merkle_root, r) ← get_hash r;
  '(timestamp, r) ← get_u64 r;
  '(height, r) ← get_u32 r;
  mret (mkBlockHeader version prev_block merkle_root timestamp height, r).

(** [BlockHeader::hash] *)
Definition header_hash (h : BlockHeader) : Hash256 :=
  sha256d (wbuffer_ (header_serialize h empty_writer)).

(** [Block::serialize] *)
Definition block_serialize (b : Block) (w : ByteWriter) : ByteWriter :=
  let w := header_serialize (header b) w in
  let w := put_u32 (wrap32 (size_z (transactions b))) w in
  put_list tx_serialize (transactions b) w.

(** [Block::deserialize] *)
Definition block_deserialize (r : ByteReader) : Result (Block * ByteReader) :=
  '(header, r) ← header_deserialize r;
  '(tx_count, r) ← get_length kMaxTransactionsPerBlock r;
  '(transactions, r) ← get_list tx_deserialize (Z.to_nat tx_count) r;
  mret (mkBlock header transactions, r).

(** [Block::to_bytes] *)
Definition block_to_bytes (b : Block) : list byte :=
  wbuffer_ (block_serialize b empty_writer).

(** ** Merkle root *)

(** The bytes hashed for the nodes [level[i]], [level[i + 1]]. *)
Definition node_bytes (a b : Hash256) : list byte :=
  wbuffer_ (put_hash b (put_hash a empty_writer)).

(** [if (level.size() % 2 != 0) level.push_back(level.back());] *)
Definition pad_level (level : list Hash256) : list Hash256 :=
  if Nat.odd (length level) then level ++ option_list (last level) else level.

(** The inputs hashed by the inner loop over a level of even size. *)
Fixpoint level_pairs (level : list Hash256) : list (list byte) :=
  match level with
  | a :: b :: rest => node_bytes a b :: level_pairs rest
  | _ => []
  end.

Definition level_preimages (level : list Hash256) : list (list byte) :=
  level_pairs (pad_level level).

Definition merkle_next (level : list Hash256) : list Hash256 :=
  sha256d <$> level_preimages level.

(** [while (level.size() > 1) ...], bounded by [fuel] iterations *)
Fixpoint merkle_loop (fuel : nat) (level : list Hash256) : list Hash256 :=
  match fuel with
  | O => level
  | S fuel =>
      if (1 <? size_z level) then merkle_loop fuel (merkle_next level) else level
  end.

Definition compute_merkle_root (txs : list Transaction) : Hash256 :=
  match txs with
  | [] => zero_hash
  | _ => default zero_hash (head (merkle_loop (length txs) (txid <$> txs)))
  end.

(** ** Codecs *)

Definition header_wf (h : BlockHeader) : Prop :=
  is_u32 (hversion h) ∧ hash_wf (prev_block h) ∧ hash_wf (merkle_root h) ∧
  is_u64 (timestamp h) ∧ is_u32 (height h).

Definition block_wf (b : Block) : Prop :=
  header_wf (header b) ∧ Forall tx_wf (transactions b) ∧
  size_z (transactions b) ≤ kMaxTransactionsPerBlock.

#[global] Instance header_wf_dec h : Decision (header_wf h).
Proof. unfold header_wf. apply _. Defined.
#[global] Instance block_wf_dec b : Decision (block_wf b).
Proof. unfold block_wf. apply _. Defined.

Definition enc_header (h : BlockHeader) : list byte :=
  le_bytes 4 (hversion h) ++ prev_block h ++ merkle_root h ++ le_bytes 8 (timestamp h) ++
  le_bytes 4 (height h).

Definition enc_block (b : Block) : list byte :=
  enc_header (header b) ++ le_bytes 4 (wrap32 (size_z (transactions b))) ++
  mjoin (enc_tx <$> transactions b).

Lemma header_serialize_spec h w : header_serialize h w = mkWriter (wbuffer_ w ++ enc_header h).
Proof. unfold header_serialize, enc_header. cbv zeta. solve_writer. Qed.
#[export] Hint Rewrite header_serialize_spec : writer.

Lemma block_serialize_spec b w : block_serialize b w = mkWriter (wbuffer_ w ++ enc_block b).
Proof.
  unfold block_serialize, enc_block. cbv zeta.
  rewrite (put_list_spec tx_serialize enc_tx) by apply tx_serialize_spec. solve_writer.
Qed.
#[export] Hint Rewrite block_serialize_spec : writer.

Lemma block_to_bytes_enc b : block_to_bytes b = enc_block b.
Proof. unfold block_to_bytes. by rewrite block_serialize_spec. Qed.

Lemma header_hash_enc h : header_hash h = sha256d (enc_header h).
Proof. unfold header_hash. by rewrite header_serialize_spec. Qed.

#[global] Instance codec_header : CodecOk header_wf enc_header header_deserialize.
Proof.
  split.
  - intros [v p m t h] pre suf (Hv & Hp & Hm & Ht & Hh).
    unfold enc_header, header_deserialize; cbn [hversion prev_block merkle_root timestamp height] in *.
    do 5 read_ok. by rewrite <-!(assoc_L (++)).
  - intros pre suf h r H. unfold header_deserialize in H. do 5 read_inv H. inv_ok.
    exists_rest. unfold enc_header; cbn [hversion prev_block merkle_root timestamp height].
    rewrite <-!(assoc_L (++)). by split_and!.
Qed.

#[global] Instance codec_block : CodecOk block_wf enc_block block_deserialize.
Proof.
  split.
  - intros [h txs] pre suf (Hh & Htxs & Hn). cbn [header transactions] in *.
    unfold enc_block, block_deserialize; cbn [header transactions].
    destruct (count_u32 txs _ Hn) as [? ->]; [done|].
    do 2 read_ok. rewrite Nat2Z.id. read_ok. by rewrite <-!(assoc_L (++)).
  - intros pre suf b r H. unfold block_deserialize in H. do 3 read_inv H. inv_ok.
    exists_rest. unfold enc_block, block_wf; cbn [header transactions].
    assert (size_z v1 = v0) as -> by solve_u.
    rewrite wrap32_small by done. rewrite <-!(assoc_L (++)). by split_and!.
Qed.

(** ** Merkle levels *)

Lemma node_bytes_app a b : node_bytes a b = a ++ b.
Proof. done. Qed.

Lemma node_bytes_inj a b c d :
  hash_wf a → hash_wf c → node_bytes a b = node_bytes c d → a = c ∧ b = d.
Proof. rewrite !node_bytes_app. intros Ha Hc E. apply app_inj_1 in E; [done|congruence]. Qed.

Lemma level_preimages_2 a b l :
  level_preimages (a :: b :: l) = node_bytes a b :: level_preimages l.
Proof.
  unfold level_preimages, pad_level. cbn [length]. rewrite Nat.odd_succ, Nat.even_succ.
  destruct (Nat.odd (length l)) eqn:E; [|done].
  by destruct l.
Qed.

Lemma level_preimages_1 a : level_preimages [a] = [node_bytes a a].
Proof. done. Qed.

Lemma length_level_preimages l : length (level_preimages l) = Nat.div2 (S (length l)).
Proof.
  induction l as [|a|a b l IH] using list_ind2; [done|done|].
  rewrite level_preimages_2. simpl. by rewrite IH.
Qed.

Lemma elem_of_level_preimages p l :
  p ∈ level_preimages l → ∃ a b, p = node_bytes a b ∧ a ∈ l ∧ b ∈ l.
Proof.
  induction l as [|a|a b l IH] using list_ind2; intros Hp.
  - by apply not_elem_of_nil in Hp.
  - apply list_elem_of_singleton in Hp as ->. exists a, a. set_solver.
  - rewrite level_preimages_2 in Hp. apply elem_of_cons in Hp as [->|Hp].
    + exists a, b. set_solver.
    + destruct (IH Hp) as (c & d & ? & ? & ?). exists c, d. set_solver.
Qed.

Lemma length_preimage p l :
  Forall hash_wf l → p ∈ level_preimages l → length p = 64%nat.
Proof.
  rewrite Forall_forall. intros Hl (a & b & -> & Ha & Hb)%elem_of_level_preimages.
  rewrite node_bytes_app, length_app, (Hl a Ha), (Hl b Hb). done.
Qed.

Lemma NoDup_level_preimages l :
  Forall hash_wf l → NoDup l → NoDup (level_preimages l).
Proof.
  induction l as [|a|a b l IH] using list_ind2; intros Hwf Hnd.
  - constructor.
  - apply NoDup_singleton.
  - rewrite level_preimages_2. decompose_Forall_hyps. apply NoDup_cons in Hnd as [Ha Hnd].
    apply NoDup_cons in Hnd as [Hb Hnd]. constructor; [|by apply IH].
    intros (c & d & E & Hc & Hd)%elem_of_level_preimages.
    apply node_bytes_inj in E as [-> ->]; [set_solver|done|].
    by eapply (proj1 (Forall_forall hash_wf l)).
Qed.

Lemma level_preimages_inj l1 l2 :
  Forall hash_wf l1 → Forall hash_wf l2 → NoDup l1 → NoDup l2 →
  level_preimages l1 = level_preimages l2 → l1 = l2.
Proof.
  revert l2. induction l1 as [|a|a b l1 IH] using list_ind2; intros l2 Hw1 Hw2 Hn1 Hn2 E;
    destruct l2 as [|c [|d l2]]; rewrite ?level_preimages_2, ?level_preimages_1 in E; try discriminate E;
    rewrite ?Forall_cons in Hw1, Hw2; destruct_and?.
  - done.
  - injection E as E. apply node_bytes_inj in E as [-> _]; done.
  - injection E as E _. apply node_bytes_inj in E as [-> ->]; [|done..].
    apply NoDup_cons in Hn2 as [Hn2 _]. set_solver.
  - injection E as E _. apply node_bytes_inj in E as [-> ->]; [|done..].
    apply NoDup_cons in Hn1 as [Hn1 _]. set_solver.
  - injection E as E E'. apply node_bytes_inj in E as [-> ->]; [|done..].
    f_equal. f_equal. apply NoDup_cons in Hn1 as [_ Hn1]. apply NoDup_cons in Hn1 as [_ Hn1].
    apply NoDup_cons in Hn2 as [_ Hn2]. apply NoDup_cons in Hn2 as [_ Hn2]. by apply IH.
Qed.

(** ** Termination of the loop and depth of the tree *)

Lemma length_merkle_next l : length (merkle_next l) = Nat.div2 (S (length l)).
Proof. unfold merkle_next. rewrite length_fmap. apply length_level_preimages. Qed.

Lemma merkle_next_wf l : Forall hash_wf (merkle_next l).
Proof. unfold merkle_next. apply Forall_fmap, Forall_true. intros x. apply sha256d_wf. Qed.

(** [levels k l]: the level [k] steps above [l]. *)
Definition levels (k : nat) (l : list Hash256) : list Hash256 := Nat.iter k merkle_next l.

Lemma levels_S k l : levels (S k) l = levels k (merkle_next l).
Proof. unfold levels. apply Nat.iter_succ_r. Qed.

Lemma levels_add j k l : levels (j + k) l = levels j (levels k l).
Proof. apply Nat.iter_add. Qed.

Lemma merkle_loop_depth fuel l :
  l ≠ [] → (length l ≤ fuel)%nat →
  ∃ d root, (d ≤ fuel)%nat ∧ merkle_loop fuel l = levels d l ∧ levels d l = [root] ∧
    ∀ k, (k < d)%nat → (1 < length (levels k l))%nat.
Proof.
  revert l. induction fuel as [|fuel IH]; intros l Hne Hle.
  { destruct l; simpl in *; [done|lia]. }
  simpl. destruct (1 <? size_z l) eqn:E.
  - destruct (IH (merkle_next l)) as (d & root & Hd & Hloop & Hroot & Hk).
    + intros Hn. apply (f_equal length) in Hn. rewrite length_merkle_next in Hn.
      destruct l as [|? [|]]; simpl in *; done || lia.
    + rewrite length_merkle_next, Nat.div2_div.
      apply Nat.lt_succ_r, Nat.Div0.div_lt_upper_bound. lia.
    + exists (S d), root. split; [lia|]. rewrite !levels_S. split; [done|]. split; [done|].
      intros [|k] Hlt; [change (levels 0 l) with l; lia|]. rewrite levels_S. apply Hk. lia.
  - apply Z.ltb_ge in E. destruct l as [|r [|]]; cbn [length] in *; [done| |lia].
    exists 0%nat, r. split_and!; [lia|done|done|lia].
Qed.

(** ** The Merkle root binds the transaction list *)

(** Everything [compute_merkle_root] passes to the hash function. *)
Fixpoint merkle_nodes (fuel : nat) (level : list Hash256) : list (list byte) :=
  match fuel with
  | O => []
  | S fuel =>
      if (1 <? size_z level) then level_preimages level ++ merkle_nodes fuel (merkle_next level)
      else []
  end.

Definition merkle_hashed (txs : list Transaction) : list (list byte) :=
  (tx_to_bytes <$> txs) ++ merkle_nodes (length txs) (txid <$> txs).

(** No two of these byte strings collide. *)
Definition collision_free (l : list (list byte)) : Prop :=
  ∀ x y, x ∈ l → y ∈ l → sha256d x = sha256d y → x = y.

Lemma merkle_nodes_levels fuel l k p d :
  (d ≤ fuel)%nat → (∀ k, (k < d)%nat → (1 < length (levels k l))%nat) → (k < d)%nat →
  p ∈ level_preimages (levels k l) → p ∈ merkle_nodes fuel l.
Proof.
  revert l k d. induction fuel as [|fuel IH]; intros l k d Hd Hlong Hk Hp; [lia|].
  simpl. destruct (1 <? size_z l) eqn:E.
  2: { pose proof (Hlong 0%nat ltac:(lia)). change (levels 0 l) with l in *. lia. }
  apply elem_of_app. destruct k as [|k]; [by left|right].
  apply (IH _ k (d - 1)%nat); [lia| |lia|by rewrite <-levels_S].
  intros j Hj. rewrite <-levels_S. apply Hlong. lia.
Qed.

Section Binding.
Context (S : list byte → Prop).
Context (S_inj : ∀ x y, S x → S y → sha256d x = sha256d y → x = y).

Lemma NoDup_hashes l : Forall S l → NoDup l → NoDup (sha256d <$> l).
Proof.
  intros HS Hnd. induction Hnd as [|x l Hx Hnd IH]; cbn [fmap list_fmap]; [constructor|].
  apply Forall_cons in HS as [HSx HS]. constructor; [|by apply IH].
  rewrite list_elem_of_fmap. intros (y & E & Hy).
  apply S_inj in E; [by subst|done|]. by eapply (proj1 (Forall_forall S l)).
Qed.

Lemma fmap_hash_inj l1 l2 :
  Forall S l1 → Forall S l2 → sha256d <$> l1 = sha256d <$> l2 → l1 = l2.
Proof.
  intros H1. revert l2. induction H1 as [|x l1 Hx H1 IH]; intros l2 H2 E; destruct H2; try done.
  apply (inj2 cons) in E as [E E']. apply S_inj in E; [|done..]. subst. f_equal. by apply IH.
Qed.

(** Equal levels above two duplicate-free levels of the same depth: equal levels. *)
Lemma levels_inj d l1 l2 :
  Forall hash_wf l1 → Forall hash_wf l2 → NoDup l1 → NoDup l2 →
  (∀ k p, (k < d)%nat → p ∈ level_preimages (levels k l1) → S p) →
  (∀ k p, (k < d)%nat → p ∈ level_preimages (levels k l2) → S p) →
  levels d l1 = levels d l2 → l1 = l2.
Proof.
  revert l1 l2. induction d as [|d IH]; intros l1 l2 Hw1 Hw2 Hn1 Hn2 H1 H2 E; [done|].
  rewrite !levels_S in E.
  assert (Forall S (level_preimages l1)) as HS1.
  { apply Forall_forall. intros p. apply (H1 0%nat). lia. }
  assert (Forall S (level_preimages l2)) as HS2.
  { apply Forall_forall. intros p. apply (H2 0%nat). lia. }
  apply level_preimages_inj; [done..|].
  apply fmap_hash_inj; [done..|]. fold (merkle_next l1) (merkle_next l2).
  apply IH; [apply merkle_next_wf..| | | | |done].
  - apply NoDup_hashes; [done|]. by apply NoDup_level_preimages.
  - apply NoDup_hashes; [done|]. by apply NoDup_level_preimages.
  - intros k p Hk. rewrite <-levels_S. apply H1. lia.
  - intros k p Hk. rewrite <-levels_S. apply H2. lia.
Qed.
End Binding.

(** No transaction encoding is as long as a pair of digests. *)
Lemma tx_bytes_not_node tx : tx_typed tx → length (tx_to_bytes tx) ≠ 64%nat.
Proof. intros Hwf. rewrite tx_to_bytes_enc, length_enc_tx by done. lia. Qed.

Lemma compute_merkle_root_levels txs :
  txs ≠ [] →
  ∃ d, levels d (txid <$> txs) = [compute_merkle_root txs] ∧
    ∀ k p, (k < d)%nat → p ∈ level_preimages (levels k (txid <$> txs)) → p ∈ merkle_hashed txs.
Proof.
  intros Hne. destruct (merkle_loop_depth (length txs) (txid <$> txs)) as (d & root & Hd & Hl & Hr & Hk).
  - by destruct txs.
  - by rewrite length_fmap.
  - exists d. split.
    + destruct txs as [|tx txs]; [done|]. unfold compute_merkle_root. rewrite Hl, Hr. done.
    + intros k p Hlt Hp. unfold merkle_hashed. apply elem_of_app. right.
      by eapply merkle_nodes_levels.
Qed.

Lemma txids_wf txs : Forall hash_wf (txid <$> txs).
Proof. apply Forall_fmap, Forall_true. intros tx. apply sha256d_wf. Qed.

Section MerkleBinding.
Context (txs1 txs2 : list Transaction).
Context (Hwf1 : Forall tx_wf txs1) (Hwf2 : Forall tx_wf txs2).
Context (Hnd1 : NoDup (txid <$> txs1)) (Hnd2 : NoDup (txid <$> txs2)).
Context (Hcf : collision_free (merkle_hashed txs1 ++ merkle_hashed txs2)).

Lemma hashed_inj x y :
  x ∈ merkle_hashed txs1 ∨ x ∈ merkle_hashed txs2 →
  y ∈ merkle_hashed txs1 ∨ y ∈ merkle_hashed txs2 →
  sha256d x = sha256d y → x = y.
Proof. intros Hx Hy. apply Hcf; by apply elem_of_app. Qed.

Lemma txids_determine : txid <$> txs1 = txid <$> txs2 → txs1 = txs2.
Proof.
  intros E.
  assert (tx_to_bytes <$> txs1 = tx_to_bytes <$> txs2) as Hb.
  { apply (fmap_hash_inj (λ x, x ∈ merkle_hashed txs1 ∨ x ∈ merkle_hashed txs2)).
    - apply hashed_inj.
    - apply Forall_forall. intros x Hx. left. apply elem_of_app. by left.
    - apply Forall_forall. intros x Hx. right. apply elem_of_app. by left.
    - rewrite <-!list_fmap_compose. exact E. }
  clear E Hnd1 Hnd2 Hcf. revert txs2 Hwf2 Hb.
  induction Hwf1 as [|t1 l1 Ht1 Hl1 IH]; intros l2 Hl2 Hb; destruct Hl2 as [|t2 l2 Ht2 Hl2];
    [done|done|done|].
  apply (inj2 cons) in Hb as [Hb Hb']. rewrite !tx_to_bytes_enc in Hb.
  apply (enc_inj (get := tx_deserialize)) in Hb; [|done..]. subst. f_equal. by apply IH.
Qed.
End MerkleBinding.

(** A level of transaction ids is never a level of inner nodes. *)
Lemma leaves_not_inner txs1 txs2 k :
  txs1 ≠ [] → Forall tx_wf txs1 →
  collision_free (merkle_hashed txs1 ++ merkle_hashed txs2) →
  (∀ p, p ∈ level_preimages (levels k (txid <$> txs2)) → p ∈ merkle_hashed txs2) →
  Forall hash_wf (levels k (txid <$> txs2)) →
  txid <$> txs1 ≠ levels (S k) (txid <$> txs2).
Proof.
  intros Hne Hwf Hcf Hin Hlw E. destruct txs1 as [|tx txs1]; [done|].
  apply Forall_cons in Hwf as [Htx _]. cbn [fmap list_fmap] in E.
  change (levels (S k) ?l) with (merkle_next (levels k l)) in E. unfold merkle_next in E.
  destruct (level_preimages (levels k (txid <$> txs2))) as [|p ps] eqn:Ep; [discriminate E|].
  apply (inj2 cons) in E as [E _]. unfold txid in E. apply Hcf in E.
  - apply (tx_bytes_not_node tx); [by destruct Htx|]. rewrite E.
    apply (length_preimage _ (levels k (txid <$> txs2))); [done|]. rewrite Ep. by left.
  - do 2 (apply elem_of_app; left). by left.
  - apply elem_of_app. right. apply Hin. by left.
Qed.

Lemma levels_wf k txs : Forall hash_wf (levels k (txid <$> txs)).
Proof. destruct k; [apply txids_wf|apply merkle_next_wf]. Qed.

Lemma collision_free_comm l1 l2 : collision_free (l1 ++ l2) → collision_free (l2 ++ l1).
Proof. intros H x y. rewrite !(elem_of_app l2). intros Hx Hy. apply H; apply elem_of_app; tauto. Qed.

Lemma NoDup_levels (P : list byte → Prop) k l :
  (∀ x y, P x → P y → sha256d x = sha256d y → x = y) →
  Forall hash_wf l → NoDup l →
  (∀ j p, (j < k)%nat → p ∈ level_preimages (levels j l) → P p) → NoDup (levels k l).
Proof.
  intros Hinj. revert l. induction k as [|k IH]; intros l Hwf Hnd HP; [done|].
  rewrite levels_S. apply IH.
  - apply merkle_next_wf.
  - apply (NoDup_hashes P Hinj); [|by apply NoDup_level_preimages].
    apply Forall_forall. intros p. apply (HP 0%nat). lia.
  - intros j p Hj. rewrite <-levels_S. apply HP. lia.
Qed.

Lemma merkle_binding_le txs1 txs2 d k :
  txs1 ≠ [] → Forall tx_wf txs1 → Forall tx_wf txs2 →
  NoDup (txid <$> txs1) → NoDup (txid <$> txs2) →
  collision_free (merkle_hashed txs1 ++ merkle_hashed txs2) →
  (∀ j p, (j < d)%nat → p ∈ level_preimages (levels j (txid <$> txs1)) → p ∈ merkle_hashed txs1) →
  (∀ j p, (j < d + k)%nat → p ∈ level_preimages (levels j (txid <$> txs2)) → p ∈ merkle_hashed txs2) →
  levels d (txid <$> txs1) = levels (d + k) (txid <$> txs2) → txs1 = txs2.
Proof.
  intros Hne Hw1 Hw2 Hn1 Hn2 Hcf H1 H2 E. rewrite levels_add in E.
  pose (P x := x ∈ merkle_hashed txs1 ∨ x ∈ merkle_hashed txs2).
  pose proof (hashed_inj txs1 txs2 Hcf : ∀ x y, P x → P y → _) as HP.
  apply (levels_inj P HP) in E.
  - destruct k as [|k]; [by apply txids_determine|].
    exfalso. eapply (leaves_not_inner txs1 txs2 k); [done..| |apply levels_wf|done].
    intros p. apply H2. lia.
  - apply txids_wf.
  - apply levels_wf.
  - done.
  - apply (NoDup_levels P); [done|apply txids_wf|done|]. intros j p Hj Hp. right.
    eapply H2; [|done]. lia.
  - intros j p Hj Hp. left. by eapply H1.
  - intros j p Hj Hp. right. rewrite <-levels_add in Hp. eapply H2; [|done]. lia.
Qed.

Lemma merkle_binding txs1 txs2 :
  txs1 ≠ [] → txs2 ≠ [] → Forall tx_wf txs1 → Forall tx_wf txs2 →
  NoDup (txid <$> txs1) → NoDup (txid <$> txs2) →
  collision_free (merkle_hashed txs1 ++ merkle_hashed txs2) →
  compute_merkle_root txs1 = compute_merkle_root txs2 → txs1 = txs2.
Proof.
  intros Hne1 Hne2 Hw1 Hw2 Hn1 Hn2 Hcf E.
  destruct (compute_merkle_root_levels txs1 Hne1) as (d1 & Hd1 & H1).
  destruct (compute_merkle_root_levels txs2 Hne2) as (d2 & Hd2 & H2).
  rewrite E, <-Hd2 in Hd1. destruct (decide (d1 ≤ d2)%nat) as [Hle|Hle].
  - apply (merkle_binding_le txs1 txs2 d1 (d2 - d1)); try done.
    + by replace (d1 + (d2 - d1))%nat with d2 by lia.
    + by replace (d1 + (d2 - d1))%nat with d2 by lia.
  - symmetry. apply (merkle_binding_le txs2 txs1 d2 (d1 - d2)); try done.
    + by apply collision_free_comm.
    + by replace (d2 + (d1 - d2))%nat with d1 by lia.
    + by replace (d2 + (d1 - d2))%nat with d1 by lia.
Qed.

(** The root of a non-empty list is one of the digests computed. *)
Lemma merkle_root_hashed txs :
  txs ≠ [] → ∃ x, x ∈ merkle_hashed txs ∧ compute_merkle_root txs = sha256d x.
Proof.
  intros Hne. destruct (compute_merkle_root_levels txs Hne) as (d & Hd & Hp). destruct d as [|d].
  - cbn in Hd. assert (compute_merkle_root txs ∈ txid <$> txs) as (tx & E & Hin)%list_elem_of_fmap
      by (rewrite Hd; left).
    exists (tx_to_bytes tx). split; [|done]. apply elem_of_app. left. apply list_elem_of_fmap. by exists tx.
  - change (merkle_next (levels d (txid <$> txs)) = [compute_merkle_root txs]) in Hd.
    assert (compute_merkle_root txs ∈ merkle_next (levels d (txid <$> txs)))
      as (x & E & Hin)%list_elem_of_fmap by (rewrite Hd; left).
    exists x. split; [|done]. eapply Hp; [|done]. lia.
Qed.

(** ** Sizes *)

Definition tx_size (tx : Transaction) : Z := size_z (tx_to_bytes tx).

Lemma length_enc_header h : header_wf h → length (enc_header h) = 80%nat.
Proof.
  intros (_ & Hp & Hm & _). unfold enc_header. rewrite !length_app, !length_le_bytes.
  unfold hash_wf in *. rewrite Hp, Hm. done.
Qed.

Lemma block_size b :
  header_wf (header b) → size_z (block_to_bytes b) = 84 + sum_z (tx_size <$> transactions b).
Proof.
  intros Hh. rewrite block_to_bytes_enc. unfold enc_block.
  rewrite !length_app, length_enc_header, length_le_bytes by done.
  assert (size_z (mjoin (enc_tx <$> transactions b)) = sum_z (tx_size <$> transactions b)) as H; [|lia].
  induction (transactions b) as [|tx txs IH]; [done|]. rewrite !fmap_cons.
  change (mjoin (enc_tx tx :: (enc_tx <$> txs))) with (enc_tx tx ++ mjoin (enc_tx <$> txs)).
  cbn [sum_z]. rewrite length_app, Nat2Z.inj_add, IH. unfold tx_size at 2.
  by rewrite tx_to_bytes_enc.
Qed.

(** ** Duplicated tails *)

(** Any sufficient fuel gives the same level. *)
Lemma merkle_loop_fuel f1 f2 l :
  l ≠ [] → (length l ≤ f1)%nat → (length l ≤ f2)%nat → merkle_loop f1 l = merkle_loop f2 l.
Proof.
  intros Hne H1 H2.
  destruct (merkle_loop_depth f1 l Hne H1) as (d1 & r1 & _ & -> & E1 & K1).
  destruct (merkle_loop_depth f2 l Hne H2) as (d2 & r2 & _ & -> & E2 & K2).
  assert (d1 = d2) as ->; [|done].
  destruct (Nat.lt_trichotomy d1 d2) as [Hlt|[->|Hlt]]; [|done|].
  - specialize (K2 d1 Hlt). rewrite E1 in K2. cbn in K2. lia.
  - specialize (K1 d2 Hlt). rewrite E2 in K1. cbn in K1. lia.
Qed.

Lemma merkle_root_duplicate txs tx :
  Nat.odd (length txs) = true → (1 < length txs)%nat → last txs = Some tx →
  compute_merkle_root (txs ++ [tx]) = compute_merkle_root txs.
Proof.
  intros Hodd Hlen Hlast. destruct txs as [|t txs]; [cbn in Hlen; lia|].
  set (l := t :: txs) in *. cbn [app]. unfold compute_merkle_root at 2. fold l.
  change (compute_merkle_root (l ++ [tx]) = default zero_hash (head (merkle_loop (length l) (txid <$> l)))).
  assert (compute_merkle_root (l ++ [tx]) =
    default zero_hash (head (merkle_loop (length (l ++ [tx])) (txid <$> (l ++ [tx]))))) as -> by done.
  f_equal. f_equal. rewrite length_app, Nat.add_1_r, fmap_app.
  assert (merkle_next ((txid <$> l) ++ (txid <$> [tx])) = merkle_next (txid <$> l)) as En.
  { unfold merkle_next, level_preimages. do 2 f_equal. unfold pad_level.
    rewrite length_app, length_fmap, Nat.add_1_r, Nat.odd_succ, <- Nat.negb_odd, Hodd. cbn [negb].
    by rewrite fmap_last, Hlast. }
  assert (1 <? size_z ((txid <$> l) ++ (txid <$> [tx])) = true) as E1
    by (apply Z.ltb_lt; rewrite length_app, length_fmap, Nat2Z.inj_add; lia).
  assert (1 <? size_z (txid <$> l) = true) as E2 by (apply Z.ltb_lt; rewrite length_fmap; lia).
  cbn [merkle_loop]. rewrite E1, En.
  rewrite (merkle_loop_fuel (length l) (Nat.pred (length l)) (merkle_next (txid <$> l))).
  - destruct (length l) as [|n] eqn:El; [lia|]. cbn [merkle_loop Nat.pred]. by rewrite E2.
  - intros E. apply (f_equal length) in E. rewrite length_merkle_next, length_fmap in E. cbn [length] in E.
    rewrite Nat.div2_div in E. apply Nat.div_small_iff in E; lia.
  - rewrite length_merkle_next, length_fmap. rewrite Nat.div2_div. apply Nat.Div0.div_le_upper_bound. lia.
  - rewrite length_merkle_next, length_fmap. rewrite Nat.div2_div.
    assert (S (length l) / 2 < length l)%nat; [|lia]. apply Nat.div_lt_upper_bound; lia.
Qed.
