(* ===== verification/Utxo.v ===== *)
(** * The set of unspent outputs ([include/blockchain/state/utxo_set.hpp],
    [src/state/utxo_set.cpp])

    [std::map<OutPoint, Coin, OutPointLess>] is a [gmap]; its iteration order is
    [in_order OutPointLess].  A failing [add] or [spend] leaves the set as it was. *)

From S2P Require Import Prelude Errors Sha256 ByteIO Transaction.

(** ** Orders *)

(** [std::lexicographical_compare] with the comparison of bytes as unsigned values *)
Fixpoint lexicographical_compare (lhs rhs : list byte) : bool :=
  match lhs, rhs with
  | _, [] => false
  | [], _ :: _ => true
  | a :: lhs, b :: rhs =>
      if byte_val a <? byte_val b then true
      else if byte_val b <? byte_val a then false
      else lexicographical_compare lhs rhs
  end.

(** [mempool::Hash256Less] *)
Definition Hash256Less (lhs rhs : Hash256) : bool := lexicographical_compare lhs rhs.

Definition OutPointLess (lhs rhs : OutPoint) : bool :=
  if decide (op_txid lhs = op_txid rhs) then op_index lhs <? op_index rhs
  else lexicographical_compare (op_txid lhs) (op_txid rhs).

(** ** Coins *)

Record Coin := mkCoin { output : TxOutput; cheight : Z; coinbase : bool }.

#[global] Instance Coin_eq_dec : EqDecision Coin.
Proof. solve_decision. Defined.

Abbreviation UtxoSet := (gmap OutPoint Coin).

(** The message suffix [to_hex(txid) + ":" + to_string(index)] *)
Definition outpoint_str (o : OutPoint) : string :=
  to_hex (op_txid o) +:+ ":" +:+ std_to_string (op_index o).

Definition utxo_contains (outpoint : OutPoint) (utxos : UtxoSet) : bool :=
  match utxos !! outpoint with Some _ => true | None => false end.

Definition utxo_find (outpoint : OutPoint) (utxos : UtxoSet) : option Coin := utxos !! outpoint.

(** [UtxoSet::add]: [try_emplace], an error when the key was present. *)
Definition utxo_add (outpoint : OutPoint) (coin : Coin) (utxos : UtxoSet) : Result UtxoSet :=
  match utxos !! outpoint with
  | Some _ => make_error kInvalidStateTransition
                ("duplicate UTXO for outpoint " +:+ outpoint_str outpoint)
  | None => mret (<[outpoint := coin]> utxos)
  end.

(** [UtxoSet::spend]: the coin and the set without it. *)
Definition utxo_spend (outpoint : OutPoint) (utxos : UtxoSet) : Result (Coin * UtxoSet) :=
  match utxos !! outpoint with
  | None => make_error kInvalidStateTransition
              ("spend of unknown outpoint " +:+ outpoint_str outpoint)
  | Some coin => mret (coin, delete outpoint utxos)
  end.

Definition utxo_size (utxos : UtxoSet) : Z := Z.of_nat (size utxos).

(** ** The comparators are strict total orders *)

Lemma lex_irrefl a : lexicographical_compare a a = false.
Proof. induction a as [|x a IH]; simpl; [done|]. by rewrite Z.ltb_irrefl. Qed.

Lemma lex_trans a b c :
  lexicographical_compare a b = true → lexicographical_compare b c = true →
  lexicographical_compare a c = true.
Proof.
  revert b c. induction a as [|x a IH]; intros [|y b] [|z c]; simpl; try done.
  destruct (byte_val x <? byte_val y) eqn:E1, (byte_val y <? byte_val z) eqn:E2;
    destruct (byte_val y <? byte_val x) eqn:E3, (byte_val z <? byte_val y) eqn:E4; try done;
    intros H1 H2;
    destruct (byte_val x <? byte_val z) eqn:E5, (byte_val z <? byte_val x) eqn:E6; try done;
    try lia; eauto.
Qed.

Lemma lex_total a b :
  lexicographical_compare a b = false → lexicographical_compare b a = false → a = b.
Proof.
  revert b. induction a as [|x a IH]; intros [|y b]; simpl; try done.
  destruct (byte_val x <? byte_val y) eqn:E1, (byte_val y <? byte_val x) eqn:E2; try done.
  intros H1 H2. f_equal; [apply byte_val_inj; lia|by apply IH].
Qed.

#[global] Instance Hash256Less_strict : StrictTotal Hash256Less.
Proof. split; [apply lex_irrefl|apply lex_trans|apply lex_total]. Qed.

#[global] Instance OutPointLess_strict : StrictTotal OutPointLess.
Proof.
  unfold OutPointLess. split.
  - intros o. rewrite decide_True by done. apply Z.ltb_irrefl.
  - intros [h1 i1] [h2 i2] [h3 i3]; cbn [op_txid op_index].
    repeat case_decide; subst; try done; try lia; try apply lex_trans.
    intros H1 H2. pose proof (lex_trans _ _ _ H1 H2) as H3. by rewrite lex_irrefl in H3.
  - intros [h1 i1] [h2 i2]; cbn [op_txid op_index].
    repeat case_decide; subst; try done.
    + intros. f_equal. lia.
    + intros H1 H2. by apply lex_total in H1.
Qed.

(** ** Value of a set of coins *)

Definition coin_value (c : Coin) : Z := value (output c).

Definition utxo_value (utxos : UtxoSet) : Z := map_sum coin_value utxos.

(** ** Well-formed sets: the ranges of the C++ types *)

Definition coin_wf (c : Coin) : Prop := output_wf (output c) ∧ is_u32 (cheight c).

Definition utxos_wf (utxos : UtxoSet) : Prop := map_Forall (λ o c, outpoint_wf o ∧ coin_wf c) utxos.

#[global] Instance utxos_wf_dec utxos : Decision (utxos_wf utxos).
Proof. unfold utxos_wf, outpoint_wf, coin_wf. apply _. Defined.

Lemma utxos_wf_empty : utxos_wf ∅.
Proof. apply map_Forall_empty. Qed.

Lemma utxos_wf_values utxos : utxos_wf utxos → map_Forall (λ _ c, 0 ≤ coin_value c) utxos.
Proof. intros Hwf o c Hc. destruct (Hwf o c Hc) as [_ [[[Hv _] _] _]]. done. Qed.

Lemma utxo_value_nonneg utxos : utxos_wf utxos → 0 ≤ utxo_value utxos.
Proof. intros Hwf. by apply map_sum_nonneg, utxos_wf_values. Qed.

Lemma utxo_add_Ok o c utxos utxos' :
  utxo_add o c utxos = Ok utxos' ↔ utxos !! o = None ∧ utxos' = <[o := c]> utxos.
Proof.
  unfold utxo_add. destruct (utxos !! o) eqn:E; split.
  - intros H. discriminate H.
  - intros [H _]. discriminate H.
  - intros [= <-]. done.
  - by intros [_ ->].
Qed.

Lemma utxo_spend_Ok o c utxos utxos' :
  utxo_spend o utxos = Ok (c, utxos') ↔ utxos !! o = Some c ∧ utxos' = delete o utxos.
Proof.
  unfold utxo_spend. destruct (utxos !! o) eqn:E; split.
  - intros [= <- <-]. done.
  - by intros [[= ->] ->].
  - intros H. discriminate H.
  - intros [H _]. discriminate H.
Qed.

