(* ===== verification/TxValidation.v ===== *)
(** * Consensus validation of transactions
    ([include/blockchain/validation/transaction_validation.hpp],
    [src/validation/transaction_validation.cpp]) *)

From S2P Require Import Prelude Errors Sha256 ByteIO Transaction Utxo.

(** ** Operations *)

(** [checked_add]: [None] stands for the returned [false]. *)
Definition checked_add (lhs rhs : Z) : option Z :=
  if UINT64_MAX - rhs <? lhs then None else Some (lhs + rhs).

(** [std::set<OutPoint> seen; if (!seen.insert(input.prevout).second) ...] *)
Fixpoint check_duplicate_inputs (seen : gset OutPoint) (ins : list TxInput) : Result unit :=
  match ins with
  | [] => mret tt
  | input :: ins =>
      if decide (prevout input ∈ seen)
      then make_error kInvalidTransaction ("duplicate input " +:+ outpoint_str (prevout input))
      else check_duplicate_inputs ({[prevout input]} ∪ seen) ins
  end.

(** Output value range and overflow-safe sum. *)
Fixpoint check_output_values (total_out : Z) (outs : list TxOutput) : Result unit :=
  match outs with
  | [] => mret tt
  | output :: outs =>
      if kMaxMoney <? value output
      then make_error kInvalidTransaction "output value exceeds maximum"
      else
        match checked_add total_out (value output) with
        | Some total_out =>
            if kMaxMoney <? total_out
            then make_error kInvalidTransaction "sum of outputs exceeds maximum"
            else check_output_values total_out outs
        | None => make_error kInvalidTransaction "sum of outputs exceeds maximum"
        end
  end.

Definition uses_null_prevout (tx : Transaction) : bool :=
  existsb (λ i, op_index (prevout i) =? kNullPrevoutIndex) (inputs tx).

Definition check_transaction_sanity (tx : Transaction) : Result unit :=
  if size_z (inputs tx) =? 0
  then make_error kInvalidTransaction "transaction has no inputs"
  else if size_z (outputs tx) =? 0
  then make_error kInvalidTransaction "transaction has no outputs"
  else if kMaxInputsPerTransaction <? size_z (inputs tx)
  then make_error kInvalidTransaction "too many inputs"
  else if kMaxOutputsPerTransaction <? size_z (outputs tx)
  then make_error kInvalidTransaction "too many outputs"
  else if negb (is_coinbase tx) && uses_null_prevout tx
  then make_error kInvalidTransaction "non-coinbase input uses the reserved coinbase outpoint"
  else
    _ ← check_duplicate_inputs ∅ (inputs tx);
    _ ← check_output_values 0 (outputs tx);
    if kMaxTransactionSizeBytes <? size_z (tx_to_bytes tx)
    then make_error kInvalidTransaction "transaction exceeds maximum size"
    else mret tt.

(** The loop that adds up the coins spent. *)
Fixpoint sum_inputs (utxos : UtxoSet) (total_in : Z) (ins : list TxInput) : Result Z :=
  match ins with
  | [] => mret total_in
  | input :: ins =>
      match utxo_find (prevout input) utxos with
      | None => make_error kInvalidTransaction
                  ("input refers to missing or spent output " +:+ outpoint_str (prevout input))
      | Some coin =>
          match checked_add total_in (value (output coin)) with
          | None => make_error kInvalidTransaction "sum of inputs overflows"
          | Some total_in => sum_inputs utxos total_in ins
          end
      end
  end.

(** [for (output : outputs) total_out += output.value;] on [std::uint64_t] *)
Definition sum_outputs (outs : list TxOutput) : Z :=
  foldl (λ acc o, wrap64 (acc + value o)) 0 outs.

Definition check_transaction_inputs (tx : Transaction) (utxos : UtxoSet) : Result Z :=
  total_in ← sum_inputs utxos 0 (inputs tx);
  let total_out := sum_outputs (outputs tx) in
  if total_in <? total_out
  then make_error kInvalidTransaction
         ("outputs (" +:+ std_to_string total_out +:+ ") exceed inputs ("
          +:+ std_to_string total_in +:+ ")")
  else mret (total_in - total_out).

Fixpoint check_maturity_loop (ins : list TxInput) (utxos : UtxoSet) (spend_height maturity : Z)
    : Result unit :=
  match ins with
  | [] => mret tt
  | input :: ins =>
      match utxo_find (prevout input) utxos with
      | Some coin =>
          if coinbase coin && (spend_height <? wrap64 (cheight coin + maturity))
          then make_error kInvalidTransaction
                 ("immature coinbase spend of " +:+ outpoint_str (prevout input))
          else check_maturity_loop ins utxos spend_height maturity
      | None => check_maturity_loop ins utxos spend_height maturity
      end
  end.

Definition check_coinbase_maturity (tx : Transaction) (utxos : UtxoSet)
    (spend_height maturity : Z) : Result unit :=
  check_maturity_loop (inputs tx) utxos spend_height maturity.

(** ** What the checks promise *)

Definition out_value (tx : Transaction) : Z := sum_z (value <$> outputs tx).

(** A transaction that may appear in a block, whatever the chain state. *)
Record tx_sane (tx : Transaction) : Prop := {
  sane_inputs : inputs tx ≠ [];
  sane_outputs : outputs tx ≠ [];
  sane_n_inputs : size_z (inputs tx) ≤ kMaxInputsPerTransaction;
  sane_n_outputs : size_z (outputs tx) ≤ kMaxOutputsPerTransaction;
  sane_null : is_coinbase tx = false →
    Forall (λ i, op_index (prevout i) ≠ kNullPrevoutIndex) (inputs tx);
  sane_nodup : NoDup (prevout <$> inputs tx);
  sane_value : out_value tx ≤ kMaxMoney;
  sane_size : size_z (tx_to_bytes tx) ≤ kMaxTransactionSizeBytes;
}.

(** The coins a transaction spends, when all of them exist. *)
Definition spent_coins (utxos : UtxoSet) (ins : list TxInput) : option (list Coin) :=
  mapM (λ i, utxos !! prevout i) ins.

(** ** Lemmas *)

Lemma checked_add_Some a b c :
  is_u64 b → checked_add a b = Some c ↔ c = a + b ∧ a + b ≤ UINT64_MAX.
Proof.
  intros Hb. unfold checked_add. destruct (_ <? _) eqn:E; split; intros H.
  - done.
  - lia.
  - injection H as <-. lia.
  - by destruct H as [-> _].
Qed.

Lemma checked_add_None a b : checked_add a b = None ↔ UINT64_MAX < a + b.
Proof. unfold checked_add. destruct (_ <? _) eqn:E; split; intros H; done || lia. Qed.

Lemma check_duplicate_inputs_Ok seen ins :
  check_duplicate_inputs seen ins = Ok tt ↔
  NoDup (prevout <$> ins) ∧ ∀ o, o ∈ prevout <$> ins → o ∉ seen.
Proof.
  revert seen. induction ins as [|i ins IH]; intros seen; cbn [check_duplicate_inputs fmap list_fmap].
  { split; [|done]. intros _. split; [constructor|]. intros o Ho. by apply not_elem_of_nil in Ho. }
  case_decide as Hd.
  - split; [intros H; discriminate H|]. intros [_ H]. destruct (H (prevout i)); [by left|done].
  - rewrite IH, NoDup_cons. set_solver.
Qed.

Lemma check_output_values_Ok total outs :
  0 ≤ total ≤ kMaxMoney → Forall output_wf outs →
  check_output_values total outs = Ok tt ↔ total + sum_z (value <$> outs) ≤ kMaxMoney.
Proof.
  intros Htot Hwf. revert total Htot. induction Hwf as [|o outs Ho Hwf IH]; intros total Htot.
  { simpl. split; [lia|done]. }
  assert (0 ≤ sum_z (value <$> outs)) as Hpos.
  { apply sum_z_nonneg, Forall_fmap. eapply Forall_impl; [exact Hwf|]. intros ? [[]]; done. }
  destruct Ho as [Hv _]. cbn [check_output_values fmap list_fmap sum_z].
  assert (kMaxMoney = 2100000000000000) as HM by done.
  destruct (kMaxMoney <? value o) eqn:E1; [split; [done|solve_u]|].
  destruct (checked_add total (value o)) as [t|] eqn:E2.
  - apply checked_add_Some in E2 as [-> _]; [|done].
    destruct (kMaxMoney <? total + value o) eqn:E3; [split; [done|solve_u]|].
    rewrite IH by solve_u. solve_u.
  - apply checked_add_None in E2. solve_u.
Qed.

Lemma uses_null_prevout_false tx :
  uses_null_prevout tx = false ↔
  Forall (λ i, op_index (prevout i) ≠ kNullPrevoutIndex) (inputs tx).
Proof.
  unfold uses_null_prevout. induction (inputs tx) as [|i ins IH]; simpl.
  - split; [constructor|done].
  - rewrite orb_false_iff, IH, Forall_cons, Z.eqb_neq. done.
Qed.

Lemma check_transaction_sanity_Ok tx :
  tx_typed tx → check_transaction_sanity tx = Ok tt ↔ tx_sane tx.
Proof.
  intros (_ & _ & Ho & _). unfold check_transaction_sanity. split.
  - destruct (size_z (inputs tx) =? 0) eqn:E1; [done|].
    destruct (size_z (outputs tx) =? 0) eqn:E2; [done|].
    destruct (_ <? size_z (inputs tx)) eqn:E3; [done|].
    destruct (_ <? size_z (outputs tx)) eqn:E4; [done|].
    destruct (negb (is_coinbase tx) && uses_null_prevout tx) eqn:E5; [done|].
    intros ([] & Hd & H)%bind_Ok. apply bind_Ok in H as ([] & Hv & H).
    destruct (_ <? size_z (tx_to_bytes tx)) eqn:E6; [done|].
    apply check_duplicate_inputs_Ok in Hd as [Hnd _].
    apply check_output_values_Ok in Hv; [|done..].
    split; try done; try lia.
    + intros E. by rewrite E in E1.
    + intros E. by rewrite E in E2.
    + intros E. rewrite E in E5. by apply uses_null_prevout_false.
  - intros [Hi Hot Hni Hno Hnull Hnd Hv Hsz].
    destruct (size_z (inputs tx) =? 0) eqn:E1; [destruct (inputs tx); simpl in *; [done|lia]|].
    destruct (size_z (outputs tx) =? 0) eqn:E2; [destruct (outputs tx); simpl in *; [done|lia]|].
    destruct (_ <? size_z (inputs tx)) eqn:E3; [lia|].
    destruct (_ <? size_z (outputs tx)) eqn:E4; [lia|].
    destruct (negb (is_coinbase tx) && uses_null_prevout tx) eqn:E5.
    { apply andb_true_iff in E5 as [E5 E6]. apply negb_true_iff in E5.
      apply Hnull, uses_null_prevout_false in E5. congruence. }
    rewrite (proj2 (check_duplicate_inputs_Ok ∅ (inputs tx))).
    2: { split; [done|]. intros o _. apply not_elem_of_empty. }
    rsimpl. rewrite (proj2 (check_output_values_Ok 0 (outputs tx) ltac:(done) Ho)) by done.
    rsimpl. destruct (_ <? size_z (tx_to_bytes tx)) eqn:E6; [lia|done].
Qed.

Lemma sum_outputs_exact outs :
  Forall output_wf outs → sum_z (value <$> outs) ≤ kMaxMoney →
  sum_outputs outs = sum_z (value <$> outs).
Proof.
  intros Hwf. unfold sum_outputs.
  assert (∀ acc, 0 ≤ acc → acc + sum_z (value <$> outs) ≤ kMaxMoney →
    foldl (λ acc o, wrap64 (acc + value o)) acc outs = acc + sum_z (value <$> outs)) as H.
  { induction Hwf as [|o outs [Hv _] Hwf IH]; intros acc Hacc Hle; [simpl; lia|].
    cbn [foldl fmap list_fmap sum_z] in *.
    assert (0 ≤ sum_z (value <$> outs)) as Hpos.
    { apply sum_z_nonneg, Forall_fmap. eapply Forall_impl; [exact Hwf|]. intros ? [[]]; done. }
    assert (kMaxMoney = 2100000000000000) as HM by done.
    rewrite wrap64_small by solve_u. rewrite IH by solve_u. lia. }
  intros Hle. apply H; lia.
Qed.

Lemma spent_coins_cons utxos i ins coins :
  spent_coins utxos (i :: ins) = Some coins ↔
  ∃ c cs, coins = c :: cs ∧ utxos !! prevout i = Some c ∧ spent_coins utxos ins = Some cs.
Proof.
  unfold spent_coins. cbn [mapM]. rewrite bind_Some. split.
  - intros (c & Hc & H). apply bind_Some in H as (cs & Hcs & [= <-]). by exists c, cs.
  - intros (c & cs & -> & Hc & Hcs). exists c. split; [done|]. by rewrite Hcs.
Qed.

Lemma sum_inputs_Ok utxos total ins t :
  utxos_wf utxos → 0 ≤ total →
  sum_inputs utxos total ins = Ok t ↔
  ∃ cs, spent_coins utxos ins = Some cs ∧ t = total + sum_z (coin_value <$> cs) ∧
    (ins ≠ [] → t ≤ UINT64_MAX).
Proof.
  intros Hwf. revert total t. induction ins as [|i ins IH]; intros total t Htot.
  { csimpl. split.
    - intros [= <-]. exists []. split_and!; [done|csimpl; lia|done].
    - intros (cs & [= <-] & -> & _). csimpl. unfold mret, Result_ret. f_equal. lia. }
  cbn [sum_inputs]. unfold utxo_find. destruct (utxos !! prevout i) as [c|] eqn:Ec.
  2: { split; [done|]. intros (cs & Hcs & _). apply spent_coins_cons in Hcs as (?&?&?&?&?). congruence. }
  assert (is_u64 (coin_value c)) as Hc by (by destruct (Hwf _ _ Ec) as [_ [[] _]]).
  assert (∀ cs, spent_coins utxos ins = Some cs → 0 ≤ sum_z (coin_value <$> cs)) as Hpos.
  { clear IH. intros cs Hcs. apply sum_z_nonneg, Forall_fmap, Forall_forall. intros c' Hc'.
    apply mapM_Some in Hcs. apply list_elem_of_lookup in Hc' as [k Hk].
    destruct (Forall2_lookup_r _ _ _ _ _ Hcs Hk) as (i' & _ & Hi').
    apply (utxos_wf_values _ Hwf _ _ Hi'). }
  fold (coin_value c). destruct (checked_add total (coin_value c)) as [t1|] eqn:Ea.
  - apply checked_add_Some in Ea as [-> Hle]; [|done]. rewrite IH by solve_u. split.
    + intros (cs & Hcs & -> & Hb). exists (c :: cs). rewrite spent_coins_cons.
      split; [by exists c, cs|]. csimpl. split; [lia|]. intros _.
      destruct ins; [injection Hcs as <-; csimpl; lia|by apply Hb].
    + intros (cs' & (c' & cs & -> & Hc' & Hcs)%spent_coins_cons & -> & Hb).
      simplify_eq. exists cs. csimpl in *. split_and!; [done|lia|]. intros _. specialize (Hb ltac:(done)). lia.
  - apply checked_add_None in Ea. split; [done|].
    intros (cs' & (c' & cs & -> & Hc' & Hcs)%spent_coins_cons & -> & Hb). simplify_eq.
    specialize (Hb ltac:(done)). apply Hpos in Hcs. csimpl in *. lia.
Qed.

Lemma out_value_nonneg tx : tx_typed tx → 0 ≤ out_value tx.
Proof.
  intros (_ & _ & Ho & _). apply sum_z_nonneg, Forall_fmap. eapply Forall_impl; [exact Ho|].
  intros ? [[]]; done.
Qed.

Lemma check_transaction_inputs_Ok tx utxos fee :
  utxos_wf utxos → tx_typed tx → tx_sane tx →
  check_transaction_inputs tx utxos = Ok fee ↔
  ∃ cs, spent_coins utxos (inputs tx) = Some cs ∧
    sum_z (coin_value <$> cs) ≤ UINT64_MAX ∧
    fee = sum_z (coin_value <$> cs) - out_value tx ∧ 0 ≤ fee.
Proof.
  intros Hwf (_ & _ & Ho & _) Hsane. unfold check_transaction_inputs.
  rewrite sum_outputs_exact; [|done|apply Hsane]. fold (out_value tx). split.
  - intros (t & Ht & H)%bind_Ok. apply sum_inputs_Ok in Ht as (cs & Hcs & -> & Hb); [|done..].
    destruct (_ <? _) eqn:E; [done|]. injection H as <-. exists cs.
    specialize (Hb (sane_inputs _ Hsane)). split_and!; [done|lia..].
  - intros (cs & Hcs & Hb & -> & Hpos).
    rewrite (proj2 (sum_inputs_Ok utxos 0 (inputs tx) (sum_z (coin_value <$> cs)) Hwf ltac:(done))).
    2: { exists cs. split_and!; [done|lia|done]. }
    rsimpl. destruct (_ <? _) eqn:E; [lia|]. done.
Qed.

Lemma check_coinbase_maturity_Ok tx utxos h m :
  utxos_wf utxos → is_u32 m →
  check_coinbase_maturity tx utxos h m = Ok tt ↔
  Forall (λ i, ∀ c, utxos !! prevout i = Some c → coinbase c = true → cheight c + m ≤ h) (inputs tx).
Proof.
  intros Hwf Hm. unfold check_coinbase_maturity. induction (inputs tx) as [|i ins IH].
  { simpl. split; [constructor|done]. }
  cbn [check_maturity_loop]. unfold utxo_find. rewrite Forall_cons.
  destruct (utxos !! prevout i) as [c|] eqn:Ec.
  2: { rewrite IH. naive_solver. }
  assert (is_u32 (cheight c)) as Hc by (by destruct (Hwf _ _ Ec) as [_ []]).
  rewrite wrap64_small by solve_u.
  destruct (coinbase c && (h <? cheight c + m)) eqn:E.
  - split; [done|]. intros [H _]. apply andb_true_iff in E as [E1 E2].
    specialize (H c eq_refl E1). lia.
  - rewrite IH. split; [|naive_solver]. intros H. split; [|done]. intros c' [= <-] Hcb.
    rewrite Hcb in E. simpl in E. lia.
Qed.

(** A transaction with an input that is not unspent is refused, sane or not. *)
Lemma sum_inputs_missing utxos total ins i t :
  i ∈ ins → utxos !! prevout i = None → sum_inputs utxos total ins ≠ Ok t.
Proof.
  revert total. induction ins as [|j ins IH]; intros total Hi Hn; [by apply not_elem_of_nil in Hi|].
  cbn [sum_inputs]. unfold utxo_find. destruct (utxos !! prevout j) as [c|] eqn:Ej; [|done].
  destruct (checked_add _ _); [|done]. apply IH; [|done].
  apply elem_of_cons in Hi as [->|Hi]; [congruence|done].
Qed.

Lemma check_transaction_inputs_missing utxos tx i fee :
  i ∈ inputs tx → utxos !! prevout i = None → check_transaction_inputs tx utxos ≠ Ok fee.
Proof.
  intros Hi Hn (t & Ht & _)%bind_Ok. by eapply sum_inputs_missing.
Qed.
