(* ===== verification/BlockValidation.v ===== *)
(** * Consensus validation of blocks
    ([include/blockchain/consensus/params.hpp],
    [include/blockchain/validation/block_validation.hpp],
    [src/validation/block_validation.cpp])

    [connect_block] works on a copy of the unspent outputs and commits it at the
    end: the model returns the caller's set, changed or not, next to the result. *)

From S2P Require Import Prelude Errors Sha256 ByteIO Transaction Block Utxo TxValidation.

Record ConsensusParams := mkConsensusParams { block_subsidy : Z; coinbase_maturity : Z }.

Definition default_params : ConsensusParams :=
  mkConsensusParams kDefaultBlockSubsidy kDefaultCoinbaseMaturity.

(** ** Operations *)

(** The loop over the transactions, from index [i]; [first] is [i == 0]. *)
Fixpoint check_block_txs (first : bool) (seen : gset Hash256) (txs : list Transaction)
    : Result unit :=
  match txs with
  | [] => mret tt
  | tx :: txs =>
      _ ← check_transaction_sanity tx;
      if is_coinbase tx && negb first
      then make_error kInvalidBlock "coinbase must be the first transaction"
      else if decide (txid tx ∈ seen)
      then make_error kInvalidBlock "duplicate transaction in block"
      else check_block_txs false ({[txid tx]} ∪ seen) txs
  end.

Definition check_block_sanity (block : Block) : Result unit :=
  if kMaxTransactionsPerBlock <? size_z (transactions block)
  then make_error kInvalidBlock "too many transactions in block"
  else if kMaxBlockSizeBytes <? size_z (block_to_bytes block)
  then make_error kInvalidBlock "block exceeds maximum size"
  else if negb (bool_decide (merkle_root (header block) = compute_merkle_root (transactions block)))
  then make_error kInvalidBlock "merkle root does not match transactions"
  else check_block_txs true ∅ (transactions block).

(** The loop of [add_outputs], from output index [i]. *)
Fixpoint add_outputs_from (i : nat) (id : Hash256) (height : Z) (cb : bool)
    (outs : list TxOutput) (working : UtxoSet) : Result UtxoSet :=
  match outs with
  | [] => mret working
  | out :: outs =>
      working ← utxo_add (mkOutPoint id (wrap32 (Z.of_nat i))) (mkCoin out height cb) working;
      add_outputs_from (S i) id height cb outs working
  end.

Definition add_outputs (tx : Transaction) (height : Z) (cb : bool) (working : UtxoSet)
    : Result UtxoSet :=
  add_outputs_from 0 (txid tx) height cb (outputs tx) working.

(** [for (input : tx.inputs) working.spend(input.prevout)] *)
Fixpoint spend_inputs (ins : list TxInput) (working : UtxoSet) : Result UtxoSet :=
  match ins with
  | [] => mret working
  | input :: ins =>
      '(_, working) ← utxo_spend (prevout input) working;
      spend_inputs ins working
  end.

(** One iteration of the loop over the non-coinbase transactions. *)
Definition connect_tx (height : Z) (params : ConsensusParams) (tx : Transaction)
    (working : UtxoSet) (total_fees : Z) : Result (UtxoSet * Z) :=
  fee ← check_transaction_inputs tx working;
  _ ← check_coinbase_maturity tx working height (coinbase_maturity params);
  working ← spend_inputs (inputs tx) working;
  working ← add_outputs tx height false working;
  match checked_add total_fees fee with
  | None => make_error kInvalidBlock "total block fees overflow"
  | Some total_fees => mret (working, total_fees)
  end.

Fixpoint connect_txs (height : Z) (params : ConsensusParams) (txs : list Transaction)
    (working : UtxoSet) (total_fees : Z) : Result (UtxoSet * Z) :=
  match txs with
  | [] => mret (working, total_fees)
  | tx :: txs =>
      '(working, total_fees) ← connect_tx height params tx working total_fees;
      connect_txs height params txs working total_fees
  end.

Definition has_coinbase (block : Block) : bool :=
  match transactions block with [] => false | tx :: _ => is_coinbase tx end.

(** The transactions the loop does not skip. *)
Definition regular_txs (block : Block) : list Transaction :=
  if has_coinbase block then tail (transactions block) else transactions block.

Definition connect_coinbase (height : Z) (params : ConsensusParams) (cb : Transaction)
    (working : UtxoSet) (total_fees : Z) : Result UtxoSet :=
  let coinbase_out := sum_outputs (outputs cb) in
  match checked_add (block_subsidy params) total_fees with
  | None => make_error kInvalidBlock "coinbase reward overflow"
  | Some allowed =>
      if allowed <? coinbase_out
      then make_error kInvalidBlock "coinbase pays more than subsidy plus fees"
      else add_outputs cb height true working
  end.

(** The new set and the fees, or the first error. *)
Definition connect_working (block : Block) (utxos : UtxoSet) (params : ConsensusParams)
    : Result (UtxoSet * Z) :=
  _ ← check_block_sanity block;
  '(working, total_fees) ← connect_txs (height (header block)) params (regular_txs block) utxos 0;
  working ← match transactions block with
            | cb :: _ =>
                if has_coinbase block
                then connect_coinbase (height (header block)) params cb working total_fees
                else mret working
            | [] => mret working
            end;
  mret (working, total_fees).

Definition connect_block (block : Block) (utxos : UtxoSet) (params : ConsensusParams)
    : UtxoSet * Result Z :=
  match connect_working block utxos params with
  | Ok (working, total_fees) => (working, Ok total_fees)
  | Err e => (utxos, Err e)
  end.

(** ** What a sane block is *)

Record block_sane (block : Block) : Prop := {
  bsane_count : size_z (transactions block) ≤ kMaxTransactionsPerBlock;
  bsane_size : size_z (block_to_bytes block) ≤ kMaxBlockSizeBytes;
  bsane_merkle : merkle_root (header block) = compute_merkle_root (transactions block);
  bsane_txs : Forall tx_sane (transactions block);
  bsane_coinbase : Forall (λ tx, is_coinbase tx = false) (tail (transactions block));
  bsane_nodup : NoDup (txid <$> transactions block);
}.

Lemma check_block_txs_Ok first seen txs :
  Forall tx_typed txs →
  check_block_txs first seen txs = Ok tt ↔
  Forall tx_sane txs ∧
  Forall (λ tx, is_coinbase tx = false) (if first then tail txs else txs) ∧
  NoDup (txid <$> txs) ∧ (∀ h, h ∈ txid <$> txs → h ∉ seen).
Proof.
  intros Hty. revert first seen. induction Hty as [|tx txs Htx Hty IH]; intros first seen.
  { simpl. split; [|done]. intros _. split_and!; [done| by destruct first |constructor|].
    intros h Hh. by apply not_elem_of_nil in Hh. }
  cbn [check_block_txs fmap list_fmap]. split.
  - intros ([] & Hs & H)%bind_Ok. apply check_transaction_sanity_Ok in Hs; [|done].
    destruct (is_coinbase tx && negb first) eqn:Ec; [done|]. case_decide as Hd; [done|].
    apply IH in H as (Hsane & Hcb & Hnd & Hseen). split_and!.
    + by constructor.
    + destruct first; [done|]. rewrite andb_true_r in Ec. by constructor.
    + constructor; [|done]. intros Hin. apply Hseen in Hin. set_solver.
    + intros h [->|Hin]%elem_of_cons; [done|]. apply Hseen in Hin. set_solver.
  - rewrite Forall_cons, NoDup_cons. intros ([Hs Hsane] & Hcb & [Hnin Hnd] & Hseen).
    rewrite (proj2 (check_transaction_sanity_Ok tx Htx)) by done. rsimpl.
    destruct (is_coinbase tx && negb first) eqn:Ec.
    { destruct first; [by rewrite andb_false_r in Ec|]. apply Forall_cons in Hcb as [Hcb _].
      by rewrite Hcb in Ec. }
    rewrite decide_False by (apply Hseen; by left).
    apply IH. split_and!; [done| |done|].
    + destruct first; [done|]. by apply Forall_cons in Hcb as [_ ?].
    + intros h Hh. assert (h ≠ txid tx) by (intros ->; done).
      assert (h ∉ seen) by (apply Hseen; by right). set_solver.
Qed.

Lemma check_block_sanity_Ok block :
  Forall tx_typed (transactions block) →
  check_block_sanity block = Ok tt ↔ block_sane block.
Proof.
  intros Hty. unfold check_block_sanity. split.
  - destruct (_ <? size_z (transactions block)) eqn:E1; [done|].
    destruct (_ <? size_z (block_to_bytes block)) eqn:E2; [done|].
    case_bool_decide as E3; [|done]. cbn [negb].
    intros (H1 & H2 & H3 & _)%check_block_txs_Ok; [|done]. split; done || lia.
  - intros [H1 H2 H3 H4 H5 H6].
    destruct (_ <? size_z (transactions block)) eqn:E1; [lia|].
    destruct (_ <? size_z (block_to_bytes block)) eqn:E2; [lia|].
    rewrite bool_decide_eq_true_2 by done. cbn [negb].
    apply check_block_txs_Ok; [done|]. split_and!; try done.
Qed.

(** ** The transition of a block, without the order of its checks

    [tx_applies] and [block_applies] say what the unspent outputs become, in terms
    of sets; [connect_block_applies] shows that [connect_block] computes exactly
    that transition and fails exactly when there is none. *)

(** The coins a transaction creates. *)
Definition tx_coins_from (i : nat) (tx : Hash256) (height : Z) (cb : bool) (outs : list TxOutput)
    : list (OutPoint * Coin) :=
  imap (λ k out, (mkOutPoint tx (Z.of_nat (i + k)), mkCoin out height cb)) outs.

Definition tx_coins (tx : Transaction) (height : Z) (cb : bool) : UtxoSet :=
  list_to_map (tx_coins_from 0 (txid tx) height cb (outputs tx)).

(** The unspent outputs after those of [os] are consumed. *)
Definition without (os : list OutPoint) (utxos : UtxoSet) : UtxoSet := foldr delete utxos os.

Definition inputs_mature (tx : Transaction) (utxos : UtxoSet) (height : Z) (params : ConsensusParams) :=
  Forall (λ i, ∀ c, utxos !! prevout i = Some c → coinbase c = true →
                 cheight c + coinbase_maturity params ≤ height) (inputs tx).

Record tx_applies (height : Z) (params : ConsensusParams) (tx : Transaction)
    (utxos utxos' : UtxoSet) (fee : Z) : Prop := {
  ta_coins : ∃ cs, spent_coins utxos (inputs tx) = Some cs ∧
    sum_z (coin_value <$> cs) ≤ UINT64_MAX ∧
    fee = sum_z (coin_value <$> cs) - out_value tx ∧ 0 ≤ fee;
  ta_mature : inputs_mature tx utxos height params;
  ta_fresh : tx_coins tx height false ##ₘ without (prevout <$> inputs tx) utxos;
  ta_after : utxos' = tx_coins tx height false ∪ without (prevout <$> inputs tx) utxos;
}.

Inductive txs_apply (height : Z) (params : ConsensusParams)
    : list Transaction → UtxoSet → UtxoSet → Z → Prop :=
  | txs_apply_nil u : txs_apply height params [] u u 0
  | txs_apply_cons tx txs u u1 u2 fee fees :
      tx_applies height params tx u u1 fee →
      txs_apply height params txs u1 u2 fees →
      txs_apply height params (tx :: txs) u u2 (fee + fees).

(** What the coinbase may claim, and the coins it creates. *)
Definition coinbase_applies (block : Block) (params : ConsensusParams) (utxos utxos' : UtxoSet)
    (fees : Z) : Prop :=
  match transactions block with
  | cb :: _ =>
      if is_coinbase cb
      then block_subsidy params + fees ≤ UINT64_MAX ∧
           out_value cb ≤ block_subsidy params + fees ∧
           tx_coins cb (height (header block)) true ##ₘ utxos ∧
           utxos' = tx_coins cb (height (header block)) true ∪ utxos
      else utxos' = utxos
  | [] => utxos' = utxos
  end.

Definition block_applies (block : Block) (params : ConsensusParams) (utxos utxos' : UtxoSet)
    (fees : Z) : Prop :=
  block_sane block ∧ fees ≤ UINT64_MAX ∧
  ∃ utxos1,
    txs_apply (height (header block)) params (regular_txs block) utxos utxos1 fees ∧
    coinbase_applies block params utxos1 utxos' fees.

(** The values of the C++ types. *)
Definition block_typed (block : Block) : Prop :=
  header_wf (header block) ∧ Forall tx_typed (transactions block).
Definition params_wf (params : ConsensusParams) : Prop :=
  is_u64 (block_subsidy params) ∧ is_u32 (coinbase_maturity params).

(** ** Coins created *)

Lemma tx_coins_from_cons i id h cb out outs :
  tx_coins_from i id h cb (out :: outs) =
  (mkOutPoint id (Z.of_nat i), mkCoin out h cb) :: tx_coins_from (S i) id h cb outs.
Proof.
  unfold tx_coins_from. cbn [imap]. f_equal.
  - by rewrite Nat.add_0_r.
  - apply imap_ext. intros k x _. cbn [compose]. by replace (i + S k)%nat with (S i + k)%nat by lia.
Qed.

Lemma elem_of_tx_coins_from o c i id h cb outs :
  (o, c) ∈ tx_coins_from i id h cb outs →
  ∃ k out, outs !! k = Some out ∧ o = mkOutPoint id (Z.of_nat (i + k)) ∧ c = mkCoin out h cb.
Proof.
  intros (k & out & Hk & Ho)%elem_of_lookup_imap. simplify_eq. by exists k, out.
Qed.

Lemma tx_coins_from_later k i id h cb outs :
  (k < i)%nat → mkOutPoint id (Z.of_nat k) ∉ (tx_coins_from i id h cb outs).*1.
Proof.
  intros Hk ([o c] & Ho & Hin)%list_elem_of_fmap. cbn in Ho. subst o.
  apply elem_of_tx_coins_from in Hin as (k' & out & _ & [= E] & _). lia.
Qed.

Lemma tx_coins_from_fresh i id h cb outs :
  (list_to_map (tx_coins_from (S i) id h cb outs) : UtxoSet) !! mkOutPoint id (Z.of_nat i) = None.
Proof. apply not_elem_of_list_to_map_1, tx_coins_from_later. lia. Qed.

Lemma add_outputs_from_Ok i id h cb outs u u' :
  (Z.of_nat i + size_z outs < 2 ^ 32) →
  add_outputs_from i id h cb outs u = Ok u' ↔
  (list_to_map (tx_coins_from i id h cb outs) : UtxoSet) ##ₘ u ∧
  u' = list_to_map (tx_coins_from i id h cb outs) ∪ u.
Proof.
  revert i u. induction outs as [|out outs IH]; intros i u Hsz.
  { cbn. rewrite (left_id_L ∅ (∪)). split; [intros [= ->]|intros [_ ->]]; [|done].
    split; [apply map_disjoint_empty_l|done]. }
  cbn [add_outputs_from length] in *. rewrite tx_coins_from_cons, list_to_map_cons.
  rewrite wrap32_small by solve_u. set (o := mkOutPoint _ _). set (c := mkCoin _ _ _).
  rewrite map_disjoint_insert_l, <- insert_union_l, bind_Ok. split.
  - intros (u1 & [Hn ->]%utxo_add_Ok & H). apply IH in H as [Hd ->]; [|lia].
    apply map_disjoint_insert_r in Hd as [_ Hd]. split_and!; [done..|].
    rewrite <- insert_union_r; [done|]. apply tx_coins_from_fresh.
  - intros ([Hn Hd] & ->). exists (<[o := c]> u). split; [by apply utxo_add_Ok|].
    apply IH; [lia|]. split.
    + apply map_disjoint_insert_r. split; [apply tx_coins_from_fresh|done].
    + rewrite <- insert_union_r; [done|]. apply tx_coins_from_fresh.
Qed.

Lemma add_outputs_Ok tx h cb u u' :
  tx_sane tx →
  add_outputs tx h cb u = Ok u' ↔ tx_coins tx h cb ##ₘ u ∧ u' = tx_coins tx h cb ∪ u.
Proof.
  intros Hs. apply add_outputs_from_Ok. pose proof (sane_n_outputs _ Hs) as H.
  change kMaxOutputsPerTransaction with 4096 in H. lia.
Qed.

Lemma tx_coins_value tx h cb : utxo_value (tx_coins tx h cb) = out_value tx.
Proof.
  unfold tx_coins, out_value. generalize 0%nat as i. induction (outputs tx) as [|out outs IH]; intros i.
  { apply map_sum_empty. }
  rewrite tx_coins_from_cons, list_to_map_cons. unfold utxo_value.
  rewrite map_sum_insert by apply tx_coins_from_fresh.
  unfold utxo_value in IH. rewrite IH. done.
Qed.

Lemma tx_coins_lookup tx h cb o c :
  tx_coins tx h cb !! o = Some c → op_txid o = txid tx ∧ cheight c = h ∧ coinbase c = cb.
Proof.
  intros H%elem_of_list_to_map_2. by apply elem_of_tx_coins_from in H as (k & out & _ & -> & ->).
Qed.

Lemma tx_coins_wf tx h cb :
  tx_typed tx → is_u32 h → size_z (outputs tx) ≤ kMaxOutputsPerTransaction →
  utxos_wf (tx_coins tx h cb).
Proof.
  intros (_ & _ & Hout & _) Hh Hn o c H%elem_of_list_to_map_2.
  apply elem_of_tx_coins_from in H as (k & out & Hk & -> & ->).
  pose proof (lookup_lt_Some _ _ _ Hk). change kMaxOutputsPerTransaction with 4096 in Hn.
  split; split; cbn.
  - apply sha256d_wf.
  - solve_u.
  - by apply (Forall_lookup_1 _ _ _ _ Hout Hk).
  - done.
Qed.

(** ** Coins consumed *)

Lemma lookup_without os u o : without os u !! o = if decide (o ∈ os) then None else u !! o.
Proof.
  unfold without. case_decide as H; [by apply lookup_foldr_delete|by apply lookup_foldr_delete_not_elem_of].
Qed.

Lemma without_subseteq os u : without os u ⊆ u.
Proof. apply map_subseteq_spec. intros o c. rewrite lookup_without. by case_decide. Qed.

Lemma without_delete os o u : without os (delete o u) = without (o :: os) u.
Proof.
  apply map_eq. intros o'. rewrite !lookup_without.
  destruct (decide (o' = o)) as [->|Hne].
  - rewrite lookup_delete_eq, (decide_True _ _ (list_elem_of_here _ _)). by case_decide.
  - rewrite lookup_delete_ne by done. repeat case_decide; set_solver.
Qed.

Lemma spent_coins_delete o u ins :
  o ∉ prevout <$> ins → spent_coins (delete o u) ins = spent_coins u ins.
Proof.
  unfold spent_coins. induction ins as [|i ins IH]; [done|].
  rewrite fmap_cons, not_elem_of_cons. intros [Hne Hnin]. cbn [mapM].
  rewrite lookup_delete_ne by done. by rewrite IH.
Qed.

Lemma spend_inputs_Ok ins u u' :
  NoDup (prevout <$> ins) →
  spend_inputs ins u = Ok u' ↔
  is_Some (spent_coins u ins) ∧ u' = without (prevout <$> ins) u.
Proof.
  revert u. induction ins as [|i ins IH]; intros u.
  { intros _. split; [intros [= <-]|intros [_ ->]]; [|done]. split; [by eexists|done]. }
  rewrite fmap_cons. intros [Hnin Hnd]%NoDup_cons. cbn [spend_inputs]. rewrite bind_Ok. split.
  - intros ([c u1] & [Hc ->]%utxo_spend_Ok & H). apply IH in H as [[cs Hcs] ->]; [|done].
    rewrite without_delete, spent_coins_delete in * by done.
    split; [|done]. exists (c :: cs). apply spent_coins_cons. by exists c, cs.
  - intros ([cs' (c & cs & -> & Hc & Hcs)%spent_coins_cons] & ->).
    exists (c, delete (prevout i) u). split; [by apply utxo_spend_Ok|].
    apply IH; [done|]. rewrite spent_coins_delete, without_delete by done. split; [by exists cs|done].
Qed.

Lemma without_value ins u cs :
  NoDup (prevout <$> ins) → spent_coins u ins = Some cs →
  utxo_value u = sum_z (coin_value <$> cs) + utxo_value (without (prevout <$> ins) u).
Proof.
  revert u cs. induction ins as [|i ins IH]; intros u cs.
  { intros _ [= <-]. done. }
  rewrite fmap_cons. intros [Hnin Hnd]%NoDup_cons (c & cs' & -> & Hc & Hcs)%spent_coins_cons.
  rewrite <- without_delete. rewrite <- (spent_coins_delete (prevout i)) in Hcs by done.
  apply IH in Hcs; [|done]. rewrite fmap_cons. cbn [sum_z].
  unfold utxo_value in *. rewrite (map_sum_delete _ _ _ _ Hc). lia.
Qed.

Lemma utxos_wf_mono u u' : u' ⊆ u → utxos_wf u → utxos_wf u'.
Proof. intros Hsub Hwf o c Hc. apply Hwf. by eapply lookup_weaken. Qed.

Lemma utxos_wf_union u u' : utxos_wf u → utxos_wf u' → utxos_wf (u ∪ u').
Proof. intros Hu Hu' o c [Hc|[_ Hc]]%lookup_union_Some_raw; [by apply Hu|by apply Hu']. Qed.

(** ** The loops compute the transition *)

Section Connect.
Context (height : Z) (params : ConsensusParams).
Hypothesis Hheight : is_u32 height.
Hypothesis Hparams : params_wf params.

Lemma tx_applies_wf tx u u' fee :
  tx_typed tx → tx_sane tx → utxos_wf u → tx_applies height params tx u u' fee → utxos_wf u'.
Proof.
  intros Hty Hs Hwf [_ _ _ ->]. apply utxos_wf_union.
  - apply tx_coins_wf; [done..|apply Hs].
  - by eapply utxos_wf_mono, Hwf; apply without_subseteq.
Qed.

Lemma tx_applies_value tx u u' fee :
  tx_sane tx → tx_applies height params tx u u' fee → utxo_value u' = utxo_value u - fee.
Proof.
  intros Hs [(cs & Hcs & _ & -> & _) _ Hd ->].
  rewrite (without_value _ _ _ (sane_nodup _ Hs) Hcs).
  unfold utxo_value at 1. rewrite map_sum_union by done. fold utxo_value.
  change (utxo_value (tx_coins tx height false) + utxo_value (without (prevout <$> inputs tx) u) =
    sum_z (coin_value <$> cs) + utxo_value (without (prevout <$> inputs tx) u) -
    (sum_z (coin_value <$> cs) - out_value tx)).
  rewrite tx_coins_value. lia.
Qed.

Lemma connect_tx_Ok tx u total u' total' :
  tx_typed tx → tx_sane tx → utxos_wf u → 0 ≤ total →
  connect_tx height params tx u total = Ok (u', total') ↔
  ∃ fee, tx_applies height params tx u u' fee ∧ total' = total + fee ∧ total' ≤ UINT64_MAX.
Proof.
  intros Hty Hs Hwf Htot. pose proof (sane_nodup _ Hs) as Hnd. unfold connect_tx. split.
  - intros (fee & Hf & H)%bind_Ok. apply bind_Ok in H as ([] & Hm & H).
    apply bind_Ok in H as (u1 & H1 & H). apply bind_Ok in H as (u2 & H2 & H).
    apply check_transaction_inputs_Ok in Hf; [|done..].
    apply check_coinbase_maturity_Ok in Hm; [|done|apply Hparams].
    apply spend_inputs_Ok in H1 as [_ ->]; [|done].
    apply add_outputs_Ok in H2 as [Hd ->]; [|done].
    destruct (checked_add total fee) as [t|] eqn:Ea; [|discriminate H].
    assert (is_u64 fee) as Hfu.
    { destruct Hf as (cs & _ & Hb & -> & Hp). pose proof (out_value_nonneg tx Hty). solve_u. }
    apply checked_add_Some in Ea as [-> Hle]; [|done]. injection H as <- <-.
    exists fee. split; [|by split]. by split.
  - intros (fee & [Hf Hm Hd ->] & -> & Hle).
    rewrite (proj2 (check_transaction_inputs_Ok tx u fee Hwf Hty Hs) Hf). rsimpl.
    rewrite (proj2 (check_coinbase_maturity_Ok tx u height _ Hwf (proj2 Hparams)) Hm). rsimpl.
    assert (is_Some (spent_coins u (inputs tx))) as Hsp by (destruct Hf as (cs & -> & _); by eexists).
    rewrite (proj2 (spend_inputs_Ok (inputs tx) u _ Hnd) (conj Hsp eq_refl)). rsimpl.
    rewrite (proj2 (add_outputs_Ok tx height false _ _ Hs) (conj Hd eq_refl)). rsimpl.
    destruct Hf as (cs & _ & _ & _ & Hpos).
    destruct (checked_add total fee) as [t|] eqn:Ea; [|apply checked_add_None in Ea; lia].
    apply checked_add_Some in Ea as [-> _]; [done|solve_u].
Qed.

Lemma txs_apply_nonneg txs u u' fees : txs_apply height params txs u u' fees → 0 ≤ fees.
Proof. induction 1 as [|??????? [(?&?&?&?&?) _ _ _] ? IH]; lia. Qed.

Lemma connect_txs_Ok txs u total u' total' :
  Forall tx_typed txs → Forall tx_sane txs → utxos_wf u → 0 ≤ total ≤ UINT64_MAX →
  connect_txs height params txs u total = Ok (u', total') ↔
  ∃ fees, txs_apply height params txs u u' fees ∧ total' = total + fees ∧ total' ≤ UINT64_MAX.
Proof.
  intros Hty. revert u total. induction Hty as [|tx txs Htx Hty IH]; intros u total Hs Hwf Htot.
  { cbn [connect_txs]. split.
    - intros [= <- <-]. exists 0. split_and!; [constructor|lia..].
    - intros (fees & H & -> & _). inversion H; subst. by rewrite Z.add_0_r. }
  apply Forall_cons in Hs as [Hstx Hs]. cbn [connect_txs]. rewrite bind_Ok. split.
  - intros ([u1 t1] & H1 & H). apply connect_tx_Ok in H1 as (fee & Hap & -> & Hle); [|done..|lia].
    pose proof Hap as [(? & _ & _ & _ & Hpos) _ _ _].
    apply IH in H as (fees & Haps & -> & Hle'); [|done|by eapply tx_applies_wf|lia].
    exists (fee + fees). split_and!; [by econstructor|lia..].
  - intros (fees' & H & -> & Hle). inversion H as [|? ? ? u1 ? fee fees Hap Haps]; subst.
    pose proof Hap as [(? & _ & _ & _ & Hpos) _ _ _]. pose proof (txs_apply_nonneg _ _ _ _ Haps).
    exists (u1, total + fee). split.
    + apply connect_tx_Ok; [done..|lia|]. exists fee. split_and!; [done..|lia].
    + apply IH; [done|by eapply tx_applies_wf|lia|]. exists fees. split_and!; [done|lia..].
Qed.

Lemma txs_apply_wf txs u u' fees :
  Forall tx_typed txs → Forall tx_sane txs → utxos_wf u →
  txs_apply height params txs u u' fees → utxos_wf u'.
Proof.
  intros Hty Hs Hwf H. induction H as [|tx txs u u1 u2 fee fees Hap _ IH]; [done|].
  apply Forall_cons in Hty as [? ?]. apply Forall_cons in Hs as [? ?].
  apply IH; [done..|]. by eapply tx_applies_wf.
Qed.

Lemma txs_apply_value txs u u' fees :
  Forall tx_sane txs → txs_apply height params txs u u' fees → utxo_value u' = utxo_value u - fees.
Proof.
  intros Hs H. induction H as [|tx txs u u1 u2 fee fees Hap _ IH]; [lia|].
  apply Forall_cons in Hs as [? ?]. rewrite IH by done. erewrite tx_applies_value by done. lia.
Qed.
End Connect.

(** ** Whole blocks *)

Lemma regular_txs_sub (P : Transaction → Prop) block :
  Forall P (transactions block) → Forall P (regular_txs block).
Proof.
  unfold regular_txs. intros H. destruct (has_coinbase block); [|done].
  destruct (transactions block); [done|]. by apply Forall_cons in H as [_ ?].
Qed.

Lemma connect_coinbase_Ok h params cb u fees u' :
  tx_typed cb → tx_sane cb → is_u64 fees →
  connect_coinbase h params cb u fees = Ok u' ↔
  block_subsidy params + fees ≤ UINT64_MAX ∧ out_value cb ≤ block_subsidy params + fees ∧
  tx_coins cb h true ##ₘ u ∧ u' = tx_coins cb h true ∪ u.
Proof.
  intros (_ & _ & Ho & _) Hs Hf. unfold connect_coinbase.
  rewrite sum_outputs_exact by (done || apply Hs). fold (out_value cb).
  destruct (checked_add _ _) as [allowed|] eqn:Ea.
  - apply checked_add_Some in Ea as [-> Hle]; [|done].
    destruct (_ <? _) eqn:El.
    + split; [intros H; discriminate H|]. intros (_ & H & _). lia.
    + rewrite add_outputs_Ok by done. split; [|naive_solver]. intros [??]. split_and!; [done|lia|done..].
  - apply checked_add_None in Ea. split; [intros H; discriminate H|]. lia.
Qed.

Lemma connect_block_applies block u params u' fees :
  block_typed block → params_wf params → utxos_wf u →
  connect_block block u params = (u', Ok fees) ↔ block_applies block params u u' fees.
Proof.
  intros [Hh Hty] Hp Hwf.
  assert (is_u32 (height (header block))) as Hht by (by destruct Hh as (_ & _ & _ & _ & ?)).
  transitivity (connect_working block u params = Ok (u', fees)).
  { unfold connect_block. destruct (connect_working block u params) as [[w t]|e];
      split; intros H; simplify_eq; done. }
  unfold connect_working, block_applies. rewrite bind_Ok. split.
  - intros ([] & Hs%check_block_sanity_Ok & H); [|done].
    apply bind_Ok in H as ([u1 t] & H1 & H).
    assert (Forall tx_sane (transactions block)) as Hsane by apply Hs.
    apply connect_txs_Ok in H1 as (fees' & Hap & -> & Hle);
      [|by try apply regular_txs_sub..]. rewrite Z.add_0_l in *.
    apply bind_Ok in H as (u2 & H2 & [= <- <-]). split_and!; [done..|].
    pose proof (txs_apply_nonneg _ _ _ _ _ _ Hap). exists u1. split; [done|].
    unfold coinbase_applies, has_coinbase in *. destruct (transactions block) as [|cb txs] eqn:Et.
    { by injection H2 as <-. }
    apply Forall_cons in Hty as [Hcb _]. apply Forall_cons in Hsane as [Hcs _].
    destruct (is_coinbase cb); [|by injection H2 as <-].
    apply connect_coinbase_Ok in H2; [done..|solve_u].
  - intros (Hs & Hle & u1 & Hap & Hcb). exists tt. split; [by apply check_block_sanity_Ok|].
    assert (Forall tx_sane (transactions block)) as Hsane by apply Hs.
    rewrite bind_Ok. exists (u1, fees). pose proof (txs_apply_nonneg _ _ _ _ _ _ Hap). split.
    { apply connect_txs_Ok; [by try apply regular_txs_sub..|]. exists fees. split_and!; [done|lia..]. }
    rewrite bind_Ok. exists u'. split; [|done].
    unfold coinbase_applies, has_coinbase in *. destruct (transactions block) as [|cb txs] eqn:Et.
    { by subst. }
    apply Forall_cons in Hty as [Hcbt _]. apply Forall_cons in Hsane as [Hcs _].
    destruct (is_coinbase cb); [|by subst]. apply connect_coinbase_Ok; [done..|solve_u|done].
Qed.

Lemma connect_block_Err block u params :
  is_ok (connect_block block u params).2 = false → (connect_block block u params).1 = u.
Proof. unfold connect_block. by destruct (connect_working block u params) as [[]|]. Qed.

(** The value a block's coinbase creates. *)
Definition coinbase_out (block : Block) : Z :=
  match transactions block with
  | cb :: _ => if is_coinbase cb then out_value cb else 0
  | [] => 0
  end.

Lemma block_applies_value block params u u' fees :
  block_applies block params u u' fees →
  utxo_value u' = utxo_value u - fees + coinbase_out block.
Proof.
  intros (Hs & _ & u1 & Hap & Hcb). apply txs_apply_value in Hap; [|by apply regular_txs_sub, Hs].
  unfold coinbase_applies, coinbase_out in *. destruct (transactions block) as [|cb txs]; [subst; lia|].
  destruct (is_coinbase cb); [|subst; lia]. destruct Hcb as (_ & _ & Hd & ->).
  pose proof (tx_coins_value cb (height (header block)) true). unfold utxo_value in *.
  rewrite map_sum_union by done. lia.
Qed.

Lemma coinbase_out_le block params u u' fees :
  0 ≤ block_subsidy params →
  block_applies block params u u' fees → coinbase_out block ≤ block_subsidy params + fees.
Proof.
  intros Hp (_ & _ & u1 & Hap & Hcb). apply txs_apply_nonneg in Hap.
  unfold coinbase_applies, coinbase_out in *. destruct (transactions block) as [|cb txs]; [lia|].
  destruct (is_coinbase cb); [|lia]. by destruct Hcb as (_ & ? & _).
Qed.

Lemma block_applies_wf block params u u' fees :
  block_typed block → utxos_wf u → block_applies block params u u' fees → utxos_wf u'.
Proof.
  intros [Hh Hty] Hwf (Hs & _ & u1 & Hap & Hcb).
  assert (is_u32 (height (header block))) as Hht by (by destruct Hh as (_ & _ & _ & _ & ?)).
  apply txs_apply_wf in Hap; [|done|by apply regular_txs_sub|by apply regular_txs_sub, Hs|done].
  unfold coinbase_applies in *. destruct Hs as [_ _ _ Hs _ _].
  destruct (transactions block) as [|cb txs]; [by subst|].
  apply Forall_cons in Hty as [Hcbt _]. apply Forall_cons in Hs as [Hcs _].
  destruct (is_coinbase cb); [|by subst]. destruct Hcb as (_ & _ & _ & ->).
  apply utxos_wf_union; [|done]. apply tx_coins_wf; [done..|apply Hcs].
Qed.

(** A coin that may not be spent yet is still there after the block. *)
Lemma union_keeps (m1 m2 : UtxoSet) o c : m1 ##ₘ m2 → m2 !! o = Some c → (m1 ∪ m2) !! o = Some c.
Proof. intros Hd Hc. apply lookup_union_Some; auto. Qed.

Lemma tx_applies_keeps h params tx u u' fee o c :
  tx_applies h params tx u u' fee → u !! o = Some c →
  coinbase c = true → h < cheight c + coinbase_maturity params → u' !! o = Some c.
Proof.
  intros [_ Hm Hd ->] Hc Hcb Hh. apply union_keeps; [done|].
  rewrite lookup_without. rewrite decide_False; [done|].
  intros (i & -> & Hi)%list_elem_of_fmap. unfold inputs_mature in Hm. rewrite Forall_forall in Hm.
  specialize (Hm i Hi c Hc Hcb). lia.
Qed.

Lemma block_applies_keeps block params u u' fees o c :
  block_applies block params u u' fees → u !! o = Some c →
  coinbase c = true → height (header block) < cheight c + coinbase_maturity params →
  u' !! o = Some c.
Proof.
  intros (_ & _ & u1 & Hap & Hcb) Hc Hc1 Hc2.
  assert (u1 !! o = Some c) as Hu1.
  { clear Hcb. induction Hap as [|tx txs u u1 u2 fee fees Ht _ IH]; [done|].
    apply IH. by eapply tx_applies_keeps. }
  unfold coinbase_applies in Hcb. destruct (transactions block) as [|cb txs]; [by subst|].
  destruct (is_coinbase cb); [|by subst]. destruct Hcb as (_ & _ & Hd & ->). by apply union_keeps.
Qed.
