(* ===== verification/Samples.v ===== *)
(** * Sample data on which the theorems are instantiated

    A confirmed coin, a transaction that moves it with a fee, the block that confirms
    the transaction, and a chain of two blocks.  Digests are evaluated only where two
    of them have to differ. *)

From S2P Require Import Prelude Errors Sha256 ByteIO Transaction Block Utxo TxValidation BlockValidation.
From Stdlib Require Import Strings.Byte.

Definition sample_alice : Hash256 := replicate 32 x01.
Definition sample_bob : Hash256 := replicate 32 x02.
Definition sample_params : ConsensusParams := mkConsensusParams kDefaultBlockSubsidy 1.

Definition sample_op : OutPoint := mkOutPoint (replicate 32 x07) 0.
Definition sample_coin : Coin := mkCoin (mkTxOutput kDefaultBlockSubsidy sample_alice) 0 true.
Definition sample_utxos : UtxoSet := {[ sample_op := sample_coin ]}.

(** Pays all but a fee of 1000 to the second key. *)
Definition sample_spend : Transaction :=
  mkTransaction kTransactionVersion [mkTxInput sample_op]
    [mkTxOutput (kDefaultBlockSubsidy - 1000) sample_bob] 0.

Definition sample_cb0 : Transaction := make_coinbase 0 kDefaultBlockSubsidy sample_alice.
Definition sample_cb1 : Transaction := make_coinbase 1 kDefaultBlockSubsidy sample_alice.

Definition sample_block (prev : Hash256) (ts h : Z) (txs : list Transaction) : Block :=
  mkBlock (mkBlockHeader kBlockVersion prev (compute_merkle_root txs) ts h) txs.

(** The chain: a genesis block and one on top of it. *)
Definition sample_genesis : Block := sample_block zero_hash 1000 0 [sample_cb0].
Definition sample_next : Block := sample_block (header_hash (header sample_genesis)) 1001 1 [sample_cb1].

(** Confirms [sample_spend]. *)
Definition sample_paying : Block :=
  sample_block (header_hash (header sample_genesis)) 1001 1 [sample_cb1; sample_spend].

#[global] Instance block_typed_dec b : Decision (block_typed b).
Proof. unfold block_typed. apply _. Defined.
#[global] Instance params_wf_dec p : Decision (params_wf p).
Proof. unfold params_wf. apply _. Defined.

(** ** The samples are well formed *)

Lemma merkle_root_wf txs : hash_wf (compute_merkle_root txs).
Proof.
  destruct txs as [|tx txs]; [done|].
  destruct (merkle_root_hashed (tx :: txs)) as (x & _ & ->); [done|]. apply sha256d_wf.
Qed.

Lemma sample_block_typed prev ts h txs :
  hash_wf prev → is_u64 ts → is_u32 h → Forall tx_typed txs → block_typed (sample_block prev ts h txs).
Proof.
  intros Hp Ht Hh Htx. split; [|done]. unfold header_wf; cbn.
  split_and!; [done|done|apply merkle_root_wf|done|done].
Qed.

(** A block passes the context-free checks when its transactions do. *)
Lemma sample_block_sane prev ts h txs :
  block_typed (sample_block prev ts h txs) → size_z txs ≤ kMaxTransactionsPerBlock →
  84 + sum_z (tx_size <$> txs) ≤ kMaxBlockSizeBytes →
  Forall tx_sane txs → Forall (λ tx, is_coinbase tx = false) (tail txs) → NoDup (txid <$> txs) →
  block_sane (sample_block prev ts h txs).
Proof. intros [Hh _] Hn Hsz Hs Hc Hnd. split; try done. by rewrite block_size. Qed.

Lemma sample_params_wf : params_wf sample_params.
Proof. done. Qed.
Lemma sample_cb0_typed : tx_typed sample_cb0.
Proof. vm_decide. Qed.
Lemma sample_cb1_typed : tx_typed sample_cb1.
Proof. vm_decide. Qed.
Lemma sample_spend_typed : tx_typed sample_spend.
Proof. vm_decide. Qed.
Lemma sample_cb0_sane : tx_sane sample_cb0.
Proof. apply check_transaction_sanity_Ok; [apply sample_cb0_typed|vm_eq]. Qed.
Lemma sample_cb1_sane : tx_sane sample_cb1.
Proof. apply check_transaction_sanity_Ok; [apply sample_cb1_typed|vm_eq]. Qed.
Lemma sample_spend_sane : tx_sane sample_spend.
Proof. apply check_transaction_sanity_Ok; [apply sample_spend_typed|vm_eq]. Qed.

Lemma sample_cbs_differ : txid sample_cb0 ≠ txid sample_cb1.
Proof. apply (bool_decide_eq_false_1 _). vm_eq. Qed.
Lemma sample_spend_differs : txid sample_cb1 ≠ txid sample_spend.
Proof. apply (bool_decide_eq_false_1 _). vm_eq. Qed.

Lemma sample_utxos_wf : utxos_wf sample_utxos.
Proof. apply map_Forall_singleton. done. Qed.

Lemma sample_genesis_typed : block_typed sample_genesis.
Proof. apply sample_block_typed; [done..|]. by apply Forall_singleton, sample_cb0_typed. Qed.
Lemma sample_next_typed : block_typed sample_next.
Proof.
  apply sample_block_typed; [apply sha256d_wf|done..|]. by apply Forall_singleton, sample_cb1_typed.
Qed.
Lemma sample_paying_typed : block_typed sample_paying.
Proof.
  apply sample_block_typed; [apply sha256d_wf|done..|].
  apply Forall_cons_2; [apply sample_cb1_typed|apply Forall_singleton, sample_spend_typed].
Qed.

(** ** Their transitions *)

Definition sample_utxos0 : UtxoSet := tx_coins sample_cb0 0 true ∪ ∅.
Definition sample_utxos1 : UtxoSet := tx_coins sample_cb1 1 true ∪ sample_utxos0.
Definition sample_paid : UtxoSet :=
  tx_coins sample_cb1 1 true ∪ (tx_coins sample_spend 1 false ∪ ∅).

Lemma sample_genesis_applies : block_applies sample_genesis sample_params ∅ sample_utxos0 0.
Proof.
  split_and!; [|done|].
  - apply sample_block_sane; [apply sample_genesis_typed|done|vm_decide| |done|apply NoDup_singleton].
    apply Forall_singleton, sample_cb0_sane.
  - exists ∅. split; [constructor|]. split_and!; [done..|apply map_disjoint_empty_r|done].
Qed.

Lemma coins_disjoint tx1 tx2 h1 h2 cb1 cb2 :
  txid tx1 ≠ txid tx2 → tx_coins tx1 h1 cb1 ##ₘ tx_coins tx2 h2 cb2 ∪ ∅.
Proof.
  intros Hne. rewrite (right_id_L ∅ (∪)). apply map_disjoint_spec. intros o c1 c2 H1 H2.
  apply tx_coins_lookup in H1 as (E1 & _), H2 as (E2 & _). congruence.
Qed.

Lemma sample_next_applies : block_applies sample_next sample_params sample_utxos0 sample_utxos1 0.
Proof.
  split_and!; [|done|].
  - apply sample_block_sane; [apply sample_next_typed|done|vm_decide| |done|apply NoDup_singleton].
    apply Forall_singleton, sample_cb1_sane.
  - exists sample_utxos0. split; [constructor|]. split_and!; [done..| |done].
    apply coins_disjoint. exact (λ E, sample_cbs_differ (eq_sym E)).
Qed.

Lemma sample_spend_applies :
  tx_applies 1 sample_params sample_spend sample_utxos (tx_coins sample_spend 1 false ∪ ∅) 1000.
Proof.
  assert (without [sample_op] sample_utxos = ∅) as Ew by apply delete_singleton_eq.
  split.
  - exists [sample_coin]. split_and!; [|done..]. unfold spent_coins. cbn [mapM inputs sample_spend prevout].
    unfold sample_utxos. by rewrite lookup_singleton_eq.
  - apply Forall_singleton. cbn [prevout]. unfold sample_utxos. intros c.
    rewrite lookup_singleton_eq. by intros [= <-].
  - cbn [inputs sample_spend fmap list_fmap prevout]. rewrite Ew. apply map_disjoint_empty_r.
  - cbn [inputs sample_spend fmap list_fmap prevout]. rewrite Ew. reflexivity.
Qed.

Lemma sample_paying_applies : block_applies sample_paying sample_params sample_utxos sample_paid 1000.
Proof.
  split_and!; [|done|].
  - apply sample_block_sane; [apply sample_paying_typed|done|vm_decide| | |].
    + apply Forall_cons_2; [apply sample_cb1_sane|apply Forall_singleton, sample_spend_sane].
    + by apply Forall_singleton.
    + cbn [fmap list_fmap]. apply NoDup_cons. split; [|apply NoDup_singleton].
      intros E%list_elem_of_singleton. exact (sample_spend_differs E).
  - exists (tx_coins sample_spend 1 false ∪ ∅). split.
    + change 1000 with (1000 + 0). econstructor; [apply sample_spend_applies|constructor].
    + split_and!; [done..| |done]. apply coins_disjoint, sample_spend_differs.
Qed.
