(* ===== verification/CoreTheorems.v ===== *)
(** * Properties of hashing, formats and validation

    The statements about [crypto/], [serialization/], [protocol/], [state/] and
    [validation/], with an instance of each on the sample data. *)

From S2P Require Import Prelude Errors Sha256 ByteIO Transaction Block Utxo TxValidation BlockValidation Samples.
From Stdlib Require Import Strings.Byte.

(** ** Hashing *)

(** C25: the streaming hasher ([update], [finalize], with its 64-byte buffer and
    incremental padding) computes, for a message of any length, the digest of the
    message padded as FIPS 180-4 prescribes and processed block by block, 32 bytes. *)
Theorem sha256_streaming_is_fips (data : list byte) :
  sha256 data = fips_sha256 data ∧ hash_wf (sha256 data) ∧ sha256d data = fips_sha256 (fips_sha256 data).
Proof.
  split_and!; [apply sha256_fips|apply sha256_wf|].
  rewrite <- !sha256_fips. apply sha256d_unfold.
Qed.

(** Printing a digest in hexadecimal and parsing it back gives the digest; what
    the parser accepts is always a 32-byte digest. *)
Theorem hex_roundtrip (h : Hash256) :
  hash_wf h → hash_from_hex (to_hex h) = Ok h ∧ ∀ s h', hash_from_hex s = Ok h' → hash_wf h'.
Proof. intros Hh. split; [by apply hash_from_to_hex|apply hash_from_hex_wf]. Qed.

Lemma hex_roundtrip_witness :
  hash_from_hex (to_hex sample_alice) = Ok sample_alice ∧ ∀ s h', hash_from_hex s = Ok h' → hash_wf h'.
Proof. apply (hex_roundtrip sample_alice). reflexivity. Defined.

(** ** Formats *)

(** A well-formed transaction reads back from its bytes, and any byte string the
    reader accepts as a whole is the encoding of the transaction it returns: the
    format is canonical, so a txid determines the bytes that were hashed. *)
Theorem transaction_roundtrip (tx : Transaction) (bytes : list byte) :
  tx_wf tx →
  parse_all tx_deserialize (tx_to_bytes tx) = Ok tx ∧
  (parse_all tx_deserialize bytes = Ok tx → bytes = tx_to_bytes tx).
Proof.
  intros Hwf. rewrite tx_to_bytes_enc. split; [by apply parse_all_enc|].
  by intros [-> _]%parse_all_inv.
Qed.

Lemma transaction_roundtrip_witness :
  parse_all tx_deserialize (tx_to_bytes sample_spend) = Ok sample_spend ∧
  (parse_all tx_deserialize [] = Ok sample_spend → [] = tx_to_bytes sample_spend).
Proof. apply (transaction_roundtrip sample_spend []). vm_decide. Defined.

(** The same for blocks. *)
Theorem block_roundtrip (block : Block) (bytes : list byte) :
  block_wf block →
  parse_all block_deserialize (block_to_bytes block) = Ok block ∧
  (parse_all block_deserialize bytes = Ok block → bytes = block_to_bytes block).
Proof.
  intros Hwf. rewrite block_to_bytes_enc. split; [by apply parse_all_enc|].
  by intros [-> _]%parse_all_inv.
Qed.

Definition sample_empty_block : Block := sample_block zero_hash 7 0 [].

Lemma block_roundtrip_witness :
  parse_all block_deserialize (block_to_bytes sample_empty_block) = Ok sample_empty_block ∧
  (parse_all block_deserialize [] = Ok sample_empty_block → [] = block_to_bytes sample_empty_block).
Proof. apply (block_roundtrip sample_empty_block []). vm_decide. Defined.

(** No strict prefix of an encoded transaction is accepted, wherever in the input
    it stands. *)
Theorem truncated_transaction_rejected (tx : Transaction) (pre cut ext : list byte) :
  tx_wf tx → tx_to_bytes tx = cut ++ ext → ext ≠ [] →
  is_ok (tx_deserialize (reader_at pre cut)) = false.
Proof. rewrite tx_to_bytes_enc. apply prefix_rejected. Qed.

Lemma truncated_transaction_rejected_witness :
  is_ok (tx_deserialize (reader_at [] (take 91 (tx_to_bytes sample_spend)))) = false.
Proof.
  apply (truncated_transaction_rejected sample_spend [] _ (drop 91 (tx_to_bytes sample_spend)));
    [vm_decide|by rewrite take_drop|vm_decide].
Defined.

(** Coinbases of different heights are different byte strings: the height written
    in the first input keeps two coinbases to the same recipient apart. *)
Theorem coinbase_bytes_distinct (h1 h2 v1 v2 : Z) (r1 r2 : Hash256) :
  is_u32 h1 → is_u32 h2 → is_u64 v1 → is_u64 v2 → hash_wf r1 → hash_wf r2 → h1 ≠ h2 →
  tx_to_bytes (make_coinbase h1 v1 r1) ≠ tx_to_bytes (make_coinbase h2 v2 r2) ∧
  is_coinbase (make_coinbase h1 v1 r1) = true.
Proof.
  intros ? ? ? ? ? ? Hne. split; [|done]. intros E. apply Hne. by apply (make_coinbase_bytes_inj h1 h2 v1 v2 r1 r2).
Qed.

Lemma coinbase_bytes_distinct_witness :
  tx_to_bytes (make_coinbase 3 5 sample_alice) ≠ tx_to_bytes (make_coinbase 4 5 sample_alice) ∧
  is_coinbase (make_coinbase 3 5 sample_alice) = true.
Proof. apply coinbase_bytes_distinct; vm_decide. Defined.

(** ** Merkle roots *)

(** C24: two non-empty transaction lists without repeated txids and with the same Merkle
    root are equal, unless the double SHA-256 collides on two of the strings hashed
    for them.  Lists of different lengths are covered: a leaf cannot be read as an
    inner node because no transaction is 64 bytes long. *)
Theorem merkle_root_binds (txs1 txs2 : list Transaction) :
  txs1 ≠ [] → txs2 ≠ [] → Forall tx_wf txs1 → Forall tx_wf txs2 →
  NoDup (txid <$> txs1) → NoDup (txid <$> txs2) →
  collision_free (merkle_hashed txs1 ++ merkle_hashed txs2) →
  compute_merkle_root txs1 = compute_merkle_root txs2 → txs1 = txs2.
Proof. apply merkle_binding. Qed.

Lemma merkle_root_binds_witness : [sample_spend] = [sample_spend].
Proof.
  apply merkle_root_binds; [done|done|vm_decide|vm_decide|apply NoDup_singleton|apply NoDup_singleton| |done].
  intros x y Hx Hy _.
  assert (∀ z, z ∈ merkle_hashed [sample_spend] ++ merkle_hashed [sample_spend] →
    z = tx_to_bytes sample_spend) as H.
  { intros z [Hz|Hz]%elem_of_app; by apply list_elem_of_singleton in Hz. }
  rewrite (H _ Hx), (H _ Hy). reflexivity.
Defined.

(** Appending a copy of the last transaction to a list of odd length above one does
    not change its Merkle root (the level is padded that way), and no block over the
    longer list passes the block checks: the repeated txid is refused. *)
Theorem merkle_duplicate_refused (txs : list Transaction) (tx : Transaction) (h : BlockHeader) :
  Forall tx_typed txs → Nat.odd (length txs) = true → (1 < length txs)%nat → last txs = Some tx →
  compute_merkle_root (txs ++ [tx]) = compute_merkle_root txs ∧
  is_ok (check_block_sanity (mkBlock h (txs ++ [tx]))) = false.
Proof.
  intros Hty Hodd Hlen Hlast. split; [by apply merkle_root_duplicate|].
  destruct (check_block_sanity _) as [[]|] eqn:E; [exfalso|done].
  apply last_Some in Hlast as [l ->].
  apply check_block_sanity_Ok in E.
  - pose proof (bsane_nodup _ E) as Hnd. cbn [transactions] in Hnd.
    rewrite !fmap_app, <- (assoc_L (++)) in Hnd. apply NoDup_app in Hnd as (_ & _ & Hnd).
    apply NoDup_cons in Hnd as [Hnin _]. apply Hnin. left.
  - apply Forall_app in Hty as [? ?]. cbn [transactions]. apply Forall_app. split; [by apply Forall_app|done].
Qed.

Lemma merkle_duplicate_refused_witness :
  compute_merkle_root ([sample_cb0; sample_cb1; sample_spend] ++ [sample_spend]) =
  compute_merkle_root [sample_cb0; sample_cb1; sample_spend] ∧
  is_ok (check_block_sanity (mkBlock (header sample_empty_block)
    ([sample_cb0; sample_cb1; sample_spend] ++ [sample_spend]))) = false.
Proof. apply merkle_duplicate_refused; [vm_decide|reflexivity|cbn; lia|reflexivity]. Defined.

(** ** Transactions *)

(** C34: [check_transaction_sanity] accepts exactly the transactions with inputs and
    outputs within the limits, no repeated outpoint, no reserved outpoint outside a
    coinbase, a total output of at most 21 million coins (the sum is exact: the
    64-bit additions never wrap) and at most 64 KiB of encoding. *)
Theorem transaction_sanity_spec (tx : Transaction) :
  tx_typed tx → check_transaction_sanity tx = Ok tt ↔ tx_sane tx.
Proof. apply check_transaction_sanity_Ok. Qed.

Lemma transaction_sanity_spec_witness : tx_sane sample_spend.
Proof. apply (transaction_sanity_spec sample_spend); [vm_decide|vm_eq]. Defined.

(** On a sane transaction [check_transaction_inputs] returns [fee] exactly when every
    input is an unspent output, the input total fits 64 bits and exceeds the output
    total by [fee]. *)
Theorem transaction_inputs_spec (tx : Transaction) (utxos : UtxoSet) (fee : Z) :
  utxos_wf utxos → tx_typed tx → tx_sane tx →
  check_transaction_inputs tx utxos = Ok fee ↔
  ∃ coins, spent_coins utxos (inputs tx) = Some coins ∧
    sum_z (coin_value <$> coins) ≤ UINT64_MAX ∧
    fee = sum_z (coin_value <$> coins) - out_value tx ∧ 0 ≤ fee.
Proof. apply check_transaction_inputs_Ok. Qed.

Lemma transaction_inputs_spec_witness : check_transaction_inputs sample_spend sample_utxos = Ok 1000.
Proof.
  apply (transaction_inputs_spec sample_spend sample_utxos 1000);
    [apply sample_utxos_wf|apply sample_spend_typed|apply sample_spend_sane|].
  exists [sample_coin]. split_and!; [|vm_decide..]. unfold spent_coins. cbn [mapM inputs sample_spend prevout].
  unfold sample_utxos. rewrite lookup_singleton_eq. reflexivity.
Defined.

(** ** Blocks *)

(** C1: [connect_block] computes the transition [block_applies]: it succeeds with the new
    set and the fees exactly when the block is sane, every transaction spends existing
    mature coins worth at least its outputs, creates fresh ones, and the coinbase claims
    at most subsidy plus fees; whenever it fails the caller's set is what it was. *)
Theorem connect_block_refines (block : Block) (utxos : UtxoSet) (params : ConsensusParams) :
  block_typed block → params_wf params → utxos_wf utxos →
  (∀ utxos' fees, connect_block block utxos params = (utxos', Ok fees) ↔
     block_applies block params utxos utxos' fees) ∧
  (is_ok (connect_block block utxos params).2 = false → (connect_block block utxos params).1 = utxos).
Proof.
  intros Hb Hp Hu. split; [intros; by apply connect_block_applies|apply connect_block_Err].
Qed.

Lemma connect_block_refines_witness :
  connect_block sample_paying sample_utxos sample_params = (sample_paid, Ok 1000).
Proof.
  apply (connect_block_refines sample_paying sample_utxos sample_params);
    [apply sample_paying_typed|apply sample_params_wf|apply sample_utxos_wf|apply sample_paying_applies].
Defined.

(** C22: a connected block changes the total value of the unspent outputs by what its
    coinbase creates less the fees it collected, hence by at most the subsidy; the set
    stays well formed. *)
Theorem connect_block_conserves_value (block : Block) (utxos utxos' : UtxoSet)
    (params : ConsensusParams) (fees : Z) :
  block_typed block → params_wf params → utxos_wf utxos →
  connect_block block utxos params = (utxos', Ok fees) →
  utxos_wf utxos' ∧
  utxo_value utxos' = utxo_value utxos - fees + coinbase_out block ∧
  utxo_value utxos' ≤ utxo_value utxos + block_subsidy params.
Proof.
  intros Hb Hp Hu Hap%connect_block_applies; [|done..].
  pose proof (block_applies_value _ _ _ _ _ Hap).
  pose proof (coinbase_out_le _ _ _ _ _ (proj1 (proj1 Hp)) Hap).
  split_and!; [by eapply block_applies_wf|done|lia].
Qed.

Lemma connect_block_conserves_value_witness :
  utxos_wf sample_paid ∧
  utxo_value sample_paid = utxo_value sample_utxos - 1000 + coinbase_out sample_paying ∧
  utxo_value sample_paid ≤ utxo_value sample_utxos + block_subsidy sample_params.
Proof.
  apply (connect_block_conserves_value sample_paying sample_utxos sample_paid sample_params 1000);
    [apply sample_paying_typed|apply sample_params_wf|apply sample_utxos_wf|].
  apply connect_block_applies;
    [apply sample_paying_typed|apply sample_params_wf|apply sample_utxos_wf|apply sample_paying_applies].
Defined.

(** C23: no block below the maturity height spends a coinbase coin: the coin is still
    unspent, unchanged, after the block. *)
Theorem immature_coinbase_survives (block : Block) (utxos utxos' : UtxoSet)
    (params : ConsensusParams) (fees : Z) (o : OutPoint) (c : Coin) :
  block_typed block → params_wf params → utxos_wf utxos →
  connect_block block utxos params = (utxos', Ok fees) →
  utxos !! o = Some c → coinbase c = true →
  height (header block) < cheight c + coinbase_maturity params →
  utxos' !! o = Some c.
Proof.
  intros Hb Hp Hu Hap%connect_block_applies; [|done..]. by eapply block_applies_keeps.
Qed.

Definition sample_empty_block1 : Block := sample_block zero_hash 7 1 [].

Lemma immature_coinbase_survives_witness : sample_utxos !! sample_op = Some sample_coin.
Proof.
  apply (immature_coinbase_survives sample_empty_block1 sample_utxos sample_utxos
           (mkConsensusParams 50 2) 0 sample_op sample_coin);
    [vm_decide|vm_decide|apply sample_utxos_wf|reflexivity|apply lookup_singleton_eq|reflexivity|vm_decide].
Defined.
