(* ===== verification/Mempool.v ===== *)
(** * The memory pool
    ([include/blockchain/mempool/mempool.hpp], [policy.hpp], [restore.hpp],
    [src/mempool/policy.cpp], [mempool.cpp], [restore.cpp])

    The pool keeps the admitted transactions by txid and the outpoints they reserve.
    [accept] may evict entries; its loop runs on fuel, one more than the number of
    entries, and [evict_loop_run] shows that the fuel is enough for every pool
    satisfying the invariant [pool_wf]. *)

From S2P Require Import Prelude Errors Sha256 ByteIO Transaction Utxo TxValidation.

(** ** Data *)

Definition kDefaultMempoolMaxTransactions : Z := 10000.
Definition kDefaultMempoolMaxBytes : Z := 100 * kMaxBlockSizeBytes.

Record MempoolPolicy := mkMempoolPolicy { min_relay_feerate : Z }.
Record MempoolAdmission := mkMempoolAdmission { adm_fee : Z; adm_size_bytes : Z }.
Record MempoolLimits := mkMempoolLimits { max_transactions : Z; max_total_bytes : Z }.

Record Entry := mkEntry {
  e_transaction : Transaction;
  e_txid : Hash256;
  e_fee : Z;
  e_size_bytes : Z;
}.

Record Mempool := mkMempool {
  limits_ : MempoolLimits;
  by_txid_ : gmap Hash256 Entry;
  spent_by_ : gmap OutPoint Hash256;
  total_bytes_ : Z;
}.

Definition new_mempool (limits : MempoolLimits) : Mempool := mkMempool limits ∅ ∅ 0.

(** ** 128-bit products *)

(** [mul_u64(x, y, hi, lo)], every operation on [std::uint64_t] *)
Definition mul_u64 (x y : Z) : Z * Z :=
  let kMask := 0xffffffff in
  let x0 := Z.land x kMask in
  let x1 := Z.shiftr x 32 in
  let y0 := Z.land y kMask in
  let y1 := Z.shiftr y 32 in
  let p00 := wrap64 (x0 * y0) in
  let p01 := wrap64 (x0 * y1) in
  let p10 := wrap64 (x1 * y0) in
  let p11 := wrap64 (x1 * y1) in
  let mid := wrap64 (Z.shiftr p00 32 + Z.land p01 kMask + Z.land p10 kMask) in
  let lo := Z.lor (Z.land p00 kMask) (wrap64 (Z.shiftl mid 32)) in
  let hi := wrap64 (p11 + Z.shiftr p01 32 + Z.shiftr p10 32 + Z.shiftr mid 32) in
  (hi, lo).

Definition u128_gte (lhs_hi lhs_lo rhs_hi rhs_lo : Z) : bool :=
  if negb (lhs_hi =? rhs_hi) then rhs_hi <? lhs_hi else rhs_lo <=? lhs_lo.

(** ** Policy *)

Definition check_min_relay_feerate (fee size_bytes : Z) (policy : MempoolPolicy) : Result unit :=
  if (min_relay_feerate policy =? 0) || (size_bytes =? 0) then mret tt
  else
    let '(required_hi, required_lo) := mul_u64 (min_relay_feerate policy) size_bytes in
    if negb (u128_gte 0 fee required_hi required_lo)
    then make_error kPolicyRejected "transaction fee rate below minimum relay feerate"
    else mret tt.

Definition validate_for_mempool (tx : Transaction) (utxos : UtxoSet) (policy : MempoolPolicy)
    : Result MempoolAdmission :=
  _ ← check_transaction_sanity tx;
  if is_coinbase tx
  then make_error kInvalidTransaction "coinbase cannot enter the mempool"
  else
    fee ← check_transaction_inputs tx utxos;
    let size_bytes := size_z (tx_to_bytes tx) in
    _ ← check_min_relay_feerate fee size_bytes policy;
    mret (mkMempoolAdmission fee size_bytes).

(** ** Fee-rate orders *)

Definition higher_feerate (a b : Entry) : bool :=
  let '(lhs_hi, lhs_lo) := mul_u64 (e_fee a) (e_size_bytes b) in
  let '(rhs_hi, rhs_lo) := mul_u64 (e_fee b) (e_size_bytes a) in
  if negb (lhs_hi =? rhs_hi) then rhs_hi <? lhs_hi
  else if negb (lhs_lo =? rhs_lo) then rhs_lo <? lhs_lo
  else Hash256Less (e_txid a) (e_txid b).

Definition strictly_higher_feerate (a b : Entry) : bool :=
  let '(lhs_hi, lhs_lo) := mul_u64 (e_fee a) (e_size_bytes b) in
  let '(rhs_hi, rhs_lo) := mul_u64 (e_fee b) (e_size_bytes a) in
  if negb (lhs_hi =? rhs_hi) then rhs_hi <? lhs_hi else rhs_lo <? lhs_lo.

Definition lower_feerate_for_eviction (a b : Entry) : bool :=
  if higher_feerate a b then false
  else if higher_feerate b a then true
  else negb (Hash256Less (e_txid a) (e_txid b)).

(** One iteration of [find_lowest_feerate], and the loop in the order of the map. *)
Definition worse_of (worst : option Entry) (entry : Entry) : option Entry :=
  match worst with
  | None => Some entry
  | Some w => if lower_feerate_for_eviction entry w then Some entry else Some w
  end.

Definition pool_entries (m : gmap Hash256 Entry) : list Entry := (in_order Hash256Less m).*2.

Definition find_lowest_feerate (m : gmap Hash256 Entry) : option Entry :=
  foldl worse_of None (pool_entries m).

(** ** Operations *)

Definition pool_size (m : Mempool) : Z := Z.of_nat (size (by_txid_ m)).

Definition pool_contains (id : Hash256) (m : Mempool) : bool :=
  match by_txid_ m !! id with Some _ => true | None => false end.

Definition pool_find (id : Hash256) (m : Mempool) : option Entry := by_txid_ m !! id.

Definition erase_spent (ins : list TxInput) (s : gmap OutPoint Hash256) : gmap OutPoint Hash256 :=
  foldl (λ s i, delete (prevout i) s) s ins.

(** [std::map::emplace] keeps the value already there. *)
Definition emplace_spent (id : Hash256) (ins : list TxInput) (s : gmap OutPoint Hash256)
    : gmap OutPoint Hash256 :=
  foldl (λ s i, match s !! prevout i with Some _ => s | None => <[prevout i := id]> s end) s ins.

Definition remove (id : Hash256) (m : Mempool) : Mempool :=
  match by_txid_ m !! id with
  | None => m
  | Some e =>
      mkMempool (limits_ m) (delete id (by_txid_ m))
        (erase_spent (inputs (e_transaction e)) (spent_by_ m))
        (wrap64 (total_bytes_ m - e_size_bytes e))
  end.

(** The condition of the [while] loop of [accept]. *)
Definition over_capacity (incoming : Entry) (m : Mempool) : bool :=
  (max_transactions (limits_ m) <? pool_size m + 1) ||
  (wrap64 (max_total_bytes (limits_ m) - e_size_bytes incoming) <? total_bytes_ m).

(** The loop: [None] when the fuel runs out. *)
Fixpoint evict_loop (fuel : nat) (incoming : Entry) (m : Mempool) : option (Mempool * Result unit) :=
  match fuel with
  | O => None
  | S fuel =>
      if over_capacity incoming m then
        let full := make_error kResourceLimitExceeded "mempool capacity limit reached" in
        match find_lowest_feerate (by_txid_ m) with
        | None => Some (m, full)
        | Some worst =>
            if negb (strictly_higher_feerate incoming worst) then Some (m, full)
            else evict_loop fuel incoming (remove (e_txid worst) m)
        end
      else Some (m, mret tt)
  end.

Definition insert_entry (incoming : Entry) (m : Mempool) : Mempool :=
  mkMempool (limits_ m)
    (match by_txid_ m !! e_txid incoming with
     | Some _ => by_txid_ m
     | None => <[e_txid incoming := incoming]> (by_txid_ m)
     end)
    (emplace_spent (e_txid incoming) (inputs (e_transaction incoming)) (spent_by_ m))
    (wrap64 (total_bytes_ m + e_size_bytes incoming)).

(** What [accept] does after admission: conflicts, eviction, insertion.  The answer without
    fuel is none of the source's; [accept_entry_run] shows that it is never given. *)
Definition accept_entry (incoming : Entry) (m : Mempool) : Mempool * Result unit :=
  if pool_contains (e_txid incoming) m
  then (m, make_error kInvalidTransaction "transaction already in mempool")
  else if existsb (λ i, bool_decide (is_Some (spent_by_ m !! prevout i))) (inputs (e_transaction incoming))
  then (m, make_error kInvalidTransaction "input conflicts with an in-mempool transaction")
  else
    match evict_loop (S (size (by_txid_ m))) incoming m with
    | None => (m, make_error kResourceLimitExceeded "out of fuel: excluded by evict_loop_run")
    | Some (m1, Err e) => (m1, Err e)
    | Some (m1, Ok _) =>
        if max_total_bytes (limits_ m1) <? e_size_bytes incoming
        then (m1, make_error kResourceLimitExceeded "transaction exceeds mempool byte limit")
        else (insert_entry incoming m1, mret tt)
    end.

Definition accept (tx : Transaction) (utxos : UtxoSet) (policy : MempoolPolicy) (m : Mempool)
    : Mempool * Result unit :=
  match validate_for_mempool tx utxos policy with
  | Err e => (m, Err e)
  | Ok adm => accept_entry (mkEntry tx (txid tx) (adm_fee adm) (adm_size_bytes adm)) m
  end.

Definition entries_by_feerate (m : Mempool) : list Entry :=
  std_sort higher_feerate (pool_entries (by_txid_ m)).

Definition sorted_transactions (m : Mempool) : list Transaction :=
  std_sort (λ a b, Hash256Less (txid a) (txid b)) (e_transaction <$> pool_entries (by_txid_ m)).

Fixpoint restore_mempool (utxos : UtxoSet) (txs : list Transaction) (policy : MempoolPolicy)
    (pool : Mempool) : Mempool * Result unit :=
  match txs with
  | [] => (pool, mret tt)
  | tx :: txs =>
      match accept tx utxos policy pool with
      | (pool, Ok _) => restore_mempool utxos txs policy pool
      | (pool, Err e) =>
          (pool, make_error kStorageCorruption
                   ("stored mempool transaction failed re-validation: " +:+ message e))
      end
  end.

(** ** Products and comparisons are exact *)

Lemma land_mask32 x : Z.land x 0xffffffff = x mod 2 ^ 32.
Proof. change 0xffffffff with (Z.ones 32). by apply Z.land_ones. Qed.

Lemma mul_u64_exact x y hi lo :
  is_u64 x → is_u64 y → mul_u64 x y = (hi, lo) →
  hi * 2 ^ 64 + lo = x * y ∧ is_u64 hi ∧ is_u64 lo.
Proof.
  intros Hx Hy. unfold mul_u64. rewrite !land_mask32, !Z.shiftr_div_pow2 by done.
  pose proof (Z.div_mod x (2 ^ 32) ltac:(done)) as Ex. pose proof (Z.div_mod y (2 ^ 32) ltac:(done)) as Ey.
  pose proof (Z.mod_pos_bound x (2 ^ 32) ltac:(done)) as Bx.
  pose proof (Z.mod_pos_bound y (2 ^ 32) ltac:(done)) as By.
  assert (0 ≤ x / 2 ^ 32 < 2 ^ 32) as Bx1 by (u_simpl; split; [apply Z.div_pos|apply Z.div_lt_upper_bound]; lia).
  assert (0 ≤ y / 2 ^ 32 < 2 ^ 32) as By1 by (u_simpl; split; [apply Z.div_pos|apply Z.div_lt_upper_bound]; lia).
  set (x0 := x mod 2 ^ 32) in *. set (x1 := x / 2 ^ 32) in *.
  set (y0 := y mod 2 ^ 32) in *. set (y1 := y / 2 ^ 32) in *. clearbody x0 x1 y0 y1.
  assert (∀ a b, 0 ≤ a < 2 ^ 32 → 0 ≤ b < 2 ^ 32 → 0 ≤ a * b ≤ (2 ^ 32 - 1) * (2 ^ 32 - 1)) as Hmul.
  { intros a b Ha Hb. u_simpl. nia. }
  pose proof (Hmul _ _ Bx By) as B00. pose proof (Hmul _ _ Bx By1) as B01.
  pose proof (Hmul _ _ Bx1 By) as B10. pose proof (Hmul _ _ Bx1 By1) as B11.
  assert (∀ z, 0 ≤ z ≤ (2 ^ 32 - 1) * (2 ^ 32 - 1) → wrap64 z = z) as Hw
    by (intros z Hz; apply wrap64_small; solve_u).
  rewrite (Hw _ B00), (Hw _ B01), (Hw _ B10), (Hw _ B11).
  assert (x * y = x1 * y1 * 2 ^ 64 + (x0 * y1 + x1 * y0) * 2 ^ 32 + x0 * y0) as Exy
    by (rewrite Ex, Ey; u_simpl; ring).
  set (p00 := x0 * y0) in *. set (p01 := x0 * y1) in *. set (p10 := x1 * y0) in *. set (p11 := x1 * y1) in *.
  clearbody p00 p01 p10 p11. clear Hmul Ex Ey.
  rewrite (wrap64_small (p00 / 2 ^ 32 + _ + _)) by solve_u_div.
  set (mid := p00 / 2 ^ 32 + p01 mod 2 ^ 32 + p10 mod 2 ^ 32) in *.
  assert (wrap64 (Z.shiftl mid 32) = Z.shiftl (mid mod 2 ^ 32) 32) as ->.
  { rewrite !Z.shiftl_mul_pow2 by done. solve_u_div. }
  rewrite lor_shiftl_add by solve_u_div.
  subst mid. intros [= <- <-]. rewrite wrap64_small by solve_u_div.
  split_and!; solve_u_div.
Qed.

Lemma check_min_relay_feerate_Ok fee sz policy :
  is_u64 fee → is_u64 sz → is_u64 (min_relay_feerate policy) →
  check_min_relay_feerate fee sz policy = Ok tt ↔ min_relay_feerate policy * sz ≤ fee.
Proof.
  intros Hf Hs Hr. unfold check_min_relay_feerate, u128_gte.
  destruct (_ || _) eqn:E0.
  { split; [intros _|done]. u_simpl. apply orb_true_iff in E0 as [E|E]; apply Z.eqb_eq in E; rewrite E; lia. }
  destruct (mul_u64 _ _) as [hi lo] eqn:Em.
  apply mul_u64_exact in Em as (Em & Hhi & Hlo); [|done..].
  destruct (negb (0 =? hi)) eqn:E1.
  - destruct (hi <? 0) eqn:E2; [solve_u|]. cbn [negb]. split; [intros H; discriminate H|solve_u].
  - destruct (lo <=? fee) eqn:E2; cbn [negb].
    + split; [intros _; solve_u|done].
    + split; [intros H; discriminate H|solve_u].
Qed.

(** ** Fee rates are totally ordered *)

(** The numbers of an entry are in range and its size is positive. *)
Definition entry_sized (e : Entry) : Prop := is_u64 (e_fee e) ∧ is_u64 (e_size_bytes e) ∧ 0 < e_size_bytes e.

(** Strictly higher fee per byte, as a fraction. *)
Definition rate_gt (a b : Entry) : Prop := e_fee b * e_size_bytes a < e_fee a * e_size_bytes b.

Lemma strictly_higher_feerate_spec a b :
  entry_sized a → entry_sized b → strictly_higher_feerate a b = true ↔ rate_gt a b.
Proof.
  intros (Ha & Hb & _) (Hc & Hd & _). unfold strictly_higher_feerate, rate_gt.
  destruct (mul_u64 (e_fee a) _) as [h1 l1] eqn:E1, (mul_u64 (e_fee b) _) as [h2 l2] eqn:E2.
  apply mul_u64_exact in E1 as (E1 & ? & ?), E2 as (E2 & ? & ?); [|done..].
  destruct (negb (h1 =? h2)) eqn:E; solve_u.
Qed.

Lemma higher_feerate_spec a b :
  entry_sized a → entry_sized b →
  higher_feerate a b = true ↔
  rate_gt a b ∨ (e_fee a * e_size_bytes b = e_fee b * e_size_bytes a ∧
                 Hash256Less (e_txid a) (e_txid b) = true).
Proof.
  intros (Ha & Hb & _) (Hc & Hd & _). unfold higher_feerate, rate_gt.
  destruct (mul_u64 (e_fee a) _) as [h1 l1] eqn:E1, (mul_u64 (e_fee b) _) as [h2 l2] eqn:E2.
  apply mul_u64_exact in E1 as (E1 & ? & ?), E2 as (E2 & ? & ?); [|done..].
  destruct (negb (h1 =? h2)) eqn:E; [solve_u|].
  destruct (negb (l1 =? l2)) eqn:E'; [solve_u|].
  split; [intros H'; right; split; [solve_u|done]|]. intros [?|[_ ?]]; [solve_u|done].
Qed.

Lemma rate_trans a b c :
  entry_sized a → entry_sized b → entry_sized c →
  e_fee b * e_size_bytes a ≤ e_fee a * e_size_bytes b →
  e_fee c * e_size_bytes b ≤ e_fee b * e_size_bytes c →
  e_fee c * e_size_bytes a ≤ e_fee a * e_size_bytes c ∧
  (rate_gt a b ∨ rate_gt b c → rate_gt a c).
Proof.
  intros (_ & _ & Ha) (_ & _ & Hb) (_ & _ & Hc). unfold rate_gt.
  set (fa := e_fee a). set (fb := e_fee b). set (fc := e_fee c).
  set (sa := e_size_bytes a) in *. set (sb := e_size_bytes b) in *. set (sc := e_size_bytes c) in *.
  clearbody fa fb fc sa sb sc. intros H1 H2.
  pose proof (Z.mul_le_mono_nonneg_r _ _ sc ltac:(lia) H1) as H1'.
  pose proof (Z.mul_le_mono_nonneg_r _ _ sa ltac:(lia) H2) as H2'. split.
  - apply (Z.mul_le_mono_pos_r _ _ sb); [done|]. lia.
  - intros [H|H]; apply (Z.mul_lt_mono_pos_r sb); try done.
    + apply (Z.mul_lt_mono_pos_r sc) in H; lia.
    + apply (Z.mul_lt_mono_pos_r sa) in H; lia.
Qed.

Lemma higher_feerate_asym a b : higher_feerate a b = true → higher_feerate b a = false.
Proof.
  unfold higher_feerate.
  destruct (mul_u64 (e_fee a) _) as [h1 l1], (mul_u64 (e_fee b) _) as [h2 l2].
  rewrite (Z.eqb_sym h2), (Z.eqb_sym l2).
  destruct (negb (h1 =? h2)); [lia|]. destruct (negb (l1 =? l2)); [lia|].
  apply (less_asym Hash256Less).
Qed.

Lemma higher_feerate_total a b :
  entry_sized a → entry_sized b → e_txid a ≠ e_txid b →
  higher_feerate a b = false → higher_feerate b a = true.
Proof.
  intros Ha Hb Hne H. destruct (higher_feerate b a) eqn:E; [done|exfalso].
  apply not_true_iff_false in H, E. rewrite higher_feerate_spec in H, E by done.
  unfold rate_gt in *. apply Hne, (less_total (less := Hash256Less)); apply not_true_iff_false; intros ?.
  - apply H. right. split; [lia|done].
  - apply E. right. split; [lia|done].
Qed.

Lemma higher_feerate_trans a b c :
  entry_sized a → entry_sized b → entry_sized c →
  higher_feerate a b = true → higher_feerate b c = true → higher_feerate a c = true.
Proof.
  intros Ha Hb Hc. rewrite !higher_feerate_spec by done. intros H1 H2.
  destruct (rate_trans a b c Ha Hb Hc) as [Hle Hlt].
  { unfold rate_gt in *. destruct H1 as [H|[H _]]; lia. }
  { unfold rate_gt in *. destruct H2 as [H|[H _]]; lia. }
  destruct H1 as [H1|[H1 L1]]; [left; auto|]. destruct H2 as [H2|[H2 L2]]; [left; auto|].
  destruct (rate_trans c b a Hc Hb Ha) as [Hle' _]; [lia..|].
  right. split; [lia|]. by eapply less_trans.
Qed.

(** [find_lowest_feerate] returns the entry every other one is ordered before. *)
Lemma lower_for_eviction_spec a b :
  entry_sized a → entry_sized b → e_txid a ≠ e_txid b →
  lower_feerate_for_eviction a b = higher_feerate b a.
Proof.
  intros Ha Hb Hne. unfold lower_feerate_for_eviction. destruct (higher_feerate a b) eqn:E1.
  - by rewrite higher_feerate_asym.
  - by rewrite (higher_feerate_total a b).
Qed.

Lemma foldl_worse_of l w :
  Forall entry_sized (w :: l) → NoDup (e_txid <$> w :: l) →
  ∃ w', foldl worse_of (Some w) l = Some w' ∧ w' ∈ w :: l ∧
    ∀ e, e ∈ w :: l → e = w' ∨ higher_feerate e w' = true.
Proof.
  revert w. induction l as [|e l IH]; intros w Hs Hnd.
  { exists w. split_and!; [done|left|]. intros e ->%list_elem_of_singleton. by left. }
  rewrite !Forall_cons in Hs. destruct Hs as (Hw & He & Hs). rewrite !fmap_cons in Hnd.
  apply NoDup_cons in Hnd as [Hnw [Hne Hnd]%NoDup_cons].
  apply not_elem_of_cons in Hnw as [Hwe Hnw]. cbn [foldl worse_of].
  rewrite lower_for_eviction_spec by done. destruct (higher_feerate w e) eqn:E.
  - destruct (IH e) as (w' & -> & Hin & Hmin); [by constructor|by constructor|].
    exists w'. split_and!; [done|by right|]. intros x [->|Hx]%elem_of_cons; [|by apply Hmin].
    right. destruct (Hmin e ltac:(left)) as [->|H']; [done|].
    eapply higher_feerate_trans; [done|exact He| |done|done].
    apply elem_of_cons in Hin as [->|Hin]; [done|]. rewrite Forall_forall in Hs. by apply Hs.
  - apply higher_feerate_total in E; [|done..].
    destruct (IH w) as (w' & -> & Hin & Hmin); [by constructor|by constructor|].
    exists w'. split_and!; [done| |].
    { apply elem_of_cons in Hin as [->|Hin]; [left|by right; right]. }
    intros x [->|[->|Hx]%elem_of_cons]%elem_of_cons; [apply Hmin; left| |apply Hmin; by right].
    right. destruct (Hmin w ltac:(left)) as [->|H']; [done|].
    eapply higher_feerate_trans; [done|exact Hw| |done|done].
    apply elem_of_cons in Hin as [->|Hin]; [done|]. rewrite Forall_forall in Hs. by apply Hs.
Qed.

(** ** The invariant of the pool *)

Record entry_ok (e : Entry) : Prop := {
  eo_txid : e_txid e = txid (e_transaction e);
  eo_size : e_size_bytes e = size_z (tx_to_bytes (e_transaction e));
  eo_fee : is_u64 (e_fee e);
  eo_typed : tx_typed (e_transaction e);
  eo_sane : tx_sane (e_transaction e);
  eo_coinbase : is_coinbase (e_transaction e) = false;
}.

Record pool_wf (m : Mempool) : Prop := {
  pw_entries : map_Forall (λ id e, e_txid e = id ∧ entry_ok e) (by_txid_ m);
  pw_spent : ∀ o id, spent_by_ m !! o = Some id ↔
    ∃ e, by_txid_ m !! id = Some e ∧ o ∈ prevout <$> inputs (e_transaction e);
  pw_bytes : total_bytes_ m = map_sum e_size_bytes (by_txid_ m);
  pw_count : pool_size m ≤ max_transactions (limits_ m);
  pw_total : total_bytes_ m ≤ max_total_bytes (limits_ m);
  pw_limits : is_u32 (max_transactions (limits_ m)) ∧ is_u64 (max_total_bytes (limits_ m));
}.

Lemma new_mempool_wf limits :
  is_u32 (max_transactions limits) → is_u64 (max_total_bytes limits) → pool_wf (new_mempool limits).
Proof.
  intros H1 H2. split; cbn; [apply map_Forall_empty| |by rewrite map_sum_empty|
    unfold pool_size; cbn; rewrite map_size_empty; solve_u|solve_u|done].
  intros o id. rewrite !lookup_empty. split; [done|]. intros (e & H & _). discriminate H.
Qed.

Lemma entry_ok_sized e : entry_ok e → entry_sized e.
Proof.
  intros [_ Hs Hf Hty Hsane _]. unfold entry_sized. rewrite Hs.
  pose proof (sane_size _ Hsane) as Hle. change kMaxTransactionSizeBytes with 65536 in Hle.
  assert (0 < size_z (tx_to_bytes (e_transaction e))) by (rewrite tx_to_bytes_enc, length_enc_tx; lia || done).
  split_and!; [done|solve_u|done].
Qed.

Lemma elem_of_pool_entries m e :
  e ∈ pool_entries m ↔ ∃ id, m !! id = Some e.
Proof.
  unfold pool_entries. rewrite list_elem_of_fmap. split.
  - intros ([id e'] & -> & H%elem_of_in_order). by exists id.
  - intros [id H]. exists (id, e). split; [done|]. by apply elem_of_in_order.
Qed.

Section Pool.
Context (m : Mempool) (Hm : pool_wf m).

Lemma pool_entry id e : by_txid_ m !! id = Some e → e_txid e = id ∧ entry_ok e.
Proof. apply (pw_entries _ Hm). Qed.

Lemma pool_entries_ok e : e ∈ pool_entries (by_txid_ m) → by_txid_ m !! e_txid e = Some e ∧ entry_ok e.
Proof. intros [id H]%elem_of_pool_entries. by destruct (pool_entry _ _ H) as [<- ?]. Qed.

Lemma pool_entries_txids : e_txid <$> pool_entries (by_txid_ m) = (in_order Hash256Less (by_txid_ m)).*1.
Proof.
  unfold pool_entries. rewrite <- list_fmap_compose. apply list_fmap_ext.
  intros k [id e] H. apply list_elem_of_lookup_2, elem_of_in_order, pool_entry in H as [<- _]. done.
Qed.

Lemma pool_entries_nodup : NoDup (e_txid <$> pool_entries (by_txid_ m)).
Proof. rewrite pool_entries_txids, in_order_perm. apply NoDup_fst_map_to_list. Qed.

Lemma pool_entries_sized : Forall entry_sized (pool_entries (by_txid_ m)).
Proof. apply Forall_forall. intros e [_ ?]%pool_entries_ok. by apply entry_ok_sized. Qed.

Lemma length_pool_entries : length (pool_entries (by_txid_ m)) = size (by_txid_ m).
Proof. unfold pool_entries. by rewrite length_fmap, length_in_order. Qed.

(** No two entries spend the same output. *)
Lemma pool_conflict_free id1 id2 e1 e2 o :
  by_txid_ m !! id1 = Some e1 → by_txid_ m !! id2 = Some e2 →
  o ∈ prevout <$> inputs (e_transaction e1) → o ∈ prevout <$> inputs (e_transaction e2) → id1 = id2.
Proof.
  intros H1 H2 Ho1 Ho2.
  assert (spent_by_ m !! o = Some id1) as E1 by (apply (pw_spent _ Hm); eauto).
  assert (spent_by_ m !! o = Some id2) as E2 by (apply (pw_spent _ Hm); eauto). congruence.
Qed.

Lemma pool_bytes_le id e : by_txid_ m !! id = Some e → 0 ≤ e_size_bytes e ≤ total_bytes_ m.
Proof.
  intros He. rewrite (pw_bytes _ Hm). split.
  - destruct (pool_entry _ _ He) as [_ Hok%entry_ok_sized]. destruct Hok as (_ & _ & ?). lia.
  - apply (map_sum_lookup_le _ _ id); [|done]. intros k x Hx.
    destruct (pool_entry _ _ Hx) as [_ Hok%entry_ok_sized]. destruct Hok as (_ & _ & ?). lia.
Qed.

Lemma find_lowest_Some w :
  find_lowest_feerate (by_txid_ m) = Some w →
  by_txid_ m !! e_txid w = Some w ∧ entry_ok w ∧
  ∀ id e, by_txid_ m !! id = Some e → e = w ∨ higher_feerate e w = true.
Proof.
  unfold find_lowest_feerate. pose proof pool_entries_sized as Hs. pose proof pool_entries_nodup as Hnd.
  pose proof pool_entries_ok as Hok. pose proof (elem_of_pool_entries (by_txid_ m)) as Hel.
  destruct (pool_entries (by_txid_ m)) as [|e l]; [done|]. cbn [foldl worse_of].
  destruct (foldl_worse_of l e Hs Hnd) as (w' & -> & Hin & Hmin). intros [= <-].
  destruct (Hok _ Hin). split_and!; [done..|]. intros id x Hx. apply Hmin, Hel. by exists id.
Qed.

Lemma find_lowest_None : find_lowest_feerate (by_txid_ m) = None → by_txid_ m = ∅.
Proof.
  unfold find_lowest_feerate. pose proof pool_entries_sized as Hs. pose proof pool_entries_nodup as Hnd.
  pose proof length_pool_entries as Hlen. destruct (pool_entries (by_txid_ m)) as [|e l].
  - intros _. by apply map_size_empty_inv.
  - cbn [foldl worse_of]. by destruct (foldl_worse_of l e Hs Hnd) as (w' & -> & _).
Qed.
End Pool.

(** ** Removal *)

Lemma lookup_erase_spent ins s o :
  erase_spent ins s !! o = if decide (o ∈ prevout <$> ins) then None else s !! o.
Proof.
  unfold erase_spent. revert s. induction ins as [|i ins IH]; intros s; cbn [foldl].
  { by rewrite decide_False by apply not_elem_of_nil. }
  rewrite IH, fmap_cons. destruct (decide (o = prevout i)) as [->|Hne].
  - rewrite lookup_delete_eq, (decide_True _ _ (list_elem_of_here _ _)). by case_decide.
  - rewrite lookup_delete_ne by done. repeat case_decide; set_solver.
Qed.

Lemma remove_by_txid id m : by_txid_ (remove id m) = delete id (by_txid_ m).
Proof.
  unfold remove. destruct (by_txid_ m !! id) eqn:E; [done|]. by rewrite delete_id.
Qed.

Lemma remove_limits id m : limits_ (remove id m) = limits_ m.
Proof. unfold remove. by destruct (by_txid_ m !! id). Qed.

Lemma remove_bytes id e m :
  pool_wf m → by_txid_ m !! id = Some e → total_bytes_ (remove id m) = total_bytes_ m - e_size_bytes e.
Proof.
  intros Hm He. unfold remove. rewrite He. cbn [total_bytes_]. apply wrap64_small.
  pose proof (pool_bytes_le m Hm _ _ He). pose proof (pw_total _ Hm). destruct (pw_limits _ Hm). solve_u.
Qed.

Lemma remove_wf id m : pool_wf m → pool_wf (remove id m).
Proof.
  intros Hm. destruct (by_txid_ m !! id) as [e|] eqn:He.
  2: { unfold remove. by rewrite He. }
  pose proof (remove_bytes _ _ _ Hm He) as Hb. pose proof (pool_bytes_le m Hm _ _ He) as Hle.
  split; rewrite ?remove_limits, ?remove_by_txid.
  - apply map_Forall_delete, Hm.
  - intros o id'. assert (spent_by_ (remove id m) = erase_spent (inputs (e_transaction e)) (spent_by_ m)) as ->
      by (unfold remove; by rewrite He).
    rewrite lookup_erase_spent. case_decide as Ho.
    + split; [done|]. intros (e' & [Hne He']%lookup_delete_Some & Ho'). destruct Hne.
      by eapply pool_conflict_free.
    + rewrite (pw_spent _ Hm). split; intros (e' & He' & Ho'); exists e'.
      * split; [|done]. rewrite lookup_delete_ne; [done|]. intros <-. by simplify_eq.
      * by apply lookup_delete_Some in He' as [_ ?].
  - rewrite Hb, (pw_bytes _ Hm), (map_sum_delete _ _ _ _ He). lia.
  - pose proof (pw_count _ Hm). unfold pool_size in *. rewrite remove_by_txid.
    rewrite map_size_delete, He. lia.
  - pose proof (pw_total _ Hm). lia.
  - apply Hm.
Qed.

(** ** Eviction and admission *)

(** [m'] is [m] without some entries, each of which pays strictly less per byte than
    the incoming one and is ordered after every entry that stays. *)
Record evicted (incoming : Entry) (m m' : Mempool) : Prop := {
  ev_limits : limits_ m' = limits_ m;
  ev_sub : by_txid_ m' ⊆ by_txid_ m;
  ev_rate : ∀ id e, by_txid_ m !! id = Some e → by_txid_ m' !! id = None →
    rate_gt incoming e ∧
    ∀ id' e', by_txid_ m' !! id' = Some e' → higher_feerate e' e = true;
}.

Lemma evicted_refl inc m : evicted inc m m.
Proof. split; [done..|]. intros id e H1 H2. congruence. Qed.

Lemma evicted_trans inc m1 m2 m3 : evicted inc m1 m2 → evicted inc m2 m3 → evicted inc m1 m3.
Proof.
  intros [L1 S1 R1] [L2 S2 R2]. split; [congruence|by etrans|]. intros id e He Hn.
  destruct (by_txid_ m2 !! id) as [e2|] eqn:E2.
  - rewrite (lookup_weaken _ _ _ _ E2 S1) in He. simplify_eq. by apply (R2 id).
  - destruct (R1 id e He E2) as [? Hall]. split; [done|]. intros id' e' He'.
    eapply Hall, lookup_weaken; done.
Qed.

Lemma evict_one inc w m :
  pool_wf m → entry_sized inc → find_lowest_feerate (by_txid_ m) = Some w →
  strictly_higher_feerate inc w = true → evicted inc m (remove (e_txid w) m).
Proof.
  intros Hm Hi Hw Hs. apply find_lowest_Some in Hw as (Hw & Hok & Hmin); [|done].
  apply strictly_higher_feerate_spec in Hs; [|done|by apply entry_ok_sized].
  split; [apply remove_limits|rewrite remove_by_txid; apply delete_subseteq|].
  rewrite remove_by_txid. intros id e He [<-|Hn]%lookup_delete_None; [|congruence].
  simplify_eq. split; [done|]. intros id' e' [Hne He']%lookup_delete_Some.
  destruct (Hmin _ _ He') as [->|?]; [|done]. by destruct (pool_entry m Hm _ _ He').
Qed.

(** *** What eviction can achieve *)

#[global] Instance rate_gt_dec a b : Decision (rate_gt a b).
Proof. unfold rate_gt. apply _. Defined.

(** The entries that the incoming one cannot evict. *)
Definition not_cheaper (incoming : Entry) (es : gmap Hash256 Entry) : gmap Hash256 Entry :=
  filter (λ kv, ¬ rate_gt incoming kv.2) es.

(** Both limits hold for these entries and the incoming one. *)
Definition has_room (incoming : Entry) (limits : MempoolLimits) (es : gmap Hash256 Entry) : Prop :=
  Z.of_nat (size es) + 1 ≤ max_transactions limits ∧
  map_sum e_size_bytes es + e_size_bytes incoming ≤ max_total_bytes limits.

(** No entry more than needed is gone: without the last eviction there was no room. *)
Definition needed (incoming : Entry) (m m' : Mempool) : Prop :=
  by_txid_ m' = by_txid_ m ∨
  ∃ id e, by_txid_ m !! id = Some e ∧ by_txid_ m' !! id = None ∧
    ¬ has_room incoming (limits_ m) (<[id := e]> (by_txid_ m')).

Lemma not_cheaper_sub inc es : not_cheaper inc es ⊆ es.
Proof. apply map_filter_subseteq. Qed.

Lemma not_cheaper_evicted inc m m' : evicted inc m m' → not_cheaper inc (by_txid_ m') = not_cheaper inc (by_txid_ m).
Proof.
  intros [_ Hsub Hrate]. apply map_eq. intros id. unfold not_cheaper. apply option_eq. intros e.
  rewrite !map_lookup_filter_Some. cbn. split; intros [He Hr]; (split; [|done]); [by eapply lookup_weaken|].
  destruct (by_txid_ m' !! id) as [e'|] eqn:E.
  - rewrite (lookup_weaken _ _ _ _ E Hsub) in He. done.
  - by destruct (Hrate id e He E).
Qed.

Section Room.
Context (inc : Entry) (m : Mempool) (Hm : pool_wf m) (Hi : entry_sized inc).

Lemma sizes_nonneg : map_Forall (λ _ e, 0 ≤ e_size_bytes e) (by_txid_ m).
Proof. intros id e He. apply (pool_bytes_le m Hm _ _ He). Qed.

Lemma over_no_room : over_capacity inc m = true → ¬ has_room inc (limits_ m) (by_txid_ m).
Proof.
  destruct Hi as (_ & Hu & Hpos), (pw_limits _ Hm) as [_ Hl]. pose proof (map_sum_nonneg _ _ sizes_nonneg) as Hn.
  unfold over_capacity, has_room, pool_size. rewrite (pw_bytes _ Hm). intros H [Hc Hb].
  rewrite wrap64_small in H by solve_u. lia.
Qed.

Lemma room_over : over_capacity inc m = false → e_size_bytes inc ≤ max_total_bytes (limits_ m) →
  has_room inc (limits_ m) (by_txid_ m).
Proof.
  destruct Hi as (_ & Hu & Hpos), (pw_limits _ Hm) as [_ Hl]. unfold over_capacity, has_room, pool_size.
  rewrite (pw_bytes _ Hm). intros H Hle. rewrite wrap64_small in H by solve_u. lia.
Qed.

Lemma room_less es : es ⊆ by_txid_ m → has_room inc (limits_ m) (by_txid_ m) → has_room inc (limits_ m) es.
Proof.
  intros Hsub [Hc Hb]. pose proof (map_subseteq_size _ _ Hsub).
  pose proof (map_sum_subseteq e_size_bytes _ _ sizes_nonneg Hsub). split; lia.
Qed.

Lemma too_big_no_room es : es ⊆ by_txid_ m → max_total_bytes (limits_ m) < e_size_bytes inc →
  ¬ has_room inc (limits_ m) es.
Proof.
  intros Hsub Hlt [_ Hb]. assert (0 ≤ map_sum e_size_bytes es); [|lia]. apply map_sum_nonneg.
  intros id e He. by eapply sizes_nonneg, lookup_weaken.
Qed.

(** When the lowest fee rate is not lower than the incoming one, no rate is. *)
Lemma none_cheaper : (∀ w, find_lowest_feerate (by_txid_ m) = Some w → strictly_higher_feerate inc w = false) →
  not_cheaper inc (by_txid_ m) = by_txid_ m.
Proof.
  intros Hw. apply map_filter_id. intros id e He Hr. cbn in Hr.
  destruct (find_lowest_feerate (by_txid_ m)) as [w|] eqn:E.
  2: { apply find_lowest_None in E; [|done]. by rewrite E in He. }
  pose proof E as (_ & Hok%entry_ok_sized & Hmin)%find_lowest_Some; [|done].
  destruct (pool_entry m Hm _ _ He) as [_ He'%entry_ok_sized]. specialize (Hw w eq_refl).
  apply not_true_iff_false in Hw. apply Hw, strictly_higher_feerate_spec; [done..|].
  destruct (Hmin _ _ He) as [->|Hhi]; [done|]. apply higher_feerate_spec in Hhi; [|done..].
  assert (e_fee e * e_size_bytes inc ≤ e_fee inc * e_size_bytes e) as H1 by (unfold rate_gt in Hr; lia).
  assert (e_fee w * e_size_bytes e ≤ e_fee e * e_size_bytes w) as H2 by (unfold rate_gt in Hhi; lia).
  apply (rate_trans inc e w); auto.
Qed.
End Room.

(** The loop ends for every pool that is well formed: it makes the room that is needed by
    evicting the cheapest entries, or has evicted all that are cheaper and still has none. *)
Lemma evict_loop_run fuel inc m :
  pool_wf m → entry_sized inc → (size (by_txid_ m) < fuel)%nat →
  ∃ m' r, evict_loop fuel inc m = Some (m', r) ∧ pool_wf m' ∧ evicted inc m m' ∧
    (r = Ok tt ∧ over_capacity inc m' = false ∧ needed inc m m' ∨
     r = make_error kResourceLimitExceeded "mempool capacity limit reached" ∧
     ¬ has_room inc (limits_ m) (not_cheaper inc (by_txid_ m))).
Proof.
  revert m. induction fuel as [|fuel IH]; intros m Hm Hi Hf; [lia|]. cbn [evict_loop].
  destruct (over_capacity inc m) eqn:Eo.
  2: { exists m, (Ok tt). split_and!; [done..|apply evicted_refl|left]. by split_and!; [..|left]. }
  assert ((∀ w, find_lowest_feerate (by_txid_ m) = Some w → strictly_higher_feerate inc w = false) →
    ¬ has_room inc (limits_ m) (not_cheaper inc (by_txid_ m))) as Hfull.
  { intros Hw. rewrite (none_cheaper inc m Hm Hi Hw). by apply over_no_room. }
  destruct (find_lowest_feerate (by_txid_ m)) as [w|] eqn:Ew.
  2: { eexists m, _. split_and!; [done..|apply evicted_refl|right]. split; [done|]. apply Hfull. by intros w. }
  destruct (strictly_higher_feerate inc w) eqn:Es; cbn [negb].
  2: { eexists m, _. split_and!; [done..|apply evicted_refl|right]. split; [done|]. apply Hfull. congruence. }
  pose proof (evict_one _ _ _ Hm Hi Ew Es) as Hev.
  apply find_lowest_Some in Ew as (Hw & _ & _); [|done].
  destruct (IH (remove (e_txid w) m)) as (m' & r & -> & Hm' & Hev' & Hr); [by apply remove_wf|done| |].
  { assert (0 < size (by_txid_ m))%nat.
    { destruct (size (by_txid_ m)) eqn:E; [|lia]. apply map_size_empty_inv in E. by rewrite E in Hw. }
    rewrite remove_by_txid, map_size_delete, Hw. lia. }
  exists m', r. split_and!; [done..|by eapply evicted_trans|].
  rewrite (not_cheaper_evicted _ _ _ Hev), (ev_limits _ _ _ Hev) in Hr.
  destruct Hr as [(-> & Hcap & Hn)|Hr]; [left; split_and!; [done..|]|by right].
  right. unfold needed in Hn. rewrite remove_by_txid, (ev_limits _ _ _ Hev) in Hn.
  destruct Hn as [->|(id & e & [_ He]%lookup_delete_Some & Hne & Hroom)]; [|by exists id, e].
  exists (e_txid w), w. split; [done|]. rewrite lookup_delete_eq, insert_delete_id by done. split; [done|].
  by apply over_no_room.
Qed.

(** More fuel changes nothing. *)
Lemma evict_loop_more fuel fuel' inc m out :
  evict_loop fuel inc m = Some out → (fuel ≤ fuel')%nat → evict_loop fuel' inc m = Some out.
Proof.
  revert fuel' m. induction fuel as [|fuel IH]; intros [|fuel'] m H Hle; [done..|lia|]. cbn [evict_loop] in *.
  destruct (over_capacity inc m); [|done]. destruct (find_lowest_feerate _) as [w|]; [|done].
  destruct (strictly_higher_feerate inc w); cbn [negb] in *; [apply IH; [done|lia]|done].
Qed.

Lemma lookup_emplace_spent id ins s o :
  (∀ o', o' ∈ prevout <$> ins → s !! o' = None) →
  emplace_spent id ins s !! o = if decide (o ∈ prevout <$> ins) then Some id else s !! o.
Proof.
  unfold emplace_spent. revert s o.
  assert (∀ ins (s : gmap OutPoint Hash256), (∀ o', o' ∈ prevout <$> ins → s !! o' = None ∨ s !! o' = Some id) →
    ∀ o, foldl (λ s i, match s !! prevout i with Some _ => s | None => <[prevout i := id]> s end) s ins !! o =
      if decide (o ∈ prevout <$> ins) then Some id else s !! o) as H.
  2: { intros s o Hn. apply H. intros o' Ho'. left. by apply Hn. }
  clear ins. induction ins as [|i ins IH]; intros s Hs o; cbn [foldl].
  { by rewrite decide_False by apply not_elem_of_nil. }
  rewrite fmap_cons in *. destruct (Hs (prevout i) ltac:(left)) as [E|E]; rewrite E.
  - rewrite IH.
    + destruct (decide (o = prevout i)) as [->|Hne].
      * rewrite lookup_insert_eq, (decide_True _ _ (list_elem_of_here _ _)). by case_decide.
      * rewrite lookup_insert_ne by done. repeat case_decide; set_solver.
    + intros o' Ho'. destruct (decide (o' = prevout i)) as [->|Hne].
      * right. apply lookup_insert_eq.
      * rewrite lookup_insert_ne by done. apply Hs. by right.
  - rewrite IH by (intros o' Ho'; apply Hs; by right).
    destruct (decide (o = prevout i)) as [->|Hne].
    + rewrite (decide_True _ _ (list_elem_of_here _ _)). by case_decide.
    + repeat case_decide; set_solver.
Qed.

(** The incoming entry can be stored as it is. *)
Record insertable (incoming : Entry) (m : Mempool) : Prop := {
  ins_new : by_txid_ m !! e_txid incoming = None;
  ins_free : ∀ o, o ∈ prevout <$> inputs (e_transaction incoming) → spent_by_ m !! o = None;
  ins_count : pool_size m + 1 ≤ max_transactions (limits_ m);
  ins_bytes : total_bytes_ m + e_size_bytes incoming ≤ max_total_bytes (limits_ m);
}.

Lemma insert_entry_by_txid inc m :
  insertable inc m → by_txid_ (insert_entry inc m) = <[e_txid inc := inc]> (by_txid_ m).
Proof. intros [Hn _ _ _]. cbn. by rewrite Hn. Qed.

Lemma insert_entry_wf inc m : pool_wf m → entry_ok inc → insertable inc m → pool_wf (insert_entry inc m).
Proof.
  intros Hm Hok Hins. pose proof (insert_entry_by_txid _ _ Hins) as Eb.
  destruct (entry_ok_sized _ Hok) as (_ & _ & Hpos). pose proof Hins as [Hn Hfree Hc Hb].
  assert (0 ≤ total_bytes_ m) as Htot.
  { rewrite (pw_bytes _ Hm). apply map_sum_nonneg. intros id e He.
    apply (pool_bytes_le m Hm _ _ He). }
  assert (total_bytes_ (insert_entry inc m) = total_bytes_ m + e_size_bytes inc) as Et.
  { apply wrap64_small. destruct (pw_limits _ Hm). solve_u. }
  split; rewrite ?Eb, ?Et.
  - apply map_Forall_insert; [done|]. split; [done|apply Hm].
  - intros o id. cbn [insert_entry spent_by_]. rewrite lookup_emplace_spent by done.
    case_decide as Ho.
    + split.
      * intros [= <-]. exists inc. by rewrite lookup_insert_eq.
      * intros (e & [[<- <-]|[Hne He]]%lookup_insert_Some & Ho'); [done|].
        assert (spent_by_ m !! o = Some id) by (apply (pw_spent _ Hm); eauto).
        rewrite Hfree in *; done.
    + rewrite (pw_spent _ Hm). split; intros (e & He & Ho'); exists e; split; try done.
      * rewrite lookup_insert_ne; [done|]. intros <-. congruence.
      * apply lookup_insert_Some in He as [[<- <-]|[_ ?]]; done.
  - rewrite map_sum_insert by done. rewrite (pw_bytes _ Hm). lia.
  - unfold pool_size in *. rewrite Eb, map_size_insert_None by done. cbn [limits_ insert_entry]. lia.
  - done.
  - apply Hm.
Qed.

(** The entry is in the pool already, or one of its inputs is spent there. *)
Definition taken (inc : Entry) (m : Mempool) : Prop :=
  is_Some (by_txid_ m !! e_txid inc) ∨
  ∃ o, o ∈ prevout <$> inputs (e_transaction inc) ∧ is_Some (spent_by_ m !! o).

Lemma not_taken inc m : ¬ taken inc m →
  by_txid_ m !! e_txid inc = None ∧ ∀ o, o ∈ prevout <$> inputs (e_transaction inc) → spent_by_ m !! o = None.
Proof.
  intros H. split; [|intros o Ho]; apply eq_None_not_Some; intros Hs; apply H; [by left|right]. by exists o.
Qed.

(** The two errors of [accept] for want of room. *)
Inductive no_room_error : Error → Prop :=
  | nr_capacity : no_room_error (mkError kResourceLimitExceeded "mempool capacity limit reached")
  | nr_bytes : no_room_error (mkError kResourceLimitExceeded "transaction exceeds mempool byte limit").

(** [accept_entry] never runs out of fuel: it stores the entry after the evictions
    that were needed, or reports why it does not. *)
Lemma accept_entry_run inc m m' r :
  pool_wf m → entry_ok inc → accept_entry inc m = (m', r) →
  pool_wf m' ∧
  match r with
  | Ok _ => ∃ m1, evicted inc m m1 ∧ needed inc m m1 ∧ insertable inc m1 ∧ m' = insert_entry inc m1 ∧
      ¬ taken inc m ∧ has_room inc (limits_ m) (not_cheaper inc (by_txid_ m))
  | Err e => code e = kInvalidTransaction ∧ m' = m ∧ taken inc m ∨
             no_room_error e ∧ evicted inc m m' ∧ ¬ taken inc m ∧
             ¬ has_room inc (limits_ m) (not_cheaper inc (by_txid_ m))
  end.
Proof.
  intros Hm Hok. pose proof (entry_ok_sized _ Hok) as Hs. unfold accept_entry, pool_contains.
  destruct (by_txid_ m !! e_txid inc) as [e0|] eqn:E0.
  { intros [= <- <-]. split; [done|left]. split_and!; [done..|]. left. by rewrite E0. }
  destruct (existsb _ _) eqn:Ex.
  { apply existsb_exists in Ex as (i & Hi%list_elem_of_In & Hid%bool_decide_eq_true_1).
    intros [= <- <-]. split; [done|left]. split_and!; [done..|]. right. exists (prevout i). split; [|done].
    apply list_elem_of_fmap. by exists i. }
  assert (∀ o, o ∈ prevout <$> inputs (e_transaction inc) → spent_by_ m !! o = None) as Hfree.
  { intros o (i & -> & Hi)%list_elem_of_fmap. destruct (spent_by_ m !! prevout i) eqn:E; [|done].
    assert (existsb (λ i, bool_decide (is_Some (spent_by_ m !! prevout i))) (inputs (e_transaction inc)) = true);
      [|congruence].
    apply existsb_exists. exists i. split; [by apply list_elem_of_In|].
    apply bool_decide_eq_true_2. by eexists. }
  assert (¬ taken inc m) as Hnt.
  { intros [H|(o & Ho & H)]; [rewrite E0 in H|rewrite (Hfree _ Ho) in H]; by destruct H. }
  destruct (evict_loop_run (S (size (by_txid_ m))) inc m) as (m1 & r1 & -> & Hm1 & Hev & Hr); [done..|lia|].
  pose proof Hev as [Hl Hsub _].
  destruct Hr as [(-> & Hcap & Hneed)|[-> Hno]].
  2: { intros [= <- <-]. split; [done|right]. by split_and!; [constructor|..]. }
  destruct (_ <? _) eqn:Eb.
  { intros [= <- <-]. split; [done|right]. split_and!; [constructor|done..|].
    apply (too_big_no_room inc m Hm); [apply not_cheaper_sub|rewrite <- Hl; lia]. }
  assert (insertable inc m1) as Hins.
  { pose proof Hcap as [Hc1 Hc2]%orb_false_iff.
    split.
    - by eapply lookup_weaken_None.
    - intros o Ho. destruct (spent_by_ m1 !! o) as [id|] eqn:E; [|done].
      apply (pw_spent _ Hm1) in E as (e & He & Hoe).
      assert (spent_by_ m !! o = Some id); [|by rewrite Hfree in *].
      apply (pw_spent _ Hm). exists e. split; [by eapply lookup_weaken|done].
    - lia.
    - destruct Hs as (_ & ? & ?). destruct (pw_limits _ Hm1). rewrite wrap64_small in Hc2 by solve_u. lia. }
  intros [= <- <-]. split; [by apply insert_entry_wf|]. exists m1. split_and!; [done..|].
  rewrite <- Hl, <- (not_cheaper_evicted _ _ _ Hev). apply (room_less inc m1 Hm1); [apply not_cheaper_sub|].
  apply room_over; [done..|lia].
Qed.

(** ** Admission by transaction *)

Definition policy_wf (policy : MempoolPolicy) : Prop := is_u64 (min_relay_feerate policy).

Lemma validate_for_mempool_Ok tx utxos policy fee sz :
  tx_typed tx → utxos_wf utxos → policy_wf policy →
  validate_for_mempool tx utxos policy = Ok (mkMempoolAdmission fee sz) ↔
  tx_sane tx ∧ is_coinbase tx = false ∧ sz = size_z (tx_to_bytes tx) ∧
  check_transaction_inputs tx utxos = Ok fee ∧ min_relay_feerate policy * sz ≤ fee.
Proof.
  intros Hty Hwf Hp. unfold validate_for_mempool.
  assert (∀ fee, tx_sane tx → check_transaction_inputs tx utxos = Ok fee →
    is_u64 fee ∧ is_u64 (size_z (tx_to_bytes tx))) as Hu.
  { intros f Hs Hf. apply check_transaction_inputs_Ok in Hf as (cs & _ & Hle & Ef & Hf0); [|done..].
    pose proof (sane_size _ Hs) as Hsz. change kMaxTransactionSizeBytes with 65536 in Hsz.
    pose proof (out_value_nonneg tx Hty). split; solve_u. }
  split.
  - intros ([] & Hs%check_transaction_sanity_Ok & H)%bind_Ok; [|done].
    destruct (is_coinbase tx) eqn:Ec; [discriminate H|]. apply bind_Ok in H as (f & Hf & H).
    apply bind_Ok in H as ([] & Hr & [= <- <-]). destruct (Hu f Hs Hf).
    apply check_min_relay_feerate_Ok in Hr; [|done..]. done.
  - intros (Hs & Hc & -> & Hf & Hr). rewrite (proj2 (check_transaction_sanity_Ok tx Hty) Hs). rsimpl.
    rewrite Hc, Hf. rsimpl. destruct (Hu fee Hs Hf).
    rewrite (proj2 (check_min_relay_feerate_Ok fee _ policy ltac:(done) ltac:(done) Hp) Hr). done.
Qed.

Lemma accept_run tx utxos policy m m' r :
  pool_wf m → tx_typed tx → utxos_wf utxos → policy_wf policy →
  accept tx utxos policy m = (m', r) →
  let inc fee := mkEntry tx (txid tx) fee (size_z (tx_to_bytes tx)) in
  let admitted fee := validate_for_mempool tx utxos policy = Ok (mkMempoolAdmission fee (size_z (tx_to_bytes tx))) in
  pool_wf m' ∧
  match r with
  | Ok _ => ∃ fee m1, admitted fee ∧ evicted (inc fee) m m1 ∧ needed (inc fee) m m1 ∧ insertable (inc fee) m1 ∧
      m' = insert_entry (inc fee) m1 ∧
      ¬ taken (inc fee) m ∧ has_room (inc fee) (limits_ m) (not_cheaper (inc fee) (by_txid_ m))
  | Err e =>
      m' = m ∧ validate_for_mempool tx utxos policy = Err e ∨
      ∃ fee, admitted fee ∧
        (code e = kInvalidTransaction ∧ m' = m ∧ taken (inc fee) m ∨
         no_room_error e ∧ evicted (inc fee) m m' ∧ ¬ taken (inc fee) m ∧
         ¬ has_room (inc fee) (limits_ m) (not_cheaper (inc fee) (by_txid_ m)))
  end.
Proof.
  intros Hm Hty Hwf Hp. unfold accept.
  destruct (validate_for_mempool tx utxos policy) as [[fee sz]|e] eqn:Ev.
  2: { intros [= <- <-]. split; [done|by left]. }
  pose proof Ev as (Hs & Hc & -> & Hf & _)%validate_for_mempool_Ok; [|done..].
  cbn [adm_fee adm_size_bytes]. intros H.
  apply accept_entry_run in H as [Hm' Hr]; [|done|].
  - split; [done|]. destruct r as [[]|e]; [|right; by exists fee].
    destruct Hr as (m1 & Hr). by exists fee, m1.
  - apply check_transaction_inputs_Ok in Hf as (cs & _ & Hle & Ef & Hf0); [|done..].
    pose proof (out_value_nonneg tx Hty). split; cbn; try done. solve_u.
Qed.

(** ** Orderings *)

Lemma StronglySorted_fmap {A B} (R : relation B) (f : A → B) (l : list A) :
  StronglySorted R (f <$> l) ↔ StronglySorted (λ a b, R (f a) (f b)) l.
Proof.
  induction l as [|a l IH]; [split; constructor|].
  rewrite fmap_cons, !StronglySorted_cons, IH, Forall_fmap. done.
Qed.

Section Orderings.
Context (m : Mempool) (Hm : pool_wf m).

Lemma entries_by_feerate_perm : entries_by_feerate m ≡ₚ pool_entries (by_txid_ m).
Proof. apply std_sort_perm. Qed.

Lemma pool_entries_ordered : ordered_on higher_feerate (pool_entries (by_txid_ m)).
Proof.
  pose proof (pool_entries_sized m Hm) as Hs. rewrite Forall_forall in Hs. split.
  - apply higher_feerate_asym.
  - intros a b Ha Hb Hne. apply higher_feerate_total; [by apply Hs..|]. intros E. apply Hne.
    apply pool_entries_ok in Ha as [Ha _], Hb as [Hb _]; [|done..]. congruence.
  - intros a b c Ha Hb Hc. by apply higher_feerate_trans; apply Hs.
Qed.

Lemma entries_by_feerate_sorted : StronglySorted (before higher_feerate) (entries_by_feerate m).
Proof.
  apply std_sort_strict; [apply pool_entries_ordered|].
  apply (NoDup_fmap_1 e_txid), pool_entries_nodup, Hm.
Qed.

Lemma pool_txs_sorted :
  StronglySorted (before (λ a b, Hash256Less (txid a) (txid b))) (e_transaction <$> pool_entries (by_txid_ m)).
Proof.
  unfold pool_entries. rewrite <- list_fmap_compose. apply StronglySorted_fmap.
  pose proof (in_order_sorted Hash256Less (by_txid_ m)) as Hs.
  assert (∀ p, p ∈ in_order Hash256Less (by_txid_ m) → txid (e_transaction p.2) = p.1) as Hid.
  { intros [id e] Hin%elem_of_in_order. destruct (pool_entry m Hm _ _ Hin) as [<- []]. done. }
  induction Hs as [|p l Hs IH Hall]; [constructor|]. constructor.
  - apply IH. intros q Hq. apply Hid. by right.
  - rewrite Forall_forall in Hall |- *. intros q Hq. unfold before. cbn [compose].
    rewrite !Hid by (by left || by right). by apply Hall.
Qed.

Lemma sorted_transactions_eq : sorted_transactions m = e_transaction <$> pool_entries (by_txid_ m).
Proof.
  apply (before_unique (λ a b, Hash256Less (txid a) (txid b))).
  - intros a b. apply (less_asym Hash256Less).
  - apply std_sort_strict; [split|].
    + intros a b. apply (less_asym Hash256Less).
    + intros a b (e & -> & He)%list_elem_of_fmap (e' & -> & He')%list_elem_of_fmap Hne E.
      destruct (Hash256Less (txid (e_transaction e')) (txid (e_transaction e))) eqn:E'; [done|exfalso].
      apply Hne. f_equal. apply pool_entries_ok in He as [He [Hi _ _ _ _ _]], He' as [He' [Hi' _ _ _ _ _]]; [|done..].
      assert (txid (e_transaction e) = txid (e_transaction e')) by (by apply (less_total (less := Hash256Less))).
      congruence.
    + intros a b c _ _ _. apply less_trans.
    + pose proof (pool_entries_nodup m Hm) as Hnd. apply (NoDup_fmap_1 txid).
      rewrite <- list_fmap_compose. erewrite list_fmap_ext; [exact Hnd|].
      intros k e He%list_elem_of_lookup_2. apply pool_entries_ok in He as [_ []]; done.
  - apply pool_txs_sorted.
  - apply std_sort_perm.
Qed.
End Orderings.

(** ** Restoring a stored pool *)

(** A well-formed pool is determined by its limits and its entries. *)
Lemma pool_wf_ext m1 m2 :
  pool_wf m1 → pool_wf m2 → limits_ m1 = limits_ m2 → by_txid_ m1 = by_txid_ m2 → m1 = m2.
Proof.
  intros H1 H2 Hl Hb. pose proof (pw_bytes _ H1) as E1. pose proof (pw_bytes _ H2) as E2.
  assert (spent_by_ m1 = spent_by_ m2) as Hs.
  { apply map_eq. intros o. apply option_eq. intros id. rewrite (pw_spent _ H1), (pw_spent _ H2).
    by rewrite Hb. }
  destruct m1, m2; cbn in *. by subst.
Qed.

(** Every entry of the pool still passes admission, with the recorded fee and size. *)
Definition pool_valid (utxos : UtxoSet) (policy : MempoolPolicy) (m : Mempool) : Prop :=
  map_Forall (λ _ e, validate_for_mempool (e_transaction e) utxos policy =
                     Ok (mkMempoolAdmission (e_fee e) (e_size_bytes e))) (by_txid_ m).

Section Restore.
Context (utxos : UtxoSet) (policy : MempoolPolicy) (m : Mempool).
Hypothesis Hm : pool_wf m.
Hypothesis Hv : pool_valid utxos policy m.

(** Part of the pool [m]. *)
Definition subpool (m0 : Mempool) : Prop :=
  pool_wf m0 ∧ limits_ m0 = limits_ m ∧ by_txid_ m0 ⊆ by_txid_ m.

Lemma subpool_insertable m0 id e :
  subpool m0 → by_txid_ m !! id = Some e → by_txid_ m0 !! id = None → insertable e m0.
Proof.
  intros (Hm0 & Hl & Hsub) He Hn. destruct (pool_entry m Hm _ _ He) as [Hid Hok]. subst id.
  assert (<[e_txid e := e]> (by_txid_ m0) ⊆ by_txid_ m) as Hsub' by (by apply insert_subseteq_l).
  split.
  - done.
  - intros o Ho. destruct (spent_by_ m0 !! o) as [id'|] eqn:E; [exfalso|done].
    apply (pw_spent _ Hm0) in E as (e' & He' & Ho').
    assert (e_txid e = id') as <-
      by (eapply (pool_conflict_free m Hm); [done|by eapply lookup_weaken|done..]).
    congruence.
  - rewrite Hl. etrans; [|apply (pw_count _ Hm)]. unfold pool_size.
    apply map_subseteq_size in Hsub'. rewrite map_size_insert_None in Hsub' by done. lia.
  - rewrite Hl. etrans; [|apply (pw_total _ Hm)]. rewrite (pw_bytes _ Hm0), (pw_bytes _ Hm).
    assert (map_sum e_size_bytes (<[e_txid e := e]> (by_txid_ m0)) ≤ map_sum e_size_bytes (by_txid_ m)) as Hle.
    { apply map_sum_subseteq; [|done]. intros k x Hx. apply (pool_bytes_le m Hm _ _ Hx). }
    rewrite map_sum_insert in Hle by done. lia.
Qed.

Lemma insertable_accepts m0 e :
  pool_wf m0 → entry_ok e → insertable e m0 → accept_entry e m0 = (insert_entry e m0, Ok tt).
Proof.
  intros Hm0 Hok [Hn Hfree Hc Hb]. unfold accept_entry, pool_contains. rewrite Hn.
  destruct (existsb _ _) eqn:Ex.
  { apply existsb_exists in Ex as (i & Hi%list_elem_of_In & [id Hid]%bool_decide_eq_true_1).
    rewrite Hfree in Hid; [done|]. apply list_elem_of_fmap. by exists i. }
  destruct (entry_ok_sized _ Hok) as (_ & Hu & Hpos). destruct (pw_limits _ Hm0) as [_ Hl].
  assert (0 ≤ total_bytes_ m0) as Htot.
  { rewrite (pw_bytes _ Hm0). apply map_sum_nonneg. intros id x Hx. apply (pool_bytes_le m0 Hm0 _ _ Hx). }
  cbn [evict_loop]. assert (over_capacity e m0 = false) as ->.
  { unfold over_capacity. rewrite wrap64_small by solve_u. lia. }
  cbn. destruct (_ <? _) eqn:E; [lia|done].
Qed.

Lemma accept_stored m0 id e :
  subpool m0 → by_txid_ m !! id = Some e → by_txid_ m0 !! id = None →
  accept (e_transaction e) utxos policy m0 = (insert_entry e m0, Ok tt) ∧
  subpool (insert_entry e m0) ∧ by_txid_ (insert_entry e m0) = <[id := e]> (by_txid_ m0).
Proof.
  intros Hsp He Hn. pose proof (subpool_insertable _ _ _ Hsp He Hn) as Hins.
  destruct (pool_entry m Hm _ _ He) as [Hid Hok]. pose proof Hsp as (Hm0 & Hl & Hsub).
  pose proof (insert_entry_by_txid _ _ Hins) as Eb. rewrite Hid in Eb. split_and!; [|split_and!|done].
  - unfold accept. rewrite (Hv _ _ He). cbn [adm_fee adm_size_bytes]. rewrite <- (eo_txid _ Hok).
    assert (mkEntry (e_transaction e) (e_txid e) (e_fee e) (e_size_bytes e) = e) as -> by (by destruct e).
    by apply insertable_accepts.
  - by apply insert_entry_wf.
  - done.
  - rewrite Eb. by apply insert_subseteq_l.
Qed.

Lemma restore_entries l m0 :
  subpool m0 → NoDup (e_txid <$> l) →
  (∀ e, e ∈ l → by_txid_ m !! e_txid e = Some e ∧ by_txid_ m0 !! e_txid e = None) →
  ∃ m', restore_mempool utxos (e_transaction <$> l) policy m0 = (m', Ok tt) ∧ subpool m' ∧
    ∀ e, by_txid_ m' !! e_txid e = Some e ↔ by_txid_ m0 !! e_txid e = Some e ∨ e ∈ l.
Proof.
  revert m0. induction l as [|e l IH]; intros m0 Hsp Hnd Hl.
  { exists m0. split_and!; [done..|]. set_solver. }
  rewrite fmap_cons in Hnd. apply NoDup_cons in Hnd as [Hne Hnd].
  destruct (Hl e ltac:(left)) as [He Hn].
  destruct (accept_stored m0 _ e Hsp He Hn) as (Ha & Hsp' & Eb).
  destruct (IH (insert_entry e m0)) as (m' & Hr & Hsp'' & Hin); [done..| |].
  { intros x Hx. destruct (Hl x ltac:(by right)). split; [done|]. rewrite Eb, lookup_insert_ne; [done|].
    intros E. apply Hne. rewrite E. apply list_elem_of_fmap. by exists x. }
  exists m'. split_and!; [|done|].
  - rewrite fmap_cons. cbn [restore_mempool]. by rewrite Ha.
  - intros x. rewrite Hin, Eb, elem_of_cons, lookup_insert_Some. split.
    + intros [[[_ <-]|[_ ?]]|?]; auto.
    + intros [H|[->|H]]; [|auto..]. left. right. split; [|done]. intros E. by rewrite <- E, Hn in H.
Qed.

Lemma restore_sorted :
  restore_mempool utxos (sorted_transactions m) policy (new_mempool (limits_ m)) = (m, Ok tt).
Proof.
  rewrite sorted_transactions_eq by done.
  destruct (restore_entries (pool_entries (by_txid_ m)) (new_mempool (limits_ m))) as (m' & -> & Hsp & Hin).
  - split_and!; [apply new_mempool_wf; apply Hm|done|apply map_empty_subseteq].
  - by apply pool_entries_nodup.
  - intros e [? _]%pool_entries_ok; [|done]. split; [done|apply lookup_empty].
  - f_equal. destruct Hsp as (Hm' & Hl & Hsub). apply pool_wf_ext; [done..|].
    apply (anti_symm (⊆)); [done|]. apply map_subseteq_spec. intros id e He.
    destruct (pool_entry m Hm _ _ He) as [<- _]. apply Hin. right. apply elem_of_pool_entries. by exists (e_txid e).
Qed.
End Restore.

(** ** Pools that cannot be restored *)

Lemma restore_mempool_Err utxos txs policy m m' e :
  restore_mempool utxos txs policy m = (m', Err e) → code e = kStorageCorruption.
Proof.
  revert m. induction txs as [|tx txs IH]; intros m; cbn [restore_mempool]; [intros H; discriminate H|].
  destruct (accept tx utxos policy m) as [m1 [[]|e1]]; [apply IH|]. by intros [= _ <-].
Qed.

Lemma restore_mempool_Ok utxos txs policy m m' :
  restore_mempool utxos txs policy m = (m', Ok tt) →
  Forall (λ tx, ∃ fee, check_transaction_inputs tx utxos = Ok fee) txs.
Proof.
  revert m. induction txs as [|tx txs IH]; intros m; cbn [restore_mempool]; [constructor|].
  destruct (accept tx utxos policy m) as [m1 [[]|e1]] eqn:Ea; [|intros H; discriminate H].
  intros H. constructor; [|by eapply IH]. unfold accept in Ea.
  destruct (validate_for_mempool tx utxos policy) as [adm|] eqn:Ev; [|discriminate Ea].
  unfold validate_for_mempool in Ev. apply bind_Ok in Ev as ([] & _ & Ev).
  destruct (is_coinbase tx); [discriminate Ev|]. apply bind_Ok in Ev as (fee & Hf & _). by exists fee.
Qed.

Lemma restore_missing_input utxos txs policy m tx i :
  tx ∈ txs → i ∈ inputs tx → utxos !! prevout i = None →
  fails_with kStorageCorruption (restore_mempool utxos txs policy m).2.
Proof.
  intros Htx Hi Hn. destruct (restore_mempool utxos txs policy m) as [m' [[]|[c s]]] eqn:E; cbn.
  - apply restore_mempool_Ok in E. rewrite Forall_forall in E. destruct (E _ Htx) as [fee Hf].
    by apply check_transaction_inputs_missing with (i := i) in Hf.
  - apply restore_mempool_Err in E. cbn in E. subst. by exists s.
Qed.

(** The entry ordered after all others is the one [find_lowest_feerate] returns. *)
Lemma find_lowest_unique m w :
  pool_wf m → by_txid_ m !! e_txid w = Some w →
  (∀ id e, by_txid_ m !! id = Some e → e = w ∨ higher_feerate e w = true) →
  find_lowest_feerate (by_txid_ m) = Some w.
Proof.
  intros Hm Hw Hmin. destruct (find_lowest_feerate (by_txid_ m)) as [w'|] eqn:E.
  - apply find_lowest_Some in E as (Hw' & _ & Hmin'); [|done].
    destruct (Hmin _ _ Hw') as [->|H1]; [done|].
    destruct (Hmin' _ _ Hw) as [->|H2]; [done|]. apply higher_feerate_asym in H1. congruence.
  - apply find_lowest_None in E; [|done]. by rewrite E in Hw.
Qed.
