(* ===== verification/PoolTheorems.v ===== *)
(** * Properties of the memory pool *)

From S2P Require Import Prelude Errors Sha256 ByteIO Transaction Block Utxo TxValidation BlockValidation Samples Mempool.
From Stdlib Require Import Strings.Byte.

(** ** Sample pools *)

Definition sample_policy : MempoolPolicy := mkMempoolPolicy 2.
Definition sample_limits : MempoolLimits := mkMempoolLimits 10 184.
Definition sample_entry : Entry := mkEntry sample_spend (txid sample_spend) 1000 92.
Definition sample_pool : Mempool := insert_entry sample_entry (new_mempool sample_limits).

Lemma sample_new_wf : pool_wf (new_mempool sample_limits).
Proof. apply new_mempool_wf; vm_decide. Qed.

(** An entry over a sane transaction. *)
Lemma entry_ok_intro tx fee sz :
  tx_typed tx → tx_sane tx → is_coinbase tx = false → is_u64 fee → sz = size_z (tx_to_bytes tx) →
  entry_ok (mkEntry tx (txid tx) fee sz).
Proof. intros. by split. Qed.

Lemma sample_entry_ok : entry_ok sample_entry.
Proof. apply entry_ok_intro; [apply sample_spend_typed|apply sample_spend_sane|done|done|vm_eq]. Qed.

Lemma sample_entry_insertable : insertable sample_entry (new_mempool sample_limits).
Proof. split; [apply lookup_empty|intros; apply lookup_empty|vm_decide|vm_decide]. Qed.

Lemma sample_pool_wf : pool_wf sample_pool.
Proof. apply insert_entry_wf; [apply sample_new_wf|apply sample_entry_ok|apply sample_entry_insertable]. Qed.

Lemma sample_validates :
  validate_for_mempool sample_spend sample_utxos sample_policy = Ok (mkMempoolAdmission 1000 92).
Proof.
  apply validate_for_mempool_Ok;
    [apply sample_spend_typed|apply sample_utxos_wf|done|]. split_and!; [apply sample_spend_sane|done|vm_eq| |vm_decide].
  apply check_transaction_inputs_Ok; [apply sample_utxos_wf|apply sample_spend_typed|apply sample_spend_sane|].
  apply (ta_coins _ _ _ _ _ _ sample_spend_applies).
Qed.

(** ** Admission *)

(** C13: [Mempool::accept] is exact.  Its eviction loop ends on every well-formed pool: one
    unit of fuel for each entry and one more give a result, and more fuel gives the same.
    [accept] keeps the limits and the invariant of the pool (keys are txids, reserved outpoints are exactly
    the inputs of the entries, the byte total is exact, both limits hold, no two entries
    conflict).  It succeeds exactly when the transaction passes admission, is not in the pool
    and spends nothing that the pool spends, and the entries that do not pay less per byte
    leave room for it.  Then the pool is the old one without the evicted entries, each paying
    strictly less per byte and ordered after all that stay, and without the last of them there
    was no room, plus the new entry with its fee and size.  On failure the pool is
    unchanged and the error is that of admission or of a conflict, or there was no room to
    make, the error is one of the two that say so, and cheaper entries may be gone. *)
Theorem mempool_accept_spec (tx : Transaction) (utxos : UtxoSet) (policy : MempoolPolicy)
    (m m' : Mempool) (r : Result unit) :
  let incoming fee := mkEntry tx (txid tx) fee (size_z (tx_to_bytes tx)) in
  let admitted fee := validate_for_mempool tx utxos policy = Ok (mkMempoolAdmission fee (size_z (tx_to_bytes tx))) in
  let room fee := has_room (incoming fee) (limits_ m) (not_cheaper (incoming fee) (by_txid_ m)) in
  pool_wf m → tx_typed tx → utxos_wf utxos → policy_wf policy →
  accept tx utxos policy m = (m', r) →
  (∀ inc, entry_sized inc →
     ∃ out, ∀ fuel, (size (by_txid_ m) < fuel)%nat → evict_loop fuel inc m = Some out) ∧
  pool_wf m' ∧ limits_ m' = limits_ m ∧
  (r = Ok tt ↔ ∃ fee, admitted fee ∧ ¬ taken (incoming fee) m ∧ room fee) ∧
  match r with
  | Ok _ => ∃ fee m1,
      admitted fee ∧ evicted (incoming fee) m m1 ∧ needed (incoming fee) m m1 ∧
      by_txid_ m' = <[txid tx := incoming fee]> (by_txid_ m1)
  | Err e =>
      m' = m ∧ validate_for_mempool tx utxos policy = Err e ∨
      ∃ fee, admitted fee ∧
        (code e = kInvalidTransaction ∧ m' = m ∧ taken (incoming fee) m ∨
         no_room_error e ∧ evicted (incoming fee) m m' ∧ ¬ room fee)
  end.
Proof.
  intros incoming admitted room Hm Hty Hu Hp H. split.
  { intros inc Hi. destruct (evict_loop_run (S (size (by_txid_ m))) inc m) as (m1 & r1 & He & _); [done..|lia|].
    exists (m1, r1). intros fuel Hf. by eapply evict_loop_more. }
  apply accept_run in H as [Hm' Hr]; [|done..]. split; [done|].
  destruct r as [[]|e].
  - destruct Hr as (fee & m1 & Hv & Hev & Hneed & Hins & -> & Hnt & Hroom). split; [exact (ev_limits _ _ _ Hev)|split].
    + split; [|done]. intros _. by exists fee.
    + exists fee, m1. split_and!; [done..|by apply insert_entry_by_txid].
  - split; [|split].
    + destruct Hr as [[-> _]|(fee & _ & [(_ & -> & _)|(_ & Hev & _)])]; [done..|exact (ev_limits _ _ _ Hev)].
    + split; [intros Hr'; discriminate Hr'|]. intros (fee & Hv & Hnt & Hroom). unfold admitted in Hv. exfalso.
      destruct Hr as [[_ Hv']|(fee' & Hv' & Hr)]; [congruence|]. rewrite Hv in Hv'. injection Hv' as <-.
      by destruct Hr as [(_ & _ & Ht)|(_ & _ & _ & Hno)].
    + destruct Hr as [?|(fee & Hv & Hr)]; [by left|right]. exists fee. split; [done|].
      destruct Hr as [?|(? & ? & _ & ?)]; [by left|by right].
Qed.

(** In a well-formed pool no two entries spend the same output, and removing an entry
    keeps the pool well formed, takes away that entry only and releases the outputs it
    had reserved. *)
Theorem mempool_remove_spec (m : Mempool) (id : Hash256) (e : Entry) :
  pool_wf m → by_txid_ m !! id = Some e →
  pool_wf (remove id m) ∧
  by_txid_ (remove id m) = delete id (by_txid_ m) ∧
  total_bytes_ (remove id m) = total_bytes_ m - e_size_bytes e ∧
  (∀ o, o ∈ prevout <$> inputs (e_transaction e) → spent_by_ (remove id m) !! o = None) ∧
  (∀ id' e' o, by_txid_ m !! id' = Some e' → o ∈ prevout <$> inputs (e_transaction e) →
     o ∈ prevout <$> inputs (e_transaction e') → id' = id).
Proof.
  intros Hm He. split_and!.
  - by apply remove_wf.
  - apply remove_by_txid.
  - by apply remove_bytes.
  - intros o Ho. unfold remove. rewrite He. cbn [spent_by_]. rewrite lookup_erase_spent.
    by rewrite decide_True.
  - intros id' e' o He' Ho Ho'. by eapply pool_conflict_free.
Qed.

Lemma mempool_remove_spec_witness :
  by_txid_ (remove (txid sample_spend) sample_pool) = delete (txid sample_spend) (by_txid_ sample_pool).
Proof.
  apply (mempool_remove_spec sample_pool (txid sample_spend) sample_entry); [apply sample_pool_wf|].
  unfold sample_pool. rewrite (insert_entry_by_txid _ _ sample_entry_insertable). apply lookup_insert_eq.
Defined.

(** ** Fee rates *)

(** C32: the 32-bit limb multiplication returns the exact 128-bit product, so the relay
    check compares [rate * size] with the fee and the eviction check compares the two
    fractions fee/size, without overflow or rounding. *)
Theorem feerate_arithmetic_exact (x y hi lo fee sz : Z) (policy : MempoolPolicy) (a b : Entry) :
  is_u64 x → is_u64 y → mul_u64 x y = (hi, lo) →
  is_u64 fee → is_u64 sz → policy_wf policy → entry_sized a → entry_sized b →
  (hi * 2 ^ 64 + lo = x * y ∧ is_u64 hi ∧ is_u64 lo) ∧
  (check_min_relay_feerate fee sz policy = Ok tt ↔ min_relay_feerate policy * sz ≤ fee) ∧
  (strictly_higher_feerate a b = true ↔ e_fee b * e_size_bytes a < e_fee a * e_size_bytes b).
Proof.
  intros. split; [by apply mul_u64_exact|split].
  - by apply check_min_relay_feerate_Ok.
  - by apply strictly_higher_feerate_spec.
Qed.

Lemma feerate_arithmetic_exact_witness :
  (1 * 2 ^ 64 + 18446744069414584320 = 8589934591 * 4294967296 ∧ is_u64 1 ∧ is_u64 18446744069414584320) ∧
  (check_min_relay_feerate 1000 92 sample_policy = Ok tt ↔ min_relay_feerate sample_policy * 92 ≤ 1000) ∧
  (strictly_higher_feerate sample_entry sample_entry = true ↔ 1000 * 92 < 1000 * 92).
Proof.
  apply (feerate_arithmetic_exact 8589934591 4294967296 1 18446744069414584320 1000 92 sample_policy
           sample_entry sample_entry);
    [vm_decide|vm_decide|vm_eq|vm_decide|vm_decide|vm_decide| |];
    (split_and!; [vm_decide|vm_decide|reflexivity]).
Defined.

(** [entries_by_feerate] lists every entry once, each strictly before the next in the
    order of higher fee rate and then lower txid; every list with these two properties is
    this one, so the result does not depend on how [std::sort] works. *)
Theorem entries_by_feerate_unique (m : Mempool) :
  pool_wf m →
  entries_by_feerate m ≡ₚ pool_entries (by_txid_ m) ∧
  StronglySorted (before higher_feerate) (entries_by_feerate m) ∧
  ∀ l, l ≡ₚ pool_entries (by_txid_ m) → StronglySorted (before higher_feerate) l →
    l = entries_by_feerate m.
Proof.
  intros Hm. split_and!; [apply entries_by_feerate_perm|by apply entries_by_feerate_sorted|].
  intros l Hp Hl. apply (before_unique higher_feerate); [apply higher_feerate_asym|done| |].
  - by apply entries_by_feerate_sorted.
  - by rewrite Hp, entries_by_feerate_perm.
Qed.

Lemma entries_by_feerate_unique_witness :
  StronglySorted (before higher_feerate) (entries_by_feerate sample_pool).
Proof. apply (entries_by_feerate_unique sample_pool). apply sample_pool_wf. Defined.

(** ** Snapshots *)

(** The transactions exported by [sorted_transactions], re-admitted one by one into
    an empty pool with the same limits, give the pool they came from, provided every
    entry still passes admission against the coins at hand. *)
Theorem mempool_snapshot_roundtrip (utxos : UtxoSet) (policy : MempoolPolicy) (m : Mempool) :
  pool_wf m → pool_valid utxos policy m →
  restore_mempool utxos (sorted_transactions m) policy (new_mempool (limits_ m)) = (m, Ok tt).
Proof. apply restore_sorted. Qed.

Lemma mempool_snapshot_roundtrip_witness :
  restore_mempool sample_utxos (sorted_transactions sample_pool) sample_policy (new_mempool sample_limits)
  = (sample_pool, Ok tt).
Proof.
  apply (mempool_snapshot_roundtrip sample_utxos sample_policy sample_pool); [apply sample_pool_wf|].
  unfold pool_valid, sample_pool. rewrite (insert_entry_by_txid _ _ sample_entry_insertable).
  intros id e [[<- <-]|[_ He]]%lookup_insert_Some.
  - cbn [e_transaction e_fee e_size_bytes sample_entry]. apply sample_validates.
  - cbn in He. rewrite lookup_empty in He. discriminate He.
Defined.

(** ** A refused transaction can still evict *)

Definition op_of (b : byte) : OutPoint := mkOutPoint (replicate 32 b) 0.
Definition pay_from (b : byte) (values : list Z) : Transaction :=
  mkTransaction kTransactionVersion [mkTxInput (op_of b)] ((λ v, mkTxOutput v sample_bob) <$> values) 0.

Definition cheap_tx : Transaction := pay_from x07 [900].
Definition dear_tx : Transaction := pay_from x08 [100].
Definition middle_tx : Transaction := pay_from x09 [200; 300].
Definition better_tx : Transaction := pay_from x09 [500].

Definition three_coins : UtxoSet :=
  list_to_map ((λ b, (op_of b, mkCoin (mkTxOutput 1000 sample_alice) 0 false)) <$> [x07; x08; x09]).

(** Two entries of 92 bytes fill the pool; the third transaction takes 132 bytes. *)
Definition cheap_entry : Entry := mkEntry cheap_tx (txid cheap_tx) 100 92.
Definition dear_entry : Entry := mkEntry dear_tx (txid dear_tx) 900 92.
Definition middle_entry : Entry := mkEntry middle_tx (txid middle_tx) 500 132.
Definition cheap_pool : Mempool := insert_entry cheap_entry (new_mempool sample_limits).
Definition full_pool : Mempool := insert_entry dear_entry cheap_pool.

Lemma three_txids : txid cheap_tx ≠ txid dear_tx ∧ txid cheap_tx ≠ txid middle_tx ∧ txid dear_tx ≠ txid middle_tx.
Proof. split_and!; apply (bool_decide_eq_false_1 _); vm_eq. Qed.

Lemma sane_of_check tx : tx_typed tx → check_transaction_sanity tx = Ok tt → tx_sane tx.
Proof. intros Hty. by apply check_transaction_sanity_Ok. Qed.

Lemma three_entries_ok : entry_ok cheap_entry ∧ entry_ok dear_entry ∧ entry_ok middle_entry.
Proof.
  split_and!; (apply entry_ok_intro; [vm_decide|apply sane_of_check; [vm_decide|vm_eq]|vm_eq|vm_decide|vm_eq]).
Qed.

Lemma cheap_insertable : insertable cheap_entry (new_mempool sample_limits).
Proof. split; [apply lookup_empty|intros; apply lookup_empty|vm_decide|vm_decide]. Qed.

Lemma cheap_pool_by_txid : by_txid_ cheap_pool = <[txid cheap_tx := cheap_entry]> ∅.
Proof. apply (insert_entry_by_txid _ _ cheap_insertable). Qed.

Lemma cheap_pool_wf : pool_wf cheap_pool.
Proof.
  destruct three_entries_ok as (H & _). apply insert_entry_wf; [apply sample_new_wf|done|apply cheap_insertable].
Qed.

Lemma dear_insertable : insertable dear_entry cheap_pool.
Proof.
  destruct three_txids as (Hne & _). split.
  - rewrite cheap_pool_by_txid. rewrite lookup_insert_ne by exact Hne. apply lookup_empty.
  - intros o ->%list_elem_of_singleton. apply eq_None_not_Some. vm_decide.
  - unfold pool_size. rewrite cheap_pool_by_txid, map_size_insert_None by apply lookup_empty.
    rewrite map_size_empty. vm_decide.
  - vm_decide.
Qed.

Lemma full_pool_by_txid :
  by_txid_ full_pool = <[txid dear_tx := dear_entry]> (<[txid cheap_tx := cheap_entry]> ∅).
Proof. unfold full_pool. rewrite (insert_entry_by_txid _ _ dear_insertable). by rewrite cheap_pool_by_txid. Qed.

Lemma full_pool_wf : pool_wf full_pool.
Proof.
  destruct three_entries_ok as (_ & H & _). apply insert_entry_wf; [apply cheap_pool_wf|done|apply dear_insertable].
Qed.

Lemma full_pool_has_cheap : by_txid_ full_pool !! txid cheap_tx = Some cheap_entry.
Proof.
  destruct three_txids as (Hne & _). rewrite full_pool_by_txid, lookup_insert_ne by exact (not_eq_sym Hne).
  apply lookup_insert_eq.
Qed.

Lemma full_pool_size : size (by_txid_ full_pool) = 2%nat.
Proof.
  destruct three_txids as (Hne & _).
  rewrite full_pool_by_txid, !map_size_insert_None; [by rewrite map_size_empty|apply lookup_empty|].
  rewrite lookup_insert_ne by exact Hne. apply lookup_empty.
Qed.

Lemma full_pool_lowest : find_lowest_feerate (by_txid_ full_pool) = Some cheap_entry.
Proof.
  apply find_lowest_unique; [apply full_pool_wf|apply full_pool_has_cheap|].
  rewrite full_pool_by_txid. intros id e [[_ <-]|[_ H]]%lookup_insert_Some; [right; vm_eq|].
  apply lookup_insert_Some in H as [[_ <-]|[_ H]]; [left; reflexivity|].
  rewrite lookup_empty in H. discriminate H.
Qed.

Definition left_pool : Mempool := remove (txid cheap_tx) full_pool.

Lemma left_pool_wf : pool_wf left_pool.
Proof. apply remove_wf, full_pool_wf. Qed.

Lemma left_pool_by_txid : by_txid_ left_pool = <[txid dear_tx := dear_entry]> ∅.
Proof.
  destruct three_txids as (Hne & _). unfold left_pool. rewrite remove_by_txid, full_pool_by_txid.
  rewrite delete_insert_ne by exact Hne. rewrite delete_insert_eq. by rewrite delete_empty.
Qed.

Lemma left_pool_lowest : find_lowest_feerate (by_txid_ left_pool) = Some dear_entry.
Proof.
  apply find_lowest_unique; [apply left_pool_wf|rewrite left_pool_by_txid; apply lookup_insert_eq|].
  rewrite left_pool_by_txid. intros id e [[_ <-]|[_ H]]%lookup_insert_Some; [left; reflexivity|].
  rewrite lookup_empty in H. discriminate H.
Qed.

Lemma left_pool_bytes : total_bytes_ left_pool = 92.
Proof.
  unfold left_pool. rewrite (remove_bytes _ _ _ full_pool_wf full_pool_has_cheap). vm_eq.
Qed.

(** The loop evicts the cheaper entry and then gives up. *)
Lemma middle_evicts :
  evict_loop 3 middle_entry full_pool =
  Some (left_pool, make_error kResourceLimitExceeded "mempool capacity limit reached").
Proof.
  cbn [evict_loop]. assert (over_capacity middle_entry full_pool = true) as ->.
  { apply orb_true_iff. right. vm_eq. }
  rewrite full_pool_lowest. assert (strictly_higher_feerate middle_entry cheap_entry = true) as -> by vm_eq.
  cbn [negb]. change (remove (e_txid cheap_entry) full_pool) with left_pool.
  assert (over_capacity middle_entry left_pool = true) as ->.
  { apply orb_true_iff. right. rewrite left_pool_bytes. vm_eq. }
  rewrite left_pool_lowest. assert (strictly_higher_feerate middle_entry dear_entry = false) as -> by vm_eq.
  reflexivity.
Qed.

(** [better_tx] pays more than the cheaper entry and takes the place of it. *)
Definition better_entry : Entry := mkEntry better_tx (txid better_tx) 500 92.

Lemma better_rates : rate_gt better_entry cheap_entry ∧ ¬ rate_gt better_entry dear_entry.
Proof. split; [vm_decide|]. vm_decide. Qed.

Lemma better_not_taken : ¬ taken better_entry full_pool.
Proof.
  intros [[e H]|(o & ->%list_elem_of_singleton & H)].
  - rewrite full_pool_by_txid in H. apply lookup_insert_Some in H as [[H _]|[_ H]].
    { revert H. apply (bool_decide_eq_false_1 _). vm_eq. }
    apply lookup_insert_Some in H as [[H _]|[_ H]]; [|rewrite lookup_empty in H; discriminate H].
    revert H. apply (bool_decide_eq_false_1 _). vm_eq.
  - revert H. vm_decide.
Qed.

Lemma better_room : has_room better_entry (limits_ full_pool) (not_cheaper better_entry (by_txid_ full_pool)).
Proof.
  destruct better_rates as [Hc Hd]. assert (not_cheaper better_entry (by_txid_ full_pool) = {[txid dear_tx := dear_entry]}) as ->.
  { unfold not_cheaper. rewrite full_pool_by_txid, map_filter_insert_True by exact Hd.
    rewrite map_filter_insert_False by (cbn; auto). rewrite delete_empty, map_filter_empty. reflexivity. }
  split; [rewrite map_size_singleton; vm_decide|].
  rewrite <- insert_empty, map_sum_insert, map_sum_empty by apply lookup_empty. vm_decide.
Qed.

(** What [better_entry] can evict is the cheaper entry. *)
Lemma better_evicts m1 id e :
  evicted better_entry full_pool m1 → by_txid_ full_pool !! id = Some e → by_txid_ m1 !! id = None → id = txid cheap_tx.
Proof.
  intros [_ _ Hrate] He Hn. destruct (Hrate id e He Hn) as [Hr _]. rewrite full_pool_by_txid in He.
  apply lookup_insert_Some in He as [[_ <-]|[_ He]]; [by destruct better_rates|].
  apply lookup_insert_Some in He as [[<- _]|[_ He]]; [done|]. rewrite lookup_empty in He. discriminate He.
Qed.

Lemma better_does_not_fit : ¬ has_room better_entry (limits_ full_pool) (by_txid_ full_pool).
Proof. intros [_ H]. rewrite <- (pw_bytes _ full_pool_wf) in H. revert H. vm_decide. Qed.

Lemma stored_had_room m id inc es :
  pool_wf m → es !! id = None → by_txid_ m = <[id := inc]> es → has_room inc (limits_ m) es.
Proof.
  intros [_ _ Hb Hc Ht _] Hn E. unfold pool_size in Hc. rewrite E in Hb, Hc.
  rewrite map_sum_insert in Hb by done. rewrite map_size_insert_None in Hc by done. split; lia.
Qed.

(** A full pool: the transaction is admitted and the cheaper entry is gone. *)
Lemma mempool_accept_spec_witness :
  is_Some (by_txid_ full_pool !! txid cheap_tx) ∧
  ∃ m', accept better_tx three_coins (mkMempoolPolicy 0) full_pool = (m', Ok tt) ∧ pool_wf m' ∧
    by_txid_ m' !! txid better_tx = Some better_entry ∧ by_txid_ m' !! txid cheap_tx = None.
Proof.
  split; [rewrite full_pool_has_cheap; by eexists|].
  destruct (accept better_tx three_coins (mkMempoolPolicy 0) full_pool) as [m' r] eqn:E.
  destruct (mempool_accept_spec better_tx three_coins (mkMempoolPolicy 0) full_pool m' r) as (_ & Hwf & Hlim & [_ Hok] & Hr);
    [exact full_pool_wf|vm_decide|vm_decide|vm_decide|exact E|].
  assert (validate_for_mempool better_tx three_coins (mkMempoolPolicy 0) = Ok (mkMempoolAdmission 500 92)) as Hv by vm_eq.
  assert (size_z (tx_to_bytes better_tx) = 92) as Esz by vm_eq. rewrite Esz in Hok, Hr.
  assert (r = Ok tt) as -> by (apply Hok; exists 500; exact (conj Hv (conj better_not_taken better_room))).
  destruct Hr as (fee & m1 & Hv' & Hev & Hneed & Hm'). rewrite Hv in Hv'. injection Hv' as <-.
  exists m'. split; [reflexivity|]. split; [exact Hwf|]. rewrite Hm'. split; [apply lookup_insert_eq|].
  rewrite lookup_insert_ne by (apply (bool_decide_eq_false_1 _); vm_eq).
  destruct Hneed as [Hsame|(id & e & He & Hn & _)]; [|by rewrite <- (better_evicts m1 id e Hev He Hn)].
  destruct better_does_not_fit. rewrite <- Hsame, <- Hlim. apply (stored_had_room m' (txid better_tx) _ _ Hwf); [|exact Hm'].
  rewrite Hsame. exact (proj1 (not_taken _ _ better_not_taken)).
Defined.

(** [accept] is not all-or-nothing.  There are a well-formed pool and a valid
    transaction that is refused for lack of room after an entry has been evicted: the
    pool is left smaller and the transaction is not in it. *)
Theorem refused_transaction_evicts :
  ∃ m m' tx utxos policy id e,
    pool_wf m ∧ is_ok (validate_for_mempool tx utxos policy) = true ∧
    accept tx utxos policy m = (m', Err e) ∧ code e = kResourceLimitExceeded ∧
    is_Some (by_txid_ m !! id) ∧ by_txid_ m' !! id = None ∧ by_txid_ m' !! txid tx = None.
Proof.
  destruct three_txids as (Hcd & Hcm & Hdm).
  exists full_pool, left_pool, middle_tx, three_coins, (mkMempoolPolicy 0), (txid cheap_tx).
  eexists. split; [apply full_pool_wf|].
  assert (validate_for_mempool middle_tx three_coins (mkMempoolPolicy 0) = Ok (mkMempoolAdmission 500 132)) as Hv
    by vm_eq.
  split; [by rewrite Hv|]. split.
  - unfold accept. rewrite Hv. cbn [adm_fee adm_size_bytes].
    change (mkEntry middle_tx (txid middle_tx) 500 132) with middle_entry.
    unfold accept_entry. rewrite full_pool_size.
    assert (pool_contains (e_txid middle_entry) full_pool = false) as ->.
    { unfold pool_contains. rewrite full_pool_by_txid.
      rewrite (lookup_insert_ne _ _ _ _ Hdm), (lookup_insert_ne _ _ _ _ Hcm), lookup_empty. reflexivity. }
    assert (existsb (λ i, bool_decide (is_Some (spent_by_ full_pool !! prevout i)))
              (inputs (e_transaction middle_entry)) = false) as -> by vm_eq.
    rewrite middle_evicts. reflexivity.
  - split; [reflexivity|]. split; [rewrite full_pool_has_cheap; by eexists|].
    rewrite left_pool_by_txid. split.
    + rewrite (lookup_insert_ne _ _ _ _ (not_eq_sym Hcd)). apply lookup_empty.
    + rewrite (lookup_insert_ne _ _ _ _ Hdm). apply lookup_empty.
Qed.
