(* ===== verification/Chain.v ===== *)
(** * The active chain ([include/blockchain/consensus/chain.hpp],
    [src/consensus/chain.cpp]) and the genesis block ([src/node/genesis.cpp])

    [submit_block] takes the caller's memory pool by pointer: [None] is the null
    pointer.  It returns the chain and the pool after the call, next to the result. *)

From S2P Require Import Prelude Errors Sha256 ByteIO Transaction Block Utxo TxValidation BlockValidation Mempool.

Record Chain := mkChain { tip_ : BlockHeader; utxos_ : UtxoSet; params_ : ConsensusParams }.

(** ** Operations *)

Definition check_links_to (tip next : BlockHeader) : Result unit :=
  if negb (hversion next =? kBlockVersion)
  then make_error kUnsupportedVersion "unsupported block version"
  else if negb (bool_decide (prev_block next = header_hash tip))
  then make_error kInvalidBlock "block does not extend the current tip"
  else if height tip =? UINT32_MAX
  then make_error kInvalidBlock "chain height would overflow"
  else if negb (height next =? wrap32 (height tip + 1))
  then make_error kInvalidBlock "block height does not follow the tip"
  else if timestamp next <? timestamp tip
  then make_error kInvalidBlock "block timestamp precedes the tip"
  else mret tt.

(** [Chain::create] *)
Definition create (genesis : Block) (params : ConsensusParams) : Result Chain :=
  if negb (hversion (header genesis) =? kBlockVersion)
  then make_error kUnsupportedVersion "unsupported genesis block version"
  else if negb (height (header genesis) =? 0)
  then make_error kInvalidBlock "genesis block must have height 0"
  else if negb (bool_decide (prev_block (header genesis) = zero_hash))
  then make_error kInvalidBlock "genesis block must reference the zero hash"
  else
    _ ← check_block_sanity genesis;
    match connect_block genesis ∅ params with
    | (_, Err e) => Err e
    | (utxos, Ok _) => mret (mkChain (header genesis) utxos params)
    end.

(** [for (tx : block.transactions) mempool->remove(tx.txid());] *)
Definition prune (txs : list Transaction) (pool : Mempool) : Mempool :=
  foldl (λ pool tx, remove (txid tx) pool) pool txs.

(** [Chain::submit_block] *)
Definition submit_block (block : Block) (pool : option Mempool) (chain : Chain)
    : Chain * option Mempool * Result Z :=
  match check_links_to (tip_ chain) (header block) with
  | Err e => (chain, pool, Err e)
  | Ok _ =>
      match check_block_sanity block with
      | Err e => (chain, pool, Err e)
      | Ok _ =>
          match connect_block block (utxos_ chain) (params_ chain) with
          | (utxos, Err e) => (mkChain (tip_ chain) utxos (params_ chain), pool, Err e)
          | (utxos, Ok fees) =>
              (mkChain (header block) utxos (params_ chain),
               prune (transactions block) <$> pool, mret fees)
          end
      end
  end.

(** ** What the calls promise *)

(** The linking rules, without their order. *)
Record links_to (tip next : BlockHeader) : Prop := {
  lk_version : hversion next = kBlockVersion;
  lk_prev : prev_block next = header_hash tip;
  lk_height : height next = height tip + 1;
  lk_time : timestamp tip ≤ timestamp next;
}.

Lemma check_links_to_Ok tip next :
  header_wf tip → header_wf next → check_links_to tip next = Ok tt ↔ links_to tip next.
Proof.
  intros (_ & _ & _ & _ & Ht) (_ & _ & _ & _ & Hn). unfold check_links_to. split.
  - destruct (negb (hversion next =? kBlockVersion)) eqn:E1; [intros H; discriminate H|].
    case_bool_decide as E2; [|intros H; discriminate H]. cbn [negb].
    destruct (height tip =? UINT32_MAX) eqn:E3; [intros H; discriminate H|].
    rewrite wrap32_small by solve_u.
    destruct (negb (height next =? height tip + 1)) eqn:E4; [intros H; discriminate H|].
    destruct (timestamp next <? timestamp tip) eqn:E5; [intros H; discriminate H|]. intros _.
    split; [lia|done|lia..].
  - intros [-> Hp Hh Htm]. rewrite bool_decide_eq_true_2 by done. cbn [negb].
    change (kBlockVersion =? kBlockVersion) with true. cbn [negb].
    destruct (height tip =? UINT32_MAX) eqn:E3; [solve_u|]. rewrite wrap32_small by solve_u.
    destruct (negb (height next =? height tip + 1)) eqn:E4; [lia|].
    destruct (timestamp next <? timestamp tip) eqn:E5; [lia|done].
Qed.

Lemma connect_block_err block u params u' e :
  connect_block block u params = (u', Err e) → u' = u.
Proof. unfold connect_block. destruct (connect_working block u params) as [[]|]; by intros [= <- _]. Qed.

Definition chain_wf (chain : Chain) : Prop :=
  header_wf (tip_ chain) ∧ utxos_wf (utxos_ chain) ∧ params_wf (params_ chain).

Lemma submit_block_Err block pool chain chain' pool' e :
  submit_block block pool chain = (chain', pool', Err e) → chain' = chain ∧ pool' = pool.
Proof.
  unfold submit_block. destruct (check_links_to _ _); [|by intros [= <- <- _]].
  destruct (check_block_sanity block); [|by intros [= <- <- _]].
  destruct (connect_block block _ _) as [u [fees|e']] eqn:E; intros [= <- <- _].
  apply connect_block_err in E as ->. by destruct chain.
Qed.

Lemma submit_block_Ok block pool chain chain' pool' fees :
  chain_wf chain → block_typed block →
  submit_block block pool chain = (chain', pool', Ok fees) ↔
  links_to (tip_ chain) (header block) ∧
  pool' = prune (transactions block) <$> pool ∧
  ∃ utxos, block_applies block (params_ chain) (utxos_ chain) utxos fees ∧
    chain' = mkChain (header block) utxos (params_ chain).
Proof.
  intros (Ht & Hu & Hp) Hb. unfold submit_block. split.
  - destruct (check_links_to _ _) as [[]|] eqn:El; [|intros H; discriminate H].
    apply check_links_to_Ok in El; [|done|apply Hb].
    destruct (check_block_sanity block) eqn:Es; [|intros H; discriminate H].
    destruct (connect_block block _ _) as [u [f|e']] eqn:E; [|intros H; discriminate H].
    intros H. injection H as <- <- <-. split_and!; [done..|]. exists u. split; [|done].
    by apply connect_block_applies.
  - intros (Hl & -> & u & Hap & ->). rewrite (proj2 (check_links_to_Ok _ _ Ht (proj1 Hb)) Hl).
    rewrite (proj2 (check_block_sanity_Ok block (proj2 Hb)) (proj1 Hap)).
    rewrite (proj2 (connect_block_applies block _ _ _ _ Hb Hp Hu) Hap). done.
Qed.

Record is_genesis (genesis : Block) : Prop := {
  gen_version : hversion (header genesis) = kBlockVersion;
  gen_height : height (header genesis) = 0;
  gen_prev : prev_block (header genesis) = zero_hash;
}.

Lemma create_Ok genesis params chain :
  block_typed genesis → params_wf params →
  create genesis params = Ok chain ↔
  is_genesis genesis ∧ ∃ utxos fees, block_applies genesis params ∅ utxos fees ∧
    chain = mkChain (header genesis) utxos params.
Proof.
  intros Hb Hp. unfold create. split.
  - destruct (negb (_ =? kBlockVersion)) eqn:E1; [intros H; discriminate H|].
    destruct (negb (_ =? 0)) eqn:E2; [intros H; discriminate H|].
    case_bool_decide as E3; [|intros H; discriminate H]. cbn [negb].
    intros ([] & Hs & H)%bind_Ok.
    destruct (connect_block _ _ _) as [u [f|e]] eqn:E; [|discriminate H]. injection H as <-.
    apply connect_block_applies in E; [|done..|apply utxos_wf_empty].
    split; [split; [lia..|done]|]. by exists u, f.
  - intros ([Hv Hh Hpv] & u & f & Hap & ->). rewrite Hv, Hh, Hpv.
    rewrite bool_decide_eq_true_2 by done. cbn [negb Z.eqb]. change (kBlockVersion =? kBlockVersion) with true.
    cbn [negb]. rewrite (proj2 (check_block_sanity_Ok genesis (proj2 Hb)) (proj1 Hap)). rsimpl.
    by rewrite (proj2 (connect_block_applies genesis _ _ _ _ Hb Hp utxos_wf_empty) Hap).
Qed.

(** ** Pruning the pool *)

Lemma prune_lookup txs m id :
  by_txid_ (prune txs m) !! id = if decide (id ∈ txid <$> txs) then None else by_txid_ m !! id.
Proof.
  unfold prune. revert m. induction txs as [|tx txs IH]; intros m; cbn [foldl].
  { by rewrite decide_False by apply not_elem_of_nil. }
  rewrite IH, remove_by_txid, fmap_cons. destruct (decide (id = txid tx)) as [->|Hne].
  - rewrite lookup_delete_eq, (decide_True _ _ (list_elem_of_here _ _)). by case_decide.
  - rewrite lookup_delete_ne by done. repeat case_decide; set_solver.
Qed.

Lemma prune_new txs limits : prune txs (new_mempool limits) = new_mempool limits.
Proof.
  unfold prune. induction txs as [|tx txs IH]; [done|]. cbn [foldl].
  assert (remove (txid tx) (new_mempool limits) = new_mempool limits) as -> by (unfold remove; cbn [by_txid_ new_mempool]; by rewrite lookup_empty).
  exact IH.
Qed.

Lemma prune_wf txs m : pool_wf m → pool_wf (prune txs m).
Proof.
  unfold prune. revert m. induction txs as [|tx txs IH]; intros m Hm; [done|].
  cbn [foldl]. apply IH. by apply remove_wf.
Qed.

(** ** Executions

    The blocks that were connected, newest first, and the chain they give. *)

Inductive chain_of (params : ConsensusParams) : list Block → Chain → Prop :=
  | chain_genesis genesis chain :
      block_typed genesis → create genesis params = Ok chain → chain_of params [genesis] chain
  | chain_step blocks chain block pool chain' pool' fees :
      chain_of params blocks chain → block_typed block →
      submit_block block pool chain = (chain', pool', Ok fees) →
      chain_of params (block :: blocks) chain'.

Section Execution.
Context (params : ConsensusParams).
Hypothesis Hparams : params_wf params.

Lemma chain_of_wf blocks chain : chain_of params blocks chain → chain_wf chain ∧ params_ chain = params.
Proof.
  induction 1 as [g c Hg Hc|bs c b pool c' pool' fees _ [Hwf Hp] Hb Hs].
  - apply create_Ok in Hc as (_ & u & f & Hap & ->); [|done..].
    split; [|done]. split_and!; [apply Hg| |done].
    eapply block_applies_wf; [done|apply utxos_wf_empty|done].
  - apply submit_block_Ok in Hs as (_ & _ & u & Hap & ->); [|done..]. split; [|done].
    destruct Hwf as (_ & Hu & Hpw). split_and!; [apply Hb| |done]. by eapply block_applies_wf.
Qed.

(** Induction over an execution, with the transition of each block. *)
Lemma chain_of_ind' (P : list Block → Chain → Prop) :
  (∀ g u fees, block_typed g → is_genesis g → block_applies g params ∅ u fees →
     P [g] (mkChain (header g) u params)) →
  (∀ bs c b u fees, chain_of params bs c → P bs c → block_typed b → links_to (tip_ c) (header b) →
     block_applies b params (utxos_ c) u fees → P (b :: bs) (mkChain (header b) u params)) →
  ∀ bs c, chain_of params bs c → P bs c.
Proof.
  intros Hg Hs bs c H. induction H as [g c Hty Hc|bs c b pool c' pool' fees Hch IH Hb Hsub].
  - apply create_Ok in Hc as (Hgen & u & f & Hap & ->); [|done..]. by eapply Hg.
  - destruct (chain_of_wf _ _ Hch) as [Hwf Hp].
    apply submit_block_Ok in Hsub as (Hl & _ & u & Hap & ->); [|done..]. rewrite Hp in *.
    by eapply Hs.
Qed.

Lemma chain_of_tip bs c :
  chain_of params bs c → ∃ b bs', bs = b :: bs' ∧ tip_ c = header b ∧
    compute_merkle_root (transactions b) = merkle_root (tip_ c) ∧ block_typed b ∧ block_sane b.
Proof.
  revert bs c. apply chain_of_ind'; [intros g u f Hty _ Hap|intros bs c b u f _ _ Hty _ Hap]; cbn.
  - exists g, []. destruct Hap as (Hs & _). pose proof (bsane_merkle _ Hs). by split_and!.
  - exists b, bs. destruct Hap as (Hs & _). pose proof (bsane_merkle _ Hs). by split_and!.
Qed.

Lemma chain_of_height bs c : chain_of params bs c → height (tip_ c) + 1 = size_z bs.
Proof.
  revert bs c. apply chain_of_ind'; [intros g u f Hty [_ Hh _] Hap|intros bs c b u f _ IH _ [_ _ Hh _] _];
    cbn [tip_ length]; lia.
Qed.

(** The coins in circulation: what the coinbases created less the fees they did not
    claim, never more than one subsidy per block. *)
Lemma chain_of_supply bs c :
  chain_of params bs c → utxo_value (utxos_ c) ≤ block_subsidy params * (height (tip_ c) + 1).
Proof.
  assert (0 ≤ block_subsidy params) as Hsub by apply Hparams.
  revert bs c. apply chain_of_ind'; [intros g u f Hty [_ Hh _] Hap|intros bs c b u f _ IH Hty [_ _ Hh _] Hap]; cbn.
  - pose proof (coinbase_out_le _ _ _ _ _ Hsub Hap). apply block_applies_value in Hap.
    rewrite Hap, Hh. unfold utxo_value. rewrite map_sum_empty. lia.
  - pose proof (coinbase_out_le _ _ _ _ _ Hsub Hap). apply block_applies_value in Hap.
    rewrite Hap, Hh. lia.
Qed.

(** Timestamps never decrease, heights count the blocks and every header commits to
    the one before it. *)
Fixpoint headers_linked (bs : list Block) : Prop :=
  match bs with
  | b :: ((b' :: _) as bs) => links_to (header b') (header b) ∧ headers_linked bs
  | [g] => is_genesis g
  | [] => False
  end.

Lemma chain_of_linked bs c : chain_of params bs c → headers_linked bs.
Proof.
  revert bs c. apply chain_of_ind'; [intros g u f _ Hg _; done|intros bs c b u f Hch IH _ Hl _].
  destruct (chain_of_tip _ _ Hch) as (b' & bs' & -> & Ht & _). rewrite Ht in Hl. by split.
Qed.

End Execution.

(** ** The tip hash commits to the whole history *)

(** Every byte string hashed for the blocks of a chain. *)
Definition chain_hashed (bs : list Block) : list (list byte) :=
  bs ≫= λ b, enc_header (header b) :: merkle_hashed (transactions b).

Definition no_zero_digest (l : list (list byte)) : Prop := Forall (λ x, sha256d x ≠ zero_hash) l.

Lemma chain_hashed_elem bs b x :
  b ∈ bs → x ∈ enc_header (header b) :: merkle_hashed (transactions b) → x ∈ chain_hashed bs.
Proof. intros Hb Hx. apply list_elem_of_bind. by exists b. Qed.

Lemma tx_wf_of_sane txs : Forall tx_typed txs → Forall tx_sane txs → Forall tx_wf txs.
Proof.
  intros Hty Hs. rewrite Forall_forall in *. intros tx Hin. split; [by apply Hty|].
  destruct (Hs _ Hin). done.
Qed.

Section Commitment.
Context (bs1 bs2 : list Block).
Hypothesis Hcf : collision_free (chain_hashed bs1 ++ chain_hashed bs2).
Hypothesis Hz : no_zero_digest (chain_hashed bs1 ++ chain_hashed bs2).

Lemma same_root_same_block b1 b2 :
  b1 ∈ bs1 → b2 ∈ bs2 → block_typed b1 → block_typed b2 → block_sane b1 → block_sane b2 →
  header b1 = header b2 → b1 = b2.
Proof.
  intros Hin1 Hin2 [_ Ht1] [_ Ht2] Hs1 Hs2 Hh.
  assert (transactions b1 = transactions b2) as E; [|destruct b1, b2; cbn in *; congruence].
  assert (compute_merkle_root (transactions b1) = compute_merkle_root (transactions b2)) as Er.
  { rewrite <- (bsane_merkle _ Hs1), <- (bsane_merkle _ Hs2). by rewrite Hh. }
  assert (∀ x, x ∈ merkle_hashed (transactions b1) → x ∈ chain_hashed bs1 ++ chain_hashed bs2) as Hsub1.
  { intros x Hx. apply elem_of_app. left. eapply chain_hashed_elem; [done|by right]. }
  assert (∀ x, x ∈ merkle_hashed (transactions b2) → x ∈ chain_hashed bs1 ++ chain_hashed bs2) as Hsub2.
  { intros x Hx. apply elem_of_app. right. eapply chain_hashed_elem; [done|by right]. }
  unfold no_zero_digest in Hz. rewrite Forall_forall in Hz.
  destruct (decide (transactions b1 = [])) as [E1|N1], (decide (transactions b2 = [])) as [E2|N2].
  - congruence.
  - destruct (merkle_root_hashed _ N2) as (x & Hx & Ex). rewrite E1 in Er. cbn in Er.
    destruct (Hz x); [by apply Hsub2|]. by rewrite <- Ex.
  - destruct (merkle_root_hashed _ N1) as (x & Hx & Ex). rewrite E2 in Er. cbn in Er.
    destruct (Hz x); [by apply Hsub1|]. by rewrite <- Ex.
  - apply merkle_binding; try done.
    + apply tx_wf_of_sane; [done|apply Hs1].
    + apply tx_wf_of_sane; [done|apply Hs2].
    + apply Hs1.
    + apply Hs2.
    + intros x y Hx Hy. apply Hcf; apply elem_of_app in Hx as [?|?], Hy as [?|?]; auto.
Qed.

Lemma same_hash_same_header b1 b2 :
  b1 ∈ bs1 → b2 ∈ bs2 → block_typed b1 → block_typed b2 →
  header_hash (header b1) = header_hash (header b2) → header b1 = header b2.
Proof.
  intros Hin1 Hin2 [Hh1 _] [Hh2 _] E. rewrite !header_hash_enc in E.
  apply (enc_inj (get := header_deserialize) (wf := header_wf) (enc := enc_header)); [done..|].
  apply Hcf; [| |done]; apply elem_of_app; [left|right]; (eapply chain_hashed_elem; [done|left]).
Qed.

Lemma same_hash_same_block b1 b2 :
  b1 ∈ bs1 → b2 ∈ bs2 → block_typed b1 → block_typed b2 → block_sane b1 → block_sane b2 →
  header_hash (header b1) = header_hash (header b2) → b1 = b2.
Proof.
  intros Hin1 Hin2 Ht1 Ht2 Hs1 Hs2 E. apply same_root_same_block; try done.
  by apply same_hash_same_header.
Qed.

Lemma same_tip_same_blocks params l1 l2 c1 c2 :
  params_wf params → l1 ⊆ bs1 → l2 ⊆ bs2 → chain_of params l1 c1 → chain_of params l2 c2 →
  header_hash (tip_ c1) = header_hash (tip_ c2) → l1 = l2.
Proof.
  intros Hp. revert l2 c1 c2. induction l1 as [|b1 l1 IH]; intros l2 c1 c2 Hl1 Hl2 H1 H2 E.
  { by inversion H1. }
  destruct (chain_of_tip params Hp _ _ H1) as (? & ? & [= <- <-] & T1 & _ & Ty1 & S1).
  destruct (chain_of_tip params Hp _ _ H2) as (b2 & l2' & -> & T2 & _ & Ty2 & S2).
  rewrite T1, T2 in E. assert (b1 = b2) as <-.
  { apply same_hash_same_block; try done; [apply Hl1; left|apply Hl2; left]. }
  f_equal. clear E T1 T2.
  destruct (chain_of_wf params Hp _ _ H1) as [W1 _], (chain_of_wf params Hp _ _ H2) as [W2 _].
  pose proof (chain_of_linked params Hp _ _ H1) as L1. pose proof (chain_of_linked params Hp _ _ H2) as L2.
  inversion H1 as [|bs c b pool c' pool' fees Hc1 _ Hs1]; subst;
    inversion H2 as [|bs' c' b' pool2 c2' pool2' fees2 Hc2 _ Hs2]; subst; [done|..].
  - destruct (chain_of_tip params Hp _ _ Hc2) as (b2 & l2 & -> & T2 & _). destruct L2 as [[_ _ Hh _] _].
    destruct L1 as [_ Hh0 _]. destruct (chain_of_wf params Hp _ _ Hc2) as [(Hw & _) _].
    rewrite T2 in Hw. destruct Hw as (_ & _ & _ & _ & ?). solve_u.
  - destruct (chain_of_tip params Hp _ _ Hc1) as (b2 & l2 & -> & T2 & _). destruct L1 as [[_ _ Hh _] _].
    destruct L2 as [_ Hh0 _]. destruct (chain_of_wf params Hp _ _ Hc1) as [(Hw & _) _].
    rewrite T2 in Hw. destruct Hw as (_ & _ & _ & _ & ?). solve_u.
  - destruct (chain_of_tip params Hp _ _ Hc1) as (x1 & k1 & -> & T1 & _).
    destruct (chain_of_tip params Hp _ _ Hc2) as (x2 & k2 & -> & T2 & _).
    destruct L1 as [[_ P1 _ _] _], L2 as [[_ P2 _ _] _].
    eapply IH; [intros ? ?; apply Hl1; by right|intros ? ?; apply Hl2; by right|done..|].
    rewrite T1, T2. congruence.
Qed.
End Commitment.

(** Replaying the same blocks gives the same chain. *)
Lemma block_applies_det block params u u1 u2 f1 f2 :
  block_typed block → params_wf params → utxos_wf u →
  block_applies block params u u1 f1 → block_applies block params u u2 f2 → u1 = u2 ∧ f1 = f2.
Proof.
  intros Hb Hp Hu H1 H2. apply connect_block_applies in H1; [|done..].
  apply connect_block_applies in H2; [|done..].
  rewrite H1 in H2. by injection H2 as -> ->.
Qed.

Lemma chain_of_det params bs c1 c2 :
  params_wf params → chain_of params bs c1 → chain_of params bs c2 → c1 = c2.
Proof.
  intros Hp H1. revert c2. induction H1 as [g c Hty Hc|bs c b pool c' pool' fees Hch IH Hb Hs]; intros c2 H2.
  - inversion H2; subst; [congruence|]. by match goal with H : chain_of _ [] _ |- _ => inversion H end.
  - inversion H2 as [|? c3 ? ? ? ? ? Hc' _ Hs']; subst; [inversion Hch|].
    apply IH in Hc' as <-. destruct (chain_of_wf _ Hp _ _ Hch) as [Hwf _].
    apply submit_block_Ok in Hs as (_ & _ & u & Hap & ->); [|done..].
    apply submit_block_Ok in Hs' as (_ & _ & u' & Hap' & ->); [|done..].
    destruct Hwf as (_ & Hu & Hpw).
    by destruct (block_applies_det _ _ _ _ _ _ _ Hb Hpw Hu Hap Hap') as [-> _].
Qed.
