(* ===== verification/BlockBuilder.v ===== *)
(** * Block production ([include/blockchain/production/block_builder.hpp],
    [src/production/block_builder.cpp]) *)

From S2P Require Import Prelude Errors Sha256 ByteIO Transaction Block Utxo TxValidation BlockValidation Mempool Chain.

Record BlockTemplateParams := mkBlockTemplateParams {
  bt_version : Z;
  max_block_size_bytes : Z;
  bt_max_transactions : Z;
  consensus : ConsensusParams;
  coinbase_recipient : Hash256;
}.

Record BlockTemplate := mkBlockTemplate {
  bt_block : Block;
  bt_total_fees : Z;
  bt_selected_count : Z;
}.

(** ** Operations *)

(** [try_apply]: [None] is the returned [false], which leaves [working] untouched. *)
Definition try_apply (tx : Transaction) (height : Z) (working : UtxoSet) : option UtxoSet :=
  match spend_inputs (inputs tx) working ≫= add_outputs tx height false with
  | Ok trial => Some trial
  | Err _ => None
  end.

(** The variables of the selection loop; [sel_txs] are the transactions pushed after
    the coinbase. *)
Record Selection := mkSelection {
  sel_working : UtxoSet;
  sel_fees : Z;
  sel_size : Z;
  sel_count : Z;
  sel_txs : list Transaction;
}.

(** The selection loop. *)
Fixpoint select_transactions (params : BlockTemplateParams) (height : Z) (entries : list Entry)
    (s : Selection) : Selection :=
  match entries with
  | [] => s
  | entry :: entries =>
      if bt_max_transactions params <=? sel_count s then s
      else
        let projected := wrap64 (sel_size s + e_size_bytes entry) in
        let tx := e_transaction entry in
        if max_block_size_bytes params <? projected then select_transactions params height entries s
        else
          match check_transaction_inputs tx (sel_working s) with
          | Err _ => select_transactions params height entries s
          | Ok fee =>
              match check_coinbase_maturity tx (sel_working s) height
                      (coinbase_maturity (consensus params)) with
              | Err _ => select_transactions params height entries s
              | Ok _ =>
                  match try_apply tx height (sel_working s) with
                  | None => select_transactions params height entries s
                  | Some working =>
                      match checked_add (sel_fees s) fee with
                      | None =>
                          select_transactions params height entries
                            (mkSelection working (sel_fees s) (sel_size s) (sel_count s) (sel_txs s))
                      | Some new_fees =>
                          select_transactions params height entries
                            (mkSelection working new_fees projected (sel_count s + 1) (sel_txs s ++ [tx]))
                      end
                  end
              end
          end
  end.

(** The block before selection: the placeholder coinbase and a zero Merkle root. *)
Definition placeholder_block (tip : BlockHeader) (ts : Z) (params : BlockTemplateParams) : Block :=
  let h := wrap32 (height tip + 1) in
  mkBlock (mkBlockHeader (bt_version params) (header_hash tip) zero_hash ts h)
    [make_coinbase h (block_subsidy (consensus params)) (coinbase_recipient params)].

Definition finished_block (tip : BlockHeader) (ts : Z) (params : BlockTemplateParams)
    (reward : Z) (txs : list Transaction) : Block :=
  let h := wrap32 (height tip + 1) in
  let txs := make_coinbase h reward (coinbase_recipient params) :: txs in
  mkBlock (mkBlockHeader (bt_version params) (header_hash tip) (compute_merkle_root txs) ts h) txs.

Definition build_block_template (tip : BlockHeader) (ts : Z) (pool : Mempool) (utxos : UtxoSet)
    (params : BlockTemplateParams) : Result BlockTemplate :=
  if height tip =? UINT32_MAX
  then make_error kInvalidBlock "chain height would overflow"
  else
    let h := wrap32 (height tip + 1) in
    let current_size := size_z (block_to_bytes (placeholder_block tip ts params)) in
    let s := select_transactions params h (entries_by_feerate pool)
               (mkSelection utxos 0 current_size 0 []) in
    match checked_add (block_subsidy (consensus params)) (sel_fees s) with
    | None => make_error kInvalidBlock "coinbase reward overflow"
    | Some reward =>
        let block := finished_block tip ts params reward (sel_txs s) in
        match connect_block block utxos (consensus params) with
        | (_, Err e) =>
            make_error kInvalidBlock ("produced block failed validation: " +:+ message e)
        | (_, Ok fees) => mret (mkBlockTemplate block fees (sel_count s))
        end
    end.

(** ** The selection applies to the confirmed coins *)

Lemma txs_apply_snoc h params txs u u1 u2 f fee tx :
  txs_apply h params txs u u1 f → tx_applies h params tx u1 u2 fee →
  txs_apply h params (txs ++ [tx]) u u2 (f + fee).
Proof.
  intros H Htx. induction H as [u|tx' txs u u1' u1 fee' fees Hap H IH].
  - replace (0 + fee) with (fee + 0) by lia. econstructor; [done|constructor].
  - rewrite <- Z.add_assoc. cbn [app]. econstructor; [done|by apply IH].
Qed.

Section Select.
Context (params : BlockTemplateParams) (h : Z) (utxos : UtxoSet) (base : Z).
Hypothesis Hparams : params_wf (consensus params).
Hypothesis Hh : is_u32 h.
Hypothesis Hutxos : utxos_wf utxos.
Hypothesis Hbase : 0 ≤ base < 2 ^ 32.
Hypothesis Hmax : is_u32 (max_block_size_bytes params).
(** No sum of fees overflows. *)
Hypothesis Hvalue : utxo_value utxos ≤ UINT64_MAX.

Lemma try_apply_applies tx w w' fee :
  tx_typed tx → tx_sane tx → utxos_wf w →
  check_transaction_inputs tx w = Ok fee →
  check_coinbase_maturity tx w h (coinbase_maturity (consensus params)) = Ok tt →
  try_apply tx h w = Some w' → tx_applies h (consensus params) tx w w' fee.
Proof.
  intros Hty Hs Hw Hf Hm Ht.
  assert (connect_tx h (consensus params) tx w 0 = Ok (w', fee)) as H.
  { unfold connect_tx. rewrite Hf, Hm. rsimpl. unfold try_apply in Ht.
    destruct (spend_inputs (inputs tx) w) as [w1|]; [|discriminate Ht]. cbn [mbind Result_bind] in *.
    destruct (add_outputs tx h false w1) as [w2|]; [|discriminate Ht]. injection Ht as <-. rsimpl.
    apply check_transaction_inputs_Ok in Hf as (cs & _ & Hle & Ef & H0); [|done..].
    pose proof (out_value_nonneg tx Hty). unfold checked_add.
    destruct (_ <? 0) eqn:E; [lia|]. done. }
  apply connect_tx_Ok in H as (fee' & Hap & -> & _); [done..].
Qed.

Record sel_ok (s : Selection) : Prop := {
  so_apply : txs_apply h (consensus params) (sel_txs s) utxos (sel_working s) (sel_fees s);
  so_wf : utxos_wf (sel_working s);
  so_txs : Forall tx_sane (sel_txs s);
  so_size : sel_size s = base + sum_z (tx_size <$> sel_txs s);
  so_size_le : sel_size s ≤ base `max` max_block_size_bytes params;
  so_count : sel_count s = size_z (sel_txs s);
  so_count_le : sel_count s ≤ 0 `max` bt_max_transactions params;
}.

Lemma sel_ok_start : sel_ok (mkSelection utxos 0 base 0 []).
Proof. split; cbn; try done; [constructor|lia..]. Qed.

Lemma sum_sizes_nonneg txs : 0 ≤ sum_z (tx_size <$> txs).
Proof. apply sum_z_nonneg, Forall_fmap, Forall_true. intros tx. unfold tx_size. cbn. lia. Qed.

Lemma sel_ok_step s e w fee :
  sel_ok s → entry_ok e → sel_count s < bt_max_transactions params →
  sel_size s + e_size_bytes e ≤ max_block_size_bytes params →
  tx_applies h (consensus params) (e_transaction e) (sel_working s) w fee →
  checked_add (sel_fees s) fee = Some (sel_fees s + fee) ∧
  sel_ok (mkSelection w (sel_fees s + fee) (sel_size s + e_size_bytes e) (sel_count s + 1)
            (sel_txs s ++ [e_transaction e])).
Proof.
  intros [Ha Hw Ht Hsz Hsz' Hc Hc'] [_ Hes _ Hety Hesane _] Hcnt Hsize Hap.
  pose proof (txs_apply_snoc _ _ _ _ _ _ _ _ _ Ha Hap) as Ha'.
  assert (utxos_wf w) as Hw' by (by eapply tx_applies_wf; [..|exact Hap]).
  assert (Forall tx_sane (sel_txs s ++ [e_transaction e])) as Ht'
    by (apply Forall_app; split; [done|by apply Forall_singleton]).
  pose proof (txs_apply_value _ _ _ _ _ _ Ht' Ha') as Hv.
  pose proof (utxo_value_nonneg _ Hw'). split.
  - unfold checked_add. destruct (_ <? _) eqn:E; [lia|done].
  - split; cbn; try done.
    + rewrite fmap_app, sum_z_app. cbn. unfold tx_size at 2. lia.
    + lia.
    + rewrite length_app. cbn. lia.
    + lia.
Qed.

Lemma select_transactions_ok entries s :
  Forall entry_ok entries → sel_ok s →
  let s' := select_transactions params h entries s in
  sel_ok s' ∧ ∃ l, sel_txs s' = sel_txs s ++ l ∧ l `sublist_of` (e_transaction <$> entries).
Proof.
  intros He. revert s. induction He as [|e entries He Hes IH]; intros s Hs; cbn [select_transactions].
  { split; [done|]. exists []. by rewrite app_nil_r. }
  destruct (_ <=? sel_count s) eqn:E1.
  { split; [done|]. exists []. rewrite app_nil_r. split; [done|apply sublist_nil_l]. }
  assert (let s' := select_transactions params h entries s in
    sel_ok s' ∧ ∃ l, sel_txs s' = sel_txs s ++ l ∧ l `sublist_of` (e_transaction <$> e :: entries)) as Hskip.
  { destruct (IH s Hs) as (Hs' & l & El & Hl). split; [done|]. exists l. split; [done|].
    rewrite fmap_cons. by apply sublist_cons. }
  assert (wrap64 (sel_size s + e_size_bytes e) = sel_size s + e_size_bytes e) as Hw.
  { apply wrap64_small. pose proof (entry_ok_sized _ He) as (_ & _ & Hpos).
    pose proof (so_size_le _ Hs). pose proof (so_size _ Hs). pose proof (sum_sizes_nonneg (sel_txs s)).
    assert (e_size_bytes e ≤ 65536) by (rewrite (eo_size _ He); apply (sane_size _ (eo_sane _ He))).
    solve_u. }
  rewrite Hw. destruct (max_block_size_bytes params <? _) eqn:E2; [done|].
  destruct (check_transaction_inputs _ _) as [fee|] eqn:E3; [|done].
  destruct (check_coinbase_maturity _ _ _ _) as [[]|] eqn:E4; [|done].
  destruct (try_apply _ _ _) as [w|] eqn:E5; [|done].
  pose proof (try_apply_applies _ _ _ _ (eo_typed _ He) (eo_sane _ He) (so_wf _ Hs) E3 E4 E5) as Hap.
  destruct (sel_ok_step s e w fee) as [-> Hs']; [done..|lia|lia|done|].
  destruct (IH _ Hs') as (Hs'' & l & El & Hl). split; [done|]. exists (e_transaction e :: l).
  rewrite El. cbn [sel_txs]. rewrite <- app_assoc. split; [done|]. rewrite fmap_cons. by apply sublist_skip.
Qed.
End Select.

(** A coin of the new set was there before or was created by one of the transactions. *)
Lemma txs_apply_origin h params txs u u' f o c :
  txs_apply h params txs u u' f → u' !! o = Some c → u !! o = Some c ∨ op_txid o ∈ txid <$> txs.
Proof.
  induction 1 as [u|tx txs u u1 u2 fee fees [_ _ _ ->] _ IH]; intros Ho; [by left|].
  rewrite fmap_cons. apply IH in Ho as [Ho|Ho]; [|right; by right].
  apply lookup_union_Some_raw in Ho as [Ho|[_ Ho]].
  - apply tx_coins_lookup in Ho as (-> & _). right. left.
  - left. by eapply lookup_weaken, without_subseteq.
Qed.

Lemma make_coinbase_sane h v r : is_u64 v → hash_wf r → v ≤ kMaxMoney → tx_sane (make_coinbase h v r).
Proof.
  intros Hv Hr Hle. destruct (make_coinbase_wf h v r Hv Hr) as (Hty & _). split; try done.
  - cbn. apply NoDup_singleton.
  - unfold out_value. cbn. lia.
  - rewrite tx_to_bytes_enc, length_enc_tx by done. done.
Qed.

Lemma make_coinbase_size h v r : is_u64 v → hash_wf r → tx_size (make_coinbase h v r) = 92.
Proof.
  intros Hv Hr. destruct (make_coinbase_wf h v r Hv Hr) as (Hty & _). unfold tx_size.
  by rewrite tx_to_bytes_enc, length_enc_tx.
Qed.

(** ** Producing a block *)

(** The environment of a call: values of the C++ types and the limits a block must
    respect anyway. *)
Record template_env (tip : BlockHeader) (ts : Z) (pool : Mempool) (utxos : UtxoSet)
    (params : BlockTemplateParams) : Prop := {
  te_tip : header_wf tip;
  te_height : height tip < UINT32_MAX;
  te_ts : is_u64 ts;
  te_pool : pool_wf pool;
  te_utxos : utxos_wf utxos;
  te_consensus : params_wf (consensus params);
  te_version : is_u32 (bt_version params);
  te_recipient : hash_wf (coinbase_recipient params);
  te_size : 0 ≤ max_block_size_bytes params ≤ kMaxBlockSizeBytes;
  te_count : 0 ≤ bt_max_transactions params;
  te_money : utxo_value utxos + block_subsidy (consensus params) ≤ kMaxMoney;
}.

(** No transaction around has the txid of the coinbase to be made. *)
Definition coinbase_fresh (cb : Transaction) (pool : Mempool) (utxos : UtxoSet) : Prop :=
  by_txid_ pool !! txid cb = None ∧ ∀ o c, utxos !! o = Some c → op_txid o ≠ txid cb.

(** The selection and the coinbase that the producer ends up with. *)
Definition template_selection (tip : BlockHeader) (ts : Z) (pool : Mempool) (utxos : UtxoSet)
    (params : BlockTemplateParams) : Selection :=
  select_transactions params (wrap32 (height tip + 1)) (entries_by_feerate pool)
    (mkSelection utxos 0 (size_z (block_to_bytes (placeholder_block tip ts params))) 0 []).

Definition template_coinbase (tip : BlockHeader) (ts : Z) (pool : Mempool) (utxos : UtxoSet)
    (params : BlockTemplateParams) : Transaction :=
  make_coinbase (wrap32 (height tip + 1))
    (block_subsidy (consensus params) + sel_fees (template_selection tip ts pool utxos params))
    (coinbase_recipient params).

Section Template.
Context (tip : BlockHeader) (ts : Z) (pool : Mempool) (utxos : UtxoSet) (params : BlockTemplateParams).
Hypothesis Henv : template_env tip ts pool utxos params.

Let h := wrap32 (height tip + 1).
Let s := select_transactions params h (entries_by_feerate pool) (mkSelection utxos 0 176 0 []).

Lemma next_height : h = height tip + 1 ∧ is_u32 h.
Proof.
  subst h. destruct (te_tip _ _ _ _ _ Henv) as (_ & _ & _ & _ & Hu). pose proof (te_height _ _ _ _ _ Henv).
  rewrite wrap32_small by solve_u. split; [done|solve_u].
Qed.

Lemma base_size : size_z (block_to_bytes (placeholder_block tip ts params)) = 176.
Proof.
  destruct Henv as [_ _ Hts _ _ [Hsub _] Hver Hrec _ _ _]. destruct next_height as [_ Hh].
  rewrite block_size; cbn.
  - rewrite make_coinbase_size; done.
  - split_and!; done || apply sha256d_wf.
Qed.

Lemma entries_ok : Forall entry_ok (entries_by_feerate pool).
Proof.
  apply Forall_forall. intros e He. rewrite entries_by_feerate_perm in He.
  by apply pool_entries_ok in He as [_ ?]; [|apply Henv].
Qed.

Lemma selection_ok :
  sel_ok params h utxos 176 s ∧ sel_txs s `sublist_of` (e_transaction <$> entries_by_feerate pool).
Proof.
  destruct next_height as [_ Hh]. pose proof Henv as [_ _ _ _ Hu Hp _ _ Hsz _ Hmoney].
  destruct (select_transactions_ok params h utxos 176) with
    (entries := entries_by_feerate pool) (s := mkSelection utxos 0 176 0 []) as (Hs & l & El & Hl).
  - done.
  - done.
  - done.
  - change kMaxBlockSizeBytes with 1048576 in Hsz. solve_u.
  - change kMaxMoney with 2100000000000000 in Hmoney. destruct Hp as [[] _]. solve_u.
  - apply entries_ok.
  - by apply sel_ok_start.
  - split; [exact Hs|]. unfold s. by rewrite El.
Qed.

Lemma selected_txs : Forall (λ tx, ∃ e, by_txid_ pool !! txid tx = Some e ∧ e_transaction e = tx ∧ entry_ok e) (sel_txs s).
Proof.
  apply Forall_forall. intros tx Htx. destruct selection_ok as [_ Hsub].
  pose proof (elem_of_sublist _ _ _ Htx Hsub) as Hin. clear Htx. rename Hin into Htx.
  apply list_elem_of_fmap in Htx as (e & -> & He). rewrite entries_by_feerate_perm in He.
  apply pool_entries_ok in He as [He Hok]; [|apply Henv]. exists e. by rewrite <- (eo_txid _ Hok).
Qed.

Lemma selected_nodup : NoDup (txid <$> sel_txs s).
Proof.
  destruct selection_ok as [_ Hsub]. eapply sublist_NoDup; [|by apply fmap_sublist, Hsub].
  rewrite <- list_fmap_compose, entries_by_feerate_perm.
  erewrite list_fmap_ext; [apply (pool_entries_nodup pool), Henv|].
  intros k e He%list_elem_of_lookup_2. cbn. apply pool_entries_ok in He as [_ []]; [done|apply Henv].
Qed.

Lemma selected_fees :
  0 ≤ sel_fees s ∧ checked_add (block_subsidy (consensus params)) (sel_fees s) =
    Some (block_subsidy (consensus params) + sel_fees s) ∧
  block_subsidy (consensus params) + sel_fees s ≤ kMaxMoney.
Proof.
  destruct selection_ok as [[Ha Hw Ht _ _ _ _] _]. pose proof (txs_apply_nonneg _ _ _ _ _ _ Ha) as H0.
  apply txs_apply_value in Ha; [|done]. apply utxo_value_nonneg in Hw.
  pose proof (te_money _ _ _ _ _ Henv) as Hm. split_and!; [done| |lia].
  unfold checked_add. destruct (_ <? _) eqn:E; [|done].
  change kMaxMoney with 2100000000000000 in Hm. solve_u.
Qed.

Let reward := block_subsidy (consensus params) + sel_fees s.
Let block := finished_block tip ts params reward (sel_txs s).

Lemma reward_u64 : is_u64 reward.
Proof.
  destruct selected_fees as (H0 & _ & Hle). change kMaxMoney with 2100000000000000 in Hle.
  destruct (te_consensus _ _ _ _ _ Henv) as [[] _]. subst reward. solve_u.
Qed.

(** A transaction has an input and an output, so the size limit bounds the count. *)
Lemma selected_count_bound : 92 * size_z (sel_txs s) ≤ sum_z (tx_size <$> sel_txs s).
Proof.
  pose proof selected_txs as Hsel. clear block. induction Hsel as [|tx txs (e & _ & <- & Hok) _ IH]; [done|].
  rewrite fmap_cons, length_cons. cbn [sum_z]. destruct Hok as [_ _ _ Hty Hsane _].
  assert (92 ≤ tx_size (e_transaction e)); [|lia]. unfold tx_size. rewrite tx_to_bytes_enc, length_enc_tx by done.
  pose proof (sane_inputs _ Hsane). pose proof (sane_outputs _ Hsane).
  destruct (inputs (e_transaction e)), (outputs (e_transaction e)); try done. rewrite !length_cons. lia.
Qed.

Lemma finished_typed : block_typed block.
Proof.
  destruct next_height as [_ Hh]. pose proof Henv as [_ _ Hts _ _ _ Hver Hrec _ _ _]. split.
  - unfold header_wf, block, finished_block. cbn [header hversion prev_block merkle_root timestamp height].
    split_and!; [done|apply sha256d_wf| |done|done]. fold h.
    destruct (merkle_root_hashed (make_coinbase h reward (coinbase_recipient params) :: sel_txs s))
      as (x & _ & ->); [done|]. apply sha256d_wf.
  - constructor; [apply make_coinbase_wf; [apply reward_u64|done]|].
    eapply Forall_impl; [apply selected_txs|]. intros tx (e & _ & <- & []). done.
Qed.

Lemma finished_size : size_z (block_to_bytes block) = sel_size s.
Proof.
  destruct selection_ok as [Hs _]. rewrite (so_size _ _ _ _ _ Hs), block_size by apply finished_typed.
  cbn [block finished_block transactions]. rewrite fmap_cons. cbn [sum_z].
  rewrite make_coinbase_size; [lia|apply reward_u64|apply Henv].
Qed.

Context (Hfresh : coinbase_fresh (make_coinbase h reward (coinbase_recipient params)) pool utxos).

Lemma finished_sane : block_sane block.
Proof.
  destruct selection_ok as [[_ _ Htx Hsum Hsize Hc Hc'] _].
  pose proof Henv as [_ _ _ _ _ _ _ Hrec Hsz Hcnt _].
  pose proof selected_count_bound as Hb. destruct selected_fees as (_ & _ & Hmoney). split.
  - cbn [block finished_block transactions]. rewrite length_cons. change kMaxTransactionsPerBlock with 65536.
    change kMaxBlockSizeBytes with 1048576 in *. lia.
  - rewrite finished_size. change kMaxBlockSizeBytes with 1048576 in *. lia.
  - done.
  - constructor; [|done]. apply make_coinbase_sane; [apply reward_u64|done..].
  - cbn. eapply Forall_impl; [apply selected_txs|]. by intros tx (e & _ & <- & []).
  - cbn [block finished_block transactions]. rewrite fmap_cons. constructor; [|apply selected_nodup].
    intros (tx & E & Htx')%list_elem_of_fmap. pose proof selected_txs as Hsel. rewrite Forall_forall in Hsel.
    destruct (Hsel _ Htx') as (e & He & _). rewrite <- E in He.
    destruct Hfresh as [Hn _]. fold h in He. congruence.
Qed.

Lemma finished_applies :
  ∃ utxos', block_applies block (consensus params) utxos utxos' (sel_fees s).
Proof.
  destruct selection_ok as [Hs _]. destruct selected_fees as (H0 & Hadd & Hmoney).
  pose proof finished_sane as Hsane. change kMaxMoney with 2100000000000000 in Hmoney.
  destruct (te_consensus _ _ _ _ _ Henv) as [[] _].
  set (cb := make_coinbase h reward (coinbase_recipient params)).
  exists (tx_coins cb h true ∪ sel_working s). split_and!; [done|solve_u|].
  exists (sel_working s). split; [apply Hs|]. unfold coinbase_applies.
  change (transactions block) with (cb :: sel_txs s). cbn [is_coinbase cb make_coinbase inputs prevout op_index].
  rewrite Z.eqb_refl. change (height (header block)) with h. split_and!; [solve_u| | |done].
  - unfold out_value, cb. cbn. subst reward. lia.
  - apply map_disjoint_spec. intros o c c' Hc Hc'. apply tx_coins_lookup in Hc as (Eo & _).
    destruct Hfresh as [Hn Hu].
    destruct (txs_apply_origin _ _ _ _ _ _ _ _ (so_apply _ _ _ _ _ Hs) Hc') as [Ho|Ho].
    + by apply (Hu _ _ Ho).
    + rewrite Eo in Ho. apply list_elem_of_fmap in Ho as (tx & E & Htx').
      pose proof selected_txs as Hsel. rewrite Forall_forall in Hsel.
      destruct (Hsel _ Htx') as (e & He & _). rewrite <- E in He. fold cb in Hn. congruence.
Qed.

Lemma template_built :
  build_block_template tip ts pool utxos params =
  Ok (mkBlockTemplate block (sel_fees s) (sel_count s)).
Proof.
  unfold build_block_template. pose proof (te_height _ _ _ _ _ Henv).
  destruct (_ =? UINT32_MAX) eqn:E; [lia|]. rewrite base_size. fold h. fold s.
  destruct selected_fees as (_ & -> & _). fold reward. fold block.
  destruct finished_applies as [u' Hap].
  by rewrite (proj2 (connect_block_applies block utxos _ u' _ finished_typed
    (te_consensus _ _ _ _ _ Henv) (te_utxos _ _ _ _ _ Henv)) Hap).
Qed.
End Template.

(** The transactions of a template are a coinbase and the selection. *)
Lemma built_transactions tip ts pool utxos params t :
  build_block_template tip ts pool utxos params = Ok t →
  transactions (bt_block t) =
    template_coinbase tip ts pool utxos params :: sel_txs (template_selection tip ts pool utxos params).
Proof.
  unfold build_block_template, template_coinbase, template_selection. destruct (_ =? UINT32_MAX); [intros H; discriminate H|]. cbv zeta.
  set (s := select_transactions _ _ _ _). clearbody s.
  unfold checked_add. destruct (_ <? _); [intros H; discriminate H|].
  destruct (connect_block _ utxos _) as [u [fees|e]]; [|intros H; discriminate H].
  intros H. by apply Ok_inj in H as <-.
Qed.

(** What the producer returns, and that the chain it was built for accepts it. *)
Lemma template_spec tip ts pool utxos params :
  template_env tip ts pool utxos params →
  coinbase_fresh (template_coinbase tip ts pool utxos params) pool utxos →
  let s := template_selection tip ts pool utxos params in
  let block := finished_block tip ts params (block_subsidy (consensus params) + sel_fees s) (sel_txs s) in
  build_block_template tip ts pool utxos params = Ok (mkBlockTemplate block (sel_fees s) (sel_count s)) ∧
  (∃ utxos', block_applies block (consensus params) utxos utxos' (sel_fees s)) ∧
  block_typed block ∧
  sel_txs s `sublist_of` (e_transaction <$> entries_by_feerate pool) ∧
  size_z (block_to_bytes block) ≤ 176 `max` max_block_size_bytes params ∧
  sel_count s = size_z (sel_txs s) ∧ sel_count s ≤ bt_max_transactions params.
Proof.
  intros Henv Hfresh. unfold template_coinbase, template_selection in *.
  rewrite (base_size _ _ _ _ _ Henv) in *. cbv zeta.
  destruct (selection_ok _ _ _ _ _ Henv) as [Hs Hsub].
  split; [by apply template_built|]. split; [by apply finished_applies|].
  split; [by apply finished_typed|]. split; [done|].
  rewrite (finished_size _ _ _ _ _ Henv). split; [apply Hs|]. split; [apply Hs|].
  pose proof (so_count_le _ _ _ _ _ Hs). pose proof (te_count _ _ _ _ _ Henv). lia.
Qed.

(** The transactions of any selection come from the pool. *)
Lemma select_transactions_subset params h entries s :
  sel_txs (select_transactions params h entries s) ⊆ sel_txs s ++ (e_transaction <$> entries).
Proof.
  revert s. induction entries as [|e entries IH]; intros s; cbn [select_transactions].
  { by rewrite app_nil_r. }
  assert (∀ s', sel_txs s' ⊆ sel_txs s ++ [e_transaction e] →
    sel_txs (select_transactions params h entries s') ⊆ sel_txs s ++ (e_transaction <$> e :: entries)) as Hs.
  { intros s' Hs tx Htx%IH. rewrite fmap_cons. revert Htx. rewrite !elem_of_app, elem_of_cons.
    intros [Htx%Hs|Htx]; [|auto]. rewrite elem_of_app, list_elem_of_singleton in Htx. naive_solver. }
  assert (sel_txs s ⊆ sel_txs s ++ [e_transaction e]) as Hself by set_solver.
  repeat case_match; try (apply Hs; cbn [sel_txs]; done). intros tx Htx. apply elem_of_app. by left.
Qed.

Lemma check_transaction_inputs_nonneg tx utxos fee : check_transaction_inputs tx utxos = Ok fee → 0 ≤ fee.
Proof. unfold check_transaction_inputs. intros H. inv_ok. lia. Qed.

Lemma select_transactions_fees params h entries s :
  0 ≤ sel_fees s → 0 ≤ sel_fees (select_transactions params h entries s).
Proof.
  revert s. induction entries as [|e entries IH]; intros s Hs; cbn [select_transactions]; [done|].
  destruct (_ <=? sel_count s); [done|]. destruct (_ <? wrap64 _); [by apply IH|].
  destruct (check_transaction_inputs _ _) as [fee|] eqn:Ef; [|by apply IH].
  apply check_transaction_inputs_nonneg in Ef.
  destruct (check_coinbase_maturity _ _ _ _) as [[]|]; [|by apply IH].
  destruct (try_apply _ _ _) as [w|]; [|by apply IH]. unfold checked_add.
  destruct (_ <? sel_fees s); apply IH; cbn [sel_fees]; lia.
Qed.

(** A block that is built has fields of the right types, whatever the limits. *)
Lemma template_typed tip ts pool utxos params t :
  header_wf tip → is_u64 ts → pool_wf pool → is_u32 (bt_version params) →
  hash_wf (coinbase_recipient params) → params_wf (consensus params) →
  build_block_template tip ts pool utxos params = Ok t → block_typed (bt_block t).
Proof.
  intros Htip Hts Hpool Hver Hrec Hp. unfold build_block_template.
  destruct (_ =? UINT32_MAX); [intros H; discriminate H|]. set (h := wrap32 (height tip + 1)). cbv zeta.
  set (s := select_transactions _ _ _ _).
  destruct (checked_add _ _) as [reward|] eqn:Er; [|intros H; discriminate H].
  destruct (connect_block _ utxos _) as [u [fees|e]] eqn:E; [|intros H; discriminate H].
  intros H. apply Ok_inj in H as <-. cbn [bt_block].
  assert (is_u32 h) as Hh by apply wrap32_range.
  split.
  - unfold header_wf, finished_block. cbn [header hversion prev_block merkle_root timestamp height]. fold h.
    split_and!; [done|apply sha256d_wf| |done|done].
    destruct (merkle_root_hashed (make_coinbase h reward (coinbase_recipient params) :: sel_txs s))
      as (x & _ & ->); [done|]. apply sha256d_wf.
  - cbn [finished_block transactions]. constructor.
    + apply make_coinbase_wf; [|done]. unfold checked_add in Er. destruct (_ <? _) eqn:Eo; [discriminate Er|].
      injection Er as <-. destruct Hp as [Hp _].
      assert (0 ≤ sel_fees s) by (by apply select_transactions_fees). solve_u.
    + apply Forall_forall. intros tx Htx. apply select_transactions_subset in Htx. cbn in Htx.
      apply list_elem_of_fmap in Htx as (e & -> & He). rewrite entries_by_feerate_perm in He.
      apply pool_entries_ok in He as [_ []]; done.
Qed.

(** ** Producing on a chain *)

(** The limits of a producer's configuration on top of a chain. *)
Record producer_env (chain : Chain) (ts : Z) (pool : Mempool) (params : BlockTemplateParams) : Prop := {
  pe_consensus : consensus params = params_ chain;
  pe_version : bt_version params = kBlockVersion;
  pe_height : height (tip_ chain) < UINT32_MAX;
  pe_ts : timestamp (tip_ chain) ≤ ts < 2 ^ 64;
  pe_pool : pool_wf pool;
  pe_recipient : hash_wf (coinbase_recipient params);
  pe_size : 0 ≤ max_block_size_bytes params ≤ kMaxBlockSizeBytes;
  pe_count : 0 ≤ bt_max_transactions params;
  pe_money : block_subsidy (consensus params) * (height (tip_ chain) + 2) ≤ kMaxMoney;
}.

(** These limits are those of the template. *)
Lemma producer_template_env blocks chain ts pool params :
  params_wf (consensus params) → chain_of (consensus params) blocks chain →
  producer_env chain ts pool params → template_env (tip_ chain) ts pool (utxos_ chain) params.
Proof.
  intros Hp Hch [Hco Hv Hh Hts Hpool Hrec Hsz Hcnt Hmoney]. destruct (chain_of_wf _ Hp _ _ Hch) as [Hwf _].
  pose proof Hwf as (Htip & Hu & _). pose proof (chain_of_supply _ Hp _ _ Hch) as Hsup.
  pose proof Htip as (_ & _ & _ & [Ht0 _] & _). split; try done; [split; lia|by rewrite Hv|lia].
Qed.

(** The producer succeeds on every chain within these limits, and the chain accepts. *)
Lemma producer_accepted (blocks : list Block) (chain : Chain) (ts : Z) (pool : Mempool)
    (params : BlockTemplateParams) :
  params_wf (consensus params) → chain_of (consensus params) blocks chain →
  producer_env chain ts pool params →
  coinbase_fresh (template_coinbase (tip_ chain) ts pool (utxos_ chain) params) pool (utxos_ chain) →
  ∃ t txs chain' pool',
    build_block_template (tip_ chain) ts pool (utxos_ chain) params = Ok t ∧
    submit_block (bt_block t) (Some pool) chain = (chain', Some pool', Ok (bt_total_fees t)) ∧
    timestamp (header (bt_block t)) = ts ∧
    transactions (bt_block t) =
      make_coinbase (height (tip_ chain) + 1) (block_subsidy (consensus params) + bt_total_fees t)
        (coinbase_recipient params) :: txs ∧
    txs `sublist_of` (e_transaction <$> entries_by_feerate pool) ∧
    bt_selected_count t = size_z txs ∧ bt_selected_count t ≤ bt_max_transactions params ∧
    size_z (block_to_bytes (bt_block t)) ≤ 176 `max` max_block_size_bytes params.
Proof.
  intros Hp Hch Henv Hfresh. destruct (chain_of_wf _ Hp _ _ Hch) as [Hwf Epar].
  pose proof (producer_template_env _ _ _ _ _ Hp Hch Henv) as He. destruct Henv as [Hco Hv Hh Hts Hpool Hrec Hsz Hcnt Hmoney].
  destruct (template_spec _ _ _ _ _ He Hfresh) as (Hb & [u' Hap] & Hty & Hsub & Hsize & Hc1 & Hc2).
  destruct (next_height _ _ _ _ _ He) as [Enh _].
  eexists _, _, _, _. split; [exact Hb|]. split.
  { apply submit_block_Ok; [done|done|]. split.
    - split; cbn; [done|done|done|lia].
    - split; [reflexivity|]. exists u'. rewrite <- Hco. split; [done|reflexivity]. }
  cbn [bt_block bt_total_fees bt_selected_count]. split; [done|]. split; [cbn; by rewrite Enh|]. done.
Qed.
