(* ===== verification/ChainStore.v ===== *)
(** * Persistence of the ledger ([include/blockchain/storage/ledger_format.hpp],
    [include/blockchain/storage/chain_store.hpp], [src/storage/chain_store.cpp])

    The disk is a map from paths to file contents.  The outcome of each call to the
    operating system is an argument [Io] of the operations that make them. *)

From S2P Require Import Prelude Errors Sha256 ByteIO Transaction Block Utxo TxValidation BlockValidation Mempool Chain.
From Stdlib Require Import Strings.Byte Strings.Ascii.

(** ** Format *)

Definition kLedgerMagic : Z := 0xBC570001.
Definition kLedgerFormatVersion : Z := 2.
Definition kLedgerFormatVersion1 : Z := 1.
Definition kMaxLedgerBlocks : Z := 1000000.
Definition kMaxLedgerMempoolTransactions : Z := 10000.
Definition ledger_filename : string := "ledger.bin".
Definition ledger_temp_filename : string := "ledger.bin.tmp".

Record LedgerData := mkLedgerData {
  l_blocks : list Block;
  l_params : ConsensusParams;
  l_mempool_transactions : list Transaction;
}.

Definition ledger_checksum (body : list byte) : Z := load_u32 (sha256 body).

(** ** Encoding *)

Definition put_block (block : Block) (w : ByteWriter) : Result ByteWriter :=
  let bytes := block_to_bytes block in
  if kMaxBlockSizeBytes <? size_z bytes
  then make_error kResourceLimitExceeded "block exceeds maximum encoded size"
  else mret (put_var_bytes bytes w).

Definition get_block (r : ByteReader) : Result (Block * ByteReader) :=
  get_boxed kMaxBlockSizeBytes block_deserialize r.

Definition put_transaction (tx : Transaction) (w : ByteWriter) : Result ByteWriter :=
  let bytes := tx_to_bytes tx in
  if kMaxTransactionSizeBytes <? size_z bytes
  then make_error kResourceLimitExceeded "transaction exceeds maximum encoded size"
  else mret (put_var_bytes bytes w).

Definition get_transaction (r : ByteReader) : Result (Transaction * ByteReader) :=
  get_boxed kMaxTransactionSizeBytes tx_deserialize r.

(** [for (x : v) if (auto ok = put(writer, x); !ok) return ok.error();] *)
Fixpoint put_all {A} (put : A → ByteWriter → Result ByteWriter) (l : list A) (w : ByteWriter)
    : Result ByteWriter :=
  match l with
  | [] => mret w
  | x :: l => w ← put x w; put_all put l w
  end.

Definition with_ledger_checksum (body : list byte) : list byte :=
  wbuffer_ (put_u32 (ledger_checksum body) (put_bytes body empty_writer)).

Definition encode_ledger (blocks : list Block) (params : ConsensusParams) (mempool : list Transaction)
    : Result (list byte) :=
  if kMaxLedgerBlocks <? size_z blocks
  then make_error kResourceLimitExceeded "too many blocks for ledger"
  else if kMaxLedgerMempoolTransactions <? size_z mempool
  then make_error kResourceLimitExceeded "too many mempool transactions for ledger"
  else
    let w := put_u32 kLedgerMagic empty_writer in
    let w := put_u32 kLedgerFormatVersion w in
    let w := put_u64 (block_subsidy params) w in
    let w := put_u32 (coinbase_maturity params) w in
    let w := put_u32 (wrap32 (size_z blocks)) w in
    w ← put_all put_block blocks w;
    let w := put_u32 (wrap32 (size_z mempool)) w in
    w ← put_all put_transaction mempool w;
    mret (with_ledger_checksum (wbuffer_ w)).

(** ** Decoding *)

(** The loop of [validate_block_sequence]; [h] is the height of the block before. *)
Fixpoint heights_contiguous (h : Z) (blocks : list Block) : bool :=
  match blocks with
  | [] => true
  | b :: blocks => (height (header b) =? wrap32 (h + 1)) && heights_contiguous (height (header b)) blocks
  end.

Definition validate_block_sequence (blocks : list Block) : Result unit :=
  match blocks with
  | [] => make_error kStorageCorruption "ledger contains no blocks"
  | b :: blocks =>
      if negb (height (header b) =? 0)
      then make_error kStorageCorruption "genesis must be at height 0"
      else if negb (heights_contiguous (height (header b)) blocks)
      then make_error kStorageCorruption "block heights are not contiguous"
      else mret tt
  end.

(** The part of [decode_ledger] after the magic number. *)
Definition decode_body (r : ByteReader) : Result LedgerData :=
  '(version, r) ← get_u32 r;
  if negb (version =? kLedgerFormatVersion) && negb (version =? kLedgerFormatVersion1)
  then make_error kUnsupportedVersion "unsupported ledger format version"
  else
    '(subsidy, r) ← get_u64 r;
    '(maturity, r) ← get_u32 r;
    '(count, r) ← get_u32 r;
    if (count =? 0) || (kMaxLedgerBlocks <? count)
    then make_error kStorageCorruption "ledger block count out of range"
    else
      let params := mkConsensusParams subsidy maturity in
      '(blocks, r) ← get_list get_block (Z.to_nat count) r;
      '(txs, r) ← (if kLedgerFormatVersion <=? version then
                     '(mempool_count, r) ← get_u32 r;
                     if kMaxLedgerMempoolTransactions <? mempool_count
                     then make_error kStorageCorruption "ledger mempool count out of range"
                     else get_list get_transaction (Z.to_nat mempool_count) r
                   else mret ([], r));
      _ ← expect_end r;
      _ ← validate_block_sequence blocks;
      mret (mkLedgerData blocks params txs).

Definition decode_ledger (bytes : list byte) : Result LedgerData :=
  if size_z bytes <? 4
  then make_error kStorageCorruption "ledger file is too short"
  else
    let body := take (length bytes - 4) bytes in
    let expected := ledger_checksum body in
    let actual := load_u32 (drop (length bytes - 4) bytes) in
    if negb (actual =? expected)
    then make_error kStorageCorruption "ledger checksum mismatch"
    else
      match get_u32 (new_reader body) with
      | Ok (magic, r) =>
          if negb (magic =? kLedgerMagic)
          then make_error kStorageCorruption "ledger magic mismatch"
          else decode_body r
      | Err _ => make_error kStorageCorruption "ledger magic mismatch"
      end.

(** ** Replay *)

Fixpoint submit_all (blocks : list Block) (chain : Chain) : Result Chain :=
  match blocks with
  | [] => mret chain
  | b :: blocks =>
      match submit_block b None chain with
      | (chain, _, Ok _) => submit_all blocks chain
      | (_, _, Err e) => Err e
      end
  end.

Definition replay_chain (blocks : list Block) (params : ConsensusParams) : Result Chain :=
  _ ← validate_block_sequence blocks;
  match blocks with
  | [] => make_error kStorageCorruption "ledger contains no blocks"
  | genesis :: blocks =>
      chain ← create genesis params;
      submit_all blocks chain
  end.

(** ** Files *)

Abbreviation Disk := (gmap string (list byte)).

(** How reading a file that opens goes: whole, or [tellg] reports no size, or [read] fails. *)
Inductive Reading := rd_whole | rd_no_size | rd_short.

(** What the operating system answers to the calls of one operation. *)
Record Io := mkIo {
  io_mkdir : bool;      (** [mkdir] succeeds, or the directory exists *)
  io_open : bool;       (** the temporary file can be opened *)
  io_write : bool;      (** [output.write] reports no error *)
  io_flushed : nat;     (** bytes in the file once the stream is closed *)
  io_rename : bool;     (** [rename] succeeds *)
  io_reading : Reading; (** how reading a file goes *)
}.

(** [input.tellg()] is not negative, and [input.read] reports no error after that. *)
Definition io_sized (io : Io) : bool := match io_reading io with rd_no_size => false | _ => true end.
Definition io_read (io : Io) : bool := match io_reading io with rd_whole => true | _ => false end.

Lemma io_read_sized io : io_read io = true → io_sized io = true.
Proof. unfold io_read, io_sized. by destruct (io_reading io). Qed.

Definition join_path (dir filename : string) : string :=
  match String.length dir with
  | O => filename
  | S n =>
      if decide (String.get n dir = Some "/"%char ∨ String.get n dir = Some "\"%char)
      then dir +:+ filename
      else dir +:+ "/" +:+ filename
  end.

Definition ledger_path (data_dir : string) : string := join_path data_dir ledger_filename.
Definition ledger_temp_path (data_dir : string) : string := join_path data_dir ledger_temp_filename.

(** A file that opens at its end and whose end is past its beginning.  Opening it there has
    found the end, so [tellg] reports it. *)
Definition is_regular_file (path : string) (d : Disk) : bool :=
  match d !! path with Some bytes => 0 <? size_z bytes | None => false end.

Definition ledger_exists (data_dir : string) (d : Disk) : bool := is_regular_file (ledger_path data_dir) d.

Definition create_directory (io : Io) : Result unit :=
  if io_mkdir io then mret tt
  else make_error kStorageCorruption "cannot create data directory".

Definition rename_file (io : Io) (from to : string) (d : Disk) : Disk * Result unit :=
  match io_rename io, d !! from with
  | true, Some bytes => (<[to := bytes]> (delete from d), mret tt)
  | _, _ => (d, make_error kStorageCorruption "ledger atomic rename failed")
  end.

(** The stream's destructor flushes what [write] buffered; its errors are not seen by
    [if (!output)], so [io_flushed] may fall short of the bytes written. *)
Definition write_file_atomic (io : Io) (path temp_path : string) (bytes : list byte) (d : Disk)
    : Disk * Result unit :=
  if negb (io_open io)
  then (d, make_error kStorageCorruption "cannot open ledger temp file for write")
  else
    let d := <[temp_path := take (io_flushed io) bytes]> d in
    if negb (io_write io)
    then (d, make_error kStorageCorruption "ledger temp file write failed")
    else rename_file io temp_path path d.

Definition read_file (io : Io) (path : string) (d : Disk) : Result (list byte) :=
  match d !! path with
  | None => make_error kStorageCorruption "ledger file is missing or unreadable"
  | Some bytes =>
      if negb (io_sized io)
      then make_error kStorageCorruption "ledger file size is invalid"
      else if kMaxBlockSizeBytes * kMaxLedgerBlocks + 1024 <? size_z bytes
      then make_error kResourceLimitExceeded "ledger file is too large"
      else if negb (io_read io)
      then make_error kStorageCorruption "ledger file read failed"
      else mret bytes
  end.

Definition save_ledger (io : Io) (data_dir : string) (blocks : list Block) (params : ConsensusParams)
    (mempool : list Transaction) (d : Disk) : Disk * Result unit :=
  match validate_block_sequence blocks with
  | Err e => (d, Err e)
  | Ok _ =>
      match encode_ledger blocks params mempool with
      | Err e => (d, Err e)
      | Ok encoded =>
          match create_directory io with
          | Err e => (d, Err e)
          | Ok _ => write_file_atomic io (ledger_path data_dir) (ledger_temp_path data_dir) encoded d
          end
      end
  end.

Definition load_ledger (io : Io) (data_dir : string) (d : Disk) : Result LedgerData :=
  bytes ← read_file io (ledger_path data_dir) d;
  decode_ledger bytes.

Definition load_chain (io : Io) (data_dir : string) (d : Disk) : Result Chain :=
  ledger ← load_ledger io data_dir d;
  replay_chain (l_blocks ledger) (l_params ledger).

(** ** Checksums *)

Lemma ledger_checksum_u32 body : is_u32 (ledger_checksum body).
Proof. apply load_u32_digest, sha256_wf. Qed.

(** ** The format as byte strings *)

Definition stored_block_wf (b : Block) : Prop := boxed_wf kMaxBlockSizeBytes block_wf enc_block b.
Definition stored_tx_wf (tx : Transaction) : Prop := boxed_wf kMaxTransactionSizeBytes tx_wf enc_tx tx.

#[global] Instance codec_stored_block : CodecOk stored_block_wf (enc_boxed enc_block) get_block.
Proof. apply codec_boxed; [done|apply _]. Qed.
#[global] Instance codec_stored_tx : CodecOk stored_tx_wf (enc_boxed enc_tx) get_transaction.
Proof. apply codec_boxed; [done|apply _]. Qed.

Definition enc_ledger_head (version : Z) (l : LedgerData) : list byte :=
  le_bytes 4 kLedgerMagic ++ le_bytes 4 version ++ le_bytes 8 (block_subsidy (l_params l)) ++
  le_bytes 4 (coinbase_maturity (l_params l)) ++ le_bytes 4 (size_z (l_blocks l)) ++
  mjoin (enc_boxed enc_block <$> l_blocks l).

Definition enc_body (l : LedgerData) : list byte :=
  enc_ledger_head kLedgerFormatVersion l ++
  le_bytes 4 (size_z (l_mempool_transactions l)) ++
  mjoin (enc_boxed enc_tx <$> l_mempool_transactions l).

Definition enc_sealed (body : list byte) : list byte := body ++ le_bytes 4 (ledger_checksum body).

Record ledger_wf (l : LedgerData) : Prop := {
  lw_params : params_wf (l_params l);
  lw_count : size_z (l_blocks l) ≤ kMaxLedgerBlocks;
  lw_blocks : Forall stored_block_wf (l_blocks l);
  lw_pool_count : size_z (l_mempool_transactions l) ≤ kMaxLedgerMempoolTransactions;
  lw_pool : Forall stored_tx_wf (l_mempool_transactions l);
  lw_sequence : validate_block_sequence (l_blocks l) = Ok tt;
}.

Lemma put_all_boxed {A} (put : A → ByteWriter → Result ByteWriter) (enc : A → list byte) (P : A → Prop) l w :
  (∀ a w, P a → put a w = Ok (mkWriter (wbuffer_ w ++ enc_boxed enc a))) →
  Forall P l → put_all put l w = Ok (mkWriter (wbuffer_ w ++ mjoin (enc_boxed enc <$> l))).
Proof.
  intros Hput Hl. revert w. induction Hl as [|a l Ha Hl IH]; intros w; cbn [put_all].
  { cbn. rewrite app_nil_r. by destruct w. }
  rewrite Hput by done. rsimpl. rewrite IH. cbn [wbuffer_]. by rewrite <- (assoc_L (++)).
Qed.

Lemma put_block_Ok b w :
  stored_block_wf b → put_block b w = Ok (mkWriter (wbuffer_ w ++ enc_boxed enc_block b)).
Proof.
  intros [_ Hs]. unfold put_block. rewrite block_to_bytes_enc.
  destruct (_ <? _) eqn:E; [lia|]. by rewrite put_var_bytes_spec.
Qed.

Lemma put_transaction_Ok tx w :
  stored_tx_wf tx → put_transaction tx w = Ok (mkWriter (wbuffer_ w ++ enc_boxed enc_tx tx)).
Proof.
  intros [_ Hs]. unfold put_transaction. rewrite tx_to_bytes_enc.
  destruct (_ <? _) eqn:E; [lia|]. by rewrite put_var_bytes_spec.
Qed.

Lemma with_ledger_checksum_enc body : with_ledger_checksum body = enc_sealed body.
Proof. unfold with_ledger_checksum, enc_sealed. solve_writer. Qed.

Lemma encode_ledger_enc l :
  ledger_wf l →
  encode_ledger (l_blocks l) (l_params l) (l_mempool_transactions l) = Ok (enc_sealed (enc_body l)).
Proof.
  intros [_ Hc Hb Hmc Hm _]. unfold encode_ledger.
  destruct (kMaxLedgerBlocks <? _) eqn:E1; [lia|].
  destruct (kMaxLedgerMempoolTransactions <? _) eqn:E2; [lia|].
  change kMaxLedgerBlocks with 1000000 in *. change kMaxLedgerMempoolTransactions with 10000 in *.
  rewrite !wrap32_small by solve_u.
  rewrite (put_all_boxed put_block enc_block stored_block_wf); [|apply put_block_Ok|done]. rsimpl.
  rewrite (put_all_boxed put_transaction enc_tx stored_tx_wf); [|apply put_transaction_Ok|done]. rsimpl.
  rewrite with_ledger_checksum_enc. cbn [wbuffer_].
  assert (∀ a b : list byte, a = b → (mret (enc_sealed a) : Result (list byte)) = Ok (enc_sealed b)) as Heq
    by (by intros ?? ->).
  apply Heq. unfold enc_body, enc_ledger_head. autorewrite with writer. cbn [wbuffer_ empty_writer app].
  by rewrite <- !(assoc_L (++)).
Qed.

(** The reader of the sealed bytes gets the body back, or reports the corruption. *)
Lemma decode_sealed body :
  decode_ledger (enc_sealed body) =
  match get_u32 (new_reader body) with
  | Ok (magic, r) => if negb (magic =? kLedgerMagic)
                     then make_error kStorageCorruption "ledger magic mismatch" else decode_body r
  | Err _ => make_error kStorageCorruption "ledger magic mismatch"
  end.
Proof.
  unfold decode_ledger, enc_sealed.
  assert (length (body ++ le_bytes 4 (ledger_checksum body)) - 4 = length body)%nat as Hl
    by (rewrite length_app, length_le_bytes; lia).
  rewrite Hl, take_app_length, drop_app_length, load_u32_le by apply ledger_checksum_u32.
  rewrite Z.eqb_refl. cbn [negb]. destruct (_ <? 4) eqn:E; [|done].
  apply Z.ltb_lt in E. rewrite length_app, length_le_bytes, Nat2Z.inj_add in E. exfalso. lia.
Qed.

Lemma decode_ledger_sealed bytes l :
  decode_ledger bytes = Ok l →
  ∃ body r, bytes = enc_sealed body ∧ get_u32 (new_reader body) = Ok (kLedgerMagic, r) ∧ decode_body r = Ok l.
Proof.
  unfold decode_ledger. destruct (_ <? 4) eqn:E; [intros H; discriminate H|].
  destruct (negb (_ =? ledger_checksum _)) eqn:Ec; [intros H; discriminate H|].
  apply negb_false_iff, Z.eqb_eq in Ec.
  set (body := take (length bytes - 4) bytes) in *. intros H. exists body.
  destruct (get_u32 (new_reader body)) as [[magic r]|]; [|discriminate H].
  destruct (negb (magic =? kLedgerMagic)) eqn:Em; [discriminate H|]. apply negb_false_iff, Z.eqb_eq in Em as ->.
  exists r. split_and!; [|done..]. unfold enc_sealed. rewrite <- Ec, <- load_u32_inv.
  - subst body. by rewrite take_drop.
  - rewrite length_drop. lia.
Qed.

Lemma validate_nonempty blocks : validate_block_sequence blocks = Ok tt → blocks ≠ [].
Proof. by intros H ->. Qed.

Lemma decode_body_enc l :
  ledger_wf l → decode_ledger (enc_sealed (enc_body l)) = Ok l.
Proof.
  intros [Hp Hc Hb Hmc Hm Hseq]. rewrite decode_sealed, new_reader_at. unfold enc_body, enc_ledger_head.
  pose proof (validate_nonempty _ Hseq) as Hne.
  assert (0 < size_z (l_blocks l)) as Hpos by (destruct (l_blocks l); [done|cbn; lia]).
  destruct Hp as [Hsub Hmat]. change kMaxLedgerBlocks with 1000000 in *.
  change kMaxLedgerMempoolTransactions with 10000 in *.
  assert (is_u32 (size_z (l_blocks l))) by solve_u.
  assert (is_u32 (size_z (l_mempool_transactions l))) by solve_u.
  rewrite <- !(assoc_L (++)), codec_get by done. rewrite Z.eqb_refl. cbn [negb].
  unfold decode_body. read_ok. rewrite Z.eqb_refl. cbn [negb andb]. do 3 read_ok.
  destruct ((_ =? 0) || _) eqn:E.
  { change kMaxLedgerBlocks with 1000000 in E. apply orb_true_iff in E as [E|E]; lia. }
  rewrite Nat2Z.id. read_ok. rewrite Z.leb_refl. read_ok.
  destruct (kMaxLedgerMempoolTransactions <? _) eqn:E2;
    [change kMaxLedgerMempoolTransactions with 10000 in E2; lia|].
  rewrite Nat2Z.id. rewrite <- (app_nil_r (mjoin (enc_boxed enc_tx <$> l_mempool_transactions l))).
  read_ok. rewrite (proj2 (expect_end_at _ []) eq_refl). rsimpl. rewrite Hseq. rsimpl.
  by destruct l as [bs [sub mat] txs].
Qed.

(** What is accepted is the encoding of what is returned; a file of format version 1
    has no pool section. *)
Lemma decode_ledger_inv bytes l :
  decode_ledger bytes = Ok l →
  ledger_wf l ∧
  (bytes = enc_sealed (enc_body l) ∨
   bytes = enc_sealed (enc_ledger_head kLedgerFormatVersion1 l) ∧ l_mempool_transactions l = []).
Proof.
  intros (body & r & -> & Hmagic & H)%decode_ledger_sealed. rewrite new_reader_at in Hmagic.
  apply codec_inv in Hmagic as (suf & -> & -> & _). unfold decode_body in H.
  read_inv H. destruct (negb (v =? _) && negb (v =? _)) eqn:Ev; [discriminate H|].
  do 3 read_inv H. destruct (_ || _) eqn:Ec; [discriminate H|].
  read_inv H. apply orb_false_iff in Ec as [Ec1 Ec2].
  assert (size_z v3 = v2) as Hn by solve_u.
  destruct (kLedgerFormatVersion <=? v) eqn:Ever.
  - assert (v = kLedgerFormatVersion) as ->.
    { change kLedgerFormatVersion with 2 in *. change kLedgerFormatVersion1 with 1 in *. lia. }
    apply bind_Ok in H as ([txs r'] & Htxs & H). read_inv Htxs.
    destruct (_ <? v) eqn:Em; [discriminate Htxs|].
    apply get_list_inv in Htxs as (sufm & -> & -> & Hwt & Hlm).
    apply bind_Ok in H as ([] & Hend & H). apply expect_end_at in Hend as ->.
    apply bind_Ok in H as ([] & Hseq & H). injection H as <-.
    split; [split; cbn; solve_u || done|left]. unfold enc_body, enc_ledger_head; cbn.
    replace (size_z txs) with v by solve_u. rewrite Hn, app_nil_r. by rewrite <- !(assoc_L (++)).
  - assert (v = kLedgerFormatVersion1) as ->.
    { change kLedgerFormatVersion with 2 in *. change kLedgerFormatVersion1 with 1 in *. lia. }
    apply bind_Ok in H as ([txs r'] & [= <- <-] & H).
    apply bind_Ok in H as ([] & Hend & H). apply expect_end_at in Hend as ->.
    apply bind_Ok in H as ([] & Hseq & H). injection H as <-.
    split; [split; cbn; solve_u || done|right]. unfold enc_ledger_head; cbn. split; [|done].
    rewrite Hn, app_nil_r. by rewrite <- ?(assoc_L (++)).
Qed.

(** ** Replay *)

Lemma submit_block_pool_irrelevant block pool chain chain' pool' fees :
  submit_block block pool chain = (chain', pool', Ok fees) →
  submit_block block None chain = (chain', None, Ok fees).
Proof.
  unfold submit_block. destruct (check_links_to _ _); [|intros H; discriminate H].
  destruct (check_block_sanity block); [|intros H; discriminate H].
  destruct (connect_block block _ _) as [u [f|e]]; [|intros H; discriminate H].
  intros H. injection H as <- _ <-. done.
Qed.

Section Replay.
Context (params : ConsensusParams).
Hypothesis Hparams : params_wf params.

Lemma submit_all_chain_of blocks bs c chain :
  Forall block_typed blocks → chain_of params bs c →
  submit_all blocks c = Ok chain → chain_of params (reverse blocks ++ bs) chain.
Proof.
  intros Hty. revert bs c. induction Hty as [|b blocks Hb Hty IH]; intros bs c Hc; cbn [submit_all].
  { by intros [= <-]. }
  destruct (submit_block b None c) as [[c' p'] [fees|e]] eqn:E; [|intros H; discriminate H].
  intros H. rewrite reverse_cons, <- (assoc_L (++)). apply (IH (b :: bs) c'); [|done].
  by eapply chain_step.
Qed.

Lemma chain_of_submit_all bs c :
  chain_of params bs c →
  ∃ g blocks c0, reverse bs = g :: blocks ∧ create g params = Ok c0 ∧ submit_all blocks c0 = Ok c.
Proof.
  induction 1 as [g c Hty Hc|bs c b pool c' pool' fees Hch (g & blocks & c0 & Er & Hc0 & Hs) Hb Hsub].
  { by exists g, [], c. }
  exists g, (blocks ++ [b]), c0. rewrite reverse_cons, Er. split_and!; [done..|].
  apply submit_block_pool_irrelevant in Hsub. clear Er Hc0 Hch.
  revert c0 Hs. induction blocks as [|x blocks IH]; intros c0; cbn [submit_all app].
  - intros [= ->]. by rewrite Hsub.
  - destruct (submit_block x None c0) as [[c1 p1] [f|e]]; [|intros H; discriminate H]. apply IH.
Qed.

(** The stored heights of a chain's blocks are 0, 1, 2, ... *)
Lemma heights_contiguous_app h blocks b :
  heights_contiguous h (blocks ++ [b]) =
  heights_contiguous h blocks &&
  (height (header b) =? wrap32 (default h (height ∘ header <$> last blocks) + 1)).
Proof.
  revert h. induction blocks as [|x blocks IH]; intros h; cbn [app heights_contiguous].
  - cbn. by rewrite andb_true_r.
  - rewrite IH. destruct blocks as [|y blocks]; [cbn; by rewrite andb_true_r|].
    rewrite (last_cons_cons x y blocks). rewrite andb_assoc. f_equal. f_equal. f_equal. f_equal.
    destruct (last (y :: blocks)) eqn:E; [done|]. by apply last_None in E.
Qed.

Lemma last_reverse_tip bs c :
  chain_of params bs c → height ∘ header <$> last (reverse bs) = Some (height (tip_ c)).
Proof.
  intros H. destruct (chain_of_tip _ Hparams _ _ H) as (b & bs' & -> & Ht & _).
  rewrite reverse_cons, last_snoc. cbn. by rewrite Ht.
Qed.

Lemma chain_of_sequence bs c :
  chain_of params bs c → validate_block_sequence (reverse bs) = Ok tt.
Proof.
  intros H. pose proof H as H'. revert H'. revert bs c H.
  apply (chain_of_ind' params Hparams (λ bs c, chain_of params bs c → validate_block_sequence (reverse bs) = Ok tt)).
  - intros g u f Hty [_ Hh _] Hap _. cbn. by rewrite Hh.
  - intros bs c b u f Hch IH Hb Hl Hap Hch'. specialize (IH Hch). rewrite reverse_cons.
    pose proof (last_reverse_tip _ _ Hch) as Hlast.
    destruct (chain_of_wf _ Hparams _ _ Hch') as [(Hw & _) _]. destruct Hw as (_ & _ & _ & _ & Hu). cbn in Hu.
    destruct (reverse bs) as [|g blocks]; [done|]. cbn [app validate_block_sequence] in *.
    destruct (negb (height (header g) =? 0)); [done|].
    rewrite heights_contiguous_app. destruct (heights_contiguous (height (header g)) blocks); [|done].
    assert (default (height (header g)) (height ∘ header <$> last blocks) = height (tip_ c)) as ->.
    { destruct blocks as [|y blocks]; [by injection Hlast as ->|].
      rewrite last_cons_cons in Hlast. by rewrite Hlast. }
    destruct Hl as [_ _ Hh _]. rewrite <- Hh, wrap32_small by done. by rewrite Z.eqb_refl.
Qed.

Lemma replay_chain_of blocks chain :
  Forall block_typed blocks →
  replay_chain blocks params = Ok chain ↔ chain_of params (reverse blocks) chain.
Proof.
  intros Hty. unfold replay_chain. split.
  - intros ([] & _ & H)%bind_Ok. destruct blocks as [|g blocks]; [discriminate H|].
    apply bind_Ok in H as (c & Hc & H). apply Forall_cons in Hty as [Hg Hty].
    rewrite reverse_cons. eapply submit_all_chain_of; [done| |done]. by constructor.
  - intros H. pose proof (chain_of_sequence _ _ H) as Hseq. rewrite reverse_involutive in Hseq.
    rewrite Hseq. rsimpl. apply chain_of_submit_all in H as (g & bs & c0 & E & Hc & Hs).
    rewrite reverse_involutive in E. subst blocks. by rewrite Hc.
Qed.

(** The blocks of a chain fit the format. *)
Lemma chain_of_stored bs c :
  chain_of params bs c → Forall block_typed bs ∧ Forall stored_block_wf bs.
Proof.
  intros H. pose proof H as H'. revert H'. revert bs c H.
  assert (∀ b u u' f, block_typed b → block_applies b params u u' f → stored_block_wf b) as Hone.
  { intros b u u' f [Hh Ht] (Hs & _). split; [|rewrite <- block_to_bytes_enc; apply Hs].
    split_and!; [done| |apply Hs]. apply tx_wf_of_sane; [done|apply Hs]. }
  apply (chain_of_ind' params Hparams (λ bs c, chain_of params bs c →
    Forall block_typed bs ∧ Forall stored_block_wf bs)).
  - intros g u f Hty _ Hap _. split; apply Forall_singleton; [done|by eapply Hone].
  - intros bs c b u f Hch IH Hb _ Hap _. destruct (IH Hch). split; constructor; try done. by eapply Hone.
Qed.
End Replay.

(** ** Files on disk *)

Lemma paths_differ dir : ledger_path dir ≠ ledger_temp_path dir.
Proof.
  unfold ledger_path, ledger_temp_path, join_path. destruct (String.length dir) as [|n]; [done|].
  case_decide; intros E.
  - by apply (inj (String.append dir)) in E.
  - apply (inj (String.append dir)) in E. by apply (inj (String.append "/")) in E.
Qed.

(** No call fails and the stream reaches the disk. *)
Record io_good (io : Io) (bytes : list byte) : Prop := {
  ig_mkdir : io_mkdir io = true;
  ig_open : io_open io = true;
  ig_write : io_write io = true;
  ig_flushed : (length bytes ≤ io_flushed io)%nat;
  ig_rename : io_rename io = true;
  ig_read : io_read io = true;
}.

Definition kMaxLedgerFileBytes : Z := kMaxBlockSizeBytes * kMaxLedgerBlocks + 1024.

(** A file with the bytes of a ledger is read back as that ledger. *)
Lemma load_written io dir l d :
  ledger_wf l → d !! ledger_path dir = Some (enc_sealed (enc_body l)) →
  size_z (enc_sealed (enc_body l)) ≤ kMaxLedgerFileBytes → io_read io = true →
  load_ledger io dir d = Ok l.
Proof.
  intros Hl Hd Hsz Hr. unfold load_ledger, read_file. rewrite Hd. unfold kMaxLedgerFileBytes in Hsz.
  rewrite (io_read_sized _ Hr). cbn [negb].
  destruct (_ <? _) eqn:E; [lia|]. rewrite Hr. cbn [negb]. rsimpl. by apply decode_body_enc.
Qed.

Lemma save_load_ledger io dir l d :
  ledger_wf l → io_good io (enc_sealed (enc_body l)) →
  size_z (enc_sealed (enc_body l)) ≤ kMaxLedgerFileBytes →
  ∃ d', save_ledger io dir (l_blocks l) (l_params l) (l_mempool_transactions l) d = (d', Ok tt) ∧
    load_ledger io dir d' = Ok l ∧ d' !! ledger_path dir = Some (enc_sealed (enc_body l)) ∧
    ∀ p, p ≠ ledger_path dir → p ≠ ledger_temp_path dir → d' !! p = d !! p.
Proof.
  intros Hl [H1 H2 H3 H4 H5 H6] Hsz. unfold save_ledger, create_directory, write_file_atomic, rename_file.
  rewrite (lw_sequence _ Hl), encode_ledger_enc by done. rewrite H1, H2, H3, H5. cbn [negb mret Result_ret].
  rewrite lookup_insert_eq, take_ge by lia. eexists. split; [done|]. split; [|split].
  - by apply load_written; [|apply lookup_insert_eq|..].
  - apply lookup_insert_eq.
  - intros p Hp Hp'. rewrite lookup_insert_ne, lookup_delete_ne, lookup_insert_ne by done. done.
Qed.

(** *** Interrupted writes

    The system calls of [write_file_atomic], one by one: the process may stop between
    any two of them.  [lossy] allows the close to lose bytes that were buffered. *)

Inductive WPhase := WStart | WOpen (n : nat) | WClosed | WDone | WFailed.

#[global] Instance WPhase_eq_dec : EqDecision WPhase.
Proof. solve_decision. Defined.

Section Writes.
Context (path temp : string) (bytes : list byte).

Inductive wstep (lossy : bool) : WPhase * Disk → WPhase * Disk → Prop :=
  | ws_open d : wstep lossy (WStart, d) (WOpen 0, <[temp := []]> d)
  | ws_open_fail d : wstep lossy (WStart, d) (WFailed, d)
  | ws_flush n m d : (n ≤ m)%nat → wstep lossy (WOpen n, d) (WOpen m, <[temp := take m bytes]> d)
  | ws_write_fail n d : wstep lossy (WOpen n, d) (WFailed, d)
  | ws_close n d : lossy = true ∨ (length bytes ≤ n)%nat → wstep lossy (WOpen n, d) (WClosed, d)
  | ws_rename d contents : d !! temp = Some contents →
      wstep lossy (WClosed, d) (WDone, <[path := contents]> (delete temp d))
  | ws_rename_fail d : wstep lossy (WClosed, d) (WFailed, d).

Hypothesis Hpaths : path ≠ temp.

(** What the disk looks like in each phase. *)
Definition wphase_inv (lossy : bool) (d0 : Disk) (s : WPhase * Disk) : Prop :=
  (∀ p, p ≠ path → p ≠ temp → s.2 !! p = d0 !! p) ∧
  match s.1 with
  | WStart => s.2 = d0
  | WOpen n => s.2 !! path = d0 !! path ∧ s.2 !! temp = Some (take n bytes)
  | WClosed => s.2 !! path = d0 !! path ∧
      ∃ n, s.2 !! temp = Some (take n bytes) ∧ (lossy = true ∨ (length bytes ≤ n)%nat)
  | WDone => ∃ n, s.2 !! path = Some (take n bytes) ∧ (lossy = true ∨ (length bytes ≤ n)%nat)
  | WFailed => s.2 !! path = d0 !! path
  end.

Lemma wstep_inv lossy d0 s s' : wphase_inv lossy d0 s → wstep lossy s s' → wphase_inv lossy d0 s'.
Proof.
  intros [Ho Hi] Hs. destruct Hs as [d|d|n m d Hn|n d|n d Hc|d b Hb|d]; cbn in *.
  - subst. split; cbn; [intros p ? ?; by rewrite lookup_insert_ne|].
    rewrite lookup_insert_ne, lookup_insert_eq by done. done.
  - subst. by split.
  - destruct Hi as [Hp _]. split.
    + cbn. intros p ? ?. rewrite lookup_insert_ne by done. by apply Ho.
    + cbn. rewrite lookup_insert_ne, lookup_insert_eq by done. done.
  - destruct Hi as [Hp _]. by split.
  - destruct Hi as [Hp Ht]. split; [done|]. cbn. split; [done|]. by exists n.
  - destruct Hi as [Hp (n & Ht & Hc)]. split.
    + cbn. intros p ? ?. rewrite lookup_insert_ne, lookup_delete_ne by done. by apply Ho.
    + exists n. cbn. rewrite lookup_insert_eq. split; [congruence|done].
  - destruct Hi as [Hp _]. by split.
Qed.

Lemma wsteps_inv lossy d s : rtc (wstep lossy) (WStart, d) s → wphase_inv lossy d s.
Proof.
  intros H. apply (rtc_ind_r (R := wstep lossy) (λ s, wphase_inv lossy d s) (WStart, d)); [by split| |done].
  intros y z _ Hyz Hy. by eapply wstep_inv.
Qed.

(** The function of the code is one of these executions. *)
Lemma write_file_atomic_steps io lossy d d' r :
  (lossy = true ∨ (length bytes ≤ io_flushed io)%nat) →
  write_file_atomic io path temp bytes d = (d', r) →
  ∃ ph, rtc (wstep lossy) (WStart, d) (ph, d') ∧ (r = Ok tt ↔ ph = WDone).
Proof.
  intros Hl. unfold write_file_atomic, rename_file. destruct (io_open io); cbn [negb].
  2: { intros [= <- <-]. exists WFailed. split; [|done]. apply rtc_once. constructor. }
  assert (rtc (wstep lossy) (WStart, d) (WOpen (io_flushed io), <[temp := take (io_flushed io) bytes]> d)) as Ho.
  { eapply rtc_l; [apply ws_open|]. apply rtc_once.
    replace (<[temp := take (io_flushed io) bytes]> d)
      with (<[temp := take (io_flushed io) bytes]> (<[temp := []]> d)) by apply insert_insert_eq.
    apply ws_flush. lia. }
  destruct (io_write io); cbn [negb].
  2: { intros [= <- <-]. exists WFailed. split; [|done]. eapply rtc_r; [exact Ho|constructor]. }
  assert (rtc (wstep lossy) (WStart, d) (WClosed, <[temp := take (io_flushed io) bytes]> d)) as Hc.
  { eapply rtc_r; [exact Ho|]. by constructor. }
  rewrite lookup_insert_eq. destruct (io_rename io); intros [= <- <-].
  - exists WDone. split; [|done]. eapply rtc_r; [exact Hc|]. apply ws_rename. apply lookup_insert_eq.
  - exists WFailed. split; [|done]. eapply rtc_r; [exact Hc|constructor].
Qed.
End Writes.

(** The transactions of a pool fit the format. *)
Lemma pool_stored m : pool_wf m → Forall stored_tx_wf (sorted_transactions m).
Proof.
  intros Hm. rewrite sorted_transactions_eq by done. apply Forall_fmap, Forall_forall. intros e He.
  apply pool_entries_ok in He as [_ Hok]; [|done]. cbn. split.
  - split; [apply Hok|]. destruct (eo_sane _ Hok). done.
  - rewrite <- tx_to_bytes_enc. apply (sane_size _ (eo_sane _ Hok)).
Qed.

(** The ledger of a node: its blocks, oldest first, and its pool. *)
Definition node_ledger (params : ConsensusParams) (bs : list Block) (m : Mempool) : LedgerData :=
  mkLedgerData (reverse bs) params (sorted_transactions m).

Lemma node_ledger_wf params bs chain m :
  params_wf params → chain_of params bs chain → pool_wf m →
  size_z bs ≤ kMaxLedgerBlocks → pool_size m ≤ kMaxLedgerMempoolTransactions →
  ledger_wf (node_ledger params bs m).
Proof.
  intros Hp Hch Hm Hn Hpn. destruct (chain_of_stored _ Hp _ _ Hch) as [_ Hst]. split; cbn.
  - done.
  - by rewrite length_reverse.
  - by apply Forall_reverse.
  - rewrite sorted_transactions_eq, length_fmap, length_pool_entries by done. done.
  - by apply pool_stored.
  - by eapply chain_of_sequence.
Qed.
