(* ===== verification/ChainTheorems.v ===== *)
(** * Properties of the chain, of block production and of the stored ledger *)

From S2P Require Import Prelude Errors Sha256 ByteIO Transaction Block Utxo TxValidation BlockValidation Samples Mempool Chain BlockBuilder ChainStore PoolTheorems.
From Stdlib Require Import Strings.Byte.

(** ** Sample chains *)

Definition sample_chain0 : Chain := mkChain (header sample_genesis) sample_utxos0 sample_params.
Definition sample_chain1 : Chain := mkChain (header sample_next) sample_utxos1 sample_params.

(** A chain on whose tip [sample_paying] connects. *)
Definition sample_funded : Chain := mkChain (header sample_genesis) sample_utxos sample_params.
Definition sample_settled : Chain := mkChain (header sample_paying) sample_paid sample_params.

Lemma sample_create : create sample_genesis sample_params = Ok sample_chain0.
Proof.
  apply create_Ok; [apply sample_genesis_typed|apply sample_params_wf|]. split; [split; reflexivity|].
  exists sample_utxos0, 0. split; [apply sample_genesis_applies|reflexivity].
Qed.

Lemma sample_chain0_wf : chain_wf sample_chain0.
Proof.
  split_and!; [apply sample_genesis_typed| |apply sample_params_wf].
  eapply block_applies_wf; [apply sample_genesis_typed|apply utxos_wf_empty|apply sample_genesis_applies].
Qed.

Lemma sample_funded_wf : chain_wf sample_funded.
Proof. split_and!; [apply sample_genesis_typed|apply sample_utxos_wf|apply sample_params_wf]. Qed.

Lemma sample_submit : submit_block sample_next None sample_chain0 = (sample_chain1, None, Ok 0).
Proof.
  apply submit_block_Ok; [apply sample_chain0_wf|apply sample_next_typed|].
  split; [split; done|]. split; [reflexivity|]. exists sample_utxos1.
  split; [apply sample_next_applies|reflexivity].
Qed.

Lemma sample_chain_of0 : chain_of sample_params [sample_genesis] sample_chain0.
Proof. constructor; [apply sample_genesis_typed|apply sample_create]. Qed.

Lemma sample_chain_of : chain_of sample_params [sample_next; sample_genesis] sample_chain1.
Proof.
  eapply chain_step; [apply sample_chain_of0|apply sample_next_typed|apply sample_submit].
Qed.

(** ** The chain *)

(** C19: [submit_block] either fails and changes neither the chain nor the pool, or the
    block extends the tip by the linking rules and the chain becomes the block's header
    with the coins of the block's transition; there is no third outcome. *)
Theorem submit_block_spec (block : Block) (pool : option Mempool) (chain : Chain) :
  chain_wf chain → block_typed block →
  (∀ chain' pool' e, submit_block block pool chain = (chain', pool', Err e) → chain' = chain ∧ pool' = pool) ∧
  (∀ chain' pool' fees, submit_block block pool chain = (chain', pool', Ok fees) ↔
     links_to (tip_ chain) (header block) ∧
     pool' = prune (transactions block) <$> pool ∧
     ∃ utxos, block_applies block (params_ chain) (utxos_ chain) utxos fees ∧
       chain' = mkChain (header block) utxos (params_ chain)).
Proof.
  intros Hc Hb. split; [intros; by eapply submit_block_Err|intros; by apply submit_block_Ok].
Qed.

Lemma submit_block_spec_witness :
  submit_block sample_paying (Some sample_pool) sample_funded =
  (sample_settled, Some (prune (transactions sample_paying) sample_pool), Ok 1000).
Proof.
  apply (submit_block_spec sample_paying (Some sample_pool) sample_funded);
    [apply sample_funded_wf|apply sample_paying_typed|].
  split; [split; done|]. split; [reflexivity|]. exists sample_paid.
  split; [apply sample_paying_applies|reflexivity].
Defined.

(** C2: on every chain grown from a genesis block, the coins in circulation are worth at
    most one subsidy per block, the height counts the blocks, the tip is the newest
    header, every header commits to the hash of the one before it with the next height
    and a timestamp not earlier, and the set of coins is well formed. *)
Theorem chain_invariants (params : ConsensusParams) (blocks : list Block) (chain : Chain) :
  params_wf params → chain_of params blocks chain →
  utxo_value (utxos_ chain) ≤ block_subsidy params * (height (tip_ chain) + 1) ∧
  height (tip_ chain) + 1 = size_z blocks ∧
  headers_linked blocks ∧
  chain_wf chain ∧ params_ chain = params ∧
  ∃ b bs, blocks = b :: bs ∧ tip_ chain = header b ∧
    compute_merkle_root (transactions b) = merkle_root (tip_ chain).
Proof.
  intros Hp Hc. destruct (chain_of_wf _ Hp _ _ Hc) as [Hw He].
  destruct (chain_of_tip _ Hp _ _ Hc) as (b & bs & Eb & Et & Em & _).
  split_and!; [by eapply chain_of_supply|by eapply chain_of_height|by eapply chain_of_linked|done|done|].
  by exists b, bs.
Qed.

Lemma chain_invariants_witness :
  utxo_value (utxos_ sample_chain1) ≤ block_subsidy sample_params * (height (tip_ sample_chain1) + 1).
Proof.
  exact (proj1 (chain_invariants sample_params [sample_next; sample_genesis] sample_chain1
                  sample_params_wf sample_chain_of)).
Defined.

(** C21: the hash of the tip commits to the whole history: two chains grown with the same
    parameters whose tips have the same hash consist of the same blocks and are in the
    same state, unless double SHA-256 collides, or hits the all-zero digest, on a string
    hashed for one of them. *)
Theorem tip_commits_to_history (params : ConsensusParams) (bs1 bs2 : list Block) (c1 c2 : Chain) :
  params_wf params → chain_of params bs1 c1 → chain_of params bs2 c2 →
  collision_free (chain_hashed bs1 ++ chain_hashed bs2) →
  no_zero_digest (chain_hashed bs1 ++ chain_hashed bs2) →
  header_hash (tip_ c1) = header_hash (tip_ c2) → bs1 = bs2 ∧ c1 = c2.
Proof.
  intros Hp H1 H2 Hcf Hz E.
  assert (bs1 = bs2) as <- by (eapply (same_tip_same_blocks bs1 bs2); done).
  split; [done|]. by eapply chain_of_det.
Qed.

Lemma tip_commits_to_history_witness :
  [sample_genesis] = [sample_genesis] ∧ sample_chain0 = sample_chain0.
Proof.
  assert (∀ z, z ∈ chain_hashed [sample_genesis] ++ chain_hashed [sample_genesis] →
    z = enc_header (header sample_genesis) ∨ z = tx_to_bytes sample_cb0) as H.
  { intros z [Hz|Hz]%elem_of_app; (apply elem_of_cons in Hz as [->|Hz]; [by left|right];
      by apply list_elem_of_singleton in Hz). }
  apply (tip_commits_to_history sample_params [sample_genesis] [sample_genesis] sample_chain0 sample_chain0);
    [apply sample_params_wf|apply sample_chain_of0|apply sample_chain_of0| | |reflexivity].
  - assert (sha256d (enc_header (header sample_genesis)) ≠ sha256d (tx_to_bytes sample_cb0)) as Hne
      by (apply (bool_decide_eq_false_1 _); vm_eq).
    intros x y Hx%H Hy%H E. destruct Hx as [->| ->], Hy as [->| ->]; try reflexivity.
    + destruct (Hne E).
    + destruct (Hne (eq_sym E)).
  - apply Forall_forall. intros x [->| ->]%H; apply (bool_decide_eq_false_1 _); vm_eq.
Defined.

(** Connecting a block drops from the caller's pool exactly the transactions of the
    block and keeps the pool well formed. *)
Theorem submit_block_prunes_pool (block : Block) (pool pool' : Mempool) (chain chain' : Chain) (fees : Z) :
  chain_wf chain → block_typed block → pool_wf pool →
  submit_block block (Some pool) chain = (chain', Some pool', Ok fees) →
  pool_wf pool' ∧
  ∀ id, by_txid_ pool' !! id =
        if decide (id ∈ txid <$> transactions block) then None else by_txid_ pool !! id.
Proof.
  intros Hc Hb Hpool H. apply submit_block_Ok in H as (_ & E & _); [|done..]. injection E as ->.
  split; [by apply prune_wf|]. intros id. apply prune_lookup.
Qed.

Lemma sample_submit_paying :
  submit_block sample_paying (Some sample_pool) sample_funded =
  (sample_settled, Some (prune (transactions sample_paying) sample_pool), Ok 1000).
Proof.
  apply submit_block_Ok; [apply sample_funded_wf|apply sample_paying_typed|].
  split; [split; done|]. split; [reflexivity|]. exists sample_paid.
  split; [apply sample_paying_applies|reflexivity].
Qed.

Lemma submit_block_prunes_pool_witness :
  pool_wf (prune (transactions sample_paying) sample_pool).
Proof.
  exact (proj1 (submit_block_prunes_pool sample_paying sample_pool
    (prune (transactions sample_paying) sample_pool) sample_funded sample_settled 1000
    sample_funded_wf sample_paying_typed sample_pool_wf sample_submit_paying)).
Defined.

(** ** Block production *)

(** C3: block production succeeds and its block is accepted.  On every chain grown from a
    genesis block whose total issuance up to the next block is within the money limit,
    and for every well-formed pool, [build_block_template] returns a block that
    [submit_block] connects with the fees it announced.  The block pays subsidy plus fees
    to the configured recipient, then takes pool entries in fee-rate order within the
    size and count budgets.  (The new coinbase must not share its txid with a pending or
    unspent one.) *)
Theorem template_accepted_by_chain (blocks : list Block) (chain : Chain) (ts : Z) (pool : Mempool)
    (params : BlockTemplateParams) :
  params_wf (consensus params) → chain_of (consensus params) blocks chain →
  producer_env chain ts pool params →
  coinbase_fresh (template_coinbase (tip_ chain) ts pool (utxos_ chain) params) pool (utxos_ chain) →
  ∃ t txs chain' pool',
    build_block_template (tip_ chain) ts pool (utxos_ chain) params = Ok t ∧
    submit_block (bt_block t) (Some pool) chain = (chain', Some pool', Ok (bt_total_fees t)) ∧
    timestamp (header (bt_block t)) = ts ∧
    transactions (bt_block t) =
      make_coinbase (height (tip_ chain) + 1) (block_subsidy (consensus params) + bt_total_fees t)
        (coinbase_recipient params) :: txs ∧
    txs `sublist_of` (e_transaction <$> entries_by_feerate pool) ∧
    bt_selected_count t = size_z txs ∧ bt_selected_count t ≤ bt_max_transactions params ∧
    size_z (block_to_bytes (bt_block t)) ≤ 176 `max` max_block_size_bytes params.
Proof. apply producer_accepted. Qed.

Definition sample_template_params : BlockTemplateParams :=
  mkBlockTemplateParams kBlockVersion 1000 10 sample_params sample_alice.

Lemma template_accepted_by_chain_witness :
  ∃ t txs chain' pool',
    build_block_template (tip_ sample_chain0) 1001 (new_mempool sample_limits) (utxos_ sample_chain0)
      sample_template_params = Ok t ∧
    submit_block (bt_block t) (Some (new_mempool sample_limits)) sample_chain0 =
      (chain', Some pool', Ok (bt_total_fees t)) ∧
    timestamp (header (bt_block t)) = 1001 ∧
    transactions (bt_block t) =
      make_coinbase (height (tip_ sample_chain0) + 1)
        (block_subsidy (consensus sample_template_params) + bt_total_fees t) sample_alice :: txs ∧
    txs `sublist_of` (e_transaction <$> entries_by_feerate (new_mempool sample_limits)) ∧
    bt_selected_count t = size_z txs ∧ bt_selected_count t ≤ 10 ∧
    size_z (block_to_bytes (bt_block t)) ≤ 176 `max` 1000.
Proof.
  apply (template_accepted_by_chain [sample_genesis] sample_chain0 1001 (new_mempool sample_limits)
           sample_template_params); [apply sample_params_wf|apply sample_chain_of0| |].
  - split; [reflexivity|reflexivity|vm_decide|vm_decide|apply sample_new_wf|vm_decide|vm_decide|vm_decide|vm_decide].
  - assert (template_coinbase (tip_ sample_chain0) 1001 (new_mempool sample_limits) (utxos_ sample_chain0)
      sample_template_params = sample_cb1) as -> by reflexivity.
    split; [apply lookup_empty|]. intros o c Ho E. unfold sample_chain0, sample_utxos0 in Ho. cbn [utxos_] in Ho.
    rewrite (right_id_L ∅ (∪)) in Ho. apply tx_coins_lookup in Ho as (Eo & _).
    exact (sample_cbs_differ (eq_trans (eq_sym Eo) E)).
Defined.

(** ** The stored ledger *)

(** C30: a ledger that respects the limits is encoded, and decodes to itself; whatever file
    is accepted is the encoding of the ledger returned (or its version-1 form, which has no
    pool), and that ledger respects the limits: the format is canonical. *)
Theorem ledger_roundtrip (l : LedgerData) (bytes : list byte) :
  (ledger_wf l →
   ∃ file, encode_ledger (l_blocks l) (l_params l) (l_mempool_transactions l) = Ok file ∧
     decode_ledger file = Ok l) ∧
  (decode_ledger bytes = Ok l →
   ledger_wf l ∧
   (encode_ledger (l_blocks l) (l_params l) (l_mempool_transactions l) = Ok bytes ∨
    bytes = enc_sealed (enc_ledger_head kLedgerFormatVersion1 l) ∧ l_mempool_transactions l = [])).
Proof.
  split.
  - intros Hl. exists (enc_sealed (enc_body l)). split; [by apply encode_ledger_enc|by apply decode_body_enc].
  - intros [Hl H]%decode_ledger_inv. split; [done|]. destruct H as [->|H]; [left|by right].
    by apply encode_ledger_enc.
Qed.

Lemma ledger_roundtrip_witness :
  ∃ file, encode_ledger [sample_genesis] sample_params (sorted_transactions (new_mempool sample_limits)) = Ok file ∧
    decode_ledger file = Ok (node_ledger sample_params [sample_genesis] (new_mempool sample_limits)).
Proof.
  apply (proj1 (ledger_roundtrip (node_ledger sample_params [sample_genesis] (new_mempool sample_limits)) [])).
  apply (node_ledger_wf _ _ sample_chain0);
    [apply sample_params_wf|apply sample_chain_of0|apply sample_new_wf|vm_decide|vm_decide].
Defined.

(** C31: replaying stored blocks rebuilds a chain exactly when the blocks, in order, are an
    execution of the node: [replay_chain] accepts every chain the node can have grown,
    rebuilds it in the same state, and accepts nothing else. *)
Theorem replay_is_execution (params : ConsensusParams) (blocks : list Block) (chain : Chain) :
  params_wf params → Forall block_typed blocks →
  replay_chain blocks params = Ok chain ↔ chain_of params (reverse blocks) chain.
Proof. intros Hp Hty. by apply replay_chain_of. Qed.

Lemma replay_is_execution_witness :
  replay_chain [sample_genesis; sample_next] sample_params = Ok sample_chain1.
Proof.
  apply (replay_is_execution sample_params [sample_genesis; sample_next] sample_chain1);
    [apply sample_params_wf| |apply sample_chain_of].
  apply Forall_cons_2; [apply sample_genesis_typed|apply Forall_singleton, sample_next_typed].
Defined.

(** Restart.  When the system calls succeed and the file is within the size limit,
    saving the ledger of a node and loading it gives the same chain, and re-admitting the
    stored transactions gives the same pool, provided its entries are valid on the chain;
    no other file changes. *)
Theorem restart_restores_node (io : Io) (dir : string) (d : Disk) (params : ConsensusParams)
    (bs : list Block) (chain : Chain) (pool : Mempool) (policy : MempoolPolicy) :
  params_wf params → chain_of params bs chain → pool_wf pool → pool_valid (utxos_ chain) policy pool →
  size_z bs ≤ kMaxLedgerBlocks → pool_size pool ≤ kMaxLedgerMempoolTransactions →
  io_good io (enc_sealed (enc_body (node_ledger params bs pool))) →
  size_z (enc_sealed (enc_body (node_ledger params bs pool))) ≤ kMaxLedgerFileBytes →
  ∃ d', save_ledger io dir (reverse bs) params (sorted_transactions pool) d = (d', Ok tt) ∧
    load_chain io dir d' = Ok chain ∧
    (∃ l, load_ledger io dir d' = Ok l ∧
      restore_mempool (utxos_ chain) (l_mempool_transactions l) policy (new_mempool (limits_ pool)) =
        (pool, Ok tt)) ∧
    ∀ p, p ≠ ledger_path dir → p ≠ ledger_temp_path dir → d' !! p = d !! p.
Proof.
  intros Hp Hch Hm Hv Hn Hpn Hio Hsz. pose proof (node_ledger_wf _ _ _ _ Hp Hch Hm Hn Hpn) as Hl.
  destruct (save_load_ledger io dir _ d Hl Hio Hsz) as (d' & Hs & Hload & _ & Hother).
  exists d'. split; [exact Hs|]. split; [|split; [|done]].
  - unfold load_chain. rewrite Hload. rsimpl. cbn [l_blocks l_params node_ledger].
    apply replay_chain_of; [done| |by rewrite reverse_involutive].
    apply Forall_reverse. by destruct (chain_of_stored _ Hp _ _ Hch).
  - eexists. split; [exact Hload|]. by apply restore_sorted.
Qed.

Definition sample_io : Io := mkIo true true true 1000 true rd_whole.

Lemma sample_ledger_size :
  size_z (enc_sealed (enc_body (node_ledger sample_params [sample_genesis] (new_mempool sample_limits)))) = 212.
Proof. vm_eq. Qed.

Lemma restart_restores_node_witness :
  ∃ d', save_ledger sample_io "data" (reverse [sample_genesis]) sample_params
          (sorted_transactions (new_mempool sample_limits)) ∅ = (d', Ok tt) ∧
    load_chain sample_io "data" d' = Ok sample_chain0 ∧
    (∃ l, load_ledger sample_io "data" d' = Ok l ∧
      restore_mempool (utxos_ sample_chain0) (l_mempool_transactions l) sample_policy
        (new_mempool sample_limits) = (new_mempool sample_limits, Ok tt)) ∧
    ∀ p, p ≠ ledger_path "data" → p ≠ ledger_temp_path "data" → d' !! p = (∅ : Disk) !! p.
Proof.
  apply (restart_restores_node sample_io "data" ∅ sample_params [sample_genesis] sample_chain0
           (new_mempool sample_limits) sample_policy);
    [apply sample_params_wf|apply sample_chain_of0|apply sample_new_wf|apply map_Forall_empty|vm_decide|vm_decide| |].
  - split; try reflexivity. apply Nat2Z.inj_le. rewrite sample_ledger_size. vm_decide.
  - rewrite sample_ledger_size. vm_decide.
Defined.

(** Crash safety of the atomic write.  Wherever the sequence of system calls of
    [write_file_atomic] is interrupted, and whatever calls failed, the target file holds
    its old contents or the complete new ones, and no other file but the temporary one
    has changed, provided closing the stream loses no buffered byte. *)
Theorem interrupted_write_keeps_ledger (dir : string) (bytes : list byte) (d d' : Disk) (ph : WPhase) :
  rtc (wstep (ledger_path dir) (ledger_temp_path dir) bytes false) (WStart, d) (ph, d') →
  (d' !! ledger_path dir = d !! ledger_path dir ∨ d' !! ledger_path dir = Some bytes) ∧
  (ph = WDone → d' !! ledger_path dir = Some bytes) ∧
  ∀ p, p ≠ ledger_path dir → p ≠ ledger_temp_path dir → d' !! p = d !! p.
Proof.
  intros [Ho Hi]%wsteps_inv; [|apply paths_differ]. cbn in *.
  assert (ph = WDone → d' !! ledger_path dir = Some bytes) as Hd.
  { intros ->. destruct Hi as (n & -> & [?|Hn]); [done|]. by rewrite take_ge. }
  split_and!; [|done|done]. destruct ph; cbn in Hi; auto.
  - left. by rewrite Hi.
  - left. apply Hi.
  - left. apply Hi.
Qed.

Lemma interrupted_write_keeps_ledger_witness :
  ((<[ledger_temp_path "data" := []]> (∅ : Disk)) !! ledger_path "data" = (∅ : Disk) !! ledger_path "data" ∨
   (<[ledger_temp_path "data" := []]> (∅ : Disk)) !! ledger_path "data" = Some [x01]) ∧
  (WOpen 0 = WDone → (<[ledger_temp_path "data" := []]> (∅ : Disk)) !! ledger_path "data" = Some [x01]) ∧
  ∀ p, p ≠ ledger_path "data" → p ≠ ledger_temp_path "data" →
    (<[ledger_temp_path "data" := []]> (∅ : Disk)) !! p = (∅ : Disk) !! p.
Proof.
  apply (interrupted_write_keeps_ledger "data" [x01] ∅ _ (WOpen 0)). apply rtc_once. apply ws_open.
Defined.

(** Every outcome of [write_file_atomic] is one of these executions, and it reports
    success exactly when the rename was reached; if the close loses no byte, success means
    the target holds exactly the bytes. *)
Theorem write_file_atomic_refines (io : Io) (dir : string) (bytes : list byte) (d d' : Disk) (r : Result unit) :
  (length bytes ≤ io_flushed io)%nat →
  write_file_atomic io (ledger_path dir) (ledger_temp_path dir) bytes d = (d', r) →
  ∃ ph, rtc (wstep (ledger_path dir) (ledger_temp_path dir) bytes false) (WStart, d) (ph, d') ∧
    (r = Ok tt ↔ ph = WDone) ∧ (r = Ok tt → d' !! ledger_path dir = Some bytes).
Proof.
  intros Hf H. destruct (write_file_atomic_steps (ledger_path dir) (ledger_temp_path dir) bytes io false d d' r) as (ph & Hs & Hr);
    [by right|done|]. exists ph. split; [done|split; [done|]]. intros E%Hr. subst ph.
  apply wsteps_inv in Hs; [|apply paths_differ]. unfold wphase_inv in Hs. cbn in Hs.
  destruct Hs as [_ (n & -> & [?|Hn])]; [done|]. by rewrite take_ge.
Qed.

Lemma write_file_atomic_refines_witness :
  ∃ ph, rtc (wstep (ledger_path "data") (ledger_temp_path "data") [x01] false) (WStart, ∅)
          (ph, (write_file_atomic sample_io (ledger_path "data") (ledger_temp_path "data") [x01] ∅).1) ∧
    (Ok tt = Ok tt ↔ ph = WDone) ∧
    (Ok tt = Ok tt →
     (write_file_atomic sample_io (ledger_path "data") (ledger_temp_path "data") [x01] ∅).1
       !! ledger_path "data" = Some [x01]).
Proof. apply (write_file_atomic_refines sample_io); [cbn; lia|reflexivity]. Defined.

(** C39: a failed flush goes unnoticed.  The stream is flushed by its destructor, after the
    error check: when bytes are lost there, [write_file_atomic] still renames the
    truncated file over the ledger and reports success, and the previous ledger is gone. *)
Theorem lost_flush_replaces_ledger (io : Io) (dir : string) (bytes : list byte) (d : Disk) :
  io_open io = true → io_write io = true → io_rename io = true → (io_flushed io < length bytes)%nat →
  ∃ d', write_file_atomic io (ledger_path dir) (ledger_temp_path dir) bytes d = (d', Ok tt) ∧
    d' !! ledger_path dir = Some (take (io_flushed io) bytes) ∧
    d' !! ledger_path dir ≠ Some bytes.
Proof.
  intros H1 H2 H3 Hlt. unfold write_file_atomic, rename_file. rewrite H1, H2, H3. cbn [negb].
  rewrite lookup_insert_eq. eexists. split; [reflexivity|]. rewrite lookup_insert_eq. split; [done|].
  intros [= E]. apply (f_equal length) in E. rewrite length_take in E. lia.
Qed.

Lemma lost_flush_replaces_ledger_witness :
  ∃ d', write_file_atomic (mkIo true true true 1 true rd_whole) (ledger_path "data") (ledger_temp_path "data")
          [x01; x02] {[ ledger_path "data" := [x07] ]} = (d', Ok tt) ∧
    d' !! ledger_path "data" = Some (take 1 [x01; x02]) ∧ d' !! ledger_path "data" ≠ Some [x01; x02].
Proof. apply (lost_flush_replaces_ledger (mkIo true true true 1 true rd_whole)); [reflexivity..|cbn; lia]. Defined.

(** ** Pool entries that a block makes invalid *)

(** C38: a block removes from the pool only the transactions it contains: an entry that
    spends an output the block spent otherwise stays, and the snapshot written from such a
    pool cannot be restored - re-admission fails as storage corruption, whatever the
    policy, although the file is intact. *)
Theorem stale_entry_blocks_restore (block : Block) (pool pool' : Mempool) (chain chain' : Chain) (fees : Z)
    (id : Hash256) (e : Entry) (i : TxInput) (policy : MempoolPolicy) (limits : MempoolLimits) :
  chain_wf chain → block_typed block → pool_wf pool →
  submit_block block (Some pool) chain = (chain', Some pool', Ok fees) →
  by_txid_ pool !! id = Some e → id ∉ txid <$> transactions block →
  i ∈ inputs (e_transaction e) → utxos_ chain' !! prevout i = None →
  by_txid_ pool' !! id = Some e ∧
  fails_with kStorageCorruption
    (restore_mempool (utxos_ chain') (sorted_transactions pool') policy (new_mempool limits)).2.
Proof.
  intros Hc Hb Hpool H He Hid Hi Hn. apply submit_block_Ok in H as (_ & E & _); [|done..]. injection E as ->.
  assert (by_txid_ (prune (transactions block) pool) !! id = Some e) as He'
    by (by rewrite prune_lookup, decide_False).
  split; [done|]. apply (restore_missing_input _ _ _ _ (e_transaction e) i); [|done..].
  rewrite sorted_transactions_eq by (by apply prune_wf). apply list_elem_of_fmap. exists e.
  split; [done|]. apply elem_of_pool_entries. by exists id.
Qed.

(** The same coin paid elsewhere, with a higher fee. *)
Definition sample_respend : Transaction :=
  mkTransaction kTransactionVersion [mkTxInput sample_op]
    [mkTxOutput (kDefaultBlockSubsidy - 5000) sample_alice] 0.
Definition sample_respend_entry : Entry := mkEntry sample_respend (txid sample_respend) 5000 92.
Definition sample_respend_pool : Mempool := insert_entry sample_respend_entry (new_mempool sample_limits).

Lemma sample_respend_insertable : insertable sample_respend_entry (new_mempool sample_limits).
Proof. split; [apply lookup_empty|intros; apply lookup_empty|vm_decide|vm_decide]. Qed.

Lemma sample_respend_pool_wf : pool_wf sample_respend_pool.
Proof.
  apply insert_entry_wf; [apply sample_new_wf| |apply sample_respend_insertable].
  apply entry_ok_intro; [vm_decide|apply sane_of_check; [vm_decide|vm_eq]|vm_eq|vm_decide|vm_eq].
Qed.

Lemma sample_paid_spent : sample_paid !! sample_op = None.
Proof.
  assert (op_txid sample_op ≠ txid sample_cb1) as H1 by (apply (bool_decide_eq_false_1 _); vm_eq).
  assert (op_txid sample_op ≠ txid sample_spend) as H2 by (apply (bool_decide_eq_false_1 _); vm_eq).
  apply eq_None_not_Some. intros [c Hc]. apply lookup_union_Some_raw in Hc as [Hc|[_ Hc]].
  - apply tx_coins_lookup in Hc as [E _]. exact (H1 E).
  - apply lookup_union_Some_raw in Hc as [Hc|[_ Hc]].
    + apply tx_coins_lookup in Hc as [E _]. exact (H2 E).
    + rewrite lookup_empty in Hc. discriminate Hc.
Qed.

Lemma stale_entry_blocks_restore_witness :
  by_txid_ (prune (transactions sample_paying) sample_respend_pool) !! txid sample_respend =
    Some sample_respend_entry ∧
  fails_with kStorageCorruption
    (restore_mempool sample_paid (sorted_transactions (prune (transactions sample_paying) sample_respend_pool))
       sample_policy (new_mempool sample_limits)).2.
Proof.
  apply (stale_entry_blocks_restore sample_paying sample_respend_pool _ sample_funded sample_settled 1000
           _ sample_respend_entry (mkTxInput sample_op));
    [apply sample_funded_wf|apply sample_paying_typed|apply sample_respend_pool_wf| | | | |].
  - apply submit_block_Ok; [apply sample_funded_wf|apply sample_paying_typed|].
    split; [split; done|]. split; [reflexivity|]. exists sample_paid.
    split; [apply sample_paying_applies|reflexivity].
  - unfold sample_respend_pool. rewrite (insert_entry_by_txid _ _ sample_respend_insertable).
    apply lookup_insert_eq.
  - intros [E|E%list_elem_of_singleton]%elem_of_cons; revert E; apply (bool_decide_eq_false_1 _); vm_eq.
  - apply list_elem_of_here.
  - apply sample_paid_spent.
Defined.
