(* ===== verification/P2pMessage.v ===== *)
(** * The envelope of peer-to-peer messages ([include/blockchain/net/p2p_message.hpp],
    [src/net/p2p_message.cpp])

    [enum class P2pMessageType] is an inductive type; [type_value] is its underlying
    number and [parse_message_type] the checked conversion back. *)

From S2P Require Import Prelude Errors Sha256 ByteIO Transaction.
From Stdlib Require Import Strings.Byte.

Definition kNetworkMagic : Z := 0xBC173C01.
Definition kMaxP2pPayloadBytes : Z := Z.shiftl 1 20.
Definition kP2pEnvelopeOverhead : Z := 4 + 4 + 2 + 4 + 4.

Inductive P2pMessageType :=
  | kHandshake
  | kPing
  | kPong
  | kPeerInfo
  | kTxAnnounce
  | kTxRequest
  | kTxResponse
  | kBlockAnnounce
  | kBlockRequest
  | kBlockResponse
  | kReject.

#[global] Instance P2pMessageType_eq_dec : EqDecision P2pMessageType.
Proof. solve_decision. Defined.

Definition type_value (type : P2pMessageType) : Z :=
  match type with
  | kHandshake => 1
  | kPing => 2
  | kPong => 3
  | kPeerInfo => 4
  | kTxAnnounce => 5
  | kTxRequest => 6
  | kTxResponse => 7
  | kBlockAnnounce => 8
  | kBlockRequest => 9
  | kBlockResponse => 10
  | kReject => 11
  end.

Definition type_name (type : P2pMessageType) : string :=
  match type with
  | kHandshake => "Handshake"
  | kPing => "Ping"
  | kPong => "Pong"
  | kPeerInfo => "PeerInfo"
  | kTxAnnounce => "TxAnnounce"
  | kTxRequest => "TxRequest"
  | kTxResponse => "TxResponse"
  | kBlockAnnounce => "BlockAnnounce"
  | kBlockRequest => "BlockRequest"
  | kBlockResponse => "BlockResponse"
  | kReject => "Reject"
  end.

Definition all_types : list P2pMessageType :=
  [kHandshake; kPing; kPong; kPeerInfo; kTxAnnounce; kTxRequest; kTxResponse; kBlockAnnounce;
   kBlockRequest; kBlockResponse; kReject].

(** [is_known_p2p_message_type(static_cast<P2pMessageType>(raw))] with the type it names. *)
Definition known_type (raw : Z) : option P2pMessageType :=
  List.find (λ t, type_value t =? raw) all_types.

Record P2pMessage := mkP2pMessage {
  m_version : Z;
  m_type : P2pMessageType;
  m_payload : list byte;
}.

(** ** Operations *)

Definition checksum_of (data : list byte) : Z := load_u32 (sha256 data).

Definition write_header_body (message : P2pMessage) (w : ByteWriter) : ByteWriter :=
  let w := put_u32 kNetworkMagic w in
  let w := put_u32 (m_version message) w in
  let w := put_u16 (type_value (m_type message)) w in
  let w := put_u32 (wrap32 (size_z (m_payload message))) w in
  match m_payload message with
  | [] => w
  | _ :: _ => put_bytes (m_payload message) w
  end.

Definition parse_message_type (raw : Z) : Result P2pMessageType :=
  match known_type raw with
  | None => make_error kInvalidMessage ("unknown P2P message type: " +:+ std_to_string raw)
  | Some type => mret type
  end.

(** [P2pMessage::to_bytes] *)
Definition message_to_bytes (message : P2pMessage) : list byte :=
  let w := write_header_body message empty_writer in
  wbuffer_ (put_u32 (checksum_of (wbuffer_ w)) w).

(** [if ( *payload_len > 0) { auto bytes = reader.get_bytes( *payload_len); ... }] *)
Definition get_payload (payload_len : Z) (r : ByteReader) : Result (list byte * ByteReader) :=
  if 0 <? payload_len then get_bytes payload_len r else mret ([], r).

(** [P2pMessage::deserialize] *)
Definition message_deserialize (wire : list byte) : Result P2pMessage :=
  if size_z wire <? kP2pEnvelopeOverhead
  then make_error kParseError "P2P message too short"
  else
    '(magic, r) ← get_u32 (new_reader wire);
    if negb (magic =? kNetworkMagic)
    then make_error kInvalidMessage "unexpected network magic"
    else
      '(version, r) ← get_u32 r;
      if negb (version =? kProtocolVersion)
      then make_error kUnsupportedVersion "unsupported P2P protocol version"
      else
        '(type_raw, r) ← get_u16 r;
        type ← parse_message_type type_raw;
        '(payload_len, r) ← get_length kMaxP2pPayloadBytes r;
        '(payload, r) ← get_payload payload_len r;
        '(checksum, r) ← get_u32 r;
        _ ← expect_end r;
        let expected := checksum_of (take (length wire - 4) wire) in
        if negb (checksum =? expected)
        then make_error kInvalidMessage "P2P message checksum mismatch"
        else mret (mkP2pMessage version type payload).

(** ** The wire format *)

Definition message_wf (message : P2pMessage) : Prop :=
  m_version message = kProtocolVersion ∧ size_z (m_payload message) ≤ kMaxP2pPayloadBytes.

Definition enc_message_body (message : P2pMessage) : list byte :=
  le_bytes 4 kNetworkMagic ++ le_bytes 4 (m_version message) ++
  le_bytes 2 (type_value (m_type message)) ++ le_bytes 4 (size_z (m_payload message)) ++
  m_payload message.

Definition enc_message (message : P2pMessage) : list byte :=
  enc_message_body message ++ le_bytes 4 (checksum_of (enc_message_body message)).

Lemma known_type_value type : known_type (type_value type) = Some type.
Proof. by destruct type. Qed.

Lemma known_type_Some raw type : known_type raw = Some type → raw = type_value type.
Proof.
  unfold known_type. intros [_ H]%List.find_some. lia.
Qed.

Lemma type_value_u16 type : is_u16 (type_value type).
Proof. destruct type; done. Qed.

Lemma checksum_of_u32 data : is_u32 (checksum_of data).
Proof. apply load_u32_digest, sha256_wf. Qed.

Lemma message_to_bytes_enc message : message_wf message → message_to_bytes message = enc_message message.
Proof.
  intros [_ Hs]. assert (wbuffer_ (write_header_body message empty_writer) = enc_message_body message) as E.
  { unfold write_header_body, enc_message_body. change kMaxP2pPayloadBytes with 1048576 in Hs.
    rewrite wrap32_small by solve_u. destruct (m_payload message) as [|b p].
    - autorewrite with writer. cbn [wbuffer_ empty_writer app]. by rewrite <- !(assoc_L (++)).
    - autorewrite with writer. cbn [wbuffer_ empty_writer app]. by rewrite <- !(assoc_L (++)). }
  unfold message_to_bytes, enc_message. cbv zeta. rewrite E. autorewrite with writer. cbn [wbuffer_].
  by rewrite E.
Qed.

Lemma take_enc_message message :
  take (length (enc_message message) - 4) (enc_message message) = enc_message_body message.
Proof.
  unfold enc_message. rewrite length_app, length_le_bytes.
  replace (length (enc_message_body message) + 4 - 4)%nat with (length (enc_message_body message)) by lia.
  apply take_app_length.
Qed.

Lemma length_enc_message message : size_z (enc_message message) = kP2pEnvelopeOverhead + size_z (m_payload message).
Proof.
  unfold enc_message, enc_message_body. rewrite !length_app, !length_le_bytes.
  unfold kP2pEnvelopeOverhead. lia.
Qed.

Lemma get_payload_at p pre suf :
  get_payload (size_z p) (reader_at pre (p ++ suf)) = Ok (p, reader_at (pre ++ p) suf).
Proof.
  unfold get_payload. destruct (0 <? _) eqn:E; [by apply get_bytes_at|].
  destruct p; [cbn; by rewrite app_nil_r|apply Z.ltb_ge in E; rewrite length_cons in E; lia].
Qed.

Lemma get_payload_inv n pre suf p r :
  0 ≤ n → get_payload n (reader_at pre suf) = Ok (p, r) →
  ∃ suf', suf = p ++ suf' ∧ r = reader_at (pre ++ p) suf' ∧ size_z p = n.
Proof.
  intros Hn. unfold get_payload. destruct (0 <? n) eqn:E; [by apply get_bytes_inv|].
  intros [= <- <-]. exists suf. rewrite app_nil_r. split_and!; [done..|]. cbn. lia.
Qed.

Lemma deserialize_enc message : message_wf message → message_deserialize (enc_message message) = Ok message.
Proof.
  intros [Hv Hs]. unfold message_deserialize. rewrite take_enc_message.
  destruct (_ <? kP2pEnvelopeOverhead) eqn:E; [rewrite length_enc_message in E; lia|]. clear E.
  pose proof (type_value_u16 (m_type message)) as Ht. pose proof (checksum_of_u32 (enc_message_body message)) as Hc.
  unfold enc_message. set (ck := checksum_of (enc_message_body message)) in *. clearbody ck.
  unfold enc_message_body. rewrite new_reader_at, Hv.
  change kMaxP2pPayloadBytes with 1048576 in *.
  read_ok. rewrite Z.eqb_refl. cbn [negb]. read_ok. rewrite Z.eqb_refl. cbn [negb]. read_ok.
  unfold parse_message_type. rewrite known_type_value. rsimpl. read_ok.
  rewrite <- ?(assoc_L (++)). rewrite get_payload_at. rsimpl.
  rewrite <- (app_nil_r (le_bytes 4 ck)). read_ok.
  rewrite (proj2 (expect_end_at _ []) eq_refl). rsimpl. rewrite Z.eqb_refl. cbn [negb].
  destruct message as [v t p]. cbn in *. by subst.
Qed.

Lemma deserialize_inv wire message :
  message_deserialize wire = Ok message → wire = enc_message message ∧ message_wf message.
Proof.
  unfold message_deserialize. destruct (_ <? kP2pEnvelopeOverhead) eqn:E; [intros H; discriminate H|].
  rewrite new_reader_at. intros H. read_inv H.
  destruct (negb (v =? kNetworkMagic)) eqn:Em; [discriminate H|]. apply negb_false_iff, Z.eqb_eq in Em as ->.
  read_inv H. destruct (negb (v =? kProtocolVersion)) eqn:Ev; [discriminate H|].
  apply negb_false_iff, Z.eqb_eq in Ev as ->. read_inv H.
  apply bind_Ok in H as (type & Ht & H). unfold parse_message_type in Ht.
  destruct (known_type v) as [t|] eqn:Et; [|discriminate Ht]. injection Ht as <-.
  apply known_type_Some in Et as ->. read_inv H. apply bind_Ok in H as ([payload r] & Hp & H).
  apply get_payload_inv in Hp as (suf' & -> & -> & Hsz); [|solve_u].
  read_inv H. apply bind_Ok in H as ([] & Hend & H). apply expect_end_at in Hend as ->.
  destruct (negb (_ =? checksum_of _)) eqn:Ec; [discriminate H|]. apply negb_false_iff, Z.eqb_eq in Ec.
  injection H as <-. split; [|split; [done|cbn; lia]].
  set (m := mkP2pMessage kProtocolVersion t payload).
  assert (∀ x, le_bytes 4 kNetworkMagic ++ le_bytes 4 kProtocolVersion ++ le_bytes 2 (type_value t) ++
    le_bytes 4 v ++ payload ++ x = enc_message_body m ++ x) as Eb.
  { intros x. unfold enc_message_body. cbn [m m_version m_type m_payload]. rewrite Hsz.
    by rewrite <- !(assoc_L (++)). }
  rewrite app_nil_r in *. rewrite !Eb in *. unfold enc_message. f_equal. rewrite Ec.
  rewrite length_app, length_le_bytes.
  replace (length (enc_message_body m) + 4 - 4)%nat with (length (enc_message_body m)) by lia.
  by rewrite take_app_length.
Qed.

(** A payload over the limit is refused by the receiver, before it is read. *)
Lemma oversize_rejected message :
  m_version message = kProtocolVersion →
  kMaxP2pPayloadBytes < size_z (m_payload message) → size_z (m_payload message) < 2 ^ 32 →
  fails_with kResourceLimitExceeded (message_deserialize (message_to_bytes message)).
Proof.
  intros Hv Hs Hu. change kMaxP2pPayloadBytes with 1048576 in Hs.
  assert (∃ ck, message_to_bytes message = enc_message_body message ++ le_bytes 4 ck) as (ck & ->).
  { unfold message_to_bytes. cbv zeta. rewrite put_u32_spec. cbn [wbuffer_]. eexists. f_equal.
    unfold write_header_body, enc_message_body. rewrite wrap32_small by solve_u.
    destruct (m_payload message); autorewrite with writer; cbn [wbuffer_ empty_writer app];
      by rewrite <- ?(assoc_L (++)), ?app_nil_r. }
  unfold message_deserialize, enc_message_body. rewrite new_reader_at, Hv.
  destruct (_ <? kP2pEnvelopeOverhead) eqn:E.
  { apply Z.ltb_lt in E. rewrite !length_app, !length_le_bytes in E. change kP2pEnvelopeOverhead with 18 in E. lia. }
  pose proof (type_value_u16 (m_type message)) as Ht.
  read_ok. rewrite Z.eqb_refl. cbn [negb]. read_ok. rewrite Z.eqb_refl. cbn [negb]. read_ok.
  unfold parse_message_type. rewrite known_type_value. rsimpl.
  unfold get_length. rewrite <- ?(assoc_L (++)). rewrite codec_get by solve_u. rsimpl.
  destruct (_ <? size_z (m_payload message)) eqn:E2.
  - apply fails_with_bind. eauto with result.
  - apply Z.ltb_ge in E2. change kMaxP2pPayloadBytes with 1048576 in E2. lia.
Qed.
