(* ===== verification/Effects.v ===== *)
(** * Effects of the node

    [SR S A] is a method of an object of type [S] that may fail: explicit state passing
    with a [Result].  A failed step ends the method and keeps the state reached, as the
    early returns of the sources do.

    [Conn A] is a computation that talks to a peer through the two calls the node makes,
    [net::send_message] and [net::recv_message]: a tree of calls, each with the rest of
    the program for every answer.  The last section is about systems whose steps commute,
    such as two programs of this kind talking to each other. *)

From S2P Require Import Prelude Errors Sha256 ByteIO Transaction P2pMessage.

(** ** State and results *)

Definition SR (S A : Type) : Type := S → S * Result A.

#[global] Instance SR_ret S : MRet (SR S) := λ A a s, (s, Ok a).
#[global] Instance SR_bind S : MBind (SR S) := λ A B f m s,
  match m s with
  | (s', Ok a) => f a s'
  | (s', Err e) => (s', Err e)
  end.

Definition lift {S A} (r : Result A) : SR S A := λ s, (s, r).
Definition reads {S A} (f : S → A) : SR S A := λ s, (s, Ok (f s)).

Lemma SR_bind_eq {S A B} (m : SR S A) (f : A → SR S B) s s1 a :
  m s = (s1, Ok a) → (m ≫= f) s = f a s1.
Proof. unfold mbind, SR_bind. by intros ->. Qed.

Lemma SR_bind_err {S A B} (m : SR S A) (f : A → SR S B) s s1 e :
  m s = (s1, Err e) → (m ≫= f) s = (s1, Err e).
Proof. unfold mbind, SR_bind. by intros ->. Qed.

(** A method keeps a property of the state on every path, failures included. *)
Definition keeps {S A} (P : S → Prop) (m : SR S A) : Prop := ∀ s, P s → P (m s).1.

Lemma keeps_bind {S A B} (P : S → Prop) (m : SR S A) (f : A → SR S B) :
  keeps P m → (∀ a, keeps P (f a)) → keeps P (m ≫= f).
Proof.
  intros Hm Hf s Hs. specialize (Hm s Hs). unfold mbind, SR_bind.
  destruct (m s) as [s1 [a|e]]; [by apply Hf|done].
Qed.

Lemma keeps_pure {S A} (P : S → Prop) (r : Result A) : keeps P (lift r).
Proof. by intros s Hs. Qed.

Lemma keeps_ret {S A} (P : S → Prop) (a : A) : keeps P (mret (M := SR S) a).
Proof. by intros s Hs. Qed.

Lemma keeps_reads {S A} (P : S → Prop) (f : S → A) : keeps P (reads f).
Proof. by intros s Hs. Qed.

Create HintDb effects.
#[export] Hint Resolve keeps_bind keeps_pure keeps_ret keeps_reads : effects.

(** ** Conversations *)

Inductive Conn (A : Type) : Type :=
  | CRet (a : A)
  | CSend (message : P2pMessage) (k : Result unit → Conn A)
  | CRecv (k : Result P2pMessage → Conn A).
Arguments CRet {_} _.
Arguments CSend {_} _ _.
Arguments CRecv {_} _.

Fixpoint conn_bind {A B} (f : A → Conn B) (m : Conn A) : Conn B :=
  match m with
  | CRet a => f a
  | CSend msg k => CSend msg (λ r, conn_bind f (k r))
  | CRecv k => CRecv (λ r, conn_bind f (k r))
  end.

(** A method that talks to a peer. *)
Definition CR (S A : Type) : Type := S → Conn (S * Result A).

#[global] Instance CR_ret S : MRet (CR S) := λ A a s, CRet (s, Ok a).
#[global] Instance CR_bind S : MBind (CR S) := λ A B f m s,
  conn_bind (λ sr, match sr.2 with Ok a => f a sr.1 | Err e => CRet (sr.1, Err e) end) (m s).

(** A method that does not talk, and one that fails. *)
Definition silent {S A} (m : SR S A) : CR S A := λ s, CRet (m s).
Definition fail_with {S A} (r : Result A) : CR S A := silent (lift r).

(** The two calls; the object is not involved. *)
Definition conn_send {S} (message : P2pMessage) : CR S unit := λ s, CSend message (λ r, CRet (s, r)).
Definition conn_recv {S} : CR S P2pMessage := λ s, CRecv (λ r, CRet (s, r)).

(** [if (auto ok = m; !ok) { handler } else continue]: runs [m] and hands its result on. *)
Definition catch {S A B} (m : CR S A) (f : Result A → CR S B) : CR S B := λ s,
  conn_bind (λ sr, f sr.2 sr.1) (m s).

(** What follows the first step of a method. *)
Definition rest_of {S A B} (f : A → CR S B) (sr : S * Result A) : Conn (S * Result B) :=
  match sr.2 with Ok a => f a sr.1 | Err e => CRet (sr.1, Err e) end.

Lemma CR_bind_eq {S A B} (m : CR S A) (f : A → CR S B) s : (m ≫= f) s = conn_bind (rest_of f) (m s).
Proof. done. Qed.

Lemma CR_bind_fail {S A B} (r : Result A) (f : A → CR S B) s :
  (fail_with r ≫= f) s = match r with Ok a => f a s | Err e => CRet (s, Err e) end.
Proof. by destruct r. Qed.

Lemma CR_bind_silent {S A B} (m : SR S A) (f : A → CR S B) s :
  (silent m ≫= f) s = match m s with (s', Ok a) => f a s' | (s', Err e) => CRet (s', Err e) end.
Proof. unfold mbind, CR_bind, silent. cbn [conn_bind]. by destruct (m s) as [s' [a|e]]. Qed.

Lemma CR_bind_reads {S A B} (g : S → A) (f : A → CR S B) s : (silent (reads g) ≫= f) s = f (g s) s.
Proof. done. Qed.

(** Conversations that say the same and end alike, whatever the answers. *)
Inductive same_conn {A} : relation (Conn A) :=
  | same_ret a : same_conn (CRet a) (CRet a)
  | same_send m k k' : (∀ r, same_conn (k r) (k' r)) → same_conn (CSend m k) (CSend m k')
  | same_recv k k' : (∀ r, same_conn (k r) (k' r)) → same_conn (CRecv k) (CRecv k').

#[global] Instance same_conn_equiv A : Equivalence (@same_conn A).
Proof.
  split.
  - intros p. induction p; by constructor.
  - intros p q H. induction H; by constructor.
  - intros p q r H. revert r. induction H; intros r' H'; inversion H'; subst; constructor; auto.
Qed.

#[global] Instance conn_bind_proper A B :
  Proper (pointwise_relation A (@same_conn B) ==> @same_conn A ==> @same_conn B) (@conn_bind A B).
Proof. intros f g Hfg p q H. induction H; cbn [conn_bind]; [apply Hfg|by constructor..]. Qed.

Lemma rest_of_same {S A B} (f g : A → CR S B) sr :
  (∀ a s, same_conn (f a s) (g a s)) → same_conn (rest_of f sr) (rest_of g sr).
Proof. intros H. destruct sr as [s [a|e]]; [apply H|reflexivity]. Qed.

(** Every possible final value of a conversation, whatever the answers. *)
Fixpoint every {A} (P : A → Prop) (m : Conn A) : Prop :=
  match m with
  | CRet a => P a
  | CSend _ k => ∀ r, every P (k r)
  | CRecv k => ∀ r, every P (k r)
  end.

Lemma every_bind {A B} (P : B → Prop) (f : A → Conn B) (m : Conn A) :
  every (λ a, every P (f a)) m → every P (conn_bind f m).
Proof. induction m as [a|msg k IH|k IH]; cbn; auto. Qed.

Lemma every_mono {A} (P Q : A → Prop) (m : Conn A) :
  (∀ a, P a → Q a) → every P m → every Q m.
Proof. intros HPQ. induction m as [a|msg k IH|k IH]; cbn; auto. Qed.

(** A method of the node keeps a property of the state, whatever the peer answers. *)
Definition conn_keeps {S A} (P : S → Prop) (m : CR S A) : Prop := ∀ s, P s → every (λ sr, P sr.1) (m s).

Lemma conn_keeps_bind {S A B} (P : S → Prop) (m : CR S A) (f : A → CR S B) :
  conn_keeps P m → (∀ a, conn_keeps P (f a)) → conn_keeps P (m ≫= f).
Proof.
  intros Hm Hf s Hs. apply every_bind. eapply every_mono; [|by apply Hm].
  intros [s' [a|e]] Hs'; [by apply Hf|done].
Qed.

Lemma conn_keeps_catch {S A B} (P : S → Prop) (m : CR S A) (f : Result A → CR S B) :
  conn_keeps P m → (∀ r, conn_keeps P (f r)) → conn_keeps P (catch m f).
Proof.
  intros Hm Hf s Hs. apply every_bind. eapply every_mono; [|by apply Hm].
  intros [s' r] Hs'. by apply Hf.
Qed.

Lemma conn_keeps_silent {S A} (P : S → Prop) (m : SR S A) : keeps P m → conn_keeps P (silent m).
Proof. intros Hm s Hs. by apply Hm. Qed.

Lemma conn_keeps_ret {S A} (P : S → Prop) (a : A) : conn_keeps P (mret (M := CR S) a).
Proof. by intros s Hs. Qed.

Lemma conn_keeps_fail {S A} (P : S → Prop) (r : Result A) : conn_keeps P (fail_with r).
Proof. by intros s Hs. Qed.

Lemma conn_keeps_send {S} (P : S → Prop) msg : conn_keeps P (conn_send msg).
Proof. by intros s Hs r. Qed.

Lemma conn_keeps_recv {S} (P : S → Prop) : conn_keeps P conn_recv.
Proof. by intros s Hs r. Qed.

#[export] Hint Resolve conn_keeps_bind conn_keeps_catch conn_keeps_silent conn_keeps_ret conn_keeps_fail
  conn_keeps_send conn_keeps_recv : effects.

(** ** Commuting steps

    If one run of a system comes to rest, every run does, in the same
    state and after as many steps. *)
Section Commuting.
Context {S : Type} (R : relation S).
Hypothesis Hdiamond : ∀ x y z, R x y → R x z → y = z ∨ ∃ w, R y w ∧ R z w.

Definition at_rest (x : S) : Prop := ∀ y, ¬ R x y.

Lemma commuting_step n x y f :
  nsteps R n x f → at_rest f → R x y → ∃ m, n = Datatypes.S m ∧ nsteps R m y f.
Proof.
  intros Hn Hf. revert x y Hn. induction n as [|n IH]; intros x y Hn Hxy.
  { inversion Hn; subst. by destruct (Hf y). }
  exists n. split; [done|]. inversion Hn as [|? ? z ? Hxz Hzf]; subst.
  destruct (Hdiamond _ _ _ Hxy Hxz) as [->|(w & Hyw & Hzw)]; [done|].
  destruct (IH z w Hzf Hzw) as (m & -> & Hw). by econstructor.
Qed.

(** Every run from [x] is at most [n] steps long and can only end in [f]. *)
Theorem commuting_runs n x f :
  nsteps R n x f → at_rest f →
  ∀ k y, nsteps R k x y → (k ≤ n)%nat ∧ nsteps R (n - k) y f.
Proof.
  intros Hn Hf k. revert n x Hn. induction k as [|k IH]; intros n x Hn y Hk.
  { inversion Hk; subst. rewrite Nat.sub_0_r. split; [lia|done]. }
  inversion Hk as [|? ? z ? Hxz Hzy]; subst.
  destruct (commuting_step _ _ _ _ Hn Hf Hxz) as (m & -> & Hm).
  destruct (IH _ _ Hm _ Hzy) as [Hle Hy]. split; [lia|]. done.
Qed.
End Commuting.
