(* ===== verification/Text.v ===== *)
(** * Characters and numbers in text

    What the sources use of [<charconv>], [<cctype>] and [std::string]: [std::from_chars]
    on unsigned decimal numbers, [std::isdigit] and [std::isspace] of the "C" locale,
    [rfind] of a character and [find] of a substring. *)

From S2P Require Import Prelude Errors.
From Stdlib Require Import Strings.Ascii.

Abbreviation chars := String.list_ascii_of_string.
Abbreviation of_chars := String.string_of_list_ascii.

Definition char_code (c : ascii) : Z := Z.of_N (N_of_ascii c).

Definition digit_val (c : ascii) : option Z :=
  if (48 <=? char_code c) && (char_code c <=? 57) then Some (char_code c - 48) else None.

Definition isdigit (c : ascii) : bool := if digit_val c then true else false.
Definition isspace (c : ascii) : bool :=
  (char_code c =? 32) || (9 <=? char_code c) && (char_code c <=? 13).

(** The longest prefix of digits, and what follows it. *)
Fixpoint span_digits (cs : list ascii) : list Z * list ascii :=
  match cs with
  | [] => ([], [])
  | c :: rest =>
      match digit_val c with
      | Some d => let '(ds, rest) := span_digits rest in (d :: ds, rest)
      | None => ([], cs)
      end
  end.

Definition decimal (ds : list Z) : Z := foldl (λ acc d, 10 * acc + d) 0 ds.

(** [std::from_chars(begin, end, value)] for an unsigned type with maximum [max]: the
    value, when the error code is clear, and the characters from [ptr] on. *)
Definition from_chars (max : Z) (cs : list ascii) : option Z * list ascii :=
  match span_digits cs with
  | ([], _) => (None, cs)
  | (ds, rest) => (if decimal ds <=? max then Some (decimal ds) else None, rest)
  end.

(** The text before and after the last occurrence of [c], where [rfind(c)] finds one. *)
Fixpoint split_last (c : ascii) (cs : list ascii) : option (list ascii * list ascii) :=
  match cs with
  | [] => None
  | x :: rest =>
      match split_last c rest with
      | Some (before, after) => Some (x :: before, after)
      | None => if decide (x = c) then Some ([], rest) else None
      end
  end.

(** [text.find(pattern) != npos] *)
Definition contains_text (pattern text : string) : bool :=
  match String.index 0 pattern text with Some _ => true | None => false end.

(** ** Lemmas *)

Lemma of_chars_inj s cs : chars s = cs ↔ s = of_chars cs.
Proof.
  split; [intros <-; by rewrite String.string_of_list_ascii_of_string|
          intros ->; apply String.list_ascii_of_string_of_list_ascii].
Qed.

Lemma chars_app s t : chars (s +:+ t) = chars s ++ chars t.
Proof. induction s as [|c s IH]; [done|]. change (c :: chars (s +:+ t) = c :: (chars s ++ chars t)). by rewrite IH. Qed.

Lemma of_chars_of s : of_chars (chars s) = s.
Proof. apply String.string_of_list_ascii_of_string. Qed.

Lemma span_digits_app cs ds rest :
  span_digits cs = (ds, []) → (∀ c rest', rest = c :: rest' → digit_val c = None) →
  span_digits (cs ++ rest) = (ds, rest).
Proof.
  intros H Hr. revert ds H. induction cs as [|c cs IH]; intros ds H; cbn in *.
  - injection H as <-. destruct rest as [|c rest]; [done|]. cbn. by rewrite (Hr _ _ eq_refl).
  - destruct (digit_val c) as [d|]; [|discriminate H]. destruct (span_digits cs) as [ds' r'].
    injection H as <- ->. by rewrite (IH ds' eq_refl).
Qed.

Lemma decimal_app ds d : decimal (ds ++ [d]) = 10 * decimal ds + d.
Proof. unfold decimal. by rewrite foldl_app. Qed.

Lemma digit_val_pretty (x : N) :
  (x < 10)%N → digit_val (pretty_N_char x) = Some (Z.of_N x).
Proof.
  intros H. assert (x = 0 ∨ x = 1 ∨ x = 2 ∨ x = 3 ∨ x = 4 ∨ x = 5 ∨ x = 6 ∨ x = 7 ∨ x = 8 ∨ x = 9)%N as Hx by lia.
  by destruct_or! Hx; subst.
Qed.

(** The digits of a printed number are its digits. *)
Lemma span_digits_pretty_go (x : N) (s : string) (ds : list Z) :
  span_digits (chars s) = (ds, []) →
  ∃ ds', span_digits (chars (pretty_N_go x s)) = (ds' ++ ds, []) ∧ decimal ds' = Z.of_N x ∧
    (x ≠ 0 → ds' ≠ [])%N.
Proof.
  revert s ds. induction (N.lt_wf_0 x) as [x _ IH]. intros s ds Hs.
  destruct (decide (x = 0)%N) as [->|Hx].
  { rewrite pretty_N_go_0. by exists []. }
  rewrite pretty_N_go_step by lia.
  assert (x `mod` 10 < 10)%N as Hm by (apply N.mod_lt; lia).
  destruct (IH (x `div` 10)%N) with (s := String (pretty_N_char (x `mod` 10)) s)
    (ds := Z.of_N (x `mod` 10) :: ds) as (ds' & E & Hd & _).
  - apply N.div_lt; lia.
  - cbn. rewrite digit_val_pretty by done. by rewrite Hs.
  - exists (ds' ++ [Z.of_N (x `mod` 10)]). split; [by rewrite <- app_assoc|]. split.
    + rewrite decimal_app, Hd. pose proof (N.div_mod x 10). lia.
    + intros _ E'. by apply app_eq_nil in E' as [_ ?].
Qed.

Lemma span_digits_pretty (z : Z) :
  0 ≤ z → ∃ ds, span_digits (chars (pretty z)) = (ds, []) ∧ decimal ds = z ∧ ds ≠ [].
Proof.
  intros Hz. assert (pretty z = pretty (Z.to_N z)) as ->.
  { destruct z as [|p|p]; [done|done|lia]. }
  unfold pretty, pretty_N. case_decide as E.
  - exists [0]. split_and!; [done| |done]. cbn. lia.
  - destruct (span_digits_pretty_go (Z.to_N z) "" []) as (ds & E1 & E2 & E3); [done|].
    exists ds. rewrite app_nil_r in E1. split_and!; [done|lia|]. apply E3. done.
Qed.

(** Printed numbers in range are read back. *)
Lemma from_chars_pretty max z rest :
  0 ≤ z ≤ max → (∀ c rest', rest = c :: rest' → digit_val c = None) →
  from_chars max (chars (pretty z) ++ rest) = (Some z, rest).
Proof.
  intros Hz Hr. destruct (span_digits_pretty z) as (ds & E & Ed & Hne); [lia|].
  unfold from_chars. rewrite (span_digits_app _ _ _ E Hr). destruct ds as [|d ds]; [done|].
  rewrite Ed. destruct (z <=? max) eqn:E'; [done|lia].
Qed.

Lemma span_digits_nonneg cs ds rest : span_digits cs = (ds, rest) → Forall (λ d, 0 ≤ d) ds.
Proof.
  revert ds rest. induction cs as [|c cs IH]; intros ds rest; cbn; [by intros [= <- <-]|].
  unfold digit_val. destruct (_ && _) eqn:E; [|by intros [= <- <-]].
  destruct (span_digits cs) as [ds' r']. intros [= <- <-]. constructor; [lia|by eapply IH].
Qed.

Lemma decimal_nonneg ds : Forall (λ d, 0 ≤ d) ds → 0 ≤ decimal ds.
Proof.
  intros H. assert (∀ z, 0 ≤ z → 0 ≤ foldl (λ acc d, 10 * acc + d) z ds) as Hz; [|by apply Hz].
  induction H as [|d ds Hd _ IH]; intros z Hz; cbn; [done|]. apply IH. lia.
Qed.

Lemma from_chars_range max cs v rest : from_chars max cs = (Some v, rest) → 0 ≤ v ≤ max.
Proof.
  unfold from_chars. destruct (span_digits cs) as [[|d ds] r] eqn:E; [done|].
  apply span_digits_nonneg, decimal_nonneg in E. case_match; [|done]. intros [= <- _]. lia.
Qed.

Lemma split_last_app c pre post :
  c ∉ post → split_last c (pre ++ c :: post) = Some (pre, post).
Proof.
  intros Hn. assert (split_last c post = None) as E.
  { induction post as [|x post IH]; [done|]. apply not_elem_of_cons in Hn as [Hx Hn]. cbn.
    rewrite IH by done. by rewrite decide_False. }
  induction pre as [|x pre IH]; cbn; [by rewrite E, decide_True|]. by rewrite IH.
Qed.

Lemma contains_prefix p s : contains_text p (p +:+ s) = true.
Proof.
  assert (∀ q, String.prefix q (q +:+ s) = true) as H.
  { intros q. induction q as [|c q IH]; [by destruct s|].
    change (String c q +:+ s) with (String c (q +:+ s)). cbn. by destruct (ascii_dec c c). }
  specialize (H p). unfold contains_text. destruct p as [|c p]; [by destruct s|].
  change (String c p +:+ s) with (String c (p +:+ s)) in *. cbn [String.index]. by rewrite H.
Qed.
