(* ===== verification/SocketIO.v ===== *)
(** * Framed messages over TCP ([include/blockchain/net/socket_io.hpp], [src/net/socket_io.cpp])

    [Sock A] is a computation over one connected socket: a tree of the [send] and [recv]
    calls it makes, with the rest of the program for every answer of the operating system.
    An answer is [inl] when the call returned a positive count and [inr errno] otherwise.
    [exec] are the executions the system calls allow: a [send] takes some non-empty prefix
    of the chunk, a [recv] returns some non-empty string that fits, and each may fail.

    The loops run on the number of bytes they have to transfer, which every successful
    call lowers.  Of [TcpListener] and [connect] the calls to the system are arguments. *)

From S2P Require Import Prelude Errors Sha256 ByteIO Transaction P2pMessage Effects Text.
From Stdlib Require Import Strings.Byte Strings.Ascii.

(** ** Endpoints *)

Record TcpEndpoint := mkTcpEndpoint { ep_host : string; ep_port : Z }.

Definition parse_tcp_endpoint (text : string) : Result TcpEndpoint :=
  match split_last ":" (chars text) with
  | None | Some ([], _) | Some (_, []) => make_error kInvalidConfig "peer must be host:port"
  | Some (host, port) =>
      match from_chars UINT16_MAX port with
      | (Some value, []) =>
          if value =? 0 then make_error kInvalidConfig "peer port must not be zero"
          else mret (mkTcpEndpoint (of_chars host) value)
      | _ => make_error kInvalidConfig "invalid peer port"
      end
  end.

(** ** Programs over a socket *)

Definition kMaxP2pFrameBytes : Z := kMaxP2pPayloadBytes + kP2pEnvelopeOverhead.

Inductive Sock (A : Type) : Type :=
  | SRet (a : A)
  | SSend (chunk : list byte) (k : nat + Z → Sock A)
  | SRecv (size : nat) (k : list byte + Z → Sock A).
Arguments SRet {_} _.
Arguments SSend {_} _ _.
Arguments SRecv {_} _ _.

Fixpoint sock_bind {A B} (f : A → Sock B) (m : Sock A) : Sock B :=
  match m with
  | SRet a => f a
  | SSend chunk k => SSend chunk (λ rc, sock_bind f (k rc))
  | SRecv size k => SRecv size (λ rc, sock_bind f (k rc))
  end.

(** The early returns of a [Result]. *)
Definition and_then {A B} (m : Sock (Result A)) (f : A → Sock (Result B)) : Sock (Result B) :=
  sock_bind (λ r, match r with Ok a => f a | Err e => SRet (Err e) end) m.

Definition socket_error {A} (context : string) (errno : Z) : Result A :=
  make_error kPeerMisbehavior (context +:+ " (errno=" +:+ std_to_string errno +:+ ")").

Definition recv_closed (e : Error) : bool :=
  bool_decide (code e = kPeerMisbehavior) && contains_text "socket recv failed" (message e).

Fixpoint send_loop (fuel : nat) (data : list byte) : Sock (Result unit) :=
  match data, fuel with
  | [], _ => SRet (Ok tt)
  | _ :: _, O => SRet (make_error kResourceLimitExceeded "out of fuel: excluded by exec_send_all")
  | _ :: _, S fuel =>
      SSend data (λ rc,
        match rc with
        | inr errno => SRet (socket_error "socket send failed" errno)
        | inl n => send_loop fuel (drop n data)
        end)
  end.

Definition send_all_native (data : list byte) : Sock (Result unit) := send_loop (length data) data.

Fixpoint recv_loop (fuel missing : nat) (received : list byte) : Sock (Result (list byte)) :=
  match missing, fuel with
  | O, _ => SRet (Ok received)
  | S _, O => SRet (make_error kResourceLimitExceeded "out of fuel: excluded by exec_recv_all")
  | S _, S fuel =>
      SRecv missing (λ rc,
        match rc with
        | inr errno => SRet (socket_error "socket recv failed" errno)
        | inl bs => recv_loop fuel (missing - length bs) (received ++ bs)
        end)
  end.

Definition recv_all_native (size : nat) : Sock (Result (list byte)) := recv_loop size size [].

(** [TcpSocket::valid]; a socket is its handle. *)
Definition valid (handle : Z) : bool := (0 <=? handle) && negb (handle =? -1).

Definition not_connected {A} : Sock (Result A) :=
  SRet (make_error kPeerMisbehavior "socket is not connected").

(** [static_cast<std::byte>((len >> (8U * i)) & 0xFFU)] for [i] below 4 *)
Definition len_bytes (len : Z) : list byte :=
  (λ i, byte_of (Z.land (Z.shiftr len (8 * i)) 0xFF)) <$> [0; 1; 2; 3].

Definition send_raw (handle : Z) (data : list byte) : Sock (Result unit) :=
  if negb (valid handle) then not_connected
  else match data with [] => SRet (Ok tt) | _ :: _ => send_all_native data end.

Definition send_frame_length_prefix (handle len : Z) : Sock (Result unit) :=
  send_raw handle (len_bytes len).

Definition send_framed (handle : Z) (body : list byte) : Sock (Result unit) :=
  if negb (valid handle) then not_connected
  else if kMaxP2pFrameBytes <? size_z body
  then SRet (make_error kResourceLimitExceeded "frame exceeds maximum size")
  else
    and_then (send_all_native (len_bytes (wrap32 (size_z body)))) (λ _,
      match body with [] => SRet (Ok tt) | _ :: _ => send_all_native body end).

Definition recv_framed (handle max_frame_bytes : Z) : Sock (Result (list byte)) :=
  if negb (valid handle) then not_connected
  else
    and_then (recv_all_native 4) (λ prefix,
      let len := load_u32 prefix in
      if max_frame_bytes <? len
      then SRet (make_error kResourceLimitExceeded "frame length exceeds maximum")
      else if 0 <? len then
        sock_bind (λ body,
          match body with
          | Ok body => SRet (Ok body)
          | Err e => SRet (if recv_closed e then make_error kInvalidMessage "incomplete frame body"
                           else Err e)
          end) (recv_all_native (Z.to_nat len))
      else SRet (Ok [])).

Definition send_message (handle : Z) (message : P2pMessage) : Sock (Result unit) :=
  send_framed handle (message_to_bytes message).

Definition recv_message (handle : Z) : Sock (Result P2pMessage) :=
  and_then (recv_framed handle kMaxP2pFrameBytes) (λ frame, SRet (message_deserialize frame)).

(** ** Opening connections

    [Os] are the answers of the system: [inet_pton] on the host, the handles of [socket]
    and [accept] (negative on failure), whether [connect], [bind], [listen] and
    [getsockname] succeed, the port that was bound, and the [errno] of a failure. *)

Record Os := mkOs {
  os_inet_pton : string → bool;
  os_socket : Z;
  os_connect : bool;
  os_bind : bool;
  os_listen : bool;
  os_getsockname : bool;
  os_port : Z;
  os_accept : Z;
  os_errno : Z;
}.

Definition make_ipv4_address (os : Os) (endpoint : TcpEndpoint) : Result unit :=
  if negb (os_inet_pton os (ep_host endpoint))
  then make_error kInvalidConfig ("invalid IPv4 address: " +:+ ep_host endpoint)
  else mret tt.

(** [TcpSocket::connect] *)
Definition tcp_connect (os : Os) (endpoint : TcpEndpoint) : Result Z :=
  _ ← make_ipv4_address os endpoint;
  if os_socket os =? -1 then socket_error "socket creation failed" (os_errno os)
  else if negb (os_connect os) then socket_error "connect failed" (os_errno os)
  else mret (os_socket os).

(** [TcpListener::bind] *)
Definition tcp_bind (os : Os) (endpoint : TcpEndpoint) : Result Z :=
  _ ← make_ipv4_address os endpoint;
  if os_socket os =? -1 then socket_error "socket creation failed" (os_errno os)
  else if negb (os_bind os) then socket_error "bind failed" (os_errno os)
  else if negb (os_listen os) then socket_error "listen failed" (os_errno os)
  else mret (os_socket os).

(** [TcpListener::bound_port] *)
Definition bound_port (os : Os) (listener : Z) : Result Z :=
  if listener <? 0 then make_error kPeerMisbehavior "listener is not bound"
  else if negb (os_getsockname os) then socket_error "getsockname failed" (os_errno os)
  else mret (os_port os).

(** [TcpListener::accept] *)
Definition tcp_accept (os : Os) (listener : Z) : Result Z :=
  if listener <? 0 then make_error kPeerMisbehavior "listener is not bound"
  else if os_accept os =? -1 then socket_error "accept failed" (os_errno os)
  else mret (os_accept os).

(** A conversation of the node, its two calls run on a socket. *)
Fixpoint over_socket {A} (handle : Z) (m : Conn A) : Sock A :=
  match m with
  | CRet a => SRet a
  | CSend message k => sock_bind (λ r, over_socket handle (k r)) (send_message handle message)
  | CRecv k => sock_bind (λ r, over_socket handle (k r)) (recv_message handle)
  end.

(** ** Executions *)

Inductive Ev :=
  | EvSent (bs : list byte)
  | EvGot (bs : list byte)
  | EvSendFailed (errno : Z)
  | EvRecvFailed (errno : Z).

Inductive exec {A} : Sock A → list Ev → A → Prop :=
  | ex_ret a : exec (SRet a) [] a
  | ex_send chunk k n tr a :
      (0 < n ≤ length chunk)%nat → exec (k (inl n)) tr a →
      exec (SSend chunk k) (EvSent (take n chunk) :: tr) a
  | ex_send_failed chunk k errno tr a :
      exec (k (inr errno)) tr a → exec (SSend chunk k) (EvSendFailed errno :: tr) a
  | ex_recv size k bs tr a :
      (0 < length bs ≤ size)%nat → exec (k (inl bs)) tr a →
      exec (SRecv size k) (EvGot bs :: tr) a
  | ex_recv_failed size k errno tr a :
      exec (k (inr errno)) tr a → exec (SRecv size k) (EvRecvFailed errno :: tr) a.

Definition sent (tr : list Ev) : list byte :=
  tr ≫= λ e, match e with EvSent bs => bs | _ => [] end.
Definition got (tr : list Ev) : list byte :=
  tr ≫= λ e, match e with EvGot bs => bs | _ => [] end.
Definition failed (e : Ev) : bool :=
  match e with EvSendFailed _ | EvRecvFailed _ => true | _ => false end.
(** No system call failed. *)
Definition smooth (tr : list Ev) : Prop := Forall (λ e, failed e = false) tr.

Lemma sent_app tr1 tr2 : sent (tr1 ++ tr2) = sent tr1 ++ sent tr2.
Proof. apply bind_app. Qed.
Lemma got_app tr1 tr2 : got (tr1 ++ tr2) = got tr1 ++ got tr2.
Proof. apply bind_app. Qed.

Lemma exec_bind {A B} (f : A → Sock B) m tr b :
  exec (sock_bind f m) tr b ↔
  ∃ tr1 tr2 a, tr = tr1 ++ tr2 ∧ exec m tr1 a ∧ exec (f a) tr2 b.
Proof.
  revert tr. induction m as [a|chunk k IH|size k IH]; intros tr; cbn.
  - split; [intros H; exists [], tr, a; split_and!; [done|constructor|done]|].
    intros (tr1 & tr2 & a' & -> & H1 & H2). by inversion H1; subst.
  - split.
    + intros H; inversion H as [|? ? n tr' ? Hn Hk|? ? errno tr' ? Hk| |]; subst;
        apply IH in Hk as (tr1 & tr2 & a & -> & H1 & H2).
      * exists (EvSent (take n chunk) :: tr1), tr2, a. split_and!; [done|by constructor|done].
      * exists (EvSendFailed errno :: tr1), tr2, a. split_and!; [done|by constructor|done].
    + intros (tr1 & tr2 & a & -> & H1 & H2). inversion H1; subst; cbn; constructor; try done;
        apply IH; by eexists _, _, _.
  - split.
    + intros H; inversion H as [| | |? ? bs tr' ? Hn Hk|? ? errno tr' ? Hk]; subst;
        apply IH in Hk as (tr1 & tr2 & a & -> & H1 & H2).
      * exists (EvGot bs :: tr1), tr2, a. split_and!; [done|by constructor|done].
      * exists (EvRecvFailed errno :: tr1), tr2, a. split_and!; [done|by constructor|done].
    + intros (tr1 & tr2 & a & -> & H1 & H2). inversion H1; subst; cbn; constructor; try done;
        apply IH; by eexists _, _, _.
Qed.

Lemma exec_ret {A} (a : A) tr b : exec (SRet a) tr b ↔ tr = [] ∧ b = a.
Proof. split; [by inversion 1|]. intros [-> ->]. constructor. Qed.

(** A call that failed for want of a working connection, after [done] bytes of [all]. *)
Definition broke_off {A} (context : string) (tr : list Ev) (r : Result A) : Prop :=
  ¬ smooth tr ∧ ∃ errno, r = socket_error context errno.

Lemma exec_send_loop fuel data tr r :
  (length data ≤ fuel)%nat → exec (send_loop fuel data) tr r →
  got tr = [] ∧ (length tr ≤ length data)%nat ∧
  ((r = Ok tt ∧ smooth tr ∧ sent tr = data) ∨
   (broke_off "socket send failed" tr r ∧ ∃ rest, rest ≠ [] ∧ data = sent tr ++ rest)).
Proof.
  revert data tr. induction fuel as [|fuel IH]; intros [|b data] tr Hf H; cbn in Hf; try lia; cbn [send_loop] in H.
  - apply exec_ret in H as [-> ->]. split_and!; [done..|]. left. by split_and!; [|constructor|].
  - apply exec_ret in H as [-> ->]. split_and!; [done..|]. left. by split_and!; [|constructor|].
  - inversion H as [|? ? n tr' ? Hn Hk|? ? errno tr' ? Hk| |]; subst.
    + apply IH in Hk as (Hg & Hl & Hr); [|rewrite length_drop; cbn; lia]. rewrite length_drop in Hl.
      cbn [length] in *. split_and!; [done|lia|].
      assert (∀ x, sent (EvSent (take n (b :: data)) :: x) = take n (b :: data) ++ sent x) as Es by done.
      rewrite Es. destruct Hr as [(-> & Hs & E)|[[Hs (errno & ->)] (rest & Hne & E)]]; [left|right].
      * rewrite E, take_drop. split_and!; [done|by constructor|done].
      * split; [split; [by inversion_clear 1|by exists errno]|]. exists rest. split; [done|].
        by rewrite <- app_assoc, <- E, take_drop.
    + apply exec_ret in Hk as [-> ->]. cbn. split_and!; [done|lia|]. right. split.
      * split; [by inversion_clear 1|by exists errno].
      * by exists (b :: data).
Qed.

Lemma exec_send_all data tr r :
  exec (send_all_native data) tr r →
  got tr = [] ∧ (length tr ≤ length data)%nat ∧
  ((r = Ok tt ∧ smooth tr ∧ sent tr = data) ∨
   (broke_off "socket send failed" tr r ∧ ∃ rest, rest ≠ [] ∧ data = sent tr ++ rest)).
Proof. by apply exec_send_loop. Qed.

Lemma exec_recv_loop fuel n acc tr r :
  (n ≤ fuel)%nat → exec (recv_loop fuel n acc) tr r →
  sent tr = [] ∧ (length tr ≤ n)%nat ∧
  ((r = Ok (acc ++ got tr) ∧ smooth tr ∧ length (got tr) = n) ∨
   (broke_off "socket recv failed" tr r ∧ (length (got tr) < n)%nat)).
Proof.
  revert n acc tr. induction fuel as [|fuel IH]; intros [|n] acc tr Hf H; try lia; cbn [recv_loop] in H.
  - apply exec_ret in H as [-> ->]. split_and!; [done..|]. left. by rewrite app_nil_r; split_and!; [|constructor|].
  - apply exec_ret in H as [-> ->]. split_and!; [done..|]. left. by rewrite app_nil_r; split_and!; [|constructor|].
  - inversion H as [| | |? ? bs tr' ? Hn Hk|? ? errno tr' ? Hk]; subst.
    + apply IH in Hk as (Hg & Hl & Hr); [|lia]. cbn [length]. split_and!; [done|lia|].
      assert (∀ x, got (EvGot bs :: x) = bs ++ got x) as Es by done. rewrite Es, length_app.
      destruct Hr as [(-> & Hs & E)|[[Hs (errno & ->)] E]]; [left|right].
      * rewrite <- app_assoc. split_and!; [done|by constructor|lia].
      * split; [split; [by inversion_clear 1|by exists errno]|lia].
    + apply exec_ret in Hk as [-> ->]. cbn. split_and!; [done|lia|]. right. split; [|lia].
      split; [by inversion_clear 1|by exists errno].
Qed.

Lemma exec_recv_all n tr r :
  exec (recv_all_native n) tr r →
  sent tr = [] ∧ (length tr ≤ n)%nat ∧
  ((r = Ok (got tr) ∧ smooth tr ∧ length (got tr) = n) ∨
   (broke_off "socket recv failed" tr r ∧ (length (got tr) < n)%nat)).
Proof. by apply exec_recv_loop. Qed.

(** ** Frames *)

Definition frame (body : list byte) : list byte := le_bytes 4 (size_z body) ++ body.

Lemma len_bytes_le len : len_bytes len = le_bytes 4 len.
Proof.
  rewrite !le_bytes_S_r. cbn. unfold len_bytes. cbn [fmap list_fmap]. by rewrite !byte_of_land.
Qed.

Lemma le_bytes_4_inj a b x y : is_u32 a → is_u32 b → le_bytes 4 a ++ x = le_bytes 4 b ++ y → a = b ∧ x = y.
Proof.
  intros Ha Hb E. apply app_inj_1 in E as [E ->]; [|by rewrite !length_le_bytes].
  split; [|done]. by rewrite <- (load_u32_le a), <- (load_u32_le b), E.
Qed.

Lemma frame_size_u32 (body : list byte) : size_z body ≤ kMaxP2pFrameBytes → is_u32 (size_z body).
Proof. change kMaxP2pFrameBytes with 1048594. intros. solve_u. Qed.

Lemma broke_off_app {A B} c tr1 tr2 (r : Result A) errno :
  broke_off c tr2 r → broke_off c (tr1 ++ tr2) (socket_error (A := B) c errno).
Proof. intros [H _]. split; [|by exists errno]. intros Hs. apply H. by apply Forall_app in Hs as [_ ?]. Qed.

Section Handle.
Context (handle : Z) (Hvalid : valid handle = true).

(** A frame is sent whole, or the call fails and some of it is missing. *)
Lemma exec_send_framed body tr r :
  size_z body ≤ kMaxP2pFrameBytes → exec (send_framed handle body) tr r →
  got tr = [] ∧ (length tr ≤ 4 + length body)%nat ∧
  ((r = Ok tt ∧ smooth tr ∧ sent tr = frame body) ∨
   (broke_off "socket send failed" tr r ∧ ∃ rest, rest ≠ [] ∧ frame body = sent tr ++ rest)).
Proof.
  intros Hsz H. unfold send_framed in H. rewrite Hvalid in H. cbn [negb] in H.
  destruct (_ <? size_z body) eqn:E; [lia|]. apply exec_bind in H as (tr1 & tr2 & r1 & -> & H1 & H2).
  rewrite wrap32_small, len_bytes_le in H1 by (by apply frame_size_u32).
  apply exec_send_all in H1 as (Hg1 & Hl1 & Hr1). rewrite length_le_bytes in Hl1.
  rewrite got_app, sent_app, length_app, Hg1. unfold frame.
  destruct Hr1 as [(-> & Hs1 & ->)|[Hb (rest & Hne & E1)]].
  - assert (got tr2 = [] ∧ (length tr2 ≤ length body)%nat ∧
      ((r = Ok tt ∧ smooth tr2 ∧ sent tr2 = body) ∨
       (broke_off "socket send failed" tr2 r ∧ ∃ rest, rest ≠ [] ∧ body = sent tr2 ++ rest))) as (Hg2 & Hl2 & Hr2).
    { cbn beta iota in H2. destruct body as [|b body]; [|by apply exec_send_all in H2].
      apply exec_ret in H2 as [-> ->]. split_and!; [done..|]. left. by split_and!; [|constructor|]. }
    split_and!; [done|lia|]. destruct Hr2 as [(-> & Hs2 & ->)|[[Hns (errno & ->)] (rest & Hne & E2)]]; [left|right].
    + split_and!; [done|by apply Forall_app|done].
    + split; [apply (broke_off_app _ _ _ (socket_error (A := unit) "socket send failed" errno));
        split; [done|by exists errno]|].
      exists rest. split; [done|]. by rewrite E2 at 2; rewrite <- app_assoc.
  - destruct Hb as [Hns (errno & ->)]. apply exec_ret in H2 as [-> ->].
    change (sent []) with (@nil byte). rewrite !app_nil_r.
    split_and!; [done|cbn; lia|]. right. split; [split; [done|by exists errno]|].
    exists (rest ++ body). split; [intros [? _]%app_eq_nil; done|]. rewrite E1.
    by rewrite <- app_assoc.
Qed.

(** What can happen to a receiver. *)
Inductive received (max_frame_bytes : Z) (tr : list Ev) : Result (list byte) → Prop :=
  | rec_frame body :
      smooth tr → got tr = frame body → size_z body ≤ max_frame_bytes → is_u32 (size_z body) →
      received max_frame_bytes tr (Ok body)
  | rec_too_long len :
      smooth tr → got tr = le_bytes 4 len → is_u32 len → max_frame_bytes < len →
      received max_frame_bytes tr (make_error kResourceLimitExceeded "frame length exceeds maximum")
  | rec_closed errno :
      ¬ smooth tr → (length (got tr) < 4)%nat →
      received max_frame_bytes tr (socket_error "socket recv failed" errno)
  | rec_incomplete len part :
      ¬ smooth tr → got tr = le_bytes 4 len ++ part → is_u32 len → size_z part < len ≤ max_frame_bytes →
      received max_frame_bytes tr (make_error kInvalidMessage "incomplete frame body").

Lemma recv_closed_error errno :
  recv_closed (mkError kPeerMisbehavior ("socket recv failed" +:+ " (errno=" +:+ std_to_string errno +:+ ")")) = true.
Proof.
  unfold recv_closed. cbn [code message]. rewrite bool_decide_true by done.
  by rewrite contains_prefix.
Qed.

Lemma exec_recv_framed max_frame_bytes tr r :
  exec (recv_framed handle max_frame_bytes) tr r →
  sent tr = [] ∧ received max_frame_bytes tr r.
Proof.
  intros H. unfold recv_framed in H. rewrite Hvalid in H. cbn [negb] in H.
  apply exec_bind in H as (tr1 & tr2 & r1 & -> & H1 & H2). rewrite sent_app.
  apply exec_recv_all in H1 as (Hsent & _ & Hr1). rewrite Hsent.
  destruct Hr1 as [(-> & Hs1 & Hl1)|[[Hns (errno & ->)] Hl1]].
  2: { apply exec_ret in H2 as [-> ->]. rewrite (app_nil_r tr1). split; [done|]. by apply rec_closed. }
  assert (got tr1 = le_bytes 4 (load_u32 (got tr1))) as Eg by (by apply load_u32_inv).
  assert (is_u32 (load_u32 (got tr1))) as Hu.
  { rewrite load_u32_take, take_ge by lia. pose proof (le_val_range (got tr1)) as Hr. by rewrite Hl1 in Hr. }
  set (len := load_u32 (got tr1)) in *. cbv zeta in H2.
  destruct (max_frame_bytes <? len) eqn:E1.
  { apply exec_ret in H2 as [-> ->]. rewrite (app_nil_r tr1). split; [done|].
    eapply rec_too_long; [done..|lia]. }
  destruct (0 <? len) eqn:E2.
  2: { apply exec_ret in H2 as [-> ->]. rewrite (app_nil_r tr1). split; [done|].
       assert (len = 0) as E0 by solve_u. rewrite E0 in Eg.
       apply rec_frame; [done| |cbn; lia|done]. by rewrite Eg. }
  apply exec_bind in H2 as (tr3 & tr4 & r3 & -> & H3 & H4).
  apply exec_recv_all in H3 as (Hsent3 & _ & Hr3).
  destruct Hr3 as [(-> & Hs3 & Hl3)|[[Hns (errno & ->)] Hl3]].
  - apply exec_ret in H4 as [-> ->]. rewrite (app_nil_r tr3). split; [done|].
    assert (size_z (got tr3) = len) as Esz by (rewrite Hl3; apply Z2Nat.id; solve_u).
    apply rec_frame; [by apply Forall_app| |lia|by rewrite Esz].
    rewrite got_app, Eg. unfold frame. by rewrite Esz.
  - unfold socket_error, make_error in H4. rewrite recv_closed_error in H4.
    apply exec_ret in H4 as [-> ->]. rewrite (app_nil_r tr3). split; [done|].
    apply (rec_incomplete _ _ len (got tr3)); [|rewrite got_app, Eg; done|done|solve_u].
    intros [_ ?]%Forall_app. done.
Qed.
End Handle.

(** ** Messages *)

(** The frame of a message is within the limit of the transport. *)
Definition sendable (message : P2pMessage) : bool := size_z (message_to_bytes message) <=? kMaxP2pFrameBytes.
(** What the receiver of a message makes of it. *)
Definition deliver (message : P2pMessage) : Result P2pMessage := message_deserialize (message_to_bytes message).

Definition refused : Result unit := make_error kResourceLimitExceeded "frame exceeds maximum size".

(** Bytes of a sequence of messages. *)
Definition wire (messages : list P2pMessage) : list byte := mjoin ((λ m, frame (message_to_bytes m)) <$> messages).

(** A conversation on messages: [ins] arrive, [outs] are sent. *)
Inductive talks {A} : Conn A → list P2pMessage → list P2pMessage → A → Prop :=
  | talks_ret a : talks (CRet a) [] [] a
  | talks_send m k ins outs a :
      sendable m = true → talks (k (Ok tt)) ins outs a → talks (CSend m k) ins (m :: outs) a
  | talks_refused m k ins outs a :
      sendable m = false → talks (k refused) ins outs a → talks (CSend m k) ins outs a
  | talks_recv m k ins outs a :
      talks (k (deliver m)) ins outs a → talks (CRecv k) (m :: ins) outs a.

Lemma message_wf_sendable m : message_wf m → sendable m = true.
Proof.
  intros Hm. unfold sendable. rewrite message_to_bytes_enc by done. apply Z.leb_le.
  rewrite length_enc_message. destruct Hm as [_ Hm]. unfold kMaxP2pFrameBytes. lia.
Qed.

Lemma deliver_wf m : message_wf m → deliver m = Ok m.
Proof. intros Hm. unfold deliver. rewrite message_to_bytes_enc by done. by apply deserialize_enc. Qed.

Section Messages.
Context (handle : Z) (Hvalid : valid handle = true).

Lemma wire_cons m ms : wire (m :: ms) = frame (message_to_bytes m) ++ wire ms.
Proof. done. Qed.

(** Over a connection whose calls succeed, the bytes of a peer's messages are the messages. *)
Lemma over_socket_talks {A} (p : Conn A) tr a ins :
  exec (over_socket handle p) tr a → smooth tr →
  Forall (λ m, sendable m = true) ins → got tr `prefix_of` wire ins →
  ∃ n outs, talks p (take n ins) outs a ∧ got tr = wire (take n ins) ∧ sent tr = wire outs.
Proof.
  revert tr ins. induction p as [a'|m k IH|k IH]; intros tr ins H Hsm Hins Hpre; cbn [over_socket] in H.
  - apply exec_ret in H as [-> ->]. exists 0%nat, []. split_and!; [constructor|done..].
  - apply exec_bind in H as (tr1 & tr2 & r & -> & H1 & H2). apply Forall_app in Hsm as [Hsm1 Hsm2].
    unfold send_message in H1. destruct (sendable m) eqn:Es; unfold sendable in Es.
    + apply exec_send_framed in H1 as (Hg & _ & [(-> & _ & Hs)|[[Hns _] _]]); [|done..|lia].
      rewrite got_app, Hg in Hpre. cbn in Hpre. destruct (IH _ _ _ H2 Hsm2 Hins Hpre) as (n & outs & Ht & Hg' & Hs').
      exists n, (m :: outs). rewrite got_app, sent_app, Hg, Hs, Hs', wire_cons.
      split_and!; [by constructor; [apply Z.leb_le; lia|]|done..].
    + unfold send_framed in H1. rewrite Hvalid in H1. cbn [negb] in H1.
      destruct (_ <? _) eqn:E in H1; [|lia]. apply exec_ret in H1 as [-> ->].
      destruct (IH _ _ _ H2 Hsm2 Hins Hpre) as (n & outs & Ht & Hg' & Hs'). exists n, outs.
      split_and!; [by apply talks_refused; [apply Z.leb_gt; lia|]|done..].
  - apply exec_bind in H as (tr1 & tr2 & r & -> & H1 & H2). apply Forall_app in Hsm as [Hsm1 Hsm2].
    apply exec_bind in H1 as (tr3 & tr4 & r1 & -> & H1 & H4). apply Forall_app in Hsm1 as [Hsm3 _].
    apply exec_recv_framed in H1 as [Hs1 H1]; [|done]. rewrite !got_app in Hpre.
    assert (∀ len x, is_u32 len → (le_bytes 4 len ++ x) `prefix_of` wire ins →
      ∃ m ins', ins = m :: ins' ∧ sendable m = true ∧ Forall (λ m, sendable m = true) ins' ∧
        len = size_z (message_to_bytes m) ∧ x `prefix_of` message_to_bytes m ++ wire ins') as Hhead.
    { intros len x Hu Hp. destruct Hins as [|m ins' Hm Hins].
      { apply prefix_nil_inv, (f_equal length) in Hp. rewrite length_app, length_le_bytes in Hp. discriminate Hp. }
      exists m, ins'. rewrite wire_cons in Hp. unfold frame in Hp. destruct Hp as [y Hp].
      rewrite <- !app_assoc in Hp. unfold sendable in Hm.
      symmetry in Hp. apply le_bytes_4_inj in Hp as [<- Hp]; [|done|apply frame_size_u32; lia].
      split_and!; [done|apply Z.leb_le; lia|done..|]. exists y. by rewrite Hp, <- ?app_assoc. }
    destruct H1 as [body _ Hg Hle Hu|len _ Hg Hu Hlt|errno Hns _|len part Hns _ _ _]; [| |done..].
    + rewrite Hg in Hpre. unfold frame in Hpre. rewrite <- !app_assoc in Hpre.
      apply exec_ret in H4 as [-> ->].
      apply Hhead in Hpre as (m & ins' & -> & Hm & Hins' & Esz & Hpre); [|done].
      destruct Hpre as [y Hpre]. rewrite <- !app_assoc in Hpre. symmetry in Hpre.
      apply app_inj_1 in Hpre as [-> Hpre]; [|lia].
      destruct (IH _ _ ins' H2 Hsm2 Hins') as (n & outs & Ht & Hg' & Hs'); [by exists y|].
      exists (S n), outs. cbn [take]. rewrite !got_app, !sent_app, Hg, Hs1, Hg', wire_cons.
      change (got []) with (@nil byte). rewrite (app_nil_r (frame _)). split_and!; [by constructor|done..].
    + exfalso. rewrite Hg, <- !app_assoc in Hpre.
      apply Hhead in Hpre as (m & ins' & -> & Hm & _ & -> & _); [|done]. unfold sendable in Hm. lia.
Qed.

(** Calls that are answered in full. *)
Lemma send_all_runs data : ∃ tr, exec (send_all_native data) tr (Ok tt) ∧ smooth tr ∧ sent tr = data ∧ got tr = [].
Proof.
  destruct data as [|b data]; [exists []; split_and!; constructor|].
  exists [EvSent (take (length (b :: data)) (b :: data))]. split_and!; [|by repeat constructor| |done].
  - unfold send_all_native. cbn [length send_loop]. constructor; [cbn; lia|]. cbn [drop]. rewrite drop_all.
    destruct (length data); constructor.
  - rewrite take_ge by lia. apply app_nil_r.
Qed.

Lemma recv_all_runs data :
  ∃ tr, exec (recv_all_native (length data)) tr (Ok data) ∧ smooth tr ∧ got tr = data ∧ sent tr = [].
Proof.
  destruct data as [|b data]; [exists []; split_and!; constructor|].
  exists [EvGot (b :: data)]. split_and!; [|by repeat constructor|apply app_nil_r|done].
  unfold recv_all_native. cbn [length recv_loop]. constructor; [cbn; lia|].
  cbn [length]. rewrite Nat.sub_diag. destruct (length data); constructor.
Qed.

Lemma and_then_runs {A B} (m : Sock (Result A)) (f : A → Sock (Result B)) tr1 tr2 a r :
  exec m tr1 (Ok a) → exec (f a) tr2 r → exec (and_then m f) (tr1 ++ tr2) r.
Proof. intros H1 H2. apply exec_bind. by exists tr1, tr2, (Ok a). Qed.

Lemma send_message_runs m : sendable m = true →
  ∃ tr, exec (send_message handle m) tr (Ok tt) ∧ smooth tr ∧ sent tr = frame (message_to_bytes m) ∧ got tr = [].
Proof.
  intros Hm%Z.leb_le. unfold send_message, send_framed. rewrite Hvalid. cbn [negb].
  destruct (_ <? _) eqn:E; [lia|]. set (body := message_to_bytes m) in *.
  rewrite wrap32_small, len_bytes_le by (by apply frame_size_u32).
  destruct (send_all_runs (le_bytes 4 (size_z body))) as (tr1 & H1 & S1 & O1 & G1).
  destruct (send_all_runs body) as (tr2 & H2 & S2 & O2 & G2). exists (tr1 ++ tr2). split_and!.
  - eapply and_then_runs; [done|]. destruct body; [|done]. exact H2.
  - by apply Forall_app.
  - by rewrite sent_app, O1, O2.
  - by rewrite got_app, G1, G2.
Qed.

Lemma recv_message_runs m : sendable m = true →
  ∃ tr, exec (recv_message handle) tr (deliver m) ∧ smooth tr ∧ got tr = frame (message_to_bytes m) ∧ sent tr = [].
Proof.
  intros Hm%Z.leb_le. unfold recv_message, recv_framed. rewrite Hvalid. cbn [negb]. unfold deliver.
  set (body := message_to_bytes m) in *. assert (is_u32 (size_z body)) as Hu by (by apply frame_size_u32).
  destruct (recv_all_runs (le_bytes 4 (size_z body))) as (tr1 & H1 & S1 & G1 & O1). rewrite length_le_bytes in H1.
  destruct (recv_all_runs body) as (tr2 & H2 & S2 & G2 & O2). exists (tr1 ++ tr2). split_and!.
  - rewrite <- (app_nil_r (tr1 ++ tr2)). eapply and_then_runs; [|constructor].
    eapply and_then_runs; [done|]. cbv zeta. rewrite load_u32_le by done.
    destruct (_ <? _) eqn:E; [lia|]. destruct (0 <? _) eqn:E0.
    + rewrite Nat2Z.id. apply exec_bind. exists tr2, [], (Ok body). rewrite app_nil_r. split_and!; [done..|constructor].
    + destruct body; [exact H2|]. apply Z.ltb_ge in E0. rewrite length_cons in E0. lia.
  - by apply Forall_app.
  - by rewrite got_app, G1, G2.
  - by rewrite sent_app, O1, O2.
Qed.

(** Every conversation on messages is an execution on bytes. *)
Lemma talks_over_socket {A} (p : Conn A) ins outs a :
  talks p ins outs a → Forall (λ m, sendable m = true) ins →
  ∃ tr, exec (over_socket handle p) tr a ∧ smooth tr ∧ got tr = wire ins ∧ sent tr = wire outs.
Proof.
  induction 1 as [a|m k ins outs a Hm _ IH|m k ins outs a Hm _ IH|m k ins outs a _ IH]; intros Hins.
  - exists []. split_and!; constructor.
  - destruct (IH Hins) as (tr2 & H2 & S2 & G2 & O2). destruct (send_message_runs m Hm) as (tr1 & H1 & S1 & O1 & G1).
    exists (tr1 ++ tr2). rewrite got_app, sent_app, G1, O1, G2, O2. split_and!; [|by apply Forall_app|done..].
    apply exec_bind. by exists tr1, tr2, (Ok tt).
  - destruct (IH Hins) as (tr2 & H2 & S2 & G2 & O2). exists tr2. split_and!; [|done..].
    apply exec_bind. exists [], tr2, refused. split_and!; [done| |done].
    unfold send_message, send_framed. rewrite Hvalid. cbn [negb]. unfold sendable in Hm.
    destruct (_ <? _) eqn:E; [constructor|lia].
  - apply Forall_cons in Hins as [Hm Hins]. destruct (IH Hins) as (tr2 & H2 & S2 & G2 & O2).
    destruct (recv_message_runs m Hm) as (tr1 & H1 & S1 & G1 & O1).
    exists (tr1 ++ tr2). rewrite got_app, sent_app, G1, O1, G2, O2. split_and!; [|by apply Forall_app|done..].
    apply exec_bind. by exists tr1, tr2, (deliver m).
Qed.
End Messages.
