(* ===== verification/Handles.v ===== *)
(** * Ownership of socket handles ([TcpSocket] and [TcpListener] of [src/net/socket_io.cpp])

    The objects of the two classes hold one handle each, [-1] when they hold none; the
    system knows which handles are open and counts the closes of handles that are not.
    The classes have the same five special members, so an object is a name with its
    [handle_].  [handle_step] are the calls C++ allows: an object is constructed before it
    is used and destroyed once.

    [SocketLibrary] holds no handle; its constructor tells the system to ignore [SIGPIPE],
    and on a POSIX system its destructor does nothing. *)

From S2P Require Import Prelude.

Record Handles := mkHandles {
  handle_of : gmap nat Z;
  os_open : gset Z;
  bad_closes : nat;
}.

Definition kInvalidSocket : Z := -1.
Definition is_valid (handle : Z) : bool := negb (handle =? kInvalidSocket).

(** What a process does with [SIGPIPE]. *)
Inductive Disposition := SIG_DFL | SIG_IGN.

Record SocketLibrary := mkSocketLibrary { initialized_ : bool }.

(** [SocketLibrary()] *)
Definition open_library (sigpipe : Disposition) : SocketLibrary * Disposition := (mkSocketLibrary true, SIG_IGN).

(** [close_native]; the last field counts calls that fail with [EBADF]. *)
Definition close_native (handle : Z) (s : Handles) : Handles :=
  if negb (is_valid handle) then s
  else if bool_decide (handle ∈ os_open s)
  then mkHandles (handle_of s) (os_open s ∖ {[handle]}) (bad_closes s)
  else mkHandles (handle_of s) (os_open s) (S (bad_closes s)).

Definition set_handle (id : nat) (handle : Z) (s : Handles) : Handles :=
  mkHandles (<[id := handle]> (handle_of s)) (os_open s) (bad_closes s).

(** [handle_] of an object that exists. *)
Definition get_handle (id : nat) (s : Handles) : Z := default (-1) (handle_of s !! id).

(** [close()] *)
Definition close_object (id : nat) (s : Handles) : Handles :=
  if 0 <=? get_handle id s then set_handle id (-1) (close_native (get_handle id s) s) else s.

(** The private constructor, on a handle the system has just opened. *)
Definition construct (id : nat) (handle : Z) (s : Handles) : Handles :=
  set_handle id handle (mkHandles (handle_of s) ({[handle]} ∪ os_open s) (bad_closes s)).

(** [T(T&& other)] *)
Definition move_construct (id other : nat) (s : Handles) : Handles :=
  set_handle other (-1) (set_handle id (get_handle other s) s).

(** [operator=(T&& other)] *)
Definition move_assign (id other : nat) (s : Handles) : Handles :=
  if bool_decide (id ≠ other) then
    let s := close_object id s in
    set_handle other (-1) (set_handle id (get_handle other s) s)
  else s.

(** [~T()] *)
Definition destroy (id : nat) (s : Handles) : Handles :=
  let s := close_object id s in mkHandles (delete id (handle_of s)) (os_open s) (bad_closes s).

(** The error paths of [connect] and [bind]: a handle that is closed without an owner. *)
Definition open_failed (handle : Z) (s : Handles) : Handles :=
  close_native handle (mkHandles (handle_of s) ({[handle]} ∪ os_open s) (bad_closes s)).

Abbreviation exists_ id s := (is_Some (handle_of s !! id)).

Inductive handle_step : relation Handles :=
  | hs_default id s : handle_of s !! id = None → handle_step s (set_handle id (-1) s)
  | hs_construct id h s :
      handle_of s !! id = None → 0 ≤ h → h ∉ os_open s → handle_step s (construct id h s)
  | hs_failed h s : 0 ≤ h → h ∉ os_open s → handle_step s (open_failed h s)
  | hs_move id other s : handle_of s !! id = None → exists_ other s → handle_step s (move_construct id other s)
  | hs_assign id other s : exists_ id s → exists_ other s → handle_step s (move_assign id other s)
  | hs_close id s : exists_ id s → handle_step s (close_object id s)
  | hs_destroy id s : exists_ id s → handle_step s (destroy id s).

Definition no_handles : Handles := mkHandles ∅ ∅ 0.

(** ** The invariant *)

(** The open handles are those of the objects, each owned by one of them. *)
Record owned (s : Handles) : Prop := {
  ow_open id h : handle_of s !! id = Some h → h = -1 ∨ 0 ≤ h ∧ h ∈ os_open s;
  ow_unique id id' h : handle_of s !! id = Some h → handle_of s !! id' = Some h → 0 ≤ h → id = id';
  ow_owner h : h ∈ os_open s → 0 ≤ h ∧ ∃ id, handle_of s !! id = Some h;
  ow_closes : bad_closes s = 0%nat;
}.

Lemma owned_none : owned no_handles.
Proof. split; cbn; [by intros id h|by intros id id' h|by intros h|done]. Qed.

Lemma get_handle_Some id h s : handle_of s !! id = Some h → get_handle id s = h.
Proof. unfold get_handle. by intros ->. Qed.

(** An object that holds no handle may be overwritten by another such. *)
Lemma owned_empty id s : owned s → (∀ h, handle_of s !! id = Some h → h = -1) → owned (set_handle id (-1) s).
Proof.
  intros [Ho Hu Hw Hc] Hid. split; cbn [set_handle handle_of os_open bad_closes]; [| | |done].
  - intros id' h [[<- <-]|[_ H]]%lookup_insert_Some; [by left|by eapply Ho].
  - intros id1 id2 h [[<- <-]|[_ H1]]%lookup_insert_Some; [lia|].
    intros [[<- <-]|[_ H2]]%lookup_insert_Some; [lia|]. by eapply Hu.
  - intros h Hh. destruct (Hw h Hh) as (H0 & id' & Hid'). split; [done|]. exists id'.
    rewrite lookup_insert_ne; [done|]. intros ->. apply Hid in Hid'. lia.
Qed.

Lemma owned_close id s : owned s → exists_ id s →
  owned (close_object id s) ∧ handle_of (close_object id s) !! id = Some (-1) ∧
  ∀ id', id' ≠ id → handle_of (close_object id s) !! id' = handle_of s !! id'.
Proof.
  intros Hs [h Hh]. pose proof Hs as [Ho Hu Hw Hc]. unfold close_object. rewrite (get_handle_Some _ _ _ Hh).
  destruct (0 <=? h) eqn:E.
  - destruct (Ho _ _ Hh) as [->|[H0 Hopen]]; [lia|]. unfold close_native, is_valid, kInvalidSocket.
    rewrite (proj2 (Z.eqb_neq h (-1))) by lia. cbn [negb]. rewrite bool_decide_true by done.
    split; [|split; cbn [set_handle handle_of]; [by rewrite lookup_insert_eq|intros; by rewrite lookup_insert_ne]].
    split; cbn [set_handle handle_of os_open bad_closes]; [| | |done].
    + intros id' h' [[<- <-]|[Hne H]]%lookup_insert_Some; [by left|].
      destruct (Ho _ _ H) as [->|[H0' Hin]]; [by left|right]. split; [done|].
      apply elem_of_difference. split; [done|]. intros ->%elem_of_singleton. by destruct Hne; eapply Hu.
    + intros id1 id2 h' [[<- <-]|[_ H1]]%lookup_insert_Some; [lia|].
      intros [[<- <-]|[_ H2]]%lookup_insert_Some; [lia|]. by eapply Hu.
    + intros h' [Hin Hne]%elem_of_difference. destruct (Hw _ Hin) as (H0' & id' & Hid'). split; [done|]. exists id'.
      rewrite lookup_insert_ne; [done|]. intros ->. rewrite Hh in Hid'. injection Hid' as ->.
      by apply Hne, elem_of_singleton.
  - split; [done|]. split; [|done]. rewrite Hh. destruct (Ho _ _ Hh) as [->|[? _]]; [done|lia].
Qed.

(** Handing a handle over to an object that holds none. *)
Lemma owned_transfer id other s : owned s → id ≠ other → exists_ other s →
  (∀ h, handle_of s !! id = Some h → h = -1) → owned (set_handle other (-1) (set_handle id (get_handle other s) s)).
Proof.
  intros [Ho Hu Hw Hc] Hne [ho Hho] Hid. rewrite (get_handle_Some _ _ _ Hho).
  assert (∀ i h, <[other := -1]> (<[id := ho]> (handle_of s)) !! i = Some h → 0 ≤ h →
    ∃ j, handle_of s !! j = Some h ∧ (i = id ∧ j = other ∨ i = j ∧ i ≠ id ∧ i ≠ other)) as Hfrom.
  { intros i h [[<- <-]|[Hi [[<- <-]|[Hi' H]]%lookup_insert_Some]]%lookup_insert_Some H0; [lia| |]; eexists; eauto 10. }
  split; cbn [set_handle handle_of os_open bad_closes]; [| | |done].
  - intros i h H. destruct (decide (0 ≤ h)) as [H0|H0].
    + destruct (Hfrom _ _ H H0) as (j & Hj & _). by eapply Ho.
    + left. apply lookup_insert_Some in H as [[_ <-]|[_ [[_ <-]|[_ H]]%lookup_insert_Some]]; [done| |].
      * destruct (Ho _ _ Hho) as [?|[? _]]; [done|lia].
      * destruct (Ho _ _ H) as [?|[? _]]; [done|lia].
  - intros i1 i2 h H1 H2 H0. destruct (Hfrom _ _ H1 H0) as (j1 & Hj1 & C1), (Hfrom _ _ H2 H0) as (j2 & Hj2 & C2).
    assert (j1 = j2) as <- by (by eapply Hu). naive_solver.
  - intros h Hh. destruct (Hw h Hh) as (H0 & j & Hj). split; [done|]. destruct (decide (j = other)) as [->|Hjo].
    + exists id. rewrite Hj in Hho. injection Hho as ->. by rewrite lookup_insert_ne, lookup_insert_eq.
    + exists j. rewrite !lookup_insert_ne; [done| |done]. intros ->. apply Hid in Hj. lia.
Qed.

Lemma owned_step s s' : owned s → handle_step s s' → owned s'.
Proof.
  intros Hs H. destruct H as [id s Hid|id h s Hid H0 Hh|h s H0 Hh|id other s Hid Hot|id other s Hid Hot|id s Hid|id s Hid].
  - apply owned_empty; [done|]. rewrite Hid. by intros h [=].
  - destruct Hs as [Ho Hu Hw Hc].
    assert (∀ i h', handle_of s !! i = Some h' → h' ≠ h) as Hnew.
    { intros i h' H ->. destruct (Ho _ _ H) as [->|[_ Hin]]; [lia|done]. }
    split; cbn [construct set_handle handle_of os_open bad_closes]; [| | |done].
    + intros i h' [[<- <-]|[_ H]]%lookup_insert_Some; [right; set_solver|]. destruct (Ho _ _ H); [by left|right; set_solver].
    + intros i1 i2 h' [[<- <-]|[_ H1]]%lookup_insert_Some [[<- E]|[_ H2]]%lookup_insert_Some Hp;
        [done|by apply Hnew in H2|by apply Hnew in H1|by eapply Hu].
    + intros h' [->%elem_of_singleton|Hin]%elem_of_union; [split; [done|]; exists id; apply lookup_insert_eq|].
      destruct (Hw _ Hin) as (H0' & i & Hi). split; [done|]. exists i. rewrite lookup_insert_ne; [done|congruence].
  - unfold open_failed, close_native, is_valid, kInvalidSocket. rewrite (proj2 (Z.eqb_neq h (-1))) by lia.
    cbn [negb os_open handle_of bad_closes]. rewrite bool_decide_true by set_solver.
    assert (({[h]} ∪ os_open s) ∖ {[h]} = os_open s) as -> by set_solver. by destruct s.
  - apply owned_transfer; [done| |done|rewrite Hid; by intros h [=]]. intros ->. rewrite Hid in Hot. by destruct Hot.
  - unfold move_assign. case_bool_decide as Hne; [|done]. destruct (owned_close id s Hs Hid) as (Hs' & He & Hoth).
    apply owned_transfer; [done|done|by rewrite Hoth|]. rewrite He. by intros h [= <-].
  - by apply owned_close.
  - unfold destroy. destruct (owned_close id s Hs Hid) as ([Ho Hu Hw Hc] & He & _).
    split; cbn [handle_of os_open bad_closes]; [| | |done].
    + intros i h [_ H]%lookup_delete_Some. by eapply Ho.
    + intros i1 i2 h [_ H1]%lookup_delete_Some [_ H2]%lookup_delete_Some. by eapply Hu.
    + intros h Hin. destruct (Hw _ Hin) as (H0 & i & Hi). split; [done|]. exists i. rewrite lookup_delete_ne; [done|].
      intros ->. rewrite He in Hi. injection Hi as <-. lia.
Qed.
