(* ===== verification/Peers.v ===== *)
(** * Two nodes connected to each other

    A network of two running programs and the messages under way in each direction.  A
    send puts a message in the queue, or is refused when the frame is over the limit; a
    receive decodes the next one, and fails with [eof] when there is none and the other
    program has ended.  [over_socket_talks] of [SocketIO] is what reduces the bytes on a
    connection to such messages.  A send to a program that has ended succeeds, as it does
    while the system buffers it. *)

From S2P Require Import Prelude Errors Sha256 ByteIO Transaction P2pMessage Effects SocketIO.

Section Network.
Context {A B : Type} (eof : Error).

Record Net := mkNet {
  left_ : Conn A;
  right_ : Conn B;
  to_right : list P2pMessage;
  to_left : list P2pMessage;
}.

Definition ended {A} (m : Conn A) : bool := match m with CRet _ => true | _ => false end.

(** The answer of a send and its effect on the queue. *)
Definition enqueue (m : P2pMessage) (q : list P2pMessage) : Result unit * list P2pMessage :=
  if sendable m then (Ok tt, q ++ [m]) else (refused, q).

Inductive net_step : relation Net :=
  | left_sends m k r q1 q2 :
      net_step (mkNet (CSend m k) r q1 q2) (mkNet (k (enqueue m q1).1) r (enqueue m q1).2 q2)
  | left_receives m k r q1 q2 :
      net_step (mkNet (CRecv k) r q1 (m :: q2)) (mkNet (k (deliver m)) r q1 q2)
  | left_eof k r q1 :
      ended r = true → net_step (mkNet (CRecv k) r q1 []) (mkNet (k (Err eof)) r q1 [])
  | right_sends l m k q1 q2 :
      net_step (mkNet l (CSend m k) q1 q2) (mkNet l (k (enqueue m q2).1) q1 (enqueue m q2).2)
  | right_receives l m k q1 q2 :
      net_step (mkNet l (CRecv k) (m :: q1) q2) (mkNet l (k (deliver m)) q1 q2)
  | right_eof l k q2 :
      ended l = true → net_step (mkNet l (CRecv k) [] q2) (mkNet l (k (Err eof)) [] q2).

Lemma enqueue_cons m' m q : enqueue m (m' :: q) = ((enqueue m q).1, m' :: (enqueue m q).2).
Proof. unfold enqueue. by destruct (sendable m). Qed.

(** Two different steps are steps of different parties, and they commute. *)
Lemma net_diamond x y z :
  net_step x y → net_step x z → y = z ∨ ∃ w, net_step y w ∧ net_step z w.
Proof.
  intros H1 H2; destruct H1; inversion H2; subst; cbn in *; try discriminate; simplify_list_eq; auto; right;
    rewrite ?enqueue_cons; cbn [fst snd]; eexists; split; by constructor.
Qed.

(** Nothing happens once both have ended. *)
Lemma ended_rest a b q1 q2 : at_rest net_step (mkNet (CRet a) (CRet b) q1 q2).
Proof. intros y H. inversion H. Qed.
End Network.
Arguments Net : clear implicits.

(** What the two do with their results afterwards, without talking, does not change a run. *)
Section Wrapped.
Context {A B A' B' : Type} (eof : Error) (f : A → Conn A') (g : B → Conn B').
Hypothesis Hf : ∀ a, ended (f a) = true.
Hypothesis Hg : ∀ b, ended (g b) = true.

Definition wrapped (x : Net A B) : Net A' B' :=
  mkNet (conn_bind f (left_ x)) (conn_bind g (right_ x)) (to_right x) (to_left x).

Lemma wrapped_step x y : net_step eof x y → net_step eof (wrapped x) (wrapped y).
Proof.
  intros H. destruct H as [m k r q1 q2|m k r q1 q2|k r q1 He|l m k q1 q2|l m k q1 q2|l k q2 He];
    unfold wrapped; cbn [left_ right_ to_left to_right conn_bind].
  - apply (left_sends eof m (λ x, conn_bind f (k x))).
  - apply (left_receives eof m (λ x, conn_bind f (k x))).
  - apply (left_eof eof (λ x, conn_bind f (k x))). destruct r; try discriminate He. apply Hg.
  - apply (right_sends eof _ m (λ x, conn_bind g (k x))).
  - apply (right_receives eof _ m (λ x, conn_bind g (k x))).
  - apply (right_eof eof _ (λ x, conn_bind g (k x))). destruct l; try discriminate He. apply Hf.
Qed.

Lemma wrapped_steps k x y : nsteps (net_step eof) k x y → nsteps (net_step eof) k (wrapped x) (wrapped y).
Proof. induction 1 as [|k x y z Hxy _ IH]; [constructor|]. econstructor; [by apply wrapped_step|done]. Qed.
End Wrapped.
