(* ===== verification/Config.v ===== *)
(** * Configuration of a node ([include/blockchain/node/config.hpp], [src/node/config.cpp])

    The record of settings, its validation, and the settings of the components it selects.
    The fields have the prefix [cfg_], since several share a name with a field of the
    component they configure. *)

From S2P Require Import Prelude Errors Sha256 ByteIO Transaction Mempool Effects Text.

Inductive LogLevel := llError | llWarn | llInfo | llDebug | llTrace.
Inductive NetworkMode := nmPing | nmRelay.

#[global] Instance LogLevel_eq_dec : EqDecision LogLevel.
Proof. solve_decision. Defined.
#[global] Instance NetworkMode_eq_dec : EqDecision NetworkMode.
Proof. solve_decision. Defined.

Record NodeConfig := mkNodeConfig {
  cfg_genesis_timestamp : Z;
  cfg_block_subsidy : Z;
  cfg_max_block_size_bytes : Z;
  cfg_mine_blocks : Z;
  cfg_mine_after_tx : Z;
  cfg_relay_blocks_after_tx : Z;
  cfg_relay_max_sessions : Z;
  cfg_coinbase_maturity : Z;
  cfg_listen_port : Z;
  cfg_peer_port : Z;
  cfg_log_level : LogLevel;
  cfg_listen_enabled : bool;
  cfg_persist : bool;
  cfg_restore : bool;
  cfg_network_mode : NetworkMode;
  cfg_node_id : string;
  cfg_data_dir : string;
  cfg_coinbase_recipient_hex : string;
  cfg_listen_host : string;
  cfg_peer_host : string;
  cfg_port_file : string;
  cfg_announce_tx_files : list string;
  cfg_mempool_max_transactions : Z;
  cfg_mempool_max_bytes : Z;
  cfg_min_relay_feerate : Z;
}.

(** [NodeConfig config;] with the default member initializers *)
Definition default_config : NodeConfig :=
  mkNodeConfig 0 0 0 0 0 0 1 0 0 0 llInfo false false false nmPing
    "node-0" "./data" "" "127.0.0.1" "" "" [] 0 0 0.

(** ** Assignments [config.field = v] *)

Definition fields_of (c : NodeConfig) : NodeConfig :=
  mkNodeConfig (cfg_genesis_timestamp c) (cfg_block_subsidy c) (cfg_max_block_size_bytes c)
    (cfg_mine_blocks c) (cfg_mine_after_tx c) (cfg_relay_blocks_after_tx c) (cfg_relay_max_sessions c)
    (cfg_coinbase_maturity c) (cfg_listen_port c) (cfg_peer_port c) (cfg_log_level c) (cfg_listen_enabled c)
    (cfg_persist c) (cfg_restore c) (cfg_network_mode c) (cfg_node_id c) (cfg_data_dir c)
    (cfg_coinbase_recipient_hex c) (cfg_listen_host c) (cfg_peer_host c) (cfg_port_file c)
    (cfg_announce_tx_files c) (cfg_mempool_max_transactions c) (cfg_mempool_max_bytes c)
    (cfg_min_relay_feerate c).

(** The record [c] with the value of [field] replaced by [v]. *)
Ltac with_field field v c :=
  let e := eval unfold fields_of in (fields_of c) in
  match e with context C [field c] => let r := context C [v] in exact r end.

Definition set_genesis_timestamp (v : Z) (c : NodeConfig) : NodeConfig := ltac:(with_field cfg_genesis_timestamp v c).
Definition set_block_subsidy (v : Z) (c : NodeConfig) : NodeConfig := ltac:(with_field cfg_block_subsidy v c).
Definition set_max_block_size_bytes (v : Z) (c : NodeConfig) : NodeConfig :=
  ltac:(with_field cfg_max_block_size_bytes v c).
Definition set_mine_blocks (v : Z) (c : NodeConfig) : NodeConfig := ltac:(with_field cfg_mine_blocks v c).
Definition set_mine_after_tx (v : Z) (c : NodeConfig) : NodeConfig := ltac:(with_field cfg_mine_after_tx v c).
Definition set_relay_blocks_after_tx (v : Z) (c : NodeConfig) : NodeConfig :=
  ltac:(with_field cfg_relay_blocks_after_tx v c).
Definition set_relay_max_sessions (v : Z) (c : NodeConfig) : NodeConfig :=
  ltac:(with_field cfg_relay_max_sessions v c).
Definition set_coinbase_maturity (v : Z) (c : NodeConfig) : NodeConfig := ltac:(with_field cfg_coinbase_maturity v c).
Definition set_listen_port (v : Z) (c : NodeConfig) : NodeConfig := ltac:(with_field cfg_listen_port v c).
Definition set_peer_port (v : Z) (c : NodeConfig) : NodeConfig := ltac:(with_field cfg_peer_port v c).
Definition set_log_level (v : LogLevel) (c : NodeConfig) : NodeConfig := ltac:(with_field cfg_log_level v c).
Definition set_listen_enabled (v : bool) (c : NodeConfig) : NodeConfig := ltac:(with_field cfg_listen_enabled v c).
Definition set_persist (v : bool) (c : NodeConfig) : NodeConfig := ltac:(with_field cfg_persist v c).
Definition set_restore (v : bool) (c : NodeConfig) : NodeConfig := ltac:(with_field cfg_restore v c).
Definition set_network_mode (v : NetworkMode) (c : NodeConfig) : NodeConfig := ltac:(with_field cfg_network_mode v c).
Definition set_node_id (v : string) (c : NodeConfig) : NodeConfig := ltac:(with_field cfg_node_id v c).
Definition set_data_dir (v : string) (c : NodeConfig) : NodeConfig := ltac:(with_field cfg_data_dir v c).
Definition set_coinbase_recipient_hex (v : string) (c : NodeConfig) : NodeConfig :=
  ltac:(with_field cfg_coinbase_recipient_hex v c).
Definition set_listen_host (v : string) (c : NodeConfig) : NodeConfig := ltac:(with_field cfg_listen_host v c).
Definition set_peer_host (v : string) (c : NodeConfig) : NodeConfig := ltac:(with_field cfg_peer_host v c).
Definition set_port_file (v : string) (c : NodeConfig) : NodeConfig := ltac:(with_field cfg_port_file v c).
Definition set_announce_tx_files (v : list string) (c : NodeConfig) : NodeConfig :=
  ltac:(with_field cfg_announce_tx_files v c).
Definition set_mempool_max_transactions (v : Z) (c : NodeConfig) : NodeConfig :=
  ltac:(with_field cfg_mempool_max_transactions v c).
Definition set_mempool_max_bytes (v : Z) (c : NodeConfig) : NodeConfig := ltac:(with_field cfg_mempool_max_bytes v c).
Definition set_min_relay_feerate (v : Z) (c : NodeConfig) : NodeConfig := ltac:(with_field cfg_min_relay_feerate v c).

(** ** Parsing of values *)

Definition parse_u64 (text flag : string) : Result Z :=
  match from_chars UINT64_MAX (chars text) with
  | (Some value, []) => mret value
  | _ => make_error kInvalidConfig ("invalid unsigned integer for " +:+ flag +:+ ": '" +:+ text +:+ "'")
  end.

Definition parse_u32 (text flag : string) : Result Z :=
  parsed ← parse_u64 text flag;
  if UINT32_MAX <? parsed then make_error kInvalidConfig ("value out of range for " +:+ flag)
  else mret (wrap32 parsed).

Definition parse_log_level (text : string) : Result LogLevel :=
  if bool_decide (text = "error") then mret llError
  else if bool_decide (text = "warn") then mret llWarn
  else if bool_decide (text = "info") then mret llInfo
  else if bool_decide (text = "debug") then mret llDebug
  else if bool_decide (text = "trace") then mret llTrace
  else make_error kInvalidConfig ("unknown log level: '" +:+ text +:+ "'").

Definition log_level_name (level : LogLevel) : string :=
  match level with
  | llError => "error" | llWarn => "warn" | llInfo => "info" | llDebug => "debug" | llTrace => "trace"
  end.

Definition parse_network_mode (text : string) : Result NetworkMode :=
  if bool_decide (text = "ping") then mret nmPing
  else if bool_decide (text = "relay") then mret nmRelay
  else make_error kInvalidConfig ("unknown network mode: '" +:+ text +:+ "'").

Definition network_mode_name (mode : NetworkMode) : string :=
  match mode with nmPing => "ping" | nmRelay => "relay" end.

(** ** Derived settings and validation *)

Definition resolved_mempool_limits (c : NodeConfig) : MempoolLimits :=
  mkMempoolLimits
    (if negb (cfg_mempool_max_transactions c =? 0) then cfg_mempool_max_transactions c
     else kDefaultMempoolMaxTransactions)
    (if negb (cfg_mempool_max_bytes c =? 0) then cfg_mempool_max_bytes c else kDefaultMempoolMaxBytes).

Definition resolved_mempool_policy (c : NodeConfig) : MempoolPolicy := mkMempoolPolicy (cfg_min_relay_feerate c).

(** [NodeConfig::validate] *)
Definition validate (c : NodeConfig) : Result unit :=
  if bool_decide (cfg_node_id c = "") then make_error kInvalidConfig "node_id must not be empty"
  else if bool_decide (cfg_data_dir c = "") then make_error kInvalidConfig "data_dir must not be empty"
  else if bool_decide (cfg_coinbase_recipient_hex c ≠ "") && negb (is_ok (hash_from_hex (cfg_coinbase_recipient_hex c)))
  then make_error kInvalidConfig "coinbase_recipient_hex must be a 64-character hex hash"
  else if cfg_listen_enabled c && negb (cfg_peer_port c =? 0)
  then make_error kInvalidConfig "specify either --listen-port (server) or --peer (client), not both"
  else if cfg_relay_max_sessions c =? 0
  then make_error kInvalidConfig "relay_max_sessions must be at least 1"
  else mret tt.

(** ** What a usable configuration is *)

(** The fields hold values of their C++ types. *)
Definition config_typed (c : NodeConfig) : Prop :=
  is_u64 (cfg_genesis_timestamp c) ∧ is_u64 (cfg_block_subsidy c) ∧ is_u32 (cfg_max_block_size_bytes c) ∧
  is_u32 (cfg_mine_blocks c) ∧ is_u32 (cfg_mine_after_tx c) ∧ is_u32 (cfg_relay_blocks_after_tx c) ∧
  is_u32 (cfg_relay_max_sessions c) ∧ is_u32 (cfg_coinbase_maturity c) ∧ is_u16 (cfg_listen_port c) ∧
  is_u16 (cfg_peer_port c) ∧ is_u32 (cfg_mempool_max_transactions c) ∧ is_u64 (cfg_mempool_max_bytes c) ∧
  is_u64 (cfg_min_relay_feerate c).

Record config_valid (c : NodeConfig) : Prop := {
  cv_node_id : cfg_node_id c ≠ "";
  cv_data_dir : cfg_data_dir c ≠ "";
  cv_recipient : cfg_coinbase_recipient_hex c = "" ∨ ∃ h, hash_from_hex (cfg_coinbase_recipient_hex c) = Ok h;
  cv_role : cfg_listen_enabled c = true → cfg_peer_port c = 0;
  cv_sessions : cfg_relay_max_sessions c ≠ 0;
}.

#[global] Instance config_typed_dec c : Decision (config_typed c).
Proof. unfold config_typed. apply _. Defined.

Lemma validate_Ok c : validate c = Ok tt ↔ config_valid c.
Proof.
  unfold validate. split.
  - case_bool_decide as E1; [done|]. case_bool_decide as E2; [done|].
    destruct (_ && negb (is_ok _)) eqn:E3; [done|]. destruct (_ && negb (_ =? 0)) eqn:E4; [done|].
    destruct (cfg_relay_max_sessions c =? 0) eqn:E5; [intros H; discriminate H|]. intros _. split; [done|done| | |lia].
    + apply andb_false_iff in E3 as [E3|E3].
      * left. apply bool_decide_eq_false in E3. by apply dec_stable.
      * right. by apply negb_false_iff, is_ok_true in E3.
    + intros Hl. rewrite Hl in E4. cbn in E4. lia.
  - intros [H1 H2 H3 H4 H5]. rewrite (bool_decide_false (cfg_node_id c = "")), (bool_decide_false (cfg_data_dir c = "")) by done.
    assert (bool_decide (cfg_coinbase_recipient_hex c ≠ "") && negb (is_ok (hash_from_hex (cfg_coinbase_recipient_hex c))) = false) as ->.
    { destruct H3 as [->|[h ->]]; [done|]. apply andb_false_r. }
    destruct (cfg_listen_enabled c) eqn:El; cbn [andb]; [rewrite (H4 eq_refl), Z.eqb_refl; cbn [negb]|];
      by apply Z.eqb_neq in H5 as ->.
Qed.

Lemma parse_log_level_name l : parse_log_level (log_level_name l) = Ok l.
Proof. by destruct l. Qed.
Lemma parse_network_mode_name m : parse_network_mode (network_mode_name m) = Ok m.
Proof. by destruct m. Qed.

Lemma parse_u64_pretty z flag : is_u64 z → parse_u64 (pretty z) flag = Ok z.
Proof.
  intros Hz. unfold parse_u64. rewrite <- (app_nil_r (chars (pretty z))).
  rewrite from_chars_pretty; [done|solve_u|done].
Qed.

Lemma parse_u64_range text flag z : parse_u64 text flag = Ok z → is_u64 z.
Proof.
  unfold parse_u64. destruct (from_chars _ _) as [[v|] [|]] eqn:E; intros H; try discriminate H.
  injection H as <-. apply from_chars_range in E. solve_u.
Qed.

Lemma parse_u32_pretty z flag : is_u32 z → parse_u32 (pretty z) flag = Ok z.
Proof.
  intros Hz. unfold parse_u32. rewrite parse_u64_pretty by solve_u. rsimpl.
  destruct (_ <? z) eqn:E; [solve_u|]. by rewrite wrap32_small.
Qed.

(** No value is truncated silently by [parse_u32]. *)
Lemma parse_u32_range text flag z : parse_u32 text flag = Ok z → is_u32 z ∧ parse_u64 text flag = Ok z.
Proof.
  unfold parse_u32. intros (v & Hv & H)%bind_Ok. destruct (_ <? v) eqn:E; [discriminate H|].
  injection H as <-. apply parse_u64_range in Hv as Hr. rewrite wrap32_small by solve_u. split; [solve_u|done].
Qed.

Lemma resolved_limits_range c :
  config_typed c → is_u32 (max_transactions (resolved_mempool_limits c)) ∧
    is_u64 (max_total_bytes (resolved_mempool_limits c)) ∧
    0 < max_transactions (resolved_mempool_limits c) ∧ 0 < max_total_bytes (resolved_mempool_limits c).
Proof.
  intros (_ & _ & _ & _ & _ & _ & _ & _ & _ & _ & H1 & H2 & _). unfold resolved_mempool_limits.
  unfold kDefaultMempoolMaxTransactions, kDefaultMempoolMaxBytes. cbn [max_transactions max_total_bytes].
  change (100 * kMaxBlockSizeBytes) with 104857600.
  destruct (negb (cfg_mempool_max_transactions c =? 0)) eqn:E1, (negb (cfg_mempool_max_bytes c =? 0)) eqn:E2; solve_u.
Qed.
