(* ===== verification/ConfigJson.v ===== *)
(** * Configuration files ([include/blockchain/node/config_json.hpp], [src/node/config_json.cpp])

    [JsonParser] is the list of characters from [pos] on; a method returns what is left of
    it.  No caller looks at the parser or at the configuration after an error.

    [parses_as] is the language the parser accepts, given independently of it: a document
    is a list of members with the blanks around them, and its meaning is the assignments of
    its members in order.  [parse_config_json_spec] shows that the parser accepts exactly
    these texts with this meaning.  The member loop runs on the number of characters left,
    which every member lowers. *)

From S2P Require Import Prelude Errors Sha256 ByteIO Transaction Mempool ChainStore P2pMessage Effects Text SocketIO Config.
From Stdlib Require Import Strings.Ascii.

Inductive ConfigValue := cvString (s : string) | cvUint (n : Z) | cvBool (b : bool).

Definition json_quote : ascii := "034".
Definition json_backslash : ascii := "092".

(** [parse_u64] of this file, whose message differs. *)
Definition json_parse_u64 (text : list ascii) (label : string) : Result Z :=
  match from_chars UINT64_MAX text with
  | (Some value, []) => mret value
  | _ => make_error kInvalidConfig ("invalid unsigned integer for " +:+ label)
  end.

(** ** The parser *)

Definition json_peek (cs : list ascii) : Result ascii :=
  match cs with
  | [] => make_error kInvalidConfig "unexpected end of JSON input"
  | c :: _ => mret c
  end.

Definition json_consume (cs : list ascii) : Result (ascii * list ascii) :=
  c ← json_peek cs;
  mret (c, tail cs).

Fixpoint skip_ws (cs : list ascii) : list ascii :=
  match cs with
  | [] => []
  | c :: rest => if isspace c then skip_ws rest else cs
  end.

Definition json_expect (expected : ascii) (cs : list ascii) : Result (list ascii) :=
  '(c, rest) ← json_consume cs;
  if bool_decide (c ≠ expected)
  then make_error kInvalidConfig ("expected '" +:+ String expected "" +:+ "' in JSON config")
  else mret rest.

(** The loop of [parse_string], with the characters collected so far. *)
Fixpoint string_body (out cs : list ascii) : Result (list ascii * list ascii) :=
  match cs with
  | [] => make_error kInvalidConfig "unexpected end of JSON input"
  | c :: rest =>
      if bool_decide (c = json_quote) then mret (out, rest)
      else if bool_decide (c = json_backslash)
      then make_error kInvalidConfig "JSON config strings may not use escapes"
      else string_body (out ++ [c]) rest
  end.

Definition parse_string (cs : list ascii) : Result (string * list ascii) :=
  rest ← json_expect json_quote cs;
  '(out, rest) ← string_body [] rest;
  mret (of_chars out, rest).

Fixpoint digits_end (cs : list ascii) : list ascii * list ascii :=
  match cs with
  | [] => ([], [])
  | c :: rest => if isdigit c then let '(ds, rest) := digits_end rest in (c :: ds, rest) else ([], cs)
  end.

Definition parse_uint (cs : list ascii) : Result (Z * list ascii) :=
  let cs := skip_ws cs in
  match cs with
  | [] => make_error kInvalidConfig "expected JSON number"
  | c :: _ =>
      if bool_decide (c = "-"%char) then make_error kInvalidConfig "JSON config numbers must be unsigned"
      else
        let '(digits, rest) := digits_end cs in
        match digits with
        | [] => make_error kInvalidConfig "expected JSON number"
        | _ :: _ => n ← json_parse_u64 digits "config"; mret (n, rest)
        end
  end.

Definition parse_bool (cs : list ascii) : Result (bool * list ascii) :=
  let cs := skip_ws cs in
  if bool_decide (take 4 cs = chars "true") then mret (true, drop 4 cs)
  else if bool_decide (take 5 cs = chars "false") then mret (false, drop 5 cs)
  else make_error kInvalidConfig "expected JSON boolean".

Definition parse_value (cs : list ascii) : Result (ConfigValue * list ascii) :=
  let cs := skip_ws cs in
  match cs with
  | [] => make_error kInvalidConfig "expected JSON value"
  | c :: _ =>
      if bool_decide (c = json_quote) then
        '(s, rest) ← parse_string cs; mret (cvString s, rest)
      else if bool_decide (c = "t"%char) || bool_decide (c = "f"%char) then
        '(b, rest) ← parse_bool cs; mret (cvBool b, rest)
      else if bool_decide (c = "n"%char) then
        if bool_decide (take 4 cs = chars "null") then mret (cvString "", drop 4 cs)
        else make_error kInvalidConfig "null is not a supported config value"
      else if isdigit c then
        '(n, rest) ← parse_uint cs; mret (cvUint n, rest)
      else make_error kInvalidConfig "unsupported JSON value in config"
  end.

(** ** Fields *)

Definition is_ignored_key (key : string) : bool :=
  match key with String c _ => bool_decide (c = "_"%char) | EmptyString => false end.

Definition unknown_key {A} (key : string) : Result A :=
  make_error kInvalidConfig ("unknown config key: '" +:+ key +:+ "'").

Definition apply_string_field (config : NodeConfig) (key value : string) : Result NodeConfig :=
  if bool_decide (key = "node_id") then mret (set_node_id value config)
  else if bool_decide (key = "data_dir") then mret (set_data_dir value config)
  else if bool_decide (key = "log_level") then
    level ← parse_log_level value; mret (set_log_level level config)
  else if bool_decide (key = "coinbase_recipient_hex") then mret (set_coinbase_recipient_hex value config)
  else if bool_decide (key = "listen_host") then mret (set_listen_host value config)
  else if bool_decide (key = "port_file") then mret (set_port_file value config)
  else if bool_decide (key = "network_mode") then
    mode ← parse_network_mode value; mret (set_network_mode mode config)
  else if bool_decide (key = "peer") then
    if bool_decide (value = "") then mret (set_peer_port 0 (set_peer_host "" config))
    else
      endpoint ← parse_tcp_endpoint value;
      mret (set_peer_port (ep_port endpoint) (set_peer_host (ep_host endpoint) config))
  else unknown_key key.

Definition apply_uint_field (config : NodeConfig) (key : string) (value : Z) : Result NodeConfig :=
  if bool_decide (key = "genesis_timestamp") then mret (set_genesis_timestamp value config)
  else if bool_decide (key = "block_subsidy") then mret (set_block_subsidy value config)
  else if bool_decide (key = "max_block_size_bytes") then mret (set_max_block_size_bytes (wrap32 value) config)
  else if bool_decide (key = "mine_blocks") then mret (set_mine_blocks (wrap32 value) config)
  else if bool_decide (key = "mine_after_tx") then mret (set_mine_after_tx (wrap32 value) config)
  else if bool_decide (key = "relay_max_sessions") then mret (set_relay_max_sessions (wrap32 value) config)
  else if bool_decide (key = "mempool_max_transactions") then
    mret (set_mempool_max_transactions (wrap32 value) config)
  else if bool_decide (key = "mempool_max_bytes") then mret (set_mempool_max_bytes value config)
  else if bool_decide (key = "min_relay_feerate") then mret (set_min_relay_feerate value config)
  else if bool_decide (key = "coinbase_maturity") then mret (set_coinbase_maturity (wrap32 value) config)
  else if bool_decide (key = "listen_port") then
    if UINT16_MAX <? value then make_error kInvalidConfig "listen_port out of range"
    else mret (set_listen_enabled true (set_listen_port (wrap16 value) config))
  else unknown_key key.

Definition apply_bool_field (config : NodeConfig) (key : string) (value : bool) : Result NodeConfig :=
  if bool_decide (key = "persist") then mret (set_persist value config)
  else if bool_decide (key = "restore") then mret (set_restore value config)
  else unknown_key key.

Definition apply_config_field (config : NodeConfig) (key : string) (value : ConfigValue) : Result NodeConfig :=
  if is_ignored_key key then mret config
  else match value with
       | cvString s => apply_string_field config key s
       | cvBool b => apply_bool_field config key b
       | cvUint n => apply_uint_field config key n
       end.

(** ** Objects and files *)

(** The iterations of the loop of [parse_object]. *)
Fixpoint parse_members (fuel : nat) (config : NodeConfig) (cs : list ascii) : Result (NodeConfig * list ascii) :=
  match fuel with
  | O => make_error kInvalidConfig "out of fuel: excluded by parse_members_fuel"
  | S fuel =>
      '(key, cs) ← parse_string cs;
      cs ← json_expect ":" cs;
      '(value, cs) ← parse_value cs;
      config ← apply_config_field config key value;
      '(sep, cs) ← json_consume (skip_ws cs);
      if bool_decide (sep = "}"%char) then mret (config, cs)
      else if bool_decide (sep ≠ ","%char) then make_error kInvalidConfig "expected ',' or '}' in JSON config"
      else parse_members fuel config (skip_ws cs)
  end.

Definition parse_object (config : NodeConfig) (cs : list ascii) : Result (NodeConfig * list ascii) :=
  cs ← json_expect "{" cs;
  let cs := skip_ws cs in
  if match json_peek cs with Ok c => bool_decide (c = "}"%char) | Err _ => false end then
    cs ← json_expect "}" cs; mret (config, cs)
  else parse_members (S (length cs)) config cs.

Definition parse_config_json (json : string) : Result NodeConfig :=
  '(config, cs) ← parse_object default_config (chars json);
  match skip_ws cs with
  | _ :: _ => make_error kInvalidConfig "trailing data after JSON config object"
  | [] => _ ← validate config; mret config
  end.

Definition kMaxConfigFileBytes : Z := 64 * 1024.

Definition load_config_file (io : Io) (path : string) (d : Disk) : Result NodeConfig :=
  match d !! path with
  | None => make_error kInvalidConfig ("cannot open config file: " +:+ path)
  | Some bytes =>
      if negb (io_sized io) then make_error kInvalidConfig "config file size is invalid"
      else if kMaxConfigFileBytes <? size_z bytes
      then make_error kResourceLimitExceeded "config file is too large"
      else if negb (io_read io) then make_error kInvalidConfig "config file read failed"
      else parse_config_json (String.string_of_list_byte bytes)
  end.

(** ** The language *)

Definition blank (cs : list ascii) : Prop := Forall (λ c, isspace c = true) cs.
(** Characters that may stand in a string. *)
Definition plain (cs : list ascii) : Prop := json_quote ∉ cs ∧ json_backslash ∉ cs.

Inductive value_text : list ascii → ConfigValue → Prop :=
  | vt_string s : plain s → value_text (json_quote :: s ++ [json_quote]) (cvString (of_chars s))
  | vt_null : value_text (chars "null") (cvString "")
  | vt_bool (b : bool) : value_text (chars (if b then "true" else "false")) (cvBool b)
  | vt_uint ds n : from_chars UINT64_MAX ds = (Some n, []) → value_text ds (cvUint n).

(** [{"key":value}] without the braces *)
Inductive member_text : list ascii → string * ConfigValue → Prop :=
  | mt_member key ws text v :
      plain key → blank ws → value_text text v →
      member_text (json_quote :: key ++ json_quote :: ":"%char :: ws ++ text) (of_chars key, v).

(** Members up to the closing brace. *)
Inductive members_text : list ascii → list (string * ConfigValue) → Prop :=
  | ms_last text kv ws :
      member_text text kv → blank ws → members_text (text ++ ws ++ ["}"%char]) [kv]
  | ms_more text kv ws ws' rest kvs :
      member_text text kv → blank ws → blank ws' → members_text rest kvs →
      members_text (text ++ ws ++ ","%char :: ws' ++ rest) (kv :: kvs).

Inductive object_text : list ascii → list (string * ConfigValue) → Prop :=
  | ot_empty ws : blank ws → object_text ("{"%char :: ws ++ ["}"%char]) []
  | ot_members ws rest kvs : blank ws → members_text rest kvs → object_text ("{"%char :: ws ++ rest) kvs.

Definition parses_as (text : list ascii) (kvs : list (string * ConfigValue)) : Prop :=
  ∃ obj ws, text = obj ++ ws ∧ object_text obj kvs ∧ blank ws.

(** The assignments of the members, in order. *)
Fixpoint apply_fields (kvs : list (string * ConfigValue)) (config : NodeConfig) : Result NodeConfig :=
  match kvs with
  | [] => mret config
  | (key, value) :: kvs => config ← apply_config_field config key value; apply_fields kvs config
  end.

(** ** Characters *)

Lemma skip_ws_blank ws cs : blank ws → skip_ws (ws ++ cs) = skip_ws cs.
Proof. induction 1 as [|c ws Hc _ IH]; [done|]. cbn [app skip_ws]. by rewrite Hc. Qed.

Lemma skip_ws_split cs : ∃ ws, cs = ws ++ skip_ws cs ∧ blank ws.
Proof.
  induction cs as [|c cs (ws & E & Hws)]; [exists []; split; [done|constructor]|]. cbn [skip_ws]. destruct (isspace c) eqn:Hc.
  - exists (c :: ws). split; [by rewrite E at 1|by constructor].
  - exists []. split; [done|constructor].
Qed.

Lemma skip_ws_stop c cs : isspace c = false → skip_ws (c :: cs) = c :: cs.
Proof. cbn. by intros ->. Qed.

Lemma json_consume_Ok cs c rest : json_consume cs = Ok (c, rest) ↔ cs = c :: rest.
Proof.
  unfold json_consume, json_peek. destruct cs as [|c' cs]; rsimpl.
  - split; intros H; discriminate H.
  - cbn [tail]. split; [by intros [= -> ->]|by intros [= -> ->]].
Qed.

Lemma json_expect_Ok e cs rest : json_expect e cs = Ok rest ↔ cs = e :: rest.
Proof.
  unfold json_expect. split.
  - intros ([c r] & H & H')%bind_Ok. apply json_consume_Ok in H as ->. case_bool_decide as E; [discriminate H'|].
    subst c. by injection H' as ->.
  - intros ->. cbn. by rewrite bool_decide_false by (intros H; by apply H).
Qed.

Lemma string_body_Ok cs : ∀ out o rest,
  string_body out cs = Ok (o, rest) ↔ ∃ k, plain k ∧ o = out ++ k ∧ cs = k ++ json_quote :: rest.
Proof.
  induction cs as [|c cs IH]; intros out o rest; cbn [string_body].
  { split; [intros H; discriminate H|]. intros ([|] & _ & _ & H); discriminate H. }
  case_bool_decide as E1; [subst c|case_bool_decide as E2].
  - split.
    + intros [= <- <-]. exists []. rewrite app_nil_r. split_and!; [split; apply not_elem_of_nil|done..].
    + intros ([|c k] & Hk & -> & E); [injection E as ->; by rewrite app_nil_r|].
      injection E as <- _. destruct Hk as [Hq _]. destruct Hq. left.
  - split; [intros H; discriminate H|]. intros ([|c' k] & Hk & _ & E); injection E as Ec _; [done|].
    destruct Hk as [_ Hb]. destruct Hb. rewrite <- E2, Ec. left.
  - rewrite IH. split; intros (k & [Hq Hb] & -> & E).
    + exists (c :: k). split_and!; [split; apply not_elem_of_cons; split; congruence || done|by rewrite <- app_assoc|by rewrite E].
    + destruct k as [|c' k]; injection E as Ec E; [done|]. apply not_elem_of_cons in Hq as [_ Hq], Hb as [_ Hb].
      subst c'. exists k. split_and!; [done|by rewrite <- app_assoc|done].
Qed.

Lemma parse_string_Ok cs s rest :
  parse_string cs = Ok (s, rest) ↔ ∃ k, plain k ∧ s = of_chars k ∧ cs = json_quote :: k ++ json_quote :: rest.
Proof.
  unfold parse_string. split.
  - intros (r & H%json_expect_Ok & ([o r'] & Hb & H')%bind_Ok)%bind_Ok. injection H' as <- <-.
    apply string_body_Ok in Hb as (k & Hk & -> & ->). by exists k.
  - intros (k & Hk & -> & ->). rewrite (proj2 (json_expect_Ok _ _ _) eq_refl). rsimpl.
    by rewrite (proj2 (string_body_Ok _ _ k rest)) by (by exists k).
Qed.

(** ** Values *)

Lemma digits_end_split cs ds rest : digits_end cs = (ds, rest) → cs = ds ++ rest.
Proof.
  revert ds. induction cs as [|c cs IH]; intros ds; cbn; [by intros [= <- <-]|].
  destruct (isdigit c); [|by intros [= <- <-]]. destruct (digits_end cs) as [ds' r']. intros [= <- <-].
  cbn. by rewrite (IH ds' eq_refl) at 1.
Qed.

(** What follows a value does not continue a number. *)
Definition stops (cs : list ascii) : Prop := match cs with [] => True | c :: _ => isdigit c = false end.

Lemma digits_end_app ds rest : Forall (λ c, isdigit c = true) ds → stops rest → digits_end (ds ++ rest) = (ds, rest).
Proof.
  intros Hds Hr. induction Hds as [|c ds Hc _ IH]; cbn [app].
  - destruct rest as [|c rest]; [done|]. cbn in *. by rewrite Hr.
  - cbn. by rewrite Hc, IH.
Qed.

Lemma from_chars_digits max ds n : from_chars max ds = (Some n, []) → ds ≠ [] ∧ Forall (λ c, isdigit c = true) ds.
Proof.
  unfold from_chars. destruct (span_digits ds) as [[|v vs] r] eqn:E; [done|]. intros [= _ ->].
  split; [by intros ->|]. revert v vs E. induction ds as [|c ds IH]; intros v vs; cbn; [done|].
  unfold isdigit. destruct (digit_val c) as [x|] eqn:Ec; [|done].
  destruct (span_digits ds) as [[|v' vs'] r'] eqn:Ed; intros [= _ _ ->].
  - constructor; [by rewrite Ec|]. destruct ds as [|c' ds]; [constructor|]. cbn in Ed.
    destruct (digit_val c'); [|done]. by destruct (span_digits ds).
  - constructor; [by rewrite Ec|]. by eapply IH.
Qed.

(** The first character of a value decides its kind. *)
Lemma digit_char c : isdigit c = true →
  isspace c = false ∧ c ≠ json_quote ∧ c ≠ "t"%char ∧ c ≠ "f"%char ∧ c ≠ "n"%char ∧ c ≠ "-"%char.
Proof.
  intros H. split_and!; [|intros ->; discriminate H..]. unfold isdigit, digit_val in H. unfold isspace.
  destruct (_ && _) eqn:E in H; [|done]. lia.
Qed.

Lemma parse_uint_app ds n rest :
  from_chars UINT64_MAX ds = (Some n, []) → stops rest → parse_uint (ds ++ rest) = Ok (n, rest).
Proof.
  intros H Hr. destruct (from_chars_digits _ _ _ H) as [Hne Hds]. destruct ds as [|c ds]; [done|].
  assert (isdigit c = true) as Hc by (by inversion Hds). destruct (digit_char c Hc) as (Hs & _ & _ & _ & _ & Hm).
  unfold parse_uint. cbn [app]. rewrite skip_ws_stop by done. rewrite bool_decide_false by done.
  change (c :: ds ++ rest) with ((c :: ds) ++ rest). rewrite digits_end_app by done.
  unfold json_parse_u64. by rewrite H.
Qed.

Lemma parse_value_text text v ws rest :
  value_text text v → blank ws → stops rest → parse_value (ws ++ text ++ rest) = Ok (v, rest).
Proof.
  intros Hv Hws Hr. unfold parse_value. rewrite skip_ws_blank by done. destruct Hv as [s Hs| |b|ds n H].
  - cbn [app]. rewrite skip_ws_stop by done. rewrite bool_decide_true by done.
    rewrite (proj2 (parse_string_Ok _ (of_chars s) rest)); [done|]. exists s. by rewrite <- app_assoc.
  - done.
  - by destruct b.
  - destruct (from_chars_digits _ _ _ H) as [Hne Hds]. destruct ds as [|c ds]; [done|].
    assert (isdigit c = true) as Hc by (by inversion Hds).
    destruct (digit_char c Hc) as (Hsp & H1 & H2 & H3 & H4 & _). cbn [app]. rewrite skip_ws_stop by done.
    rewrite !bool_decide_false by done. cbn [orb]. rewrite Hc. change (c :: ds ++ rest) with ((c :: ds) ++ rest).
    by rewrite (parse_uint_app _ n).
Qed.

Lemma parse_value_inv cs v rest : parse_value cs = Ok (v, rest) →
  ∃ ws text, cs = ws ++ text ++ rest ∧ blank ws ∧ value_text text v.
Proof.
  destruct (skip_ws_split cs) as (ws & E & Hws). intros H.
  assert (∃ text, skip_ws cs = text ++ rest ∧ value_text text v) as (text & E' & Hv).
  2: { exists ws, text. split_and!; [by rewrite E, E' at 1|done..]. }
  unfold parse_value in H. destruct (skip_ws cs) as [|c r] eqn:Es; [discriminate H|].
  case_bool_decide as E1; [|destruct (_ || _) eqn:E2; [|case_bool_decide as E3; [|destruct (isdigit c) eqn:E4]]].
  - apply bind_Ok in H as ([s r'] & Hs & H). injection H as <- <-.
    apply parse_string_Ok in Hs as (k & Hk & -> & Ek). exists (json_quote :: k ++ [json_quote]).
    split; [|by constructor]. cbn [app]. by rewrite Ek, <- app_assoc.
  - apply bind_Ok in H as ([b r'] & Hb & H). injection H as <- <-. unfold parse_bool in Hb.
    assert (isspace c = false) as Hc.
    { apply orb_true_iff in E2 as [E2|E2]; by apply bool_decide_eq_true in E2 as ->. }
    rewrite skip_ws_stop in Hb by done. exists (chars (if b then "true" else "false")). split; [|constructor].
    case_bool_decide as Et; [|case_bool_decide as Ef; [|discriminate Hb]]; injection Hb as <- <-.
    + etrans; [symmetry; apply (take_drop 4)|]. by rewrite Et.
    + etrans; [symmetry; apply (take_drop 5)|]. by rewrite Ef.
  - case_bool_decide as En; [|discriminate H]. injection H as <- <-. exists (chars "null"). split; [|constructor].
    etrans; [symmetry; apply (take_drop 4)|]. by rewrite En.
  - apply bind_Ok in H as ([n r'] & Hn & H). injection H as <- <-. unfold parse_uint in Hn.
    destruct (digit_char c E4) as (Hsp & _). rewrite skip_ws_stop in Hn by done.
    case_bool_decide; [discriminate Hn|]. destruct (digits_end (c :: r)) as [ds r2] eqn:Ed.
    apply digits_end_split in Ed. destruct ds as [|d ds]; [discriminate Hn|].
    apply bind_Ok in Hn as (n' & Hn & H'). injection H' as <- <-. exists (d :: ds). split; [done|]. constructor.
    unfold json_parse_u64 in Hn. destruct (from_chars _ _) as [[x|] [|]]; try discriminate Hn. by injection Hn as ->.
  - discriminate H.
Qed.

(** ** Members *)

(** What an iteration does after a member. *)
Definition after_member (fuel : nat) (cs : list ascii) (config : NodeConfig) : Result (NodeConfig * list ascii) :=
  '(sep, cs) ← json_consume (skip_ws cs);
  if bool_decide (sep = "}"%char) then mret (config, cs)
  else if bool_decide (sep ≠ ","%char) then make_error kInvalidConfig "expected ',' or '}' in JSON config"
  else parse_members fuel config (skip_ws cs).

Lemma member_step fuel config text k v rest :
  member_text text (k, v) → stops rest →
  parse_members (S fuel) config (text ++ rest) = (apply_config_field config k v ≫= after_member fuel rest).
Proof.
  intros H Hr. inversion H as [key ws vt v' Hk Hws Hv]; subst. cbn [parse_members app].
  rewrite <- !app_assoc. cbn [app]. rewrite <- !app_assoc.
  rewrite (proj2 (parse_string_Ok _ (of_chars key) (":"%char :: ws ++ vt ++ rest))) by (by exists key). rsimpl.
  rewrite (proj2 (json_expect_Ok _ _ _) eq_refl). rsimpl. by rewrite (parse_value_text vt v).
Qed.

Lemma stops_blank ws c cs : blank ws → isdigit c = false → stops (ws ++ c :: cs).
Proof.
  intros [|c' ws' Hc _] H; [done|]. cbn. destruct (isdigit c') eqn:E; [|done].
  apply digit_char in E as [E _]. congruence.
Qed.

Lemma members_head text kvs : members_text text kvs → ∃ rest, text = json_quote :: rest.
Proof. intros [? ? ? []|? ? ? ? ? ? []]; by eexists. Qed.

Lemma parse_members_text text kvs : members_text text kvs → ∀ fuel config rest, (length kvs ≤ fuel)%nat →
  parse_members fuel config (text ++ rest) = (c ← apply_fields kvs config; mret (c, rest)).
Proof.
  induction 1 as [text [k v] ws Hm Hws|text [k v] ws ws' more kvs Hm Hws Hws' Hmore IH];
    intros [|fuel] config rest Hf; cbn [length] in Hf; try lia; rewrite <- !app_assoc.
  - cbn [app]. rewrite (member_step _ _ _ k v) by (done || by apply stops_blank). cbn [apply_fields].
    destruct (apply_config_field config k v) as [c|e]; [|done]. rsimpl. unfold after_member.
    rewrite skip_ws_blank, skip_ws_stop by done. done.
  - cbn [app]. rewrite (member_step _ _ _ k v) by (done || by apply stops_blank). cbn [apply_fields].
    destruct (apply_config_field config k v) as [c|e]; [|done]. rsimpl. unfold after_member.
    rewrite skip_ws_blank, skip_ws_stop by done. rewrite (proj2 (json_consume_Ok _ ","%char _) eq_refl). rsimpl.
    rewrite !bool_decide_false by (done || (intros H; by apply H)). rewrite <- app_assoc, skip_ws_blank by done.
    destruct (members_head _ _ Hmore) as [r Er]. rewrite Er. cbn [app]. rewrite skip_ws_stop by done.
    change (json_quote :: r ++ rest) with ((json_quote :: r) ++ rest). rewrite <- Er. apply IH. lia.
Qed.

(** One iteration that goes well reads a member and a separator. *)
Lemma member_inv fuel config cs c rest : parse_members (S fuel) config cs = Ok (c, rest) →
  ∃ text k v ws sep after config', cs = text ++ ws ++ sep :: after ∧ member_text text (k, v) ∧ blank ws ∧
    apply_config_field config k v = Ok config' ∧
    ((sep = "}"%char ∧ c = config' ∧ rest = after) ∨
     (sep = ","%char ∧ parse_members fuel config' (skip_ws after) = Ok (c, rest))).
Proof.
  cbn [parse_members]. intros ([key cs1] & H1 & H)%bind_Ok. apply bind_Ok in H as (cs2 & H2 & H).
  apply bind_Ok in H as ([v cs3] & H3 & H). apply bind_Ok in H as (config' & H4 & H).
  apply bind_Ok in H as ([sep cs4] & H5 & H).
  apply parse_string_Ok in H1 as (k & Hk & -> & ->). apply json_expect_Ok in H2 as ->.
  apply parse_value_inv in H3 as (ws & vt & -> & Hws & Hv). apply json_consume_Ok in H5.
  destruct (skip_ws_split cs3) as (ws' & E' & Hws'). rewrite H5 in E'. subst cs3.
  exists (json_quote :: k ++ json_quote :: ":"%char :: ws ++ vt), (of_chars k), v, ws', sep, cs4, config'.
  split_and!; [cbn [app]; by rewrite <- !app_assoc; cbn [app]; rewrite <- !app_assoc|by constructor|done|done|].
  case_bool_decide as E1; [left; injection H as <- <-; by subst|right].
  case_bool_decide as E2; [discriminate H|]. done.
Qed.

Lemma parse_members_inv fuel : ∀ config cs c rest, parse_members fuel config cs = Ok (c, rest) →
  ∃ text kvs, cs = text ++ rest ∧ members_text text kvs ∧ apply_fields kvs config = Ok c.
Proof.
  induction fuel as [|fuel IH]; intros config cs c rest H; [discriminate H|].
  apply member_inv in H as (text & k & v & ws & sep & after & config' & -> & Hm & Hws & Ha & [(-> & -> & ->)|[-> H]]).
  - exists (text ++ ws ++ ["}"%char]), [(k, v)]. split_and!; [by rewrite <- !app_assoc|by constructor|].
    cbn. by rewrite Ha.
  - apply IH in H as (more & kvs & E & Hmore & Hap). destruct (skip_ws_split after) as (ws' & E' & Hws').
    exists (text ++ ws ++ ","%char :: ws' ++ more), ((k, v) :: kvs). split_and!.
    + rewrite E', E, <- !app_assoc. cbn [app]. by rewrite <- !app_assoc.
    + by constructor.
    + cbn [apply_fields]. by rewrite Ha.
Qed.

Lemma members_count text kvs : members_text text kvs → (length kvs ≤ length text)%nat.
Proof.
  induction 1 as [text kv ws Hm _|text kv ws ws' more kvs Hm _ _ _ IH].
  - rewrite !length_app. cbn. lia.
  - rewrite length_app, length_app. cbn [length]. rewrite length_app. lia.
Qed.

Lemma skip_ws_shorter cs : (length (skip_ws cs) ≤ length cs)%nat.
Proof. destruct (skip_ws_split cs) as (ws & E & _). rewrite E at 2. rewrite length_app. lia. Qed.

(** The fuel of [parse_object] is enough: with any more of it the result is the same. *)
Lemma parse_members_fuel fuel : ∀ fuel' config cs, (length cs < fuel)%nat → (length cs < fuel')%nat →
  parse_members fuel config cs = parse_members fuel' config cs.
Proof.
  induction fuel as [|fuel IH]; intros [|fuel'] config cs H1 H2; try lia. cbn [parse_members].
  destruct (parse_string cs) as [[key cs1]|e] eqn:E1; [|done]. rsimpl.
  destruct (json_expect _ cs1) as [cs2|e] eqn:E2; [|done]. rsimpl.
  destruct (parse_value cs2) as [[v cs3]|e] eqn:E3; [|done]. rsimpl.
  destruct (apply_config_field config key v) as [config'|e]; [|done]. rsimpl.
  destruct (json_consume _) as [[sep cs4]|e] eqn:E4; [|done]. rsimpl.
  case_bool_decide; [done|]. case_bool_decide; [done|].
  apply parse_string_Ok in E1 as (k & _ & _ & ->). apply json_expect_Ok in E2 as ->.
  apply parse_value_inv in E3 as (ws & vt & -> & _). apply json_consume_Ok in E4.
  pose proof (skip_ws_shorter cs3) as Hs. rewrite E4 in Hs. pose proof (skip_ws_shorter cs4) as Hs'.
  cbn [length] in *. rewrite length_app in *. cbn [length] in *. rewrite !length_app in *. apply IH; lia.
Qed.

(** ** Documents *)

Lemma brace_members text kvs rest : members_text text kvs →
  match json_peek (text ++ rest) with Ok c => bool_decide (c = "}"%char) | Err _ => false end = false.
Proof. intros [r ->]%members_head. cbn. by rewrite bool_decide_false. Qed.

Lemma parse_object_text obj kvs config rest : object_text obj kvs →
  parse_object config (obj ++ rest) = (c ← apply_fields kvs config; mret (c, rest)).
Proof.
  unfold parse_object. intros [ws Hws|ws more kvs' Hws Hm]; cbn [app];
    rewrite (proj2 (json_expect_Ok _ _ _) eq_refl), <- app_assoc; rsimpl; rewrite skip_ws_blank by done.
  - cbn [app]. by rewrite skip_ws_stop.
  - assert (skip_ws (more ++ rest) = more ++ rest) as ->.
    { destruct (members_head _ _ Hm) as [r ->]. by apply skip_ws_stop. }
    rewrite (brace_members _ _ _ Hm). apply parse_members_text; [done|].
    apply members_count in Hm. rewrite length_app. lia.
Qed.

Lemma parse_object_inv config cs c rest : parse_object config cs = Ok (c, rest) →
  ∃ obj kvs, cs = obj ++ rest ∧ object_text obj kvs ∧ apply_fields kvs config = Ok c.
Proof.
  unfold parse_object. intros (cs1 & ->%json_expect_Ok & H)%bind_Ok.
  destruct (skip_ws_split cs1) as (ws & E & Hws). set (cs2 := skip_ws cs1) in *.
  destruct (match json_peek cs2 with Ok c => _ | Err _ => _ end).
  - apply bind_Ok in H as (cs3 & E3%json_expect_Ok & H). injection H as <- <-.
    exists ("{"%char :: ws ++ ["}"%char]), []. split_and!; [|by constructor|done].
    rewrite E, E3. cbn [app]. by rewrite <- app_assoc.
  - apply parse_members_inv in H as (text & kvs & E' & Hm & Ha). exists ("{"%char :: ws ++ text), kvs.
    split_and!; [|by constructor|done]. rewrite E, E'. cbn [app]. by rewrite <- app_assoc.
Qed.

(** A text of the language means the assignments of its members, then the validation. *)
Lemma parse_config_text json kvs : parses_as (chars json) kvs →
  parse_config_json json = (c ← apply_fields kvs default_config; _ ← validate c; mret c).
Proof.
  intros (obj & ws & E & Hobj & Hws). unfold parse_config_json. rewrite E, (parse_object_text _ _ _ _ Hobj).
  destruct (apply_fields kvs default_config) as [c|e]; [|done]. rsimpl.
  rewrite <- (app_nil_r ws), skip_ws_blank by done. done.
Qed.

Lemma parse_config_inv json c : parse_config_json json = Ok c →
  ∃ kvs, parses_as (chars json) kvs ∧ apply_fields kvs default_config = Ok c ∧ config_valid c.
Proof.
  unfold parse_config_json. intros ([c' rest] & H & Hv)%bind_Ok.
  apply parse_object_inv in H as (obj & kvs & E & Hobj & Ha). exists kvs.
  destruct (skip_ws rest) as [|? ?] eqn:Es; [|discriminate Hv]. destruct (skip_ws_split rest) as (ws & Er & Hws).
  rewrite Es, app_nil_r in Er. subst ws.
  apply bind_Ok in Hv as ([] & Hval & Hc). injection Hc as ->. split_and!; [by exists obj, rest|done|by apply validate_Ok].
Qed.

(** ** Ranges *)

Lemma parse_tcp_endpoint_range text ep :
  parse_tcp_endpoint text = Ok ep → is_u16 (ep_port ep) ∧ ep_port ep ≠ 0 ∧ ep_host ep ≠ "".
Proof.
  unfold parse_tcp_endpoint. destruct (split_last _ _) as [[[|h host] [|p port]]|]; intros H; try discriminate H.
  destruct (from_chars _ _) as [[v|] [|]] eqn:E; try discriminate H.
  destruct (v =? 0) eqn:Ez; [discriminate H|]. injection H as <-. apply from_chars_range in E. cbn [ep_port ep_host].
  split_and!; [solve_u|lia|done].
Qed.

Definition value_typed (v : ConfigValue) : Prop := match v with cvUint n => is_u64 n | _ => True end.

Lemma value_text_typed text v : value_text text v → value_typed v.
Proof. intros [| | |ds n H]; cbn; try done. apply from_chars_range in H. solve_u. Qed.

Lemma apply_string_typed c key s c' : config_typed c → apply_string_field c key s = Ok c' → config_typed c'.
Proof.
  intros Hc. unfold apply_string_field, unknown_key.
  repeat case_bool_decide; intros Hr; try discriminate Hr; try (injection Hr as <-; exact Hc).
  - by apply bind_Ok in Hr as (l & _ & [= <-]).
  - by apply bind_Ok in Hr as (l & _ & [= <-]).
  - injection Hr as <-. unfold config_typed in *. cbn. by destruct_and!; split_and!.
  - apply bind_Ok in Hr as (ep & (Hp & _)%parse_tcp_endpoint_range & [= <-]). unfold config_typed in *. cbn.
    by destruct_and!; split_and!.
Qed.

Lemma apply_uint_typed c key n c' : config_typed c → is_u64 n → apply_uint_field c key n = Ok c' → config_typed c'.
Proof.
  intros Hc Hn. unfold apply_uint_field, unknown_key. pose proof (wrap32_range n) as H32.
  repeat case_bool_decide; try (intros Hr; discriminate Hr); try (intros [= <-]; unfold config_typed in *; cbn;
    destruct_and!; split_and!; assumption).
  destruct (_ <? n) eqn:E; [intros Hr; discriminate Hr|]. intros [= <-]. unfold config_typed in *. cbn.
  destruct_and!; split_and!; try assumption. unfold wrap16. apply Z.mod_pos_bound. lia.
Qed.

Lemma apply_field_typed c key v c' :
  config_typed c → value_typed v → apply_config_field c key v = Ok c' → config_typed c'.
Proof.
  intros Hc Hv. unfold apply_config_field. destruct (is_ignored_key key); [by intros [= <-]|].
  destruct v as [s|n|b]; [by apply apply_string_typed|by apply apply_uint_typed|].
  unfold apply_bool_field, unknown_key. repeat case_bool_decide; intros Hr; try discriminate Hr; by injection Hr as <-.
Qed.

Lemma members_typed text kvs : members_text text kvs → Forall (λ kv, value_typed kv.2) kvs.
Proof.
  assert (∀ t kv, member_text t kv → value_typed kv.2) as Hm by (intros t kv []; by eapply value_text_typed).
  induction 1; constructor; try done; by eapply Hm.
Qed.

Lemma apply_fields_typed kvs : Forall (λ kv, value_typed kv.2) kvs → ∀ c c',
  config_typed c → apply_fields kvs c = Ok c' → config_typed c'.
Proof.
  induction 1 as [|[key v] kvs Hv _ IH]; intros c c' Hc H; [by injection H as <-|].
  cbn [apply_fields] in H. apply bind_Ok in H as (c1 & H1 & H). eapply IH; [|done]. by eapply apply_field_typed.
Qed.

(** What is read from a file is a usable configuration. *)
Lemma parse_config_typed json c : parse_config_json json = Ok c → config_typed c ∧ config_valid c.
Proof.
  intros (kvs & (obj & ws & _ & Hobj & _) & Ha & Hv)%parse_config_inv. split; [|done].
  refine (apply_fields_typed kvs _ default_config c _ Ha); [|vm_decide].
  destruct Hobj; [constructor|by eapply members_typed].
Qed.

Lemma load_config_typed io path d c : load_config_file io path d = Ok c → config_typed c ∧ config_valid c.
Proof.
  unfold load_config_file. destruct (d !! path) as [bytes|]; [|intros H; discriminate H].
  destruct (io_sized io), (_ <? _), (io_read io); cbn [negb]; try (intros H; discriminate H). apply parse_config_typed.
Qed.
