(* ===== verification/Args.v ===== *)
(** * The command line ([parse_args] and [usage] of [src/node/config.cpp])

    [flag_action] gives the flags that take a value and what each does with it; the flags
    are pairwise different, so the order in which the source tests them does not matter.

    [args_of] writes a configuration as a command line.  [parse_args_of] shows that it is
    read back, for every valid configuration that the flags can express. *)

From S2P Require Import Prelude Errors Sha256 ByteIO Transaction Mempool ChainStore P2pMessage Effects Text SocketIO Config ConfigJson.
From Stdlib Require Import Strings.Ascii.

(** The first pass: the last [--config] wins. *)
Fixpoint config_file_path (args : list string) (found : option string) : Result (option string) :=
  match args with
  | [] => mret found
  | arg :: rest =>
      if bool_decide (arg = "--config") then
        match rest with
        | [] => make_error kInvalidConfig "missing value for --config"
        | path :: rest => config_file_path rest (Some path)
        end
      else config_file_path rest found
  end.

Definition set_u32 (set : Z → NodeConfig → NodeConfig) (arg value : string) (c : NodeConfig) : Result NodeConfig :=
  parsed ← parse_u32 value arg; mret (set parsed c).
Definition set_u64 (set : Z → NodeConfig → NodeConfig) (arg value : string) (c : NodeConfig) : Result NodeConfig :=
  parsed ← parse_u64 value arg; mret (set parsed c).

(** Flags of the network. *)
Definition network_flag (arg : string) : option (string → NodeConfig → Result NodeConfig) :=
  if bool_decide (arg = "--listen-host") then Some (λ value c, mret (set_listen_host value c))
  else if bool_decide (arg = "--listen-port") then
    Some (set_u32 (λ v c, set_listen_enabled true (set_listen_port (wrap16 v) c)) arg)
  else if bool_decide (arg = "--port-file") then Some (λ value c, mret (set_port_file value c))
  else if bool_decide (arg = "--network-mode") then
    Some (λ value c, mode ← parse_network_mode value; mret (set_network_mode mode c))
  else if bool_decide (arg = "--peer") then
    Some (λ value c, endpoint ← parse_tcp_endpoint value;
                     mret (set_peer_port (ep_port endpoint) (set_peer_host (ep_host endpoint) c)))
  else None.

(** Flags of the pool and of block production, and the ones above. *)
Definition chain_flag (arg : string) : option (string → NodeConfig → Result NodeConfig) :=
  if bool_decide (arg = "--mempool-max-transactions") then Some (set_u32 set_mempool_max_transactions arg)
  else if bool_decide (arg = "--mempool-max-bytes") then Some (set_u64 set_mempool_max_bytes arg)
  else if bool_decide (arg = "--min-relay-feerate") then Some (set_u64 set_min_relay_feerate arg)
  else if bool_decide (arg = "--mine-blocks") then Some (set_u32 set_mine_blocks arg)
  else if bool_decide (arg = "--block-subsidy") then Some (set_u64 set_block_subsidy arg)
  else if bool_decide (arg = "--coinbase-maturity") then Some (set_u32 set_coinbase_maturity arg)
  else if bool_decide (arg = "--coinbase-recipient") then Some (λ value c, mret (set_coinbase_recipient_hex value c))
  else network_flag arg.

(** All flags that take a value. *)
Definition flag_action (arg : string) : option (string → NodeConfig → Result NodeConfig) :=
  if bool_decide (arg = "--node-id") then Some (λ value c, mret (set_node_id value c))
  else if bool_decide (arg = "--data-dir") then Some (λ value c, mret (set_data_dir value c))
  else if bool_decide (arg = "--log-level") then
    Some (λ value c, level ← parse_log_level value; mret (set_log_level level c))
  else if bool_decide (arg = "--genesis-timestamp") then Some (set_u64 set_genesis_timestamp arg)
  else if bool_decide (arg = "--max-block-size") then Some (set_u64 (λ v, set_max_block_size_bytes (wrap32 v)) arg)
  else if bool_decide (arg = "--mine-after-tx") then Some (set_u32 set_mine_after_tx arg)
  else if bool_decide (arg = "--relay-max-sessions") then Some (set_u32 set_relay_max_sessions arg)
  else if bool_decide (arg = "--relay-blocks-after-tx") then Some (set_u32 set_relay_blocks_after_tx arg)
  else if bool_decide (arg = "--announce-tx-file") then
    Some (λ value c, mret (set_announce_tx_files (cfg_announce_tx_files c ++ [value]) c))
  else chain_flag arg.

Definition help_requested (arg : string) : bool := bool_decide (arg = "--help") || bool_decide (arg = "-h").

(** The second pass. *)
Fixpoint parse_flags (args : list string) (config : NodeConfig) : Result NodeConfig :=
  match args with
  | [] => mret config
  | arg :: rest =>
      if help_requested arg then make_error kInvalidConfig "help requested"
      else if bool_decide (arg = "--config") then
        match rest with [] => mret config | _ :: rest => parse_flags rest config end
      else
        match flag_action arg with
        | Some action =>
            match rest with
            | [] => make_error kInvalidConfig ("missing value for " +:+ arg)
            | value :: rest => config ← action value config; parse_flags rest config
            end
        | None =>
            if bool_decide (arg = "--persist") then parse_flags rest (set_persist true config)
            else if bool_decide (arg = "--restore") then parse_flags rest (set_restore true config)
            else make_error kInvalidConfig ("unknown argument: '" +:+ arg +:+ "'")
        end
  end.

Definition parse_args (io : Io) (args : list string) (d : Disk) : Result NodeConfig :=
  path ← config_file_path args None;
  config ← (match path with Some path => load_config_file io path d | None => mret default_config end);
  config ← parse_flags args config;
  _ ← validate config;
  mret config.

(** ** Ranges *)

Definition keeps_typed (f : string → NodeConfig → Result NodeConfig) : Prop :=
  ∀ v c c', config_typed c → f v c = Ok c' → config_typed c'.

Lemma set_u32_typed set arg :
  (∀ v c, is_u32 v → config_typed c → config_typed (set v c)) → keeps_typed (set_u32 set arg).
Proof. intros Hs v c c' Hc. unfold set_u32. intros (p & [Hp _]%parse_u32_range & [= <-])%bind_Ok. auto. Qed.

Lemma set_u64_typed set arg :
  (∀ v c, is_u64 v → config_typed c → config_typed (set v c)) → keeps_typed (set_u64 set arg).
Proof. intros Hs v c c' Hc. unfold set_u64. intros (p & Hp%parse_u64_range & [= <-])%bind_Ok. auto. Qed.

Lemma flag_action_typed arg f : flag_action arg = Some f → keeps_typed f.
Proof.
  assert (∀ v, is_u16 (wrap16 v)) as H16 by (intros v; unfold wrap16; apply Z.mod_pos_bound; lia).
  unfold flag_action, chain_flag, network_flag.
  repeat (case_bool_decide; [intros [= <-];
    first [apply set_u32_typed|apply set_u64_typed|intros v c c' Hc];
    try (by intros [= <-]);
    try (intros v c Hv Hc; pose proof (wrap32_range v); pose proof (H16 v); unfold config_typed in *; cbn;
         destruct_and!; split_and!; assumption);
    try (by intros (? & _ & [= <-])%bind_Ok)|]); [|done].
  intros (ep & (Hp & _)%parse_tcp_endpoint_range & [= <-])%bind_Ok. unfold config_typed in *. cbn.
  by destruct_and!; split_and!.
Qed.

(** What every flag keeps, the second pass keeps. *)
Section Keeps.
Context (P : NodeConfig → Prop).
Context (Haction : ∀ arg f v c c', flag_action arg = Some f → P c → f v c = Ok c' → P c').
Context (Hpersist : ∀ c, P c → P (set_persist true c)) (Hrestore : ∀ c, P c → P (set_restore true c)).

Lemma parse_flags_keeps args : ∀ c c', P c → parse_flags args c = Ok c' → P c'.
Proof.
  assert (∀ n args c c', (length args ≤ n)%nat → P c → parse_flags args c = Ok c' → P c') as H;
    [|intros c c'; by apply (H (length args))].
  induction n as [|n IH]; intros [|arg rest] c c' Hn Hc H; cbn [length] in Hn; try lia; try (by injection H as <-).
  cbn [parse_flags] in H. destruct (help_requested arg); [discriminate H|].
  case_bool_decide; [destruct rest as [|? rest]; [by injection H as <-|]; cbn [length] in Hn; by eapply IH in H; [|lia|]|].
  destruct (flag_action arg) as [f|] eqn:Ef.
  - destruct rest as [|v rest]; [discriminate H|]. cbn [length] in Hn. apply bind_Ok in H as (c1 & H1 & H).
    eapply IH in H; [done|lia|]. by eapply Haction.
  - case_bool_decide; [eapply IH in H; [exact H|lia|by apply Hpersist]|].
    case_bool_decide; [eapply IH in H; [exact H|lia|by apply Hrestore]|discriminate H].
Qed.
End Keeps.

Lemma parse_flags_typed args c c' : config_typed c → parse_flags args c = Ok c' → config_typed c'.
Proof. apply parse_flags_keeps; [|done|done]. intros arg f v c1 c2 Hf. by apply (flag_action_typed _ _ Hf). Qed.

(** No flag takes the listening port away. *)
Lemma parse_flags_listens args c c' :
  cfg_listen_enabled c = true → parse_flags args c = Ok c' → cfg_listen_enabled c' = true.
Proof.
  apply (parse_flags_keeps (λ c, cfg_listen_enabled c = true)); [|done|done]. intros arg f v c1 c2.
  unfold flag_action, chain_flag, network_flag, set_u32, set_u64.
  repeat (case_bool_decide;
    [intros [= <-] Hc; first [by intros [= <-]|by intros (? & _ & [= <-])%bind_Ok]|]); discriminate.
Qed.

(** What the command line gives is a usable configuration. *)
Lemma parse_args_typed io args d c : parse_args io args d = Ok c → config_typed c ∧ config_valid c.
Proof.
  unfold parse_args. intros (path & _ & (c0 & H0 & (c1 & H1 & ([] & Hv & [= ->])%bind_Ok)%bind_Ok)%bind_Ok)%bind_Ok.
  split; [|by apply validate_Ok]. refine (parse_flags_typed args c0 c _ H1).
  destruct path as [path|]; [by apply load_config_typed in H0 as [? _]|]. injection H0 as <-. vm_decide.
Qed.

(** ** Writing a command line *)

Definition numeric_args (c : NodeConfig) : list string :=
  ["--genesis-timestamp"; pretty (cfg_genesis_timestamp c); "--max-block-size"; pretty (cfg_max_block_size_bytes c);
   "--mine-after-tx"; pretty (cfg_mine_after_tx c); "--relay-max-sessions"; pretty (cfg_relay_max_sessions c);
   "--relay-blocks-after-tx"; pretty (cfg_relay_blocks_after_tx c);
   "--mempool-max-transactions"; pretty (cfg_mempool_max_transactions c);
   "--mempool-max-bytes"; pretty (cfg_mempool_max_bytes c); "--min-relay-feerate"; pretty (cfg_min_relay_feerate c);
   "--mine-blocks"; pretty (cfg_mine_blocks c); "--block-subsidy"; pretty (cfg_block_subsidy c);
   "--coinbase-maturity"; pretty (cfg_coinbase_maturity c)].

Definition text_args (c : NodeConfig) : list string :=
  ["--node-id"; cfg_node_id c; "--data-dir"; cfg_data_dir c; "--log-level"; log_level_name (cfg_log_level c);
   "--coinbase-recipient"; cfg_coinbase_recipient_hex c; "--listen-host"; cfg_listen_host c;
   "--port-file"; cfg_port_file c; "--network-mode"; network_mode_name (cfg_network_mode c)].

Definition peer_text (c : NodeConfig) : string := cfg_peer_host c +:+ ":" +:+ pretty (cfg_peer_port c).

Definition listen_args (c : NodeConfig) : list string :=
  if cfg_listen_enabled c then ["--listen-port"; pretty (cfg_listen_port c)] else [].
Definition peer_args (c : NodeConfig) : list string :=
  if cfg_peer_port c =? 0 then [] else ["--peer"; peer_text c].
Definition switch_args (c : NodeConfig) : list string :=
  (if cfg_persist c then ["--persist"] else []) ++ (if cfg_restore c then ["--restore"] else []).

Definition file_args (files : list string) : list string := files ≫= λ f, ["--announce-tx-file"; f].

Definition args_of (c : NodeConfig) : list string :=
  numeric_args c ++ text_args c ++ listen_args c ++ peer_args c ++ switch_args c ++ file_args (cfg_announce_tx_files c).

(** What the flags can say: without a listening port there is none, without a peer there is
    no host, and no value reads as the flag that the first pass looks for. *)
Record expressible (c : NodeConfig) : Prop := {
  ex_typed : config_typed c;
  ex_valid : config_valid c;
  ex_listen : cfg_listen_enabled c = false → cfg_listen_port c = 0;
  ex_peer : cfg_peer_port c = 0 ↔ cfg_peer_host c = "";
  ex_values : Forall (λ s, s ≠ "--config")
    ([cfg_node_id c; cfg_data_dir c; cfg_coinbase_recipient_hex c; cfg_listen_host c; cfg_port_file c] ++
     cfg_announce_tx_files c);
}.

Lemma config_file_path_none args found : Forall (λ s, s ≠ "--config") args → config_file_path args found = Ok found.
Proof. induction 1 as [|arg args Ha _ IH]; [done|]. cbn [config_file_path]. by rewrite bool_decide_false. Qed.

Lemma pretty_not_config z : is_u64 z → pretty z ≠ "--config".
Proof. intros Hz E. pose proof (parse_u64_pretty z "" Hz) as H. rewrite E in H. discriminate H. Qed.

Lemma peer_text_chars c : chars (peer_text c) = chars (cfg_peer_host c) ++ ":"%char :: chars (pretty (cfg_peer_port c)).
Proof. unfold peer_text. by rewrite !chars_app. Qed.

Lemma peer_not_config c : peer_text c ≠ "--config".
Proof.
  intros E. apply (f_equal String.list_ascii_of_string) in E. rewrite peer_text_chars in E.
  assert (":"%char ∈ chars "--config") as H by (rewrite <- E; apply elem_of_app; right; left).
  by apply (bool_decide_eq_true_2 _) in H; vm_compute in H.
Qed.

(** Digits contain no colon. *)
Lemma pretty_no_colon z : is_u64 z → ":"%char ∉ chars (pretty z).
Proof.
  intros Hz Hin. pose proof (parse_u64_pretty z "" Hz) as H. unfold parse_u64 in H.
  destruct (from_chars _ _) as [[v|] [|]] eqn:E; try discriminate H. apply from_chars_digits in E as [_ Hd].
  eapply Forall_forall in Hd; [|exact Hin]. discriminate Hd.
Qed.

Lemma parse_peer_text c : is_u16 (cfg_peer_port c) → cfg_peer_port c ≠ 0 → cfg_peer_host c ≠ "" →
  parse_tcp_endpoint (peer_text c) = Ok (mkTcpEndpoint (cfg_peer_host c) (cfg_peer_port c)).
Proof.
  intros Hp H0 Hh. unfold parse_tcp_endpoint. rewrite peer_text_chars, split_last_app by (apply pretty_no_colon; solve_u).
  pose proof (from_chars_pretty UINT16_MAX (cfg_peer_port c) []) as Hf. rewrite app_nil_r in Hf.
  specialize (Hf ltac:(solve_u) ltac:(done)).
  destruct (chars (cfg_peer_host c)) as [|h hs] eqn:Eh; [by apply of_chars_inj in Eh|].
  destruct (chars (pretty (cfg_peer_port c))) as [|p ps]; [discriminate Hf|]. rewrite Hf.
  destruct (_ =? 0) eqn:E; [lia|]. rewrite <- Eh, of_chars_of. done.
Qed.

(** ** Reading it back *)

Lemma flag_step arg f v c c' rest :
  flag_action arg = Some f → help_requested arg = false → arg ≠ "--config" → f v c = Ok c' →
  parse_flags (arg :: v :: rest) c = parse_flags rest c'.
Proof. intros Hf Hh Hc H. cbn [parse_flags]. rewrite Hh, bool_decide_false, Hf, H by done. done. Qed.

Lemma u32_step arg set z c rest :
  flag_action arg = Some (set_u32 set arg) → help_requested arg = false → arg ≠ "--config" → is_u32 z →
  parse_flags (arg :: pretty z :: rest) c = parse_flags rest (set z c).
Proof. intros Hf Hh Hc Hz. apply (flag_step arg _ _ _ _ _ Hf Hh Hc). unfold set_u32. by rewrite parse_u32_pretty. Qed.

Lemma u64_step arg set z c rest :
  flag_action arg = Some (set_u64 set arg) → help_requested arg = false → arg ≠ "--config" → is_u64 z →
  parse_flags (arg :: pretty z :: rest) c = parse_flags rest (set z c).
Proof. intros Hf Hh Hc Hz. apply (flag_step arg _ _ _ _ _ Hf Hh Hc). unfold set_u64. by rewrite parse_u64_pretty. Qed.

Definition with_numbers (c c0 : NodeConfig) : NodeConfig :=
  mkNodeConfig (cfg_genesis_timestamp c) (cfg_block_subsidy c) (cfg_max_block_size_bytes c)
    (cfg_mine_blocks c) (cfg_mine_after_tx c) (cfg_relay_blocks_after_tx c) (cfg_relay_max_sessions c)
    (cfg_coinbase_maturity c) (cfg_listen_port c0) (cfg_peer_port c0) (cfg_log_level c0) (cfg_listen_enabled c0)
    (cfg_persist c0) (cfg_restore c0) (cfg_network_mode c0) (cfg_node_id c0) (cfg_data_dir c0)
    (cfg_coinbase_recipient_hex c0) (cfg_listen_host c0) (cfg_peer_host c0) (cfg_port_file c0)
    (cfg_announce_tx_files c0) (cfg_mempool_max_transactions c) (cfg_mempool_max_bytes c)
    (cfg_min_relay_feerate c).

Lemma numeric_args_read c c0 rest : config_typed c →
  parse_flags (numeric_args c ++ rest) c0 = parse_flags rest (with_numbers c c0).
Proof.
  intros Hc. unfold config_typed in Hc. destruct_and!. unfold numeric_args. cbn [app].
  rewrite (u64_step _ set_genesis_timestamp) by done.
  rewrite (u64_step _ (λ v, set_max_block_size_bytes (wrap32 v))) by (done || solve_u). rewrite wrap32_small by done.
  rewrite (u32_step _ set_mine_after_tx) by done. rewrite (u32_step _ set_relay_max_sessions) by done.
  rewrite (u32_step _ set_relay_blocks_after_tx) by done. rewrite (u32_step _ set_mempool_max_transactions) by done.
  rewrite (u64_step _ set_mempool_max_bytes) by done. rewrite (u64_step _ set_min_relay_feerate) by done.
  rewrite (u32_step _ set_mine_blocks) by done. rewrite (u64_step _ set_block_subsidy) by done.
  rewrite (u32_step _ set_coinbase_maturity) by done. done.
Qed.

Definition with_text (c c0 : NodeConfig) : NodeConfig :=
  set_network_mode (cfg_network_mode c) (set_port_file (cfg_port_file c) (set_listen_host (cfg_listen_host c)
    (set_coinbase_recipient_hex (cfg_coinbase_recipient_hex c) (set_log_level (cfg_log_level c)
      (set_data_dir (cfg_data_dir c) (set_node_id (cfg_node_id c) c0)))))).

Lemma text_args_read c c0 rest : parse_flags (text_args c ++ rest) c0 = parse_flags rest (with_text c c0).
Proof.
  unfold text_args. cbn [app]. do 2 erewrite flag_step by reflexivity || done.
  erewrite flag_step; [|reflexivity|reflexivity|done|cbn beta; rewrite parse_log_level_name; reflexivity].
  do 3 erewrite flag_step by reflexivity || done.
  erewrite flag_step; [|reflexivity|reflexivity|done|cbn beta; rewrite parse_network_mode_name; reflexivity].
  done.
Qed.

Lemma file_args_read files : ∀ c, parse_flags (file_args files) c =
  Ok (set_announce_tx_files (cfg_announce_tx_files c ++ files) c).
Proof.
  induction files as [|f files IH]; intros c; [rewrite app_nil_r; by destruct c|].
  change (file_args (f :: files)) with ("--announce-tx-file" :: f :: file_args files).
  erewrite flag_step by reflexivity || done. rewrite IH. cbn. by rewrite <- app_assoc.
Qed.

Definition with_listen (c c0 : NodeConfig) : NodeConfig :=
  if cfg_listen_enabled c then set_listen_enabled true (set_listen_port (cfg_listen_port c) c0) else c0.
Definition with_peer (c c0 : NodeConfig) : NodeConfig :=
  if cfg_peer_port c =? 0 then c0 else set_peer_port (cfg_peer_port c) (set_peer_host (cfg_peer_host c) c0).
Definition with_switches (c c0 : NodeConfig) : NodeConfig :=
  let c1 := if cfg_persist c then set_persist true c0 else c0 in
  if cfg_restore c then set_restore true c1 else c1.

Lemma listen_args_read c c0 rest : is_u16 (cfg_listen_port c) →
  parse_flags (listen_args c ++ rest) c0 = parse_flags rest (with_listen c c0).
Proof.
  intros Hl. unfold listen_args, with_listen. destruct (cfg_listen_enabled c); [|done]. cbn [app].
  rewrite (u32_step _ (λ v c, set_listen_enabled true (set_listen_port (wrap16 v) c))) by (done || solve_u).
  assert (wrap16 (cfg_listen_port c) = cfg_listen_port c) as -> by (apply Z.mod_small; exact Hl). done.
Qed.

Lemma peer_args_read c c0 rest : is_u16 (cfg_peer_port c) → (cfg_peer_port c = 0 ↔ cfg_peer_host c = "") →
  parse_flags (peer_args c ++ rest) c0 = parse_flags rest (with_peer c c0).
Proof.
  intros Hp Hpe. unfold peer_args, with_peer. destruct (cfg_peer_port c =? 0) eqn:E0; [done|]. cbn [app].
  eapply flag_step; [reflexivity|reflexivity|done|]. cbn beta.
  rewrite parse_peer_text by (done || lia || (intros E; apply Hpe in E; lia)). reflexivity.
Qed.

Lemma switch_args_read c c0 rest : parse_flags (switch_args c ++ rest) c0 = parse_flags rest (with_switches c c0).
Proof. unfold switch_args, with_switches. by destruct (cfg_persist c), (cfg_restore c). Qed.

Lemma args_no_config c : expressible c → Forall (λ s, s ≠ "--config") (args_of c).
Proof.
  intros [Hc _ _ _ [Hv Hf]%Forall_app]. unfold config_typed in Hc. destruct_and!.
  assert (∀ z, is_u32 z → is_u64 z) as H32 by (intros; solve_u). assert (∀ z, is_u16 z → is_u64 z) as H16 by (intros; solve_u).
  unfold args_of. rewrite !Forall_app. split_and!.
  - unfold numeric_args. repeat (constructor; [first [done|apply pretty_not_config; auto]|]). constructor.
  - unfold text_args. repeat match goal with H : Forall _ (_ :: _) |- _ => apply Forall_cons in H as [? H] end.
    repeat (constructor; [first [done|by destruct (cfg_log_level c)|by destruct (cfg_network_mode c)]|]). constructor.
  - unfold listen_args. case_match; [|constructor]. repeat (constructor; [done || (apply pretty_not_config; auto)|]).
    constructor.
  - unfold peer_args. case_match; [constructor|]. repeat (constructor; [done || apply peer_not_config|]). constructor.
  - unfold switch_args. by destruct (cfg_persist c), (cfg_restore c); repeat constructor.
  - clear - Hf. induction Hf as [|f files Hff _ IH]; [constructor|].
    change (file_args (f :: files)) with ("--announce-tx-file" :: f :: file_args files). by repeat constructor.
Qed.

Lemma fields_read c : expressible c →
  let c0 := with_switches c (with_peer c (with_listen c (with_text c (with_numbers c default_config)))) in
  set_announce_tx_files (cfg_announce_tx_files c0 ++ cfg_announce_tx_files c) c0 = c.
Proof.
  intros [_ _ Hli Hpe _]. destruct c. unfold with_switches, with_peer, with_listen. cbn in *. destruct (_ =? 0) eqn:E0.
  - assert (cfg_peer_port = 0) as E by lia. rewrite (proj1 Hpe E), E.
    destruct cfg_listen_enabled; [|rewrite Hli by done]; by destruct cfg_persist, cfg_restore.
  - destruct cfg_listen_enabled; [|rewrite Hli by done]; by destruct cfg_persist, cfg_restore.
Qed.

Lemma args_of_read c : expressible c → parse_flags (args_of c) default_config = Ok c.
Proof.
  intros Hc. unfold args_of.
  etrans; [exact (numeric_args_read c default_config _ (ex_typed c Hc))|].
  etrans; [exact (text_args_read c _ _)|]. etrans; [apply listen_args_read, Hc|].
  etrans; [apply peer_args_read; apply Hc|]. etrans; [exact (switch_args_read c _ _)|].
  etrans; [exact (file_args_read _ _)|]. exact (f_equal Ok (fields_read c Hc)).
Qed.

Lemma parse_args_Ok io args d c :
  config_file_path args None = Ok None → parse_flags args default_config = Ok c → validate c = Ok tt →
  parse_args io args d = Ok c.
Proof. intros H1 H2 H3. unfold parse_args. rewrite H1. rsimpl. rewrite H2. rsimpl. by rewrite H3. Qed.

(** An expressible configuration survives the command line. *)
Lemma parse_args_of io c d : expressible c → parse_args io (args_of c) d = Ok c.
Proof.
  intros Hc. apply (parse_args_Ok _ (args_of c)); [|by apply args_of_read|apply validate_Ok, Hc].
  apply config_file_path_none, args_no_config, Hc.
Qed.
