(* ===== verification/P2pPayloads.v ===== *)
(** * Payloads of peer-to-peer messages ([include/blockchain/net/p2p_payloads.hpp],
    [src/net/p2p_payloads.cpp])

    [std::string] fields are byte strings.  A [deserialize_*] function of the sources
    is a reader followed by [expect_end], the [parse_all] of the byte-level library. *)

From S2P Require Import Prelude Errors Sha256 ByteIO Transaction P2pMessage.

Definition kMaxNodeIdBytes : Z := 64.
Definition kMaxRejectReasonBytes : Z := 256.

(** ** Bounded byte strings *)

Definition put_node_id (id : list byte) (w : ByteWriter) : Result ByteWriter :=
  if size_z id =? 0 then make_error kInvalidMessage "node_id must not be empty"
  else if kMaxNodeIdBytes <? size_z id
  then make_error kInvalidMessage "node_id exceeds maximum length"
  else mret (put_var_bytes id w).

Definition get_node_id (r : ByteReader) : Result (list byte * ByteReader) :=
  '(raw, r) ← get_var_bytes kMaxNodeIdBytes r;
  if size_z raw =? 0 then make_error kInvalidMessage "node_id must not be empty"
  else mret (raw, r).

Definition put_reason (reason : list byte) (w : ByteWriter) : Result ByteWriter :=
  if kMaxRejectReasonBytes <? size_z reason
  then make_error kInvalidMessage "reject reason exceeds maximum length"
  else mret (put_var_bytes reason w).

Definition get_reason (r : ByteReader) : Result (list byte * ByteReader) :=
  get_var_bytes kMaxRejectReasonBytes r.

Definition put_blob (bytes : list byte) (max_len : Z) (label : string) (w : ByteWriter)
    : Result ByteWriter :=
  if size_z bytes =? 0 then make_error kInvalidMessage (label +:+ " must not be empty")
  else if max_len <? size_z bytes
  then make_error kInvalidMessage (label +:+ " exceeds maximum encoded length")
  else mret (put_var_bytes bytes w).

Definition get_blob (max_len : Z) (label : string) (r : ByteReader) : Result (list byte * ByteReader) :=
  '(raw, r) ← get_var_bytes max_len r;
  if size_z raw =? 0 then make_error kInvalidMessage (label +:+ " must not be empty")
  else mret (raw, r).

(** ** Reject codes *)

Inductive RejectCode :=
  | rcProtocolMismatch
  | rcInvalidMessage
  | rcDuplicate
  | rcTooBusy
  | rcInternal.

#[global] Instance RejectCode_eq_dec : EqDecision RejectCode.
Proof. solve_decision. Defined.

Definition reject_value (code : RejectCode) : Z :=
  match code with
  | rcProtocolMismatch => 1
  | rcInvalidMessage => 2
  | rcDuplicate => 3
  | rcTooBusy => 4
  | rcInternal => 5
  end.

Definition reject_name (code : RejectCode) : string :=
  match code with
  | rcProtocolMismatch => "ProtocolMismatch"
  | rcInvalidMessage => "InvalidMessage"
  | rcDuplicate => "Duplicate"
  | rcTooBusy => "TooBusy"
  | rcInternal => "Internal"
  end.

Definition parse_reject_code (raw : Z) : Result RejectCode :=
  if raw =? 1 then mret rcProtocolMismatch
  else if raw =? 2 then mret rcInvalidMessage
  else if raw =? 3 then mret rcDuplicate
  else if raw =? 4 then mret rcTooBusy
  else if raw =? 5 then mret rcInternal
  else make_error kInvalidMessage ("unknown reject code: " +:+ std_to_string raw).

Definition expect_exact_size (bytes : list byte) (expected : Z) : Result unit :=
  if negb (size_z bytes =? expected) then make_error kInvalidMessage "unexpected payload size"
  else mret tt.

Definition wrong_message_type {T} : Result T :=
  make_error kInvalidMessage "unexpected P2P message type".

(** ** Handshake *)

Record HandshakePayload := mkHandshake {
  hs_network_magic : Z;
  hs_height : Z;
  hs_tip_hash : Hash256;
  hs_node_id : list byte;
}.

Definition serialize_handshake (p : HandshakePayload) : Result (list byte) :=
  let w := put_u32 (hs_network_magic p) empty_writer in
  let w := put_u32 (hs_height p) w in
  let w := put_hash (hs_tip_hash p) w in
  w ← put_node_id (hs_node_id p) w;
  mret (wbuffer_ w).

Definition read_handshake (r : ByteReader) : Result (HandshakePayload * ByteReader) :=
  '(magic, r) ← get_u32 r;
  if negb (magic =? kNetworkMagic)
  then make_error kInvalidMessage "handshake network magic mismatch"
  else
    '(height, r) ← get_u32 r;
    '(tip, r) ← get_hash r;
    '(node_id, r) ← get_node_id r;
    mret (mkHandshake magic height tip node_id, r).

Definition deserialize_handshake (bytes : list byte) : Result HandshakePayload :=
  parse_all read_handshake bytes.

Definition make_handshake_message (p : HandshakePayload) : Result P2pMessage :=
  bytes ← serialize_handshake p;
  mret (mkP2pMessage kProtocolVersion kHandshake bytes).

Definition parse_handshake_message (message : P2pMessage) : Result HandshakePayload :=
  if decide (m_type message = kHandshake) then deserialize_handshake (m_payload message)
  else wrong_message_type.

(** ** Reject *)

Record RejectPayload := mkReject { rj_code : RejectCode; rj_reason : list byte }.

Definition serialize_reject (p : RejectPayload) : Result (list byte) :=
  let w := put_u16 (reject_value (rj_code p)) empty_writer in
  w ← put_reason (rj_reason p) w;
  mret (wbuffer_ w).

Definition read_reject (r : ByteReader) : Result (RejectPayload * ByteReader) :=
  '(code_raw, r) ← get_u16 r;
  code ← parse_reject_code code_raw;
  '(reason, r) ← get_reason r;
  mret (mkReject code reason, r).

Definition deserialize_reject (bytes : list byte) : Result RejectPayload :=
  parse_all read_reject bytes.

Definition make_reject_message (p : RejectPayload) : Result P2pMessage :=
  bytes ← serialize_reject p;
  mret (mkP2pMessage kProtocolVersion kReject bytes).

Definition parse_reject_message (message : P2pMessage) : Result RejectPayload :=
  if decide (m_type message = kReject) then deserialize_reject (m_payload message)
  else wrong_message_type.

(** ** Ping and pong *)

Record PingPayload := mkPing { nonce : Z }.

Definition serialize_ping (p : PingPayload) : list byte := wbuffer_ (put_u64 (nonce p) empty_writer).

Definition read_ping (r : ByteReader) : Result (PingPayload * ByteReader) :=
  '(nonce, r) ← get_u64 r;
  mret (mkPing nonce, r).

Definition deserialize_ping (bytes : list byte) : Result PingPayload :=
  _ ← expect_exact_size bytes 8;
  parse_all read_ping bytes.

Definition make_ping_message (p : PingPayload) : Result P2pMessage :=
  mret (mkP2pMessage kProtocolVersion kPing (serialize_ping p)).

Definition parse_ping_message (message : P2pMessage) : Result PingPayload :=
  if decide (m_type message = kPing) then deserialize_ping (m_payload message)
  else wrong_message_type.

Definition serialize_pong (p : PingPayload) : list byte := serialize_ping p.
Definition deserialize_pong (bytes : list byte) : Result PingPayload := deserialize_ping bytes.

Definition make_pong_message (p : PingPayload) : Result P2pMessage :=
  mret (mkP2pMessage kProtocolVersion kPong (serialize_pong p)).

Definition parse_pong_message (message : P2pMessage) : Result PingPayload :=
  if decide (m_type message = kPong) then deserialize_pong (m_payload message)
  else wrong_message_type.

(** ** Transactions and blocks *)

Record TxAnnouncePayload := mkTxAnnounce { tx_bytes : list byte }.

Definition serialize_tx_announce (p : TxAnnouncePayload) : Result (list byte) :=
  w ← put_blob (tx_bytes p) kMaxTransactionSizeBytes "tx_bytes" empty_writer;
  mret (wbuffer_ w).

Definition read_tx_announce (r : ByteReader) : Result (TxAnnouncePayload * ByteReader) :=
  '(raw, r) ← get_blob kMaxTransactionSizeBytes "tx_bytes" r;
  mret (mkTxAnnounce raw, r).

Definition deserialize_tx_announce (bytes : list byte) : Result TxAnnouncePayload :=
  parse_all read_tx_announce bytes.

Definition make_tx_announce_message (p : TxAnnouncePayload) : Result P2pMessage :=
  body ← serialize_tx_announce p;
  mret (mkP2pMessage kProtocolVersion kTxAnnounce body).

Definition parse_tx_announce_message (message : P2pMessage) : Result TxAnnouncePayload :=
  if decide (m_type message = kTxAnnounce) then deserialize_tx_announce (m_payload message)
  else wrong_message_type.

Record BlockAnnouncePayload := mkBlockAnnounce { block_bytes : list byte }.

Definition serialize_block_announce (p : BlockAnnouncePayload) : Result (list byte) :=
  w ← put_blob (block_bytes p) kMaxBlockSizeBytes "block_bytes" empty_writer;
  mret (wbuffer_ w).

Definition read_block_announce (r : ByteReader) : Result (BlockAnnouncePayload * ByteReader) :=
  '(raw, r) ← get_blob kMaxBlockSizeBytes "block_bytes" r;
  mret (mkBlockAnnounce raw, r).

Definition deserialize_block_announce (bytes : list byte) : Result BlockAnnouncePayload :=
  parse_all read_block_announce bytes.

Definition make_block_announce_message (p : BlockAnnouncePayload) : Result P2pMessage :=
  body ← serialize_block_announce p;
  mret (mkP2pMessage kProtocolVersion kBlockAnnounce body).

Definition parse_block_announce_message (message : P2pMessage) : Result BlockAnnouncePayload :=
  if decide (m_type message = kBlockAnnounce) then deserialize_block_announce (m_payload message)
  else wrong_message_type.

Record BlockRequestPayload := mkBlockRequest { br_height : Z }.

Definition serialize_block_request (p : BlockRequestPayload) : list byte :=
  wbuffer_ (put_u32 (br_height p) empty_writer).

Definition read_block_request (r : ByteReader) : Result (BlockRequestPayload * ByteReader) :=
  '(height, r) ← get_u32 r;
  mret (mkBlockRequest height, r).

Definition deserialize_block_request (bytes : list byte) : Result BlockRequestPayload :=
  parse_all read_block_request bytes.

Definition make_block_request_message (p : BlockRequestPayload) : Result P2pMessage :=
  mret (mkP2pMessage kProtocolVersion kBlockRequest (serialize_block_request p)).

Definition parse_block_request_message (message : P2pMessage) : Result BlockRequestPayload :=
  if decide (m_type message = kBlockRequest) then deserialize_block_request (m_payload message)
  else wrong_message_type.

Definition serialize_block_response (p : BlockAnnouncePayload) : Result (list byte) :=
  serialize_block_announce p.
Definition deserialize_block_response (bytes : list byte) : Result BlockAnnouncePayload :=
  deserialize_block_announce bytes.

Definition make_block_response_message (p : BlockAnnouncePayload) : Result P2pMessage :=
  body ← serialize_block_response p;
  mret (mkP2pMessage kProtocolVersion kBlockResponse body).

Definition parse_block_response_message (message : P2pMessage) : Result BlockAnnouncePayload :=
  if decide (m_type message = kBlockResponse) then deserialize_block_response (m_payload message)
  else wrong_message_type.

(** ** Codecs *)

Definition blob_wf (max_len : Z) (bs : list byte) : Prop := bs ≠ [] ∧ size_z bs ≤ max_len.

Lemma size_nonempty (bs : list byte) : (size_z bs =? 0) = false ↔ bs ≠ [].
Proof. destruct bs as [|b bs]; [done|]. split; [done|]. intros _. apply Z.eqb_neq. rewrite length_cons. lia. Qed.

#[global] Instance codec_blob max_len label :
  TCEq (max_len <? 2 ^ 32) true → CodecOk (blob_wf max_len) enc_var_bytes (get_blob max_len label).
Proof.
  intros Hmax. split.
  - intros bs pre suf [Hne Hsz]. unfold get_blob.
    rewrite (codec_get (get := get_var_bytes max_len)) by done. rsimpl.
    by rewrite (proj2 (size_nonempty bs) Hne).
  - intros pre suf bs r H. unfold get_blob in H. apply bind_Ok in H as ([raw r'] & H1 & H).
    apply codec_inv in H1 as (suf' & -> & -> & Hsz).
    destruct (size_z raw =? 0) eqn:E; [discriminate H|]. injection H as <- <-.
    apply size_nonempty in E. exists suf'. by split_and!.
Qed.

#[global] Instance codec_node_id : CodecOk (blob_wf kMaxNodeIdBytes) enc_var_bytes get_node_id.
Proof.
  destruct (codec_blob kMaxNodeIdBytes "node_id" ltac:(constructor)) as [Hg Hi].
  split; [exact Hg|exact Hi].
Qed.

#[global] Instance codec_reason :
  CodecOk (var_bytes_wf kMaxRejectReasonBytes) enc_var_bytes get_reason.
Proof. apply codec_var_bytes. constructor. Qed.

Definition handshake_wf (p : HandshakePayload) : Prop :=
  hs_network_magic p = kNetworkMagic ∧ is_u32 (hs_height p) ∧ hash_wf (hs_tip_hash p) ∧
  blob_wf kMaxNodeIdBytes (hs_node_id p).
Definition enc_handshake (p : HandshakePayload) : list byte :=
  le_bytes 4 (hs_network_magic p) ++ le_bytes 4 (hs_height p) ++ hs_tip_hash p ++
  enc_var_bytes (hs_node_id p).

#[global] Instance codec_handshake : CodecOk handshake_wf enc_handshake read_handshake.
Proof.
  split.
  - intros [mg h t id] pre suf (Hm & Hh & Ht & Hid); cbn in *. subst mg.
    unfold enc_handshake, read_handshake; cbn. read_ok. rewrite Z.eqb_refl. cbn [negb].
    do 3 read_ok. by rewrite <- !(assoc_L (++)).
  - intros pre suf p r H. unfold read_handshake in H. read_inv H.
    destruct (negb (v =? kNetworkMagic)) eqn:E; [discriminate H|]. apply negb_false_iff, Z.eqb_eq in E as ->.
    do 3 read_inv H. injection H as <- <-. exists_rest. unfold enc_handshake; cbn.
    rewrite <- !(assoc_L (++)). by split_and!.
Qed.

Lemma parse_reject_code_value code : parse_reject_code (reject_value code) = Ok code.
Proof. by destruct code. Qed.

Lemma parse_reject_code_Ok raw code : parse_reject_code raw = Ok code → raw = reject_value code.
Proof.
  unfold parse_reject_code. intros H. repeat case_match; try discriminate H; injection H as <-;
    by apply Z.eqb_eq.
Qed.

Definition reject_wf (p : RejectPayload) : Prop := var_bytes_wf kMaxRejectReasonBytes (rj_reason p).
Definition enc_reject (p : RejectPayload) : list byte :=
  le_bytes 2 (reject_value (rj_code p)) ++ enc_var_bytes (rj_reason p).

#[global] Instance codec_reject : CodecOk reject_wf enc_reject read_reject.
Proof.
  split.
  - intros [c s] pre suf Hs. unfold enc_reject, read_reject; cbn in *.
    assert (is_u16 (reject_value c)) by (by destruct c). read_ok.
    rewrite parse_reject_code_value. rsimpl. read_ok. by rewrite <- !(assoc_L (++)).
  - intros pre suf p r H. unfold read_reject in H. read_inv H.
    apply bind_Ok in H as (c & Hc%parse_reject_code_Ok & H). subst v. read_inv H. injection H as <- <-.
    exists_rest. unfold enc_reject; cbn. rewrite <- !(assoc_L (++)). by split_and!.
Qed.

Definition ping_wf (p : PingPayload) : Prop := is_u64 (nonce p).
Definition enc_ping (p : PingPayload) : list byte := le_bytes 8 (nonce p).

#[global] Instance codec_ping : CodecOk ping_wf enc_ping read_ping.
Proof.
  split.
  - intros [n] pre suf Hn. unfold read_ping, enc_ping, ping_wf in *; cbn in *. by read_ok.
  - intros pre suf p r H. unfold read_ping in H. read_inv H. injection H as <- <-. by exists_rest.
Qed.

Definition tx_announce_wf (p : TxAnnouncePayload) : Prop := blob_wf kMaxTransactionSizeBytes (tx_bytes p).
Definition enc_tx_announce (p : TxAnnouncePayload) : list byte := enc_var_bytes (tx_bytes p).

#[global] Instance codec_tx_announce : CodecOk tx_announce_wf enc_tx_announce read_tx_announce.
Proof.
  assert (TCEq (kMaxTransactionSizeBytes <? 2 ^ 32) true) as Hmax by constructor. split.
  - intros [b] pre suf Hb. unfold read_tx_announce, enc_tx_announce.
    rewrite (codec_get (get := get_blob _ _)) by done. done.
  - intros pre suf p r H. unfold read_tx_announce in H. read_inv H. injection H as <- <-. by exists_rest.
Qed.

Definition block_announce_wf (p : BlockAnnouncePayload) : Prop := blob_wf kMaxBlockSizeBytes (block_bytes p).
Definition enc_block_announce (p : BlockAnnouncePayload) : list byte := enc_var_bytes (block_bytes p).

#[global] Instance codec_block_announce : CodecOk block_announce_wf enc_block_announce read_block_announce.
Proof.
  assert (TCEq (kMaxBlockSizeBytes <? 2 ^ 32) true) as Hmax by constructor. split.
  - intros [b] pre suf Hb. unfold read_block_announce, enc_block_announce.
    rewrite (codec_get (get := get_blob _ _)) by done. done.
  - intros pre suf p r H. unfold read_block_announce in H. read_inv H. injection H as <- <-. by exists_rest.
Qed.

Definition block_request_wf (p : BlockRequestPayload) : Prop := is_u32 (br_height p).
Definition enc_block_request (p : BlockRequestPayload) : list byte := le_bytes 4 (br_height p).

#[global] Instance codec_block_request : CodecOk block_request_wf enc_block_request read_block_request.
Proof.
  split.
  - intros [n] pre suf Hn. unfold read_block_request, enc_block_request, block_request_wf in *; cbn in *.
    by read_ok.
  - intros pre suf p r H. unfold read_block_request in H. read_inv H. injection H as <- <-. by exists_rest.
Qed.

(** ** The contract of a payload: what the rest of the node relies on *)

Class PayloadOk {P} (type : P2pMessageType) (wf : P → Prop) (enc : P → list byte)
    (make : P → Result P2pMessage) (parse : P2pMessage → Result P) : Prop := {
  (** a well-formed payload has a message *)
  pay_make p : wf p → make p = Ok (mkP2pMessage kProtocolVersion type (enc p));
  (** a message parses to the payload it carries, and to nothing else *)
  pay_parse m p : parse m = Ok p ↔ m_type m = type ∧ m_payload m = enc p ∧ wf p;
}.

Lemma payload_intro {P} type (wf : P → Prop) enc get make parse `{!CodecOk wf enc get} :
  (∀ p, wf p → make p = Ok (mkP2pMessage kProtocolVersion type (enc p))) →
  (∀ m p, parse m = Ok p ↔ m_type m = type ∧ parse_all get (m_payload m) = Ok p) →
  PayloadOk type wf enc make parse.
Proof.
  intros Hmake Hparse. split; [done|]. intros m p. rewrite Hparse. split.
  - intros [Ht [Hp Hwf]%parse_all_inv]. done.
  - intros (Ht & -> & Hwf). split; [done|]. by apply parse_all_enc.
Qed.

Lemma typed_parse {P} type (f : list byte → Result P) m p :
  (if decide (m_type m = type) then f (m_payload m) else wrong_message_type) = Ok p ↔
  m_type m = type ∧ f (m_payload m) = Ok p.
Proof.
  case_decide; split; naive_solver.
Qed.

Lemma put_blob_Ok bs max_len label w :
  blob_wf max_len bs → put_blob bs max_len label w = Ok (mkWriter (wbuffer_ w ++ enc_var_bytes bs)).
Proof.
  intros [Hne Hsz]. unfold put_blob. rewrite (proj2 (size_nonempty bs) Hne).
  destruct (_ <? _) eqn:E; [lia|]. by rewrite put_var_bytes_spec.
Qed.

Lemma put_node_id_Ok id w :
  blob_wf kMaxNodeIdBytes id → put_node_id id w = Ok (mkWriter (wbuffer_ w ++ enc_var_bytes id)).
Proof.
  intros [Hne Hsz]. unfold put_node_id. rewrite (proj2 (size_nonempty id) Hne).
  destruct (_ <? _) eqn:E; [lia|]. by rewrite put_var_bytes_spec.
Qed.

#[global] Instance handshake_payload :
  PayloadOk kHandshake handshake_wf enc_handshake make_handshake_message parse_handshake_message.
Proof.
  eapply (payload_intro _ _ _ read_handshake); [apply _| |intros; apply typed_parse].
  intros p (_ & _ & _ & Hid). unfold make_handshake_message, serialize_handshake.
  rewrite put_node_id_Ok by done. rsimpl. autorewrite with writer.
  cbn [wbuffer_ empty_writer app]. unfold enc_handshake. by rewrite <- !(assoc_L (++)).
Qed.

#[global] Instance reject_payload :
  PayloadOk kReject reject_wf enc_reject make_reject_message parse_reject_message.
Proof.
  eapply (payload_intro _ _ _ read_reject); [apply _| |intros; apply typed_parse].
  intros p Hs. unfold make_reject_message, serialize_reject, put_reason.
  destruct (_ <? _) eqn:E; [unfold reject_wf, var_bytes_wf in Hs; lia|]. rsimpl. autorewrite with writer.
  cbn [wbuffer_ empty_writer app]. done.
Qed.

Lemma deserialize_ping_eq bytes p : deserialize_ping bytes = Ok p ↔ parse_all read_ping bytes = Ok p.
Proof.
  unfold deserialize_ping, expect_exact_size. split.
  - by intros ([] & _ & ?)%bind_Ok.
  - intros H. pose proof H as [-> _]%parse_all_inv. unfold enc_ping in *.
    rewrite length_le_bytes. done.
Qed.

#[global] Instance ping_payload : PayloadOk kPing ping_wf enc_ping make_ping_message parse_ping_message.
Proof.
  eapply (payload_intro _ _ _ read_ping).
  - apply _.
  - intros p _. unfold make_ping_message, serialize_ping. by autorewrite with writer.
  - intros m p. rewrite <- deserialize_ping_eq. apply typed_parse.
Qed.

#[global] Instance pong_payload : PayloadOk kPong ping_wf enc_ping make_pong_message parse_pong_message.
Proof.
  eapply (payload_intro _ _ _ read_ping).
  - apply _.
  - intros p _. unfold make_pong_message, serialize_pong, serialize_ping. by autorewrite with writer.
  - intros m p. rewrite <- deserialize_ping_eq. apply typed_parse.
Qed.

#[global] Instance tx_announce_payload :
  PayloadOk kTxAnnounce tx_announce_wf enc_tx_announce make_tx_announce_message parse_tx_announce_message.
Proof.
  eapply (payload_intro _ _ _ read_tx_announce); [apply _| |intros; apply typed_parse].
  intros p Hp. unfold make_tx_announce_message, serialize_tx_announce. by rewrite put_blob_Ok.
Qed.

#[global] Instance block_announce_payload :
  PayloadOk kBlockAnnounce block_announce_wf enc_block_announce make_block_announce_message
    parse_block_announce_message.
Proof.
  eapply (payload_intro _ _ _ read_block_announce); [apply _| |intros; apply typed_parse].
  intros p Hp. unfold make_block_announce_message, serialize_block_announce. by rewrite put_blob_Ok.
Qed.

#[global] Instance block_response_payload :
  PayloadOk kBlockResponse block_announce_wf enc_block_announce make_block_response_message
    parse_block_response_message.
Proof.
  eapply (payload_intro _ _ _ read_block_announce); [apply _| |intros; apply typed_parse].
  intros p Hp. unfold make_block_response_message, serialize_block_response, serialize_block_announce.
  by rewrite put_blob_Ok.
Qed.

#[global] Instance block_request_payload :
  PayloadOk kBlockRequest block_request_wf enc_block_request make_block_request_message
    parse_block_request_message.
Proof.
  eapply (payload_intro _ _ _ read_block_request); [apply _| |intros; apply typed_parse].
  intros p _. unfold make_block_request_message, serialize_block_request. by autorewrite with writer.
Qed.

(** A payload that fits an envelope survives the wire. *)
Lemma payload_roundtrip {P} type (wf : P → Prop) enc make parse `{!PayloadOk type wf enc make parse} p :
  wf p → size_z (enc p) ≤ kMaxP2pPayloadBytes →
  ∃ m, make p = Ok m ∧ message_deserialize (message_to_bytes m) = Ok m ∧ parse m = Ok p.
Proof.
  intros Hp Hsz. eexists. split; [by apply pay_make|]. split.
  - rewrite message_to_bytes_enc by done. by apply deserialize_enc.
  - by apply pay_parse.
Qed.
