(* ===== verification/NetTheorems.v ===== *)
(** * Properties of the peer-to-peer formats *)

From S2P Require Import Prelude Errors Sha256 ByteIO Transaction P2pMessage P2pPayloads.
From Stdlib Require Import Strings.Byte.

Definition sample_message : P2pMessage := mkP2pMessage kProtocolVersion kPong [x01; x02].

(** A message with a payload within the limit is decoded from its wire form, and any
    input that is decoded is the wire form of the message returned - magic, version, known
    type, length, checksum and no trailing byte - so decoding is canonical. *)
Theorem message_roundtrip (message : P2pMessage) (wire : list byte) :
  message_wf message →
  message_deserialize (message_to_bytes message) = Ok message ∧
  (message_deserialize wire = Ok message ↔ wire = message_to_bytes message) ∧
  size_z (message_to_bytes message) = kP2pEnvelopeOverhead + size_z (m_payload message).
Proof.
  intros Hm. rewrite message_to_bytes_enc by done. pose proof (deserialize_enc _ Hm) as He.
  split; [done|split; [split|apply length_enc_message]].
  - by intros [-> _]%deserialize_inv.
  - by intros ->.
Qed.

Lemma message_roundtrip_witness :
  message_deserialize (message_to_bytes sample_message) = Ok sample_message ∧
  (message_deserialize [] = Ok sample_message ↔ [] = message_to_bytes sample_message) ∧
  size_z (message_to_bytes sample_message) = kP2pEnvelopeOverhead + 2.
Proof. apply (message_roundtrip sample_message []). split; [reflexivity|vm_decide]. Defined.

(** The wire form of a payload: made into a message, sent, decoded and parsed. *)
Definition over_wire {P} (make : P → Result P2pMessage) (parse : P2pMessage → Result P) (p : P) : Result P :=
  m ← make p;
  m' ← message_deserialize (message_to_bytes m);
  parse m'.

Lemma over_wire_ok {P} type (wf : P → Prop) enc make parse `{!PayloadOk type wf enc make parse} p :
  wf p → size_z (enc p) ≤ kMaxP2pPayloadBytes → over_wire make parse p = Ok p.
Proof.
  intros Hp Hsz. destruct (payload_roundtrip type wf enc make parse p Hp Hsz) as (m & Hm & Hd & Hpa).
  unfold over_wire. rewrite Hm. rsimpl. rewrite Hd. rsimpl. done.
Qed.

Lemma size_enc_var_bytes bs : size_z (enc_var_bytes bs) = 4 + size_z bs.
Proof. unfold enc_var_bytes. rewrite length_app, length_le_bytes. lia. Qed.

(** Every payload the node sends arrives: handshakes, rejects, pings, pongs,
    transactions, block requests and blocks come back unchanged from the wire; a block
    only if its encoding leaves room for its length prefix. *)
Theorem payloads_survive_the_wire :
  (∀ p, handshake_wf p → over_wire make_handshake_message parse_handshake_message p = Ok p) ∧
  (∀ p, reject_wf p → over_wire make_reject_message parse_reject_message p = Ok p) ∧
  (∀ p, ping_wf p → over_wire make_ping_message parse_ping_message p = Ok p) ∧
  (∀ p, ping_wf p → over_wire make_pong_message parse_pong_message p = Ok p) ∧
  (∀ p, tx_announce_wf p → over_wire make_tx_announce_message parse_tx_announce_message p = Ok p) ∧
  (∀ p, block_request_wf p → over_wire make_block_request_message parse_block_request_message p = Ok p) ∧
  (∀ p, block_announce_wf p → size_z (block_bytes p) ≤ kMaxP2pPayloadBytes - 4 →
     over_wire make_block_announce_message parse_block_announce_message p = Ok p ∧
     over_wire make_block_response_message parse_block_response_message p = Ok p).
Proof.
  assert (kMaxP2pPayloadBytes = 1048576) as E by done. rewrite E.
  split; [|split; [|split; [|split; [|split; [|split]]]]]; intros p Hp;
    [..|intros Hsz; split]; (eapply over_wire_ok; [apply _|done|]); rewrite E.
  - destruct Hp as (_ & _ & Ht & _ & Hid). unfold enc_handshake. rewrite !length_app, !length_le_bytes.
    unfold hash_wf in Ht. rewrite Ht. pose proof (size_enc_var_bytes (hs_node_id p)).
    change kMaxNodeIdBytes with 64 in Hid. lia.
  - unfold enc_reject. rewrite length_app, length_le_bytes. pose proof (size_enc_var_bytes (rj_reason p)).
    unfold reject_wf, var_bytes_wf in Hp. change kMaxRejectReasonBytes with 256 in Hp. lia.
  - unfold enc_ping. by rewrite length_le_bytes.
  - unfold enc_ping. by rewrite length_le_bytes.
  - unfold enc_tx_announce. rewrite size_enc_var_bytes. destruct Hp as [_ Hp].
    change kMaxTransactionSizeBytes with 65536 in Hp. lia.
  - unfold enc_block_request. by rewrite length_le_bytes.
  - unfold enc_block_announce. rewrite size_enc_var_bytes. lia.
  - unfold enc_block_announce. rewrite size_enc_var_bytes. lia.
Qed.

(** C40: a block whose encoding is within four bytes of the block size limit can be put in
    a message but not taken out of it: the length prefix pushes the payload over the
    envelope limit, and every peer refuses the message. *)
Theorem full_block_cannot_be_relayed (p : BlockAnnouncePayload) :
  kMaxBlockSizeBytes - 4 < size_z (block_bytes p) ≤ kMaxBlockSizeBytes →
  ∃ m, make_block_response_message p = Ok m ∧
    fails_with kResourceLimitExceeded (message_deserialize (message_to_bytes m)).
Proof.
  intros Hsz. change kMaxBlockSizeBytes with 1048576 in Hsz.
  assert (block_announce_wf p) as Hp.
  { split; [intros E; rewrite E in Hsz; cbn in Hsz; lia|apply Hsz]. }
  eexists. split; [by apply (pay_make (parse := parse_block_response_message))|].
  assert (size_z (enc_block_announce p) = 4 + size_z (block_bytes p)) as Es by apply size_enc_var_bytes.
  apply oversize_rejected; cbn [m_version m_payload]; [done| |]; rewrite Es;
    change kMaxP2pPayloadBytes with 1048576; lia.
Qed.

Lemma full_block_cannot_be_relayed_witness :
  ∃ m, make_block_response_message (mkBlockAnnounce (replicate (Z.to_nat 1048575) x00)) = Ok m ∧
    fails_with kResourceLimitExceeded (message_deserialize (message_to_bytes m)).
Proof.
  apply full_block_cannot_be_relayed. cbn [block_bytes]. rewrite length_replicate.
  rewrite Z2Nat.id by lia. vm_decide.
Defined.
