(* ===== verification/Fuzz.v ===== *)
(** * The fuzz targets ([fuzz/])

    Each [LLVMFuzzerTestOneInput] is a function of its input: its return value, and next to
    it the values it computes and discards.  The targets state their goal in comments: what
    is accepted must serialise again and take no more room than the input. *)

From S2P Require Import Prelude Errors Sha256 ByteIO Transaction Block Utxo TxValidation BlockValidation Samples Mempool Chain ChainStore P2pMessage P2pPayloads NetTheorems.

Definition fuzz_deserialize_transaction (data : list byte) : Z * option (list byte * Hash256) :=
  match tx_deserialize (new_reader data) with
  | Ok (tx, _) => (0, Some (tx_to_bytes tx, txid tx))
  | Err _ => (0, None)
  end.

Definition fuzz_deserialize_block (data : list byte) : Z * option (list byte * Hash256) :=
  match block_deserialize (new_reader data) with
  | Ok (block, _) => (0, Some (block_to_bytes block, header_hash (header block)))
  | Err _ => (0, None)
  end.

Definition fuzz_p2p_message (data : list byte) : Z * option (list byte) :=
  match message_deserialize data with
  | Ok message => (0, Some (message_to_bytes message))
  | Err _ => (0, None)
  end.

Definition fuzz_p2p_handshake_payload (data : list byte) : Z * option (Result (list byte)) :=
  match deserialize_handshake data with
  | Ok payload => (0, Some (serialize_handshake payload))
  | Err _ => (0, None)
  end.

Definition fuzz_decode_ledger (data : list byte) : Z * Result LedgerData := (0, decode_ledger data).

Definition fuzz_mempool_admission (data : list byte) : Z * option (Result MempoolAdmission * (Mempool * Result unit)) :=
  match tx_deserialize (new_reader data) with
  | Err _ => (0, None)
  | Ok (tx, _) =>
      let utxos := ∅ in
      let pool := new_mempool (mkMempoolLimits 128 (Z.shiftl 1 20)) in
      let policy := mkMempoolPolicy 0 in
      (0, Some (validate_for_mempool tx utxos policy, accept tx utxos policy pool))
  end.

(** ** What is read comes from the input *)

Section Read.
Context {A : Type} {wf : A → Prop} {enc : A → list byte} {get : ByteReader → Result (A * ByteReader)}.
Context `{!CodecOk wf enc get}.

Lemma read_prefix data a r : get (new_reader data) = Ok (a, r) → enc a `prefix_of` data ∧ wf a.
Proof.
  rewrite new_reader_at. intros H. destruct (codec_inv _ _ _ _ H) as (suf & E & _ & Hwf).
  split; [by exists suf|exact Hwf].
Qed.
End Read.

Lemma header_prefix b data : header_wf (header b) → enc_block b `prefix_of` data →
  header_hash (header b) = sha256d (take 80 data).
Proof.
  intros Hh [suf ->]. unfold header_hash. rewrite header_serialize_spec. cbn [wbuffer_ empty_writer app]. apply (f_equal sha256d).
  pose proof (length_enc_header _ Hh) as Hl. unfold enc_block. rewrite <- (assoc_L (++)), take_app_le by lia.
  by rewrite take_ge by lia.
Qed.

Lemma serialize_handshake_enc p : handshake_wf p → serialize_handshake p = Ok (enc_handshake p).
Proof.
  intros Hp. pose proof (pay_make (PayloadOk := handshake_payload) p Hp) as H. unfold make_handshake_message in H.
  destruct (serialize_handshake p) as [bytes|e]; [|discriminate H]. injection H as ->. done.
Qed.

(** The encodings of the elements of a list take no more room than the list. *)
Lemma boxed_room {A} (enc : A → list byte) l :
  sum_z ((λ a, size_z (enc a)) <$> l) ≤ size_z (mjoin (enc_boxed enc <$> l)).
Proof.
  induction l as [|a l IH]; [done|]. change (mjoin (enc_boxed enc <$> a :: l)) with
    (enc_boxed enc a ++ mjoin (enc_boxed enc <$> l)).
  unfold enc_boxed, enc_var_bytes in *. rewrite !length_app, !Nat2Z.inj_add. cbn [fmap list_fmap sum_z]. lia.
Qed.

Definition ledger_room (l : LedgerData) : Z :=
  sum_z ((λ b, size_z (block_to_bytes b)) <$> l_blocks l) +
  sum_z ((λ tx, size_z (tx_to_bytes tx)) <$> l_mempool_transactions l).

Lemma decoded_room data l : decode_ledger data = Ok l → ledger_room l ≤ size_z data.
Proof.
  intros [_ H]%decode_ledger_inv. unfold ledger_room.
  assert ((λ b, size_z (block_to_bytes b)) <$> l_blocks l = (λ b, size_z (enc_block b)) <$> l_blocks l) as ->
    by (apply list_fmap_ext; intros; by rewrite block_to_bytes_enc).
  assert ((λ tx, size_z (tx_to_bytes tx)) <$> l_mempool_transactions l =
    (λ tx, size_z (enc_tx tx)) <$> l_mempool_transactions l) as ->
    by (apply list_fmap_ext; intros; by rewrite tx_to_bytes_enc).
  pose proof (boxed_room enc_block (l_blocks l)) as H1. pose proof (boxed_room enc_tx (l_mempool_transactions l)) as H2.
  destruct H as [->|[-> E]].
  - unfold enc_sealed, enc_body, enc_ledger_head. rewrite !length_app, !Nat2Z.inj_add. lia.
  - rewrite E in *. unfold enc_sealed, enc_ledger_head. rewrite !length_app, !Nat2Z.inj_add. cbn [fmap list_fmap sum_z]. lia.
Qed.

(** Nothing can be spent from an empty set of coins. *)
Lemma nothing_to_spend tx policy : ∃ e, validate_for_mempool tx ∅ policy = Err e.
Proof.
  unfold validate_for_mempool. destruct (check_transaction_sanity tx) as [[]|e] eqn:Es; [|by exists e]. rsimpl.
  destruct (is_coinbase tx); [by eexists|]. unfold check_transaction_inputs.
  unfold check_transaction_sanity in Es. destruct (inputs tx) as [|input ins]; [discriminate Es|].
  cbn [sum_inputs]. unfold utxo_find. rewrite lookup_empty. rsimpl. by eexists.
Qed.

(** ** What the targets are there to find does not exist *)

(** C26: whatever bytes a fuzz target is given.  A transaction or block it accepts
    serialises to the bytes it was read from, at the head of the input, and is hashed over
    them, a block over the first 80; an accepted message or handshake serialises to the
    whole input, which cannot fail; the blocks and transactions of an accepted ledger take
    no more room than the file.  The admission target is refused every transaction, with the
    error of the validation, and its pool stays empty: it starts from an empty set of coins. *)
Theorem fuzz_targets_canonical (data : list byte) :
  (∀ bytes id, (fuzz_deserialize_transaction data).2 = Some (bytes, id) →
     bytes `prefix_of` data ∧ id = sha256d bytes) ∧
  (∀ bytes id, (fuzz_deserialize_block data).2 = Some (bytes, id) →
     bytes `prefix_of` data ∧ id = sha256d (take 80 data)) ∧
  (∀ bytes, (fuzz_p2p_message data).2 = Some bytes → bytes = data) ∧
  (∀ r, (fuzz_p2p_handshake_payload data).2 = Some r → r = Ok data) ∧
  (∀ l, (fuzz_decode_ledger data).2 = Ok l → ledger_room l ≤ size_z data) ∧
  (∀ v pool r, (fuzz_mempool_admission data).2 = Some (v, (pool, r)) →
     ∃ e, v = Err e ∧ r = Err e ∧ pool = new_mempool (mkMempoolLimits 128 1048576)).
Proof.
  unfold fuzz_deserialize_transaction, fuzz_deserialize_block, fuzz_p2p_message, fuzz_p2p_handshake_payload,
    fuzz_decode_ledger, fuzz_mempool_admission. split_and!.
  - intros bytes id. destruct (tx_deserialize _) as [[tx r]|e] eqn:E; cbn [snd]; [|discriminate].
    intros H. injection H as <- <-. apply read_prefix in E as [E _]. split; [by rewrite tx_to_bytes_enc|reflexivity].
  - intros bytes id. destruct (block_deserialize _) as [[b r]|e] eqn:E; cbn [snd]; [|discriminate].
    intros H. injection H as <- <-. apply read_prefix in E as [E [Hh _]]. rewrite block_to_bytes_enc.
    split; [exact E|exact (header_prefix b data Hh E)].
  - intros bytes. destruct (message_deserialize data) as [m|e] eqn:E; cbn [snd]; [|discriminate].
    intros H. injection H as <-. apply deserialize_inv in E as [-> Hm]. by apply message_to_bytes_enc.
  - intros r. destruct (deserialize_handshake data) as [p|e] eqn:E; cbn [snd]; [|discriminate].
    intros H. injection H as <-. apply parse_all_inv in E as [-> Hp]. by apply serialize_handshake_enc.
  - intros l. apply decoded_room.
  - intros v pool r. destruct (tx_deserialize _) as [[tx r0]|e] eqn:E; cbn [snd]; [|discriminate].
    destruct (nothing_to_spend tx (mkMempoolPolicy 0)) as [e He]. unfold accept. rewrite He.
    intros H. injection H as <- <- <-. by exists e.
Qed.

Lemma fuzz_targets_canonical_witness :
  ∃ bytes, (fuzz_p2p_message (message_to_bytes sample_message)).2 = Some bytes ∧ bytes = message_to_bytes sample_message.
Proof.
  exists (message_to_bytes sample_message).
  assert ((fuzz_p2p_message (message_to_bytes sample_message)).2 = Some (message_to_bytes sample_message)) as E.
  { unfold fuzz_p2p_message. rewrite message_to_bytes_enc, deserialize_enc by done. cbn [snd].
    by rewrite message_to_bytes_enc. }
  split; [exact E|]. destruct (fuzz_targets_canonical (message_to_bytes sample_message)) as (_ & _ & H & _). exact (H _ E).
Defined.
