(* ===== verification/PeerState.v ===== *)
(** * The state of a relay node
    ([include/blockchain/node/peer_state.hpp], [src/node/peer_state.cpp], [genesis.hpp],
    [src/node/genesis.cpp])

    [PeerState] is the object; [World] is the file system with the number of ledger
    accesses made so far, the [n]-th of which gets the answers [ios n] of the system.
    Handlers are methods over [Node], the object in its world. *)

From S2P Require Import Prelude Errors Sha256 ByteIO Transaction Block Utxo TxValidation BlockValidation Mempool Chain BlockBuilder ChainStore P2pMessage P2pPayloads Effects Text Config.

Definition build_genesis_block (config : NodeConfig) : Block :=
  mkBlock (mkBlockHeader kBlockVersion zero_hash (compute_merkle_root []) (cfg_genesis_timestamp config) 0) [].

Record PeerState := mkPeerState {
  chain_ : Chain;
  mempool_ : Mempool;
  mempool_policy_ : MempoolPolicy;
  node_id_ : string;
  genesis_timestamp_ : Z;
  consensus_ : ConsensusParams;
  tmpl_params_ : BlockTemplateParams;
  data_dir_ : string;
  persist_ : bool;
  mine_after_tx_ : Z;
  catalog_ : gmap Z Block;
}.

Record World := mkWorld { w_disk : Disk; w_calls : nat }.

Abbreviation Node := (PeerState * World)%type.

(** Characters of a [std::string] as bytes. *)
Definition bytes_of (s : string) : list byte := String.list_byte_of_string s.

(** ** Settings *)

Definition build_consensus_params (config : NodeConfig) : ConsensusParams :=
  mkConsensusParams
    (if negb (cfg_block_subsidy config =? 0) then cfg_block_subsidy config else kDefaultBlockSubsidy)
    (if negb (cfg_coinbase_maturity config =? 0) then cfg_coinbase_maturity config else kDefaultCoinbaseMaturity).

Definition resolve_coinbase_recipient (config : NodeConfig) : Result Hash256 :=
  if bool_decide (cfg_coinbase_recipient_hex config = "") then mret zero_hash
  else hash_from_hex (cfg_coinbase_recipient_hex config).

Definition build_template_params (config : NodeConfig) (consensus : ConsensusParams) (recipient : Hash256)
    : BlockTemplateParams :=
  mkBlockTemplateParams kBlockVersion
    (if negb (cfg_max_block_size_bytes config =? 0) then cfg_max_block_size_bytes config else kMaxBlockSizeBytes)
    kMaxTransactionsPerBlock consensus recipient.

Definition block_timestamp (genesis_timestamp height : Z) : Z := wrap64 (genesis_timestamp + height).

Definition parse_block_bytes (bytes : list byte) : Result Block :=
  '(block, r) ← block_deserialize (new_reader bytes);
  _ ← expect_end r;
  mret block.

Definition parse_transaction_bytes (bytes : list byte) : Result Transaction :=
  '(tx, r) ← tx_deserialize (new_reader bytes);
  _ ← expect_end r;
  mret tx.

Definition send_reject {S} (code : RejectCode) (reason : string) : CR S unit :=
  msg ← fail_with (make_reject_message (mkReject code (bytes_of reason)));
  conn_send msg.

(** ** Operations on the object *)

Definition set_chain_pool (chain : Chain) (pool : Mempool) (s : PeerState) : PeerState :=
  mkPeerState chain pool (mempool_policy_ s) (node_id_ s) (genesis_timestamp_ s) (consensus_ s) (tmpl_params_ s)
    (data_dir_ s) (persist_ s) (mine_after_tx_ s) (catalog_ s).

Definition store_block (height : Z) (block : Block) (s : PeerState) : PeerState :=
  mkPeerState (chain_ s) (mempool_ s) (mempool_policy_ s) (node_id_ s) (genesis_timestamp_ s) (consensus_ s)
    (tmpl_params_ s) (data_dir_ s) (persist_ s) (mine_after_tx_ s) (<[height := block]> (catalog_ s)).

Definition peer_height (s : PeerState) : Z := height (tip_ (chain_ s)).
Definition peer_tip_hash (s : PeerState) : Hash256 := header_hash (tip_ (chain_ s)).
Definition mempool_contains (id : Hash256) (s : PeerState) : bool := pool_contains id (mempool_ s).
Definition block_at_height (height : Z) (s : PeerState) : option Block := catalog_ s !! height.
Definition ledger_blocks (s : PeerState) : list Block := (in_order Z.ltb (catalog_ s)).*2.

Definition peer_local_handshake (s : PeerState) : HandshakePayload :=
  mkHandshake kNetworkMagic (peer_height s) (peer_tip_hash s) (bytes_of (node_id_ s)).

Section Handlers.
Context (ios : nat → Io).

(** [PeerState::save_ledger] *)
Definition peer_save_ledger : SR Node unit := λ '(s, w),
  let '(d, r) := save_ledger (ios (w_calls w)) (data_dir_ s) (ledger_blocks s) (consensus_ s)
                   (sorted_transactions (mempool_ s)) (w_disk w) in
  ((s, mkWorld d (S (w_calls w))), r).

Definition persist_ledger : SR Node unit := λ n,
  if negb (persist_ n.1) then (n, Ok tt) else peer_save_ledger n.

(** [PeerState::connect_block]; the block is stored at the new height of the chain. *)
Definition peer_connect_block (block : Block) : SR Node unit := λ '(s, w),
  match submit_block block (Some (mempool_ s)) (chain_ s) with
  | (chain, pool, r) =>
      let s := set_chain_pool chain (default (mempool_ s) pool) s in
      match r with
      | Err e => ((s, w), Err e)
      | Ok _ => ((store_block (peer_height s) block s, w), Ok tt)
      end
  end.

(** One iteration of the loop of [mine_blocks]. *)
Definition mine_one : SR Node unit := λ '(s, w),
  let timestamp := block_timestamp (genesis_timestamp_ s) (wrap32 (peer_height s + 1)) in
  match build_block_template (tip_ (chain_ s)) timestamp (mempool_ s) (utxos_ (chain_ s)) (tmpl_params_ s) with
  | Err e => ((s, w), Err e)
  | Ok tmpl => peer_connect_block (bt_block tmpl) (s, w)
  end.

Fixpoint mine_loop (count : nat) : SR Node unit :=
  match count with
  | O => mret tt
  | S count => _ ← mine_one; mine_loop count
  end.

Definition mine_blocks (count : Z) : SR Node unit := _ ← mine_loop (Z.to_nat count); persist_ledger.

Definition accept_transaction (tx : Transaction) : SR Node unit := λ '(s, w),
  let '(pool, r) := accept tx (utxos_ (chain_ s)) (mempool_policy_ s) (mempool_ s) in
  ((set_chain_pool (chain_ s) pool s, w), r).

(** ** Inbound messages *)

Definition on_tx_announce (payload : list byte) : SR Node unit :=
  parsed ← lift (deserialize_tx_announce payload);
  tx ← lift (parse_transaction_bytes (tx_bytes parsed));
  _ ← accept_transaction tx;
  after ← reads (λ n, mine_after_tx_ n.1);
  if 0 <? after then mine_blocks after else mret tt.

Definition on_block_announce (payload : list byte) : SR Node unit :=
  parsed ← lift (deserialize_block_announce payload);
  block ← lift (parse_block_bytes (block_bytes parsed));
  _ ← peer_connect_block block;
  persist_ledger.

Definition on_block_request (request : BlockRequestPayload) : CR Node unit :=
  block ← silent (reads (λ n, block_at_height (br_height request) n.1));
  match block with
  | None => send_reject rcInvalidMessage "unknown block height"
  | Some block =>
      msg ← fail_with (make_block_response_message (mkBlockAnnounce (block_to_bytes block)));
      conn_send msg
  end.

Definition on_block_response (payload : list byte) : SR Node unit := on_block_announce payload.

Definition handle_message (m : P2pMessage) : CR Node unit :=
  match m_type m with
  | kTxAnnounce =>
      _ ← fail_with (parse_tx_announce_message m);
      catch (silent (on_tx_announce (m_payload m))) (λ ok,
        match ok with
        | Ok _ => mret tt
        | Err e => _ ← send_reject rcInvalidMessage (message e); fail_with (Err e)
        end)
  | kBlockAnnounce =>
      _ ← fail_with (parse_block_announce_message m);
      silent (on_block_announce (m_payload m))
  | kBlockRequest =>
      parsed ← fail_with (parse_block_request_message m);
      on_block_request parsed
  | kBlockResponse =>
      _ ← fail_with (parse_block_response_message m);
      silent (on_block_response (m_payload m))
  | kPing =>
      ping ← fail_with (parse_ping_message m);
      pong ← fail_with (make_pong_message (mkPing (nonce ping)));
      conn_send pong
  | kPong => mret tt
  | _ =>
      _ ← send_reject rcInvalidMessage "unsupported message type";
      fail_with (make_error kInvalidMessage "unsupported message type")
  end.

(** ** Construction *)

(** The loop of [from_config] over the stored transactions. *)
Fixpoint restore_transactions (txs : list Transaction) : SR Node unit :=
  match txs with
  | [] => mret tt
  | tx :: txs => λ n,
      match accept_transaction tx n with
      | (n', Ok _) => restore_transactions txs n'
      | (n', Err e) =>
          (n', make_error kStorageCorruption
                 ("stored mempool transaction failed re-validation: " +:+ message e))
      end
  end.

Definition store_blocks (blocks : list Block) (s : PeerState) : PeerState :=
  foldl (λ s b, store_block (height (header b)) b s) s blocks.

(** The constructor of [PeerState], with an empty catalog. *)
Definition new_state (config : NodeConfig) (chain : Chain) (consensus : ConsensusParams)
    (tmpl_params : BlockTemplateParams) : PeerState :=
  mkPeerState chain (new_mempool (resolved_mempool_limits config)) (resolved_mempool_policy config)
    (cfg_node_id config) (cfg_genesis_timestamp config) consensus tmpl_params (cfg_data_dir config)
    (cfg_persist config) (cfg_mine_after_tx config) ∅.

(** Reads of the ledger: one access to the file system each. *)
Definition next_call (w : World) : World := mkWorld (w_disk w) (S (w_calls w)).

Definition from_config (config : NodeConfig) (w : World) : World * Result PeerState :=
  let consensus := build_consensus_params config in
  match resolve_coinbase_recipient config with
  | Err e => (w, Err e)
  | Ok recipient =>
      let tmpl_params := build_template_params config consensus recipient in
      if cfg_restore config then
        if negb (ledger_exists (cfg_data_dir config) (w_disk w))
        then (w, make_error kInvalidConfig "no ledger found in data_dir for --restore")
        else
          match load_chain (ios (w_calls w)) (cfg_data_dir config) (w_disk w) with
          | Err e => (next_call w, Err e)
          | Ok chain =>
              match load_ledger (ios (S (w_calls w))) (cfg_data_dir config) (w_disk w) with
              | Err e => (next_call (next_call w), Err e)
              | Ok ledger =>
                  let s := store_blocks (l_blocks ledger) (new_state config chain consensus tmpl_params) in
                  match restore_transactions (l_mempool_transactions ledger) (s, next_call (next_call w)) with
                  | ((s, w), Ok _) => (w, Ok s)
                  | ((_, w), Err e) => (w, Err e)
                  end
              end
          end
      else
        let genesis := build_genesis_block config in
        match create genesis consensus with
        | Err e => (w, Err e)
        | Ok chain =>
            let s := store_block 0 genesis (new_state config chain consensus tmpl_params) in
            match (_ ← mine_blocks (cfg_mine_blocks config);
                   if cfg_persist config then persist_ledger else mret tt) (s, w) with
            | ((s, w), Ok _) => (w, Ok s)
            | ((_, w), Err e) => (w, Err e)
            end
        end
  end.
End Handlers.
