(* ===== verification/PeerInv.v ===== *)
(** * The invariant of a relay node

    [peer_ok bs s]: the chain of [s] is an execution whose blocks are [bs], newest first;
    the catalog holds exactly these blocks by height; the pool satisfies its invariant and
    the settings are values of their types.  Every handler keeps it on every path and only
    ever adds blocks ([extends]). *)

From S2P Require Import Prelude Errors Sha256 ByteIO Transaction Block Utxo TxValidation BlockValidation Mempool Chain BlockBuilder ChainStore P2pMessage P2pPayloads Effects Text Config PeerState.

Record settings_ok (s : PeerState) : Prop := {
  se_policy : policy_wf (mempool_policy_ s);
  se_genesis : is_u64 (genesis_timestamp_ s);
  se_tmpl : consensus (tmpl_params_ s) = consensus_ s;
  se_params : params_wf (consensus_ s);
  se_version : bt_version (tmpl_params_ s) = kBlockVersion;
  se_count : bt_max_transactions (tmpl_params_ s) = kMaxTransactionsPerBlock;
  se_recipient : hash_wf (coinbase_recipient (tmpl_params_ s));
}.

Record peer_ok (bs : list Block) (s : PeerState) : Prop := {
  po_settings : settings_ok s;
  po_params : params_wf (params_ (chain_ s));
  po_chain : chain_of (params_ (chain_ s)) bs (chain_ s);
  po_pool : pool_wf (mempool_ s);
  po_catalog : indexes (reverse bs) (catalog_ s);
}.

(** What never changes. *)
Definition same_settings (s s' : PeerState) : Prop :=
  mempool_policy_ s' = mempool_policy_ s ∧ node_id_ s' = node_id_ s ∧
  genesis_timestamp_ s' = genesis_timestamp_ s ∧ consensus_ s' = consensus_ s ∧
  tmpl_params_ s' = tmpl_params_ s ∧ data_dir_ s' = data_dir_ s ∧ persist_ s' = persist_ s ∧
  mine_after_tx_ s' = mine_after_tx_ s ∧ params_ (chain_ s') = params_ (chain_ s).

#[global] Instance same_settings_preorder : PreOrder same_settings.
Proof. unfold same_settings. split; [by intros s; split_and!|]. intros a b c H1 H2. destruct_and!. split_and!; congruence. Qed.

(** A later state of a node that was in state [s0] with blocks [bs0]. *)
Definition extends (bs0 : list Block) (s0 : PeerState) (n : Node) : Prop :=
  same_settings s0 n.1 ∧ ∃ bs, peer_ok bs n.1 ∧ bs0 `suffix_of` bs.

Lemma settings_same s s' : same_settings s s' → settings_ok s → settings_ok s'.
Proof.
  intros (H1 & _ & H3 & H4 & H5 & _) [H6 H7 H8 H9 H10 H11 H12]. split; rewrite ?H1, ?H3, ?H5, ?H4; done.
Qed.

Lemma extends_refl bs s w : peer_ok bs s → extends bs s (s, w).
Proof. intros H. split; [reflexivity|]. by exists bs. Qed.

Section Invariant.
Context {bs : list Block} {s : PeerState} (Hok : peer_ok bs s).

Lemma peer_chain_wf : chain_wf (chain_ s).
Proof. by destruct (chain_of_wf _ (po_params _ _ Hok) _ _ (po_chain _ _ Hok)). Qed.

Lemma peer_height_size : peer_height s + 1 = size_z bs.
Proof. apply (chain_of_height _ (po_params _ _ Hok)), Hok. Qed.

(** The catalog answers with the block of the chain at that height. *)
Lemma peer_block_at h b : block_at_height h s = Some b ↔ 0 ≤ h ∧ reverse bs !! Z.to_nat h = Some b.
Proof. apply (po_catalog _ _ Hok). Qed.

Lemma peer_ledger_blocks : ledger_blocks s = reverse bs.
Proof. apply indexes_in_order, Hok. Qed.

(** ** Connecting a block *)

Lemma connect_block_keeps block w n r :
  block_typed block → peer_connect_block block (s, w) = (n, r) →
  n.2 = w ∧ same_settings s n.1 ∧
  match r with
  | Ok _ => peer_ok (block :: bs) n.1 ∧ links_to (tip_ (chain_ s)) (header block) ∧
      tip_ (chain_ n.1) = header block ∧ mempool_ n.1 = prune (transactions block) (mempool_ s)
  | Err _ => n.1 = s
  end.
Proof.
  intros Hty. unfold peer_connect_block.
  destruct (submit_block block (Some (mempool_ s)) (chain_ s)) as [[chain pool] [fees|e]] eqn:E.
  - pose proof E as E'. apply submit_block_Ok in E' as (Hl & -> & u & Hap & ->); [|apply peer_chain_wf|done].
    intros [= <- <-]. cbn [fst snd]. split; [done|]. split; [by repeat split|].
    split; [|done]. cbn [set_chain_pool default fmap option_fmap option_map] in *. split; try apply Hok.
    + by destruct (po_settings _ _ Hok).
    + eapply chain_step; [apply Hok|done|exact E].
    + cbn. apply prune_wf, Hok.
    + cbn [store_block catalog_ set_chain_pool]. rewrite reverse_cons.
      unfold peer_height. cbn [chain_ tip_ set_chain_pool]. rewrite (lk_height _ _ Hl).
      change (height (tip_ (chain_ s)) + 1) with (peer_height s + 1). rewrite peer_height_size, <- length_reverse.
      apply indexes_snoc, Hok.
  - apply submit_block_Err in E as [-> ->]. intros [= <- <-]. cbn. split; [done|].
    split; [by repeat split|]. by destruct s.
Qed.

Lemma accept_keeps tx w n r :
  tx_typed tx → accept_transaction tx (s, w) = (n, r) →
  n.2 = w ∧ same_settings s n.1 ∧ peer_ok bs n.1 ∧ chain_ n.1 = chain_ s ∧ catalog_ n.1 = catalog_ s ∧
  accept tx (utxos_ (chain_ s)) (mempool_policy_ s) (mempool_ s) = (mempool_ n.1, r).
Proof.
  intros Hty. unfold accept_transaction. destruct (accept _ _ _ _) as [pool r'] eqn:E. intros [= <- <-].
  cbn [fst snd set_chain_pool chain_ mempool_ catalog_]. split_and!; try done. split; try apply Hok; try done.
  - by destruct (po_settings _ _ Hok).
  - apply accept_run in E as [H _]; [done|apply Hok|done|apply peer_chain_wf|apply Hok].
Qed.
End Invariant.

(** ** The handlers *)

Section Keeps.
Context (ios : nat → Io) (bs0 : list Block) (s0 : PeerState).
Abbreviation inv := (extends bs0 s0).

Lemma keeps_connect_block block : block_typed block → keeps inv (peer_connect_block block).
Proof.
  intros Hty [s w] (Hs & bs & Hok & Hsuf). cbn [fst] in *.
  destruct (peer_connect_block block (s, w)) as [n r] eqn:E.
  apply (connect_block_keeps Hok) in E as (_ & Hs' & Hr); [|done]. cbn [fst]. split; [by etrans|].
  destruct r as [u|e]; [destruct Hr as (Hr & _)|rewrite Hr; by exists bs]. exists (block :: bs). split; [done|].
  by apply suffix_cons_r.
Qed.

Lemma keeps_accept tx : tx_typed tx → keeps inv (accept_transaction tx).
Proof.
  intros Hty [s w] (Hs & bs & Hok & Hsuf). destruct (accept_transaction tx (s, w)) as [n r] eqn:E.
  apply (accept_keeps Hok) in E as (_ & Hs' & Hr & _); [|done]. split; [by etrans|]. by exists bs.
Qed.

Lemma keeps_save : keeps inv (peer_save_ledger ios).
Proof. intros [s w] H. cbn. by destruct (save_ledger _ _ _ _ _ _). Qed.

Lemma keeps_persist : keeps inv (persist_ledger ios).
Proof. intros [s w] H. unfold persist_ledger. case_match; [done|]. by apply keeps_save. Qed.

Lemma mine_one_typed s bs t :
  peer_ok bs s →
  build_block_template (tip_ (chain_ s)) (block_timestamp (genesis_timestamp_ s) (wrap32 (peer_height s + 1)))
    (mempool_ s) (utxos_ (chain_ s)) (tmpl_params_ s) = Ok t → block_typed (bt_block t).
Proof.
  intros Hok. pose proof (peer_chain_wf Hok) as (Ht & _ & _). destruct (po_settings _ _ Hok) as [_ _ Et Hp Hv _ Hr].
  apply template_typed; [done|apply wrap64_range|apply Hok|by rewrite Hv|done|by rewrite Et].
Qed.

Lemma keeps_mine_one : keeps inv mine_one.
Proof.
  intros [s w] H. unfold mine_one. cbv beta iota zeta.
  destruct (build_block_template _ _ _ _ _) as [t|e] eqn:E; [|done].
  apply (keeps_connect_block (bt_block t)); [|done]. destruct H as (_ & bs & Hok & _). by eapply mine_one_typed.
Qed.

Lemma keeps_mine_loop count : keeps inv (mine_loop count).
Proof. induction count as [|count IH]; cbn; auto using keeps_mine_one with effects. Qed.

Lemma keeps_mine_blocks count : keeps inv (mine_blocks ios count).
Proof. apply keeps_bind; [apply keeps_mine_loop|intros _; apply keeps_persist]. Qed.

Lemma keeps_lift_bind {A B} (r : Result A) (f : A → SR Node B) :
  (∀ a, r = Ok a → keeps inv (f a)) → keeps inv (a ← lift r; f a).
Proof. intros H s Hs. cbn. destruct r as [a|e]; [by apply H|done]. Qed.

Lemma parse_block_typed bytes b : parse_block_bytes bytes = Ok b → block_typed b ∧ bytes = block_to_bytes b.
Proof.
  intros H. change (parse_all block_deserialize bytes = Ok b) in H. apply parse_all_inv in H as [-> (Hh & Ht & _)].
  rewrite block_to_bytes_enc. split; [|done]. split; [done|]. eapply Forall_impl; [done|]. by intros tx [].
Qed.

Lemma parse_transaction_typed bytes tx : parse_transaction_bytes bytes = Ok tx → tx_typed tx ∧ bytes = tx_to_bytes tx.
Proof.
  intros H. change (parse_all tx_deserialize bytes = Ok tx) in H. apply parse_all_inv in H as [-> (Ht & _)].
  by rewrite tx_to_bytes_enc.
Qed.

Lemma keeps_on_block_announce payload : keeps inv (on_block_announce ios payload).
Proof.
  apply keeps_lift_bind. intros p _. apply keeps_lift_bind. intros b [Hb _]%parse_block_typed.
  apply keeps_bind; [by apply keeps_connect_block|intros _; apply keeps_persist].
Qed.

Lemma keeps_on_tx_announce payload : keeps inv (on_tx_announce ios payload).
Proof.
  apply keeps_lift_bind. intros p _. apply keeps_lift_bind. intros tx [Htx _]%parse_transaction_typed.
  apply keeps_bind; [by apply keeps_accept|intros _]. apply keeps_bind; [apply keeps_reads|]. intros after.
  case_match; [apply keeps_mine_blocks|apply keeps_ret].
Qed.

Lemma conn_keeps_reject code reason : conn_keeps inv (send_reject code reason).
Proof. apply conn_keeps_bind; [apply conn_keeps_fail|intros; apply conn_keeps_send]. Qed.

(** Whatever a peer sends and whatever becomes of the answers. *)
Lemma conn_keeps_handle m : conn_keeps inv (handle_message ios m).
Proof.
  unfold handle_message. destruct (m_type m);
    try (apply conn_keeps_bind; [apply conn_keeps_reject|intros; apply conn_keeps_fail]);
    try apply conn_keeps_ret; (apply conn_keeps_bind; [apply conn_keeps_fail|intros p]).
  - apply conn_keeps_bind; [apply conn_keeps_fail|intros; apply conn_keeps_send].
  - apply conn_keeps_catch; [apply conn_keeps_silent, keeps_on_tx_announce|]. intros [[]|e]; [apply conn_keeps_ret|].
    apply conn_keeps_bind; [apply conn_keeps_reject|intros; apply conn_keeps_fail].
  - apply conn_keeps_silent, keeps_on_block_announce.
  - apply conn_keeps_bind; [apply conn_keeps_silent, keeps_reads|]. intros [b|]; [|apply conn_keeps_reject].
    apply conn_keeps_bind; [apply conn_keeps_fail|intros; apply conn_keeps_send].
  - apply conn_keeps_silent, keeps_on_block_announce.
Qed.
End Keeps.
