(* ===== verification/Network.v ===== *)
(** * Network modes of the node ([include/blockchain/node/network.hpp], [src/node/network.cpp])

    The exchanges with a peer are conversations ([Conn]); the sockets they run on are those
    of [SocketIO], the answers of the system to opening a connection are an [Os].  A server
    talks to several peers in turn: [play] runs a conversation on the answers of one peer.

    The loop of [run_relay_client] counts a 32-bit height up to the peer's height and never
    ends when that is the greatest one.  [sync_loop] runs on one more step than there are
    heights to request; [sync_loop_done] shows that this is enough below the greatest. *)

From S2P Require Import Prelude Errors Sha256 ByteIO Transaction Block Mempool Chain ChainStore P2pMessage P2pPayloads Effects Text SocketIO Config PeerState.

Record RelaySessionSummary := mkRelaySessionSummary { rs_height : Z; rs_mempool_size : Z }.
Record RelayClientResult := mkRelayClientResult { rc_height : Z; rc_tip_hash : Hash256 }.
Record RelayClientOptions := mkRelayClientOptions { txs_after_sync : list Transaction; blocks_after_tx : Z }.
(** [port_ready] is whether the pointer is set. *)
Record RelayServerOptions := mkRelayServerOptions { max_sessions : Z; port_ready : bool }.
Record RelayServerResult := mkRelayServerResult {
  sessions_completed : Z;
  listen_port : Z;
  last_session : RelaySessionSummary;
}.

(** ** Handshakes and pings *)

(** [local_handshake(config)] *)
Definition config_handshake (config : NodeConfig) : HandshakePayload :=
  mkHandshake kNetworkMagic 0 zero_hash (bytes_of (cfg_node_id config)).

Definition expect_handshake (m : P2pMessage) : Result HandshakePayload := parse_handshake_message m.

Definition exchange_handshake {S} (config : NodeConfig) : CR S unit :=
  outbound ← fail_with (make_handshake_message (config_handshake config));
  _ ← conn_send outbound;
  inbound ← conn_recv;
  _ ← fail_with (expect_handshake inbound);
  mret tt.

Definition serve_handshake {S} (config : NodeConfig) : CR S unit :=
  inbound ← conn_recv;
  _ ← fail_with (expect_handshake inbound);
  outbound ← fail_with (make_handshake_message (config_handshake config));
  conn_send outbound.

Definition ping_nonce (config : NodeConfig) : Z :=
  if negb (cfg_genesis_timestamp config =? 0) then cfg_genesis_timestamp config else 1.

(** [std::ofstream out(path, std::ios::trunc); out << port;], flushed when it is closed *)
Definition write_port_file (io : Io) (path : string) (port : Z) (d : Disk) : Disk * Result unit :=
  if negb (io_open io)
  then (d, make_error kInvalidConfig ("failed to open port file for write: " +:+ path))
  else
    let d := <[path := take (io_flushed io) (bytes_of (std_to_string port))]> d in
    if negb (io_write io) then (d, make_error kInvalidConfig ("failed to write port file: " +:+ path))
    else (d, mret tt).

(** The port stored through [port_ready], the disk, and the result. *)
Definition publish_listen_port (io : Io) (config : NodeConfig) (options : RelayServerOptions) (port : Z) (d : Disk)
    : option Z * (Disk * Result unit) :=
  (if port_ready options then Some port else None,
   if bool_decide (cfg_port_file config ≠ "") then write_port_file io (cfg_port_file config) port d
   else (d, mret tt)).

Definition is_network_server (config : NodeConfig) : bool := cfg_listen_enabled config.
Definition is_network_client (config : NodeConfig) : bool := negb (cfg_peer_port config =? 0).
Definition network_mode_enabled (config : NodeConfig) : bool := is_network_server config || is_network_client config.

Definition serve_ping_connection {S} (config : NodeConfig) : CR S unit :=
  _ ← serve_handshake config;
  inbound ← conn_recv;
  ping ← fail_with (parse_ping_message inbound);
  pong ← fail_with (make_pong_message (mkPing (nonce ping)));
  conn_send pong.

(** The conversation of [run_ping_client]. *)
Definition ping_client_session {S} (config : NodeConfig) : CR S unit :=
  _ ← exchange_handshake config;
  ping ← fail_with (make_ping_message (mkPing (ping_nonce config)));
  _ ← conn_send ping;
  inbound ← conn_recv;
  pong ← fail_with (parse_pong_message inbound);
  if negb (nonce pong =? ping_nonce config)
  then fail_with (make_error kInvalidMessage "pong nonce does not match ping")
  else mret tt.

(** ** Relay *)

Definition serve_relay_handshake : CR Node unit :=
  inbound ← conn_recv;
  _ ← fail_with (parse_handshake_message inbound);
  hs ← silent (reads (λ n, peer_local_handshake n.1));
  outbound ← fail_with (make_handshake_message hs);
  conn_send outbound.

Definition exchange_relay_handshake : CR Node HandshakePayload :=
  hs ← silent (reads (λ n, peer_local_handshake n.1));
  outbound ← fail_with (make_handshake_message hs);
  _ ← conn_send outbound;
  inbound ← conn_recv;
  fail_with (parse_handshake_message inbound).

Definition peer_disconnected (e : Error) : bool :=
  bool_decide (code e = kPeerMisbehavior) && contains_text "socket recv failed" (message e).

Fixpoint send_tx_announces {S} (txs : list Transaction) : CR S unit :=
  match txs with
  | [] => mret tt
  | tx :: txs =>
      m ← fail_with (make_tx_announce_message (mkTxAnnounce (tx_to_bytes tx)));
      _ ← conn_send m;
      send_tx_announces txs
  end.

Definition make_relay_summary (s : PeerState) : RelaySessionSummary :=
  mkRelaySessionSummary (peer_height s) (pool_size (mempool_ s)).

Section Relay.
Context (ios : nat → Io).

(** The iterations of [relay_message_loop] that are left. *)
Fixpoint relay_loop (n : nat) : CR Node unit :=
  match n with
  | O => fail_with (make_error kResourceLimitExceeded "relay message loop limit exceeded")
  | S n =>
      catch conn_recv (λ inbound,
        match inbound with
        | Err e => if peer_disconnected e then mret tt else fail_with (Err e)
        | Ok m => _ ← handle_message ios m; relay_loop n
        end)
  end.

Definition kMaxRelayMessages : nat := 64.

Definition relay_message_loop : CR Node unit := relay_loop kMaxRelayMessages.

Definition serve_relay_connection : CR Node RelaySessionSummary :=
  _ ← serve_relay_handshake;
  _ ← relay_message_loop;
  _ ← silent (persist_ledger ios);
  silent (reads (λ n, make_relay_summary n.1)).

(** Asks for the block at [height] and handles the next message. *)
Definition request_block (height : Z) : CR Node unit :=
  request ← fail_with (make_block_request_message (mkBlockRequest height));
  _ ← conn_send request;
  inbound ← conn_recv;
  handle_message ios inbound.

(** The loop is not at its end after [fuel] iterations. *)
Definition still_running {A} : Result A :=
  make_error kResourceLimitExceeded "still running: only for the greatest height".

(** [for (h = ...; h <= target_height; ++h)] *)
Fixpoint sync_loop (fuel : nat) (h target_height : Z) : CR Node unit :=
  match fuel with
  | O => fail_with still_running
  | S fuel =>
      if h <=? target_height
      then _ ← request_block h; sync_loop fuel (wrap32 (h + 1)) target_height
      else mret tt
  end.

Definition sync_to (target_height : Z) : CR Node unit :=
  h ← silent (reads (λ n, wrap32 (peer_height n.1 + 1)));
  sync_loop (S (Z.to_nat (target_height + 1 - h))) h target_height.

(** [for (n = 0; n < options.blocks_after_tx; ++n)] *)
Fixpoint pull_blocks (n : nat) : CR Node unit :=
  match n with
  | O => mret tt
  | S n =>
      height ← silent (reads (λ n, wrap32 (peer_height n.1 + 1)));
      _ ← request_block height;
      pull_blocks n
  end.

(** The part of [run_relay_client] after the synchronisation. *)
Definition relay_client_finish (config : NodeConfig) (options : RelayClientOptions) (target_height : Z)
    : CR Node RelayClientResult :=
  height ← silent (reads (λ n, peer_height n.1));
  if negb (height =? target_height)
  then fail_with (make_error kInvalidBlock
         ("relay client did not reach target height " +:+ std_to_string target_height))
  else
    _ ← send_tx_announces (txs_after_sync options);
    _ ← pull_blocks (Z.to_nat (blocks_after_tx options));
    _ ← (if cfg_persist config then silent (peer_save_ledger ios) else mret tt);
    silent (reads (λ n, mkRelayClientResult (peer_height n.1) (peer_tip_hash n.1))).

(** The part after the handshake. *)
Definition relay_client_after (config : NodeConfig) (options : RelayClientOptions) (peer_hs : HandshakePayload)
    : CR Node RelayClientResult :=
  let target_height := hs_height peer_hs in
  _ ← sync_to target_height;
  relay_client_finish config options target_height.

(** [run_relay_client] once it is connected and has its state. *)
Definition relay_client_session (config : NodeConfig) (options : RelayClientOptions)
    : CR Node RelayClientResult :=
  peer_hs ← exchange_relay_handshake;
  relay_client_after config options peer_hs.

(** The fuel of [sync_to] is enough: with any more of it the conversation is the same. *)
Lemma sync_loop_done fuel fuel' h target node :
  is_u32 h → target < UINT32_MAX →
  Z.max 0 (target + 1 - h) < Z.of_nat fuel → Z.max 0 (target + 1 - h) < Z.of_nat fuel' →
  same_conn (sync_loop fuel h target node) (sync_loop fuel' h target node).
Proof.
  revert fuel' h node. induction fuel as [|fuel IH]; intros [|fuel'] h node Hh Ht H1 H2; cbn [sync_loop].
  1-3: lia.
  - destruct (h <=? target) eqn:E; [|reflexivity]. rewrite !CR_bind_eq.
    apply conn_bind_proper; [|reflexivity]. intros sr. apply rest_of_same. intros _ s.
    rewrite wrap32_small by solve_u. apply IH; solve_u.
Qed.

Definition run_relay_client (os : Os) (config : NodeConfig) (options : RelayClientOptions) (w : World)
    : Conn (World * Result RelayClientResult) :=
  match tcp_connect os (mkTcpEndpoint (cfg_peer_host config) (cfg_peer_port config)) with
  | Err e => CRet (w, Err e)
  | Ok _ =>
      match from_config ios (set_persist false config) w with
      | (w, Err e) => CRet (w, Err e)
      | (w, Ok s) => conn_bind (λ '((_, w), r), CRet (w, r)) (relay_client_session config options (s, w))
      end
  end.

(** [serve_relay_connection] on a configuration. *)
Definition serve_relay_connection_from (config : NodeConfig) (w : World)
    : Conn (World * Result RelaySessionSummary) :=
  match from_config ios config w with
  | (w, Err e) => CRet (w, Err e)
  | (w, Ok s) => conn_bind (λ '((_, w), r), CRet (w, r)) (serve_relay_connection (s, w))
  end.

(** ** Servers *)

(** The answers of one peer to the sends and receives of a conversation, in order. *)
Record Peer := mkPeer { p_sends : nat → Result unit; p_recvs : nat → Result P2pMessage }.

Fixpoint play {A} (p : Peer) (i j : nat) (m : Conn A) : A :=
  match m with
  | CRet a => a
  | CSend _ k => play p (S i) j (k (p_sends p i))
  | CRecv k => play p i (S j) (k (p_recvs p j))
  end.

(** The accept loop of [run_relay_server]; [client n] is what [accept] answers for the
    [n]-th connection and the peer behind it. *)
Fixpoint serve_sessions (client : nat → Os * Peer) (listener : Z) (count n : nat) (result : RelayServerResult)
    (node : Node) : Node * Result RelayServerResult :=
  match count with
  | O => (node, Ok result)
  | S count =>
      let '(os, peer) := client n in
      match tcp_accept os listener with
      | Err e => (node, Err e)
      | Ok _ =>
          match play peer 0 0 (serve_relay_connection node) with
          | (node, Err e) => (node, Err e)
          | (node, Ok session) =>
              serve_sessions client listener count (S n)
                (mkRelayServerResult (wrap32 (Z.of_nat n + 1)) (listen_port result) session) node
          end
      end
  end.

Definition run_relay_server (os : Os) (port_io : Io) (client : nat → Os * Peer) (config : NodeConfig)
    (options : RelayServerOptions) (w : World) : World * Result RelayServerResult :=
  let max := if negb (max_sessions options =? 0) then max_sessions options else cfg_relay_max_sessions config in
  if max =? 0 then (w, make_error kInvalidConfig "relay max sessions must be at least 1")
  else
    match (listener ← tcp_bind os (mkTcpEndpoint (cfg_listen_host config) (cfg_listen_port config));
           port ← bound_port os listener; mret (listener, port)) with
    | Err e => (w, Err e)
    | Ok (listener, port) =>
        match (publish_listen_port port_io config options port (w_disk w)).2 with
        | (d, Err e) => (mkWorld d (w_calls w), Err e)
        | (d, Ok _) =>
            match from_config ios config (mkWorld d (w_calls w)) with
            | (w, Err e) => (w, Err e)
            | (w, Ok s) =>
                let '((_, w), r) :=
                  serve_sessions client listener (Z.to_nat max) 0
                    (mkRelayServerResult 0 port (mkRelaySessionSummary 0 0)) (s, w) in
                (w, r)
            end
        end
    end.
End Relay.

Definition run_ping_server (os : Os) (port_io : Io) (client : Os * Peer) (config : NodeConfig) (d : Disk)
    : Disk * Result unit :=
  match (listener ← tcp_bind os (mkTcpEndpoint (cfg_listen_host config) (cfg_listen_port config));
         port ← bound_port os listener; mret (listener, port)) with
  | Err e => (d, Err e)
  | Ok (listener, port) =>
      match (publish_listen_port port_io config (mkRelayServerOptions 0 false) port d).2 with
      | (d, Err e) => (d, Err e)
      | (d, Ok _) =>
          (d, _ ← tcp_accept client.1 listener; (play client.2 0 0 (serve_ping_connection config tt)).2)
      end
  end.

Definition run_ping_client (os : Os) (config : NodeConfig) : Conn (Result unit) :=
  match tcp_connect os (mkTcpEndpoint (cfg_peer_host config) (cfg_peer_port config)) with
  | Err e => CRet (Err e)
  | Ok _ => conn_bind (λ '(_, r), CRet r) (ping_client_session config tt)
  end.

(** ** Transactions from files *)

Definition load_transaction_file (io : Io) (path : string) (d : Disk) : Result Transaction :=
  match d !! path with
  | None => make_error kInvalidConfig ("cannot open transaction file: " +:+ path)
  | Some bytes =>
      if negb (io_sized io)
      then make_error kInvalidConfig ("cannot read transaction file size: " +:+ path)
      else if kMaxTransactionSizeBytes <? size_z bytes
      then make_error kResourceLimitExceeded ("transaction file exceeds max size: " +:+ path)
      else if size_z bytes =? 0
      then make_error kInvalidTransaction ("transaction file is empty: " +:+ path)
      else if negb (io_read io)
      then make_error kInvalidConfig ("failed to read transaction file: " +:+ path)
      else '(tx, _) ← tx_deserialize (new_reader bytes); mret tx
  end.

Fixpoint load_transaction_files (io : Io) (paths : list string) (d : Disk) : Result (list Transaction) :=
  match paths with
  | [] => mret []
  | path :: paths =>
      tx ← load_transaction_file io path d;
      txs ← load_transaction_files io paths d;
      mret (tx :: txs)
  end.

Definition relay_client_options_from_config (io : Io) (config : NodeConfig) (d : Disk) : Result RelayClientOptions :=
  txs ← load_transaction_files io (cfg_announce_tx_files config) d;
  mret (mkRelayClientOptions txs (cfg_relay_blocks_after_tx config)).
