(* ===== verification/RelaySync.v ===== *)
(** * Two nodes in relay mode

    The runs of [relay_client_session] against [serve_relay_connection]: what one exchange
    of a request and a block does, and by induction what a synchronisation does.  The runs
    are given in one order; [commuting_runs] carries them over to every interleaving. *)

From S2P Require Import Prelude Errors Sha256 ByteIO Transaction Block Utxo TxValidation BlockValidation Mempool Chain BlockBuilder ChainStore P2pMessage P2pPayloads Effects Text SocketIO Peers Config PeerState PeerInv Network.

(** ** Whole sessions keep the invariant *)

Lemma every_play {A} (P : A → Prop) p (m : Conn A) : every P m → ∀ i j, P (play p i j m).
Proof. induction m as [a|msg k IH|k IH]; cbn; auto. Qed.

Section Keeps.
Context (ios : nat → Io) (bs0 : list Block) (s0 : PeerState).
Abbreviation inv := (extends bs0 s0).

Lemma conn_keeps_relay_loop n : conn_keeps inv (relay_loop ios n).
Proof.
  induction n as [|n IH]; cbn [relay_loop]; [apply conn_keeps_fail|]. apply conn_keeps_catch; [apply conn_keeps_recv|].
  intros [m|e]; [apply conn_keeps_bind; [apply conn_keeps_handle|done]|]. case_match; auto with effects.
Qed.

Lemma conn_keeps_serve : conn_keeps inv (serve_relay_connection ios).
Proof.
  unfold serve_relay_connection, serve_relay_handshake, relay_message_loop.
  repeat first [apply conn_keeps_relay_loop|apply conn_keeps_bind|
    apply conn_keeps_silent; (apply keeps_persist || apply keeps_reads)|solve [auto with effects]|intros ?].
Qed.

Lemma conn_keeps_request h : conn_keeps inv (request_block ios h).
Proof. unfold request_block. auto 10 using conn_keeps_handle with effects. Qed.

Lemma conn_keeps_sync_loop fuel : ∀ h target, conn_keeps inv (sync_loop ios fuel h target).
Proof.
  induction fuel as [|fuel IH]; intros h target; cbn [sync_loop]; [apply conn_keeps_fail|].
  case_match; auto using conn_keeps_request with effects.
Qed.

Lemma conn_keeps_announces txs : conn_keeps inv (send_tx_announces txs).
Proof. induction txs as [|tx txs IH]; cbn [send_tx_announces]; auto with effects. Qed.

Lemma conn_keeps_pull n : conn_keeps inv (pull_blocks ios n).
Proof.
  induction n as [|n IH]; cbn [pull_blocks]; [apply conn_keeps_ret|].
  auto using conn_keeps_request, keeps_reads with effects.
Qed.

Lemma conn_keeps_client config options : conn_keeps inv (relay_client_session ios config options).
Proof.
  unfold relay_client_session, relay_client_after, relay_client_finish, exchange_relay_handshake, sync_to.
  repeat first [apply conn_keeps_sync_loop|apply conn_keeps_announces|apply conn_keeps_pull|apply conn_keeps_bind|
    case_match|apply conn_keeps_silent; (apply keeps_save || apply keeps_reads)|solve [auto with effects]|intros ?].
Qed.

(** All the sessions of a server, whoever connects. *)
Lemma serve_sessions_keeps client listener count : ∀ n result node,
  inv node → inv (serve_sessions ios client listener count n result node).1.
Proof.
  induction count as [|count IH]; intros n result node Hn; cbn [serve_sessions]; [done|].
  destruct (client n) as [os peer]. destruct (tcp_accept os listener) as [h|e]; [|done].
  pose proof (every_play _ peer _ (conn_keeps_serve node Hn) 0%nat 0%nat) as H.
  destruct (play peer 0 0 _) as [node' [session|e]]; [by apply IH|done].
Qed.
End Keeps.

(** ** Messages that are sent and understood *)

(** A payload that fits the envelope is a message that arrives. *)
Lemma payload_message {P} type (wf : P → Prop) enc make parse `{!PayloadOk type wf enc make parse} p :
  wf p → size_z (enc p) ≤ kMaxP2pPayloadBytes →
  ∃ m, make p = Ok m ∧ m_type m = type ∧ m_payload m = enc p ∧ sendable m = true ∧ deliver m = Ok m ∧ parse m = Ok p.
Proof.
  intros Hp Hsz. eexists. split; [by apply pay_make|]. cbn [m_type m_payload].
  split_and!; [done|done|by apply message_wf_sendable|by apply deliver_wf|by apply pay_parse].
Qed.

Lemma enqueue_sendable m q : sendable m = true → enqueue m q = (Ok tt, q ++ [m]).
Proof. unfold enqueue. by intros ->. Qed.

Lemma size_enc_block_announce p : size_z (enc_block_announce p) = 4 + size_z (block_bytes p).
Proof. unfold enc_block_announce, enc_var_bytes. rewrite length_app, length_le_bytes. lia. Qed.

(** ** The two sides of one exchange *)

Definition block_fits (b : Block) : Prop := size_z (block_to_bytes b) ≤ kMaxP2pPayloadBytes - 4.

Lemma block_announce_ok b : block_fits b → block_announce_wf (mkBlockAnnounce (block_to_bytes b)).
Proof.
  intros Hb. unfold block_fits in Hb. split; cbn [block_bytes].
  - rewrite block_to_bytes_enc. intros E. apply (f_equal length) in E. unfold enc_block in E.
    rewrite !length_app, length_le_bytes in E. cbn in E. lia.
  - change kMaxP2pPayloadBytes with 1048576 in Hb. change kMaxBlockSizeBytes with 1048576. lia.
Qed.

Section Exchange.
Context (ios : nat → Io).

(** A server that has the block answers a request with it. *)
Lemma serve_request h b s w :
  is_u32 h → block_at_height h s = Some b → block_fits b →
  ∃ req resp, make_block_request_message (mkBlockRequest h) = Ok req ∧
    sendable req = true ∧ deliver req = Ok req ∧
    handle_message ios req (s, w) = conn_send resp (s, w) ∧
    sendable resp = true ∧ deliver resp = Ok resp ∧ m_type resp = kBlockResponse ∧
    m_payload resp = enc_block_announce (mkBlockAnnounce (block_to_bytes b)).
Proof.
  intros Hh Hb Hf.
  destruct (payload_message kBlockRequest block_request_wf enc_block_request make_block_request_message
    parse_block_request_message (mkBlockRequest h)) as (req & H1 & Ht & _ & Hs & Hd & Hp); [done|done|].
  destruct (payload_message kBlockResponse block_announce_wf enc_block_announce make_block_response_message
    parse_block_response_message (mkBlockAnnounce (block_to_bytes b))) as (resp & H1' & Ht' & Hpl & Hs' & Hd' & Hp').
  { by apply block_announce_ok. }
  { rewrite size_enc_block_announce. cbn [block_bytes]. unfold block_fits in Hf. lia. }
  exists req, resp. split_and!; try done. unfold handle_message. rewrite Ht, Hp. rewrite CR_bind_fail.
  unfold on_block_request. rewrite CR_bind_silent. unfold reads. cbn [fst br_height].
  rewrite Hb, CR_bind_fail, H1'. done.
Qed.

(** A client handles a block in a response by connecting it. *)
Lemma handle_response b resp s w n r :
  block_wf b → block_fits b →
  m_type resp = kBlockResponse → m_payload resp = enc_block_announce (mkBlockAnnounce (block_to_bytes b)) →
  peer_connect_block b (s, w) = (n, r) → (r = Ok tt → persist_ n.1 = false) →
  handle_message ios resp (s, w) = CRet (n, r).
Proof.
  intros Hb Hf Ht Hpl Hc Hpers. unfold handle_message. rewrite Ht.
  pose proof (proj2 (pay_parse (type := kBlockResponse) resp (mkBlockAnnounce (block_to_bytes b)))
    (conj Ht (conj Hpl (block_announce_ok b Hf)))) as Hp.
  rewrite CR_bind_fail, Hp. unfold silent, on_block_response, on_block_announce. rewrite Hpl.
  assert (deserialize_block_announce (enc_block_announce (mkBlockAnnounce (block_to_bytes b))) =
    Ok (mkBlockAnnounce (block_to_bytes b))) as Hd.
  { unfold deserialize_block_announce. apply parse_all_enc. by apply block_announce_ok. }
  assert (parse_block_bytes (block_to_bytes b) = Ok b) as Hpb.
  { rewrite block_to_bytes_enc. apply (parse_all_enc (get := block_deserialize)). done. }
  f_equal. erewrite (SR_bind_eq (lift _)); [|unfold lift; rewrite Hd; reflexivity]. cbn [block_bytes].
  erewrite (SR_bind_eq (lift _)); [|unfold lift; rewrite Hpb; reflexivity].
  destruct r as [[]|e]; [|unfold mbind, SR_bind; by rewrite Hc].
  erewrite (SR_bind_eq (peer_connect_block b)); [|exact Hc]. unfold persist_ledger. by rewrite Hpers.
Qed.
End Exchange.

(** ** Runs *)

(** What surrounds a conversation in a larger one: it passes the calls on. *)
Class Surrounding {A B} (C : Conn A → Conn B) : Prop := {
  surround_send m k : C (CSend m k) = CSend m (λ r, C (k r));
  surround_recv k : C (CRecv k) = CRecv (λ r, C (k r));
}.

#[global] Instance surrounding_bind {A B} (f : A → Conn B) : Surrounding (conn_bind f).
Proof. done. Qed.

#[global] Instance surrounding_binds {A B D} (g : B → Conn D) (f : A → Conn B) :
  Surrounding (λ m, conn_bind g (conn_bind f m)).
Proof. done. Qed.

Section Runs.
Context (iosc ioss : nat → Io) (eof : Error).

(** What the server does with the outcome of a receive. *)
Definition relay_next (n : nat) (inbound : Result P2pMessage) : CR Node unit :=
  match inbound with
  | Err e => if peer_disconnected e then mret tt else fail_with (Err e)
  | Ok m => _ ← handle_message ioss m; relay_loop ioss n
  end.

Lemma relay_loop_S n node : relay_loop ioss (S n) node = CRecv (λ r, relay_next n r node).
Proof. reflexivity. Qed.

Lemma request_block_eq h node req :
  make_block_request_message (mkBlockRequest h) = Ok req →
  request_block iosc h node =
  CSend req (λ r, rest_of (λ _, inbound ← conn_recv; handle_message iosc inbound) (node, r)).
Proof. intros E. unfold request_block. by rewrite CR_bind_fail, E. Qed.

Lemma sync_loop_S fuel h target node :
  sync_loop iosc (S fuel) h target node =
  if h <=? target
  then conn_bind (rest_of (λ _, sync_loop iosc fuel (wrap32 (h + 1)) target)) (request_block iosc h node)
  else CRet (node, Ok tt).
Proof. cbn [sync_loop]. by destruct (h <=? target). Qed.

Context {A B : Type} (KS : Node * Result unit → Conn B).

Abbreviation step := (net_step (A := A) (B := B) eof).

(** One request and its block, for a client that goes on in any way with the outcome. *)
Lemma request_run C `{!Surrounding C} h n b sc wc ss ws node r :
  is_u32 h → block_at_height h ss = Some b → block_fits b → block_wf b →
  peer_connect_block b (sc, wc) = (node, r) → (r = Ok tt → persist_ node.1 = false) →
  nsteps step 4
    (mkNet (C (request_block iosc h (sc, wc))) (conn_bind KS (relay_loop ioss (S n) (ss, ws))) [] [])
    (mkNet (C (CRet (node, r))) (conn_bind KS (relay_loop ioss n (ss, ws))) [] []).
Proof.
  intros Hh Hb Hf Hwf Hc Hp.
  destruct (serve_request ioss h b ss ws Hh Hb Hf) as (req & resp & Hreq & Hs1 & Hd1 & Hhs & Hs2 & Hd2 & Ht & Hpl).
  pose proof (handle_response iosc b resp sc wc _ _ Hwf Hf Ht Hpl Hc Hp) as Hhc.
  rewrite (request_block_eq _ _ _ Hreq), relay_loop_S, surround_send. cbn [conn_bind].
  eapply nsteps_l; [eapply left_sends|]. rewrite enqueue_sendable by done. cbn [fst snd app rest_of].
  eapply nsteps_l; [eapply right_receives|]. rewrite Hd1. cbn [relay_next]. rewrite (CR_bind_eq (handle_message ioss req)), Hhs.
  cbn [conn_send conn_bind].
  eapply nsteps_l; [eapply right_sends|]. rewrite enqueue_sendable by done. cbn [fst snd app rest_of].
  rewrite CR_bind_eq. cbn [conn_recv conn_bind]. rewrite surround_recv.
  eapply nsteps_l; [eapply left_receives|]. rewrite Hd2. cbn [rest_of fst snd]. rewrite Hhc.
  apply nsteps_O.
Qed.

(** One iteration of the synchronisation. *)
Lemma exchange (KC : Node * Result unit → Conn A) h target fuel n b sc wc ss ws node :
  is_u32 h → h ≤ target → block_at_height h ss = Some b → block_fits b → block_wf b →
  peer_connect_block b (sc, wc) = (node, Ok tt) → persist_ node.1 = false →
  nsteps step 4
    (mkNet (conn_bind KC (sync_loop iosc (S fuel) h target (sc, wc)))
           (conn_bind KS (relay_loop ioss (S n) (ss, ws))) [] [])
    (mkNet (conn_bind KC (sync_loop iosc fuel (wrap32 (h + 1)) target node))
           (conn_bind KS (relay_loop ioss n (ss, ws))) [] []).
Proof.
  intros Hh Hle Hb Hf Hwf Hc Hp. rewrite sync_loop_S, (proj2 (Z.leb_le h target) Hle).
  by apply (request_run (λ m, conn_bind KC (conn_bind
    (rest_of (λ _, sync_loop iosc fuel (wrap32 (h + 1)) target)) m)) h n b sc wc ss ws node (Ok tt)).
Qed.
End Runs.

(** ** Following a longer chain *)

Lemma chain_of_suffix params bs bs' c :
  chain_of params bs c → bs' `suffix_of` bs → bs' ≠ [] → ∃ c', chain_of params bs' c'.
Proof.
  intros H. revert bs'. induction H as [g c Hg Hc|bs c b pool c' pool' fees Hch IH Hb Hs]; intros [|b' bs'] Hsuf Hne; try done.
  - apply suffix_cons_inv in Hsuf as [[= -> ->]|Hsuf]; [exists c; by constructor|]. by apply suffix_nil_inv in Hsuf.
  - apply suffix_cons_inv in Hsuf as [[= -> ->]|Hsuf]; [exists c'; by econstructor|]. by apply IH.
Qed.

Section Follow.
Context {bs : list Block} {ss : PeerState} (Hss : peer_ok bs ss).
Context (Hfits : Forall block_fits bs).

(** A node on the same chain connects the next block of a longer one, whatever its pool. *)
Lemma connect_next b bsc sc wc :
  peer_ok bsc sc → params_ (chain_ sc) = params_ (chain_ ss) → b :: bsc `suffix_of` bs →
  ∃ sc', peer_connect_block b (sc, wc) = ((sc', wc), Ok tt) ∧ peer_ok (b :: bsc) sc' ∧ same_settings sc sc' ∧
    mempool_ sc' = prune (transactions b) (mempool_ sc).
Proof.
  intros Hsc Hpar Hsuf. pose proof (po_chain _ _ Hss) as Hch. pose proof (po_params _ _ Hss) as Hp.
  destruct (chain_of_suffix _ _ _ _ Hch Hsuf) as [c' Hc']; [done|].
  inversion Hc' as [|bs1 c1 b1 pool ? pool' fees Hc1 Hty Hsub]; subst.
  { by destruct (chain_of_tip _ (po_params _ _ Hsc) _ _ (po_chain _ _ Hsc)) as (? & ? & ? & _). }
  assert (c1 = chain_ sc) as ->.
  { eapply chain_of_det; [exact Hp|done|]. rewrite <- Hpar. apply Hsc. }
  assert (submit_block b (Some (mempool_ sc)) (chain_ sc) =
    (c', Some (prune (transactions b) (mempool_ sc)), Ok fees)) as E.
  { apply submit_block_Ok in Hsub as (Hl & _ & u & Hap & ->); [|apply (peer_chain_wf Hsc)|done].
    apply submit_block_Ok; [apply (peer_chain_wf Hsc)|done|]. split; [done|]. split; [done|]. by exists u. }
  destruct (peer_connect_block b (sc, wc)) as [[sc' wc'] r] eqn:Ec.
  pose proof Ec as Ec'. apply (connect_block_keeps Hsc) in Ec' as (Hw & Hset & Hr); [|done]. cbn [fst snd] in *.
  unfold peer_connect_block in Ec. rewrite E in Ec. injection Ec as _ _ <-. exists sc'.
  subst wc'. destruct Hr as (Hr1 & _ & _ & Hr2). by split_and!.
Qed.

Lemma block_in_chain b bsc : b :: bsc `suffix_of` bs →
  block_at_height (size_z bsc) ss = Some b ∧ block_fits b ∧ block_wf b ∧ size_z bsc ≤ peer_height ss.
Proof.
  intros [pre E]. assert (b ∈ bs) as Hb by (rewrite E; apply elem_of_app; right; left).
  split_and!.
  - apply (peer_block_at Hss). split; [lia|]. rewrite Nat2Z.id, E, reverse_app, reverse_cons, <- app_assoc.
    rewrite <- length_reverse. by apply list_lookup_middle.
  - by eapply Forall_forall in Hfits.
  - destruct (chain_of_stored _ (po_params _ _ Hss) _ _ (po_chain _ _ Hss)) as [_ Hst].
    eapply Forall_forall in Hst; [|done]. apply Hst.
  - pose proof (peer_height_size Hss) as Hh. rewrite E, length_app, length_cons in Hh. lia.
Qed.

Context (iosc ioss : nat → Io) (eof : Error) (Hmax : peer_height ss < UINT32_MAX).
Context {A B : Type} (KC : Node * Result unit → Conn A) (KS : Node * Result unit → Conn B) (ws : World).

Lemma sync_run l : ∀ bsc sc wc fuel n,
  peer_ok bsc sc → params_ (chain_ sc) = params_ (chain_ ss) → persist_ sc = false →
  reverse l ++ bsc `suffix_of` bs →
  ∃ sc', peer_ok (reverse l ++ bsc) sc' ∧ same_settings sc sc' ∧
    (∀ limits, mempool_ sc = new_mempool limits → mempool_ sc' = new_mempool limits) ∧
    nsteps (net_step (A := A) (B := B) eof) (4 * length l)
      (mkNet (conn_bind KC (sync_loop iosc (length l + fuel) (size_z bsc) (peer_height ss) (sc, wc)))
             (conn_bind KS (relay_loop ioss (length l + n) (ss, ws))) [] [])
      (mkNet (conn_bind KC (sync_loop iosc fuel (size_z (reverse l ++ bsc)) (peer_height ss) (sc', wc)))
             (conn_bind KS (relay_loop ioss n (ss, ws))) [] []).
Proof.
  induction l as [|b l IH]; intros bsc sc wc fuel n Hsc Hpar Hpers Hsuf.
  { exists sc. split_and!; [done|reflexivity|done|apply nsteps_O]. }
  rewrite reverse_cons, <- app_assoc in *. cbn [app] in *.
  assert (b :: bsc `suffix_of` bs) as Hb by (etrans; [|exact Hsuf]; by apply suffix_app_r).
  destruct (connect_next b bsc sc wc Hsc Hpar Hb) as (sc1 & Ec & Hsc1 & Hset & Hprune).
  destruct (block_in_chain b bsc Hb) as (Hat & Hf & Hwf & Hle).
  pose proof Hset as (_ & _ & _ & _ & _ & _ & Hp1 & _ & Hpar1).
  destruct (IH (b :: bsc) sc1 wc fuel n) as (sc' & Hsc' & Hset' & Hpool & Hrun); [done|congruence|congruence|done|].
  exists sc'. split_and!; [done|by etrans| |].
  { intros limits Hl. apply Hpool. by rewrite Hprune, Hl, prune_new. }
  replace (4 * length (b :: l))%nat with (4 + 4 * length l)%nat by (cbn [length]; lia).
  eapply nsteps_trans; [|exact Hrun].
  assert (wrap32 (size_z bsc + 1) = size_z (b :: bsc)) as Eh.
  { rewrite wrap32_small by solve_u. rewrite length_cons. lia. }
  rewrite <- Eh. cbn [length Nat.add]. apply (exchange iosc ioss eof KS KC _ _ _ _ b); try done; cbn [fst]; [solve_u|congruence].
Qed.
End Follow.

(** ** Sessions *)

Definition node_id_ok (s : PeerState) : Prop := blob_wf kMaxNodeIdBytes (bytes_of (node_id_ s)).

Lemma local_handshake_wf bs s : peer_ok bs s → node_id_ok s → handshake_wf (peer_local_handshake s).
Proof.
  intros Hok Hid. destruct (peer_chain_wf Hok) as ((_ & _ & _ & _ & Hh) & _). split_and!; [done|done| |apply Hid..].
  apply sha256d_wf.
Qed.

Lemma handshake_message bs s : peer_ok bs s → node_id_ok s →
  ∃ m, make_handshake_message (peer_local_handshake s) = Ok m ∧ sendable m = true ∧ deliver m = Ok m ∧
    parse_handshake_message m = Ok (peer_local_handshake s).
Proof.
  intros Hok Hid. pose proof (local_handshake_wf _ _ Hok Hid) as Hwf.
  destruct (payload_message kHandshake handshake_wf enc_handshake make_handshake_message parse_handshake_message
    (peer_local_handshake s) Hwf) as (m & H1 & _ & _ & H2 & H3 & H4); [|by exists m].
  destruct Hwf as (_ & _ & Ht & _ & Hlen). unfold enc_handshake, enc_var_bytes.
  rewrite !length_app, !length_le_bytes, Ht. change kMaxP2pPayloadBytes with 1048576.
  change kMaxNodeIdBytes with 64 in Hlen. lia.
Qed.

Section Sessions.
Context (iosc ioss : nat → Io) (eof : Error) (Heof : peer_disconnected eof = true).

(** Each side announces itself and learns what the other announced. *)
Lemma handshakes {A B} (KC : Node * Result HandshakePayload → Conn A) (KS : Node * Result unit → Conn B)
    bs ss ws bsc sc wc :
  peer_ok bs ss → peer_ok bsc sc → node_id_ok ss → node_id_ok sc →
  nsteps (net_step eof) 4
    (mkNet (conn_bind KC (exchange_relay_handshake (sc, wc))) (conn_bind KS (serve_relay_handshake (ss, ws))) [] [])
    (mkNet (KC ((sc, wc), Ok (peer_local_handshake ss))) (KS ((ss, ws), Ok tt)) [] []).
Proof.
  intros Hss Hsc His Hic.
  destruct (handshake_message _ _ Hss His) as (ms & Hms & Hss1 & Hss2 & Hss3).
  destruct (handshake_message _ _ Hsc Hic) as (mc & Hmc & Hsc1 & Hsc2 & Hsc3).
  assert (exchange_relay_handshake (sc, wc) = CSend mc (λ r, rest_of (λ _,
    inbound ← conn_recv; fail_with (parse_handshake_message inbound)) ((sc, wc), r))) as ->.
  { unfold exchange_relay_handshake. rewrite CR_bind_reads. cbn [fst].
    rewrite CR_bind_fail, Hmc. done. }
  unfold serve_relay_handshake. rewrite CR_bind_eq. cbn [conn_recv conn_bind].
  eapply nsteps_l; [eapply left_sends|]. rewrite enqueue_sendable by done. cbn [fst snd app rest_of].
  eapply nsteps_l; [eapply right_receives|]. rewrite Hsc2. cbn [fst snd rest_of].
  rewrite CR_bind_fail, Hsc3, CR_bind_silent. unfold reads at 1. cbn [fst]. rewrite CR_bind_fail, Hms.
  cbn [conn_send conn_bind].
  eapply nsteps_l; [eapply right_sends|]. rewrite enqueue_sendable by done. cbn [fst snd app].
  rewrite CR_bind_eq. cbn [conn_recv conn_bind].
  eapply nsteps_l; [eapply left_receives|]. rewrite Hss2. cbn [fst snd rest_of]. unfold fail_with, silent, lift.
  rewrite Hss3. apply nsteps_O.
Qed.

(** How a session of the server ends once its loop has ended without error. *)
Definition served : SR Node RelaySessionSummary :=
  _ ← persist_ledger ioss; reads (λ n, make_relay_summary n.1).

(** How a session of the client ends once it has reached the height of the server. *)
Definition synced (config : NodeConfig) : SR Node RelayClientResult :=
  _ ← (if cfg_persist config then peer_save_ledger iosc else mret tt);
  reads (λ n, mkRelayClientResult (peer_height n.1) (peer_tip_hash n.1)).

Lemma synced_plain config n : cfg_persist config = false →
  synced config n = (n, Ok (mkRelayClientResult (peer_height n.1) (peer_tip_hash n.1))).
Proof. unfold synced. by intros ->. Qed.

Definition no_options : RelayClientOptions := mkRelayClientOptions [] 0.

Context {bs : list Block} {ss : PeerState} (Hss : peer_ok bs ss) (ws : World).
Context {bsc : list Block} {sc : PeerState} (Hsc : peer_ok bsc sc) (wc : World).
Context (config : NodeConfig).
Context (Hid_s : node_id_ok ss) (Hid_c : node_id_ok sc) (Hfits : Forall block_fits bs).
Context (Hpar : params_ (chain_ sc) = params_ (chain_ ss)) (Hpers : persist_ sc = false).
Context (Hmax : peer_height ss < UINT32_MAX).

Definition start_net : Net (Node * Result RelayClientResult) (Node * Result RelaySessionSummary) :=
  mkNet (relay_client_session iosc config no_options (sc, wc)) (serve_relay_connection ioss (ss, ws)) [] [].

(** What is left of a client session after the handshake, and of a server session. *)
Definition client_rest (target : Z) : Node * Result unit → Conn (Node * Result RelayClientResult) :=
  rest_of (λ _, relay_client_finish iosc config no_options target).

Definition server_rest : Node * Result unit → Conn (Node * Result RelaySessionSummary) :=
  rest_of (λ _, _ ← silent (persist_ledger ioss); silent (reads (λ n, make_relay_summary n.1))).

Lemma after_handshakes l : bs = reverse l ++ bsc →
  nsteps (net_step eof) 4 start_net
    (mkNet (conn_bind (client_rest (peer_height ss))
              (sync_loop iosc (length l + 1) (size_z bsc) (peer_height ss) (sc, wc)))
           (conn_bind server_rest (relay_loop ioss 64 (ss, ws))) [] []).
Proof.
  intros El. unfold start_net, relay_client_session, serve_relay_connection.
  rewrite (CR_bind_eq exchange_relay_handshake), (CR_bind_eq serve_relay_handshake).
  eapply nsteps_trans with (n := 4%nat) (m := 0%nat); [by eapply handshakes|].
  cbn [rest_of fst snd]. unfold relay_client_after. rewrite !CR_bind_eq. cbn [peer_local_handshake hs_height].
  assert (sync_to iosc (peer_height ss) (sc, wc) =
    sync_loop iosc (length l + 1) (size_z bsc) (peer_height ss) (sc, wc)) as ->; [|apply nsteps_O].
  unfold sync_to. rewrite CR_bind_reads. cbn [fst].
  pose proof (peer_height_size Hsc) as Hc. pose proof (peer_height_size Hss) as Hs.
  rewrite El, length_app, length_reverse in Hs.
  assert (wrap32 (peer_height sc + 1) = size_z bsc) as -> by (rewrite wrap32_small; solve_u).
  f_equal. lia.
Qed.

Lemma follower_chain sc' : peer_ok bs sc' → same_settings sc sc' →
  chain_ sc' = chain_ ss ∧ peer_height sc' = peer_height ss ∧ peer_tip_hash sc' = peer_tip_hash ss.
Proof.
  intros Hsc' (_ & _ & _ & _ & _ & _ & _ & _ & Hp). assert (chain_ sc' = chain_ ss) as E.
  { eapply chain_of_det; [apply (po_params _ _ Hss)| |apply Hss]. rewrite <- Hpar, <- Hp. apply Hsc'. }
  unfold peer_height, peer_tip_hash. by rewrite E.
Qed.

(** A client that has reached the target is done. *)
Lemma client_ends sc' : peer_height sc' = peer_height ss →
  client_rest (peer_height ss) ((sc', wc), Ok tt) = CRet (synced config (sc', wc)).
Proof.
  intros Eh. unfold client_rest, relay_client_finish. cbn [rest_of fst snd]. rewrite CR_bind_reads. cbn [fst].
  rewrite Eh, Z.eqb_refl, <- Eh. cbn [negb send_tx_announces txs_after_sync no_options pull_blocks].
  transitivity (((if cfg_persist config then silent (peer_save_ledger iosc) else mret tt) ≫= λ _,
    silent (reads (λ n : Node, mkRelayClientResult (peer_height n.1) (peer_tip_hash n.1)))) (sc', wc));
    [reflexivity|]. unfold synced. destruct (cfg_persist config); [|reflexivity].
  rewrite CR_bind_silent. unfold silent, mbind, SR_bind. by destruct (peer_save_ledger iosc (sc', wc)) as [n' [[]|e]].
Qed.

(** A server whose peer has left is done. *)
Lemma server_ends n : conn_bind server_rest (relay_next ioss n (Err eof) (ss, ws)) = CRet (served (ss, ws)).
Proof.
  cbn [relay_next]. rewrite Heof.
  change (conn_bind server_rest (mret (M := CR Node) tt (ss, ws))) with
    ((_ ← silent (persist_ledger ioss); silent (reads (λ n : Node, make_relay_summary n.1))) (ss, ws)).
  rewrite CR_bind_silent. unfold served, silent, mbind, SR_bind.
  by destruct (persist_ledger ioss (ss, ws)) as [n' [[]|e]].
Qed.

(** Up to 63 blocks behind: the client ends on the server's chain. *)
Lemma session_run l : bs = reverse l ++ bsc → (length l < 64)%nat →
  ∃ sc', peer_ok bs sc' ∧ same_settings sc sc' ∧
    (∀ limits, mempool_ sc = new_mempool limits → mempool_ sc' = new_mempool limits) ∧
    nsteps (net_step eof) (4 * length l + 5) start_net
      (mkNet (CRet (synced config (sc', wc))) (CRet (served (ss, ws))) [] []).
Proof.
  intros El Hlen. destruct (sync_run Hss Hfits iosc ioss eof Hmax (client_rest (peer_height ss)) server_rest ws
    l bsc sc wc 1 (64 - length l)) as (sc' & Hsc' & Hset & Hpool & Hrun); [done|done|done|by rewrite El|].
  rewrite <- El in *. exists sc'. split_and!; [done|done|done|].
  replace (4 * length l + 5)%nat with (4 + (4 * length l + 1))%nat by lia.
  eapply nsteps_trans; [by apply after_handshakes|].
  replace (length l + (64 - length l))%nat with 64%nat in Hrun by lia.
  eapply nsteps_trans; [exact Hrun|]. clear Hrun.
  destruct (follower_chain _ Hsc' Hset) as (_ & Eh & _).
  pose proof (peer_height_size Hss) as Hs. rewrite sync_loop_S.
  destruct (size_z bs <=? peer_height ss) eqn:E; [lia|]. cbn [conn_bind].
  rewrite client_ends by done.
  destruct (64 - length l)%nat as [|n] eqn:En; [lia|]. rewrite relay_loop_S. cbn [conn_bind].
  apply nsteps_once. rewrite <- (server_ends n). by apply right_eof.
Qed.

(** More than 64 blocks behind: the server stops after 64 messages, the client fails. *)
Lemma session_limit l l' : bs = reverse l' ++ reverse l ++ bsc → length l = 64%nat → l' ≠ [] →
  ∃ sc' req, peer_ok (reverse l ++ bsc) sc' ∧ same_settings sc sc' ∧
    nsteps (net_step eof) 262 start_net
      (mkNet (CRet ((sc', wc), Err eof))
             (CRet ((ss, ws), make_error kResourceLimitExceeded "relay message loop limit exceeded")) [req] []).
Proof.
  intros El Hlen Hne. destruct (sync_run Hss Hfits iosc ioss eof Hmax (client_rest (peer_height ss)) server_rest ws
    l bsc sc wc (length l' + 1) 0) as (sc' & Hsc' & Hset & _ & Hrun); [done|done|done|rewrite El; by apply suffix_app_r|].
  assert (is_u32 (size_z (reverse l ++ bsc)) ∧ size_z (reverse l ++ bsc) ≤ peer_height ss) as [Hu Hle].
  { pose proof (peer_height_size Hss) as Hs. rewrite El, length_app, length_reverse in Hs.
    destruct l' as [|b l']; [done|]. rewrite length_cons in Hs. solve_u. }
  destruct (payload_message kBlockRequest block_request_wf enc_block_request make_block_request_message
    parse_block_request_message (mkBlockRequest (size_z (reverse l ++ bsc)))) as (req & Hreq & _ & _ & Hs & _ & _);
    [done|done|].
  exists sc', req. split_and!; [done|done|]. rewrite Hlen in Hrun.
  change 262%nat with (4 + (4 * 64 + 2))%nat. eapply nsteps_trans.
  { apply (after_handshakes (l ++ l')). rewrite reverse_app, <- app_assoc. exact El. }
  rewrite length_app, Hlen, <- Nat.add_assoc. eapply nsteps_trans; [exact Hrun|]. clear Hrun.
  rewrite Nat.add_1_r, sync_loop_S, (proj2 (Z.leb_le _ _) Hle), (request_block_eq _ _ _ _ Hreq). cbn [conn_bind].
  eapply nsteps_l; [eapply left_sends|]. rewrite enqueue_sendable by done. cbn [fst snd app rest_of].
  rewrite CR_bind_eq. cbn [conn_recv conn_bind].
  eapply nsteps_l; [by eapply left_eof|]. apply nsteps_O.
Qed.
End Sessions.

(** ** Ping mode *)

Definition config_id_ok (config : NodeConfig) : Prop := blob_wf kMaxNodeIdBytes (bytes_of (cfg_node_id config)).

Lemma config_handshake_message config : config_id_ok config →
  ∃ m, make_handshake_message (config_handshake config) = Ok m ∧ sendable m = true ∧ deliver m = Ok m ∧
    parse_handshake_message m = Ok (config_handshake config).
Proof.
  intros Hid. assert (handshake_wf (config_handshake config)) as Hwf by (destruct Hid; by split_and!).
  destruct (payload_message kHandshake handshake_wf enc_handshake make_handshake_message parse_handshake_message
    (config_handshake config) Hwf) as (m & H1 & _ & _ & H2 & H3 & H4); [|by exists m].
  destruct Hid as [_ Hlen]. unfold enc_handshake, enc_var_bytes.
  rewrite !length_app, !length_le_bytes. cbn [config_handshake hs_tip_hash hs_node_id].
  change (length zero_hash) with 32%nat. change kMaxP2pPayloadBytes with 1048576. change kMaxNodeIdBytes with 64 in Hlen. lia.
Qed.

Lemma ping_nonce_range config : is_u64 (cfg_genesis_timestamp config) → is_u64 (ping_nonce config).
Proof. intros H. unfold ping_nonce. by case_match. Qed.

Section Ping.
Context (eof : Error) (cc cs : NodeConfig) (Hc : config_id_ok cc) (Hs : config_id_ok cs).

Lemma ping_handshakes {A B} (KC : unit * Result unit → Conn A) (KS : unit * Result unit → Conn B) :
  nsteps (net_step eof) 4
    (mkNet (conn_bind KC (exchange_handshake cc tt)) (conn_bind KS (serve_handshake cs tt)) [] [])
    (mkNet (KC (tt, Ok tt)) (KS (tt, Ok tt)) [] []).
Proof.
  destruct (config_handshake_message cc Hc) as (mc & Hmc & Sc & Dc & Pc).
  destruct (config_handshake_message cs Hs) as (ms & Hms & Ss & Ds & Ps).
  assert (exchange_handshake cc tt = CSend mc (λ r, rest_of (λ _,
    inbound ← conn_recv; _ ← fail_with (expect_handshake inbound); mret tt) (tt, r))) as ->.
  { unfold exchange_handshake. by rewrite CR_bind_fail, Hmc. }
  unfold serve_handshake, expect_handshake. rewrite CR_bind_eq. cbn [conn_recv conn_bind].
  eapply nsteps_l; [eapply left_sends|]. rewrite enqueue_sendable by done. cbn [fst snd app rest_of].
  eapply nsteps_l; [eapply right_receives|]. rewrite Dc. cbn [fst snd rest_of].
  rewrite CR_bind_fail, Pc, CR_bind_fail, Hms. cbn [conn_send conn_bind].
  eapply nsteps_l; [eapply right_sends|]. rewrite enqueue_sendable by done. cbn [fst snd app].
  rewrite CR_bind_eq. cbn [conn_recv conn_bind].
  eapply nsteps_l; [eapply left_receives|]. rewrite Ds. cbn [fst snd rest_of]. rewrite CR_bind_fail, Ps.
  apply nsteps_O.
Qed.

(** Both sides of a ping session end without error. *)
Lemma ping_run : is_u64 (cfg_genesis_timestamp cc) →
  nsteps (net_step eof) 8
    (mkNet (ping_client_session (S := unit) cc tt) (serve_ping_connection (S := unit) cs tt) [] [])
    (mkNet (CRet (tt, Ok tt)) (CRet (tt, Ok tt)) [] []).
Proof.
  intros Hn. apply ping_nonce_range in Hn.
  destruct (payload_message kPing ping_wf enc_ping make_ping_message parse_ping_message (mkPing (ping_nonce cc)) Hn) as
    (ping & Hpi & _ & _ & Spi & Dpi & Ppi); [by vm_compute|].
  destruct (payload_message kPong ping_wf enc_ping make_pong_message parse_pong_message (mkPing (ping_nonce cc)) Hn) as
    (pong & Hpo & _ & _ & Spo & Dpo & Ppo); [by vm_compute|].
  unfold ping_client_session, serve_ping_connection.
  rewrite (CR_bind_eq (exchange_handshake cc)), (CR_bind_eq (serve_handshake cs)).
  apply (nsteps_trans 4 4 _ _ _ (ping_handshakes _ _)). cbn [rest_of fst snd].
  rewrite CR_bind_fail, Hpi, (CR_bind_eq (conn_send ping)), (CR_bind_eq conn_recv). cbn [conn_send conn_recv conn_bind].
  eapply nsteps_l; [eapply left_sends|]. rewrite enqueue_sendable by done. cbn [fst snd app rest_of].
  rewrite (CR_bind_eq conn_recv). cbn [conn_recv conn_bind].
  eapply nsteps_l; [eapply right_receives|]. rewrite Dpi. cbn [fst snd rest_of].
  rewrite CR_bind_fail, Ppi, CR_bind_fail. cbn [nonce]. rewrite Hpo. cbn [conn_send].
  eapply nsteps_l; [eapply right_sends|]. rewrite enqueue_sendable by done. cbn [fst snd app].
  eapply nsteps_l; [eapply left_receives|]. rewrite Dpo. cbn [fst snd rest_of].
  rewrite CR_bind_fail, Ppo. cbn [nonce]. rewrite Z.eqb_refl. apply nsteps_O.
Qed.
End Ping.
