(* ===== verification/Liveness.v ===== *)
(** * Sessions end

    Three measures of a conversation, each compositional:

    - [within m s r]: at most [s] sends and [r] receives, whatever the answers, so for
      every peer;
    - [paced c t m s]: [s] sends until the next receive and [c] after each one, with [t]
      left on success, and a failed receive is the end; no bound on the receives;
    - [asks b m] and [serves Q b m]: who waits for whom.  A program that [asks] only
      receives when a message it has sent is owed an answer, one that [serves] answers
      such a message before it receives again.

    A network of a paced program that asks and a bounded one that serves comes to rest
    after a number of steps that depends on neither chain, and only when both have ended. *)

From S2P Require Import Prelude Errors Sha256 ByteIO Transaction Block Mempool Chain ChainStore P2pMessage P2pPayloads Effects Text SocketIO Peers Config PeerState Network RelaySync.

(** ** Calls whatever the peer does *)

Fixpoint within {A} (m : Conn A) (s r : nat) : Prop :=
  match m with
  | CRet _ => True
  | CSend _ k => match s with O => False | S s => ∀ x, within (k x) s r end
  | CRecv k => match r with O => False | S r => ∀ x, within (k x) s r end
  end.

Lemma within_mono {A} (m : Conn A) s r s' r' : (s ≤ s')%nat → (r ≤ r')%nat → within m s r → within m s' r'.
Proof.
  revert s r s' r'. induction m as [a|msg k IH|k IH]; intros s r s' r' Hs Hr; cbn [within]; [done| |].
  - destruct s as [|s], s' as [|s']; try done; [lia|]. intros H x. eapply IH; [| |apply H]; lia.
  - destruct r as [|r], r' as [|r']; try done; [lia|]. intros H x. eapply IH; [| |apply H]; lia.
Qed.

Lemma within_bind {A B} (f : A → Conn B) (m : Conn A) s r s' r' :
  within m s r → (∀ a, within (f a) s' r') → within (conn_bind f m) (s + s') (r + r').
Proof.
  intros Hm Hf. revert s r Hm. induction m as [a|msg k IH|k IH]; intros s r; cbn [within conn_bind].
  - intros _. eapply within_mono; [| |apply Hf]; lia.
  - destruct s as [|s]; [done|]. cbn [Nat.add]. auto.
  - destruct r as [|r]; [done|]. cbn [Nat.add]. auto.
Qed.

(** The same of a method. *)
Definition bounded {S A} (s r : nat) (m : CR S A) : Prop := ∀ st, within (m st) s r.

Lemma bounded_mono {S A} (m : CR S A) s r s' r' :
  (s ≤ s')%nat → (r ≤ r')%nat → bounded s r m → bounded s' r' m.
Proof. intros Hs Hr H st. by eapply within_mono. Qed.

Lemma bounded_bind {S A B} (m : CR S A) (f : A → CR S B) s r s' r' :
  bounded s r m → (∀ a, bounded s' r' (f a)) → bounded (s + s') (r + r') (m ≫= f).
Proof. intros Hm Hf st. apply within_bind; [apply Hm|]. intros [st' [a|e]]; [apply Hf|done]. Qed.

Lemma bounded_catch {S A B} (m : CR S A) (f : Result A → CR S B) s r s' r' :
  bounded s r m → (∀ x, bounded s' r' (f x)) → bounded (s + s') (r + r') (catch m f).
Proof. intros Hm Hf st. apply within_bind; [apply Hm|]. intros [st' x]. apply Hf. Qed.

Lemma bounded_silent {S A} (m : SR S A) : bounded 0 0 (silent m).
Proof. by intros st. Qed.

Lemma bounded_fail {S A} (x : Result A) : bounded (S := S) 0 0 (fail_with x).
Proof. by intros st. Qed.

Lemma bounded_ret {S A} (a : A) : bounded 0 0 (mret (M := CR S) a).
Proof. by intros st. Qed.

Lemma bounded_send {S} msg : bounded (S := S) 1 0 (conn_send msg).
Proof. by intros st x. Qed.

Lemma bounded_recv {S} : bounded (S := S) 0 1 conn_recv.
Proof. by intros st x. Qed.

(** Bounds add up along the binds of a method; [bounds] does the sum. *)
Ltac bounds_aux :=
  lazymatch goal with
  | |- bounded _ _ (_ ≫= _) => eapply bounded_bind; [bounds_aux|intros; bounds_aux]
  | |- bounded _ _ (catch _ _) => eapply bounded_catch; [bounds_aux|intros; bounds_aux]
  | |- bounded _ _ (silent _) => apply bounded_silent
  | |- bounded _ _ (fail_with _) => apply bounded_fail
  | |- bounded _ _ (mret _) => apply bounded_ret
  | |- bounded _ _ (conn_send _) => apply bounded_send
  | |- bounded _ _ conn_recv => apply bounded_recv
  | |- _ => solve [eauto]
  end.
Ltac bounds := eapply bounded_mono; [| |bounds_aux]; lia.

Section Bounds.
Context (ios : nat → Io).

Lemma bounded_reject {S} code reason : bounded (S := S) 1 0 (send_reject code reason).
Proof. unfold send_reject. bounds. Qed.

(** Handling a message is at most one answer. *)
Lemma bounded_handle m : bounded 1 0 (handle_message ios m).
Proof.
  pose proof (@bounded_reject Node) as Hr. unfold handle_message. destruct (m_type m); try bounds.
  - eapply (bounded_bind _ _ 0 0 1 0); [apply bounded_fail|intros _]. eapply (bounded_catch _ _ 0 0 1 0); [apply bounded_silent|].
    intros [[]|e]; bounds.
  - eapply (bounded_bind _ _ 0 0 1 0); [apply bounded_fail|intros p]. unfold on_block_request.
    eapply (bounded_bind _ _ 0 0 1 0); [apply bounded_silent|intros [b|]]; bounds.
Qed.

Lemma bounded_relay_loop n : bounded n n (relay_loop ios n).
Proof.
  induction n as [|n IH]; cbn [relay_loop]; [apply bounded_fail|].
  apply (bounded_catch _ _ 0 1 (S n) n); [apply bounded_recv|]. intros [m|e].
  - apply (bounded_bind _ _ 1 0 n n); [apply bounded_handle|done].
  - case_match; bounds.
Qed.

(** A server session is at most 65 messages each way. *)
Lemma bounded_serve : bounded 65 65 (serve_relay_connection ios).
Proof.
  pose proof (bounded_relay_loop kMaxRelayMessages) as Hl.
  unfold serve_relay_connection, serve_relay_handshake, relay_message_loop.
  change kMaxRelayMessages with 64%nat in *. bounds.
Qed.

Lemma bounded_request h : bounded 2 1 (request_block ios h).
Proof. pose proof bounded_handle as Hh. unfold request_block. bounds. Qed.

(** The heights from [h] to [target]. *)
Definition requests (h target : Z) : nat := Z.to_nat (target + 1 - h).

(** Below the greatest height the loop ends by itself, however much fuel there is. *)
Lemma bounded_sync_loop fuel : ∀ h target, is_u32 h → target < UINT32_MAX →
  bounded (2 * requests h target) (requests h target) (sync_loop ios fuel h target).
Proof.
  unfold requests. induction fuel as [|fuel IH]; intros h target Hh Ht; cbn [sync_loop].
  { eapply bounded_mono; [| |apply bounded_fail]; lia. }
  destruct (h <=? target) eqn:E; [|eapply bounded_mono; [| |apply bounded_ret]; lia].
  rewrite wrap32_small by solve_u. specialize (IH (h + 1) target ltac:(solve_u) Ht).
  eapply bounded_mono; [| |eapply bounded_bind; [apply bounded_request|intros _; exact IH]]; solve_u.
Qed.

Lemma bounded_announces {S} txs : bounded (S := S) (length txs) 0 (send_tx_announces txs).
Proof. induction txs as [|tx txs IH]; cbn [send_tx_announces length]; bounds. Qed.

Lemma bounded_pull n : bounded (2 * n) n (pull_blocks ios n).
Proof.
  pose proof bounded_request as Hr. induction n as [|n IH]; cbn [pull_blocks]; bounds.
Qed.

Lemma bounded_finish config options target :
  let k := Z.to_nat (blocks_after_tx options) in
  bounded (length (txs_after_sync options) + 2 * k) k (relay_client_finish ios config options target).
Proof.
  intros k. pose proof (@bounded_announces Node) as Ha. pose proof bounded_pull as Hp. unfold relay_client_finish.
  change (Z.to_nat (blocks_after_tx options)) with k. clearbody k.
  eapply (bounded_bind _ _ 0 0 (_ + 2 * k) k); [apply bounded_silent|]. intros height. destruct (negb _); [bounds|].
  assert (bounded 0 0 (if cfg_persist config then silent (peer_save_ledger ios) else mret tt)) as Hs
    by (case_match; bounds).
  bounds.
Qed.

(** A client session after the handshake: the blocks up to the announced height, the
    transactions to announce and the blocks to pull. *)
Lemma bounded_client config options peer_hs st :
  hs_height peer_hs < UINT32_MAX →
  let n := requests (wrap32 (peer_height st.1 + 1)) (hs_height peer_hs) in
  let k := Z.to_nat (blocks_after_tx options) in
  within (relay_client_after ios config options peer_hs st)
    (2 * n + length (txs_after_sync options) + 2 * k) (n + k).
Proof.
  intros Ht n k. unfold relay_client_after. rewrite CR_bind_eq. unfold sync_to.
  rewrite (CR_bind_silent (reads _)). unfold reads. cbv beta iota.
  eapply within_mono; [| |eapply within_bind; [apply bounded_sync_loop; [apply wrap32_range|done]|]].
  3: { intros [st' [[]|e]]; [apply bounded_finish|exact I]. }
  all: fold n k; lia.
Qed.

(** The two sides of the ping mode. *)
Lemma bounded_ping_server {S} config : bounded (S := S) 2 2 (serve_ping_connection config).
Proof. unfold serve_ping_connection, serve_handshake. bounds. Qed.

Lemma bounded_ping_client {S} config : bounded (S := S) 2 2 (ping_client_session config).
Proof.
  unfold ping_client_session, exchange_handshake.
  eapply (bounded_bind _ _ 1 1 1 1); [bounds|intros _]. eapply (bounded_bind _ _ 0 0 1 1); [bounds|intros ping].
  eapply (bounded_bind _ _ 1 0 0 1); [bounds|intros _]. eapply (bounded_bind _ _ 0 1 0 0); [bounds|intros inbound].
  eapply (bounded_bind _ _ 0 0 0 0); [bounds|intros pong]. case_match; bounds.
Qed.
End Bounds.

(** ** Two programs that wait for each other *)

(** The messages the receiver of which answers. *)
Definition expects_answer (m : P2pMessage) : bool :=
  match m_type m with kHandshake | kBlockRequest | kPing => true | _ => false end.

(** A message that arrives has the type it was sent with. *)
Lemma deliver_type m m' : deliver m = Ok m' → m_type m' = m_type m.
Proof.
  intros H. unfold deliver in H. apply deserialize_inv in H as [H _].
  assert (∃ x, message_to_bytes m =
    (le_bytes 4 kNetworkMagic ++ le_bytes 4 (m_version m)) ++ le_bytes 2 (type_value (m_type m)) ++ x) as [x Ex].
  { unfold message_to_bytes, write_header_body. destruct (m_payload m); autorewrite with writer;
      cbn [wbuffer_ empty_writer app]; rewrite <- !(assoc_L (++)); by eexists. }
  assert (∃ y, enc_message m' =
    (le_bytes 4 kNetworkMagic ++ le_bytes 4 (m_version m')) ++ le_bytes 2 (type_value (m_type m')) ++ y) as [y Ey].
  { unfold enc_message, enc_message_body. rewrite <- !(assoc_L (++)). by eexists. }
  rewrite Ex, Ey in H. apply app_inj_1 in H as [_ H]; [|by rewrite !length_app, !length_le_bytes].
  apply app_inj_1 in H as [H _]; [|by rewrite !length_le_bytes].
  apply (f_equal le_val) in H. rewrite !le_val_bytes in H. destruct (m_type m), (m_type m'); done.
Qed.

(** Receives only when [b]: a message that expects an answer was sent and none was
    received since. *)
Fixpoint asks {A} (b : bool) (m : Conn A) : Prop :=
  match m with
  | CRet _ => True
  | CSend msg k => asks (b || expects_answer msg) (k (Ok tt)) ∧ ∀ e, asks b (k (Err e))
  | CRecv k => b = true ∧ ∀ x, asks false (k x)
  end.

(** Answers what it [owes] before it receives again, unless it ends in [Q]; so it does
    after a failed receive. *)
Fixpoint serves {A} (Q : A → Prop) (owes : bool) (m : Conn A) : Prop :=
  match m with
  | CRet a => owes = true → Q a
  | CSend _ k => serves Q false (k (Ok tt)) ∧ ∀ e, serves Q owes (k (Err e))
  | CRecv k => owes = false ∧ (∀ msg, serves Q (expects_answer msg) (k (Ok msg))) ∧ ∀ e, serves Q true (k (Err e))
  end.

Lemma asks_mono {A} b (m : Conn A) : asks false m → asks b m.
Proof.
  revert b. induction m as [a|msg k IH|k IH]; intros b; cbn [asks]; [done| |by intros []].
  intros [H1 H2]. split; [|auto]. destruct (expects_answer msg); [by rewrite orb_true_r|auto].
Qed.

Lemma asks_bind {A B} b (f : A → Conn B) (m : Conn A) :
  asks b m → (∀ a, asks false (f a)) → asks b (conn_bind f m).
Proof.
  intros Hm Hf. revert b Hm. induction m as [a|msg k IH|k IH]; intros b; cbn [asks conn_bind].
  - intros _. by apply asks_mono.
  - intros [H1 H2]. split; auto.
  - intros [H1 H2]. split; auto.
Qed.

Lemma serves_bind {A B} (Q : B → Prop) owes (f : A → Conn B) (m : Conn A) :
  serves (λ a, serves Q true (f a)) owes m → (∀ a, serves Q false (f a)) → serves Q owes (conn_bind f m).
Proof.
  intros Hm Hf. revert owes Hm. induction m as [a|msg k IH|k IH]; intros owes; cbn [serves conn_bind].
  - intros H. destruct owes; [by apply H|apply Hf].
  - intros [H1 H2]. split; auto.
  - intros (-> & H1 & H2). split_and!; auto.
Qed.

Lemma serves_impl {A} (P Q : A → Prop) owes (m : Conn A) :
  (∀ a, P a → Q a) → serves P owes m → serves Q owes m.
Proof.
  intros HPQ. revert owes. induction m as [a|msg k IH|k IH]; intros owes; cbn [serves]; naive_solver.
Qed.

(** [s] sends until the next receive, [c] after each, [t] left on success. *)
Fixpoint paced {S A} (c t : nat) (m : Conn (S * Result A)) (s : nat) : Prop :=
  match m with
  | CRet (_, Ok _) => (t ≤ s)%nat
  | CRet (_, Err _) => True
  | CSend _ k => match s with O => False | S s => ∀ x, paced c t (k x) s end
  | CRecv k => (∀ msg, paced c t (k (Ok msg)) c) ∧ ∀ e, ∃ st e', k (Err e) = CRet (st, Err e')
  end.

Lemma paced_mono {S A} c t (m : Conn (S * Result A)) s s' : (s ≤ s')%nat → paced c t m s → paced c t m s'.
Proof.
  revert s s'. induction m as [[st [a|e]]|msg k IH|k IH]; intros s s' Hs; cbn [paced]; try done; [lia|].
  destruct s as [|s], s' as [|s']; try done; [lia|]. intros H x. eapply IH; [|apply H]. lia.
Qed.

Lemma paced_bind {S A B} c t t' (f : A → CR S B) (m : Conn (S * Result A)) s :
  paced c t m s → (∀ a st, paced c t' (f a st) t) → paced c t' (conn_bind (rest_of f) m) s.
Proof.
  intros Hm Hf. revert s Hm. induction m as [[st [a|e]]|msg k IH|k IH]; intros s; cbn [paced conn_bind].
  - intros Hs. exact (paced_mono _ _ _ _ _ Hs (Hf a st)).
  - done.
  - destruct s as [|s]; auto.
  - intros [H1 H2]. split; [auto|]. intros e. destruct (H2 e) as (st & e' & ->). by exists st, e'.
Qed.

(** *** The network of the two *)
Section Rest.
Context {S A B : Type} (eof : Error) (c : nat).
Abbreviation N := (Net (S * Result A) B).

(** An answer the client waits for is under way, is owed, or is asked for, or the server
    has ended. *)
Definition attended (x : N) : Prop :=
  ∃ b owes, asks b (left_ x) ∧ serves (λ _, True) owes (right_ x) ∧
    (b = true → to_left x ≠ [] ∨ owes = true ∨ Exists (λ m, expects_answer m = true) (to_right x) ∨
       ended (right_ x) = true).

Lemma attended_step x y : attended x → net_step eof x y → attended y.
Proof.
  intros (b & owes & Ha & Hs & Hw) Hxy. destruct Hxy as [m k r q1 q2|m k r q1 q2|k r q1 He|l m k q1 q2|l m k q1 q2|l k q2 He];
    cbn [left_ right_ to_left to_right] in *; cbn [asks serves ended] in *.
  - destruct Ha as [H1 H2]. unfold enqueue. destruct (sendable m); cbn [fst snd].
    + exists (b || expects_answer m), owes. split_and!; [done|done|]. cbn. intros Hb. rewrite Exists_app, Exists_cons.
      destruct b; [destruct (Hw eq_refl) as [|[|[|]]]; auto|]. auto 10.
    + exists b, owes. by split_and!; [apply H2|done|].
  - destruct Ha as [_ H]. exists false, owes. by split_and!; [apply H|done|].
  - destruct Ha as [_ H]. exists false, owes. by split_and!; [apply H|done|].
  - destruct Hs as [H1 H2]. unfold enqueue. destruct (sendable m); cbn [fst snd].
    + exists b, false. split_and!; [done|done|]. intros _. left. cbn. by destruct q2.
    + exists b, owes. split_and!; [done|apply H2|]. intros Hb. destruct (Hw Hb) as [|[|[|]]]; auto.
  - destruct Hs as (-> & H1 & H2). destruct (deliver m) as [m'|e] eqn:E; [|exists b, true; split_and!; [exact Ha|exact (H2 e)|auto]].
    exists b, (expects_answer m'). split_and!; [done|apply H1|]. intros Hb.
    assert (expects_answer m' = expects_answer m) as -> by (unfold expects_answer; by rewrite (deliver_type _ _ E)).
    destruct (Hw Hb) as [|[|[[|]%Exists_cons|]]]; auto.
  - destruct Hs as (-> & H1 & H2). exists b, true. split_and!; [exact Ha|exact (H2 eof)|auto].
Qed.

(** So it comes to rest only when both have ended. *)
Lemma attended_rest x : attended x → at_rest (net_step eof) x → ended (left_ x) = true ∧ ended (right_ x) = true.
Proof.
  destruct x as [l r q1 q2]. intros (b & owes & Ha & Hs & Hw) Hr. cbn [left_ right_ to_left to_right] in *.
  assert (ended l = true) as Hl.
  { destruct l as [a|m k|k]; [done|by destruct (Hr _ (left_sends eof m k r q1 q2))|].
    destruct q2 as [|m q2]; [|by destruct (Hr _ (left_receives eof m k r q1 q2))].
    destruct Ha as [-> _]. destruct r as [a|m k'|k'].
    - by destruct (Hr _ (left_eof eof k (CRet a) q1 eq_refl)).
    - by destruct (Hr _ (right_sends eof (CRecv k) m k' q1 [])).
    - destruct q1 as [|m q1]; [|by destruct (Hr _ (right_receives eof (CRecv k) m k' q1 []))].
      destruct Hs as [-> _]. destruct (Hw eq_refl) as [|[|[H%Exists_nil|]]]; done. }
  split; [done|]. destruct r as [a|m k'|k']; [done|by destruct (Hr _ (right_sends eof l m k' q1 q2))|].
  destruct q1 as [|m q1]; [|by destruct (Hr _ (right_receives eof l m k' q1 q2))].
  by destruct (Hr _ (right_eof eof l k' q2 Hl)).
Qed.

(** The calls that are left: those of the server, and what each answer lets the client do. *)
Definition budget (x : N) (n : nat) : Prop :=
  ∃ s s2 r2, paced c 0 (left_ x) s ∧ within (right_ x) s2 r2 ∧
    n = ((if ended (left_ x) then 0 else s + (length (to_left x) + s2 + 1) * (c + 1)) + s2 + r2)%nat.

Lemma budget_client (l : Conn (S * Result A)) r q1 q2 s s2 r2 n :
  paced c 0 l s → within r s2 r2 → (s + (length q2 + s2 + 1) * (c + 1) + s2 + r2 < n)%nat →
  ∃ n', budget (mkNet l r q1 q2) n' ∧ (n' < n)%nat.
Proof.
  intros Hl Hr Hn. eexists. split; [exists s, s2, r2; split_and!; [exact Hl|exact Hr|reflexivity]|].
  cbn [left_ right_ to_left]. destruct (ended l); lia.
Qed.

Lemma budget_failed st e (r : Conn B) q1 q2 s2 r2 n :
  within r s2 r2 → (s2 + r2 < n)%nat → ∃ n', budget (mkNet (CRet (st, Err e)) r q1 q2) n' ∧ (n' < n)%nat.
Proof. intros Hr Hn. eexists. split; [by exists 0%nat, s2, r2|]. cbn. lia. Qed.

Lemma budget_step x y n : budget x n → net_step eof x y → ∃ n', budget y n' ∧ (n' < n)%nat.
Proof.
  intros (s & s2 & r2 & Hl & Hr & ->) Hxy.
  destruct Hxy as [m k r q1 q2|m k r q1 q2|k r q1 He|l m k q1 q2|l m k q1 q2|l k q2 He];
    cbn [left_ right_ to_left to_right ended] in *; cbn [paced within] in *.
  - destruct s as [|s]; [done|]. eapply budget_client; [apply Hl|exact Hr|]. lia.
  - destruct Hl as [H1 H2]. destruct (deliver m) as [m'|e].
    + eapply budget_client; [apply H1|exact Hr|]. cbn [length]. lia.
    + destruct (H2 e) as (st & e' & ->). eapply budget_failed; [exact Hr|]. lia.
  - destruct Hl as [H1 H2]. destruct (H2 eof) as (st & e' & ->). eapply budget_failed; [exact Hr|]. lia.
  - destruct s2 as [|s2]; [done|]. eexists. split; [exists s, s2, r2; split_and!; [exact Hl|apply Hr|reflexivity]|].
    assert (length (enqueue m q2).2 ≤ length q2 + 1)%nat as Hq.
    { unfold enqueue. destruct (sendable m); cbn [snd]; rewrite ?length_app; cbn [length]; lia. }
    cbn [left_ right_ to_left]. destruct (ended l); [lia|]. nia.
  - destruct r2 as [|r2]; [done|]. eexists. split; [exists s, s2, r2; split_and!; [exact Hl|apply Hr|reflexivity]|].
    cbn [left_ right_ to_left]. destruct (ended l); lia.
  - destruct r2 as [|r2]; [done|]. eexists. split; [exists s, s2, r2; split_and!; [exact Hl|apply Hr|reflexivity]|].
    cbn [left_ right_ to_left]. destruct (ended l); lia.
Qed.

Lemma budget_steps k x y n : budget x n → nsteps (net_step eof) k x y → (k ≤ n)%nat.
Proof.
  intros Hx Hk. revert n Hx. induction Hk as [x|k x y z Hxy _ IH]; intros n Hx; [lia|].
  destruct (budget_step _ _ _ Hx Hxy) as (n' & Hy & Hn). specialize (IH _ Hy). lia.
Qed.

(** A paced program that asks, and a bounded one that serves. *)
Theorem runs_end (l : Conn (S * Result A)) (r : Conn B) s s2 r2 n k y :
  paced c 0 l s → within r s2 r2 → asks false l → serves (λ _, True) false r →
  (s + (s2 + 1) * (c + 1) + s2 + r2 ≤ n)%nat →
  nsteps (net_step eof) k (mkNet l r [] []) y →
  (k ≤ n)%nat ∧ (at_rest (net_step eof) y → ended (left_ y) = true ∧ ended (right_ y) = true).
Proof.
  intros Hp Hw Ha Hs Hn Hk. split.
  - eapply budget_steps in Hk; [|exists s, s2, r2; split_and!; [exact Hp|exact Hw|reflexivity]].
    cbn [left_ to_left length] in Hk. destruct (ended l); lia.
  - apply attended_rest. assert (attended (mkNet l r [] [])) as Hi by (by exists false, false).
    clear - Hk Hi. induction Hk as [x|k x y z Hxy _ IH]; [done|]. by eapply IH, attended_step.
Qed.
End Rest.

(** *** The sessions *)

Lemma make_type {X} (mk : Result X) (f : X → P2pMessage) (type : P2pMessageType) m :
  (∀ x, m_type (f x) = type) → (x ← mk; mret (f x)) = Ok m → m_type m = type.
Proof. intros Hf H. apply bind_Ok in H as (x & _ & [= <-]). apply Hf. Qed.

(** A program that only sends asks for nothing, and spends its sends. *)
Lemma asks_sending {A} b (m : Conn A) s : within m s 0 → asks b m.
Proof.
  revert b s. induction m as [a|msg k IH|k IH]; intros b s; cbn [within asks]; [done| |done].
  destruct s as [|s]; [done|]. intros H. split; [|intros e]; by eapply IH.
Qed.

Lemma paced_sending {S A} c t (m : Conn (S * Result A)) s : within m s 0 → paced c t m (s + t).
Proof.
  revert s. induction m as [[st [a|e]]|msg k IH|k IH]; intros s; cbn [within paced]; [lia|done| |done].
  destruct s as [|s]; [done|]. cbn [Nat.add]. auto.
Qed.

Section Sessions.
Context (ios : nat → Io).

(** A client sends and awaits an answer: a handshake, a request or a ping. *)
Lemma asks_exchange st : asks false (exchange_relay_handshake st).
Proof.
  unfold exchange_relay_handshake. rewrite CR_bind_reads.
  rewrite CR_bind_fail. destruct (make_handshake_message _) as [m|e] eqn:E; [|done].
  apply make_type with (type := kHandshake) in E; [|done].
  rewrite CR_bind_eq. cbn [conn_send conn_bind rest_of fst snd asks]. unfold expects_answer. rewrite E. split; [|done]. by split; [|intros []].
Qed.

Lemma paced_exchange c st : paced c c (exchange_relay_handshake st) 1.
Proof.
  unfold exchange_relay_handshake. rewrite CR_bind_reads.
  rewrite CR_bind_fail. destruct (make_handshake_message _) as [m|e]; [|done].
  rewrite CR_bind_eq. intros [[]|e]; [|done]. split; [|intros e; by eexists _, _].
  intros msg. cbn. by destruct (parse_handshake_message msg).
Qed.

Lemma request_block_cases h st (P : Conn (Node * Result unit) → Prop) :
  (∀ e, P (CRet (st, Err e))) →
  (∀ req, m_type req = kBlockRequest → P (CSend req (λ r, rest_of (λ _, inbound ← conn_recv; handle_message ios inbound) (st, r)))) →
  P (request_block ios h st).
Proof.
  intros H1 H2. unfold request_block. rewrite CR_bind_fail.
  destruct (make_block_request_message _) as [req|e] eqn:E; [|done]. apply H2.
  by injection E as <-.
Qed.

Lemma asks_request h st : asks false (request_block ios h st).
Proof.
  apply request_block_cases; [done|]. intros req Ht. cbn [asks]. unfold expects_answer. rewrite Ht. split; [|done].
  cbn [rest_of fst snd orb]. rewrite CR_bind_eq. split; [done|]. intros [m|e]; [|done].
  eapply asks_sending, bounded_handle.
Qed.

Lemma paced_request c s h st : (1 ≤ s)%nat → paced (1 + c) c (request_block ios h st) s.
Proof.
  intros Hs. destruct s as [|s]; [lia|]. apply request_block_cases; [done|]. intros req _ [[]|e]; [|done].
  cbn [rest_of fst snd]. rewrite CR_bind_eq. split; [|intros e; by eexists _, _].
  intros m. apply (paced_sending _ _ _ 1), bounded_handle.
Qed.

Lemma asks_sync_loop fuel : ∀ h target st, asks false (sync_loop ios fuel h target st).
Proof.
  induction fuel as [|fuel IH]; intros h target st; [done|]. cbn [sync_loop]. destruct (h <=? target); [|done].
  rewrite CR_bind_eq. apply asks_bind; [apply asks_request|]. intros [st' [[]|e]]; [apply IH|done].
Qed.

Lemma paced_sync_loop c fuel : ∀ h target st, paced (2 + c) (1 + c) (sync_loop ios fuel h target st) (1 + c).
Proof.
  induction fuel as [|fuel IH]; intros h target st; [done|]. cbn [sync_loop]. destruct (h <=? target); [|cbn; lia].
  rewrite CR_bind_eq. eapply paced_bind; [apply (paced_request (1 + c)); lia|]. intros [] st'. apply IH.
Qed.

Lemma asks_pull n : ∀ st, asks false (pull_blocks ios n st).
Proof.
  induction n as [|n IH]; intros st; [done|]. cbn [pull_blocks]. rewrite CR_bind_reads.
  rewrite CR_bind_eq. apply asks_bind; [apply asks_request|]. intros [st' [[]|e]]; [apply IH|done].
Qed.

Lemma paced_pull c n : ∀ st, paced (2 + c) 1 (pull_blocks ios n st) 1.
Proof.
  induction n as [|n IH]; intros st; [cbn; lia|]. cbn [pull_blocks]. rewrite CR_bind_reads.
  rewrite CR_bind_eq. eapply paced_bind; [apply (paced_request (1 + c)); lia|]. intros [] st'.
  eapply paced_mono; [|apply IH]. lia.
Qed.

Lemma asks_client config options st : asks false (relay_client_session ios config options st).
Proof.
  unfold relay_client_session. rewrite CR_bind_eq. apply asks_bind; [apply asks_exchange|].
  intros [st1 [hs|e]]; [|done]. cbn [rest_of fst snd]. unfold relay_client_after. rewrite CR_bind_eq.
  apply asks_bind; [unfold sync_to; rewrite CR_bind_silent; apply asks_sync_loop|].
  intros [st2 [[]|e]]; [|done]. cbn [rest_of fst snd]. unfold relay_client_finish. rewrite CR_bind_silent.
  unfold reads at 1. cbv beta iota. destruct (negb _); [done|]. rewrite CR_bind_eq.
  apply asks_bind; [eapply asks_sending, bounded_announces|]. intros [st3 [[]|e]]; [|done]. cbn [rest_of fst snd].
  rewrite CR_bind_eq. apply asks_bind; [apply asks_pull|]. intros [st4 [[]|e]]; [|done]. cbn [rest_of fst snd].
  destruct (cfg_persist config); [|done]. rewrite CR_bind_silent. by destruct (peer_save_ledger ios st4) as [st5 [[]|e]].
Qed.

Lemma paced_client config options st :
  paced (2 + length (txs_after_sync options)) 0 (relay_client_session ios config options st) 1.
Proof.
  set (c := length (txs_after_sync options)).
  unfold relay_client_session. rewrite CR_bind_eq. eapply paced_bind; [apply paced_exchange|].
  intros hs st1. unfold relay_client_after. rewrite CR_bind_eq. eapply paced_bind.
  { unfold sync_to. rewrite CR_bind_reads.
    eapply paced_mono; [|apply paced_sync_loop]. lia. }
  intros [] st2. unfold relay_client_finish. rewrite CR_bind_reads.
  destruct (negb _); [done|]. rewrite CR_bind_eq. eapply paced_bind.
  { replace (1 + c)%nat with (c + 1)%nat by lia. apply paced_sending, bounded_announces. }
  intros [] st3. rewrite CR_bind_eq. eapply paced_bind; [apply paced_pull|]. intros [] st4.
  destruct (cfg_persist config); [|apply Nat.le_0_l]. rewrite CR_bind_silent.
  destruct (peer_save_ledger ios st4) as [st5 [[]|e]]; [apply Nat.le_0_l|done].
Qed.
(** A server answers what expects an answer, or ends the session with an error. *)
Definition failed {S A} (sr : S * Result A) : Prop := is_ok sr.2 = false.

Lemma serves_reject {A} owes code reason e (st : Node) :
  serves (failed (A := A)) owes ((_ ← send_reject code reason; fail_with (Err e)) st).
Proof.
  rewrite CR_bind_eq. unfold send_reject. rewrite CR_bind_fail.
  destruct (make_reject_message _) as [m|e']; [|done]. by split.
Qed.

Lemma serves_send owes m (st : Node) : serves failed owes (conn_send m st).
Proof. by split. Qed.

Lemma serves_request owes request st : serves failed owes (on_block_request request st).
Proof.
  unfold on_block_request. rewrite CR_bind_reads.
  destruct (block_at_height _ _) as [b|].
  - rewrite CR_bind_fail. destruct (make_block_response_message _) as [m|e]; [|done]. apply serves_send.
  - unfold send_reject. rewrite CR_bind_fail. destruct (make_reject_message _) as [m|e]; [|done]. apply serves_send.
Qed.

Lemma serves_handle m st : serves failed (expects_answer m) (handle_message ios m st).
Proof.
  unfold handle_message, expects_answer.
  destruct (m_type m); try apply serves_reject; try done; rewrite CR_bind_fail.
  - destruct (parse_ping_message m) as [ping|e]; [|done]. rewrite CR_bind_fail.
    destruct (make_pong_message _) as [pong|e]; [|done]. apply serves_send.
  - destruct (parse_tx_announce_message m) as [p|e]; [|done]. unfold catch, silent. cbn [conn_bind].
    destruct (on_tx_announce ios (m_payload m) st) as [st' [[]|e]]; [done|]. apply serves_reject.
  - by destruct (parse_block_announce_message m).
  - destruct (parse_block_request_message m) as [p|e]; [|done]. apply serves_request.
  - by destruct (parse_block_response_message m).
Qed.

Lemma serves_loop n : ∀ st, serves (λ _, True) false (relay_loop ios n st).
Proof.
  induction n as [|n IH]; intros st; [done|]. rewrite relay_loop_S. split_and!; [done| |].
  - intros m. cbn [relay_next]. rewrite CR_bind_eq. apply serves_bind.
    + eapply serves_impl; [|apply serves_handle]. by intros [st' [[]|e]].
    + intros [st' [[]|e]]; [apply IH|done].
  - intros e. cbn [relay_next]. by destruct (peer_disconnected e).
Qed.

Lemma serves_handshake st : serves failed false (serve_relay_handshake st).
Proof.
  unfold serve_relay_handshake. rewrite CR_bind_eq. cbn [conn_recv conn_bind]. split_and!; [done| |done].
  intros m. cbn [rest_of fst snd]. rewrite CR_bind_fail.
  destruct (parse_handshake_message m) as [hs|e]; [|done]. rewrite CR_bind_reads.
  rewrite CR_bind_fail. destruct (make_handshake_message _) as [m'|e]; [|done]. apply serves_send.
Qed.

Lemma serves_server st : serves (λ _, True) false (serve_relay_connection ios st).
Proof.
  unfold serve_relay_connection. rewrite CR_bind_eq. apply serves_bind.
  { eapply serves_impl; [|apply serves_handshake]. by intros [st' [[]|e]]. }
  intros [st' [[]|e]]; [|done]. cbn [rest_of fst snd]. rewrite CR_bind_eq. apply serves_bind.
  { eapply serves_impl; [|apply serves_loop]. intros [st2 [[]|e]] _; [|done]. cbn [rest_of fst snd].
    rewrite CR_bind_silent. by destruct (persist_ledger ios st2) as [st3 [[]|e]]. }
  intros [st2 [[]|e]]; [|done]. cbn [rest_of fst snd].
  rewrite CR_bind_silent. by destruct (persist_ledger ios st2) as [st3 [[]|e]].
Qed.
End Sessions.

(** The same of the ping mode. *)
Section Pings.
Context {S : Type}.

Lemma ping_client_cases config (st : S) :
  asks false (ping_client_session config st) ∧ paced 1 0 (ping_client_session config st) 1.
Proof.
  unfold ping_client_session, exchange_handshake. rewrite CR_bind_eq, CR_bind_fail.
  destruct (make_handshake_message _) as [m|e] eqn:E; [|by split].
  apply make_type with (type := kHandshake) in E; [|done].
  rewrite CR_bind_eq. cbn [conn_send conn_bind rest_of fst snd]. split.
  - cbn [asks]. unfold expects_answer at 1. rewrite E. split; [|done]. split; [done|]. intros [hs|e]; [|done].
    cbn [conn_bind rest_of fst snd]. rewrite (CR_bind_fail (expect_handshake hs)). destruct (expect_handshake hs) as [p|e]; [|done].
    cbn [mret CR_ret conn_bind rest_of fst snd]. rewrite CR_bind_fail. cbn [make_ping_message mret Result_ret].
    split; [|done]. split; [done|]. intros [pong|e]; [|done]. cbn [conn_bind rest_of fst snd].
    rewrite CR_bind_fail. destruct (parse_pong_message pong) as [p'|e]; [|done]. by destruct (negb _).
  - intros [[]|e]; [|done]. split; [|intros e; by eexists _, _]. intros hs. cbn [conn_bind rest_of fst snd].
    rewrite (CR_bind_fail (expect_handshake hs)). destruct (expect_handshake hs) as [p|e]; [|done].
    cbn [mret CR_ret conn_bind rest_of fst snd]. rewrite CR_bind_fail. cbn [make_ping_message mret Result_ret].
    intros [[]|e]; [|done]. split; [|intros e; by eexists _, _]. intros pong. cbn [conn_bind rest_of fst snd].
    rewrite CR_bind_fail. destruct (parse_pong_message pong) as [p'|e]; [|done].
    destruct (negb _); [done|apply Nat.le_0_l].
Qed.
Lemma serves_ping config (st : S) : serves (λ _, True) false (serve_ping_connection config st).
Proof.
  unfold serve_ping_connection, serve_handshake. rewrite CR_bind_eq, (CR_bind_eq conn_recv). cbn [conn_recv conn_bind].
  split_and!; [done| |done]. intros m. cbn [rest_of fst snd]. rewrite (CR_bind_fail (expect_handshake m)).
  destruct (expect_handshake m) as [hs|e]; [|done]. rewrite CR_bind_fail.
  destruct (make_handshake_message _) as [m'|e]; [|done]. cbn [conn_send conn_bind].
  split; [|done]. split_and!; [done| |done]. intros ping. cbn [conn_bind rest_of fst snd].
  rewrite CR_bind_fail. destruct (parse_ping_message ping) as [p|e]; [|done]. rewrite CR_bind_fail.
  cbn [make_pong_message mret Result_ret]. by split.
Qed.
End Pings.

(** ** Every run of a session ends *)

(** Whatever the two nodes, their chains and their settings are. *)
Lemma relay_runs_end eof iosc ioss config options (nc ns : Node) k net :
  let t := length (txs_after_sync options) in
  nsteps (net_step eof) k
    (mkNet (relay_client_session iosc config options nc) (serve_relay_connection ioss ns) [] []) net →
  (k ≤ 131 + 66 * (t + 3))%nat ∧
  (at_rest (net_step eof) net → ended (left_ net) = true ∧ ended (right_ net) = true).
Proof.
  intros t Hk. eapply runs_end; [apply paced_client|apply bounded_serve|apply asks_client|apply serves_server| |exact Hk].
  fold t. lia.
Qed.

(** Whatever the two configurations are. *)
Lemma ping_runs_end {S1 S2} eof cc cs (nc : S1) (ns : S2) k net :
  nsteps (net_step eof) k (mkNet (ping_client_session cc nc) (serve_ping_connection cs ns) [] []) net →
  (k ≤ 11)%nat ∧ (at_rest (net_step eof) net → ended (left_ net) = true ∧ ended (right_ net) = true).
Proof.
  intros Hk. eapply runs_end; [apply ping_client_cases|apply bounded_ping_server|apply ping_client_cases|apply serves_ping| |exact Hk].
  lia.
Qed.
