(* ===== verification/RelayCases.v ===== *)
(** * Relay sessions beyond a plain synchronisation

    The same two programs as in [RelaySync], when the two chains differ, and when the client
    has transactions to announce.  Runs are again given in one order. *)

From S2P Require Import Prelude Errors Sha256 ByteIO Transaction Block Utxo TxValidation BlockValidation Mempool Chain BlockBuilder ChainStore P2pMessage P2pPayloads Effects Text SocketIO Peers Config PeerState PeerInv Network RelaySync.

(** ** Sessions with options *)

Section Cases.
Context (iosc ioss : nat → Io) (eof : Error) (Heof : peer_disconnected eof = true).
Context (config : NodeConfig) (options : RelayClientOptions).

Definition session_net (nc ns : Node) : Net (Node * Result RelayClientResult) (Node * Result RelaySessionSummary) :=
  mkNet (relay_client_session iosc config options nc) (serve_relay_connection ioss ns) [] [].

(** What is left of the client after the synchronisation. *)
Definition finish_rest (target : Z) : Node * Result unit → Conn (Node * Result RelayClientResult) :=
  rest_of (λ _, relay_client_finish iosc config options target).

Context {bs bsc : list Block} {ss sc : PeerState} (Hss : peer_ok bs ss) (Hsc : peer_ok bsc sc).
Context (ws wc : World) (Hid_s : node_id_ok ss) (Hid_c : node_id_ok sc).

(** Both sides have announced themselves: the client is about to ask for the blocks it
    does not have, the server for its messages. *)
Lemma greeted :
  let h := peer_height sc + 1 in
  nsteps (net_step eof) 4 (session_net (sc, wc) (ss, ws))
    (mkNet (conn_bind (finish_rest (peer_height ss))
              (sync_loop iosc (S (Z.to_nat (peer_height ss + 1 - wrap32 h))) (wrap32 h) (peer_height ss) (sc, wc)))
           (conn_bind (server_rest ioss) (relay_loop ioss 64 (ss, ws))) [] []).
Proof.
  intros h. unfold session_net, relay_client_session, serve_relay_connection.
  rewrite (CR_bind_eq exchange_relay_handshake), (CR_bind_eq serve_relay_handshake).
  eapply (nsteps_trans 4 0); [by eapply handshakes|].
  cbn [rest_of fst snd]. unfold relay_client_after. rewrite !CR_bind_eq. cbn [peer_local_handshake hs_height].
  assert (sync_to iosc (peer_height ss) (sc, wc) =
    sync_loop iosc (S (Z.to_nat (peer_height ss + 1 - wrap32 h))) (wrap32 h) (peer_height ss) (sc, wc)) as ->;
    [|apply nsteps_O].
  unfold sync_to. rewrite CR_bind_silent. unfold reads. done.
Qed.

(** The server finds its peer gone. *)
Lemma server_alone {A} (a : A) n ns :
  nsteps (net_step eof) 1 (mkNet (CRet a) (conn_bind (server_rest ioss) (relay_loop ioss (S n) ns)) [] [])
    (mkNet (CRet a) (CRet (served ioss ns)) [] []).
Proof.
  destruct ns as [s w]. rewrite relay_loop_S. cbn [conn_bind]. apply nsteps_once.
  rewrite <- (server_ends ioss eof Heof w n). by apply right_eof.
Qed.

(** ** Chains that differ *)

(** Whatever a client at the server's height or above it holds, it asks for nothing. *)
Lemma nothing_to_ask c : peer_height ss ≤ peer_height sc < UINT32_MAX →
  relay_client_finish iosc config options (peer_height ss) (sc, wc) = CRet c →
  nsteps (net_step eof) 5 (session_net (sc, wc) (ss, ws)) (mkNet (CRet c) (CRet (served ioss (ss, ws))) [] []).
Proof.
  intros Hle Hc. apply (nsteps_trans 4 1 _ _ _ greeted). rewrite sync_loop_S.
  pose proof (peer_height_size Hsc). rewrite wrap32_small by solve_u.
  destruct (_ <=? _) eqn:E; [lia|]. cbn [conn_bind finish_rest rest_of fst snd]. rewrite Hc. apply server_alone.
Qed.

Lemma behind_client : peer_height ss < peer_height sc →
  relay_client_finish iosc config options (peer_height ss) (sc, wc) =
  CRet ((sc, wc), make_error kInvalidBlock
    ("relay client did not reach target height " +:+ std_to_string (peer_height ss))).
Proof.
  intros H. unfold relay_client_finish. rewrite CR_bind_reads. cbn [fst].
  destruct (peer_height sc =? peer_height ss) eqn:E; [lia|done].
Qed.

(** A block that does not name the tip as its predecessor is refused. *)
Lemma unlinked_block b rest : b :: rest `suffix_of` bs → rest ≠ [] → prev_block (header b) ≠ peer_tip_hash sc →
  peer_connect_block b (sc, wc) = ((sc, wc), make_error kInvalidBlock "block does not extend the current tip").
Proof.
  intros Hsuf Hne Hprev. pose proof (po_params _ _ Hss) as Hp.
  destruct (chain_of_suffix _ _ _ _ (po_chain _ _ Hss) Hsuf) as [c' Hc']; [done|].
  inversion Hc' as [|bs1 c1 b1 pool ? pool' fees Hc1 Hty Hsub]; subst; [done|].
  destruct (chain_of_wf _ Hp _ _ Hc1) as [Hwf _].
  apply submit_block_Ok in Hsub as ([Hv _ _ _] & _); [|done|done].
  assert (submit_block b (Some (mempool_ sc)) (chain_ sc) =
    (chain_ sc, Some (mempool_ sc), make_error kInvalidBlock "block does not extend the current tip")) as E.
  { unfold submit_block, check_links_to. rewrite Hv. change (negb (kBlockVersion =? kBlockVersion)) with false.
    rewrite bool_decide_eq_false_2 by done. done. }
  unfold peer_connect_block. rewrite E. by destruct sc.
Qed.

(** The client asks a server that is ahead for the next block, and gives up on it. *)
Lemma refused_block b rest : Forall block_fits bs → peer_height ss < UINT32_MAX →
  b :: rest `suffix_of` bs → size_z rest = peer_height sc + 1 → prev_block (header b) ≠ peer_tip_hash sc →
  nsteps (net_step eof) 9 (session_net (sc, wc) (ss, ws))
    (mkNet (CRet ((sc, wc), make_error kInvalidBlock "block does not extend the current tip"))
           (CRet (served ioss (ss, ws))) [] []).
Proof.
  intros Hfits Hmax Hsuf Hlen Hprev. apply (nsteps_trans 4 5 _ _ _ greeted).
  destruct (block_in_chain Hss Hfits b rest Hsuf) as (Hat & Hf & Hwf & Hle).
  destruct (peer_chain_wf Hsc) as ((_ & _ & _ & _ & Hh) & _). change (is_u32 (peer_height sc)) in Hh.
  rewrite Hlen in *. rewrite wrap32_small by solve_u. rewrite sync_loop_S, (proj2 (Z.leb_le _ _) Hle).
  eapply (nsteps_trans 4 1).
  - apply (request_run iosc ioss eof (server_rest ioss) (λ m, conn_bind (finish_rest (peer_height ss)) (conn_bind _ m))
      _ 63 b _ _ _ _ (sc, wc) (make_error kInvalidBlock "block does not extend the current tip")); try done; [solve_u|].
    apply (unlinked_block b rest); [done| |done]. intros ->. change (0 = peer_height sc + 1) in Hlen. solve_u.
  - apply server_alone.
Qed.
End Cases.

(** ** A transaction that is announced

    A server that mines after each announced transaction puts it in a block, when its pool
    was empty and the transaction applies to its coins at the next height. *)

Lemma select_single params h e u0 size w fee :
  0 < bt_max_transactions params → is_u64 fee → wrap64 (size + e_size_bytes e) ≤ max_block_size_bytes params →
  check_transaction_inputs (e_transaction e) u0 = Ok fee →
  check_coinbase_maturity (e_transaction e) u0 h (coinbase_maturity (BlockBuilder.consensus params)) = Ok tt →
  try_apply (e_transaction e) h u0 = Some w →
  select_transactions params h [e] (mkSelection u0 0 size 0 []) =
    mkSelection w fee (wrap64 (size + e_size_bytes e)) 1 [e_transaction e].
Proof.
  intros Hm Hf Hs Hc Hmat Hw. cbn [select_transactions sel_count sel_size sel_working sel_fees sel_txs].
  destruct (_ <=? 0) eqn:E1; [lia|]. destruct (_ <? wrap64 _) eqn:E2; [lia|].
  rewrite Hc, Hmat, Hw. unfold checked_add. destruct (_ <? 0) eqn:E3; [solve_u|done].
Qed.

(** The steps of the selection for a transaction that applies. *)
Lemma applies_selected h params tx u u' fee :
  params_wf params → is_u32 h → tx_typed tx → tx_sane tx → utxos_wf u →
  tx_applies h params tx u u' fee →
  check_transaction_inputs tx u = Ok fee ∧ check_coinbase_maturity tx u h (coinbase_maturity params) = Ok tt ∧
  try_apply tx h u = Some u' ∧ is_u64 fee.
Proof.
  intros Hp Hh Hty Hs Hu Hap.
  assert (is_u64 fee) as Hfee.
  { destruct Hap as [(cs & _ & Hb & -> & Hpos) _ _ _]. pose proof (out_value_nonneg tx Hty). solve_u. }
  assert (connect_tx h params tx u 0 = Ok (u', fee)) as H.
  { apply connect_tx_Ok; [done..|]. exists fee. split_and!; [done|lia|solve_u]. }
  unfold connect_tx in H. apply bind_Ok in H as (f & Hf & H). apply bind_Ok in H as ([] & Hm & H).
  apply bind_Ok in H as (u1 & H1 & H). apply bind_Ok in H as (u2 & H2 & H).
  unfold checked_add in H. destruct (_ <? 0); [discriminate H|]. injection H as -> <-.
  split_and!; [by rewrite Hf|done| |done]. unfold try_apply. rewrite H1. cbn [mbind Result_bind]. by rewrite H2.
Qed.

Lemma single_entry m id e : by_txid_ m = {[id := e]} → entries_by_feerate m = [e].
Proof.
  intros E. pose proof (entries_by_feerate_perm m) as H. rewrite E in H.
  unfold pool_entries, in_order in H. rewrite map_to_list_singleton in H. cbn in H.
  by apply Permutation_singleton_r in H.
Qed.

(** What a pool that was empty holds after it has accepted a transaction. *)
Lemma accept_first tx utxos policy limits pool :
  pool_wf (new_mempool limits) → tx_typed tx → utxos_wf utxos → policy_wf policy →
  accept tx utxos policy (new_mempool limits) = (pool, Ok tt) →
  pool_wf pool ∧ tx_sane tx ∧ is_coinbase tx = false ∧
  ∃ fee, by_txid_ pool = {[txid tx := mkEntry tx (txid tx) fee (size_z (tx_to_bytes tx))]}.
Proof.
  intros Hm Hty Hu Hp H. apply accept_run in H as (Hwf & fee & m1 & Hv & [_ Hsub _] & _ & Hins & -> & _); [|done..].
  assert (by_txid_ m1 = ∅) as E1.
  { apply map_empty. intros id. destruct (by_txid_ m1 !! id) as [e|] eqn:Ee; [|done].
    apply (lookup_weaken _ _ _ _ Ee) in Hsub. done. }
  assert (by_txid_ (insert_entry (mkEntry tx (txid tx) fee (size_z (tx_to_bytes tx))) m1) =
    {[txid tx := mkEntry tx (txid tx) fee (size_z (tx_to_bytes tx))]}) as E.
  { rewrite insert_entry_by_txid by done. by rewrite E1. }
  destruct (pw_entries _ Hwf (txid tx) (mkEntry tx (txid tx) fee (size_z (tx_to_bytes tx)))) as [_ [_ _ _ _ Hs Hc]];
    [by rewrite E, lookup_singleton_eq|].
  split_and!; [done|done|done|by exists fee].
Qed.

(** The announcement of a transaction arrives whole. *)
Lemma announced_parses tx : tx_wf tx → size_z (tx_to_bytes tx) ≤ kMaxTransactionSizeBytes →
  tx_announce_wf (mkTxAnnounce (tx_to_bytes tx)) ∧ parse_transaction_bytes (tx_to_bytes tx) = Ok tx.
Proof.
  intros Hwf Hsz. split.
  - split; cbn [tx_bytes]; [|exact Hsz]. rewrite tx_to_bytes_enc. intros E. apply (f_equal length) in E.
    unfold enc_tx in E. rewrite !length_app, length_le_bytes in E. cbn in E. lia.
  - rewrite tx_to_bytes_enc. by apply (parse_all_enc (get := tx_deserialize)).
Qed.

Lemma announce_message p : tx_announce_wf p →
  ∃ m, make_tx_announce_message p = Ok m ∧ m_type m = kTxAnnounce ∧ m_payload m = enc_tx_announce p ∧
    sendable m = true ∧ deliver m = Ok m ∧ parse_tx_announce_message m = Ok p.
Proof.
  intros Hwf. apply (payload_message kTxAnnounce tx_announce_wf enc_tx_announce _ _ p Hwf).
  unfold enc_tx_announce, enc_var_bytes. rewrite length_app, length_le_bytes. destruct Hwf as [_ Hlen].
  change kMaxTransactionSizeBytes with 65536 in Hlen. change kMaxP2pPayloadBytes with 1048576. lia.
Qed.

(** It is handled as the transaction. *)
Lemma on_announced ios tx n : tx_wf tx → size_z (tx_to_bytes tx) ≤ kMaxTransactionSizeBytes →
  on_tx_announce ios (enc_tx_announce (mkTxAnnounce (tx_to_bytes tx))) n =
  (_ ← accept_transaction tx; after ← reads (λ n, mine_after_tx_ n.1);
   if 0 <? after then mine_blocks ios after else mret tt) n.
Proof.
  intros Hwf Hsz. destruct (announced_parses tx Hwf Hsz) as [Hawf Hparse].
  unfold on_tx_announce. erewrite (SR_bind_eq (lift _)).
  2: { unfold lift. f_equal. apply (parse_all_enc (get := read_tx_announce)). done. }
  cbn [tx_bytes]. by erewrite (SR_bind_eq (lift _)) by (unfold lift; by rewrite Hparse).
Qed.

(** The timestamp a node gives its next block. *)
Definition next_timestamp (s : PeerState) : Z :=
  block_timestamp (genesis_timestamp_ s) (wrap32 (peer_height s + 1)).

Section Announced.
Context (ios : nat → Io) {bs : list Block} {ss : PeerState} (Hss : peer_ok bs ss) (ws : World).
Context (tx : Transaction) (pool : Mempool) (limits : MempoolLimits) (u' : UtxoSet) (fee : Z).
Abbreviation chain := (chain_ ss).
Context (Hty : tx_typed tx) (Hempty : mempool_ ss = new_mempool limits).
Context (Haccept : accept tx (utxos_ chain) (mempool_policy_ ss) (mempool_ ss) = (pool, Ok tt)).
Context (Happlies : tx_applies (peer_height ss + 1) (params_ chain) tx (utxos_ chain) u' fee).
Context (Henv : producer_env chain (next_timestamp ss) pool (tmpl_params_ ss)).
(** The coinbase of the block. *)
Abbreviation reward := (make_coinbase (peer_height ss + 1) (block_subsidy (params_ chain) + fee)
  (coinbase_recipient (tmpl_params_ ss))).
Context (Hfresh : coinbase_fresh reward pool (utxos_ chain)).
Context (Hroom : 176 + tx_size tx ≤ max_block_size_bytes (tmpl_params_ ss)).

(** The node with the transaction in its pool. *)
Abbreviation s1 := (set_chain_pool chain pool ss).

Lemma template_selects :
  ∃ size, template_selection (tip_ chain) (next_timestamp ss) pool (utxos_ chain) (tmpl_params_ ss) =
    mkSelection u' fee size 1 [tx] ∧ wrap32 (height (tip_ chain) + 1) = peer_height ss + 1.
Proof.
  pose proof (peer_chain_wf Hss) as (_ & Hu & Hp).
  pose proof Haccept as Hacc. rewrite Hempty in Hacc.
  apply accept_first in Hacc as (Hpool & Hs & Hcb & f & E); [|rewrite <- Hempty; apply Hss|done|done|apply Hss].
  assert (template_env (tip_ chain) (next_timestamp ss) pool (utxos_ chain) (tmpl_params_ ss)) as Hte.
  { apply (producer_template_env bs); rewrite ?(pe_consensus _ _ _ _ Henv); [done|apply Hss|done]. }
  destruct (next_height _ _ _ _ _ Hte) as [Eh Hh]. pose proof (pe_count _ _ _ _ Henv) as Hmax.
  destruct (applies_selected _ _ _ _ _ _ Hp (eq_ind _ is_u32 Hh _ Eh) Hty Hs Hu Happlies) as (Hci & Hmat & Hap & Hfee).
  rewrite <- (pe_consensus _ _ _ _ Henv) in Hmat. eexists. split; [|exact Eh].
  unfold template_selection. rewrite (single_entry _ _ _ E), (base_size _ _ _ _ _ Hte), Eh.
  rewrite (select_single _ _ _ _ _ u' fee); try done; cbn [e_size_bytes].
  - by rewrite (se_count _ (po_settings _ _ Hss)).
  - pose proof (sane_size _ Hs). rewrite wrap64_small; [exact Hroom|]. change kMaxTransactionSizeBytes with 65536 in *. solve_u.
Qed.

Lemma template_includes :
  ∃ t, build_block_template (tip_ chain) (next_timestamp ss) pool (utxos_ chain) (tmpl_params_ ss) = Ok t ∧
    transactions (bt_block t) = [reward; tx] ∧ (∃ chain' pool',
    submit_block (bt_block t) (Some pool) chain = (chain', Some pool', Ok (bt_total_fees t))).
Proof.
  destruct template_selects as (size & Esel & Eh). pose proof (pe_consensus _ _ _ _ Henv) as Eco.
  assert (template_coinbase (tip_ chain) (next_timestamp ss) pool (utxos_ chain) (tmpl_params_ ss) = reward) as Ecb.
  { unfold template_coinbase. by rewrite Esel, Eh, Eco. }
  destruct (producer_accepted bs chain (next_timestamp ss) pool (tmpl_params_ ss)) as
    (t & txs & chain' & pool' & Ht & Hsub & _);
    [rewrite Eco; apply (peer_chain_wf Hss)|rewrite Eco; apply Hss|done|by rewrite Ecb|].
  exists t. split; [done|]. split; [|by exists chain', pool'].
  by rewrite (built_transactions _ _ _ _ _ _ Ht), Ecb, Esel.
Qed.

Lemma announce_wf : tx_sane tx →
  tx_announce_wf (mkTxAnnounce (tx_to_bytes tx)) ∧ parse_transaction_bytes (tx_to_bytes tx) = Ok tx.
Proof. intros Hs. apply announced_parses; [by split_and!; [|apply Hs..]|apply (sane_size _ Hs)]. Qed.

(** A block of a coinbase and one more transaction. *)
Lemma small_block_fits b h v r : tx_sane tx → block_typed b → transactions b = [make_coinbase h v r; tx] → block_fits b.
Proof.
  intros Hs [Hh Htxs] E. rewrite E in Htxs. apply Forall_cons in Htxs as [Hcb _].
  unfold block_fits. rewrite block_size by done. rewrite E. cbn [fmap list_fmap sum_z foldr].
  pose proof (sane_size _ Hs) as Hsz. fold (tx_size tx) in Hsz.
  assert (tx_size (make_coinbase h v r) = 92) as -> by (unfold tx_size; by rewrite tx_to_bytes_enc, length_enc_tx).
  change kMaxTransactionSizeBytes with 65536 in Hsz. change kMaxP2pPayloadBytes with 1048576. lia.
Qed.

(** The handler accepts the transaction and mines the block that contains it. *)
Lemma announced_mined : mine_after_tx_ ss = 1 → persist_ ss = false →
  ∃ b ss', on_tx_announce ios (enc_tx_announce (mkTxAnnounce (tx_to_bytes tx))) (ss, ws) = ((ss', ws), Ok tt) ∧
    peer_ok (b :: bs) ss' ∧ same_settings ss ss' ∧ transactions b = [reward; tx] ∧ by_txid_ (mempool_ ss') = ∅ ∧
    block_fits b.
Proof.
  intros Hafter Hpers. pose proof (peer_chain_wf Hss) as (_ & Hu & _).
  pose proof Haccept as Hacc. rewrite Hempty in Hacc.
  apply accept_first in Hacc as (_ & Hs & _ & f & E); [|rewrite <- Hempty; apply Hss|done|done|apply Hss].
  assert (accept_transaction tx (ss, ws) = ((s1, ws), Ok tt)) as Ea by (unfold accept_transaction; by rewrite Haccept).
  pose proof Ea as Ea'. apply (accept_keeps Hss) in Ea' as (_ & Hset1 & Hok1 & _); [|done]. cbn [fst] in *.
  destruct template_includes as (t & Ht & Htxs & chain' & pool' & Hsub).
  destruct (peer_connect_block (bt_block t) (s1, ws)) as [[ss' w'] r] eqn:Ec. pose proof Ec as Ec'.
  apply (connect_block_keeps Hok1) in Ec' as (Hw & Hset & Hr); [|by eapply mine_one_typed]. cbn [fst snd] in *. subst w'.
  assert (block_typed (bt_block t)) as Hbt by (by eapply (mine_one_typed s1 bs)).
  assert (r = Ok tt) as ->.
  { unfold peer_connect_block in Ec. cbn [chain_ mempool_ set_chain_pool] in Ec. rewrite Hsub in Ec. by injection Ec. }
  destruct Hr as (Hok' & _ & _ & Hpool').
  exists (bt_block t), ss'. split_and!; [|done|by etrans|done| |exact (small_block_fits _ _ _ _ Hs Hbt Htxs)].
  - rewrite on_announced; [|by split_and!; [|apply Hs..]|apply (sane_size _ Hs)].
    erewrite SR_bind_eq by exact Ea. erewrite (SR_bind_eq (reads _)) by reflexivity. cbn [fst mine_after_tx_ set_chain_pool].
    rewrite Hafter. change (0 <? 1) with true. cbv beta iota. unfold mine_blocks.
    assert (mine_loop 1 (s1, ws) = ((ss', ws), Ok tt)) as El.
    { cbn [mine_loop]. erewrite SR_bind_eq; [reflexivity|]. unfold mine_one. cbn [chain_ mempool_ genesis_timestamp_ tmpl_params_ set_chain_pool].
      unfold next_timestamp in Ht. change (peer_height s1) with (peer_height ss). rewrite Ht. exact Ec. }
    erewrite SR_bind_eq by exact El. unfold persist_ledger. cbn [fst].
    destruct Hset as (_ & _ & _ & _ & _ & _ & -> & _). cbn [persist_ set_chain_pool]. by rewrite Hpers.
  - rewrite Hpool'. cbn [mempool_ set_chain_pool]. rewrite Htxs. apply map_empty. intros id. rewrite prune_lookup, E.
    case_decide as Hin; [done|]. apply lookup_singleton_ne. intros <-. apply Hin. rewrite !fmap_cons. right. left.
Qed.
End Announced.

(** *** The session *)
Section Submitted.
Context (iosc ioss : nat → Io) (eof : Error) (Heof : peer_disconnected eof = true).
Context (config : NodeConfig) (Hconfig : cfg_persist config = false) (tx : Transaction).

(** Announce [tx] after the synchronisation and ask for one more block. *)
Definition one_tx : RelayClientOptions := mkRelayClientOptions [tx] 1.

Context {bs : list Block} {ss : PeerState} (Hss : peer_ok bs ss) (ws wc : World).
Context {b : Block} {ss' : PeerState} (Hss' : peer_ok (b :: bs) ss').
Context (Hwf : tx_announce_wf (mkTxAnnounce (tx_to_bytes tx))).
Context (Hmined : on_tx_announce ioss (enc_tx_announce (mkTxAnnounce (tx_to_bytes tx))) (ss, ws) = ((ss', ws), Ok tt)).
Context (Hfits : Forall block_fits (b :: bs)) (Hmax : peer_height ss + 1 < UINT32_MAX).

(** From equal chains: the announcement, the request and its block. *)
Lemma submit_run sc n :
  peer_ok bs sc → params_ (chain_ sc) = params_ (chain_ ss') → persist_ sc = false →
  ∃ sc', peer_ok (b :: bs) sc' ∧ same_settings sc sc' ∧
    nsteps (net_step eof) 7
      (mkNet (finish_rest iosc config one_tx (peer_height ss) ((sc, wc), Ok tt))
             (conn_bind (server_rest ioss) (relay_loop ioss (S (S (S n))) (ss, ws))) [] [])
      (mkNet (CRet ((sc', wc), Ok (mkRelayClientResult (peer_height sc') (peer_tip_hash sc'))))
             (CRet (served ioss (ss', ws))) [] []).
Proof.
  intros Hsc Hpar Hpers.
  destruct (connect_next Hss' b bs sc wc Hsc Hpar (reflexivity _)) as (sc' & Ec & Hsc' & Hset & _).
  exists sc'. split; [done|]. split; [done|].
  destruct (block_in_chain Hss' Hfits b bs (reflexivity _)) as (Hat & Hf & Hbwf & _).
  pose proof (peer_height_size Hss) as Hs. pose proof (peer_height_size Hsc) as Hc.
  destruct (peer_chain_wf Hsc) as ((_ & _ & _ & _ & Hu) & _). change (is_u32 (peer_height sc)) in Hu.
  destruct (announce_message _ Hwf) as (m & Hm & Ht & Hpl & Hsend & Hdel & Hparse).
  assert (handle_message ioss m (ss, ws) = CRet ((ss', ws), Ok tt)) as Hh.
  { unfold handle_message. rewrite Ht, CR_bind_fail, Hparse. unfold catch, silent. cbn [conn_bind fst snd].
    rewrite Hpl, Hmined. done. }
  unfold finish_rest, relay_client_finish. cbn [rest_of fst snd]. rewrite CR_bind_reads. cbn [fst].
  destruct (peer_height sc =? peer_height ss) eqn:E; [|lia]. cbn [negb].
  rewrite CR_bind_eq. unfold one_tx. cbn [txs_after_sync send_tx_announces blocks_after_tx].
  rewrite CR_bind_fail, Hm, (CR_bind_eq (conn_send m)). cbn [conn_send conn_bind]. rewrite relay_loop_S. cbn [conn_bind].
  eapply nsteps_l; [eapply left_sends|]. rewrite enqueue_sendable by done. cbn [fst snd app].
  eapply nsteps_l; [eapply right_receives|]. rewrite Hdel. cbn [relay_next]. rewrite (CR_bind_eq (handle_message ioss m)), Hh.
  cbn [conn_bind rest_of fst snd send_tx_announces mret CR_ret]. change (Z.to_nat 1) with 1%nat. cbn [pull_blocks].
  rewrite CR_bind_eq, CR_bind_reads. cbn [fst].
  rewrite wrap32_small, (CR_bind_eq (request_block _ _)) by solve_u.
  eapply (nsteps_trans 4 1).
  - refine (request_run iosc ioss eof (server_rest ioss) (λ m, conn_bind _ (conn_bind _ m)) _ (S n) b sc wc ss' ws (sc', wc) (Ok tt) _ _ _ _ _ _).
    + solve_u.
    + by replace (peer_height sc + 1) with (size_z bs).
    + done.
    + done.
    + exact Ec.
    + intros _. cbn [fst]. destruct Hset as (_ & _ & _ & _ & _ & _ & -> & _). exact Hpers.
  - cbn [conn_bind rest_of fst snd mret CR_ret]. rewrite Hconfig. apply server_alone. exact Heof.
Qed.

(** The whole session, for a client up to 61 blocks behind. *)
Lemma submitted_session l bsc sc :
  peer_ok bsc sc → node_id_ok ss → node_id_ok sc → params_ (chain_ sc) = params_ (chain_ ss) →
  params_ (chain_ ss') = params_ (chain_ ss) → persist_ sc = false → bs = reverse l ++ bsc → (length l < 62)%nat →
  ∃ sc', peer_ok (b :: bs) sc' ∧ same_settings sc sc' ∧
    nsteps (net_step eof) (4 * length l + 11) (session_net iosc ioss config one_tx (sc, wc) (ss, ws))
      (mkNet (CRet ((sc', wc), Ok (mkRelayClientResult (peer_height sc') (peer_tip_hash sc'))))
             (CRet (served ioss (ss', ws))) [] []).
Proof.
  intros Hsc His Hic Hpar Hpar' Hpers El Hlen. pose proof (proj2 (proj1 (Forall_cons _ _ _) Hfits)) as Hf.
  pose proof (peer_height_size Hss) as Hs. pose proof (peer_height_size Hsc) as Hc.
  pose proof Hs as Hs'. rewrite El, length_app, length_reverse in Hs'.
  assert (peer_height ss < UINT32_MAX) as Hmx by lia.
  destruct (sync_run Hss Hf iosc ioss eof Hmx (finish_rest iosc config one_tx (peer_height ss)) (server_rest ioss) ws
    l bsc sc wc 1 (64 - length l)) as (sc1 & Hsc1 & Hset1 & _ & Hrun); [done|done|done|by rewrite El|].
  rewrite <- El in *. pose proof Hset1 as (_ & _ & _ & _ & _ & _ & Ep1 & _ & Epar1).
  destruct (submit_run sc1 (61 - length l)) as (sc' & Hsc' & Hset' & Hrun'); [done|congruence|congruence|].
  exists sc'. split_and!; [done|by etrans|].
  replace (4 * length l + 11)%nat with (4 + (4 * length l + 7))%nat by lia.
  eapply nsteps_trans; [by apply (greeted iosc ioss eof config one_tx Hss Hsc)|].
  assert (wrap32 (peer_height sc + 1) = size_z bsc) as Eh by (rewrite wrap32_small; solve_u).
  cbv zeta. rewrite Eh. replace (S (Z.to_nat (peer_height ss + 1 - size_z bsc))) with (length l + 1)%nat by lia.
  eapply nsteps_trans.
  { replace 64%nat with (length l + (64 - length l))%nat by lia. exact Hrun. }
  rewrite sync_loop_S. destruct (size_z bs <=? peer_height ss) eqn:E; [lia|]. cbn [conn_bind].
  replace (64 - length l)%nat with (S (S (S (61 - length l)))) by lia. exact Hrun'.
Qed.
End Submitted.
