(* ===== verification/NodeStart.v ===== *)
(** * Starting a node

    What [PeerState::from_config] builds: from nothing, a genesis block and the blocks it
    was asked to mine; from a ledger, the chain, the catalog and the pool it stores.  The last
    part starts nodes again: after a save, and after a save that the system interrupted. *)

From S2P Require Import Prelude Errors Sha256 ByteIO Transaction Block Utxo TxValidation BlockValidation Mempool Chain BlockBuilder ChainStore P2pMessage P2pPayloads Effects Text Config PeerState PeerInv.

Lemma consensus_params_wf config : config_typed config → params_wf (build_consensus_params config).
Proof.
  intros (_ & Hs & _ & _ & _ & _ & _ & Hm & _). unfold build_consensus_params.
  split; cbn [block_subsidy coinbase_maturity]; case_match; done.
Qed.

Lemma recipient_wf config r : resolve_coinbase_recipient config = Ok r → hash_wf r.
Proof.
  unfold resolve_coinbase_recipient. case_bool_decide; [by intros [= <-]|]. apply hash_from_hex_wf.
Qed.

Lemma valid_recipient config : config_valid config → ∃ r, resolve_coinbase_recipient config = Ok r.
Proof.
  intros [_ _ [E|[h E]] _ _]; unfold resolve_coinbase_recipient.
  - rewrite bool_decide_true by done. by eexists.
  - case_bool_decide; by eexists.
Qed.

(** ** Coins and their transactions *)

(** A coin of a chain was created by a transaction of one of its blocks. *)
Lemma block_applies_origin block params u u' fees o c :
  block_applies block params u u' fees → u' !! o = Some c →
  u !! o = Some c ∨ op_txid o ∈ txid <$> transactions block.
Proof.
  intros (_ & _ & u1 & Hap & Hcb) Ho.
  assert (u1 !! o = Some c ∨ op_txid o ∈ txid <$> transactions block) as [H1|]; [|clear Ho|by right].
  - unfold coinbase_applies in Hcb. destruct (transactions block) as [|cb txs]; [left; congruence|].
    destruct (is_coinbase cb); [|left; congruence]. destruct Hcb as (_ & _ & _ & ->).
    apply lookup_union_Some_raw in Ho as [Ho|[_ Ho]]; [|by left].
    apply tx_coins_lookup in Ho as (-> & _). right. left.
  - destruct (txs_apply_origin _ _ _ _ _ _ _ _ Hap H1) as [|Hin]; [by left|right].
    unfold regular_txs in Hin. case_match; [|done].
    destruct (transactions block) as [|cb txs]; [done|]. by right.
Qed.

Lemma chain_of_origin params bs chain o c :
  params_wf params → chain_of params bs chain → utxos_ chain !! o = Some c →
  op_txid o ∈ txid <$> (bs ≫= transactions).
Proof.
  intros Hp H. revert bs chain H o c. apply (chain_of_ind' params Hp (λ bs chain, ∀ o c,
    utxos_ chain !! o = Some c → op_txid o ∈ txid <$> (bs ≫= transactions))).
  - intros g u fees _ _ Hap o c Ho. cbn [utxos_] in Ho.
    destruct (block_applies_origin _ _ _ _ _ _ _ Hap Ho) as [?|?]; [done|]. cbn. by rewrite app_nil_r.
  - intros bs ch b u fees _ IH _ _ Hap o c Ho. cbn [utxos_] in Ho.
    change ((b :: bs) ≫= transactions) with (transactions b ++ (bs ≫= transactions)).
    rewrite fmap_app, elem_of_app. destruct (block_applies_origin _ _ _ _ _ _ _ Hap Ho) as [H|H]; [right|by left].
    by eapply IH.
Qed.

(** ** Mining with an empty pool *)

Lemma new_entries limits : entries_by_feerate (new_mempool limits) = [].
Proof. unfold entries_by_feerate, pool_entries, in_order. cbn [new_mempool by_txid_]. by rewrite map_to_list_empty. Qed.

Section Mining.
Context (config : NodeConfig) (Htyped : config_typed config).
Context (recipient : Hash256) (Hrecipient : resolve_coinbase_recipient config = Ok recipient).

Abbreviation params := (build_consensus_params config).
Abbreviation tmpl := (build_template_params config params recipient).
Abbreviation genesis := (build_genesis_block config).

(** The coinbase of the block at [h] when there are no fees. *)
Definition plain_coinbase (h : Z) : Transaction := make_coinbase h (block_subsidy params) recipient.

(** The blocks of a node that has only mined: each pays the subsidy to the recipient. *)
Record mined (bs : list Block) : Prop := {
  mi_genesis : reverse bs !! 0%nat = Some genesis;
  mi_blocks i b : reverse bs !! S i = Some b →
    transactions b = [plain_coinbase (Z.of_nat (S i))] ∧
    timestamp (header b) = cfg_genesis_timestamp config + Z.of_nat (S i);
}.

Lemma genesis_typed : block_typed genesis.
Proof. destruct Htyped as (H & _). split; [|constructor]. split_and!; done. Qed.

Lemma genesis_created : create genesis params = Ok (mkChain (header genesis) ∅ params).
Proof.
  apply create_Ok; [apply genesis_typed|by apply consensus_params_wf|]. split; [by split|].
  exists ∅, 0. split; [|done]. split; [|split; [done|]].
  - split; cbn; try done. constructor.
  - exists ∅. split; [constructor|done].
Qed.

Lemma mined_genesis : mined [genesis].
Proof. split; [done|]. intros i b H. discriminate H. Qed.

Lemma mined_transactions bs tx :
  mined bs → tx ∈ bs ≫= transactions → ∃ h, 0 < h < size_z bs ∧ tx = plain_coinbase h.
Proof.
  intros [Hg Hb] (b & Htx & Hin)%list_elem_of_bind. rewrite <- elem_of_reverse in Hin.
  apply list_elem_of_lookup in Hin as [[|i] Hi].
  - rewrite Hg in Hi. injection Hi as <-. by apply elem_of_nil in Htx.
  - apply Hb in Hi as Hi'. destruct Hi' as [E _]. rewrite E, list_elem_of_singleton in Htx.
    exists (Z.of_nat (S i)). split; [|done]. apply lookup_lt_Some in Hi. rewrite length_reverse in Hi. lia.
Qed.

(** Byte strings whose digests have to differ: the coinbases of the first [n] blocks. *)
Definition coinbase_strings (n : nat) : list (list byte) :=
  (λ i, tx_to_bytes (plain_coinbase (Z.of_nat i))) <$> seq 1 n.

Context (n : nat) (Hcf : collision_free (coinbase_strings n)).
Context (Hn : Z.of_nat n ≤ UINT32_MAX) (Hts : cfg_genesis_timestamp config + Z.of_nat n < 2 ^ 64).
Context (Hmoney : block_subsidy params * (Z.of_nat n + 1) ≤ kMaxMoney).
Context (Hsize : cfg_max_block_size_bytes config ≤ kMaxBlockSizeBytes).

Lemma plain_coinbase_inj h h' :
  0 < h ≤ Z.of_nat n → 0 < h' ≤ Z.of_nat n → txid (plain_coinbase h) = txid (plain_coinbase h') → h = h'.
Proof.
  intros Hh Hh' E. pose proof (consensus_params_wf _ Htyped) as [Hp _].
  pose proof (recipient_wf _ _ Hrecipient) as Hr.
  assert (∀ h, 0 < h ≤ Z.of_nat n → tx_to_bytes (plain_coinbase h) ∈ coinbase_strings n) as Hin.
  { intros k Hk. apply list_elem_of_fmap. exists (Z.to_nat k). rewrite Z2Nat.id by lia.
    split; [done|]. apply elem_of_seq. lia. }
  apply (Hcf _ _ (Hin _ Hh) (Hin _ Hh')) in E.
  assert (is_u32 h ∧ is_u32 h') as [Hu Hu'] by (clear - Hh Hh' Hn; solve_u).
  exact (make_coinbase_bytes_inj h h' _ _ _ _ Hu Hu' Hp Hp Hr Hr E).
Qed.

(** The newest block of a miner is as old as its height. *)
Lemma mined_tip_time bs chain :
  mined bs → chain_of params bs chain → timestamp (tip_ chain) = cfg_genesis_timestamp config + (size_z bs - 1).
Proof.
  intros Hm Hch. destruct (chain_of_tip _ (consensus_params_wf _ Htyped) _ _ Hch) as (tip & bs' & Ebs & -> & _).
  rewrite Ebs, length_cons. destruct bs' as [|b' bs'].
  - pose proof (mi_genesis _ Hm) as Hg. rewrite Ebs in Hg. injection Hg as ->. cbn. lia.
  - destruct (mi_blocks _ Hm (length bs') tip) as [_ ->]; [|rewrite length_cons; lia].
    rewrite Ebs, reverse_cons, list_lookup_middle; [done|]. by rewrite length_reverse, length_cons.
Qed.

(** The coinbase of the next block is not in the chain yet. *)
Lemma plain_coinbase_fresh bs chain o c :
  mined bs → chain_of params bs chain → size_z bs ≤ Z.of_nat n →
  utxos_ chain !! o = Some c → op_txid o ≠ txid (plain_coinbase (size_z bs)).
Proof.
  intros Hm Hch Hle Ho E. pose proof (chain_of_origin _ _ _ _ _ (consensus_params_wf _ Htyped) Hch Ho) as Hin.
  rewrite E in Hin. apply list_elem_of_fmap in Hin as (tx & Etx & Hin).
  destruct (mined_transactions _ _ Hm Hin) as (h & Hhh & ->). apply plain_coinbase_inj in Etx; lia.
Qed.

Lemma mined_cons bs b :
  bs ≠ [] → mined bs → transactions b = [plain_coinbase (size_z bs)] →
  timestamp (header b) = cfg_genesis_timestamp config + size_z bs → mined (b :: bs).
Proof.
  intros Hne [Hg Hb] Htxs Hts'. split; rewrite reverse_cons.
  - by apply lookup_app_l_Some.
  - intros i b' [Hi|[Hi Hb']]%lookup_app_Some; [by apply Hb|].
    apply list_lookup_singleton_Some in Hb' as [Hi' <-]. rewrite length_reverse in *.
    rewrite Htxs, Hts'. assert (S i = length bs) as -> by lia. done.
Qed.

(** One more block. *)
Lemma mine_plain bs chain limits :
  mined bs → chain_of params bs chain → size_z bs ≤ Z.of_nat n →
  is_u32 (max_transactions limits) → is_u64 (max_total_bytes limits) →
  let ts := block_timestamp (cfg_genesis_timestamp config) (wrap32 (height (tip_ chain) + 1)) in
  ∃ t chain',
    build_block_template (tip_ chain) ts (new_mempool limits) (utxos_ chain) tmpl = Ok t ∧
    bt_total_fees t = 0 ∧ bt_selected_count t = 0 ∧
    submit_block (bt_block t) (Some (new_mempool limits)) chain = (chain', Some (new_mempool limits), Ok 0) ∧
    block_typed (bt_block t) ∧ chain_of params (bt_block t :: bs) chain' ∧ mined (bt_block t :: bs) ∧
    height (tip_ chain') = size_z bs.
Proof.
  intros Hm Hch Hle Hl1 Hl2 ts. pose proof (consensus_params_wf _ Htyped) as Hp.
  pose proof (chain_of_height _ Hp _ _ Hch) as Hh. destruct (chain_of_wf _ Hp _ _ Hch) as [Hwf Epar].
  pose proof Hwf as (Htip & _ & _). pose proof Htip as (_ & _ & _ & _ & Hu).
  assert (ts = cfg_genesis_timestamp config + size_z bs) as Ets.
  { destruct Htyped as (Hg & _). subst ts. unfold block_timestamp. rewrite wrap32_small, wrap64_small by solve_u. lia. }
  pose proof (mined_tip_time _ _ Hm Hch) as Htime.
  pose proof (recipient_wf _ _ Hrecipient) as Hr.
  assert (template_selection (tip_ chain) ts (new_mempool limits) (utxos_ chain) tmpl =
    mkSelection (utxos_ chain) 0 (size_z (block_to_bytes (placeholder_block (tip_ chain) ts tmpl))) 0 []) as Esel.
  { unfold template_selection. by rewrite new_entries. }
  assert (template_coinbase (tip_ chain) ts (new_mempool limits) (utxos_ chain) tmpl = plain_coinbase (size_z bs)) as Ecb.
  { unfold template_coinbase. rewrite Esel. cbn [sel_fees]. rewrite Z.add_0_r, wrap32_small by solve_u.
    by rewrite Hh. }
  destruct (producer_accepted bs chain ts (new_mempool limits) tmpl) as
    (t & txs & chain' & pool' & Ht & Hsub & Htst & Htxs & Hsl & Hcnt & Hcnt' & _).
  - done.
  - done.
  - split; try done; [solve_u|solve_u|by apply new_mempool_wf| |].
    + cbn. destruct Htyped as (_ & _ & Hms & _). destruct (negb _) eqn:E; [solve_u|done].
    + cbn [consensus build_template_params]. etrans; [|exact Hmoney].
      apply Z.mul_le_mono_nonneg_l; [apply Hp|lia].
  - rewrite Ecb. split; [apply lookup_empty|]. intros o c Ho. by eapply plain_coinbase_fresh.
  - rewrite new_entries in Hsl. apply sublist_nil_r in Hsl as ->.
    assert (block_typed (bt_block t)) as Hty.
    { apply (template_typed _ _ _ _ _ _ Htip) in Ht; [done|subst ts; apply wrap64_range|by apply new_mempool_wf|done..]. }
    pose proof Hsub as Hsub'. apply submit_block_Ok in Hsub' as (Hl & Epool & u & Hap & ->); [|done|done].
    cbn in Epool. rewrite prune_new in Epool. injection Epool as ->.
    assert (bt_total_fees t = 0) as Ef.
    { destruct Hap as (_ & _ & u1 & Hap & _). unfold regular_txs, has_coinbase in Hap. rewrite Htxs in Hap.
      cbn in Hap. by inversion Hap. }
    rewrite Ef in *. exists t, (mkChain (header (bt_block t)) u (params_ chain)).
    split_and!; try done; [by econstructor| |].
    + apply mined_cons; [|done|by rewrite Htxs, Z.add_0_r, <- Hh|by rewrite Htst].
      by destruct (chain_of_tip _ Hp _ _ Hch) as (? & ? & -> & _).
    + cbn [tip_]. rewrite (lk_height _ _ Hl). lia.
Qed.
End Mining.

(** ** Starting from nothing *)

Section Fresh.
Context (config : NodeConfig) (Htyped : config_typed config).
Context (recipient : Hash256) (Hrecipient : resolve_coinbase_recipient config = Ok recipient).
Context (ios : nat → Io).

Abbreviation params := (build_consensus_params config).
Abbreviation tmpl := (build_template_params config params recipient).

Lemma new_state_settings chain : settings_ok (new_state config chain params tmpl).
Proof.
  pose proof (consensus_params_wf _ Htyped). pose proof (recipient_wf _ _ Hrecipient).
  destruct Htyped as (Hg & _ & _ & _ & _ & _ & _ & _ & _ & _ & _ & _ & Hf). split; done.
Qed.

Lemma new_pool_wf : pool_wf (new_mempool (resolved_mempool_limits config)).
Proof. destruct (resolved_limits_range _ Htyped) as (H1 & H2 & _). by apply new_mempool_wf. Qed.

(** The node before it mines anything. *)
Definition fresh_state : PeerState :=
  store_block 0 (build_genesis_block config)
    (new_state config (mkChain (header (build_genesis_block config)) ∅ params) params tmpl).

Lemma fresh_state_ok : peer_ok [build_genesis_block config] fresh_state.
Proof.
  pose proof (consensus_params_wf _ Htyped). split.
  - apply (settings_same (new_state config (mkChain (header (build_genesis_block config)) ∅ params) params tmpl));
      [by repeat split|apply new_state_settings].
  - done.
  - constructor; [by apply genesis_typed|by apply genesis_created].
  - apply new_pool_wf.
  - apply (indexes_snoc []), indexes_empty.
Qed.

Context (n : nat) (Hcf : collision_free (coinbase_strings config recipient n)).
Context (Hn : Z.of_nat n ≤ UINT32_MAX) (Hts : cfg_genesis_timestamp config + Z.of_nat n < 2 ^ 64).
Context (Hmoney : block_subsidy params * (Z.of_nat n + 1) ≤ kMaxMoney).
Context (Hsize : cfg_max_block_size_bytes config ≤ kMaxBlockSizeBytes).

(** A node that has only mined so far. *)
Definition miner (bs : list Block) (s : PeerState) : Prop :=
  peer_ok bs s ∧ same_settings fresh_state s ∧ mined config recipient bs ∧
  mempool_ s = new_mempool (resolved_mempool_limits config).

Lemma mine_one_miner bs s w :
  miner bs s → size_z bs ≤ Z.of_nat n →
  ∃ b s', mine_one (s, w) = ((s', w), Ok tt) ∧ miner (b :: bs) s'.
Proof.
  intros (Hok & Hset & Hm & Hpool) Hle. pose proof Hset as (_ & _ & Eg & _ & Et & _ & _ & _ & Ep).
  destruct (mine_plain config Htyped recipient Hrecipient n Hcf Hn Hts Hmoney Hsize bs (chain_ s)
    (resolved_mempool_limits config)) as (t & chain' & Ht & _ & _ & Hsub & Hty & Hch' & Hm' & _).
  - done.
  - pose proof (po_chain _ _ Hok) as Hch. by rewrite Ep in Hch.
  - done.
  - by apply (resolved_limits_range config).
  - by apply (resolved_limits_range config).
  - unfold mine_one. rewrite Eg, Et, Hpool. unfold peer_height. cbn [fresh_state store_block genesis_timestamp_
      tmpl_params_ new_state]. rewrite Ht.
    destruct (peer_connect_block (bt_block t) (s, w)) as [[s' w'] r] eqn:Ec. pose proof Ec as Ec'.
    apply (connect_block_keeps Hok) in Ec' as (Hw & Hset' & Hr); [|done]. cbn [fst snd] in *. subst w'.
    unfold peer_connect_block in Ec. rewrite Hpool, Hsub in Ec. injection Ec as Es <-. destruct Hr as (Hok' & _ & _ & Hp').
    exists (bt_block t), s'. split; [done|]. split_and!; [done|by etrans|done|].
    by rewrite Hp', Hpool, prune_new.
Qed.

Lemma mine_loop_miner k bs s w :
  miner bs s → size_z bs + Z.of_nat k ≤ Z.of_nat n + 1 →
  ∃ bs' s', mine_loop k (s, w) = ((s', w), Ok tt) ∧ miner bs' s' ∧ size_z bs' = size_z bs + Z.of_nat k.
Proof.
  revert bs s. induction k as [|k IH]; intros bs s Hs Hle.
  { exists bs, s. split_and!; [done|done|lia]. }
  destruct (mine_one_miner bs s w Hs) as (b & s1 & E & Hs1); [lia|].
  destruct (IH (b :: bs) s1 Hs1) as (bs' & s' & E' & Hs' & Hsz); [rewrite length_cons; lia|].
  exists bs', s'. split_and!; [|done|rewrite Hsz, length_cons; lia].
  cbn [mine_loop]. by rewrite (SR_bind_eq _ _ _ _ _ E).
Qed.

(** A node that starts without a ledger comes up with the blocks it was asked to mine. *)
Lemma fresh_node_starts w :
  cfg_restore config = false → cfg_persist config = false → cfg_mine_blocks config = Z.of_nat n →
  ∃ bs s, from_config ios config w = (w, Ok s) ∧ miner bs s ∧ peer_height s = Z.of_nat n.
Proof.
  intros Hr Hp Hm. unfold from_config. rewrite Hrecipient, Hr, (genesis_created config Htyped).
  destruct (mine_loop_miner n [build_genesis_block config] fresh_state w) as (bs & s & E & Hs & Hsz).
  { split_and!; [apply fresh_state_ok|reflexivity|apply mined_genesis|done]. }
  { rewrite length_cons. cbn. lia. }
  exists bs, s. unfold mine_blocks. rewrite Hm, Hp, Nat2Z.id. fold fresh_state.
  pose proof Hs as (Hok & (_ & _ & _ & _ & _ & _ & Epers & _) & _).
  assert ((_ ← (_ ← mine_loop n; persist_ledger ios); mret tt) (fresh_state, w) = ((s, w), Ok tt)) as ->.
  { erewrite SR_bind_eq; [reflexivity|]. erewrite SR_bind_eq; [|exact E].
    unfold persist_ledger. cbn [fst]. rewrite Epers. cbn. by rewrite Hp. }
  split_and!; [done|done|]. pose proof (peer_height_size Hok) as Hh. rewrite Hsz in Hh. cbn in Hh. lia.
Qed.
End Fresh.

(** ** Starting from a ledger *)

(** The blocks of a chain carry their own height. *)
Lemma chain_of_heights params bs chain :
  params_wf params → chain_of params bs chain →
  ∀ i b, reverse bs !! i = Some b → height (header b) = Z.of_nat i.
Proof.
  intros Hp H. pose proof H as H'. revert H'. revert bs chain H.
  apply (chain_of_ind' params Hp (λ bs chain, chain_of params bs chain →
    ∀ i b, reverse bs !! i = Some b → height (header b) = Z.of_nat i)).
  - intros g u fees _ [_ Hh _] _ _ i b [-> <-]%list_lookup_singleton_Some. done.
  - intros bs chain b u fees Hch IH _ Hl _ _ i b'. rewrite reverse_cons.
    intros [Hi|[Hi Hb]]%lookup_app_Some; [by apply IH|].
    apply list_lookup_singleton_Some in Hb as [Hi' <-]. rewrite length_reverse in *.
    rewrite (lk_height _ _ Hl). pose proof (chain_of_height _ Hp _ _ Hch). lia.
Qed.

Lemma store_blocks_indexes l : ∀ pre s,
  indexes pre (catalog_ s) → (∀ i b, l !! i = Some b → height (header b) = Z.of_nat (length pre + i)) →
  indexes (pre ++ l) (catalog_ (store_blocks l s)) ∧ same_settings s (store_blocks l s) ∧
  chain_ (store_blocks l s) = chain_ s ∧ mempool_ (store_blocks l s) = mempool_ s.
Proof.
  induction l as [|b l IH]; intros pre s Hs Hh.
  { by rewrite app_nil_r. }
  destruct (IH (pre ++ [b]) (store_block (height (header b)) b s)) as (H1 & H2 & H3 & H4).
  - cbn [store_block catalog_]. rewrite (Hh 0%nat b eq_refl), Nat.add_0_r. by apply indexes_snoc.
  - intros i b' Hi. rewrite (Hh (S i) b' Hi), length_app. cbn. f_equal. lia.
  - rewrite <- app_assoc in H1. cbn [store_blocks foldl]. split_and!; done.
Qed.

Lemma restore_transactions_keeps bs s w txs s' w' :
  peer_ok bs s → Forall tx_typed txs → restore_transactions txs (s, w) = ((s', w'), Ok tt) →
  peer_ok bs s' ∧ same_settings s s' ∧ chain_ s' = chain_ s ∧ catalog_ s' = catalog_ s ∧ w' = w.
Proof.
  intros Hok Htxs. revert s Hok. induction Htxs as [|tx txs Htx _ IH]; intros s Hok H.
  { injection H as <- <-. by split_and!. }
  cbn [restore_transactions] in H. destruct (accept_transaction tx (s, w)) as [[s1 w1] r] eqn:E.
  apply (accept_keeps Hok) in E as (Hw & Hset & Hok1 & Hc & Hcat & _); [|done]. cbn [fst snd] in *. subst w1.
  destruct r as [[]|e]; [|discriminate H]. destruct (IH s1 Hok1 H) as (H1 & H2 & H3 & H4 & H5).
  split_and!; [done|by etrans|congruence..].
Qed.

Lemma load_ledger_wf io dir d l : load_ledger io dir d = Ok l → ledger_wf l.
Proof. unfold load_ledger. intros (bytes & _ & H)%bind_Ok. by apply decode_ledger_inv in H as [? _]. Qed.

(** Two successful reads of the same disk give the same ledger. *)
Lemma load_ledger_same io io' dir d l l' :
  load_ledger io dir d = Ok l → load_ledger io' dir d = Ok l' → l = l'.
Proof.
  unfold load_ledger, read_file. destruct (d !! _) as [bytes|]; [|intros H; discriminate H].
  destruct (io_sized io), (io_sized io'); cbn [negb]; try (by intros H; discriminate H); try (by intros _ H; discriminate H).
  destruct (_ <? size_z bytes); [intros H; discriminate H|].
  destruct (io_read io), (io_read io'); cbn [negb]; intros H1 H2; try discriminate H1; try discriminate H2.
  revert H1 H2. change (mret bytes ≫= decode_ledger) with (decode_ledger bytes). congruence.
Qed.

Lemma ledger_txs_typed l : ledger_wf l → Forall tx_typed (l_mempool_transactions l) ∧ Forall block_typed (l_blocks l).
Proof.
  intros [_ _ Hb _ Hm _]. split.
  - eapply Forall_impl; [exact Hm|]. by intros tx [[Ht _] _].
  - eapply Forall_impl; [exact Hb|]. intros b [(Hh & Ht & _) _]. split; [done|].
    eapply Forall_impl; [exact Ht|]. by intros tx [].
Qed.

Section Started.
Context (ios : nat → Io) (config : NodeConfig) (Htyped : config_typed config).

(** Whatever way a node starts, it satisfies the invariant. *)
Lemma from_config_ok w w' s : from_config ios config w = (w', Ok s) → ∃ bs, peer_ok bs s.
Proof.
  unfold from_config. destruct (resolve_coinbase_recipient config) as [r|e] eqn:Er; [|intros H; discriminate H].
  destruct (cfg_restore config).
  - destruct (negb _); [intros H; discriminate H|].
    destruct (load_chain _ _ _) as [chain|e] eqn:Ec; [|intros H; discriminate H].
    destruct (load_ledger _ _ _) as [l|e] eqn:El; [|intros H; discriminate H].
    unfold load_chain in Ec. apply bind_Ok in Ec as (l' & El' & Ec).
    rewrite (load_ledger_same _ _ _ _ _ _ El' El) in Ec. clear El' l'.
    apply load_ledger_wf in El as Hwf. destruct (ledger_txs_typed _ Hwf) as [Htxs Hbs].
    pose proof (lw_params _ Hwf) as Hp. apply replay_chain_of in Ec as Hch; [|done..].
    destruct (chain_of_wf _ Hp _ _ Hch) as [_ Epar].
    set (s0 := new_state config chain _ _). destruct (store_blocks_indexes (l_blocks l) [] s0) as (H1 & H2 & H3 & H4).
    { apply indexes_empty. }
    { intros i b Hi. apply (chain_of_heights _ _ _ Hp Hch). by rewrite reverse_involutive. }
    destruct (restore_transactions _ _) as [[s1 w1] [[]|e]] eqn:Et; [|intros H; discriminate H].
    intros [= <- <-]. exists (reverse (l_blocks l)).
    eapply restore_transactions_keeps in Et as (Hok & _); [exact Hok| |done]. split.
    + eapply settings_same; [exact H2|]. by apply new_state_settings.
    + rewrite H3. cbn [s0 new_state chain_]. by rewrite Epar.
    + rewrite H3. cbn [s0 new_state chain_]. by rewrite Epar.
    + rewrite H4. by apply new_pool_wf.
    + rewrite reverse_involutive. done.
  - rewrite (genesis_created config Htyped). fold (fresh_state config r).
    destruct ((_ : SR Node unit) (fresh_state config r, w)) as [[s1 w1] [[]|e]] eqn:E; [|intros H; discriminate H].
    intros [= <- <-].
    pose proof (extends_refl _ _ w (fresh_state_ok config Htyped r Er)) as Hinv.
    assert (keeps (extends [build_genesis_block config] (fresh_state config r))
      (_ ← mine_blocks ios (cfg_mine_blocks config); if cfg_persist config then persist_ledger ios else mret tt)) as Hk.
    { apply keeps_bind; [apply keeps_mine_blocks|]. intros _. case_match; [apply keeps_persist|apply keeps_ret]. }
    specialize (Hk _ Hinv). rewrite E in Hk. destruct Hk as (_ & bs & Hok & _). by exists bs.
Qed.
End Started.

(** ** Saving and starting again *)

Lemma load_ledger_io io io' dir d l :
  load_ledger io dir d = Ok l → io_read io' = true → load_ledger io' dir d = Ok l.
Proof.
  unfold load_ledger, read_file. intros H Hr. rewrite Hr, (io_read_sized _ Hr). destruct (d !! _) as [bytes|]; [|discriminate H].
  destruct (io_sized io); [|discriminate H]. cbn [negb] in *.
  destruct (_ <? size_z bytes); [discriminate H|]. destruct (io_read io); [exact H|discriminate H].
Qed.

Lemma load_ledger_exists io dir d l : load_ledger io dir d = Ok l → ledger_exists dir d = true.
Proof.
  unfold load_ledger, read_file, ledger_exists, is_regular_file. destruct (d !! _) as [[|b bytes]|]; [|done|intros H; discriminate H].
  intros (bytes & Hb & H)%bind_Ok. destruct (negb (io_sized io)); [discriminate Hb|].
  destruct (_ <? _); [discriminate Hb|].
  destruct (negb _); [discriminate Hb|]. injection Hb as <-. discriminate H.
Qed.

Lemma restore_transactions_pool txs : ∀ s w pool,
  restore_mempool (utxos_ (chain_ s)) txs (mempool_policy_ s) (mempool_ s) = (pool, Ok tt) →
  restore_transactions txs (s, w) = ((set_chain_pool (chain_ s) pool s, w), Ok tt).
Proof.
  induction txs as [|tx txs IH]; intros s w pool; cbn [restore_mempool restore_transactions].
  { intros [= <-]. by destruct s. }
  unfold accept_transaction. destruct (accept _ _ _ _) as [pool1 [[]|e]] eqn:E; [|intros H; discriminate H].
  intros H. by apply (IH (set_chain_pool (chain_ s) pool1 s) w pool).
Qed.

(** The configuration starts the node again from the ledger that [s] writes. *)
Record restarts (config : NodeConfig) (s : PeerState) : Prop := {
  rs_typed : config_typed config;
  rs_valid : config_valid config;
  rs_restore : cfg_restore config = true;
  rs_dir : cfg_data_dir config = data_dir_ s;
  rs_limits : resolved_mempool_limits config = limits_ (mempool_ s);
  rs_policy : resolved_mempool_policy config = mempool_policy_ s;
}.

(** The state of a node that its ledger keeps. *)
Definition same_node (s s' : PeerState) : Prop :=
  chain_ s' = chain_ s ∧ mempool_ s' = mempool_ s ∧ catalog_ s' = catalog_ s.

(** The bytes of the ledger of a node. *)
Definition written (bs : list Block) (s : PeerState) : list byte :=
  enc_sealed (enc_body (node_ledger (consensus_ s) bs (mempool_ s))).

(** A node whose ledger is within the limits, and whose pool is valid on its chain. *)
Record savable (bs : list Block) (s : PeerState) : Prop := {
  sv_ok : peer_ok bs s;
  sv_params : consensus_ s = params_ (chain_ s);
  sv_valid : pool_valid (utxos_ (chain_ s)) (mempool_policy_ s) (mempool_ s);
  sv_size : size_z (written bs s) ≤ kMaxLedgerFileBytes;
  sv_blocks : size_z bs ≤ kMaxLedgerBlocks;
  sv_pool : pool_size (mempool_ s) ≤ kMaxLedgerMempoolTransactions;
}.

Lemma savable_ledger bs s : savable bs s → ledger_wf (node_ledger (consensus_ s) bs (mempool_ s)).
Proof.
  intros [Hok Hco _ _ Hnb Hnp]. pose proof (po_params _ _ Hok) as Hp. rewrite <- Hco in Hp.
  pose proof (po_chain _ _ Hok) as Hch. rewrite <- Hco in Hch. by eapply node_ledger_wf; [..|apply Hok| |].
Qed.

Section Again.
Context (ios : nat → Io) (config : NodeConfig) (bs : list Block) (s : PeerState).
Context (Hs : savable bs s) (Hconfig : restarts config s).

(** Starting from a disk that has the ledger of the node. *)
Lemma restart_from d n :
  d !! ledger_path (data_dir_ s) = Some (written bs s) → io_read (ios n) = true → io_read (ios (S n)) = true →
  ∃ s', from_config ios config (mkWorld d n) = (mkWorld d (S (S n)), Ok s') ∧ same_node s s'.
Proof.
  intros Hd Hr1 Hr2. destruct Hconfig as [Hty Hval Hres Hdir Hlim Hpol]. pose proof (savable_ledger _ _ Hs) as Hl.
  destruct Hs as [Hok Hco Hv Hsz _ _]. pose proof (po_params _ _ Hok) as Hp. rewrite <- Hco in Hp.
  pose proof (po_chain _ _ Hok) as Hch. rewrite <- Hco in Hch.
  pose proof (load_written (ios n) _ _ _ Hl Hd Hsz Hr1) as Hl1.
  pose proof (load_written (ios (S n)) _ _ _ Hl Hd Hsz Hr2) as Hl2.
  destruct (valid_recipient _ Hval) as [r Er]. unfold from_config. cbn [w_disk w_calls].
  rewrite Er, Hres, Hdir, (load_ledger_exists _ _ _ _ Hl1). cbn [negb].
  assert (load_chain (ios n) (data_dir_ s) d = Ok (chain_ s)) as ->.
  { unfold load_chain. rewrite Hl1. rsimpl. cbn [l_blocks l_params node_ledger].
    apply replay_chain_of; [done| |by rewrite reverse_involutive].
    apply Forall_reverse. by destruct (chain_of_stored _ Hp _ _ Hch). }
  rewrite Hl2. cbn [l_blocks l_mempool_transactions node_ledger].
  set (s0 := new_state config (chain_ s) _ _).
  destruct (store_blocks_indexes (reverse bs) [] s0) as (H1 & H2 & H3 & H4).
  { apply indexes_empty. }
  { intros i b Hi. by apply (chain_of_heights _ _ _ Hp Hch). }
  assert (restore_mempool (utxos_ (chain_ (store_blocks (reverse bs) s0))) (sorted_transactions (mempool_ s))
    (mempool_policy_ (store_blocks (reverse bs) s0)) (mempool_ (store_blocks (reverse bs) s0)) =
    (mempool_ s, Ok tt)) as Hrm.
  { destruct H2 as (-> & _). rewrite H3, H4. cbn [s0 new_state chain_ mempool_ mempool_policy_].
    rewrite Hlim, Hpol. apply restore_sorted; [apply Hok|done]. }
  rewrite (restore_transactions_pool _ _ _ _ Hrm). eexists. split; [done|].
  split; cbn [set_chain_pool chain_ mempool_ catalog_]; [done|split; [done|]].
  apply map_eq. intros h. apply option_eq. intros b. by rewrite (H1 h b), (po_catalog _ _ Hok h b).
Qed.

(** Saving, when the system calls succeed. *)
Lemma save_writes w : io_good (ios (w_calls w)) (written bs s) →
  ∃ d, peer_save_ledger ios (s, w) = ((s, mkWorld d (S (w_calls w))), Ok tt) ∧
    d !! ledger_path (data_dir_ s) = Some (written bs s).
Proof.
  intros Hio. pose proof (savable_ledger _ _ Hs) as Hl.
  destruct (save_load_ledger _ (data_dir_ s) _ (w_disk w) Hl Hio (sv_size _ _ Hs)) as (d & Hsave & _ & Hd & _).
  exists d. split; [|exact Hd]. unfold peer_save_ledger. rewrite (peer_ledger_blocks (sv_ok _ _ Hs)).
  cbn [l_blocks l_params l_mempool_transactions node_ledger] in Hsave. by rewrite Hsave.
Qed.

Lemma save_and_restart w :
  io_good (ios (w_calls w)) (written bs s) →
  io_read (ios (S (w_calls w))) = true → io_read (ios (S (S (w_calls w)))) = true →
  ∃ w1 w2 s', peer_save_ledger ios (s, w) = ((s, w1), Ok tt) ∧
    from_config ios config w1 = (w2, Ok s') ∧ same_node s s'.
Proof.
  intros Hio Hr1 Hr2. destruct (save_writes w Hio) as (d & Hsave & Hd).
  destruct (restart_from d (S (w_calls w)) Hd Hr1 Hr2) as (s' & H & Hs'). by eexists _, _, s'.
Qed.

(** What a save does to the disk is a sequence of the calls of [write_file_atomic]. *)
Lemma save_steps w : (length (written bs s) ≤ io_flushed (ios (w_calls w)))%nat →
  ∃ ph d' r, peer_save_ledger ios (s, w) = ((s, mkWorld d' (S (w_calls w))), r) ∧
    rtc (wstep (ledger_path (data_dir_ s)) (ledger_temp_path (data_dir_ s)) (written bs s) false)
      (WStart, w_disk w) (ph, d') ∧ (r = Ok tt ↔ ph = WDone).
Proof.
  intros Hf. pose proof (savable_ledger _ _ Hs) as Hl. unfold peer_save_ledger.
  rewrite (peer_ledger_blocks (sv_ok _ _ Hs)). unfold save_ledger.
  pose proof (lw_sequence _ Hl) as Hseq. pose proof (encode_ledger_enc _ Hl) as Henc.
  cbn [l_blocks l_params l_mempool_transactions node_ledger] in Hseq, Henc. rewrite Hseq, Henc.
  fold (written bs s). unfold create_directory. destruct (io_mkdir _); cbn [negb].
  - destruct (write_file_atomic _ _ _ _ _) as [d' r] eqn:E. cbn [mret Result_ret].
    apply (write_file_atomic_steps _ _ _ _ false) in E as (ph & Hst & Hr); [|by right]. by exists ph, d', r.
  - exists WStart. eexists _, _. split; [done|]. split; [apply rtc_refl|done].
Qed.
End Again.

(** *** Crashes

    A node whose ledger is on the disk, and a later state of it that is being saved. *)
Section Crash.
Context (ios : nat → Io) (config : NodeConfig) (bs bs' : list Block) (s s' : PeerState).
Context (Hs : savable bs s) (Hs' : savable bs' s') (Hc : restarts config s) (Hc' : restarts config s').
Context (d d' : Disk) (ph : WPhase).
Context (Hd : d !! ledger_path (cfg_data_dir config) = Some (written bs s)).
Context (Hsteps : rtc (wstep (ledger_path (cfg_data_dir config)) (ledger_temp_path (cfg_data_dir config)) (written bs' s') false)
  (WStart, d) (ph, d')).

Lemma crashed_disk :
  (d' !! ledger_path (cfg_data_dir config) = Some (written bs s) ∨
   d' !! ledger_path (cfg_data_dir config) = Some (written bs' s')) ∧
  (ph = WDone → d' !! ledger_path (cfg_data_dir config) = Some (written bs' s')).
Proof.
  apply wsteps_inv in Hsteps as [_ Hi]; [|apply paths_differ]. cbn in Hi. rewrite Hd in Hi.
  assert (ph = WDone → d' !! ledger_path (cfg_data_dir config) = Some (written bs' s')) as Hdone.
  { intros ->. destruct Hi as (n & -> & [?|Hn]); [done|]. by rewrite take_ge. }
  split; [|done]. destruct ph; [left; by rewrite Hi|left; apply Hi|left; apply Hi|by right; apply Hdone|by left].
Qed.

Lemma restart_after_crash n : io_read (ios n) = true → io_read (ios (S n)) = true →
  ∃ r, from_config ios config (mkWorld d' n) = (mkWorld d' (S (S n)), Ok r) ∧
    (same_node s r ∨ same_node s' r) ∧ (ph = WDone → same_node s' r).
Proof.
  intros H1 H2. destruct crashed_disk as [Hor Hdone].
  assert (d' !! ledger_path (cfg_data_dir config) = Some (written bs' s') →
    ∃ r, from_config ios config (mkWorld d' n) = (mkWorld d' (S (S n)), Ok r) ∧ same_node s' r) as Hnew.
  { rewrite (rs_dir _ _ Hc'). intros H. by apply (restart_from ios config bs' s' Hs' Hc' d' n). }
  destruct (decide (ph = WDone)) as [E|E].
  - destruct (Hnew (Hdone E)) as (r & Hr & Hn). exists r. auto.
  - destruct Hor as [Hold|H]; [|destruct (Hnew H) as (r & Hr & Hn); exists r; auto].
    rewrite (rs_dir _ _ Hc) in Hold.
    destruct (restart_from ios config bs s Hs Hc d' n Hold H1 H2) as (r & Hr & Hn). exists r.
    split; [done|]. split; [by left|]. intros E'. by destruct (E E').
Qed.
End Crash.
