(* ===== verification/Serving.v ===== *)
(** * A server and its clients, one after another

    [run_relay_server] talks to the peer behind each connection in turn.  [behaves] says
    that the answers of a [Peer] are those of a program at the other end of the connection,
    in some run of the two; as all runs of the two end alike, what the server makes of such
    a peer is what it makes of the program ([play_program]).  [sessions_served] is the accept
    loop when no session fails, each with the state the one before has left. *)

From S2P Require Import Prelude Errors Sha256 ByteIO Transaction Block Mempool Chain ChainStore P2pMessage P2pPayloads Effects Text SocketIO Peers Config PeerState PeerInv Network RelaySync RelayCases NodeStart.

(** ** Peers that are programs *)

Section Behaves.
Context {A B : Type} (eof : Error).

(** In this run [p] gives the program on the right, which has made [i] sends and [j]
    receives before, the answers that it gets. *)
Inductive behaves (p : Peer) : nat → nat → Net A B → Net A B → Prop :=
  | bh_done i j x : behaves p i j x x
  | bh_left i j x y z : net_step eof x y → right_ y = right_ x → behaves p i j y z → behaves p i j x z
  | bh_send i j l m k q1 q2 z : p_sends p i = (enqueue m q2).1 →
      behaves p (S i) j (mkNet l (k (enqueue m q2).1) q1 (enqueue m q2).2) z →
      behaves p i j (mkNet l (CSend m k) q1 q2) z
  | bh_receive i j l m k q1 q2 z : p_recvs p j = deliver m →
      behaves p i (S j) (mkNet l (k (deliver m)) q1 q2) z → behaves p i j (mkNet l (CRecv k) (m :: q1) q2) z
  | bh_eof i j l k q2 z : ended l = true → p_recvs p j = Err eof →
      behaves p i (S j) (mkNet l (k (Err eof)) [] q2) z → behaves p i j (mkNet l (CRecv k) [] q2) z.

Lemma behaves_steps p i j x z : behaves p i j x z → ∃ k, nsteps (net_step eof) k x z.
Proof.
  induction 1 as [i j x|i j x y z Hs _ _ [k Hk]|i j l m k q1 q2 z _ _ [n Hn]|i j l m k q1 q2 z _ _ [n Hn]|i j l k q2 z He _ _ [n Hn]].
  - exists 0%nat. constructor.
  - exists (S k). by econstructor.
  - exists (S n). econstructor; [apply right_sends|exact Hn].
  - exists (S n). econstructor; [apply right_receives|exact Hn].
  - exists (S n). econstructor; [by apply right_eof|exact Hn].
Qed.

Lemma behaves_play p i j x z b : behaves p i j x z → right_ z = CRet b → play p i j (right_ x) = b.
Proof.
  induction 1 as [i j x|i j x y z Hs Hr _ IH|i j l m k q1 q2 z Hp _ IH|i j l m k q1 q2 z Hp _ IH|i j l k q2 z He Hp _ IH]; intros Hz.
  - by rewrite Hz.
  - rewrite <- Hr. by apply IH.
  - cbn [right_ play] in *. rewrite Hp. by apply IH.
  - cbn [right_ play] in *. rewrite Hp. by apply IH.
  - cbn [right_ play] in *. rewrite Hp. by apply IH.
Qed.

(** Only the answers to come matter. *)
Lemma behaves_later p p' i j x z :
  (∀ n, (i ≤ n)%nat → p_sends p' n = p_sends p n) → (∀ n, (j ≤ n)%nat → p_recvs p' n = p_recvs p n) →
  behaves p i j x z → behaves p' i j x z.
Proof.
  intros Hs Hr H. revert Hs Hr.
  induction H as [i j x|i j x y z Hxy Hxr _ IH|i j l m k q1 q2 z Hp _ IH|i j l m k q1 q2 z Hp _ IH|i j l k q2 z He Hp _ IH]; intros Hs Hr.
  - constructor.
  - econstructor; [done|done|by apply IH].
  - apply bh_send; [by rewrite Hs|]. apply IH; [intros; apply Hs; lia|done].
  - apply bh_receive; [by rewrite Hr|]. apply IH; [done|intros; apply Hr; lia].
  - apply bh_eof; [done|by rewrite Hr|]. apply IH; [done|intros; apply Hr; lia].
Qed.

Definition first_send (i : nat) (r : Result unit) (p : Peer) : Peer :=
  mkPeer (λ n, if decide (n = i) then r else p_sends p n) (p_recvs p).
Definition first_receive (j : nat) (r : Result P2pMessage) (p : Peer) : Peer :=
  mkPeer (p_sends p) (λ n, if decide (n = j) then r else p_recvs p n).

Lemma later_send p i j r x z : behaves p (S i) j x z → behaves (first_send i r p) (S i) j x z.
Proof. apply behaves_later; [|done]. intros n Hn. cbn. by rewrite decide_False by lia. Qed.

Lemma later_receive p i j r x z : behaves p i (S j) x z → behaves (first_receive j r p) i (S j) x z.
Proof. apply behaves_later; [done|]. intros n Hn. cbn. by rewrite decide_False by lia. Qed.

(** Each run is one of some peer. *)
Lemma run_behaves k x z : nsteps (net_step eof) k x z → ∀ i j, ∃ p, behaves p i j x z.
Proof.
  induction 1 as [x|k x y z Hxy _ IH]; intros i j.
  { exists (mkPeer (λ _, Ok tt) (λ _, Err eof)). constructor. }
  destruct Hxy as [m c r q1 q2|m c r q1 q2|c r q1 He|l m c q1 q2|l m c q1 q2|l c q2 He].
  1-3: destruct (IH i j) as [p Hp]; exists p; refine (bh_left _ _ _ _ _ _ _ _ Hp); [by constructor|reflexivity].
  - destruct (IH (S i) j) as [p Hp]. exists (first_send i (enqueue m q2).1 p).
    apply bh_send; [cbn; by rewrite decide_True|by apply later_send].
  - destruct (IH i (S j)) as [p Hp]. exists (first_receive j (deliver m) p).
    apply bh_receive; [cbn; by rewrite decide_True|by apply later_receive].
  - destruct (IH i (S j)) as [p Hp]. exists (first_receive j (Err eof) p).
    apply bh_eof; [done|cbn; by rewrite decide_True|by apply later_receive].
Qed.

(** The peer is the program [c] in a session with [s], to the end. *)
Definition is_program (p : Peer) (c : Conn A) (s : Conn B) : Prop :=
  ∃ z, behaves p 0 0 (mkNet c s [] []) z ∧ at_rest (net_step eof) z.

(** The two programs end, in every run, with these results. *)
Definition completes (c : Conn A) (s : Conn B) (a : A) (b : B) : Prop :=
  ∃ n, nsteps (net_step eof) n (mkNet c s [] []) (mkNet (CRet a) (CRet b) [] []).

Lemma program_exists c s a b : completes c s a b → ∃ p, is_program p c s.
Proof.
  intros [n Hn]. destruct (run_behaves _ _ _ Hn 0 0) as [p Hp]. exists p, (mkNet (CRet a) (CRet b) [] []).
  split; [exact Hp|apply ended_rest].
Qed.

Lemma completes_unique c s a b k z : completes c s a b → nsteps (net_step eof) k (mkNet c s [] []) z →
  at_rest (net_step eof) z → z = mkNet (CRet a) (CRet b) [] [].
Proof.
  intros [n Hn] Hk Hz. destruct (commuting_runs _ (net_diamond eof) n _ _ Hn (ended_rest eof a b [] []) k z Hk) as [_ H].
  inversion H as [|? ? y ? Hy _]; [done|]. by destruct (Hz y).
Qed.

(** What the server makes of such a peer. *)
Lemma play_program p c s a b : completes c s a b → is_program p c s → play p 0 0 s = b.
Proof.
  intros Hc (z & Hb & Hz). destruct (behaves_steps _ _ _ _ _ Hb) as [k Hk].
  pose proof (completes_unique _ _ _ _ _ _ Hc Hk Hz) as ->. exact (behaves_play _ _ _ _ _ _ Hb eq_refl).
Qed.
End Behaves.

(** ** The accept loop *)

Section Loop.
Context (ios : nat → Io) (clients : nat → Os * Peer) (listener : Z).

(** The sessions when none fails: [nodes i] is the server before the [i]-th one. *)
Lemma sessions_served (nodes : nat → Node) (summaries : nat → RelaySessionSummary) count : ∀ n result,
  (∀ i, (n ≤ i < n + count)%nat → (∃ h, tcp_accept (clients i).1 listener = Ok h) ∧
     play (clients i).2 0 0 (serve_relay_connection ios (nodes i)) = (nodes (S i), Ok (summaries i))) →
  serve_sessions ios clients listener count n result (nodes n) =
  (nodes (n + count)%nat,
   Ok (match count with
       | O => result
       | S last => mkRelayServerResult (wrap32 (Z.of_nat (n + count))) (listen_port result) (summaries (n + last)%nat)
       end)).
Proof.
  induction count as [|count IH]; intros n result H; cbn [serve_sessions]; [by rewrite Nat.add_0_r|].
  destruct (H n) as [[h Hh] Hp]; [lia|]. destruct (clients n) as [os peer] eqn:Ec. cbn [fst snd] in *.
  rewrite Hh, Hp, IH by (intros i Hi; apply H; lia).
  replace (S n + count)%nat with (n + S count)%nat by lia. destruct count as [|last].
  - rewrite Nat.add_0_r. do 3 f_equal. f_equal. lia.
  - cbn [listen_port]. by replace (S n + last)%nat with (n + S last)%nat by lia.
Qed.

(** Sessions that do not fail only move the loop on. *)
Lemma sessions_before (nodes : nat → Node) (summaries : nat → RelaySessionSummary) more count : ∀ n result,
  (∀ i, (n ≤ i < n + count)%nat → (∃ h, tcp_accept (clients i).1 listener = Ok h) ∧
     play (clients i).2 0 0 (serve_relay_connection ios (nodes i)) = (nodes (S i), Ok (summaries i))) →
  ∃ result', serve_sessions ios clients listener (count + more) n result (nodes n) =
    serve_sessions ios clients listener more (n + count) result' (nodes (n + count)%nat).
Proof.
  induction count as [|count IH]; intros n result H; [exists result; by rewrite Nat.add_0_r|].
  cbn [Nat.add serve_sessions]. destruct (H n) as [[h Hh] Hp]; [lia|].
  destruct (clients n) as [os peer] eqn:Ec. cbn [fst snd] in *. rewrite Hh, Hp.
  replace (n + S count)%nat with (S n + count)%nat by lia. apply IH. intros i Hi. apply H. lia.
Qed.

(** A session that fails is the last one. *)
Lemma session_fails count n result node node' h e :
  tcp_accept (clients n).1 listener = Ok h →
  play (clients n).2 0 0 (serve_relay_connection ios node) = (node', Err e) →
  serve_sessions ios clients listener (S count) n result node = (node', Err e).
Proof. intros Hh Hp. cbn [serve_sessions]. destruct (clients n) as [os peer]. cbn [fst snd] in *. by rewrite Hh, Hp. Qed.
End Loop.

(** ** A server on one chain and the clients that follow it *)

Definition allowed_sessions (config : NodeConfig) (options : RelayServerOptions) : Z :=
  if negb (max_sessions options =? 0) then max_sessions options else cfg_relay_max_sessions config.

(** The server has its listener on [port] and has published it. *)
Record listening (os : Os) (port_io : Io) (config : NodeConfig) (options : RelayServerOptions) (d : Disk)
    (listener port : Z) (d' : Disk) : Prop := {
  ls_bind : tcp_bind os (mkTcpEndpoint (cfg_listen_host config) (cfg_listen_port config)) = Ok listener;
  ls_port : bound_port os listener = Ok port;
  ls_published : (publish_listen_port port_io config options port d).2 = (d', Ok tt);
}.

Lemma server_runs ios os port_io clients config options w listener port d ws ss :
  allowed_sessions config options ≠ 0 → listening os port_io config options (w_disk w) listener port d →
  from_config ios config (mkWorld d (w_calls w)) = (ws, Ok ss) →
  run_relay_server ios os port_io clients config options w =
  let '((_, w), r) := serve_sessions ios clients listener (Z.to_nat (allowed_sessions config options)) 0
                        (mkRelayServerResult 0 port (mkRelaySessionSummary 0 0)) (ss, ws) in (w, r).
Proof.
  unfold allowed_sessions. intros Hmax [Hb Hp Hf] Hs. unfold run_relay_server.
  rewrite (proj2 (Z.eqb_neq _ _) Hmax), Hb. rsimpl. rewrite Hp. rsimpl. by rewrite Hf, Hs.
Qed.

(** A client with its chain and the blocks that it does not have yet. *)
Record Follower := mkFollower {
  fo_ios : nat → Io;
  fo_config : NodeConfig;
  fo_chain : list Block;
  fo_missing : list Block;
  fo_state : PeerState;
  fo_world : World;
}.

Record can_follow (bs : list Block) (ss : PeerState) (f : Follower) : Prop := {
  cf_ok : peer_ok (fo_chain f) (fo_state f);
  cf_id : node_id_ok (fo_state f);
  cf_params : params_ (chain_ (fo_state f)) = params_ (chain_ ss);
  cf_persist : persist_ (fo_state f) = false;
  cf_blocks : bs = reverse (fo_missing f) ++ fo_chain f;
  cf_missing : (length (fo_missing f) < 64)%nat;
}.

Definition client_of (f : Follower) : Conn (Node * Result RelayClientResult) :=
  relay_client_session (fo_ios f) (fo_config f) no_options (fo_state f, fo_world f).

(** The world of a server after [n] sessions that leave its state as it is: each saves the
    ledger, if asked to. *)
Fixpoint world_after (ios : nat → Io) (ss : PeerState) (ws : World) (n : nat) : World :=
  match n with
  | O => ws
  | S n => (served ios (ss, world_after ios ss ws n)).1.2
  end.

Lemma served_quiet ios s w : persist_ s = false → served ios (s, w) = ((s, w), Ok (make_relay_summary s)).
Proof. intros E. unfold served, persist_ledger, mbind, SR_bind. cbn [fst]. by rewrite E. Qed.

Section Followers.
Context (ios : nat → Io) (eof : Error) (Heof : peer_disconnected eof = true).
Context {bs : list Block} {ss : PeerState} (Hss : peer_ok bs ss) (Hid : node_id_ok ss).
Context (Hfits : Forall block_fits bs) (Hmax : peer_height ss < UINT32_MAX).

Lemma follower_completes f w : can_follow bs ss f →
  ∃ sc, peer_ok bs sc ∧ chain_ sc = chain_ ss ∧
    completes eof (client_of f) (serve_relay_connection ios (ss, w))
      (synced (fo_ios f) (fo_config f) (sc, fo_world f)) (served ios (ss, w)).
Proof.
  intros [Hok Hfid Hpar Hpers El Hlen].
  destruct (session_run (fo_ios f) ios eof Heof Hss w Hok (fo_world f) (fo_config f) Hid Hfid Hfits Hpar Hpers Hmax
    (fo_missing f) El Hlen) as (sc & Hsc & Hset & _ & Hrun).
  exists sc. split; [done|]. split; [by eapply follower_chain|]. eexists. exact Hrun.
Qed.

Context (Hsave : savable bs ss) (Hio : persist_ ss = true → ∀ n, io_good (ios n) (written bs ss)).

Lemma served_saves w :
  ∃ w', served ios (ss, w) = ((ss, w'), Ok (make_relay_summary ss)) ∧ (persist_ ss = false → w' = w) ∧
    (persist_ ss = true → w_disk w' !! ledger_path (data_dir_ ss) = Some (written bs ss)).
Proof.
  destruct (persist_ ss) eqn:E; [unfold served, persist_ledger|].
  - destruct (save_writes ios bs ss Hsave w) as (d & Hs & Hd); [by apply Hio|].
    exists (mkWorld d (S (w_calls w))). split; [|split; [done|intros _; exact Hd]].
    unfold mbind, SR_bind. cbn [fst]. rewrite E. cbn [negb]. by rewrite Hs.
  - exists w. split; [by apply served_quiet|done].
Qed.

Lemma world_after_kept ws n :
  (persist_ ss = false → world_after ios ss ws n = ws) ∧
  (persist_ ss = true → (0 < n)%nat → w_disk (world_after ios ss ws n) !! ledger_path (data_dir_ ss) = Some (written bs ss)).
Proof.
  induction n as [|n [IH _]]; [split; [done|lia]|]. cbn [world_after].
  destruct (served_saves (world_after ios ss ws n)) as (w' & -> & Hno & Hyes). cbn [fst snd].
  split; [intros E; rewrite Hno by done; by apply IH|intros E _; by apply Hyes].
Qed.

(** The accept loop, when peers are clients that follow. *)
Section Served.
Context (clients : nat → Os * Peer) (followers : nat → Follower) (listener : Z) (count : nat) (ws : World).
Context (Hclients : ∀ i, (i < count)%nat → (∃ h, tcp_accept (clients i).1 listener = Ok h) ∧ can_follow bs ss (followers i) ∧
  is_program eof (clients i).2 (client_of (followers i)) (serve_relay_connection ios (ss, world_after ios ss ws i))).

Lemma follower_session i : (i < count)%nat →
  (∃ h, tcp_accept (clients i).1 listener = Ok h) ∧
  play (clients i).2 0 0 (serve_relay_connection ios (ss, world_after ios ss ws i)) =
    ((ss, world_after ios ss ws (S i)), Ok (make_relay_summary ss)).
Proof.
  intros Hi. destruct (Hclients i Hi) as (Ha & Hf & Hp). split; [done|].
  destruct (follower_completes _ (world_after ios ss ws i) Hf) as (sc & _ & _ & Hc).
  rewrite (play_program _ _ _ _ _ _ Hc Hp). cbn [world_after].
  by destruct (served_saves (world_after ios ss ws i)) as (w' & -> & _).
Qed.

Lemma followers_served result :
  serve_sessions ios clients listener count 0 result (ss, ws) =
  ((ss, world_after ios ss ws count),
   Ok (match count with
       | O => result
       | S _ => mkRelayServerResult (wrap32 (Z.of_nat count)) (listen_port result) (make_relay_summary ss)
       end)).
Proof.
  rewrite (sessions_served ios clients listener (λ i, (ss, world_after ios ss ws i)) (λ _, make_relay_summary ss) count 0).
  { by destruct count. }
  intros i Hi. apply follower_session. lia.
Qed.

Lemma followers_before more result :
  ∃ result', serve_sessions ios clients listener (count + more) 0 result (ss, ws) =
    serve_sessions ios clients listener more count result' (ss, world_after ios ss ws count).
Proof.
  apply (sessions_before ios clients listener (λ i, (ss, world_after ios ss ws i)) (λ _, make_relay_summary ss) more count 0).
  intros i Hi. apply follower_session. lia.
Qed.
End Served.
End Followers.

(** ** Peers that are refused *)

(** The peer greets as a program would and then announces [tx]. *)
Record announces (p : Peer) (tx : Transaction) : Prop := {
  an_sends : ∀ n, p_sends p n = Ok tt;
  an_hello : ∃ hello hs, p_recvs p 0%nat = Ok hello ∧ parse_handshake_message hello = Ok hs;
  an_wf : tx_wf tx;
  an_size : size_z (tx_to_bytes tx) ≤ kMaxTransactionSizeBytes;
  an_tx : ∃ m, p_recvs p 1%nat = Ok m ∧ make_tx_announce_message (mkTxAnnounce (tx_to_bytes tx)) = Ok m;
}.

(** The node refuses [tx], and [pool] is its memory pool afterwards. *)
Record refuses (ss : PeerState) (tx : Transaction) (pool : Mempool) (e : Error) : Prop := {
  rf_accept : accept tx (utxos_ (chain_ ss)) (mempool_policy_ ss) (mempool_ ss) = (pool, Err e);
  rf_reason : size_z (bytes_of (message e)) ≤ kMaxRejectReasonBytes;
}.

Section Refused.
Context (ios : nat → Io) {bs : list Block} {ss : PeerState} (Hss : peer_ok bs ss) (Hid : node_id_ok ss) (ws : World).

(** What handling the announcement is: the reject message, and its reason as the error. *)
Lemma handle_refused tx pool e : tx_wf tx → size_z (tx_to_bytes tx) ≤ kMaxTransactionSizeBytes → refuses ss tx pool e →
  ∃ m rej, make_tx_announce_message (mkTxAnnounce (tx_to_bytes tx)) = Ok m ∧
    handle_message ios m (ss, ws) =
    CSend rej (λ r, rest_of (λ _, fail_with (Err e)) ((set_chain_pool (chain_ ss) pool ss, ws), r)).
Proof.
  intros Hwf Hsz [Hacc Hreason]. destruct (announce_message _ (proj1 (announced_parses tx Hwf Hsz))) as (m & Hm & Ht & Hpl & _ & _ & Hpm).
  exists m. assert (on_tx_announce ios (m_payload m) (ss, ws) = ((set_chain_pool (chain_ ss) pool ss, ws), Err e)) as Ho.
  { rewrite Hpl, on_announced by done. unfold accept_transaction, mbind, SR_bind. by rewrite Hacc. }
  set (r := mkReject rcInvalidMessage (bytes_of (message e))).
  assert (make_reject_message r = Ok (mkP2pMessage kProtocolVersion kReject (enc_reject r))) as Hrej
    by (by apply (pay_make (PayloadOk := reject_payload))).
  exists (mkP2pMessage kProtocolVersion kReject (enc_reject r)). split; [exact Hm|].
  unfold handle_message. rewrite Ht, CR_bind_fail, Hpm. unfold catch, silent. rewrite Ho.
  cbn [conn_bind fst snd]. unfold send_reject. fold r. rewrite CR_bind_eq, CR_bind_fail, Hrej. reflexivity.
Qed.

(** The session ends with the reason of the refusal, and nothing is saved. *)
Lemma refused_session p tx pool e : announces p tx → refuses ss tx pool e →
  play p 0 0 (serve_relay_connection ios (ss, ws)) = ((set_chain_pool (chain_ ss) pool ss, ws), Err e).
Proof.
  intros [Hsends (hello & hs & Hhello & Hhs) Hwf Hsz (m & Hrecv & Hm)] Hr.
  destruct (handshake_message _ _ Hss Hid) as (mine & Hmine & _).
  destruct (handle_refused tx pool e Hwf Hsz Hr) as (m' & rej & Hm' & Hh).
  rewrite Hm in Hm'. injection Hm' as <-.
  unfold serve_relay_connection. rewrite (CR_bind_eq serve_relay_handshake). unfold serve_relay_handshake.
  rewrite CR_bind_eq. cbn [conn_recv conn_bind play]. rewrite Hhello. cbn [rest_of fst snd].
  rewrite CR_bind_fail, Hhs, CR_bind_reads. cbn [fst]. rewrite CR_bind_fail, Hmine.
  cbn [conn_send conn_bind play]. rewrite Hsends. cbn [rest_of fst snd].
  rewrite CR_bind_eq. change (relay_message_loop ios) with (relay_loop ios (S 63)). rewrite relay_loop_S.
  cbn [conn_bind play]. rewrite Hrecv. cbn [relay_next]. rewrite (CR_bind_eq (handle_message ios m)), Hh.
  cbn [conn_bind play]. rewrite Hsends. reflexivity.
Qed.
End Refused.

(** ** A client that submits a transaction, and the clients after it *)

(** A follower when the server has one block more. *)
Definition behind_by (b : Block) (f : Follower) : Follower :=
  mkFollower (fo_ios f) (fo_config f) (fo_chain f) (fo_missing f ++ [b]) (fo_state f) (fo_world f).

Lemma can_follow_more b bs ss ss' f : params_ (chain_ ss') = params_ (chain_ ss) → (length (fo_missing f) < 63)%nat →
  can_follow bs ss f → can_follow (b :: bs) ss' (behind_by b f).
Proof.
  intros Epar Hl [Hok Hid Hpar Hpers El _]. split; cbn [behind_by fo_chain fo_missing fo_state]; [done|done|congruence|done| |].
  - by rewrite reverse_app, reverse_singleton, El.
  - rewrite length_app. cbn [length]. lia.
Qed.
