(* ===== verification/Scenario.v ===== *)
(** * From two configurations to one chain, and back from the disk

    The scenario of [scripts/local_network.sh]: a seed mines blocks, a client that starts
    from nothing synchronises with it over a connection and saves its ledger, and a node is
    started from that ledger.  Everything between the configurations and the states is run:
    nothing is assumed of a state. *)

From S2P Require Import Prelude Errors Sha256 ByteIO Transaction Block Utxo TxValidation BlockValidation Mempool Chain BlockBuilder ChainStore P2pMessage P2pPayloads Effects Text SocketIO Peers Config PeerState PeerInv Network RelaySync NodeStart Serving.

(** ** Sizes *)

Definition small_block (b : Block) : Prop := sum_z (tx_size <$> transactions b) ≤ 92.

(** The blocks of a node that has only mined are small. *)
Lemma mined_small config r bs : config_typed config → resolve_coinbase_recipient config = Ok r →
  mined config r bs → Forall small_block bs.
Proof.
  intros Hty Hr [Hg Hb]. apply Forall_forall. intros b Hin. rewrite <- elem_of_reverse in Hin. unfold small_block.
  apply list_elem_of_lookup in Hin as [[|i] Hi].
  - rewrite Hg in Hi. injection Hi as <-. by cbn.
  - destruct (Hb i b Hi) as [-> _]. cbn [fmap list_fmap sum_z foldr]. unfold plain_coinbase. rewrite make_coinbase_size; [lia| |].
    + apply (consensus_params_wf _ Hty).
    + by apply (recipient_wf config).
Qed.

Lemma small_fits bs : Forall block_typed bs → Forall small_block bs → Forall block_fits bs.
Proof.
  rewrite !Forall_forall. intros Hty Hsm b Hin. specialize (Hsm b Hin). destruct (Hty b Hin) as [Hh _].
  unfold block_fits, small_block in *. rewrite block_size by done. change kMaxP2pPayloadBytes with 1048576. lia.
Qed.

Lemma length_boxed_blocks l : Forall block_typed l →
  size_z (mjoin (enc_boxed enc_block <$> l)) = sum_z ((λ b, 88 + sum_z (tx_size <$> transactions b)) <$> l).
Proof.
  induction 1 as [|b l [Hh _] _ IH]; [done|]. change (mjoin (enc_boxed enc_block <$> b :: l)) with
    (enc_boxed enc_block b ++ mjoin (enc_boxed enc_block <$> l)).
  rewrite length_app, Nat2Z.inj_add, IH. cbn [fmap list_fmap sum_z foldr]. f_equal.
  unfold enc_boxed, enc_var_bytes. rewrite length_app, length_le_bytes, <- block_to_bytes_enc, Nat2Z.inj_add, block_size by done.
  lia.
Qed.

Lemma ledger_size params bs limits : Forall block_typed bs → Forall small_block bs →
  size_z (enc_sealed (enc_body (node_ledger params bs (new_mempool limits)))) ≤ 32 + 180 * size_z bs.
Proof.
  intros Hty Hsm. unfold enc_sealed, enc_body, enc_ledger_head. rewrite !length_app, !length_le_bytes.
  cbn [l_blocks l_mempool_transactions node_ledger].
  change (sorted_transactions (new_mempool limits)) with (@nil Transaction). cbn [fmap list_fmap mjoin list_join length].
  rewrite !Nat2Z.inj_add, length_boxed_blocks by by apply Forall_reverse.
  assert (sum_z ((λ b, 88 + sum_z (tx_size <$> transactions b)) <$> reverse bs) ≤ 180 * size_z (reverse bs)) as H;
    [|rewrite length_reverse in H; lia].
  apply Forall_reverse in Hsm. clear Hty. induction Hsm as [|b l Hb _ IH]; [done|].
  unfold small_block in Hb. cbn [fmap list_fmap sum_z foldr length] in *. lia.
Qed.

(** A configuration of a node that starts without a ledger, whose blocks do not overflow
    the timestamp or the supply, and whose coinbases have different digests. *)
Record startable (config : NodeConfig) (recipient : Hash256) : Prop := {
  st_typed : config_typed config;
  st_id : config_id_ok config;
  st_recipient : resolve_coinbase_recipient config = Ok recipient;
  st_restore : cfg_restore config = false;
  st_time : cfg_genesis_timestamp config + cfg_mine_blocks config < 2 ^ 64;
  st_money : block_subsidy (build_consensus_params config) * (cfg_mine_blocks config + 1) ≤ kMaxMoney;
  st_size : cfg_max_block_size_bytes config ≤ kMaxBlockSizeBytes;
  st_coinbases : collision_free (coinbase_strings config recipient (Z.to_nat (cfg_mine_blocks config)));
}.


Lemma start_fresh ios config recipient w : startable config recipient → cfg_persist config = false →
  ∃ bs s, from_config ios config w = (w, Ok s) ∧ miner config recipient bs s ∧
    peer_height s = cfg_mine_blocks config ∧ size_z bs = cfg_mine_blocks config + 1.
Proof.
  intros [Hty Hid Hr Hre Htime Hmoney Hsize Hcf] Hp.
  assert (is_u32 (cfg_mine_blocks config)) as [H0 Hmax] by apply Hty.
  assert (cfg_mine_blocks config = Z.of_nat (Z.to_nat (cfg_mine_blocks config))) as En by lia.
  destruct (fresh_node_starts config Hty recipient Hr ios _ Hcf ltac:(solve_u) ltac:(by rewrite <- En)
    ltac:(by rewrite <- En) Hsize w Hre Hp En) as (bs & s & E & Hs & Hh).
  exists bs, s. rewrite <- En in Hh. split_and!; [done|done|done|].
  destruct Hs as (Hok & _). pose proof (peer_height_size Hok). lia.
Qed.

(** The ledger of a node that has only mined is within the limits. *)
Lemma miner_savable config recipient bs s : config_typed config → resolve_coinbase_recipient config = Ok recipient →
  miner config recipient bs s → size_z bs ≤ 1000000 → savable bs s ∧ size_z (written bs s) ≤ 32 + 180 * size_z bs.
Proof.
  intros Hty Hr (Hok & Hset & Hm & Hpool) Hn. pose proof Hset as (_ & _ & _ & Econ & _ & _ & _ & _ & Epar).
  pose proof (chain_of_stored _ (po_params _ _ Hok) _ _ (po_chain _ _ Hok)) as [Hbs _].
  assert (size_z (written bs s) ≤ 32 + 180 * size_z bs) as Hwr.
  { unfold written. rewrite Hpool. apply ledger_size; [done|]. by eapply mined_small. }
  split; [|done]. split; [done|by rewrite Econ, Epar| | |done|].
  - rewrite Hpool. apply map_Forall_empty.
  - etrans; [exact Hwr|]. change kMaxLedgerFileBytes with 1048576001024. lia.
  - rewrite Hpool. by vm_compute.
Qed.

(** *** A seed and a client *)
Section Pair.
Context (iosc ioss : nat → Io) (os : Os) (eof : Error) (cc cs : NodeConfig) (rc rs : Hash256) (wc ws : World).
Context (Heof : peer_disconnected eof = true).
Context (Hconn : ∃ h, tcp_connect os (mkTcpEndpoint (cfg_peer_host cc) (cfg_peer_port cc)) = Ok h).
Context (Tc : startable cc rc) (Ts : startable cs rs).
Context (Hgen : cfg_genesis_timestamp cc = cfg_genesis_timestamp cs).
Context (Hcons : build_consensus_params cc = build_consensus_params cs).
Context (Hps : cfg_persist cs = false) (Hmc : cfg_mine_blocks cc = 0) (Hms : cfg_mine_blocks cs < 64).
Abbreviation n := (Z.to_nat (cfg_mine_blocks cs)).

(** The client's chain is the genesis block of the seed. *)
Lemma same_genesis bsc bs : mined cc rc bsc → mined cs rs bs → size_z bsc = 1 → size_z bs = Z.of_nat n + 1 →
  ∃ l, bs = reverse l ++ bsc ∧ length l = n.
Proof.
  intros [Hg _] [Hg' _] H1 Hn. rewrite <- (reverse_involutive bsc). rewrite <- length_reverse in H1, Hn.
  destruct (reverse bsc) as [|g [|g' l']]; [done| |cbn in H1; lia]. injection Hg as ->.
  assert (build_genesis_block cc = build_genesis_block cs) as -> by (unfold build_genesis_block; by rewrite Hgen).
  destruct (reverse bs) as [|g l] eqn:Er; [done|]. injection Hg' as ->. exists l.
  split; [by rewrite <- (reverse_involutive bs), Er, reverse_cons|]. rewrite length_cons in Hn. lia.
Qed.

(** What the client holds at the end. *)
Record synchronised (bs : list Block) (ss sc : PeerState) : Prop := {
  sy_chain : chain_ sc = chain_ ss;
  sy_pool : mempool_ sc = new_mempool (resolved_mempool_limits cc);
  sy_savable : savable bs sc;
  sy_small : size_z (written bs sc) ≤ 32 + 180 * (cfg_mine_blocks cs + 1);
  sy_dir : data_dir_ sc = cfg_data_dir cc;
  sy_policy : mempool_policy_ sc = resolved_mempool_policy cc;
}.

(** Both start, and the client can follow. *)
Lemma pair_starts :
  ∃ bs ss bsc sc l, from_config ioss cs ws = (ws, Ok ss) ∧ miner cs rs bs ss ∧ peer_height ss = cfg_mine_blocks cs ∧
    from_config iosc (set_persist false cc) wc = (wc, Ok sc) ∧ miner (set_persist false cc) rc bsc sc ∧
    node_id_ok ss ∧ Forall block_typed bs ∧ Forall small_block bs ∧
    can_follow bs ss (mkFollower iosc cc bsc l sc wc) ∧ length l = n.
Proof.
  pose proof (st_typed _ _ Ts) as Hts. assert (is_u32 (cfg_mine_blocks cs)) as [H0 _] by apply Hts.
  destruct (start_fresh ioss cs rs ws Ts Hps) as (bs & ss & Efs & Hminer & Hh & Hsz).
  assert (startable (set_persist false cc) rc) as Tc' by (destruct Tc; by split).
  destruct (start_fresh iosc (set_persist false cc) rc wc Tc' eq_refl) as (bsc & sc & Efc & Hminerc & Hhc & Hszc).
  change (cfg_mine_blocks (set_persist false cc)) with (cfg_mine_blocks cc) in *. rewrite Hmc in *.
  pose proof Hminer as (Hss & Hsets & Hmined & _). pose proof Hminerc as (Hsc & Hsetc & Hminedc & _).
  destruct (same_genesis bsc bs) as (l & El & Hl); [by destruct Hminedc; split|done|lia|lia|].
  pose proof (chain_of_stored _ (po_params _ _ Hss) _ _ (po_chain _ _ Hss)) as [Hty _].
  pose proof Hsets as (_ & Eids & _ & _ & _ & _ & _ & _ & Epar).
  pose proof Hsetc as (_ & Eidc & _ & _ & _ & _ & Epc & _ & Eparc).
  exists bs, ss, bsc, sc, l. split_and!; [done..| |done| | |done].
  - unfold node_id_ok. rewrite Eids. apply Ts.
  - by eapply mined_small; [..|exact Hmined]; [|apply Ts].
  - split; cbn [fo_chain fo_state fo_missing]; [done| | |exact Epc|done|lia].
    + unfold node_id_ok. rewrite Eidc. apply Tc.
    + rewrite Epar, Eparc. exact Hcons.
Qed.

Lemma pair_run :
  ∃ bs ss sc, from_config ioss cs ws = (ws, Ok ss) ∧ peer_ok bs ss ∧ peer_height ss = cfg_mine_blocks cs ∧
    synchronised bs ss sc ∧
    let r := synced iosc cc (sc, wc) in
    nsteps (net_step eof) (4 * n + 5)
      (mkNet (run_relay_client iosc os cc no_options wc) (serve_relay_connection_from ioss cs ws) [] [])
      (mkNet (CRet (r.1.2, r.2)) (CRet (ws, Ok (mkRelaySessionSummary (cfg_mine_blocks cs) 0))) [] []).
Proof.
  assert (is_u32 (cfg_mine_blocks cs)) as [H0 _] by apply Ts.
  destruct pair_starts as (bs & ss & bsc & sc & l & Efs & Hminer & Hh & Efc & Hminerc & Hids & Hty & Hsmall & Hf & Hl).
  pose proof Hminer as (Hss & Hsets & _ & Hpool). pose proof Hminerc as (Hsc & Hsetc & _ & Hpoolc).
  pose proof Hf as [_ Hidc Hpar Hperc El Hlen]. cbn [fo_chain fo_state fo_missing] in *.
  destruct (session_run iosc ioss eof Heof Hss ws Hsc wc cc Hids Hidc (small_fits _ Hty Hsmall) Hpar Hperc
    ltac:(rewrite Hh; unfold UINT32_MAX; lia) l El Hlen) as (sc' & Hsc' & Hset' & Hpool' & Hrun).
  exists bs, ss, sc'. split; [done|]. split; [done|]. split; [done|].
  destruct (follower_chain Hss Hpar _ Hsc' Hset') as (Echain & _). specialize (Hpool' _ Hpoolc).
  pose proof Hset' as (Epol1 & _ & _ & Econ1 & _ & Edir1 & _). pose proof Hsetc as (Epolc & _ & _ & Econc & _ & Edirc & _ & _ & Eparc).
  pose proof (peer_height_size Hss) as Hsz. rewrite Hh in Hsz.
  assert (size_z (written bs sc') ≤ 32 + 180 * (cfg_mine_blocks cs + 1)) as Hwr.
  { unfold written. rewrite Hpool'. etrans; [by apply ledger_size|]. lia. }
  split.
  { split; [done|done| |done|by rewrite Edir1, Edirc|by rewrite Epol1, Epolc].
    split; [done| | |..].
    - rewrite Echain, <- Hpar, Econ1, Econc, Eparc. reflexivity.
    - rewrite Hpool'. apply map_Forall_empty.
    - etrans; [exact Hwr|]. change kMaxLedgerFileBytes with 1048576001024. lia.
    - change kMaxLedgerBlocks with 1000000. lia.
    - rewrite Hpool'. by vm_compute. }
  destruct Hconn as [h Eh]. unfold run_relay_client, serve_relay_connection_from. rewrite Eh, Efc, Efs.
  rewrite Hl in Hrun.
  assert (served ioss (ss, ws) = ((ss, ws), Ok (mkRelaySessionSummary (cfg_mine_blocks cs) 0))) as Hserved.
  { pose proof Hsets as (_ & _ & _ & _ & _ & _ & Eps & _).
    unfold served, persist_ledger, mbind, SR_bind. cbn [fst]. rewrite Eps. unfold fresh_state. cbn [store_block new_state persist_].
    rewrite Hps. cbn [negb]. unfold reads, make_relay_summary. cbn [fst]. by rewrite Hh, Hpool. }
  rewrite Hserved in Hrun. cbv zeta. destruct (synced iosc cc (sc', wc)) as [[p1 w1] r1]. cbn [fst snd].
  refine (wrapped_steps eof (λ '((_, w), r), CRet (w, r)) (λ '((_, w), r), CRet (w, r)) _ _ _ _ _ Hrun); by intros [[??]?].
Qed.

(** ... and what it leaves on its disk. *)
Definition disk_works (io : Io) : Prop := ∀ bytes, size_z bytes ≤ 11552 → io_good io bytes.

Lemma client_saves bs ss sc : synchronised bs ss sc → config_valid cc →
  (cfg_persist cc = true → disk_works (iosc (w_calls wc))) →
  ∃ w', synced iosc cc (sc, wc) = ((sc, w'), Ok (mkRelayClientResult (peer_height ss) (peer_tip_hash ss))) ∧
    (cfg_persist cc = false → w' = wc) ∧
    (cfg_persist cc = true → ∀ ios, io_read (ios (w_calls w')) = true → io_read (ios (S (w_calls w'))) = true →
       ∃ r, from_config ios (set_restore true cc) w' = (next_call (next_call w'), Ok r) ∧ same_node sc r).
Proof.
  intros [Hc Hp Hs Hsm Hd Hpol] Hval Hdisk.
  assert (mkRelayClientResult (peer_height ss) (peer_tip_hash ss) =
    mkRelayClientResult (peer_height sc) (peer_tip_hash sc)) as -> by (unfold peer_height, peer_tip_hash; by rewrite Hc).
  destruct (cfg_persist cc) eqn:Epers; [|exists wc; split_and!; [by apply synced_plain|done|done]].
  destruct (save_writes iosc bs sc Hs wc) as (d & Hsave & Hdd); [apply Hdisk; [done|lia]|].
  exists (mkWorld d (S (w_calls wc))). split; [|split; [done|]].
  - unfold synced. rewrite Epers. by rewrite (SR_bind_eq _ _ _ _ _ Hsave).
  - intros _ ios H1 H2. apply (restart_from ios (set_restore true cc) bs sc Hs); [|done..].
    split; [apply Tc|by destruct Hval; split|done|by rewrite Hd|by rewrite Hp|by rewrite Hpol].
Qed.
End Pair.
