(* ===== verification/Simulator.v ===== *)
(** * The simulator ([include/blockchain/node/simulator.hpp], [src/node/simulator.cpp])

    A scripted run in one process.  [Sim] are the variables of [run_simulator]; the script
    is a list of steps, each admitting transactions and then mining blocks.  The functions
    of the anonymous namespace that have a twin in [peer_state.cpp] have the prefix [sim_].

    [same_core]: nothing but the summary depends on the statistics, so a run that restarts
    from a ledger, with its counters at zero, goes on as the run that wrote it. *)

From S2P Require Import Prelude Errors Sha256 ByteIO Transaction Block Utxo TxValidation BlockValidation Mempool Chain BlockBuilder ChainStore P2pMessage P2pPayloads Effects Text Config PeerState PeerInv NodeStart.

Record SimulatorSummary := mkSimulatorSummary {
  sum_genesis_hash : Hash256;
  sum_tip_hash : Hash256;
  sum_height : Z;
  sum_utxo_count : Z;
  sum_blocks_mined : Z;
  sum_txs_admitted : Z;
  sum_txs_included : Z;
  sum_total_fees : Z;
  sum_restored_from_disk : bool;
}.

Record SimulatorStep := mkSimulatorStep { submit_txs : list Transaction; step_mine_blocks : Z }.
Record SimulatorOptions := mkSimulatorOptions { steps : list SimulatorStep; opt_mempool_limits : MempoolLimits }.

Record RunStats := mkRunStats { blocks_mined : Z; txs_admitted : Z; txs_included : Z; total_fees : Z }.

Record Sim := mkSim { sim_chain : Chain; sim_pool : Mempool; sim_ledger : list Block; sim_stats : RunStats }.

(** ** Settings *)

Definition sim_build_consensus_params (config : NodeConfig) : ConsensusParams :=
  mkConsensusParams
    (if negb (cfg_block_subsidy config =? 0) then cfg_block_subsidy config else kDefaultBlockSubsidy)
    (if negb (cfg_coinbase_maturity config =? 0) then cfg_coinbase_maturity config else kDefaultCoinbaseMaturity).

Definition sim_resolve_coinbase_recipient (config : NodeConfig) : Result Hash256 :=
  if bool_decide (cfg_coinbase_recipient_hex config = "") then mret zero_hash
  else hash_from_hex (cfg_coinbase_recipient_hex config).

Definition sim_build_template_params (config : NodeConfig) (consensus : ConsensusParams) (recipient : Hash256)
    : BlockTemplateParams :=
  mkBlockTemplateParams kBlockVersion
    (if negb (cfg_max_block_size_bytes config =? 0) then cfg_max_block_size_bytes config else kMaxBlockSizeBytes)
    kMaxTransactionsPerBlock consensus recipient.

Definition resolve_mempool_limits (config : NodeConfig) (options : SimulatorOptions) : MempoolLimits :=
  let limits := resolved_mempool_limits config in
  let chosen := opt_mempool_limits options in
  mkMempoolLimits
    (if negb (max_transactions chosen =? 0) then max_transactions chosen else max_transactions limits)
    (if negb (max_total_bytes chosen =? 0) then max_total_bytes chosen else max_total_bytes limits).

Definition sim_block_timestamp (genesis_timestamp height : Z) : Z := wrap64 (genesis_timestamp + height).

Definition consensus_params_match (expected stored : ConsensusParams) : bool :=
  (block_subsidy expected =? block_subsidy stored) && (coinbase_maturity expected =? coinbase_maturity stored).

(** ** Steps *)

Fixpoint admit_transactions (policy : MempoolPolicy) (txs : list Transaction) : SR Sim unit :=
  match txs with
  | [] => mret tt
  | tx :: txs => λ s,
      match accept tx (utxos_ (sim_chain s)) policy (sim_pool s) with
      | (pool, Err e) => (mkSim (sim_chain s) pool (sim_ledger s) (sim_stats s), Err e)
      | (pool, Ok _) =>
          let st := sim_stats s in
          admit_transactions policy txs
            (mkSim (sim_chain s) pool (sim_ledger s)
               (mkRunStats (blocks_mined st) (wrap32 (txs_admitted st + 1)) (txs_included st) (total_fees st)))
      end
  end.

Fixpoint mine_n_blocks (config : NodeConfig) (tmpl_params : BlockTemplateParams) (count : nat) : SR Sim unit :=
  match count with
  | O => mret tt
  | S count => λ s,
      let timestamp := sim_block_timestamp (cfg_genesis_timestamp config)
                         (wrap32 (height (tip_ (sim_chain s)) + 1)) in
      match build_block_template (tip_ (sim_chain s)) timestamp (sim_pool s) (utxos_ (sim_chain s)) tmpl_params with
      | Err e => (s, Err e)
      | Ok tmpl =>
          match submit_block (bt_block tmpl) (Some (sim_pool s)) (sim_chain s) with
          | (chain, pool, Err e) => (mkSim chain (default (sim_pool s) pool) (sim_ledger s) (sim_stats s), Err e)
          | (chain, pool, Ok _) =>
              let st := sim_stats s in
              mine_n_blocks config tmpl_params count
                (mkSim chain (default (sim_pool s) pool) (sim_ledger s ++ [bt_block tmpl])
                   (mkRunStats (wrap32 (blocks_mined st + 1)) (txs_admitted st)
                      (wrap32 (txs_included st + wrap32 (bt_selected_count tmpl)))
                      (wrap64 (total_fees st + bt_total_fees tmpl))))
          end
      end
  end.

Fixpoint run_steps (config : NodeConfig) (policy : MempoolPolicy) (tmpl_params : BlockTemplateParams)
    (script : list SimulatorStep) : SR Sim unit :=
  match script with
  | [] => mret tt
  | step :: script =>
      _ ← admit_transactions policy (submit_txs step);
      _ ← mine_n_blocks config tmpl_params (Z.to_nat (step_mine_blocks step));
      run_steps config policy tmpl_params script
  end.

Definition summary_from_chain (genesis : Block) (chain : Chain) (stats : RunStats) (restored : bool)
    : SimulatorSummary :=
  mkSimulatorSummary (header_hash (header genesis)) (header_hash (tip_ chain)) (height (tip_ chain))
    (Z.of_nat (size (utxos_ chain))) (blocks_mined stats) (txs_admitted stats) (txs_included stats)
    (total_fees stats) restored.

Definition replay_loaded_chain (blocks : list Block) (params : ConsensusParams) : Result Chain :=
  match blocks with
  | [] => make_error kStorageCorruption "ledger contains no blocks"
  | b :: blocks =>
      chain ← create b params;
      submit_all blocks chain
  end.

(** ** The run

    Without steps the run mines the configured number of blocks, which is a script of one
    step.  [chain_result] returns the chain with the variables the lambda assigns: the ledger,
    the restored transactions and whether there was a restore. *)

Record Initial := mkInitial {
  in_chain : Chain;
  in_ledger : list Block;
  in_txs : list Transaction;
  in_restored : bool;
}.

Definition chain_result (io : Io) (config : NodeConfig) (consensus : ConsensusParams) (genesis : Block) (d : Disk)
    : Result Initial :=
  if negb (cfg_restore config) then
    chain ← create genesis consensus;
    mret (mkInitial chain [genesis] [] false)
  else if negb (ledger_exists (cfg_data_dir config) d)
  then make_error kInvalidConfig "no ledger found in data_dir for --restore"
  else
    loaded ← load_ledger io (cfg_data_dir config) d;
    if negb (consensus_params_match consensus (l_params loaded))
    then make_error kStorageCorruption "restored consensus parameters do not match configuration"
    else
      match l_blocks loaded with
      | [] => make_error kStorageCorruption "unreachable: a ledger that loads has blocks"
      | b :: _ =>
          if negb (bool_decide (header_hash (header b) = header_hash (header genesis)))
          then make_error kStorageCorruption "restored genesis does not match configuration"
          else
            replayed ← replay_loaded_chain (l_blocks loaded) (l_params loaded);
            mret (mkInitial replayed (l_blocks loaded) (l_mempool_transactions loaded) true)
      end.

(** Without steps, the configured number of blocks. *)
Definition script_of (config : NodeConfig) (options : SimulatorOptions) : list SimulatorStep :=
  match steps options with
  | [] => [mkSimulatorStep [] (cfg_mine_blocks config)]
  | _ :: _ => steps options
  end.

Definition run_simulator (ios : nat → Io) (config : NodeConfig) (options : SimulatorOptions) (d : Disk)
    : Disk * Result SimulatorSummary :=
  let consensus := sim_build_consensus_params config in
  let genesis := build_genesis_block config in
  let policy := resolved_mempool_policy config in
  match (recipient ← sim_resolve_coinbase_recipient config;
         initial ← chain_result (ios 0%nat) config consensus genesis d; mret (recipient, initial)) with
  | Err e => (d, Err e)
  | Ok (recipient, initial) =>
      let tmpl_params := sim_build_template_params config consensus recipient in
      let chain := in_chain initial in
      match restore_mempool (utxos_ chain) (in_txs initial) policy
              (new_mempool (resolve_mempool_limits config options)) with
      | (_, Err e) => (d, Err e)
      | (pool, Ok _) =>
          match run_steps config policy tmpl_params (script_of config options)
                  (mkSim chain pool (in_ledger initial) (mkRunStats 0 0 0 0)) with
          | (_, Err e) => (d, Err e)
          | (s, Ok _) =>
              let summary := summary_from_chain genesis (sim_chain s) (sim_stats s) (in_restored initial) in
              if cfg_persist config then
                match save_ledger (ios 1%nat) (cfg_data_dir config) (sim_ledger s) consensus
                        (sorted_transactions (sim_pool s)) d with
                | (d, Err e) => (d, Err e)
                | (d, Ok _) => (d, Ok summary)
                end
              else (d, Ok summary)
          end
      end
  end.

(** ** Statistics do not matter *)

Definition stats_add (a b : RunStats) : RunStats :=
  mkRunStats (wrap32 (blocks_mined a + blocks_mined b)) (wrap32 (txs_admitted a + txs_admitted b))
    (wrap32 (txs_included a + txs_included b)) (wrap64 (total_fees a + total_fees b)).

Definition stats_typed (a : RunStats) : Prop :=
  is_u32 (blocks_mined a) ∧ is_u32 (txs_admitted a) ∧ is_u32 (txs_included a) ∧ is_u64 (total_fees a).

(** [s] is [s'] with the statistics [x] added. *)
Definition shifted (x : RunStats) (s s' : Sim) : Prop :=
  sim_chain s = sim_chain s' ∧ sim_pool s = sim_pool s' ∧ sim_ledger s = sim_ledger s' ∧
  sim_stats s = stats_add x (sim_stats s').

(** Two runs of a method on shifted states end in shifted states with the same result. *)
Definition respects {A} (m : SR Sim A) : Prop :=
  ∀ x s s', shifted x s s' → shifted x (m s).1 (m s').1 ∧ (m s).2 = (m s').2.

Lemma respects_bind {A B} (m : SR Sim A) (f : A → SR Sim B) :
  respects m → (∀ a, respects (f a)) → respects (m ≫= f).
Proof.
  intros Hm Hf x s s' Hs. specialize (Hm x s s' Hs) as [H1 H2]. unfold mbind, SR_bind.
  destruct (m s) as [s1 r1], (m s') as [s2 r2]. cbn [fst snd] in *. subst r1.
  destruct r2 as [a|e]; [by apply Hf|done].
Qed.

Lemma wrap32_shift a b c : wrap32 (wrap32 (a + b) + c) = wrap32 (a + wrap32 (b + c)).
Proof. unfold wrap32. rewrite Zplus_mod_idemp_l, Zplus_mod_idemp_r. f_equal. lia. Qed.
Lemma wrap64_shift a b c : wrap64 (wrap64 (a + b) + c) = wrap64 (a + wrap64 (b + c)).
Proof. unfold wrap64. rewrite Zplus_mod_idemp_l, Zplus_mod_idemp_r. f_equal. lia. Qed.
Lemma admit_respects policy txs : respects (admit_transactions policy txs).
Proof.
  induction txs as [|tx txs IH]; intros x s s' (Hc & Hp & Hl & Hst); [done|]. cbn [admit_transactions].
  rewrite Hc, Hp. destruct (accept _ _ _ _) as [pool [[]|e]]; [|by split].
  apply IH. split_and!; cbn; [done..|]. rewrite Hst. unfold stats_add. cbn. f_equal. apply wrap32_shift.
Qed.

Lemma mine_respects config tmpl count : respects (mine_n_blocks config tmpl count).
Proof.
  induction count as [|count IH]; intros x s s' (Hc & Hp & Hl & Hst); [done|]. cbn [mine_n_blocks].
  rewrite Hc, Hp. destruct (build_block_template _ _ _ _ _) as [t|e]; [|done].
  destruct (submit_block _ _ _) as [[chain pool] [fees|e]]; [|by split].
  apply IH. split_and!; cbn; [done|done|by rewrite Hl|]. rewrite Hst. unfold stats_add. cbn.
  f_equal; [apply wrap32_shift|apply wrap32_shift|apply wrap64_shift].
Qed.

Lemma run_steps_respects config policy tmpl script : respects (run_steps config policy tmpl script).
Proof.
  induction script as [|step script IH]; cbn [run_steps]; [by intros x s s'|].
  apply respects_bind; [apply admit_respects|intros _]. apply respects_bind; [apply mine_respects|by intros _].
Qed.

Lemma run_steps_app config policy tmpl script script' s :
  run_steps config policy tmpl (script ++ script') s =
  (_ ← run_steps config policy tmpl script; run_steps config policy tmpl script') s.
Proof.
  revert s. induction script as [|step script IH]; intros s; [done|]. cbn [app run_steps].
  unfold mbind, SR_bind. destruct (admit_transactions _ _ _) as [s1 [[]|e]]; [|done].
  destruct (mine_n_blocks _ _ _ _) as [s2 [[]|e]]; [|done]. rewrite IH. done.
Qed.

(** Of the configuration itself the steps read only the time of the genesis block. *)
Lemma mine_n_blocks_config config config' tmpl count s :
  cfg_genesis_timestamp config = cfg_genesis_timestamp config' →
  mine_n_blocks config tmpl count s = mine_n_blocks config' tmpl count s.
Proof.
  intros E. revert s. induction count as [|count IH]; intros s; [done|]. cbn [mine_n_blocks]. rewrite E.
  destruct (build_block_template _ _ _ _ _) as [t|e]; [|done].
  destruct (submit_block _ _ _) as [[chain pool] [fees|e]]; [apply IH|done].
Qed.

Lemma run_steps_config config config' policy tmpl script s :
  cfg_genesis_timestamp config = cfg_genesis_timestamp config' →
  run_steps config policy tmpl script s = run_steps config' policy tmpl script s.
Proof.
  intros E. revert s. induction script as [|step script IH]; intros s; [done|]. cbn [run_steps].
  unfold mbind, SR_bind. destruct (admit_transactions _ _ _) as [s1 [[]|e]]; [|done].
  rewrite (mine_n_blocks_config config config') by done.
  destruct (mine_n_blocks _ _ _ _) as [s2 [[]|e]]; [apply IH|done].
Qed.

(** ** The invariant of a run *)

Lemma accept_limits tx utxos policy m m' r :
  pool_wf m → tx_typed tx → utxos_wf utxos → policy_wf policy →
  accept tx utxos policy m = (m', r) → limits_ m' = limits_ m.
Proof.
  intros Hm Htx Hu Hp E. destruct (accept_run _ _ _ _ _ _ Hm Htx Hu Hp E) as [_ Hr]. destruct r as [[]|e].
  - destruct Hr as (fee & m1 & _ & Hev & _ & _ & -> & _). exact (ev_limits _ _ _ Hev).
  - destruct Hr as [[-> _]|(fee & _ & [(_ & -> & _)|(_ & Hev & _)])]; [done..|exact (ev_limits _ _ _ Hev)].
Qed.

Lemma prune_limits txs m : limits_ (prune txs m) = limits_ m.
Proof.
  unfold prune. revert m. induction txs as [|tx txs IH]; intros m; cbn [foldl]; [done|].
  by rewrite IH, remove_limits.
Qed.

(** Blocks [bs], newest first, the first of them [bs0]. *)
Record sim_ok (params : ConsensusParams) (limits : MempoolLimits) (bs0 bs : list Block) (s : Sim) : Prop := {
  so_suffix : bs0 `suffix_of` bs;
  so_chain : chain_of params bs (sim_chain s);
  so_pool : pool_wf (sim_pool s);
  so_limits : limits_ (sim_pool s) = limits;
  so_ledger : sim_ledger s = reverse bs;
  so_stats : stats_typed (sim_stats s);
}.

Section Invariant.
Context (config : NodeConfig) (Htyped : config_typed config).
Context (recipient : Hash256) (Hrecipient : sim_resolve_coinbase_recipient config = Ok recipient).
Context (limits : MempoolLimits) (bs0 : list Block).
Abbreviation params := (sim_build_consensus_params config).
Abbreviation tmpl := (sim_build_template_params config params recipient).
Abbreviation policy := (resolved_mempool_policy config).

Definition sim_inv (s : Sim) : Prop := ∃ bs, sim_ok params limits bs0 bs s.

Lemma sim_params_wf : params_wf params.
Proof. by apply (consensus_params_wf config). Qed.

Lemma sim_admit_keeps txs : Forall tx_typed txs → keeps sim_inv (admit_transactions policy txs).
Proof.
  induction 1 as [|tx txs Htx _ IH]; intros s (bs & [Hsuf Hch Hpool Hlim Hl Hst]); [by exists bs|].
  cbn [admit_transactions]. destruct (accept _ _ _ _) as [pool r] eqn:E.
  destruct (chain_of_wf _ sim_params_wf _ _ Hch) as [(_ & Hu & _) _].
  assert (policy_wf policy) as Hpol by apply Htyped.
  pose proof (accept_limits _ _ _ _ _ _ Hpool Htx Hu Hpol E) as Hlim'. rewrite Hlim in Hlim'.
  destruct (accept_run _ _ _ _ _ _ Hpool Htx Hu Hpol E) as [Hpool' _].
  destruct r as [[]|e]; [apply IH|]; exists bs; split; cbn; try done.
  destruct Hst as (? & ? & ? & ?). split_and!; [done|apply wrap32_range|done..].
Qed.

Lemma sim_mine_keeps count : keeps sim_inv (mine_n_blocks config tmpl count).
Proof.
  induction count as [|count IH]; intros s (bs & [Hsuf Hch Hpool Hlim Hl Hst]); [by exists bs|]. cbn [mine_n_blocks].
  destruct (build_block_template _ _ _ _ _) as [t|e] eqn:Et; [|by exists bs].
  destruct (chain_of_wf _ sim_params_wf _ _ Hch) as [Hwf _]. pose proof Hwf as (Htip & _).
  apply template_typed in Et as Hty; [|done|apply wrap64_range|done|done|by apply (recipient_wf config)|apply sim_params_wf].
  destruct (submit_block _ _ _) as [[chain pool] [fees|e]] eqn:Es.
  - apply IH. exists (bt_block t :: bs). pose proof Es as (_ & -> & _)%submit_block_Ok; [|done..].
    split; cbn [sim_chain sim_pool sim_ledger sim_stats default fmap option_fmap option_map].
    + by apply suffix_cons_r.
    + by econstructor.
    + by apply prune_wf.
    + etrans; [apply prune_limits|done].
    + by rewrite reverse_cons, Hl.
    + destruct Hst as (? & ? & ? & ?). split_and!; [apply wrap32_range|done|apply wrap32_range|apply wrap64_range].
  - apply submit_block_Err in Es as [-> ->]. by exists bs.
Qed.

Definition script_typed (script : list SimulatorStep) : Prop := Forall (λ st, Forall tx_typed (submit_txs st)) script.

Lemma run_steps_keeps script : script_typed script → keeps sim_inv (run_steps config policy tmpl script).
Proof.
  induction 1 as [|step script Hst _ IH]; cbn [run_steps]; [apply keeps_ret|].
  apply keeps_bind; [by apply sim_admit_keeps|intros _]. apply keeps_bind; [apply sim_mine_keeps|by intros _].
Qed.
End Invariant.

(** ** Runs *)

Section Runs.
Context (config : NodeConfig) (Htyped : config_typed config).
Context (recipient : Hash256) (Hrecipient : sim_resolve_coinbase_recipient config = Ok recipient).
Abbreviation params := (sim_build_consensus_params config).
Abbreviation tmpl := (sim_build_template_params config params recipient).
Abbreviation policy := (resolved_mempool_policy config).
Abbreviation genesis := (build_genesis_block config).

Definition zero_stats : RunStats := mkRunStats 0 0 0 0.

(** The variables before the script of a run from genesis. *)
Definition sim_start (limits : MempoolLimits) : Sim :=
  mkSim (mkChain (header genesis) ∅ params) (new_mempool limits) [genesis] zero_stats.

Lemma sim_start_ok limits :
  is_u32 (max_transactions limits) → is_u64 (max_total_bytes limits) → sim_ok params limits [genesis] [genesis] (sim_start limits).
Proof.
  intros H1 H2. split; cbn; [done| |by apply new_mempool_wf|done|done|done].
  constructor; [by apply genesis_typed|by apply genesis_created].
Qed.

(** A run that restores nothing is its script, on every path. *)
Lemma run_started ios options d script :
  cfg_restore config = false → script_of config options = script →
  run_simulator ios config options d =
  match run_steps config policy tmpl script (sim_start (resolve_mempool_limits config options)) with
  | (_, Err e) => (d, Err e)
  | (s, Ok _) =>
      let summary := summary_from_chain genesis (sim_chain s) (sim_stats s) false in
      if cfg_persist config then
        match save_ledger (ios 1%nat) (cfg_data_dir config) (sim_ledger s) params (sorted_transactions (sim_pool s)) d with
        | (d, Err e) => (d, Err e)
        | (d, Ok _) => (d, Ok summary)
        end
      else (d, Ok summary)
  end.
Proof.
  intros Hr Hs. unfold run_simulator. rewrite Hrecipient. rsimpl. unfold chain_result. rewrite Hr.
  cbn [negb]. assert (create genesis params = Ok (mkChain (header genesis) ∅ params)) as ->
    by exact (genesis_created config Htyped). rsimpl.
  cbn [in_txs in_chain in_ledger in_restored restore_mempool]. rewrite Hs.
  change (mret tt) with (Ok tt). cbn iota.
  change (mkSim (mkChain (header genesis) ∅ params) (new_mempool (resolve_mempool_limits config options)) [genesis]
    (mkRunStats 0 0 0 0)) with (sim_start (resolve_mempool_limits config options)). reflexivity.
Qed.

Lemma run_from_genesis ios options d script s :
  cfg_restore config = false → script_of config options = script →
  run_steps config policy tmpl script (sim_start (resolve_mempool_limits config options)) = (s, Ok tt) →
  run_simulator ios config options d =
  let summary := summary_from_chain genesis (sim_chain s) (sim_stats s) false in
  if cfg_persist config then
    match save_ledger (ios 1%nat) (cfg_data_dir config) (sim_ledger s) params (sorted_transactions (sim_pool s)) d with
    | (d, Err e) => (d, Err e)
    | (d, Ok _) => (d, Ok summary)
    end
  else (d, Ok summary).
Proof. intros Hr Hs H. by rewrite (run_started ios options d script Hr Hs), H. Qed.

Lemma run_from_ledger ios options d script bs chain pool s :
  cfg_restore config = true → cfg_persist config = false → script_of config options = script →
  load_ledger (ios 0%nat) (cfg_data_dir config) d = Ok (node_ledger params bs pool) →
  chain_of params bs chain → [genesis] `suffix_of` bs →
  pool_wf pool → pool_valid (utxos_ chain) policy pool → limits_ pool = resolve_mempool_limits config options →
  run_steps config policy tmpl script (mkSim chain pool (reverse bs) zero_stats) = (s, Ok tt) →
  run_simulator ios config options d = (d, Ok (summary_from_chain genesis (sim_chain s) (sim_stats s) true)).
Proof.
  intros Hr Hp Hs Hload Hch [pre Hsuf] Hpool Hv Hlim H. unfold run_simulator. rewrite Hrecipient. rsimpl.
  unfold chain_result. rewrite Hr, (load_ledger_exists _ _ _ _ Hload), Hload. cbn [negb]. rsimpl.
  cbn [l_params l_blocks l_mempool_transactions node_ledger].
  assert (consensus_params_match params params = true) as -> by (unfold consensus_params_match; by rewrite !Z.eqb_refl).
  cbn [negb]. assert (params_wf params) as Hpw by (by apply (consensus_params_wf config)).
  destruct (chain_of_submit_all _ _ _ Hch) as (g & blocks & c0 & Eb & Hc0 & Hsub).
  assert (g = genesis) as ->.
  { rewrite Hsuf, reverse_app in Eb. cbn in Eb. by injection Eb. }
  rewrite Eb. rewrite bool_decide_true by reflexivity. cbn [negb replay_loaded_chain]. rewrite Hc0. rsimpl.
  rewrite Hsub. rsimpl. cbn [in_txs in_chain in_ledger in_restored]. rewrite <- Hlim, restore_sorted, Hs by done.
  rewrite <- Eb. change (mkRunStats 0 0 0 0) with zero_stats. by rewrite H, Hp.
Qed.
End Runs.

(** ** Mining without transactions *)

Section Plain.
Context (config : NodeConfig) (Htyped : config_typed config).
Context (recipient : Hash256) (Hrecipient : sim_resolve_coinbase_recipient config = Ok recipient).
Context (n : nat) (Hcf : collision_free (coinbase_strings config recipient n)).
Context (Hn : Z.of_nat n ≤ UINT32_MAX) (Hts : cfg_genesis_timestamp config + Z.of_nat n < 2 ^ 64).
Abbreviation params := (sim_build_consensus_params config).
Abbreviation tmpl := (sim_build_template_params config params recipient).
Context (Hmoney : block_subsidy params * (Z.of_nat n + 1) ≤ kMaxMoney).
Context (Hsize : cfg_max_block_size_bytes config ≤ kMaxBlockSizeBytes).
Context (limits : MempoolLimits) (Hl1 : is_u32 (max_transactions limits)) (Hl2 : is_u64 (max_total_bytes limits)).

(** A run that has mined [k] blocks and admitted nothing. *)
Record plain_run (k : nat) (bs : list Block) (s : Sim) : Prop := {
  pr_mined : mined config recipient bs;
  pr_chain : chain_of params bs (sim_chain s);
  pr_size : length bs = S k;
  pr_pool : sim_pool s = new_mempool limits;
  pr_ledger : sim_ledger s = reverse bs;
  pr_stats : sim_stats s = mkRunStats (Z.of_nat k) 0 0 0;
}.

Lemma plain_start : plain_run 0 [build_genesis_block config] (sim_start config limits).
Proof.
  destruct (sim_start_ok config Htyped limits Hl1 Hl2) as [_ Hch _ _ _ _]. split; (done || apply mined_genesis).
Qed.

Lemma plain_mine count : ∀ k bs s,
  plain_run k bs s → (k + count ≤ n)%nat →
  ∃ bs' s', mine_n_blocks config tmpl count s = (s', Ok tt) ∧ plain_run (k + count) bs' s'.
Proof.
  induction count as [|count IH]; intros k bs s [Hm Hch Hsz Hp Hl Hst] Hle.
  { exists bs, s. rewrite Nat.add_0_r. by split. }
  destruct (mine_plain config Htyped recipient Hrecipient n Hcf Hn Hts Hmoney Hsize bs (sim_chain s) limits Hm Hch) as
    (t & chain' & Ht & Hfee & Hcnt & Hsub & Hty & Hch' & Hm' & _); [rewrite Hsz; lia|done|done|].
  assert (build_block_template (tip_ (sim_chain s)) (sim_block_timestamp (cfg_genesis_timestamp config)
    (wrap32 (height (tip_ (sim_chain s)) + 1))) (new_mempool limits) (utxos_ (sim_chain s)) tmpl = Ok t) as Ht'
    by exact Ht. clear Ht.
  cbn [mine_n_blocks]. rewrite Hp, Ht', Hsub. cbn [default].
  destruct (IH (S k) (bt_block t :: bs) (mkSim chain' (new_mempool limits) (sim_ledger s ++ [bt_block t])
    (mkRunStats (wrap32 (blocks_mined (sim_stats s) + 1)) (txs_admitted (sim_stats s))
      (wrap32 (txs_included (sim_stats s) + wrap32 (bt_selected_count t)))
      (wrap64 (total_fees (sim_stats s) + bt_total_fees t))))) as (bs' & s' & E & Hr); [|lia|].
  - split; cbn [sim_chain sim_pool sim_ledger sim_stats]; try done.
    + by rewrite length_cons, Hsz.
    + by rewrite Hl, reverse_cons.
    + rewrite Hst, Hfee, Hcnt. cbn [blocks_mined txs_admitted txs_included total_fees].
      rewrite wrap32_small by solve_u. f_equal. lia.
  - exists bs', s'. rewrite Nat.add_succ_r. by split; [exact E|].
Qed.
End Plain.

(** ** A run in two halves *)

Section Halves.
Context (config : NodeConfig) (Htyped : config_typed config).
Context (recipient : Hash256) (Hrecipient : sim_resolve_coinbase_recipient config = Ok recipient).
Context (Hrestore : cfg_restore config = false) (Hpersist : cfg_persist config = false).
Context (limits : MempoolLimits) (first second : list SimulatorStep).
Context (Hfirst : first ≠ []) (Hsecond : second ≠ []) (Htxs : script_typed first).

Abbreviation params := (sim_build_consensus_params config).
Abbreviation tmpl := (sim_build_template_params config params recipient).
Abbreviation policy := (resolved_mempool_policy config).
Abbreviation options script := (mkSimulatorOptions script limits).
Abbreviation pool_limits := (resolve_mempool_limits config (options first)).

Context (Hlim1 : is_u32 (max_transactions pool_limits)) (Hlim2 : is_u64 (max_total_bytes pool_limits)).
Context (s1 s2 : Sim).
Context (Hrun1 : run_steps config policy tmpl first (sim_start config pool_limits) = (s1, Ok tt)).
Context (Hrun2 : run_steps config policy tmpl second s1 = (s2, Ok tt)).

(** The file that the first half writes. *)
Definition half_ledger : LedgerData :=
  mkLedgerData (sim_ledger s1) params (sorted_transactions (sim_pool s1)).
Definition half_written : list byte := enc_sealed (enc_body half_ledger).

Context (Hvalid : pool_valid (utxos_ (sim_chain s1)) policy (sim_pool s1)).
Context (ios ios1 ios2 : nat → Io) (d : Disk).
Context (Hio : io_good (ios1 1%nat) half_written) (Hread : io_read (ios2 0%nat) = true).
Context (Hsize : size_z half_written ≤ kMaxLedgerFileBytes).
Context (Hblocks : size_z (sim_ledger s1) ≤ kMaxLedgerBlocks).
Context (Hpool : pool_size (sim_pool s1) ≤ kMaxLedgerMempoolTransactions).

Lemma script_of_steps config' l : l ≠ [] → script_of config' (options l) = l.
Proof. by destruct l. Qed.

Lemma halves :
  ∃ d' sum sum1 sum2,
    run_simulator ios config (options (first ++ second)) d = (d, Ok sum) ∧
    run_simulator ios1 (set_persist true config) (options first) d = (d', Ok sum1) ∧
    run_simulator ios2 (set_restore true config) (options second) d' = (d', Ok sum2) ∧
    sum_tip_hash sum2 = sum_tip_hash sum ∧ sum_height sum2 = sum_height sum ∧
    sum_utxo_count sum2 = sum_utxo_count sum ∧ sum_genesis_hash sum2 = sum_genesis_hash sum ∧
    sum_blocks_mined sum = wrap32 (sum_blocks_mined sum1 + sum_blocks_mined sum2) ∧
    sum_txs_admitted sum = wrap32 (sum_txs_admitted sum1 + sum_txs_admitted sum2) ∧
    sum_txs_included sum = wrap32 (sum_txs_included sum1 + sum_txs_included sum2) ∧
    sum_total_fees sum = wrap64 (sum_total_fees sum1 + sum_total_fees sum2).
Proof.
  destruct (run_steps_keeps config Htyped recipient Hrecipient pool_limits [build_genesis_block config] first Htxs
    (sim_start config pool_limits)) as (bs & Hok).
  { exists [build_genesis_block config]. by apply sim_start_ok. }
  rewrite Hrun1 in Hok. cbn [fst] in Hok. destruct Hok as [Hsuf Hch Hpw Hplim Hled Hst].
  assert (params_wf params) as Hp by (by apply (consensus_params_wf config)).
  assert (half_ledger = node_ledger params bs (sim_pool s1)) as El by (unfold half_ledger, node_ledger; by rewrite Hled).
  assert (ledger_wf half_ledger) as Hl.
  { rewrite El. eapply node_ledger_wf; [done..| |done]. by rewrite Hled, length_reverse in Hblocks. }
  destruct (save_load_ledger _ (cfg_data_dir config) _ d Hl Hio Hsize) as (d' & Hsave & Hload & _).
  cbn [half_ledger l_blocks l_params l_mempool_transactions] in Hsave.
  destruct (run_steps_respects config policy tmpl second (sim_stats s1) s1
    (mkSim (sim_chain s1) (sim_pool s1) (reverse bs) zero_stats)) as [Hsh Hr].
  { split_and!; [done|done|done|]. destruct Hst as (? & ? & ? & ?). destruct (sim_stats s1).
    unfold stats_add, zero_stats. cbn in *. rewrite !Z.add_0_r, !wrap32_small, wrap64_small by done. done. }
  rewrite Hrun2 in Hsh, Hr. destruct (run_steps config policy tmpl second (mkSim _ _ _ zero_stats)) as [s2' r] eqn:E2.
  cbn [fst snd] in Hsh, Hr. subst r. destruct Hsh as (Ec & _ & _ & Est).
  exists d', (summary_from_chain (build_genesis_block config) (sim_chain s2) (sim_stats s2) false),
    (summary_from_chain (build_genesis_block config) (sim_chain s1) (sim_stats s1) false),
    (summary_from_chain (build_genesis_block config) (sim_chain s2') (sim_stats s2') true).
  split; [|split; [|split]].
  - rewrite (run_from_genesis config Htyped recipient Hrecipient ios (options (first ++ second)) d (first ++ second) s2 Hrestore);
      [by rewrite Hpersist| |].
    + apply script_of_steps. intros [? _]%app_eq_nil. done.
    + rewrite run_steps_app. by rewrite (SR_bind_eq _ _ _ _ _ Hrun1).
  - rewrite (run_from_genesis (set_persist true config) Htyped recipient Hrecipient ios1 (options first) d first s1
      Hrestore (script_of_steps _ _ Hfirst)); [|by rewrite (run_steps_config _ config)].
    change (cfg_persist (set_persist true config)) with true. cbv iota zeta.
    change (sim_build_consensus_params (set_persist true config)) with params.
    change (cfg_data_dir (set_persist true config)) with (cfg_data_dir config). by rewrite Hsave.
  - apply (run_from_ledger (set_restore true config) Htyped recipient Hrecipient ios2 (options second) d' second bs
      (sim_chain s1) (sim_pool s1) s2'); try done; [by apply script_of_steps| |by rewrite (run_steps_config _ config)].
    rewrite El in Hload. by eapply load_ledger_io.
  - cbn [summary_from_chain sum_tip_hash sum_height sum_utxo_count sum_genesis_hash sum_blocks_mined
      sum_txs_admitted sum_txs_included sum_total_fees]. rewrite Ec, Est. by split_and!.
Qed.
End Halves.
