(* ===== verification/Twins.v ===== *)
(** * The simulator and the node do the same

    [simulator.cpp] and [peer_state.cpp] implement mining, admission and their settings
    twice.  [mirrors] relates the variables of a run of the simulator to a node; a script,
    carried out with the operations of the node, keeps it, on errors too. *)

From S2P Require Import Prelude Errors Sha256 ByteIO Transaction Block Utxo TxValidation BlockValidation Mempool Chain BlockBuilder ChainStore P2pMessage P2pPayloads Effects Text Config PeerState PeerInv NodeStart Simulator.

(** The node has the chain, the pool and the blocks of the run. *)
Definition mirrors (s : Sim) (n : Node) : Prop :=
  chain_ n.1 = sim_chain s ∧ mempool_ n.1 = sim_pool s ∧
  ∃ bs, peer_ok bs n.1 ∧ sim_ledger s = reverse bs.

(** A script as operations of the node. *)
Fixpoint accept_all (txs : list Transaction) : SR Node unit :=
  match txs with
  | [] => mret tt
  | tx :: txs => _ ← accept_transaction tx; accept_all txs
  end.

Fixpoint carry_out (script : list SimulatorStep) : SR Node unit :=
  match script with
  | [] => mret tt
  | step :: script =>
      _ ← accept_all (submit_txs step);
      _ ← mine_loop (Z.to_nat (step_mine_blocks step));
      carry_out script
  end.

(** Two methods that give the same result from states that mirror each other, in states
    that do, of a node with the settings of the run. *)
Definition agree {A} (settings : PeerState → Prop) (m : SR Sim A) (m' : SR Node A) : Prop :=
  ∀ s n, settings n.1 → mirrors s n →
    (m s).2 = (m' n).2 ∧ settings (m' n).1.1 ∧ mirrors (m s).1 (m' n).1 ∧ (m' n).1.2 = n.2.

Lemma agree_bind {A B} P (m : SR Sim A) (m' : SR Node A) (f : A → SR Sim B) (f' : A → SR Node B) :
  agree P m m' → (∀ a, agree P (f a) (f' a)) → agree P (m ≫= f) (m' ≫= f').
Proof.
  intros Hm Hf s n Hn Hs. destruct (Hm s n Hn Hs) as (H1 & H2 & H3 & H4). unfold mbind, SR_bind.
  destruct (m s) as [s1 r1], (m' n) as [n1 r2]. cbn [fst snd] in *. subst r1.
  destruct r2 as [a|e]; [|done]. destruct (Hf a s1 n1 H2 H3) as (? & ? & ? & ?). split_and!; [done..|congruence].
Qed.

Lemma agree_ret {A} P (a : A) : agree P (mret a) (mret a).
Proof. by intros s n Hn Hs. Qed.

Section Agree.
Context (config : NodeConfig).

(** The settings of the run are those of the node. *)
Definition settings_of (tmpl : BlockTemplateParams) (policy : MempoolPolicy) (s : PeerState) : Prop :=
  genesis_timestamp_ s = cfg_genesis_timestamp config ∧ tmpl_params_ s = tmpl ∧ mempool_policy_ s = policy ∧
  persist_ s = cfg_persist config.

Context (tmpl : BlockTemplateParams) (policy : MempoolPolicy).
Abbreviation settings := (settings_of tmpl policy).

Lemma settings_of_same s s' : settings s → same_settings s s' → settings s'.
Proof. intros (H1 & H2 & H3 & H4) (E1 & _ & E2 & _ & E3 & _ & E4 & _). split_and!; congruence. Qed.

(** The loop body of [admit_transactions] and [accept_transaction]. *)
Lemma admit_agree txs : Forall tx_typed txs → agree settings (admit_transactions policy txs) (accept_all txs).
Proof.
  induction 1 as [|tx txs Htx _ IH]; intros s [p w] Hn Hs; [by apply agree_ret|].
  destruct Hs as (Hc & Hp & bs & Hok & Hl). cbn [fst] in *. pose proof Hn as (_ & _ & Epol & _).
  destruct (accept_transaction tx (p, w)) as [[p1 w1] r] eqn:E. pose proof E as E'.
  apply (accept_keeps Hok) in E' as (Hw & Hset & Hok1 & Hc1 & _ & Hacc); [|done]. cbn [fst snd] in *. subst w1.
  rewrite Hc, Hp, Epol in Hacc.
  assert (settings p1) as Hn1 by (by eapply settings_of_same).
  cbn [admit_transactions accept_all]. rewrite Hacc. destruct r as [[]|e].
  - rewrite (SR_bind_eq _ _ _ _ _ E). apply (IH _ (p1, w)); [done|].
    split_and!; cbn; [congruence|done|by exists bs].
  - rewrite (SR_bind_err _ _ _ _ _ E). split_and!; [done|done| |done].
    split_and!; cbn; [congruence|done|by exists bs].
Qed.

(** The loop bodies of [mine_n_blocks] and [PeerState::mine_blocks]. *)
Lemma mine_agree count : agree settings (mine_n_blocks config tmpl count) (mine_loop count).
Proof.
  induction count as [|count IH]; intros s [p w] Hn Hs; [by apply agree_ret|].
  destruct Hs as (Hc & Hp & bs & Hok & Hl). cbn [fst] in *. pose proof Hn as (Egen & Etmpl & _).
  destruct (mine_one (p, w)) as [[p1 w1] r] eqn:E. pose proof E as Em. unfold mine_one in Em.
  rewrite Egen, Etmpl in Em. unfold peer_height in Em. change block_timestamp with sim_block_timestamp in Em.
  rewrite Hc, Hp in Em. cbn [mine_n_blocks mine_loop].
  set (ts := sim_block_timestamp _ _) in *.
  destruct (build_block_template (tip_ (sim_chain s)) ts (sim_pool s) (utxos_ (sim_chain s)) tmpl) as [t|e] eqn:Et.
  2: { injection Em as <- <- <-. rewrite (SR_bind_err _ _ _ _ _ E). split_and!; [done|done| |done].
       split_and!; [done|done|by exists bs]. }
  assert (block_typed (bt_block t)) as Hty.
  { eapply (mine_one_typed p bs); [done|]. unfold peer_height. rewrite Egen, Etmpl, Hc, Hp. exact Et. }
  pose proof Em as Ek. apply (connect_block_keeps Hok) in Ek as (Hw & Hset & Hr); [|done]. cbn [fst snd] in *. subst w1.
  assert (settings p1) as Hn1 by (by eapply settings_of_same).
  unfold peer_connect_block in Em. rewrite Hc, Hp in Em.
  destruct (submit_block (bt_block t) (Some (sim_pool s)) (sim_chain s)) as [[chain pool] [fees|e]] eqn:Esub.
  - injection Em as Ep <-. destruct Hr as (Hok1 & _). rewrite (SR_bind_eq _ _ _ _ _ E).
    apply (IH _ (p1, w)); [done|]. split_and!; cbn [fst sim_chain sim_pool sim_ledger]; [by rewrite <- Ep|by rewrite <- Ep|].
    exists (bt_block t :: bs). split; [done|]. by rewrite reverse_cons, Hl.
  - injection Em as Ep <-. rewrite (SR_bind_err _ _ _ _ _ E). split_and!; [done|done| |done].
    split_and!; cbn [fst sim_chain sim_pool sim_ledger]; [by rewrite <- Ep|by rewrite <- Ep|]. exists bs. by rewrite Hr.
Qed.

(** A script, and the same script carried out by the node. *)
Lemma script_agree script : script_typed script → agree settings (run_steps config policy tmpl script) (carry_out script).
Proof.
  induction 1 as [|step script Hst _ IH]; cbn [run_steps carry_out]; [apply agree_ret|].
  apply agree_bind; [by apply admit_agree|intros _]. apply agree_bind; [apply mine_agree|by intros _].
Qed.
End Agree.

(** *** From a configuration *)

(** A node started from a configuration that goes on with a script. *)
Definition node_run (ios : nat → Io) (config : NodeConfig) (script : list SimulatorStep) (w : World)
    : World * Result PeerState :=
  match from_config ios config w with
  | (w, Err e) => (w, Err e)
  | (w, Ok p) =>
      match carry_out script (p, w) with
      | ((_, w), Err e) => (w, Err e)
      | ((p, w), Ok _) => (w, Ok p)
      end
  end.

(** The blocks that both programs mine at the start. *)
Definition mining_step (config : NodeConfig) : SimulatorStep := mkSimulatorStep [] (cfg_mine_blocks config).

(** What the simulator reports about a node. *)
Definition reports (config : NodeConfig) (p : PeerState) (summary : SimulatorSummary) : Prop :=
  sum_genesis_hash summary = header_hash (header (build_genesis_block config)) ∧
  sum_tip_hash summary = peer_tip_hash p ∧ sum_height summary = peer_height p ∧
  sum_utxo_count summary = Z.of_nat (size (utxos_ (chain_ p))) ∧ sum_restored_from_disk summary = false.

(** The same outcome: the same error, or a summary of the node. *)
Definition same_outcome (config : NodeConfig) (r : Result PeerState) (r' : Result SimulatorSummary) : Prop :=
  match r, r' with
  | Ok p, Ok summary => reports config p summary
  | Err e, Err e' => e = e'
  | _, _ => False
  end.

Section Started.
Context (config : NodeConfig) (Htyped : config_typed config) (Hrestore : cfg_restore config = false).
Context (Hpersist : cfg_persist config = false).

Lemma started_mirrors r limits w : resolve_coinbase_recipient config = Ok r → limits = resolved_mempool_limits config →
  mirrors (sim_start config limits) (fresh_state config r, w).
Proof.
  intros Hr ->. split_and!; [done|done|]. exists [build_genesis_block config]. split; [by apply fresh_state_ok|done].
Qed.

Lemma started_settings r : settings_of config (sim_build_template_params config (sim_build_consensus_params config) r)
  (resolved_mempool_policy config) (fresh_state config r).
Proof. by split_and!. Qed.

(** Without a ledger, [node_run] is its script from the fresh state. *)
Lemma node_run_started ios r script w : resolve_coinbase_recipient config = Ok r →
  node_run ios config script w =
  match carry_out (mining_step config :: script) (fresh_state config r, w) with
  | ((_, w), Err e) => (w, Err e)
  | ((p, w), Ok _) => (w, Ok p)
  end.
Proof.
  intros Hr. unfold node_run, from_config. rewrite Hr, Hrestore, (genesis_created config Htyped), Hpersist.
  fold (fresh_state config r). unfold mine_blocks. cbn [carry_out mining_step submit_txs accept_all step_mine_blocks].
  pose proof (mine_agree config _ _ (Z.to_nat (cfg_mine_blocks config)) _ (fresh_state config r, w) (started_settings r)
    (started_mirrors r _ w Hr eq_refl)) as (_ & (_ & _ & _ & Hp) & _).
  unfold mbind, SR_bind. cbn [mret SR_ret].
  destruct (mine_loop (Z.to_nat (cfg_mine_blocks config)) (fresh_state config r, w)) as [[p1 w1] [[]|e]] eqn:E; [|done].
  cbn [fst] in Hp. unfold persist_ledger. cbn [fst]. rewrite Hp, Hpersist. done.
Qed.

(** The simulator and the node end alike, touching nothing. *)
Lemma twin_runs ios ios' options script d w : script_typed script →
  script_of config options = mining_step config :: script →
  resolve_mempool_limits config options = resolved_mempool_limits config →
  (node_run ios config script w).1 = w ∧ (run_simulator ios' config options d).1 = d ∧
  same_outcome config (node_run ios config script w).2 (run_simulator ios' config options d).2.
Proof.
  intros Hty Hs Hl. destruct (resolve_coinbase_recipient config) as [r|e] eqn:Er.
  2: { unfold node_run, from_config, run_simulator. change sim_resolve_coinbase_recipient with resolve_coinbase_recipient.
       by rewrite Er. }
  rewrite (node_run_started _ r _ _ Er), (run_started config Htyped r Er ios' options d _ Hrestore Hs), Hl, Hpersist.
  assert (script_typed (mining_step config :: script)) as Hty' by (constructor; [constructor|exact Hty]).
  pose proof (script_agree config _ _ _ Hty' _ (fresh_state config r, w)
    (started_settings r) (started_mirrors r _ w Er eq_refl))
    as (Eres & _ & (Hc & _) & Hw).
  destruct (carry_out _ _) as [[p w'] r1], (run_steps _ _ _ _ _) as [s r2]. cbn [fst snd] in *. subst r2 w'.
  destruct r1 as [[]|e]; [|done]. split_and!; [done..|]. cbn [same_outcome snd]. unfold reports, peer_tip_hash, peer_height.
  by rewrite Hc.
Qed.
End Started.
