(* ===== verification/NodeSamples.v ===== *)
(** * Sample nodes

    Nodes whose blocks have no transactions, so that chains of any length are at hand
    without the evaluation of a digest, and configurations for a node that mines. *)

From S2P Require Import Prelude Errors Sha256 ByteIO Transaction Block Utxo TxValidation BlockValidation Samples Mempool Chain BlockBuilder ChainStore ChainTheorems P2pMessage P2pPayloads Effects Text Config PeerState PeerInv RelaySync NodeStart.

Fixpoint quiet (n : nat) : Block :=
  match n with
  | O => sample_block zero_hash 1000 0 []
  | S n => sample_block (header_hash (header (quiet n))) (1000 + Z.of_nat (S n)) (Z.of_nat (S n)) []
  end.

Fixpoint quiet_blocks (n : nat) : list Block :=
  match n with O => [quiet 0] | S n => quiet (S n) :: quiet_blocks n end.

Definition quiet_chain (n : nat) : Chain := mkChain (header (quiet n)) ∅ sample_params.

Fixpoint quiet_catalog (n : nat) : gmap Z Block :=
  match n with
  | O => <[0 := quiet 0]> ∅
  | S n => <[Z.of_nat (S n) := quiet (S n)]> (quiet_catalog n)
  end.

Definition quiet_config : NodeConfig := default_config.

Definition quiet_peer (n : nat) : PeerState :=
  mkPeerState (quiet_chain n) (new_mempool (resolved_mempool_limits quiet_config))
    (resolved_mempool_policy quiet_config) "node" 1000 sample_params
    (build_template_params quiet_config sample_params zero_hash) "data" false 0 (quiet_catalog n).

(** ** They are reachable *)

Lemma quiet_typed n : Z.of_nat n ≤ UINT32_MAX → block_typed (quiet n).
Proof.
  intros Hn. destruct n as [|n]; cbn [quiet].
  - by apply sample_block_typed.
  - apply sample_block_typed; [apply sha256d_wf|solve_u|solve_u|done].
Qed.

(** A block without transactions changes no coins. *)
Lemma empty_block_applies prev ts h params u :
  block_typed (sample_block prev ts h []) → block_applies (sample_block prev ts h []) params u u 0.
Proof.
  intros Hty. split_and!; [|done|exists u; split; [constructor|done]].
  apply sample_block_sane; try done. constructor.
Qed.

Lemma quiet_chain_of n : Z.of_nat n ≤ UINT32_MAX → chain_of sample_params (quiet_blocks n) (quiet_chain n).
Proof.
  induction n as [|n IH]; intros Hn.
  - constructor; [by apply (quiet_typed 0)|]. apply create_Ok; [by apply (quiet_typed 0)|apply sample_params_wf|].
    split; [by split|]. exists ∅, 0. split; [|done]. by apply empty_block_applies, (quiet_typed 0).
  - cbn [quiet_blocks]. eapply (chain_step _ _ (quiet_chain n) _ None _ None 0); [apply IH; lia|by apply quiet_typed|].
    destruct (chain_of_wf _ sample_params_wf _ _ (IH ltac:(lia))) as [Hwf _].
    apply submit_block_Ok; [done|by apply quiet_typed|]. split; [|split; [done|]].
    + split; cbn [quiet sample_block header hversion prev_block height timestamp quiet_chain tip_]; try done.
      * destruct n as [|n]; cbn [quiet sample_block header height]; lia.
      * destruct n as [|n]; cbn [quiet sample_block header timestamp]; lia.
    + exists ∅. split; [|done]. by apply empty_block_applies, (quiet_typed (S n)).
Qed.

Lemma length_quiet_blocks n : length (quiet_blocks n) = S n.
Proof. induction n as [|n IH]; [done|]. cbn [quiet_blocks length]. by rewrite IH. Qed.

Lemma quiet_catalog_ok n : indexes (reverse (quiet_blocks n)) (quiet_catalog n).
Proof.
  induction n as [|n IH]; [apply (indexes_snoc []), indexes_empty|].
  cbn [quiet_blocks quiet_catalog]. rewrite reverse_cons, <- (length_quiet_blocks n), <- length_reverse.
  by apply indexes_snoc.
Qed.

Lemma quiet_peer_ok n : Z.of_nat n ≤ UINT32_MAX → peer_ok (quiet_blocks n) (quiet_peer n).
Proof.
  intros Hn. split.
  - by split.
  - apply sample_params_wf.
  - by apply quiet_chain_of.
  - by apply new_mempool_wf.
  - apply quiet_catalog_ok.
Qed.

Lemma quiet_fits n : Z.of_nat n ≤ UINT32_MAX → Forall block_fits (quiet_blocks n).
Proof.
  assert (∀ n, Z.of_nat n ≤ UINT32_MAX → block_fits (quiet n)) as H.
  { intros k Hk. destruct (quiet_typed k Hk) as [Hh _]. unfold block_fits. rewrite block_size by done.
    change kMaxP2pPayloadBytes with 1048576. destruct k as [|k]; cbn; lia. }
  induction n as [|n IH]; intros Hn; cbn [quiet_blocks].
  - by apply Forall_singleton, H.
  - constructor; [by apply H|apply IH; lia].
Qed.

Lemma quiet_height n : peer_height (quiet_peer n) = Z.of_nat n.
Proof. by destruct n. Qed.

Lemma quiet_id n : node_id_ok (quiet_peer n).
Proof. split; [done|vm_decide]. Qed.

(** The newer blocks of a longer chain. *)
Lemma quiet_more n k : ∃ l, quiet_blocks (k + n) = reverse l ++ quiet_blocks n ∧ length l = k.
Proof.
  induction k as [|k (l & E & Hl)]; [by exists []|]. exists (l ++ [quiet (S (k + n))]).
  rewrite length_app, reverse_app. cbn [Nat.add quiet_blocks]. rewrite E. split; [done|cbn; lia].
Qed.

(** What a receive reports when the peer has gone. *)
Definition sample_eof : Error := mkError kPeerMisbehavior "socket recv failed (errno=0)".
Definition sample_ios (_ : nat) : Io := mkIo true true true 100000 true rd_whole.
Definition sample_world : World := mkWorld ∅ 0.

(** ** A node on another chain, and one with a coin to spend *)

Definition sample_state (chain : Chain) (after : Z) (catalog : gmap Z Block) : PeerState :=
  mkPeerState chain (new_mempool (resolved_mempool_limits quiet_config))
    (resolved_mempool_policy quiet_config) "node" 1000 sample_params
    (build_template_params quiet_config sample_params zero_hash) "data" false after catalog.

Lemma sample_state_ok b chain after :
  chain_of sample_params [b] chain → peer_ok [b] (sample_state chain after (<[0 := b]> ∅)).
Proof.
  intros Hch. destruct (chain_of_wf _ sample_params_wf _ _ Hch) as [_ Ep].
  split; cbn [sample_state chain_ mempool_ catalog_]; rewrite ?Ep.
  - by split.
  - apply sample_params_wf.
  - done.
  - by apply new_mempool_wf.
  - apply (indexes_snoc []), indexes_empty.
Qed.

Lemma sample_state_id chain after catalog : node_id_ok (sample_state chain after catalog).
Proof. exact (quiet_id 0). Qed.

(** A later genesis block. *)
Definition other_genesis : Block := sample_block zero_hash 2000 0 [].
Definition other_peer : PeerState := sample_state (mkChain (header other_genesis) ∅ sample_params) 0 (<[0 := other_genesis]> ∅).

Lemma other_peer_ok : peer_ok [other_genesis] other_peer.
Proof.
  assert (block_typed other_genesis) as Hty by (by apply sample_block_typed).
  apply sample_state_ok. constructor; [done|]. apply create_Ok; [done|apply sample_params_wf|].
  split; [by split|]. exists ∅, 0. split; [|done]. by apply empty_block_applies.
Qed.

Lemma geneses_differ : header_hash (header (quiet 0)) ≠ header_hash (header other_genesis).
Proof. apply (bool_decide_eq_false_1 _). vm_eq. Qed.

(** Mines a block after each transaction, on the chain of [sample_genesis]. *)
Definition coin_peer : PeerState := sample_state sample_chain0 1 (<[0 := sample_genesis]> ∅).

Lemma coin_peer_ok : peer_ok [sample_genesis] coin_peer.
Proof. apply sample_state_ok, sample_chain_of0. Qed.

Lemma genesis_fits : block_fits sample_genesis.
Proof.
  unfold block_fits. rewrite block_size by apply sample_genesis_typed. vm_decide.
Qed.

(** Moves the coin of the genesis block with a fee of 1000. *)
Definition coin_spend : Transaction :=
  mkTransaction kTransactionVersion [mkTxInput (mkOutPoint (txid sample_cb0) 0)]
    [mkTxOutput (kDefaultBlockSubsidy - 1000) sample_bob] 0.

Definition coin_op : OutPoint := mkOutPoint (txid sample_cb0) 0.
Definition coin_entry : Entry := mkEntry coin_spend (txid coin_spend) 1000 92.
Definition coin_pool : Mempool := insert_entry coin_entry (mempool_ coin_peer).

Lemma coin_spend_typed : tx_typed coin_spend.
Proof.
  split_and!; [done| |by repeat constructor|done]. apply Forall_singleton. split; [apply sha256d_wf|done].
Qed.

Lemma coin_spend_size : tx_size coin_spend = 92.
Proof. unfold tx_size. by rewrite tx_to_bytes_enc, length_enc_tx by apply coin_spend_typed. Qed.

Lemma coin_spend_sane : tx_sane coin_spend.
Proof.
  split; [done|done|done|done| | |done|].
  - intros _. by apply Forall_singleton.
  - apply NoDup_singleton.
  - change (tx_size coin_spend ≤ kMaxTransactionSizeBytes). by rewrite coin_spend_size.
Qed.

Lemma coin_there : sample_utxos0 !! coin_op = Some (mkCoin (mkTxOutput kDefaultBlockSubsidy sample_alice) 0 true).
Proof.
  unfold sample_utxos0. rewrite (right_id_L ∅ (∪)). unfold tx_coins, coin_op. generalize (txid sample_cb0) as id. intros id.
  change (outputs sample_cb0) with [mkTxOutput kDefaultBlockSubsidy sample_alice].
  rewrite tx_coins_from_cons. cbn [list_to_map foldr fst snd]. apply lookup_insert_eq.
Qed.

Lemma coin_spend_fresh : txid coin_spend ≠ txid sample_cb0.
Proof. apply (bool_decide_eq_false_1 _). vm_eq. Qed.

Lemma coin_spend_applies : ∃ utxos, tx_applies 1 sample_params coin_spend sample_utxos0 utxos 1000.
Proof.
  eexists. split; [| | |reflexivity].
  - exists [mkCoin (mkTxOutput kDefaultBlockSubsidy sample_alice) 0 true]. split_and!; [|done..].
    unfold spent_coins. cbn [mapM inputs coin_spend prevout]. change (mkOutPoint (txid sample_cb0) 0) with coin_op.
    by rewrite coin_there.
  - apply Forall_singleton. cbn [prevout]. intros c. change (mkOutPoint (txid sample_cb0) 0) with coin_op.
    rewrite coin_there. by intros [= <-].
  - apply map_disjoint_spec. intros o c1 c2 H1 H2. apply tx_coins_lookup in H1 as (E1 & _).
    apply (lookup_weaken _ sample_utxos0) in H2; [|apply without_subseteq]. unfold sample_utxos0 in H2.
    rewrite (right_id_L ∅ (∪)) in H2. apply tx_coins_lookup in H2 as (E2 & _).
    exact (coin_spend_fresh (eq_trans (eq_sym E1) E2)).
Qed.

(** Its pool accepts the transaction. *)
Lemma coin_accepted :
  accept coin_spend sample_utxos0 (mempool_policy_ coin_peer) (mempool_ coin_peer) = (coin_pool, Ok tt).
Proof.
  destruct coin_spend_applies as [u Hap]. unfold accept.
  assert (validate_for_mempool coin_spend sample_utxos0 (mempool_policy_ coin_peer) = Ok (mkMempoolAdmission 1000 92)) as ->.
  { apply validate_for_mempool_Ok; [apply coin_spend_typed|apply sample_chain0_wf|done|].
    split_and!; [apply coin_spend_sane|done|symmetry; apply coin_spend_size| |vm_decide].
    apply check_transaction_inputs_Ok; [apply sample_chain0_wf|apply coin_spend_typed|apply coin_spend_sane|].
    apply (ta_coins _ _ _ _ _ _ Hap). }
  apply insertable_accepts.
  - by apply new_mempool_wf.
  - split; [reflexivity|symmetry; apply coin_spend_size|done|apply coin_spend_typed|apply coin_spend_sane|reflexivity].
  - split; [apply lookup_empty|intros; apply lookup_empty|vm_decide|vm_decide].
Qed.

(** The coinbase of the next block with the fee in it. *)
Definition coin_reward : Transaction := make_coinbase 1 (kDefaultBlockSubsidy + 1000) zero_hash.

Lemma coin_reward_fresh : coinbase_fresh coin_reward coin_pool sample_utxos0.
Proof.
  assert (txid coin_reward ≠ txid coin_spend) as H1 by (apply (bool_decide_eq_false_1 _); vm_eq).
  assert (txid sample_cb0 ≠ txid coin_reward) as H2 by (apply (bool_decide_eq_false_1 _); vm_eq).
  split.
  - unfold coin_pool. rewrite insert_entry_by_txid.
    + rewrite lookup_insert_ne; [apply lookup_empty|]. exact (λ E, H1 (eq_sym E)).
    + split; [apply lookup_empty|intros; apply lookup_empty|vm_decide|vm_decide].
  - intros o c Ho. unfold sample_utxos0 in Ho. rewrite (right_id_L ∅ (∪)) in Ho. apply tx_coins_lookup in Ho as (-> & _). exact H2.
Qed.
