(* ===== verification/Shipped.v ===== *)
(** * The configurations that come with the program ([configs/])

    The texts of the three files, and what they mean.  In the texts below a single quote
    stands for a double one. *)

From S2P Require Import Prelude Errors Sha256 ChainStore Text Config ConfigJson.
From Stdlib Require Import Strings.Ascii.

Definition with_quotes (text : string) : string :=
  of_chars ((λ c, if bool_decide (c = "'"%char) then json_quote else c) <$> chars text).

(** [relay_seed.example.json] *)
Definition seed_text : string := with_quotes
"{
  '_comment': 'Relay seed node: bind ephemeral port, mine blocks, serve one peer. Use with local_network.sh.',
  'node_id': 'seed',
  'data_dir': './data/seed',
  'log_level': 'info',
  'genesis_timestamp': 1700000100,
  'block_subsidy': 5000,
  'coinbase_maturity': 1,
  'coinbase_recipient_hex': 'a100000000000000000000000000000000000000000000000000000000000000',
  'network_mode': 'relay',
  'mine_blocks': 2,
  'relay_max_sessions': 2,
  'listen_host': '127.0.0.1',
  'listen_port': 0,
  'persist': false,
  'restore': false
}
".

(** [relay_client.example.json] *)
Definition client_text : string := with_quotes
"{
  '_comment': 'Relay client: connect to seed via --peer (set at runtime). Persists synced chain locally.',
  'node_id': 'client',
  'data_dir': './data/client',
  'log_level': 'info',
  'genesis_timestamp': 1700000100,
  'block_subsidy': 5000,
  'coinbase_maturity': 1,
  'coinbase_recipient_hex': 'a100000000000000000000000000000000000000000000000000000000000000',
  'network_mode': 'relay',
  'mine_blocks': 0,
  'persist': true,
  'restore': false,
  'peer': ''
}
".

(** [simulator.example.json] *)
Definition simulator_text : string := with_quotes
"{
  '_comment': 'Stage-1 simulator example. Run: blockchain_node --config configs/simulator.example.json',
  'node_id': 'sim-node-0',
  'data_dir': './data/sim-node-0',
  'log_level': 'info',
  'genesis_timestamp': 1700000000,
  'max_block_size_bytes': 0,
  'mine_blocks': 3,
  'block_subsidy': 5000,
  'coinbase_maturity': 1,
  'coinbase_recipient_hex': 'a100000000000000000000000000000000000000000000000000000000000000',
  'mempool_max_transactions': 1000,
  'mempool_max_bytes': 1048576,
  'min_relay_feerate': 0,
  'network_mode': 'ping',
  'persist': false,
  'restore': false,
  'listen_host': '127.0.0.1',
  'listen_port': 0,
  'peer': ''
}
".

Definition shipped_recipient : string := "a100000000000000000000000000000000000000000000000000000000000000".

(** What the files of the seed and of the client share. *)
Definition shipped_common (node_id data_dir : string) : NodeConfig :=
  set_network_mode nmRelay (set_coinbase_recipient_hex shipped_recipient (set_coinbase_maturity 1
    (set_block_subsidy 5000 (set_genesis_timestamp 1700000100 (set_data_dir data_dir (set_node_id node_id default_config)))))).

Definition seed_config : NodeConfig :=
  set_listen_enabled true (set_relay_max_sessions 2 (set_mine_blocks 2 (shipped_common "seed" "./data/seed"))).

Definition client_config : NodeConfig := set_persist true (shipped_common "client" "./data/client").

Definition simulator_config : NodeConfig :=
  set_listen_enabled true (set_mempool_max_bytes 1048576 (set_mempool_max_transactions 1000
    (set_coinbase_recipient_hex shipped_recipient (set_coinbase_maturity 1 (set_block_subsidy 5000
      (set_mine_blocks 3 (set_genesis_timestamp 1700000000 (set_data_dir "./data/sim-node-0"
        (set_node_id "sim-node-0" default_config))))))))).

Lemma seed_parses : parse_config_json seed_text = Ok seed_config.
Proof. vm_compute. reflexivity. Qed.

Lemma client_parses : parse_config_json client_text = Ok client_config.
Proof. vm_compute. reflexivity. Qed.

Lemma simulator_parses : parse_config_json simulator_text = Ok simulator_config.
Proof. vm_compute. reflexivity. Qed.
