(* ===== verification/NodeTheorems.v ===== *)
(** * Properties of the node: sessions, starting and restarting, scripted runs *)

From S2P Require Import Prelude Errors Sha256 ByteIO Transaction Block Utxo TxValidation BlockValidation Samples Mempool Chain BlockBuilder ChainStore P2pMessage P2pPayloads Effects Text SocketIO Handles Peers Config PeerState PeerInv Network RelaySync NodeStart Scenario Simulator NodeSamples.
From Stdlib Require Import Strings.Byte.

(** ** Synchronisation *)

(** C4: a relay client whose chain is a prefix of the server's, by at most 63 blocks, ends
    on the server's chain.  However the two programs' steps interleave, there are at most
    four per block and five more, no order of them gets stuck, and all end in the same
    state: the client has connected every block, holds the server's chain and reports its
    height and tip; the server's state is what saving its ledger leaves. *)
Theorem relay_sync (iosc ioss : nat → Io) (eof : Error) (config : NodeConfig)
    (bs bsc l : list Block) (ss sc : PeerState) (ws wc : World) :
  peer_disconnected eof = true → peer_ok bs ss → peer_ok bsc sc → node_id_ok ss → node_id_ok sc →
  Forall block_fits bs → params_ (chain_ sc) = params_ (chain_ ss) →
  persist_ sc = false → cfg_persist config = false → peer_height ss < UINT32_MAX →
  bs = reverse l ++ bsc → (length l < 64)%nat →
  ∃ sc', peer_ok bs sc' ∧ chain_ sc' = chain_ ss ∧ same_settings sc sc' ∧
    let final := mkNet (CRet ((sc', wc), Ok (mkRelayClientResult (peer_height ss) (peer_tip_hash ss))))
                       (CRet (served ioss (ss, ws))) [] [] in
    at_rest (net_step eof) final ∧
    ∀ k net, nsteps (net_step eof) k (start_net (ss := ss) iosc ioss ws (sc := sc) wc config) net →
      (k ≤ 4 * length l + 5)%nat ∧ nsteps (net_step eof) (4 * length l + 5 - k) net final.
Proof.
  intros He Hss Hsc His Hic Hf Hp Hps Hcp Hh El Hl.
  destruct (session_run iosc ioss eof He Hss ws Hsc wc config His Hic Hf Hp Hps Hh l El Hl) as (sc' & Hok & Hset & _ & Hrun).
  rewrite synced_plain in Hrun by done. cbn [fst] in Hrun.
  destruct (follower_chain Hss Hp _ Hok Hset) as (Hc & Ehc & Etc). rewrite Ehc, Etc in Hrun. exists sc'. split_and!; [done|by eapply follower_chain|done|]. split; [apply ended_rest|].
  apply (commuting_runs _ (net_diamond eof)); [exact Hrun|apply ended_rest].
Qed.

Lemma relay_sync_witness :
  ∃ sc', chain_ sc' = chain_ (quiet_peer 2) ∧ ∃ n,
    nsteps (net_step sample_eof) n
      (start_net (ss := quiet_peer 2) sample_ios sample_ios sample_world (sc := quiet_peer 0) sample_world quiet_config)
      (mkNet (CRet ((sc', sample_world), Ok (mkRelayClientResult 2 (peer_tip_hash (quiet_peer 2)))))
             (CRet (served sample_ios (quiet_peer 2, sample_world))) [] []).
Proof.
  destruct (quiet_more 0 2) as (l & E & Hl).
  destruct (relay_sync sample_ios sample_ios sample_eof quiet_config (quiet_blocks 2) (quiet_blocks 0) l
    (quiet_peer 2) (quiet_peer 0) sample_world sample_world) as (sc' & _ & Hc & _ & _ & H);
    [reflexivity|by apply quiet_peer_ok|by apply quiet_peer_ok|apply quiet_id|apply quiet_id|by apply quiet_fits|
     reflexivity|reflexivity|reflexivity|by vm_compute|exact E|rewrite Hl; lia|].
  exists sc'. split; [exact Hc|]. destruct (H 0%nat _ (nsteps_O _ _)) as [_ Hn]. eexists. exact Hn.
Defined.

(** C34: a client more than 64 blocks behind never gets there.  The server handles 64
    messages and gives up with [kResourceLimitExceeded]; in every interleaving the client
    has then connected exactly 64 blocks and fails on the closed connection. *)
Theorem relay_sync_limit (iosc ioss : nat → Io) (eof : Error) (config : NodeConfig)
    (bs bsc l l' : list Block) (ss sc : PeerState) (ws wc : World) :
  peer_disconnected eof = true → peer_ok bs ss → peer_ok bsc sc → node_id_ok ss → node_id_ok sc →
  Forall block_fits bs → params_ (chain_ sc) = params_ (chain_ ss) →
  persist_ sc = false → cfg_persist config = false → peer_height ss < UINT32_MAX →
  bs = reverse l' ++ reverse l ++ bsc → length l = 64%nat → l' ≠ [] →
  ∃ sc' req, peer_ok (reverse l ++ bsc) sc' ∧ peer_height sc' = peer_height sc + 64 ∧
    let final := mkNet (CRet ((sc', wc), Err eof))
                       (CRet ((ss, ws), make_error kResourceLimitExceeded "relay message loop limit exceeded"))
                       [req] [] in
    at_rest (net_step eof) final ∧
    ∀ k net, nsteps (net_step eof) k (start_net (ss := ss) iosc ioss ws (sc := sc) wc config) net →
      (k ≤ 262)%nat ∧ nsteps (net_step eof) (262 - k) net final.
Proof.
  intros He Hss Hsc His Hic Hf Hp Hps Hcp Hh El Hl Hne.
  destruct (session_limit iosc ioss eof Hss ws Hsc wc config His Hic Hf Hp Hps Hh l l' El Hl Hne) as
    (sc' & req & Hok & Hset & Hrun).
  exists sc', req. split_and!; [done| |].
  - pose proof (peer_height_size Hok) as H1. pose proof (peer_height_size Hsc) as H2.
    rewrite length_app, length_reverse, Hl in H1. lia.
  - split; [apply ended_rest|]. apply (commuting_runs _ (net_diamond eof)); [exact Hrun|apply ended_rest].
Qed.

Lemma relay_sync_limit_witness :
  ∃ sc' req n, peer_height sc' = 64 ∧
    nsteps (net_step sample_eof) n
      (start_net (ss := quiet_peer 65) sample_ios sample_ios sample_world (sc := quiet_peer 0) sample_world quiet_config)
      (mkNet (CRet ((sc', sample_world), Err sample_eof))
             (CRet ((quiet_peer 65, sample_world),
                make_error kResourceLimitExceeded "relay message loop limit exceeded")) [req] []).
Proof.
  destruct (quiet_more 0 64) as (l & E & Hl). destruct (quiet_more (64 + 0) 1) as (l' & E' & Hl').
  assert (Z.of_nat 65 ≤ UINT32_MAX) as Hu by (unfold UINT32_MAX; lia).
  destruct (relay_sync_limit sample_ios sample_ios sample_eof quiet_config (quiet_blocks 65) (quiet_blocks 0) l l'
    (quiet_peer 65) (quiet_peer 0) sample_world sample_world) as (sc' & req & _ & Hh & _ & H);
    [reflexivity|exact (quiet_peer_ok 65 Hu)|by apply quiet_peer_ok|apply quiet_id|apply quiet_id|
     exact (quiet_fits 65 Hu)|reflexivity|reflexivity|reflexivity|rewrite quiet_height; unfold UINT32_MAX; lia
     |rewrite <- E; exact E'|exact Hl|intros ->; discriminate Hl'|].
  exists sc', req. destruct (H 0%nat _ (nsteps_O _ _)) as [_ Hn]. eexists. split; [exact Hh|exact Hn].
Defined.

(** C5: whatever the network does to it, a running node only grows.  However it was started,
    from a genesis block or from a ledger, its chain is a validated execution and its catalog
    holds exactly the blocks of it; every message, every session it serves or opens, and
    every sequence of clients keeps this for every answer of the peers and the disk, on
    every error path, and leaves the blocks it had at the bottom of the chain. *)
Theorem node_keeps_chain (ios : nat → Io) (config : NodeConfig) (w w' : World) (s : PeerState) :
  config_typed config → from_config ios config w = (w', Ok s) →
  ∃ bs, peer_ok bs s ∧
    (∀ m, conn_keeps (extends bs s) (handle_message ios m)) ∧
    conn_keeps (extends bs s) (serve_relay_connection ios) ∧
    (∀ config' options, conn_keeps (extends bs s) (relay_client_session ios config' options)) ∧
    (∀ client listener count n result,
      extends bs s (serve_sessions ios client listener count n result (s, w')).1).
Proof.
  intros Hty H. destruct (from_config_ok ios config Hty w w' s H) as [bs Hok]. exists bs. split_and!.
  - done.
  - intros m. apply conn_keeps_handle.
  - apply conn_keeps_serve.
  - intros config' options. apply conn_keeps_client.
  - intros. by apply serve_sessions_keeps, extends_refl.
Qed.

(** The default configuration, mining two blocks. *)
Definition mining_config : NodeConfig := set_mine_blocks 2 default_config.

(** Two mined blocks have two coinbases to compare. *)
Lemma two_strings_differ config r :
  sha256d (tx_to_bytes (plain_coinbase config r 1)) ≠ sha256d (tx_to_bytes (plain_coinbase config r 2)) →
  collision_free (coinbase_strings config r 2).
Proof.
  intros Hne. assert (∀ x, x ∈ coinbase_strings config r 2 →
    x = tx_to_bytes (plain_coinbase config r 1) ∨ x = tx_to_bytes (plain_coinbase config r 2)) as H.
  { intros x. unfold coinbase_strings. cbn [seq fmap list_fmap].
    intros [->|Hx]%elem_of_cons; [by left|right]. by apply list_elem_of_singleton in Hx. }
  intros x y Hx%H Hy%H E. destruct Hx as [->| ->], Hy as [->| ->]; try reflexivity.
  - destruct (Hne E).
  - destruct (Hne (eq_sym E)).
Qed.

Lemma mining_strings_differ : collision_free (coinbase_strings mining_config zero_hash 2).
Proof. apply two_strings_differ. apply (bool_decide_eq_false_1 _). vm_eq. Qed.

Lemma mining_starts :
  ∃ bs s, from_config sample_ios mining_config sample_world = (sample_world, Ok s) ∧
    miner mining_config zero_hash bs s ∧ peer_height s = 2.
Proof.
  apply (fresh_node_starts mining_config ltac:(vm_decide) zero_hash eq_refl sample_ios 2 mining_strings_differ); try done; vm_decide.
Qed.

Lemma node_keeps_chain_witness :
  ∃ s bs, from_config sample_ios mining_config sample_world = (sample_world, Ok s) ∧ peer_ok bs s ∧
    conn_keeps (extends bs s) (serve_relay_connection sample_ios).
Proof.
  destruct mining_starts as (bs0 & s & H & _).
  destruct (node_keeps_chain sample_ios mining_config sample_world sample_world s) as (bs & Hok & _ & Hk & _);
    [vm_decide|exact H|]. exists s, bs. split; [exact H|split; [exact Hok|exact Hk]].
Defined.

(** ** Starting *)

(** A node that starts without a ledger comes up.  With a valid configuration,
    [from_config] creates the genesis block, mines the configured number of blocks, each
    accepted by the chain, and returns a node at that height on which every block pays the
    subsidy to the configured recipient at its own time; the disk is not touched.  The
    timestamps and the supply must not overflow, and the coinbases must not collide. *)
Theorem fresh_node_mines (ios : nat → Io) (config : NodeConfig) (recipient : Hash256) (w : World) :
  config_typed config → resolve_coinbase_recipient config = Ok recipient →
  cfg_restore config = false → cfg_persist config = false →
  cfg_genesis_timestamp config + cfg_mine_blocks config < 2 ^ 64 →
  block_subsidy (build_consensus_params config) * (cfg_mine_blocks config + 1) ≤ kMaxMoney →
  cfg_max_block_size_bytes config ≤ kMaxBlockSizeBytes →
  collision_free (coinbase_strings config recipient (Z.to_nat (cfg_mine_blocks config))) →
  ∃ bs s, from_config ios config w = (w, Ok s) ∧ peer_ok bs s ∧
    peer_height s = cfg_mine_blocks config ∧
    (∀ h b, block_at_height h s = Some b → 0 < h →
       transactions b = [make_coinbase h (block_subsidy (build_consensus_params config)) recipient] ∧
       timestamp (header b) = cfg_genesis_timestamp config + h) ∧
    mempool_ s = new_mempool (resolved_mempool_limits config).
Proof.
  intros Hty Hr Hre Hp Hts Hmo Hsz Hcf. pose proof Hty as (_ & _ & _ & Hm & _).
  assert (Z.of_nat (Z.to_nat (cfg_mine_blocks config)) = cfg_mine_blocks config) as En by (apply Z2Nat.id; solve_u).
  destruct (fresh_node_starts config Hty recipient Hr ios _ Hcf) with (w := w) as (bs & s & H & Hmi & Hh);
    rewrite ?En; try done; [solve_u|].
  rewrite En in Hh. destruct Hmi as (Hok & _ & Hmi & Hpool).
  exists bs, s. split_and!; [done|done|done| |done].
  intros h b [_ Hb]%(peer_block_at Hok) Hpos. destruct (Z.to_nat h) as [|i] eqn:Ei; [lia|].
  destruct (mi_blocks _ _ _ Hmi i b Hb) as [-> ->]. rewrite <- Ei, Z2Nat.id by lia. done.
Qed.

Lemma fresh_node_mines_witness :
  ∃ s, from_config sample_ios mining_config sample_world = (sample_world, Ok s) ∧ peer_height s = 2.
Proof.
  destruct (fresh_node_mines sample_ios mining_config zero_hash sample_world) as (bs & s & H & _ & Hh & _);
    [vm_decide|reflexivity|reflexivity|reflexivity|by vm_compute|by vm_compute|by vm_compute
    |exact mining_strings_differ|].
  exists s. split; [exact H|exact Hh].
Defined.

(** Stop and start.  A node that saves its ledger and is started again from it has the
    same chain, the same pool and the same catalog, when the pool's entries are valid, the
    system calls succeed, the file is within the limits and the configuration has the
    directory, pool limits and policy of the node. *)
Theorem node_restarts (ios : nat → Io) (config : NodeConfig) (bs : list Block) (s : PeerState) (w : World) :
  savable bs s → restarts config s → io_good (ios (w_calls w)) (written bs s) →
  io_read (ios (S (w_calls w))) = true → io_read (ios (S (S (w_calls w)))) = true →
  ∃ w1 w2 s', peer_save_ledger ios (s, w) = ((s, w1), Ok tt) ∧
    from_config ios config w1 = (w2, Ok s') ∧ same_node s s'.
Proof. intros Hs Hc Hio H1 H2. by apply (save_and_restart ios config bs s Hs Hc). Qed.

Definition restart_config : NodeConfig := set_restore true (set_data_dir "data" quiet_config).

Lemma quiet_ledger_size : size_z (written (quiet_blocks 1) (quiet_peer 1)) = 208.
Proof. vm_eq. Qed.

Lemma quiet_ledger_size2 : size_z (written (quiet_blocks 2) (quiet_peer 2)) = 296.
Proof. vm_eq. Qed.

Lemma new_pool_valid limits utxos policy : pool_valid utxos policy (new_mempool limits).
Proof. apply map_Forall_empty. Qed.

Lemma quiet_savable : savable (quiet_blocks 1) (quiet_peer 1).
Proof.
  split; [by apply quiet_peer_ok|reflexivity|apply new_pool_valid|rewrite quiet_ledger_size; by vm_compute|by vm_compute..].
Qed.

Lemma quiet_savable2 : savable (quiet_blocks 2) (quiet_peer 2).
Proof.
  split; [by apply quiet_peer_ok|reflexivity|apply new_pool_valid|rewrite quiet_ledger_size2; by vm_compute|by vm_compute..].
Qed.

Lemma quiet_restarts n : restarts restart_config (quiet_peer n).
Proof. split; [vm_decide| |reflexivity..]. apply validate_Ok. reflexivity. Qed.

Lemma node_restarts_witness :
  ∃ w1 w2 s', peer_save_ledger sample_ios (quiet_peer 1, sample_world) = ((quiet_peer 1, w1), Ok tt) ∧
    from_config sample_ios restart_config w1 = (w2, Ok s') ∧ chain_ s' = quiet_chain 1.
Proof.
  destruct (node_restarts sample_ios restart_config (quiet_blocks 1) (quiet_peer 1) sample_world) as
    (w1 & w2 & s' & H1 & H2 & H3 & _); [apply quiet_savable|apply quiet_restarts| |reflexivity|reflexivity|].
  - split; try reflexivity. apply Nat2Z.inj_le. rewrite quiet_ledger_size. by vm_compute.
  - exists w1, w2, s'. split; [exact H1|split; [exact H2|exact H3]].
Defined.

(** C10: a crash loses at most the last save.  A node whose ledger is on the disk is saving a
    later state and stops anywhere in the sequence of system calls, or some of them fail:
    started again from the disk that is left, the node comes up, and it is the node of the
    old ledger or the node that was being saved, with chain, pool and catalog; it is the
    latter whenever the sequence was complete.  The calls of [save_ledger] are such a
    sequence whatever fails, it reports success exactly when it was complete.  (Closing the
    stream loses no buffered byte, and the two ledgers are within their limits.) *)
Theorem crash_then_restart (ios : nat → Io) (config : NodeConfig) (bs bs' : list Block) (s s' : PeerState) (d : Disk) :
  let dir := cfg_data_dir config in
  let saving := wstep (ledger_path dir) (ledger_temp_path dir) (written bs' s') false in
  savable bs s → savable bs' s' → restarts config s → restarts config s' →
  d !! ledger_path dir = Some (written bs s) →
  (∀ ph d' n, rtc saving (WStart, d) (ph, d') → io_read (ios n) = true → io_read (ios (S n)) = true →
     ∃ r, from_config ios config (mkWorld d' n) = (mkWorld d' (S (S n)), Ok r) ∧
       (same_node s r ∨ same_node s' r) ∧ (ph = WDone → same_node s' r)) ∧
  (∀ n, (length (written bs' s') ≤ io_flushed (ios n))%nat →
     ∃ ph d' r, peer_save_ledger ios (s', mkWorld d n) = ((s', mkWorld d' (S n)), r) ∧
       rtc saving (WStart, d) (ph, d') ∧ (r = Ok tt ↔ ph = WDone)).
Proof.
  intros dir saving Hs Hs' Hc Hc' Hd. split.
  - intros ph d' n Hst H1 H2. by apply (restart_after_crash ios config bs bs' s s' Hs Hs' Hc Hc' d d' ph Hd Hst).
  - intros n Hf. subst saving dir. rewrite (rs_dir _ _ Hc'). exact (save_steps ios bs' s' Hs' (mkWorld d n) Hf).
Qed.

(** The node is stopped when the temporary file has been opened. *)
Lemma crash_then_restart_witness :
  let d := {[ ledger_path "data" := written (quiet_blocks 1) (quiet_peer 1) ]} in
  ∃ r, from_config sample_ios restart_config (mkWorld (<[ledger_temp_path "data" := []]> d) 0) =
      (mkWorld (<[ledger_temp_path "data" := []]> d) 2, Ok r) ∧
    (same_node (quiet_peer 1) r ∨ same_node (quiet_peer 2) r).
Proof.
  intros d. destruct (crash_then_restart sample_ios restart_config (quiet_blocks 1) (quiet_blocks 2)
    (quiet_peer 1) (quiet_peer 2) d) as [H _];
    [apply quiet_savable|apply quiet_savable2|apply quiet_restarts|apply quiet_restarts|apply lookup_singleton_eq|].
  destruct (H (WOpen 0) (<[ledger_temp_path "data" := []]> d) 0%nat) as (r & Hr & Hor & _);
    [apply rtc_once, ws_open|reflexivity|reflexivity|].
  exists r. split; [exact Hr|exact Hor].
Defined.

(** ** Conversations over TCP *)

(** C14: the transport is transparent.  A program that talks to its peer through
    [send_message] and [recv_message] on a connected socket, on which the system splits the
    bytes as it likes, does exactly what the conversation on whole messages does: each
    execution in which no system call fails, and in which the peer's bytes come from the
    frames of [ins], consumed a number of whole messages, sent the frames of the messages
    of the conversation and ended in its result; and each conversation on messages is such
    an execution. *)
Theorem conversation_over_tcp {A : Type} (handle : Z) (p : Conn A) (ins : list P2pMessage) :
  valid handle = true → Forall (λ m, sendable m = true) ins →
  (∀ tr a, exec (over_socket handle p) tr a → smooth tr → got tr `prefix_of` wire ins →
     ∃ n outs, talks p (take n ins) outs a ∧ got tr = wire (take n ins) ∧ sent tr = wire outs) ∧
  (∀ outs a, talks p ins outs a →
     ∃ tr, exec (over_socket handle p) tr a ∧ smooth tr ∧ got tr = wire ins ∧ sent tr = wire outs).
Proof.
  intros Hv Hins. split.
  - intros tr a He Hs Hg. by eapply over_socket_talks.
  - intros outs a Ht. by eapply talks_over_socket.
Qed.

Lemma conversation_over_tcp_witness :
  ∃ ping pong tr,
    exec (over_socket 3 ((conn_recv ≫= handle_message sample_ios) (quiet_peer 0, sample_world))) tr
      ((quiet_peer 0, sample_world), Ok tt) ∧
    smooth tr ∧ got tr = wire [ping] ∧ sent tr = wire [pong].
Proof.
  destruct (payload_message kPing ping_wf enc_ping make_ping_message parse_ping_message (mkPing 7)) as
    (ping & _ & Ht & _ & Hs & Hd & Hp); [done|done|].
  destruct (payload_message kPong ping_wf enc_ping make_pong_message parse_pong_message (mkPing 7)) as
    (pong & Hm & _ & _ & Hs' & _ & _); [done|done|].
  exists ping, pong.
  apply (conversation_over_tcp 3 ((conn_recv ≫= handle_message sample_ios) (quiet_peer 0, sample_world)) [ping]);
    [reflexivity|by apply Forall_singleton|].
  rewrite CR_bind_eq. cbn [conn_recv conn_bind]. apply talks_recv. rewrite Hd. cbn [rest_of fst snd].
  unfold handle_message. rewrite Ht, CR_bind_fail, Hp, CR_bind_fail. cbn [nonce]. rewrite Hm.
  apply talks_send; [exact Hs'|]. apply talks_ret.
Defined.

(** C33: sockets are closed exactly once.  Whatever sequence of constructions, moves,
    assignments, closes and destructions a program makes, failed connection attempts
    included, no handle is closed that is not open, every open handle belongs to exactly
    one object, and when all objects are gone none is left open. *)
Theorem handles_closed_once (s : Handles) :
  rtc handle_step no_handles s →
  bad_closes s = 0%nat ∧
  (∀ h, h ∈ os_open s ↔ 0 ≤ h ∧ ∃ id, handle_of s !! id = Some h) ∧
  (∀ id id' h, handle_of s !! id = Some h → handle_of s !! id' = Some h → 0 ≤ h → id = id') ∧
  (handle_of s = ∅ → os_open s = ∅).
Proof.
  intros H. assert (owned s) as [Ho Hu Hw Hc].
  { refine (rtc_ind_r (R := handle_step) owned no_handles owned_none _ s H). intros; by eapply owned_step. }
  split_and!; [done| |done|].
  - intros h. split; [apply Hw|]. intros [H0 [id Hid]]. destruct (Ho _ _ Hid) as [->|[_ Hin]]; [lia|done].
  - intros E. apply leibniz_equiv, elem_of_equiv_empty. intros h Hh. destruct (Hw h Hh) as (_ & id & Hid).
    by rewrite E in Hid.
Qed.

(** A connection that is moved into another variable, both of which are then destroyed. *)
Definition sample_handles : Handles := destroy 0 (destroy 1 (move_construct 1 0 (construct 0 3 no_handles))).

Lemma handles_closed_once_witness : bad_closes sample_handles = 0%nat ∧ os_open sample_handles = ∅.
Proof.
  destruct (handles_closed_once sample_handles) as (H1 & _ & _ & H2).
  - eapply rtc_l; [apply (hs_construct 0 3); [reflexivity|lia|apply not_elem_of_empty]|].
    eapply rtc_l; [apply (hs_move 1 0); [reflexivity|by eexists]|].
    eapply rtc_l; [apply (hs_destroy 1); by eexists|].
    eapply rtc_l; [apply (hs_destroy 0); by eexists|]. apply rtc_refl.
  - split; [exact H1|]. apply H2. vm_compute. reflexivity.
Defined.

(** ** Ping *)

(** The ping mode works: whatever two valid node identifiers the two sides have, in
    every interleaving the client gets its own nonce back and both sides end without error
    after eight sends and receives. *)
Theorem ping_exchange (eof : Error) (cc cs : NodeConfig) :
  config_id_ok cc → config_id_ok cs → is_u64 (cfg_genesis_timestamp cc) →
  let final := mkNet (CRet (tt, Ok tt)) (CRet (tt, Ok tt)) [] [] in
  at_rest (net_step eof) final ∧
  ∀ k net, nsteps (net_step eof) k (mkNet (ping_client_session cc tt) (serve_ping_connection cs tt) [] []) net →
    (k ≤ 8)%nat ∧ nsteps (net_step eof) (8 - k) net final.
Proof.
  intros Hc Hs Hn final. split; [apply ended_rest|].
  apply (commuting_runs _ (net_diamond eof)); [by apply ping_run|apply ended_rest].
Qed.

Lemma ping_exchange_witness :
  nsteps (net_step sample_eof) 8
    (mkNet (ping_client_session default_config tt) (serve_ping_connection default_config tt) [] [])
    (mkNet (CRet (tt, Ok tt)) (CRet (tt, Ok tt)) [] []).
Proof.
  destruct (ping_exchange sample_eof default_config default_config) as [_ H];
    [split; [done|vm_decide]|split; [done|vm_decide]|vm_decide|].
  exact (proj2 (H 0%nat _ (nsteps_O _ _))).
Defined.

(** ** Scripted runs *)

(** C18: a scripted run can be cut in two.  A script run in one go and the same script run
    in two halves, the first of which writes its ledger and the second of which starts from
    it, end with the same tip, height and number of unspent outputs; the statistics of the
    whole are the sums of those of the halves, at their widths; and all three runs succeed
    when the steps of the whole succeed, the transactions left at the cut are still valid,
    the system calls succeed and the ledger is within its limits. *)
Theorem simulator_resumes (config : NodeConfig) (recipient : Hash256) (limits : MempoolLimits)
    (first second : list SimulatorStep) (s1 s2 : Sim) (ios ios1 ios2 : nat → Io) (d : Disk) :
  config_typed config → sim_resolve_coinbase_recipient config = Ok recipient →
  cfg_restore config = false → cfg_persist config = false →
  first ≠ [] → second ≠ [] → script_typed first →
  let params := sim_build_consensus_params config in
  let tmpl := sim_build_template_params config params recipient in
  let policy := resolved_mempool_policy config in
  let options script := mkSimulatorOptions script limits in
  let pool_limits := resolve_mempool_limits config (options first) in
  is_u32 (max_transactions pool_limits) → is_u64 (max_total_bytes pool_limits) →
  run_steps config policy tmpl first (sim_start config pool_limits) = (s1, Ok tt) →
  run_steps config policy tmpl second s1 = (s2, Ok tt) →
  pool_valid (utxos_ (sim_chain s1)) policy (sim_pool s1) →
  io_good (ios1 1%nat) (half_written config s1) → io_read (ios2 0%nat) = true →
  size_z (half_written config s1) ≤ kMaxLedgerFileBytes → size_z (sim_ledger s1) ≤ kMaxLedgerBlocks →
  pool_size (sim_pool s1) ≤ kMaxLedgerMempoolTransactions →
  ∃ d' sum sum1 sum2,
    run_simulator ios config (options (first ++ second)) d = (d, Ok sum) ∧
    run_simulator ios1 (set_persist true config) (options first) d = (d', Ok sum1) ∧
    run_simulator ios2 (set_restore true config) (options second) d' = (d', Ok sum2) ∧
    sum_tip_hash sum2 = sum_tip_hash sum ∧ sum_height sum2 = sum_height sum ∧
    sum_utxo_count sum2 = sum_utxo_count sum ∧ sum_genesis_hash sum2 = sum_genesis_hash sum ∧
    sum_blocks_mined sum = wrap32 (sum_blocks_mined sum1 + sum_blocks_mined sum2) ∧
    sum_txs_admitted sum = wrap32 (sum_txs_admitted sum1 + sum_txs_admitted sum2) ∧
    sum_txs_included sum = wrap32 (sum_txs_included sum1 + sum_txs_included sum2) ∧
    sum_total_fees sum = wrap64 (sum_total_fees sum1 + sum_total_fees sum2).
Proof.
  intros Hty Hr Hre Hp Hf Hs Hst params tmpl policy options pool_limits Hl1 Hl2 H1 H2 Hv Hio Hrd Hsz Hb Hpl.
  by apply (halves config Hty recipient Hr Hre Hp limits first second Hf Hs Hst Hl1 Hl2 s1 s2 H1 H2).
Qed.

(** One block mined in each half. *)
Definition one_block : list SimulatorStep := [mkSimulatorStep [] 1].
Definition no_limits : MempoolLimits := mkMempoolLimits 0 0.

Abbreviation mining_params := (sim_build_consensus_params default_config).
Abbreviation mining_tmpl := (sim_build_template_params default_config mining_params zero_hash).
Abbreviation mining_policy := (resolved_mempool_policy default_config).
Abbreviation mining_limits := (resolve_mempool_limits default_config (mkSimulatorOptions one_block no_limits)).

Lemma one_block_runs k bs s :
  plain_run default_config zero_hash mining_limits k bs s → (k < 2)%nat →
  ∃ bs' s', run_steps default_config mining_policy mining_tmpl one_block s = (s', Ok tt) ∧
    plain_run default_config zero_hash mining_limits (S k) bs' s'.
Proof.
  intros Hs Hk.
  destruct (plain_mine default_config ltac:(vm_decide) zero_hash eq_refl 2 mining_strings_differ ltac:(vm_decide)
    ltac:(vm_decide) ltac:(vm_decide) ltac:(vm_decide) mining_limits ltac:(vm_decide) ltac:(vm_decide) 1 k bs s Hs) as
    (bs' & s' & E & Hr); [lia|].
  exists bs', s'. rewrite Nat.add_1_r in Hr. split; [|exact Hr].
  unfold one_block. cbn [run_steps submit_txs step_mine_blocks admit_transactions].
  change (Z.to_nat 1) with 1%nat. unfold mbind, SR_bind. cbn [mret SR_ret]. by rewrite E.
Qed.

Lemma half_size bs s : plain_run default_config zero_hash mining_limits 1 bs s →
  size_z (half_written default_config s) ≤ 1000 ∧ sim_pool s = new_mempool mining_limits ∧ size_z (sim_ledger s) = 2.
Proof.
  intros [Hm Hch Hlen Hp Hl _].
  assert (Forall block_typed (reverse bs)) as Hty.
  { apply Forall_reverse. by destruct (chain_of_stored _ (consensus_params_wf default_config ltac:(vm_decide)) _ _ Hch). }
  split_and!; [|done|by rewrite Hl, length_reverse, Hlen].
  unfold half_written, half_ledger, enc_sealed, enc_body, enc_ledger_head.
  rewrite !length_app, !length_le_bytes. cbn [l_blocks l_mempool_transactions]. rewrite Hp.
  change (sorted_transactions (new_mempool mining_limits)) with (@nil Transaction).
  rewrite !Nat2Z.inj_add, Hl, length_boxed_blocks by done.
  pose proof (mi_genesis _ _ _ Hm) as Hg. pose proof (mi_blocks _ _ _ Hm 0%nat) as Hb.
  rewrite <- length_reverse in Hlen. destruct (reverse bs) as [|g [|b [|]]]; try discriminate Hlen.
  injection Hg as ->. destruct (Hb b eq_refl) as [Eb _]. cbn [fmap list_fmap sum_z foldr]. rewrite Eb.
  cbn [transactions build_genesis_block fmap list_fmap sum_z foldr]. by vm_compute.
Qed.

Lemma simulator_resumes_witness :
  ∃ d' sum sum1 sum2,
    run_simulator sample_ios default_config (mkSimulatorOptions (one_block ++ one_block) no_limits) ∅ = (∅, Ok sum) ∧
    run_simulator sample_ios (set_persist true default_config) (mkSimulatorOptions one_block no_limits) ∅ = (d', Ok sum1) ∧
    run_simulator sample_ios (set_restore true default_config) (mkSimulatorOptions one_block no_limits) d' = (d', Ok sum2) ∧
    sum_tip_hash sum2 = sum_tip_hash sum.
Proof.
  destruct (one_block_runs 0 _ _ (plain_start default_config ltac:(vm_decide) zero_hash mining_limits ltac:(vm_decide)
    ltac:(vm_decide))) as (bs1 & s1 & E1 & R1); [lia|].
  destruct (one_block_runs 1 _ _ R1) as (bs2 & s2 & E2 & _); [lia|]. destruct (half_size _ _ R1) as (Hsz & Hp & Hl).
  destruct (simulator_resumes default_config zero_hash no_limits one_block one_block s1 s2 sample_ios sample_ios sample_ios ∅)
    as (d' & sum & sum1 & sum2 & H1 & H2 & H3 & H4 & _).
  1-7: first [vm_decide|reflexivity|intros H; discriminate H|by repeat constructor].
  - vm_decide.
  - vm_decide.
  - exact E1.
  - exact E2.
  - rewrite Hp. apply new_pool_valid.
  - split; try reflexivity. apply Nat2Z.inj_le. etrans; [exact Hsz|]. by vm_compute.
  - reflexivity.
  - etrans; [exact Hsz|]. by vm_compute.
  - rewrite Hl. by vm_compute.
  - rewrite Hp. by vm_compute.
  - exists d', sum, sum1, sum2. split; [exact H1|split; [exact H2|split; [exact H3|exact H4]]].
Defined.
