(* ===== verification/SessionTheorems.v ===== *)
(** * Properties of relay sessions: that they end, and how *)

From S2P Require Import Prelude Errors Sha256 ByteIO Transaction Block Utxo TxValidation BlockValidation Samples Mempool Chain BlockBuilder ChainStore P2pMessage P2pPayloads Effects Text SocketIO Peers Config PeerState PeerInv Network RelaySync Liveness RelayCases NodeStart Scenario Simulator Twins NodeSamples Shipped NodeTheorems.
From Stdlib Require Import Strings.Byte.

(** C16: sessions end, whatever the peer sends and whatever becomes of what is sent.  A
    session of the relay server is at most 65 messages each way, one of the ping server or
    client two; one of the relay client, after a handshake that announces less than the
    greatest height, is at most a request for each missing block and each block to pull,
    with one answer to each response and the transactions to announce, and the loop over
    the heights needs no more iterations than there are heights: any two numbers of
    iterations above that are the same conversation. *)
Theorem sessions_bounded (ios : nat → Io) (config : NodeConfig) (options : RelayClientOptions) :
  (∀ node, within (serve_relay_connection ios node) 65 65) ∧
  (∀ node : Node, within (serve_ping_connection config node) 2 2 ∧ within (ping_client_session config node) 2 2) ∧
  (∀ node peer_hs, hs_height peer_hs < UINT32_MAX →
     let missing := requests (wrap32 (peer_height node.1 + 1)) (hs_height peer_hs) in
     let pulled := Z.to_nat (blocks_after_tx options) in
     within (relay_client_after ios config options peer_hs node)
       (2 * missing + length (txs_after_sync options) + 2 * pulled) (missing + pulled)) ∧
  (∀ node h target fuel fuel', is_u32 h → target < UINT32_MAX →
     (requests h target < fuel)%nat → (requests h target < fuel')%nat →
     same_conn (sync_loop ios fuel h target node) (sync_loop ios fuel' h target node)).
Proof.
  split_and!.
  - intros node. apply bounded_serve.
  - intros node. split; [apply bounded_ping_server|apply bounded_ping_client].
  - intros node peer_hs Ht. by apply bounded_client.
  - unfold requests. intros node h target fuel fuel' Hh Ht H1 H2. apply sync_loop_done; [done|done|lia..].
Qed.

Lemma sessions_bounded_witness :
  within (serve_relay_connection sample_ios (quiet_peer 0, sample_world)) 65 65 ∧
  within (relay_client_after sample_ios quiet_config no_options (peer_local_handshake (quiet_peer 3))
    (quiet_peer 0, sample_world)) 6 3.
Proof.
  destruct (sessions_bounded sample_ios quiet_config no_options) as (H1 & _ & H3 & _).
  split; [apply H1|]. exact (H3 (quiet_peer 0, sample_world) (peer_local_handshake (quiet_peer 3)) eq_refl).
Defined.

(** C9: two nodes never wait for each other for ever.  Whatever the two nodes are, valid or
    not, on whatever chains, heights, settings and options, and in whatever order their
    calls are made, a relay session is over after a number of steps that depends only on
    the number of transactions to announce, and it comes to rest only when both sides have
    returned; so does a ping session, after at most 11 steps.  The bound comes from the
    server's 64 messages, not from the heights that bound [sync_loop]. *)
Theorem sessions_never_deadlock (eof : Error) (iosc ioss : nat → Io) (cc cs : NodeConfig)
    (options : RelayClientOptions) (nc ns : Node) k :
  (∀ net, nsteps (net_step eof) k
     (mkNet (relay_client_session iosc cc options nc) (serve_relay_connection ioss ns) [] []) net →
     (k ≤ 131 + 66 * (length (txs_after_sync options) + 3))%nat ∧
     (at_rest (net_step eof) net → ended (left_ net) = true ∧ ended (right_ net) = true)) ∧
  (∀ net, nsteps (net_step eof) k (mkNet (ping_client_session cc nc) (serve_ping_connection cs ns) [] []) net →
     (k ≤ 11)%nat ∧ (at_rest (net_step eof) net → ended (left_ net) = true ∧ ended (right_ net) = true)).
Proof.
  split; intros net Hk; [by eapply relay_runs_end|by eapply ping_runs_end].
Qed.

(** A client that meets a server on another chain gives up, and both have ended. *)
Lemma sessions_never_deadlock_witness :
  let net := mkNet (CRet ((other_peer, sample_world), make_error kInvalidBlock "block does not extend the current tip"))
                   (CRet (served sample_ios (quiet_peer 1, sample_world))) [] [] in
  nsteps (net_step sample_eof) 9
    (session_net sample_ios sample_ios quiet_config no_options (other_peer, sample_world) (quiet_peer 1, sample_world)) net ∧
  (9 ≤ 329)%nat ∧ ended (left_ net) = true.
Proof.
  intros net. assert (nsteps (net_step sample_eof) 9 (session_net sample_ios sample_ios quiet_config no_options
    (other_peer, sample_world) (quiet_peer 1, sample_world)) net) as Hrun.
  { apply (refused_block sample_ios sample_ios sample_eof eq_refl quiet_config no_options (quiet_peer_ok 1 ltac:(done))
      other_peer_ok sample_world sample_world (quiet_id 1) (sample_state_id _ _ _) (quiet 1) [quiet 0]);
      [by apply quiet_fits|reflexivity|reflexivity|reflexivity|exact geneses_differ]. }
  destruct (proj1 (sessions_never_deadlock sample_eof sample_ios sample_ios quiet_config quiet_config no_options
    (other_peer, sample_world) (quiet_peer 1, sample_world) 9) net Hrun) as [Hk Hr].
  split; [exact Hrun|]. split; [exact Hk|]. exact (proj1 (Hr (ended_rest _ _ _ _ _))).
Defined.

(** A peer that announces the greatest height and then only sends pongs. *)
Definition pong_message : P2pMessage := mkP2pMessage kProtocolVersion kPong (serialize_pong (mkPing 0)).
Definition greatest_peer (greeting : P2pMessage) : Peer :=
  mkPeer (λ _, Ok tt) (λ j, match j with O => Ok greeting | S _ => Ok pong_message end).

Lemma pongs_go_on (ios : nat → Io) greeting fuel : ∀ i j h (node : Node),
  is_u32 h → play (greatest_peer greeting) i (S j) (sync_loop ios fuel h UINT32_MAX node) = (node, still_running).
Proof.
  induction fuel as [|fuel IH]; intros i j h node Hh; [done|]. rewrite sync_loop_S.
  destruct (h <=? UINT32_MAX) eqn:E; [|solve_u].
  erewrite request_block_eq by reflexivity. cbn [conn_bind play greatest_peer p_sends rest_of fst snd].
  rewrite CR_bind_eq. cbn [conn_recv conn_bind play greatest_peer p_recvs rest_of fst snd].
  change (handle_message ios pong_message node) with (CRet (node, Ok tt)). cbn [conn_bind rest_of fst snd].
  apply IH, wrap32_range.
Qed.

(** C37: a peer can keep a client in its loop for ever.  There is a greeting that the client
    takes as the handshake of a peer at the greatest 32-bit height; after it, a peer that
    only sends pongs is asked for blocks without end: after any number of iterations, each a
    request and an answer, the client has not left the loop, for the height it counts wraps
    around before it exceeds the target, and its state is as it was. *)
Theorem greatest_height_never_ends (ios : nat → Io) (bs : list Block) (s : PeerState) (w : World) :
  peer_ok bs s → node_id_ok s →
  ∃ greeting peer_hs,
    deliver greeting = Ok greeting ∧ deliver pong_message = Ok pong_message ∧ hs_height peer_hs = UINT32_MAX ∧
    play (greatest_peer greeting) 0 0 (exchange_relay_handshake (s, w)) = ((s, w), Ok peer_hs) ∧
    ∀ iterations,
      play (greatest_peer greeting) 1 1
        (sync_loop ios iterations (wrap32 (peer_height s + 1)) (hs_height peer_hs) (s, w)) = ((s, w), still_running).
Proof.
  intros Hok Hid. set (hs := mkHandshake kNetworkMagic UINT32_MAX zero_hash (bytes_of (node_id_ s))).
  assert (handshake_wf hs) as Hwf by (split_and!; [done|done|done|apply Hid..]).
  destruct (payload_message kHandshake handshake_wf enc_handshake make_handshake_message parse_handshake_message hs Hwf)
    as (m & _ & _ & _ & _ & Hd & Hp).
  { destruct Hid as [_ Hlen]. unfold enc_handshake, enc_var_bytes. rewrite !length_app, !length_le_bytes.
    cbn [hs hs_tip_hash hs_node_id]. change (length zero_hash) with 32%nat. change kMaxP2pPayloadBytes with 1048576.
    change kMaxNodeIdBytes with 64 in Hlen. lia. }
  destruct (handshake_message _ _ Hok Hid) as (mine & Hm & _).
  exists m, hs. split_and!; [done|by apply deliver_wf|done| |].
  - unfold exchange_relay_handshake. rewrite CR_bind_reads. cbn [fst]. rewrite CR_bind_fail, Hm.
    rewrite CR_bind_eq. cbn [conn_send conn_bind play greatest_peer p_sends rest_of fst snd].
    rewrite CR_bind_eq. cbn [conn_recv conn_bind play greatest_peer p_recvs rest_of fst snd].
    unfold fail_with, silent, lift. by rewrite Hp.
  - intros iterations. apply pongs_go_on, wrap32_range.
Qed.

Lemma greatest_height_never_ends_witness :
  ∃ greeting, deliver greeting = Ok greeting ∧
    play (greatest_peer greeting) 1 1
      (sync_loop sample_ios 1000 1 UINT32_MAX (quiet_peer 0, sample_world)) = ((quiet_peer 0, sample_world), still_running).
Proof.
  destruct (greatest_height_never_ends sample_ios (quiet_blocks 0) (quiet_peer 0) sample_world) as
    (greeting & hs & Hd & _ & Hh & _ & H); [by apply quiet_peer_ok|apply quiet_id|].
  exists greeting. split; [exact Hd|]. rewrite Hh in H. exact (H 1000%nat).
Defined.

(** ** Chains that differ *)

(** How a session ends for a client that is not behind its server, or whose tip the server's
    next block does not extend. *)
Definition apart_result (sc ss : PeerState) : Result RelayClientResult :=
  if peer_height sc <? peer_height ss
  then make_error kInvalidBlock "block does not extend the current tip"
  else if peer_height sc =? peer_height ss
  then Ok (mkRelayClientResult (peer_height sc) (peer_tip_hash sc))
  else make_error kInvalidBlock
         ("relay client did not reach target height " +:+ std_to_string (peer_height ss)).

(** C15: a relay session never reorganises a chain.  A client whose tip is not the block
    below the server's next one, or that is at the server's height or above it, keeps its
    state as it is, in every interleaving, and so does the server, for every chain either
    has.  The client then fails: with the linking error when the server has more blocks,
    with the missed height when it has fewer.  Only when both have the same number does
    it report success, whether or not the chains are the same. *)
Theorem relay_never_reorganises (iosc ioss : nat → Io) (eof : Error) (config : NodeConfig)
    (bs bsc : list Block) (ss sc : PeerState) (ws wc : World) :
  peer_disconnected eof = true → peer_ok bs ss → peer_ok bsc sc → node_id_ok ss → node_id_ok sc →
  Forall block_fits bs → cfg_persist config = false →
  peer_height ss < UINT32_MAX → peer_height sc < UINT32_MAX →
  (∀ b rest, b :: rest `suffix_of` bs → length rest = length bsc → prev_block (header b) ≠ peer_tip_hash sc) →
  let steps := if peer_height sc <? peer_height ss then 9%nat else 5%nat in
  let final := mkNet (CRet ((sc, wc), apart_result sc ss)) (CRet (served ioss (ss, ws))) [] [] in
  at_rest (net_step eof) final ∧
  ∀ k net, nsteps (net_step eof) k (session_net iosc ioss config no_options (sc, wc) (ss, ws)) net →
    (k ≤ steps)%nat ∧ nsteps (net_step eof) (steps - k) net final.
Proof.
  intros He Hss Hsc His Hic Hf Hcp Hms Hmc Hfork steps final. split; [apply ended_rest|].
  apply (commuting_runs _ (net_diamond eof)); [|apply ended_rest]. subst steps final. unfold apart_result.
  pose proof (peer_height_size Hss) as Hs. pose proof (peer_height_size Hsc) as Hc.
  destruct (peer_height sc <? peer_height ss) eqn:E1.
  - assert (∃ b rest, b :: rest `suffix_of` bs ∧ length rest = length bsc) as (b & rest & Hsuf & Hlen).
    { destruct (drop (length bs - S (length bsc)) bs) as [|b rest] eqn:Ed.
      - apply (f_equal length) in Ed. rewrite length_drop in Ed. cbn in Ed. lia.
      - exists b, rest. rewrite <- Ed. split; [apply suffix_drop|].
        apply (f_equal length) in Ed. rewrite length_drop in Ed. cbn in Ed. lia. }
    eapply (refused_block iosc ioss eof He config no_options Hss Hsc ws wc His Hic b rest); try done; [lia|by apply (Hfork b rest)].
  - apply (nothing_to_ask iosc ioss eof He config no_options Hss Hsc ws wc His Hic); [lia|].
    destruct (peer_height sc =? peer_height ss) eqn:E2.
    + apply Z.eqb_eq in E2. etrans; [exact (client_ends iosc wc config sc E2)|]. by rewrite synced_plain.
    + apply behind_client. lia.
Qed.

(** Two nodes that do not even have the same genesis block. *)
Lemma relay_never_reorganises_witness :
  nsteps (net_step sample_eof) 9
    (session_net sample_ios sample_ios quiet_config no_options (other_peer, sample_world) (quiet_peer 1, sample_world))
    (mkNet (CRet ((other_peer, sample_world), make_error kInvalidBlock "block does not extend the current tip"))
           (CRet (served sample_ios (quiet_peer 1, sample_world))) [] []).
Proof.
  destruct (relay_never_reorganises sample_ios sample_ios sample_eof quiet_config (quiet_blocks 1) [other_genesis]
    (quiet_peer 1) other_peer sample_world sample_world) as [_ H];
    [reflexivity|by apply quiet_peer_ok|apply other_peer_ok|apply quiet_id|apply sample_state_id|by apply quiet_fits|
     reflexivity|reflexivity|reflexivity| |].
  - intros b rest Hsuf Hlen. apply suffix_cons_inv in Hsuf as [E|Hsuf].
    + injection E as -> ->. exact geneses_differ.
    + apply suffix_length in Hsuf. cbn in Hsuf, Hlen. lia.
  - exact (proj2 (H 0%nat _ (nsteps_O _ _))).
Defined.

(** ** Transactions *)

(** The transaction [tx] is valid for the node's pool, which is empty, and for the next
    block on its chain, which the node's settings let it make. *)
Record mineable (s : PeerState) (tx : Transaction) (pool : Mempool) (fee : Z) : Prop := {
  mn_typed : tx_typed tx;
  mn_empty : ∃ limits, mempool_ s = new_mempool limits;
  mn_accepted : accept tx (utxos_ (chain_ s)) (mempool_policy_ s) (mempool_ s) = (pool, Ok tt);
  mn_applies : ∃ utxos, tx_applies (peer_height s + 1) (params_ (chain_ s)) tx (utxos_ (chain_ s)) utxos fee;
  mn_env : producer_env (chain_ s) (next_timestamp s) pool (tmpl_params_ s);
  mn_fresh : coinbase_fresh
    (make_coinbase (peer_height s + 1) (block_subsidy (params_ (chain_ s)) + fee) (coinbase_recipient (tmpl_params_ s)))
    pool (utxos_ (chain_ s));
  mn_room : 176 + tx_size tx ≤ max_block_size_bytes (tmpl_params_ s);
}.

(** The server takes the transaction, mines and serves the block; the run is given in one order. *)
Lemma submission_run iosc ioss eof config bs bsc l ss sc ws wc tx pool fee :
  peer_disconnected eof = true → peer_ok bs ss → peer_ok bsc sc → node_id_ok ss → node_id_ok sc →
  Forall block_fits bs → params_ (chain_ sc) = params_ (chain_ ss) →
  persist_ sc = false → persist_ ss = false → cfg_persist config = false → peer_height ss + 1 < UINT32_MAX →
  bs = reverse l ++ bsc → (length l < 62)%nat → mine_after_tx_ ss = 1 → mineable ss tx pool fee →
  ∃ b sc' ss', peer_ok (b :: bs) sc' ∧ peer_ok (b :: bs) ss' ∧ chain_ sc' = chain_ ss' ∧ same_settings ss ss' ∧
    peer_height ss' = peer_height ss + 1 ∧ block_fits b ∧
    transactions b =
      [make_coinbase (peer_height ss + 1) (block_subsidy (params_ (chain_ ss)) + fee)
         (coinbase_recipient (tmpl_params_ ss)); tx] ∧
    by_txid_ (mempool_ ss') = ∅ ∧
    nsteps (net_step eof) (4 * length l + 11) (session_net iosc ioss config (one_tx tx) (sc, wc) (ss, ws))
      (mkNet (CRet ((sc', wc), Ok (mkRelayClientResult (peer_height ss + 1) (peer_tip_hash ss'))))
             (CRet (served ioss (ss', ws))) [] []).
Proof.
  intros He Hss Hsc His Hic Hf Hp Hpc Hps Hcp Hh El Hl Hafter [Hty [limits Hem] Hacc [u' Hap] Henv Hfresh Hroom].
  destruct (announced_mined ioss Hss ws tx pool limits u' fee Hty Hem Hacc Hap Henv Hfresh Hroom Hafter Hps) as
    (b & ss' & Hm & Hss' & Hset & Htxs & Hempty & Hfit).
  pose proof Hset as (_ & _ & _ & _ & _ & _ & _ & _ & Ep').
  pose proof Hacc as Hacc'. rewrite Hem in Hacc'.
  apply accept_first in Hacc' as (_ & Hs & _); [|rewrite <- Hem; apply Hss|done|apply (peer_chain_wf Hss)|apply Hss].
  destruct (submitted_session iosc ioss eof He config Hcp tx Hss ws wc Hss' (proj1 (announce_wf tx Hty Hs)) Hm
    (Forall_cons_2 _ _ _ Hfit Hf) Hh l bsc sc Hsc His Hic Hp Ep' Hpc El Hl) as (sc' & Hsc' & Hset' & Hrun).
  pose proof Hset' as (_ & _ & _ & _ & _ & _ & _ & _ & Epc).
  assert (params_ (chain_ sc') = params_ (chain_ ss')) as Epar by congruence.
  destruct (follower_chain Hss' Epar sc' Hsc' (reflexivity _)) as (Ech & Eht & Etip).
  pose proof (peer_height_size Hss) as H1. pose proof (peer_height_size Hsc') as H2. rewrite length_cons in H2.
  assert (peer_height sc' = peer_height ss + 1) as Eh by lia.
  exists b, sc', ss'. rewrite Eh, Etip in Hrun. rewrite <- Eht, Eh. by split_and!.
Qed.

(** C6: a transaction goes from a client's file into the chain of both nodes.  The client
    is up to 61 blocks behind on the server's chain, announces a transaction that is valid
    there and asks for one more block; the server, whose pool is empty, mines a block after
    each transaction.  In every interleaving, after four steps per block and eleven more,
    both nodes hold the same chain, one block higher, whose newest block is a coinbase that
    collects the fee and the transaction, and the server's pool is empty again. *)
Theorem relay_mines_transaction (iosc ioss : nat → Io) (eof : Error) (config : NodeConfig)
    (bs bsc l : list Block) (ss sc : PeerState) (ws wc : World) (tx : Transaction) (pool : Mempool) (fee : Z) :
  peer_disconnected eof = true → peer_ok bs ss → peer_ok bsc sc → node_id_ok ss → node_id_ok sc →
  Forall block_fits bs → params_ (chain_ sc) = params_ (chain_ ss) →
  persist_ sc = false → persist_ ss = false → cfg_persist config = false → peer_height ss + 1 < UINT32_MAX →
  bs = reverse l ++ bsc → (length l < 62)%nat → mine_after_tx_ ss = 1 → mineable ss tx pool fee →
  ∃ b sc' ss', peer_ok (b :: bs) sc' ∧ peer_ok (b :: bs) ss' ∧ chain_ sc' = chain_ ss' ∧
    transactions b =
      [make_coinbase (peer_height ss + 1) (block_subsidy (params_ (chain_ ss)) + fee)
         (coinbase_recipient (tmpl_params_ ss)); tx] ∧
    by_txid_ (mempool_ ss') = ∅ ∧
    let final := mkNet (CRet ((sc', wc), Ok (mkRelayClientResult (peer_height ss + 1) (peer_tip_hash ss'))))
                       (CRet (served ioss (ss', ws))) [] [] in
    at_rest (net_step eof) final ∧
    ∀ k net, nsteps (net_step eof) k (session_net iosc ioss config (one_tx tx) (sc, wc) (ss, ws)) net →
      (k ≤ 4 * length l + 11)%nat ∧ nsteps (net_step eof) (4 * length l + 11 - k) net final.
Proof.
  intros He Hss Hsc His Hic Hf Hp Hpc Hps Hcp Hh El Hl Hafter Hmine.
  destruct (submission_run iosc ioss eof config bs bsc l ss sc ws wc tx pool fee) as
    (b & sc' & ss' & Hsc' & Hss' & Ech & _ & _ & _ & Htxs & Hempty & Hrun); try assumption.
  exists b, sc', ss'. split_and!; [done..|]. split; [apply ended_rest|].
  apply (commuting_runs _ (net_diamond eof)); [exact Hrun|apply ended_rest].
Qed.

Lemma coin_mineable : mineable coin_peer coin_spend coin_pool 1000.
Proof.
  split; [apply coin_spend_typed|by eexists|apply coin_accepted|apply coin_spend_applies| |apply coin_reward_fresh|].
  - split; [reflexivity|reflexivity|vm_decide|vm_decide| |vm_decide|vm_decide|vm_decide|vm_decide].
    refine (proj1 (accept_first _ _ _ _ _ _ _ _ _ coin_accepted));
      [by apply new_mempool_wf|apply coin_spend_typed|apply (peer_chain_wf coin_peer_ok)|done].
  - rewrite coin_spend_size. vm_decide.
Qed.

(** A client on the same chain, whose transaction moves the coin of the genesis block. *)
Lemma relay_mines_transaction_witness :
  ∃ b sc' ss', chain_ sc' = chain_ ss' ∧ transactions b = [coin_reward; coin_spend] ∧
    nsteps (net_step sample_eof) 11
      (session_net sample_ios sample_ios quiet_config (one_tx coin_spend) (coin_peer, sample_world) (coin_peer, sample_world))
      (mkNet (CRet ((sc', sample_world), Ok (mkRelayClientResult 1 (peer_tip_hash ss'))))
             (CRet (served sample_ios (ss', sample_world))) [] []).
Proof.
  destruct (relay_mines_transaction sample_ios sample_ios sample_eof quiet_config [sample_genesis] [sample_genesis] []
    coin_peer coin_peer sample_world sample_world coin_spend coin_pool 1000) as (b & sc' & ss' & _ & _ & Hc & Ht & _ & _ & H);
    [reflexivity|apply coin_peer_ok|apply coin_peer_ok|apply sample_state_id|apply sample_state_id|
     apply Forall_singleton, genesis_fits|reflexivity|reflexivity|reflexivity|
     reflexivity|reflexivity|reflexivity|apply le_n_S, Nat.le_0_l|reflexivity|apply coin_mineable|].
  exists b, sc', ss'. split; [exact Hc|]. split; [exact Ht|]. exact (proj2 (H 0%nat _ (nsteps_O _ _))).
Defined.

(** ** Two nodes started from their configurations *)

(** C12: from two configurations to one chain, and back from the disk.  A seed starts from
    nothing and mines the blocks it is told to, up to 63; a client starts from nothing with
    the same genesis time and consensus parameters, connects and runs [run_relay_client].
    In every interleaving, after four steps per block and five more, the client has
    reported the seed's height and tip, and the seed that height and an empty pool.  A
    client that persists has then written a ledger from which, with [restore], a node
    starts on the seed's chain; one that does not has not touched the disk. *)
Theorem fresh_nodes_agree (iosc ioss : nat → Io) (os : Os) (eof : Error) (cc cs : NodeConfig) (rc rs : Hash256)
    (wc ws : World) (h : Z) :
  peer_disconnected eof = true →
  tcp_connect os (mkTcpEndpoint (cfg_peer_host cc) (cfg_peer_port cc)) = Ok h →
  startable cc rc → startable cs rs → config_valid cc →
  cfg_genesis_timestamp cc = cfg_genesis_timestamp cs → build_consensus_params cc = build_consensus_params cs →
  cfg_mine_blocks cc = 0 → cfg_mine_blocks cs < 64 → cfg_persist cs = false →
  (cfg_persist cc = true → disk_works (iosc (w_calls wc))) →
  let n := Z.to_nat (cfg_mine_blocks cs) in
  ∃ bs ss wc', from_config ioss cs ws = (ws, Ok ss) ∧ peer_ok bs ss ∧ peer_height ss = cfg_mine_blocks cs ∧
    (cfg_persist cc = false → wc' = wc) ∧
    (cfg_persist cc = true → ∀ ios, io_read (ios (w_calls wc')) = true → io_read (ios (S (w_calls wc'))) = true →
       ∃ r, from_config ios (set_restore true cc) wc' = (next_call (next_call wc'), Ok r) ∧ chain_ r = chain_ ss) ∧
    let final := mkNet (CRet (wc', Ok (mkRelayClientResult (cfg_mine_blocks cs) (peer_tip_hash ss))))
                       (CRet (ws, Ok (mkRelaySessionSummary (cfg_mine_blocks cs) 0))) [] [] in
    at_rest (net_step eof) final ∧
    ∀ k net,
      nsteps (net_step eof) k
        (mkNet (run_relay_client iosc os cc no_options wc) (serve_relay_connection_from ioss cs ws) [] []) net →
      (k ≤ 4 * n + 5)%nat ∧ nsteps (net_step eof) (4 * n + 5 - k) net final.
Proof.
  intros He Hc Tc Ts Hval Hg Hp Hmc Hms Hps Hdisk n.
  destruct (pair_run iosc ioss os eof cc cs rc rs wc ws He (ex_intro _ h Hc) Tc Ts Hg Hp Hps Hmc Hms) as
    (bs & ss & sc & Hfs & Hss & Hh & Hsync & Hrun).
  destruct (client_saves iosc cc cs rc wc Tc Hms bs ss sc Hsync Hval Hdisk) as (wc' & Hsaved & Hno & Hyes).
  rewrite Hsaved, Hh in Hrun. exists bs, ss, wc'. split_and!; [done..| |].
  - intros Hpers ios H1 H2. destruct (Hyes Hpers ios H1 H2) as (r & Hr & Hchain & _). exists r.
    by rewrite Hchain, (sy_chain _ _ _ _ _ Hsync).
  - split; [apply ended_rest|]. apply (commuting_runs _ (net_diamond eof)); [exact Hrun|apply ended_rest].
Qed.

Definition sample_os : Os := mkOs (λ _, true) 3 true true true true 9000 4 0.

(** The configurations that come with the program; the client is told where the seed is. *)
Definition shipped_client : NodeConfig := set_peer_host "127.0.0.1" (set_peer_port 9000 client_config).
Definition shipped_hash : Hash256 := xa1 :: replicate 31 x00.

Lemma seed_startable : startable seed_config shipped_hash.
Proof.
  split; [vm_decide|split; [done|vm_decide]|reflexivity|reflexivity|by vm_compute|by vm_compute|by vm_compute|].
  apply two_strings_differ. apply (bool_decide_eq_false_1 _). vm_eq.
Qed.

Lemma client_startable : startable shipped_client shipped_hash.
Proof.
  split; [vm_decide|split; [done|vm_decide]|reflexivity|reflexivity|by vm_compute|by vm_compute|by vm_compute|].
  intros x y Hx. by apply elem_of_nil in Hx.
Qed.

Lemma fresh_nodes_agree_witness :
  ∃ ss w', peer_height ss = 2 ∧
    (∃ r w'', from_config sample_ios (set_restore true shipped_client) w' = (w'', Ok r) ∧ chain_ r = chain_ ss) ∧
    nsteps (net_step sample_eof) 13
      (mkNet (run_relay_client sample_ios sample_os shipped_client no_options sample_world)
             (serve_relay_connection_from sample_ios seed_config sample_world) [] [])
      (mkNet (CRet (w', Ok (mkRelayClientResult 2 (peer_tip_hash ss))))
             (CRet (sample_world, Ok (mkRelaySessionSummary 2 0))) [] []).
Proof.
  destruct (fresh_nodes_agree sample_ios sample_ios sample_os sample_eof shipped_client seed_config shipped_hash
    shipped_hash sample_world sample_world 3) as (bs & ss & w' & _ & _ & Hh & _ & Hyes & _ & H);
    [reflexivity|reflexivity|apply client_startable|apply seed_startable|apply validate_Ok; reflexivity|
     reflexivity|reflexivity|reflexivity|reflexivity|reflexivity| |].
  - intros _ bytes Hb. split; try reflexivity. apply Nat2Z.inj_le. etrans; [exact Hb|by vm_compute].
  - exists ss, w'. split; [exact Hh|]. split; [|exact (proj2 (H 0%nat _ (nsteps_O _ _)))].
    destruct (Hyes eq_refl sample_ios eq_refl eq_refl) as (r & Hr & Hc). exists r. eexists. split; [exact Hr|exact Hc].
Defined.

(** C17: the simulator and the node are one program.  Started from the same configuration,
    without a ledger to restore or to write, and given the same transactions to admit and
    blocks to mine after those of the configuration, the two, each with its own code for
    building consensus parameters, mining and admission, fail with the same error or
    succeed with a summary that reports the node's height, tip, number of unspent outputs
    and genesis hash; neither makes a system call or touches a file. *)
Theorem simulator_is_node (ios ios' : nat → Io) (config : NodeConfig) (options : SimulatorOptions)
    (script : list SimulatorStep) (d : Disk) (w : World) :
  config_typed config → cfg_restore config = false → cfg_persist config = false → script_typed script →
  script_of config options = mining_step config :: script →
  resolve_mempool_limits config options = resolved_mempool_limits config →
  (node_run ios config script w).1 = w ∧ (run_simulator ios' config options d).1 = d ∧
  same_outcome config (node_run ios config script w).2 (run_simulator ios' config options d).2.
Proof. intros Hty Hr Hp Hs Hscript Hlimits. exact (twin_runs config Hty Hr Hp ios ios' options script d w Hs Hscript Hlimits). Qed.

(** A transaction and a block after the two blocks of the configuration. *)
Lemma simulator_is_node_witness :
  let script := [mkSimulatorStep [coin_spend] 1] in
  let options := mkSimulatorOptions (mkSimulatorStep [] 2 :: script) (mkMempoolLimits 0 0) in
  (run_simulator sample_ios mining_config options ∅).1 = ∅ ∧
  same_outcome mining_config (node_run sample_ios mining_config script sample_world).2
    (run_simulator sample_ios mining_config options ∅).2.
Proof.
  intros script options.
  destruct (simulator_is_node sample_ios sample_ios mining_config options script ∅ sample_world) as (_ & H1 & H2);
    [vm_decide|reflexivity|reflexivity| |reflexivity|reflexivity|exact (conj H1 H2)].
  constructor; [constructor; [exact coin_spend_typed|constructor]|constructor].
Defined.
