(* ===== verification/ServerTheorems.v ===== *)
(** * Properties of a relay server: the peers it serves, one after another *)

From S2P Require Import Prelude Errors Sha256 ByteIO Transaction Block Utxo TxValidation BlockValidation Samples Mempool Chain BlockBuilder ChainStore ChainTheorems P2pMessage P2pPayloads Effects Text SocketIO Peers Config PeerState PeerInv Network RelaySync RelayCases NodeStart Serving Scenario NodeSamples Shipped NodeTheorems SessionTheorems.
From Stdlib Require Import Strings.Byte.

(** ** The seed of the shipped configuration and a client of it *)

Record seed_serves (bs : list Block) (ss : PeerState) (f : Follower) (p : Peer) : Prop := {
  sd_started : from_config sample_ios seed_config sample_world = (sample_world, Ok ss);
  sd_savable : savable bs ss;
  sd_id : node_id_ok ss;
  sd_fits : Forall block_fits bs;
  sd_height : peer_height ss = 2;
  sd_persist : persist_ ss = false;
  sd_follows : can_follow bs ss f;
  sd_program : is_program sample_eof p (client_of f) (serve_relay_connection sample_ios (ss, sample_world));
}.

Lemma seed_and_client : ∃ bs ss f p, seed_serves bs ss f p.
Proof.
  destruct (pair_starts sample_ios sample_ios shipped_client seed_config shipped_hash shipped_hash sample_world sample_world)
    as (bs & ss & bsc & sc & l & Hs & Hm & Hh & _ & _ & Hid & Hty & Hsm & Hf & _);
    [apply client_startable|apply seed_startable|reflexivity|reflexivity|reflexivity|reflexivity|reflexivity|].
  pose proof Hm as (Hok & Hset & _). pose proof Hset as (_ & _ & _ & _ & _ & _ & Ep & _).
  pose proof (peer_height_size Hok) as Hsz. change (cfg_mine_blocks seed_config) with 2 in Hh.
  destruct (miner_savable seed_config shipped_hash bs ss) as [Hsave _]; [apply seed_startable|reflexivity|exact Hm|lia|].
  pose proof (small_fits _ Hty Hsm) as Hfits.
  set (f := mkFollower sample_ios shipped_client bsc l sc sample_world) in *.
  destruct (follower_completes sample_ios sample_eof eq_refl Hok Hid Hfits ltac:(rewrite Hh; reflexivity) f sample_world Hf)
    as (sc' & _ & _ & Hc).
  destruct (program_exists _ _ _ _ _ Hc) as [p Hp]. exists bs, ss, f, p. split; assumption.
Qed.

Lemma seed_listening : listening sample_os (sample_ios 0) seed_config (mkRelayServerOptions 0 false) (w_disk sample_world) 3 9000 ∅.
Proof. split; reflexivity. Qed.

Lemma seed_world {bs ss f p} (H : seed_serves bs ss f p) n : world_after sample_ios ss sample_world n = sample_world.
Proof.
  apply (world_after_kept sample_ios (sd_savable _ _ _ _ H)); [|apply H].
  rewrite (sd_persist _ _ _ _ H). intros E. discriminate E.
Qed.

(** C7: a relay server serves as many clients as it is told to.  A server that has started,
    fresh or from a ledger, whose peers are [run_relay_client] programs, each up to 63
    blocks behind on the server's chain, returns without error and reports all sessions
    and its own height and pool.  In every interleaving of its session each client ends
    with what saving, if asked to, leaves of the server's chain.  A server that does not
    persist has not touched the disk since its start; one that does can be started again
    from its ledger with the same chain, pool and catalog. *)
Theorem relay_server_serves (ios : nat → Io) (os : Os) (port_io : Io) (eof : Error) (config : NodeConfig)
    (options : RelayServerOptions) (clients : nat → Os * Peer) (followers : nat → Follower) (bs : list Block)
    (ss : PeerState) (w ws : World) (listener port : Z) (d : Disk) :
  let sessions := allowed_sessions config options in
  let server i := serve_relay_connection ios (ss, world_after ios ss ws i) in
  peer_disconnected eof = true → 0 < sessions ≤ UINT32_MAX →
  listening os port_io config options (w_disk w) listener port d →
  from_config ios config (mkWorld d (w_calls w)) = (ws, Ok ss) →
  savable bs ss → node_id_ok ss → Forall block_fits bs → peer_height ss < UINT32_MAX →
  (persist_ ss = true → ∀ n, io_good (ios n) (written bs ss)) →
  (∀ i, (i < Z.to_nat sessions)%nat → (∃ h, tcp_accept (clients i).1 listener = Ok h) ∧
     can_follow bs ss (followers i) ∧ is_program eof (clients i).2 (client_of (followers i)) (server i)) →
  (∃ w', run_relay_server ios os port_io clients config options w =
       (w', Ok (mkRelayServerResult sessions port (make_relay_summary ss))) ∧
     (persist_ ss = false → w' = ws) ∧
     (persist_ ss = true → ∀ ios' config', restarts config' ss →
        io_read (ios' (w_calls w')) = true → io_read (ios' (S (w_calls w'))) = true →
        ∃ r, from_config ios' config' w' = (next_call (next_call w'), Ok r) ∧ same_node ss r)) ∧
  (∀ i, (i < Z.to_nat sessions)%nat → let f := followers i in
     ∃ sc, chain_ sc = chain_ ss ∧
       ∀ k net, nsteps (net_step eof) k (mkNet (client_of f) (server i) [] []) net → at_rest (net_step eof) net →
         left_ net = CRet (synced (fo_ios f) (fo_config f) (sc, fo_world f))).
Proof.
  intros sessions server He Hmax Hl Hs Hsave Hid Hfits Hh Hio Hcl. pose proof (sv_ok _ _ Hsave) as Hss. split.
  - exists (world_after ios ss ws (Z.to_nat sessions)). split; [|split].
    + assert (allowed_sessions config options ≠ 0) as Hne by (fold sessions; lia).
      rewrite (server_runs _ _ _ _ _ _ _ _ _ _ _ _ Hne Hl Hs). fold sessions.
      rewrite (followers_served ios eof He Hss Hid Hfits Hh Hsave Hio clients followers _ _ _ Hcl).
      destruct (Z.to_nat sessions) as [|n] eqn:En; [lia|]. rewrite <- En, Z2Nat.id, wrap32_small by solve_u. reflexivity.
    + apply (world_after_kept ios Hsave Hio).
    + intros Hp ios' config' Hc H1 H2.
      destruct (world_after_kept ios Hsave Hio ws (Z.to_nat sessions)) as [_ Hd]. specialize (Hd Hp ltac:(lia)).
      destruct (world_after ios ss ws (Z.to_nat sessions)) as [d' n]. by apply (restart_from ios' config' bs ss Hsave Hc d' n).
  - intros i Hi f. destruct (Hcl i Hi) as (_ & Hf & _).
    destruct (follower_completes ios eof He Hss Hid Hfits Hh f (world_after ios ss ws i) Hf) as (sc & _ & Hc & Hrun).
    exists sc. split; [exact Hc|]. intros k net Hk Hr. by rewrite (completes_unique _ _ _ _ _ _ _ Hrun Hk Hr).
Qed.

(** The seed and two of its clients. *)
Lemma relay_server_serves_witness :
  allowed_sessions seed_config (mkRelayServerOptions 0 false) = 2 ∧
  ∃ clients ss, peer_height ss = 2 ∧
    run_relay_server sample_ios sample_os (sample_ios 0) clients seed_config (mkRelayServerOptions 0 false) sample_world =
    (sample_world, Ok (mkRelayServerResult 2 9000 (make_relay_summary ss))).
Proof.
  split; [reflexivity|]. destruct seed_and_client as (bs & ss & f & p & H). pose proof H as [Hs Hsave Hid Hfits Hh Ep Hf Hp].
  assert (0 < allowed_sessions seed_config (mkRelayServerOptions 0 false) ≤ UINT32_MAX) as Hmax by (split; [reflexivity|by vm_compute]).
  assert (peer_height ss < UINT32_MAX) as Hlt by (rewrite Hh; reflexivity).
  destruct (relay_server_serves sample_ios sample_os (sample_ios 0) sample_eof seed_config (mkRelayServerOptions 0 false)
    (λ _, (sample_os, p)) (λ _, f) bs ss sample_world sample_world 3 9000 ∅) as ((w' & Hrun & Hno & _) & _);
    [reflexivity|exact Hmax|exact seed_listening|exact Hs|exact Hsave|exact Hid|exact Hfits|exact Hlt| | |].
  - rewrite Ep. intros E. discriminate E.
  - intros i _. split; [by eexists|]. split; [exact Hf|]. rewrite (seed_world H). exact Hp.
  - exists (λ _, (sample_os, p)), ss. split; [exact Hh|]. rewrite (Hno Ep) in Hrun. exact Hrun.
Defined.

(** A transaction that no node takes. *)
Definition empty_tx : Transaction := mkTransaction 1 [] [] 0.
Definition empty_refusal : Error := mkError kInvalidTransaction "transaction has no inputs".

Lemma empty_tx_wf : tx_wf empty_tx.
Proof. apply (bool_decide_unpack _). by vm_compute. Qed.

Lemma empty_tx_size : size_z (tx_to_bytes empty_tx) ≤ kMaxTransactionSizeBytes.
Proof. by vm_compute. Qed.

Lemma empty_refused ss : refuses ss empty_tx (mempool_ ss) empty_refusal.
Proof. split; [reflexivity|by vm_compute]. Qed.

(** C35: one refused transaction ends the server.  After any number of sessions with clients
    that follow, a peer that greets and announces a transaction which the node refuses makes
    [run_relay_server] return the refusal as its error, whatever the peers behind it are and
    however many sessions the server had still to serve: none of them is accepted.  The
    world is as the sessions before have left it; a server that persists has the ledger of
    the last of them on disk. *)
Theorem refused_peer_stops_server (ios : nat → Io) (os : Os) (port_io : Io) (eof : Error) (config : NodeConfig)
    (options : RelayServerOptions) (clients : nat → Os * Peer) (followers : nat → Follower) (bs : list Block)
    (ss : PeerState) (w ws : World) (listener port : Z) (d : Disk) (n : nat) (tx : Transaction) (pool : Mempool) (e : Error) :
  peer_disconnected eof = true → (n < Z.to_nat (allowed_sessions config options))%nat →
  listening os port_io config options (w_disk w) listener port d →
  from_config ios config (mkWorld d (w_calls w)) = (ws, Ok ss) →
  savable bs ss → node_id_ok ss → Forall block_fits bs → peer_height ss < UINT32_MAX →
  (persist_ ss = true → ∀ n, io_good (ios n) (written bs ss)) →
  (∀ i, (i < n)%nat → (∃ h, tcp_accept (clients i).1 listener = Ok h) ∧
     can_follow bs ss (followers i) ∧
     is_program eof (clients i).2 (client_of (followers i)) (serve_relay_connection ios (ss, world_after ios ss ws i))) →
  (∃ h, tcp_accept (clients n).1 listener = Ok h) → announces (clients n).2 tx → refuses ss tx pool e →
  let w' := world_after ios ss ws n in
  run_relay_server ios os port_io clients config options w = (w', Err e) ∧
  (persist_ ss = false → w' = ws) ∧
  (persist_ ss = true → (0 < n)%nat → w_disk w' !! ledger_path (data_dir_ ss) = Some (written bs ss)).
Proof.
  intros He Hn Hl Hs Hsave Hid Hfits Hh Hio Hcl [h Ha] Htx Hr w'. split; [|by apply world_after_kept].
  pose proof (sv_ok _ _ Hsave) as Hss.
  rewrite (server_runs _ _ _ _ _ _ _ _ _ _ ws ss) by (done || lia).
  replace (Z.to_nat (allowed_sessions config options)) with (n + S (Z.to_nat (allowed_sessions config options) - S n))%nat by lia.
  destruct (followers_before ios eof He Hss Hid Hfits Hh Hsave Hio clients followers listener n ws Hcl
    (S (Z.to_nat (allowed_sessions config options) - S n)) (mkRelayServerResult 0 port (mkRelaySessionSummary 0 0))) as [r' ->].
  rewrite (session_fails ios clients listener _ n r' _ _ h e Ha (refused_session ios Hss Hid w' _ tx pool e Htx Hr)). reflexivity.
Qed.

(** The seed serves a client and stops at the next peer, which announces a transaction without
    inputs. *)
Lemma refused_peer_stops_server_witness :
  allowed_sessions seed_config (mkRelayServerOptions 0 false) = 2 ∧
  ∃ clients e,
    run_relay_server sample_ios sample_os (sample_ios 0) clients seed_config (mkRelayServerOptions 0 false) sample_world =
    (sample_world, Err e).
Proof.
  split; [reflexivity|]. destruct seed_and_client as (bs & ss & f & p & H). pose proof H as [Hs Hsave Hid Hfits Hh Ep Hf Hp].
  destruct (handshake_message _ _ (sv_ok _ _ Hsave) Hid) as (hello & _ & _ & _ & Hhello).
  assert (peer_height ss < UINT32_MAX) as Hlt by (rewrite Hh; reflexivity).
  assert (Z.to_nat (allowed_sessions seed_config (mkRelayServerOptions 0 false)) = 2%nat) as Hmax by reflexivity.
  set (m := mkP2pMessage kProtocolVersion kTxAnnounce (enc_tx_announce (mkTxAnnounce (tx_to_bytes empty_tx)))).
  set (bad := mkPeer (λ _, Ok tt) (λ n, match n with O => Ok hello | _ => Ok m end)).
  set (clients := λ n, (sample_os, match n with O => p | _ => bad end)).
  destruct (refused_peer_stops_server sample_ios sample_os (sample_ios 0) sample_eof seed_config (mkRelayServerOptions 0 false)
    clients (λ _, f) bs ss sample_world sample_world 3 9000 ∅ 1 empty_tx (mempool_ ss) empty_refusal) as (Hrun & _);
    [reflexivity|rewrite Hmax; lia|exact seed_listening|exact Hs|exact Hsave|exact Hid|exact Hfits|exact Hlt| | |by eexists| | |].
  - rewrite Ep. intros E. discriminate E.
  - intros i Hi. assert (i = 0%nat) as -> by lia. split; [by eexists|]. split; [exact Hf|]. exact Hp.
  - split; [intros n; exact eq_refl| |exact empty_tx_wf|exact empty_tx_size|].
    + exists hello, (peer_local_handshake ss). split; [exact eq_refl|exact Hhello].
    + exists m. split; [exact eq_refl|]. apply (pay_make (PayloadOk := tx_announce_payload)).
      exact (proj1 (announced_parses _ empty_tx_wf empty_tx_size)).
  - apply empty_refused.
  - exists clients, empty_refusal. rewrite (seed_world H) in Hrun. exact Hrun.
Defined.

(** ** A transaction on its way through the network *)

(** C8: a transaction that one peer submits reaches the peers after it.  The first peer of a
    server that mines a block after each transaction is a client, up to 61 blocks behind,
    that announces a transaction valid on the server's chain; the others are clients that
    followed the chain as it was, up to 62 blocks behind.  The accept loop serves them all
    and reports a height one higher and an empty pool, and in every interleaving of its
    session each of the later clients ends on the chain with the block of that transaction. *)
Theorem mined_block_spreads (ios iosc : nat → Io) (eof : Error) (config : NodeConfig) (clients : nat → Os * Peer)
    (followers : nat → Follower) (listener : Z) (bs bsc l : list Block) (ss sc : PeerState) (ws wc : World)
    (tx : Transaction) (pool : Mempool) (fee : Z) (later : nat) (result : RelayServerResult) :
  let session s := serve_relay_connection ios (s, ws) in
  let submitter := relay_client_session iosc config (one_tx tx) (sc, wc) in
  let mined := (play (clients 0%nat).2 0 0 (session ss)).1.1 in
  peer_disconnected eof = true → peer_ok bs ss → peer_ok bsc sc → node_id_ok ss → node_id_ok sc →
  Forall block_fits bs → params_ (chain_ sc) = params_ (chain_ ss) →
  persist_ sc = false → persist_ ss = false → cfg_persist config = false → peer_height ss + 1 < UINT32_MAX →
  bs = reverse l ++ bsc → (length l < 62)%nat → mine_after_tx_ ss = 1 → mineable ss tx pool fee →
  (∀ i, (i < S later)%nat → ∃ h, tcp_accept (clients i).1 listener = Ok h) →
  is_program eof (clients 0%nat).2 submitter (session ss) →
  (∀ i, (0 < i < S later)%nat → can_follow bs ss (followers i) ∧ (length (fo_missing (followers i)) < 63)%nat ∧
     is_program eof (clients i).2 (client_of (followers i)) (session mined)) →
  ∃ b, peer_ok (b :: bs) mined ∧
    transactions b =
      [make_coinbase (peer_height ss + 1) (block_subsidy (params_ (chain_ ss)) + fee)
         (coinbase_recipient (tmpl_params_ ss)); tx] ∧
    serve_sessions ios clients listener (S later) 0 result (ss, ws) =
      ((mined, ws), Ok (mkRelayServerResult (wrap32 (Z.of_nat (S later))) (listen_port result)
                          (mkRelaySessionSummary (peer_height ss + 1) 0))) ∧
    (∀ i, (0 < i < S later)%nat → let f := followers i in
       ∃ s, chain_ s = chain_ mined ∧
         ∀ k net, nsteps (net_step eof) k (mkNet (client_of f) (session mined) [] []) net → at_rest (net_step eof) net →
           left_ net = CRet (synced (fo_ios f) (fo_config f) (s, fo_world f))).
Proof.
  intros session submitter mined He Hss Hsc His Hic Hf Hp Hpc Hps Hcp Hh El Hl Hafter Hmine Hacpt Hsub Hcl.
  destruct (submission_run iosc ios eof config bs bsc l ss sc ws wc tx pool fee) as
    (b & sc' & ss' & Hsc' & Hss' & Ech & Hset & Eh & Hfit & Htxs & Hempty & Hrun); try assumption.
  pose proof Hset as (_ & Enode & _ & _ & _ & _ & Epers & _ & Epar).
  assert (persist_ ss' = false) as Hps' by congruence.
  assert (make_relay_summary ss' = mkRelaySessionSummary (peer_height ss + 1) 0) as Esum
    by (unfold make_relay_summary, pool_size; by rewrite Hempty, Eh).
  assert (play (clients 0%nat).2 0 0 (session ss) = ((ss', ws), Ok (make_relay_summary ss'))) as Hplay.
  { rewrite <- (served_quiet ios ss' ws Hps'). eapply play_program; [eexists; exact Hrun|exact Hsub]. }
  assert (mined = ss') as Em by (unfold mined; by rewrite Hplay). clearbody mined. subst mined.
  exists b. split; [done|]. split; [done|].
  assert (node_id_ok ss') as Hid' by (unfold node_id_ok; by rewrite Enode).
  assert (∀ i, (0 < i < S later)%nat → ∃ s, peer_ok (b :: bs) s ∧ chain_ s = chain_ ss' ∧
    completes eof (client_of (followers i)) (session ss') (synced (fo_ios (followers i)) (fo_config (followers i)) (s, fo_world (followers i)))
      (served ios (ss', ws))) as Hfol.
  { intros i Hi. destruct (Hcl i Hi) as (Hfo & Hlen & _).
    apply (follower_completes ios eof He Hss' Hid' (Forall_cons_2 _ _ _ Hfit Hf) ltac:(rewrite Eh; exact Hh) (behind_by b (followers i))).
    by apply (can_follow_more b bs ss). }
  split.
  - rewrite <- Esum. set (nodes := λ i, match i with O => (ss, ws) | _ => (ss', ws) end).
    apply (sessions_served ios clients listener nodes (λ _, make_relay_summary ss') (S later) 0).
    intros i Hi. split; [apply Hacpt; lia|]. destruct i as [|i]; [exact Hplay|]. cbn [nodes].
    rewrite <- (served_quiet ios ss' ws Hps'). destruct (Hfol (S i)) as (s & _ & _ & Hc); [lia|].
    destruct (Hcl (S i)) as (_ & _ & Hpr); [lia|]. eapply play_program; [exact Hc|exact Hpr].
  - intros i Hi f. destruct (Hfol i Hi) as (s & _ & Hcs & Hc). exists s. split; [exact Hcs|].
    intros k net Hk Hr. by rewrite (completes_unique _ _ _ _ _ _ _ Hc Hk Hr).
Qed.

Definition coin_follower : Follower := mkFollower sample_ios quiet_config [sample_genesis] [] coin_peer sample_world.

Lemma coin_follows : can_follow [sample_genesis] coin_peer coin_follower.
Proof. split; [apply coin_peer_ok|apply sample_state_id|reflexivity|reflexivity|reflexivity|apply Nat.lt_0_succ]. Qed.

(** The transaction of [coin_spend] reaches a second client, which had the genesis block only. *)
Lemma mined_block_spreads_witness :
  ∃ clients b mined, peer_ok [b; sample_genesis] mined ∧ transactions b = [coin_reward; coin_spend] ∧
    serve_sessions sample_ios clients 3 2 0 (mkRelayServerResult 0 9000 (mkRelaySessionSummary 0 0)) (coin_peer, sample_world) =
      ((mined, sample_world), Ok (mkRelayServerResult 2 9000 (mkRelaySessionSummary 1 0))).
Proof.
  pose proof coin_peer_ok as Hok. pose proof (sample_state_id sample_chain0 1 (<[0 := sample_genesis]> ∅)) as Hid.
  assert (Forall block_fits [sample_genesis]) as Hfits by (apply Forall_singleton, genesis_fits).
  assert (0 < 62)%nat as Hl by apply Nat.lt_0_succ. assert (0 < 63)%nat as Hl' by apply Nat.lt_0_succ.
  destruct (submission_run sample_ios sample_ios sample_eof quiet_config [sample_genesis] [sample_genesis] [] coin_peer coin_peer
    sample_world sample_world coin_spend coin_pool 1000) as (b & sc' & ss' & _ & Hss' & _ & Hset & Eh & Hfit & _ & _ & Hrun);
    [reflexivity|exact Hok|exact Hok|exact Hid|exact Hid|exact Hfits|reflexivity|reflexivity|reflexivity|
     reflexivity|reflexivity|reflexivity|exact Hl|reflexivity|exact coin_mineable|].
  pose proof Hset as (_ & Enode & _ & _ & _ & _ & Epers & _ & Epar).
  assert (node_id_ok ss') as Hid' by (unfold node_id_ok; rewrite Enode; exact Hid).
  assert (completes sample_eof (relay_client_session sample_ios quiet_config (one_tx coin_spend) (coin_peer, sample_world))
    (serve_relay_connection sample_ios (coin_peer, sample_world)) _ _) as Hc0 by (eexists; exact Hrun).
  destruct (program_exists _ _ _ _ _ Hc0) as [p0 Hp0].
  destruct (follower_completes sample_ios sample_eof eq_refl Hss' Hid' (Forall_cons_2 _ _ _ Hfit Hfits)
    ltac:(rewrite Eh; reflexivity) (behind_by b coin_follower) sample_world) as (s & _ & _ & Hc1);
    [exact (can_follow_more b [sample_genesis] coin_peer ss' coin_follower Epar Hl' coin_follows)|].
  destruct (program_exists _ _ _ _ _ Hc1) as [p1 Hp1].
  assert (play p0 0 0 (serve_relay_connection sample_ios (coin_peer, sample_world)) =
    ((ss', sample_world), Ok (make_relay_summary ss'))) as Hplay.
  { rewrite <- (served_quiet sample_ios ss' sample_world Epers). exact (play_program _ _ _ _ _ _ Hc0 Hp0). }
  set (clients := λ n, (sample_os, match n with O => p0 | _ => p1 end)).
  destruct (mined_block_spreads sample_ios sample_ios sample_eof quiet_config clients (λ _, coin_follower) 3
    [sample_genesis] [sample_genesis] [] coin_peer coin_peer sample_world sample_world coin_spend coin_pool 1000 1
    (mkRelayServerResult 0 9000 (mkRelaySessionSummary 0 0))) as (b' & Hb' & Htxs & Hserve & _);
    [reflexivity|exact Hok|exact Hok|exact Hid|exact Hid|exact Hfits|reflexivity|reflexivity|reflexivity|
     reflexivity|reflexivity|reflexivity|exact Hl|reflexivity|exact coin_mineable| |exact Hp0| |].
  - intros i _. by eexists.
  - intros i Hi. assert (i = 1%nat) as -> by lia. split; [exact coin_follows|]. split; [exact Hl'|].
    cbn [clients snd]. rewrite Hplay. exact Hp1.
  - exists clients, b', (play (clients 0%nat).2 0 0 (serve_relay_connection sample_ios (coin_peer, sample_world))).1.1.
    split; [exact Hb'|]. split; [exact Htxs|]. exact Hserve.
Defined.
