(* ===== verification/Cli.v ===== *)
(** * The program ([src/cli/main.cpp], [usage] of [src/node/config.cpp])

    [run] on the command line: the mode it selects, the text it prints and its exit code.
    [Machine] are the answers of the world: of the system to opening connections, of the
    disk, and of the peers that connect or are connected to.  The modelled functions throw
    nothing themselves; what the standard library throws through [run] (when memory runs
    out, say), with the disk it leaves and the text printed before, is an argument of [main]. *)

From S2P Require Import Prelude Errors Sha256 ByteIO Transaction Block Mempool Chain ChainStore P2pMessage P2pPayloads Effects Text SocketIO Config ConfigJson Args PeerState Network Simulator.
From Stdlib Require Import Strings.Ascii.

Definition nl : string := String "010" "".

Definition usage (program : string) : string :=
  "Usage: " +:+
  program +:+
  " [options]" +:+ nl +:+ nl +:+
  "Options:" +:+ nl +:+
  "  --config <path>            Load JSON config (CLI flags override file)" +:+ nl +:+
  "  --node-id <id>             Node identifier (default: node-0)" +:+ nl +:+
  "  --data-dir <path>          Data directory (default: ./data)" +:+ nl +:+
  "  --persist                  Write ledger.bin after simulator run" +:+ nl +:+
  "  --restore                  Load ledger.bin instead of mining (simulator)" +:+ nl +:+
  "  --log-level <level>        error|warn|info|debug|trace (default: info)" +:+ nl +:+
  "  --genesis-timestamp <n>    Deterministic genesis timestamp (default: 0)" +:+ nl +:+
  "  --max-block-size <bytes>   Override max block size (default: protocol limit)" +:+ nl +:+
  "  --mine-blocks <n>          Mine n blocks after genesis (default: 0)" +:+ nl +:+
  "  --mine-after-tx <n>        Relay: mine n blocks after each tx announce (default: 0)" +:+ nl +:+
  "  --relay-max-sessions <n>   Relay server: serve n sequential peers (default: 1)" +:+ nl +:+
  "  --announce-tx-file <path>  Relay client: announce tx from file (repeatable)" +:+ nl +:+
  "  --relay-blocks-after-tx <n> Relay client: pull n blocks after tx announce (default: 0)" +:+ nl +:+
  "  --mempool-max-transactions <n> Mempool tx count limit (default: documented default)" +:+ nl +:+
  "  --mempool-max-bytes <n>    Mempool total byte limit (default: documented default)" +:+ nl +:+
  "  --min-relay-feerate <n>    Minimum fee per serialized byte (default: 0)" +:+ nl +:+
  "  --block-subsidy <amount>   Coinbase subsidy per block (default: protocol)" +:+ nl +:+
  "  --coinbase-maturity <n>    Blocks before a coinbase may be spent (default: protocol)" +:+ nl +:+
  "  --coinbase-recipient <hex> 64-char hex payout address (default: zero)" +:+ nl +:+
  "  --network-mode <mode>      ping|relay when using TCP (default: ping)" +:+ nl +:+
  "  --listen-host <ipv4>        Bind address for TCP server (default: 127.0.0.1)" +:+ nl +:+
  "  --listen-port <port>        Run TCP server (0 = ephemeral port)" +:+ nl +:+
  "  --port-file <path>           Write bound listen port to this file after bind" +:+ nl +:+
  "  --peer <host:port>         Connect as TCP client to host:port" +:+ nl +:+
  "  -h, --help                 Show this help and exit" +:+ nl.

Record Machine := mkMachine {
  mc_os : Os;
  mc_clients : nat → Os * Peer;
  mc_server : Peer;
  mc_ios : nat → Io;
  mc_file_io : Io;
}.

Record Output := mkOutput { exit_code : Z; std_out : string; std_err : string }.

Definition prints (text : string) : Output := mkOutput 0 text "".
Definition fails (code : Z) (text : string) : Output := mkOutput code "" text.

Definition network_error (e : Error) : Output := fails 1 ("network error: " +:+ message e +:+ nl).

Section Run.
Context (mc : Machine).

(** The branch for a server. *)
Definition run_server (config : NodeConfig) (w : World) : World * Output :=
  if bool_decide (cfg_network_mode config = nmRelay) then
    match run_relay_server (mc_ios mc) (mc_os mc) (mc_file_io mc) (mc_clients mc) config
            (mkRelayServerOptions 0 false) w with
    | (w, Err e) => (w, network_error e)
    | (w, Ok ok) =>
        (w, prints ("relay server completed on " +:+ cfg_listen_host config +:+ ":" +:+
              std_to_string (listen_port ok) +:+
              (if cfg_restore config then " (restored from " +:+ cfg_data_dir config +:+ ")" else "") +:+ nl +:+
              (if 1 <? sessions_completed ok
               then "  sessions served: " +:+ std_to_string (sessions_completed ok) +:+ nl else "") +:+
              "  chain height:   " +:+ std_to_string (rs_height (last_session ok)) +:+ nl))
    end
  else
    match run_ping_server (mc_os mc) (mc_file_io mc) (mc_clients mc 0%nat) config (w_disk w) with
    | (d, Err e) => (mkWorld d (w_calls w), network_error e)
    | (d, Ok _) =>
        (mkWorld d (w_calls w), prints ("ping server completed on " +:+ cfg_listen_host config +:+
           (if negb (cfg_listen_port config =? 0) then ":" +:+ std_to_string (cfg_listen_port config) else "") +:+ nl))
    end.

(** The branch for a client. *)
Definition run_client (config : NodeConfig) (w : World) : World * Output :=
  let peer := cfg_peer_host config +:+ ":" +:+ std_to_string (cfg_peer_port config) in
  if bool_decide (cfg_network_mode config = nmRelay) then
    match relay_client_options_from_config (mc_file_io mc) config (w_disk w) with
    | Err e => (w, fails 2 ("configuration error: " +:+ message e +:+ nl))
    | Ok options =>
        match play (mc_server mc) 0 0 (run_relay_client (mc_ios mc) (mc_os mc) config options w) with
        | (w, Err e) => (w, network_error e)
        | (w, Ok ok) =>
            (w, prints ("relay client completed (" +:+ peer +:+ ")" +:+ nl +:+
                  "  chain height:   " +:+ std_to_string (rc_height ok) +:+ nl +:+
                  "  tip hash:       " +:+ to_hex (rc_tip_hash ok) +:+ nl))
        end
    end
  else
    match play (mc_server mc) 0 0 (run_ping_client (mc_os mc) config) with
    | Err e => (w, network_error e)
    | Ok _ => (w, prints ("ping client completed (" +:+ peer +:+ ")" +:+ nl))
    end.

Definition summary_text (config : NodeConfig) (summary : SimulatorSummary) : string :=
  "blockchain simulator (stage 1)" +:+ nl +:+
  "  node id:        " +:+ cfg_node_id config +:+ nl +:+
  "  data dir:       " +:+ cfg_data_dir config +:+ nl +:+
  "  log level:      " +:+ log_level_name (cfg_log_level config) +:+ nl +:+
  "  restored:       " +:+ (if sum_restored_from_disk summary then "yes" else "no") +:+ nl +:+
  "  genesis time:   " +:+ std_to_string (cfg_genesis_timestamp config) +:+ nl +:+
  "  genesis hash:   " +:+ to_hex (sum_genesis_hash summary) +:+ nl +:+
  "  blocks mined:   " +:+ std_to_string (sum_blocks_mined summary) +:+ nl +:+
  "  chain height:   " +:+ std_to_string (sum_height summary) +:+ nl +:+
  "  tip hash:       " +:+ to_hex (sum_tip_hash summary) +:+ nl +:+
  "  utxo set size:  " +:+ std_to_string (sum_utxo_count summary) +:+ nl +:+
  "  txs admitted:   " +:+ std_to_string (sum_txs_admitted summary) +:+ nl +:+
  "  txs included:   " +:+ std_to_string (sum_txs_included summary) +:+ nl +:+
  "  total fees:     " +:+ std_to_string (sum_total_fees summary) +:+ nl +:+
  (if cfg_persist config then "  ledger saved:   " +:+ cfg_data_dir config +:+ "/ledger.bin" +:+ nl else "").

(** The branch for the simulator; it makes the ledger accesses from [w_calls w] on. *)
Definition run_simulation (config : NodeConfig) (w : World) : World * Output :=
  let '(d, r) := run_simulator (λ i, mc_ios mc (w_calls w + i)%nat) config
                   (mkSimulatorOptions [] (mkMempoolLimits 0 0)) (w_disk w) in
  (mkWorld d (w_calls w + 2)%nat,
   match r with
   | Err e => fails 1 ("simulator error: " +:+ message e +:+ nl)
   | Ok summary => prints (summary_text config summary)
   end).

Definition run (args : list string) (program : string) (w : World) : World * Output :=
  match parse_args (mc_file_io mc) args (w_disk w) with
  | Err e =>
      if bool_decide (message e = "help requested") then (w, prints (usage program))
      else (w, fails 2 ("configuration error: " +:+ message e +:+ nl +:+ nl +:+ usage program))
  | Ok config =>
      if network_mode_enabled config then
        if is_network_server config then run_server config w else run_client config w
      else run_simulation config w
  end.

(** What may be thrown: a [std::exception] with its [what()], or something else. *)
Inductive Thrown := std_exception (what : string) | other_exception.

Definition main (argv : list string) (thrown : option (World * string * Thrown)) (w : World) : World * Output :=
  let program := match argv with program :: _ => program | [] => "blockchain_node" end in
  let args := tail argv in
  match thrown with
  | None => run args program w
  | Some (w, printed, std_exception what) => (w, mkOutput 1 printed ("fatal: " +:+ what +:+ nl))
  | Some (w, printed, other_exception) => (w, mkOutput 1 printed ("fatal: unknown error" +:+ nl))
  end.
End Run.
