(* ===== verification/CliTheorems.v ===== *)
(** * Properties of the configuration and of the program *)

From S2P Require Import Prelude Errors Sha256 ByteIO Transaction Block Utxo TxValidation BlockValidation Mempool Chain BlockBuilder ChainStore P2pMessage P2pPayloads Effects Text SocketIO Config ConfigJson Args PeerState PeerInv Network NodeStart Simulator NodeSamples Shipped NodeTheorems Cli.
From Stdlib Require Import Strings.Ascii.

(** C27: configuration files are understood exactly.  A text of the language of [parses_as],
    whatever its blanks, its order of members and their repetition, means the assignments
    of its members in order from the defaults, followed by validation, with the same error
    when one of them is refused; and every text that is accepted is of the language. *)
Theorem config_json_exact (json : string) :
  (∀ kvs, parses_as (chars json) kvs →
     parse_config_json json = (c ← apply_fields kvs default_config; _ ← validate c; mret c)) ∧
  (∀ c, parse_config_json json = Ok c →
     ∃ kvs, parses_as (chars json) kvs ∧ apply_fields kvs default_config = Ok c ∧ config_valid c).
Proof. split; [apply parse_config_text|apply parse_config_inv]. Qed.

(** [{"mine_blocks": 2}] *)
Definition sample_members : list (string * ConfigValue) := [("mine_blocks", cvUint 2)].
Definition sample_json : string :=
  of_chars ("{"%char :: (json_quote :: chars "mine_blocks" ++ json_quote :: ":"%char :: [" "%char] ++ ["2"%char]) ++
            [] ++ ["}"%char]).

Lemma sample_json_text : parses_as (chars sample_json) sample_members.
Proof.
  assert (member_text (json_quote :: chars "mine_blocks" ++ json_quote :: ":"%char :: [" "%char] ++ ["2"%char])
    (of_chars (chars "mine_blocks"), cvUint 2)) as Hm.
  { apply mt_member; [|by repeat constructor|by constructor].
    split; intros H; by apply (bool_decide_eq_true_2 _) in H; vm_compute in H. }
  pose proof (ot_members [] _ _ (Forall_nil_2 _) (ms_last _ _ [] Hm (Forall_nil_2 _))) as Ho.
  eexists _, []. split; [|split; [exact Ho|constructor]]. reflexivity.
Qed.

Lemma config_json_exact_witness : parse_config_json sample_json = Ok (set_mine_blocks 2 default_config).
Proof. exact (proj1 (config_json_exact sample_json) sample_members sample_json_text). Defined.

(** C29: every configuration the node runs with is usable: what a configuration file or a
    command line, with or without a file, is turned into has every field within the range
    of its type and passes the validation, for any input and any contents of the disk. *)
Theorem configurations_checked (io : Io) (d : Disk) (c : NodeConfig) :
  (∀ json, parse_config_json json = Ok c → config_typed c ∧ config_valid c) ∧
  (∀ path, load_config_file io path d = Ok c → config_typed c ∧ config_valid c) ∧
  (∀ args, parse_args io args d = Ok c → config_typed c ∧ config_valid c).
Proof.
  split_and!; intros; [by eapply parse_config_typed|by eapply load_config_typed|by eapply parse_args_typed].
Qed.

Lemma configurations_checked_witness : config_typed mining_config ∧ config_valid mining_config.
Proof.
  apply (proj1 (configurations_checked (sample_ios 0) ∅ mining_config) sample_json). vm_compute. reflexivity.
Defined.

(** C28: the command line can say everything: each valid configuration, written as flags, is
    read back unchanged, provided no value is the text [--config] itself. *)
Theorem command_line_roundtrip (io : Io) (c : NodeConfig) (d : Disk) :
  expressible c → parse_args io (args_of c) d = Ok c.
Proof. apply parse_args_of. Qed.

(** A relay client with a transaction to announce. *)
Definition sample_client : NodeConfig :=
  set_announce_tx_files ["tx.bin"] (set_network_mode nmRelay (set_peer_port 8333 (set_peer_host "10.0.0.1"
    (set_max_block_size_bytes 1000 default_config)))).

Lemma command_line_roundtrip_witness : parse_args (sample_ios 0) (args_of sample_client) ∅ = Ok sample_client.
Proof.
  apply (command_line_roundtrip (sample_ios 0) sample_client ∅). split.
  - vm_decide.
  - apply validate_Ok. reflexivity.
  - reflexivity.
  - split; intros H; discriminate H.
  - repeat (constructor; [intros H; discriminate H|]). constructor.
Defined.

(** ** The program end to end *)

Lemma simulator_mines ios config recipient d :
  config_typed config → resolve_coinbase_recipient config = Ok recipient →
  cfg_restore config = false → cfg_persist config = false →
  cfg_genesis_timestamp config + cfg_mine_blocks config < 2 ^ 64 →
  block_subsidy (build_consensus_params config) * (cfg_mine_blocks config + 1) ≤ kMaxMoney →
  cfg_max_block_size_bytes config ≤ kMaxBlockSizeBytes →
  collision_free (coinbase_strings config recipient (Z.to_nat (cfg_mine_blocks config))) →
  ∃ s bs, run_simulator ios config (mkSimulatorOptions [] (mkMempoolLimits 0 0)) d =
      (d, Ok (summary_from_chain (build_genesis_block config) (sim_chain s) (sim_stats s) false)) ∧
    plain_run config recipient (resolved_mempool_limits config) (Z.to_nat (cfg_mine_blocks config)) bs s.
Proof.
  intros Hty Hr Hre Hp Hts Hmo Hsz Hcf. pose proof Hty as (_ & _ & _ & Hm & _).
  set (n := Z.to_nat (cfg_mine_blocks config)) in *.
  assert (Z.of_nat n = cfg_mine_blocks config) as En by (apply Z2Nat.id; solve_u).
  destruct (resolved_limits_range config Hty) as (Hl1 & Hl2 & _).
  destruct (plain_mine config Hty recipient Hr n Hcf ltac:(rewrite En; solve_u) ltac:(rewrite En; exact Hts)
    ltac:(rewrite En; exact Hmo) Hsz (resolved_mempool_limits config) Hl1 Hl2 n 0 _ _
    (plain_start config Hty recipient _ Hl1 Hl2)) as (bs & s & E & Hs); [lia|].
  exists s, bs. split; [|exact Hs].
  rewrite (run_from_genesis config Hty recipient Hr ios _ d [mkSimulatorStep [] (cfg_mine_blocks config)] s Hre);
    [by rewrite Hp|done|].
  cbn [run_steps submit_txs step_mine_blocks admit_transactions]. fold n. unfold mbind, SR_bind. cbn [mret SR_ret].
  change (resolve_mempool_limits config (mkSimulatorOptions [] (mkMempoolLimits 0 0))) with
    (resolved_mempool_limits config). by rewrite E.
Qed.

(** C11: the program end to end.  Started with the command line of a valid configuration
    without network or ledger, the node reads it back, creates its chain, mines the blocks
    it was asked for, prints a summary with that height and exits with 0; no file changes. *)
Theorem command_line_mines (mc : Machine) (config : NodeConfig) (recipient : Hash256) (program : string) (w : World) :
  expressible config → network_mode_enabled config = false →
  resolve_coinbase_recipient config = Ok recipient →
  cfg_restore config = false → cfg_persist config = false →
  cfg_genesis_timestamp config + cfg_mine_blocks config < 2 ^ 64 →
  block_subsidy (build_consensus_params config) * (cfg_mine_blocks config + 1) ≤ kMaxMoney →
  cfg_max_block_size_bytes config ≤ kMaxBlockSizeBytes →
  collision_free (coinbase_strings config recipient (Z.to_nat (cfg_mine_blocks config))) →
  ∃ w' summary, main mc (program :: args_of config) None w = (w', mkOutput 0 (summary_text config summary) "") ∧
    w_disk w' = w_disk w ∧ sum_height summary = cfg_mine_blocks config ∧
    sum_blocks_mined summary = cfg_mine_blocks config ∧ sum_total_fees summary = 0 ∧
    sum_txs_included summary = 0 ∧ sum_restored_from_disk summary = false.
Proof.
  intros He Hnet Hr Hre Hp Hts Hmo Hsz Hcf. pose proof (ex_typed _ He) as Hty. pose proof Hty as (_ & _ & _ & Hm & _).
  destruct (simulator_mines (λ i, mc_ios mc (w_calls w + i)%nat) config recipient (w_disk w) Hty Hr Hre Hp Hts Hmo Hsz Hcf)
    as (s & bs & E & [_ Hch Hlen _ _ Hst]).
  eexists _, _. split; [|split].
  - unfold main, run. cbn [tail]. rewrite (parse_args_of _ _ _ He), Hnet. unfold run_simulation. rewrite E. reflexivity.
  - reflexivity.
  - pose proof (chain_of_height _ (consensus_params_wf config Hty) _ _ Hch) as Hh. rewrite Hlen in Hh.
    cbn [summary_from_chain sum_height sum_blocks_mined sum_total_fees sum_txs_included sum_restored_from_disk].
    rewrite Hst. cbn [blocks_mined total_fees txs_included]. split_and!; [solve_u..|done|done|done].
Qed.

Definition sample_machine : Machine :=
  mkMachine (mkOs (λ _, true) 3 true true true true 8333 4 0)
    (λ _, (mkOs (λ _, true) 3 true true true true 8333 4 0, mkPeer (λ _, Ok tt) (λ _, Err sample_eof)))
    (mkPeer (λ _, Ok tt) (λ _, Err sample_eof)) sample_ios (sample_ios 0).

Lemma command_line_mines_witness :
  ∃ w' summary, main sample_machine ("node" :: args_of mining_config) None sample_world =
    (w', mkOutput 0 (summary_text mining_config summary) "") ∧ sum_height summary = 2.
Proof.
  destruct (command_line_mines sample_machine mining_config zero_hash "node" sample_world) as
    (w' & summary & E & _ & Hh & _).
  - split.
    + vm_decide.
    + apply validate_Ok. reflexivity.
    + reflexivity.
    + split; reflexivity.
    + repeat (constructor; [intros H; discriminate H|]). constructor.
  - reflexivity.
  - reflexivity.
  - reflexivity.
  - reflexivity.
  - by vm_compute.
  - by vm_compute.
  - by vm_compute.
  - exact mining_strings_differ.
  - exists w', summary. split; [exact E|exact Hh].
Defined.

(** ** The example of the simulator *)

Lemma simulator_file io d path : d !! path = Some (bytes_of simulator_text) → io_read io = true →
  load_config_file io path d = Ok simulator_config.
Proof.
  intros Hd Hr. unfold load_config_file. rewrite Hd, (io_read_sized _ Hr), Hr.
  assert (kMaxConfigFileBytes <? size_z (bytes_of simulator_text) = false) as -> by (by vm_compute).
  cbn [negb]. unfold bytes_of. rewrite String.string_of_list_byte_of_string. exact simulator_parses.
Qed.

(** C36: the example configuration of the simulator does not run the simulator.  The file has
    a [listen_port], which makes the node a server whatever its value: the documented
    command waits for a peer to ping, makes no access to a ledger, and prints no summary;
    and no flag that follows, such as the [--mine-blocks] and [--persist] of the README,
    brings the simulator back. *)
Theorem simulator_example_listens (mc : Machine) (program path : string) (args : list string) (w : World) :
  w_disk w !! path = Some (bytes_of simulator_text) → io_read (mc_file_io mc) = true →
  Forall (λ s, s ≠ "--config") args →
  (∀ config, parse_args (mc_file_io mc) ("--config" :: path :: args) (w_disk w) = Ok config →
     main mc (program :: "--config" :: path :: args) None w = run_server mc config w) ∧
  ∃ w' out, main mc [program; "--config"; path] None w = (w', out) ∧ w_calls w' = w_calls w ∧
    (exit_code out = 1 ∧ std_out out = "" ∨
     exit_code out = 0 ∧ std_out out = "ping server completed on 127.0.0.1" +:+ nl).
Proof.
  intros Hd Hr Hargs. pose proof (simulator_file (mc_file_io mc) (w_disk w) path Hd Hr) as Hload.
  assert (∀ args, Forall (λ s, s ≠ "--config") args →
    config_file_path ("--config" :: path :: args) None = Ok (Some path)) as Hpath
    by (intros l Hl; exact (config_file_path_none l (Some path) Hl)).
  split.
  - intros config Hc. unfold main, run. cbn [tail]. rewrite Hc.
    unfold parse_args in Hc. rewrite Hpath in Hc by done. apply bind_Ok in Hc as (p & Hp & Hc). injection Hp as <-.
    rewrite Hload in Hc. apply bind_Ok in Hc as (c0 & Hc0 & Hc). injection Hc0 as <-.
    apply bind_Ok in Hc as (c1 & Hf & ([] & _ & [= <-])%bind_Ok).
    cbn [parse_flags] in Hf. apply parse_flags_listens in Hf; [|reflexivity].
    unfold network_mode_enabled, is_network_server. by rewrite Hf.
  - assert (parse_args (mc_file_io mc) ["--config"; path] (w_disk w) = Ok simulator_config) as Hc.
    { unfold parse_args. rewrite Hpath by constructor. rsimpl. rewrite Hload. rsimpl. reflexivity. }
    unfold main, run. cbn [tail]. rewrite Hc. change (network_mode_enabled simulator_config) with true.
    change (is_network_server simulator_config) with true. cbn iota. unfold run_server.
    change (bool_decide (cfg_network_mode simulator_config = nmRelay)) with false. cbn iota.
    destruct (run_ping_server _ _ _ _ _) as [d [[]|e]]; eexists _, _; (split; [reflexivity|split; [reflexivity|]]).
    + right. split; reflexivity.
    + left. split; reflexivity.
Qed.

Lemma simulator_example_listens_witness :
  ∃ w' out, main sample_machine ["node"; "--config"; "configs/simulator.example.json"] None
    (mkWorld {[ "configs/simulator.example.json" := bytes_of simulator_text ]} 0) = (w', out) ∧ w_calls w' = 0%nat.
Proof.
  destruct (simulator_example_listens sample_machine "node" "configs/simulator.example.json" []
    (mkWorld {[ "configs/simulator.example.json" := bytes_of simulator_text ]} 0)) as (_ & w' & out & H & Hw & _);
    [apply lookup_singleton_eq|reflexivity|constructor|].
  exists w', out. split; [exact H|exact Hw].
Defined.

(** The configuration, or a file of transactions that it names, is refused: for a reason
    other than that help was asked for. *)
Inductive configuration_refused (mc : Machine) (args : list string) (d : Disk) : Prop :=
  | cr_arguments e : parse_args (mc_file_io mc) args d = Err e → message e ≠ "help requested" →
      configuration_refused mc args d
  | cr_announced config e : parse_args (mc_file_io mc) args d = Ok config → is_network_server config = false →
      is_network_client config = true → cfg_network_mode config = nmRelay →
      relay_client_options_from_config (mc_file_io mc) config d = Err e → configuration_refused mc args d.

(** What the exit code says of the text. *)
Inductive reported : Output → Prop :=
  | rp_done text : text ≠ "" → reported (prints text)
  | rp_failed code text : code = 1 ∨ code = 2 → text ≠ "" → reported (fails code text).

Lemma reported_network e : reported (network_error e).
Proof. apply rp_failed; [by left|discriminate]. Qed.

Lemma server_reported mc config w : let out := (run_server mc config w).2 in reported out ∧ exit_code out ≠ 2.
Proof.
  unfold run_server. destruct (bool_decide _).
  - destruct (run_relay_server _ _ _ _ _ _ _) as [w' [ok|e]]; (split; [|discriminate]); [by apply rp_done|apply reported_network].
  - destruct (run_ping_server _ _ _ _ _) as [d' [ok|e]]; (split; [|discriminate]); [by apply rp_done|apply reported_network].
Qed.

Lemma client_reported mc config w : let out := run_client mc config w in
  reported out.2 ∧ (exit_code out.2 = 2 → out.1 = w) ∧
  (exit_code out.2 = 2 ↔ cfg_network_mode config = nmRelay ∧
     ∃ e, relay_client_options_from_config (mc_file_io mc) config (w_disk w) = Err e).
Proof.
  unfold run_client. case_bool_decide as Hm.
  - destruct (relay_client_options_from_config _ _ _) as [options|e].
    + destruct (play _ _ _ _) as [w' [ok|e]]; (split; [|split; [discriminate|split; [discriminate|by intros (_ & ? & ?)]]]);
        [by apply rp_done|apply reported_network].
    + split; [apply rp_failed; [by right|discriminate]|]. split; [done|]. split; [|done]. intros _. split; [done|by exists e].
  - destruct (play _ _ _ _) as [ok|e]; (split; [|split; [intros H; discriminate H|split; [intros H; discriminate H|by intros [? _]]]]);
      [by apply rp_done|apply reported_network].
Qed.

Lemma simulation_reported mc config w : let out := (run_simulation mc config w).2 in reported out ∧ exit_code out ≠ 2.
Proof.
  unfold run_simulation. destruct (run_simulator _ _ _ _) as [d [sum|e]]; cbn [fst snd].
  - split; [by apply rp_done|discriminate].
  - split; [apply rp_failed; [by left|discriminate]|discriminate].
Qed.

Lemma reported_codes out : reported out →
  (exit_code out = 0 ∨ exit_code out = 1 ∨ exit_code out = 2) ∧ (exit_code out = 0 ↔ std_err out = "") ∧
  (exit_code out = 0 → std_out out ≠ "") ∧ (exit_code out ≠ 0 → std_out out = "").
Proof. intros [text Ht|code text [-> | ->] Ht]; cbn; split_and!; auto; done. Qed.

(** Without exceptions. *)
Lemma run_reported mc args program w : let out := run mc args program w in
  reported out.2 ∧ (exit_code out.2 = 2 ↔ configuration_refused mc args (w_disk w)) ∧ (exit_code out.2 = 2 → out.1 = w).
Proof.
  assert (∀ P c, parse_args (mc_file_io mc) args (w_disk w) = Ok c →
    (is_network_server c = false → is_network_client c = true → cfg_network_mode c = nmRelay →
     ∀ e, relay_client_options_from_config (mc_file_io mc) c (w_disk w) = Err e → P : Prop) →
    configuration_refused mc args (w_disk w) → P) as Hcases.
  { intros P c Ea H [e He|c' e He]; rewrite Ea in He; [discriminate He|]. injection He as <-. by eapply H. }
  unfold run. destruct (parse_args _ _ _) as [config|e] eqn:Ea.
  - destruct (network_mode_enabled config) eqn:En; [destruct (is_network_server config) eqn:Es|].
    + pose proof (server_reported mc config w) as [Hr Hc]. split; [done|]. split; [|done]. split; [done|].
      refine (Hcases _ config eq_refl _). intros E. congruence.
    + pose proof (client_reported mc config w) as (Hr & Hw & Hc). split; [done|]. split; [|done]. rewrite Hc. split.
      * intros (Hm & e & He). eapply cr_announced; [exact Ea|exact Es| |exact Hm|exact He].
        unfold network_mode_enabled in En. by rewrite Es in En.
      * refine (Hcases _ config eq_refl _). intros _ _ Hm e He. split; [done|by exists e].
    + pose proof (simulation_reported mc config w) as [Hr Hc]. split; [done|]. split; [|done]. split; [done|].
      refine (Hcases _ config eq_refl _). intros _ Hcl. unfold network_mode_enabled in En. rewrite Hcl, orb_true_r in En. done.
  - case_bool_decide as Hm; cbn [fst snd].
    + split; [by apply rp_done|]. split; [|done]. split; [done|]. intros [e' H|c e' H]; rewrite Ea in H; congruence.
    + split; [apply rp_failed; [by right|discriminate]|]. split; [|done]. split; [|done]. intros _. by eapply cr_arguments.
Qed.

(** C20: the exit code tells how the program ended, on every command line, disk and network.
    It is 0, 1 or 2.  Code 0 comes with text on the standard output only.  The other codes
    come with text on the standard error, and with nothing on the standard output unless an
    exception ended the program.  Code 2 means exactly that no exception ended it and that
    the configuration, or a file of transactions that it names, was refused; then nothing has
    been written, no ledger and no port file. *)
Theorem main_exit_codes (mc : Machine) (argv : list string) (thrown : option (World * string * Thrown)) (w : World) :
  let '(w', out) := main mc argv thrown w in
  (exit_code out = 0 ∨ exit_code out = 1 ∨ exit_code out = 2) ∧
  (exit_code out = 0 ↔ std_err out = "") ∧ (exit_code out = 0 → std_out out ≠ "") ∧
  (exit_code out ≠ 0 → thrown = None → std_out out = "") ∧ (thrown ≠ None → exit_code out = 1) ∧
  (exit_code out = 2 ↔ thrown = None ∧ configuration_refused mc (tail argv) (w_disk w)) ∧
  (exit_code out = 2 → w' = w).
Proof.
  destruct thrown as [[[wt printed] [what|]]|]; unfold main.
  1-2: cbn [exit_code std_err std_out]; split_and!; try done; [by right; left|by split; [|intros [? _]]].
  pose proof (run_reported mc (tail argv) (match argv with program :: _ => program | [] => "blockchain_node" end) w) as (Hr & H2 & Hw).
  destruct (run _ _ _ _) as [w' out]. cbn [fst snd] in *. apply reported_codes in Hr as (? & ? & ? & ?).
  split_and!; try done; [by intros; auto|by rewrite H2; split; [|intros [_ ?]]].
Qed.

(** A flag that does not exist, and a transaction file that does not. *)
Lemma main_exit_codes_witness :
  exit_code (main sample_machine ["node"; "--no-such-flag"] None sample_world).2 = 2 ∧
  (main sample_machine ["node"; "--no-such-flag"] None sample_world).1 = sample_world ∧
  configuration_refused sample_machine ["--peer"; "10.0.0.1:8333"; "--network-mode"; "relay"; "--announce-tx-file"; "tx.bin"] ∅.
Proof.
  pose proof (main_exit_codes sample_machine ["node"; "--no-such-flag"] None sample_world) as H.
  pose proof (main_exit_codes sample_machine
    ["node"; "--peer"; "10.0.0.1:8333"; "--network-mode"; "relay"; "--announce-tx-file"; "tx.bin"] None sample_world) as H'.
  assert (exit_code (main sample_machine ["node"; "--no-such-flag"] None sample_world).2 = 2) as E by (vm_compute; reflexivity).
  assert (exit_code (main sample_machine
    ["node"; "--peer"; "10.0.0.1:8333"; "--network-mode"; "relay"; "--announce-tx-file"; "tx.bin"] None sample_world).2 = 2)
    as E' by (vm_compute; reflexivity).
  destruct (main sample_machine ["node"; "--no-such-flag"] None sample_world) as [w' out].
  destruct (main sample_machine (_ :: _ :: _ :: _) None sample_world) as [w2 out2]. cbn [fst snd] in *.
  destruct H as (_ & _ & _ & _ & _ & _ & Hw). destruct H' as (_ & _ & _ & _ & _ & Hc & _).
  split; [exact E|]. split; [by apply Hw|]. exact (proj2 (proj1 Hc E')).
Defined.
